(* ===== verification/_CoqProject ===== *)
-Q . S2P
Prelude.v
Text.v
RetryStore.v
RetryThrottle.v
RetryCodecModel.v
RetryTheory.v
RetryBudget.v
RetryRecovery.v
RecoveryTheory.v
RecoveryClaims.v
Services.v
Protocol.v
Authorization.v
Arbiter.v
ConnectionSlots.v
EventLog.v
EventLogTheory.v
FaceGate.v
FaceReply.v
LiveStatus.v
LiveTheory.v
AttemptRecord.v
AttemptTheory.v
Replacement.v
ReplacementTheory.v
ReplacementClaims.v
Ordering.v
CameraKeys.v
CameraStore.v
CameraStoreTheory.v
CommitJournal.v
CommitTheory.v
CommitClaims.v
CameraSelection.v
SelectionTheory.v
PinnedGroup.v
PamGrammar.v
PamLines.v
PamOverrides.v
PamWiring.v
PamArrange.v
PamDecide.v
PamSessionTheory.v
PamJumpTheory.v
PamWiringTheory.v
PamOverrideTheory.v
PamOverrideClaims.v
PamHeaderTheory.v
PamArrangeTheory.v
PamDecideTheory.v
PamDecideClaims.v
PamSeat.v
PamModule.v
PamModuleTheory.v
PamAttemptTheory.v
PamEntryTheory.v
PamTimeTheory.v
PamSeatTheory.v
PamStashTheory.v
PamHostModel.v
PamModuleClaims.v
Float.v
Liveness.v
Templates.v
IdentityArms.v
EngineDecision.v
Engine.v
EngineLoop.v
IdentityTheory.v
DecisionTheory.v
EngineTheory.v
CollectTheory.v
LoopTheory.v
VoteTheory.v
EngineModel.v
EngineClaims.v
UvcDescriptor.v
EmitterJournal.v
EmitterRecovery.v
EmitterTheory.v
