(* ===== verification/Prelude.v ===== *)
(** * irlume: a verification development

    irlume signs a Linux user in by face.  A root daemon ([irlumed],
    [src/crates/irlume-daemon]) owns the camera and answers newline-delimited
    requests on a Unix socket, from the PAM module, the command line and the
    desktop; the command line writes irlume's lines into the PAM stacks.  This
    library models the parts that decide: who may ask for what, when a face is
    looked at, which captures it accepts as that face, how attempts are
    charged, what the client finally reads, what is kept of an account on disk
    through failures and power losses, which camera a request uses, what the
    PAM module does with a reply, and what may be changed in a PAM stack.

    ** How the parts interact

    A connection takes a slot ([ConnectionSlots]).  Its request is checked
    against the posture table ([Protocol], [pregate]) and, when it changes
    enrolled trust, approved through polkit and bound to a grant
    ([Authorization]).  Camera work goes through the arbiter to the one worker
    thread ([Arbiter]); what waits and runs there is shown by [LiveStatus].
    A face request passes the policy gates ([FaceGate], over the tables of
    [Services]), uses the camera that [CameraSelection] picks over the
    bindings of [CameraKeys] and the groups of [CameraStore], on the
    enrollment state [PinnedGroup] pins, reserves an attempt on disk
    ([RetryThrottle] over [RetryStore]), runs the engine, and builds a reply
    that the connection thread admits once more before its first byte and
    then settles the attempt by ([FaceReply]); the attempt is filed in
    [AttemptRecord].  An account that has used up its attempts is reset by
    [RetryRecovery].  Enrollments are replaced through [Replacement] and
    added-camera stores published through [CommitJournal].  The firmware event
    log that the diagnostics rely on is [EventLog].

    The engine ([EngineLoop]) runs attempts on captures until one settles or
    the time is over.  An attempt turns a capture into measurements and model
    answers ([Engine]), which the liveness gate ([Liveness]) and the PAD rules
    judge, and compares its embeddings with the account's templates
    ([Templates], [IdentityArms]); [EngineDecision] decides on both, after the
    checks that the enrollment is still the one the attempt began on (the
    [GrantDecision] of [CommitJournal]).  Its outcome is the engine's answer
    in [FaceReply] ([delivered_grant_saw_live_face]).

    At the other end of the socket the PAM module ([PamModule]) stands down
    for remote sessions ([PamSeat]), asks for consent, sends the requests and
    hands the released secret to its consumer; what it sends passes the
    daemon's gate of [Protocol] ([requests_pass_intent_gate]).  Apart from both, the PAM stacks
    are read by [PamGrammar], wired by [PamWiring], and an override of a
    vendor's stack is decided on by [PamDecide].

    ** Files, and the code they model

    - [Prelude]: Rust's [Result], checked and saturating arithmetic, bytes and
      little-endian integers, a reader over bytes, and the text functions the
      code uses ([trim], [split_whitespace], [lines], [parse]); the [irlume]
      hint database and the tactics [reflect_bools] and [case_all].  [Text]:
      more of them ([split], [join], prefixes, trimming, UTF-8).
      [Ordering]: derived orders and sorting.
    - [RetryStore]: [irlume-daemon/src/retry_throttle.rs], the directory
      ([open_dir], [Store::lock], [read_bytes], [operation],
      [production_store]) and [write_atomic_reporting] of
      [irlume-common/src/lib.rs].  A [world] holds the files a reader sees and
      the files a power loss would leave, the locks, and a script of call
      failures; [M] threads it; [hoare] is the program logic of the proofs.
    - [RetryThrottle]: the record, its transitions, [Store::check] and the
      life of one [FaceAttempt] in the same source file.  [RetryCodecModel]: a
      concrete record codec that satisfies the class [RetryCodecOk] standing
      for serde.  [RetryTheory], [RetryBudget]: the proofs.
    - [RetryRecovery], [RecoveryTheory], [RecoveryClaims]:
      [retry_throttle/recovery.rs], its program logic and its theorems.
    - [Services]: [irlume-common/src/pam_service.rs],
      [irlume-core/src/biopolicy.rs] and [policy.rs].
    - [Protocol]: [Request], [OutcomeCause], [Error] and the replies of
      [irlume-common/src/lib.rs]; [posture], [pregate] and the gates of
      [irlume-daemon/src/main.rs]; [classify] of [arbiter.rs];
      [approval_operation] of [operation_authorization.rs].
    - [Authorization]: [operation_authorization.rs], and the worker's check of
      the grant in [main.rs].
    - [Arbiter]: [arbiter.rs], with [ClientLink], the admission of a
      connection thread and the worker loop of [main.rs] as a step relation.
    - [ConnectionSlots]: [connection_slots.rs].
    - [EventLog], [EventLogTheory]: [irlume-common/src/event_log.rs].
    - [FaceGate]: the gates of the [Authenticate] and [UnsealPassword] arms,
      [admit_selected_verify], [admit_selected_credential], [reply_reason] and
      [strip_measurements] of [main.rs].
    - [FaceReply]: [AuthenticationWindow] of [irlume-auth], and
      [bounded_face_response], [verify_reply], [do_unseal_password_scoped],
      [unseal_reply] and [WorkerReply::respond] of [main.rs].
    - [LiveStatus], [LiveTheory]: [irlume-daemon/src/live.rs] and
      [irlume-common/src/live.rs], as a run of events.
    - [AttemptRecord], [AttemptTheory]: [attempt_record.rs]: the record
      ([Module attempt]), its store and the writer queue.
    - [Replacement], [ReplacementTheory], [ReplacementClaims]:
      [irlume-core/src/replacement.rs] with the replacing save of [storage.rs]
      and the key handling of [template_key.rs] (not a first key minted while
      a plaintext enrollment is replaced); the file map has a visible and a
      durable side and every call may fail.
    - [CameraKeys]: [split_key.rs] and [binding_key.rs] of [irlume-common].
      [CameraStore], [CameraStoreTheory]: [irlume-core/src/multi_camera.rs]
      and [crypto.rs].  [CommitJournal], [CommitTheory], [CommitClaims]:
      [multi_camera/commit.rs].  [CameraSelection], [SelectionTheory]:
      [multi_camera/selection.rs].  [PinnedGroup]: [views.rs] and
      [coordinator.rs].
    - [PamGrammar]: [irlume-cli/src/pamwire/grammar.rs], with
      [PamSessionTheory] (the session check) and [PamJumpTheory] (controls as
      segments, and editing their jumps).  [PamLines]: [stanzas.rs] and what
      [transform.rs] says of irlume's lines.  [PamWiring], [PamWiringTheory]:
      the recipes of [transform.rs].
    - [PamOverrides], [PamArrange], [PamDecide]: [pamwire/overrides.rs], its
      header and classes, held places and numeric jumps; the arrangement of
      irlume's lines; [decide] and [maintenance].  Their proofs:
      [PamOverrideTheory], [PamOverrideClaims], [PamHeaderTheory],
      [PamArrangeTheory], [PamDecideTheory], [PamDecideClaims].
    - [PamSeat]: the session lookups of [irlume-pam/src/lib.rs] and
      [irlume-common/src/platform.rs].  [PamModule]: the entry points of
      [irlume-pam/src/lib.rs] and all they call, as runs over a host ([Host])
      that answers their calls and may panic at any; a run logs its calls.
      [PamModuleTheory] is the program logic of those runs ([wp]),
      [PamAttemptTheory] and [PamEntryTheory] what an attempt does and how a
      run comes to it, [PamTimeTheory] that the loops return,
      [PamSeatTheory] the specification of local sessions and remote
      transactions, [PamStashTheory] the session phase, [PamHostModel] a
      concrete host for the witnesses, and [PamModuleClaims] the theorems.
    - [Float]: [f32] and [f64] as the Standard Library's IEEE specification
      floats, with Rust's comparisons, [clamp], [max], [total_cmp] and
      summation order.  [Liveness]: [irlume-liveness/src/lib.rs].
      [Templates]: [cosine] and [normalize_embedding] of
      [irlume-vision/src/align.rs], [irlume-core/src/calib.rs], the lookups of
      [irlume-core/src/storage.rs], and the collision and merge rules of
      [irlume-auth/src/lib.rs].  [IdentityArms]: [identity_arms.rs] of
      [irlume-auth] and the thresholds and [fusion.rs] of [irlume-core].
    - [EngineDecision]: outcomes, the PAD rules and vote,
      [authenticate_qualified_assessment] and its two paths, and the IR-only
      route of [ir_assessment.rs].  [Engine]: the engine's own state
      ([Engine]), threaded by its monad [M], [assess_captured_pair], the
      preparation of an attempt and a single attempt.  [EngineLoop]: grouped
      batches ([grouped_auth.rs]), managed collections ([managed_pad.rs]) and
      [authentication_attempt_loop_with].  The clock and the cancellation are
      read by ticks of a [World].
    - [IdentityTheory] (the running best), [DecisionTheory] (votes, the two
      paths and the IR-only route), [EngineTheory] (the program logic [wp] of
      an attempt), [CollectTheory] (collections and batches), [LoopTheory]
      (the retry loop), [VoteTheory] (the votes across a request's attempts),
      [EngineModel] (a concrete engine for the witnesses) and [EngineClaims]
      (the theorems).
    - [UvcDescriptor]: the pure part of
      [irlume-camera/src/uvc_descriptor.rs]: the descriptor walks, the active
      configuration, what makes a function an infrared one, and the identity
      of a camera.  [EmitterJournal]: [emitter_journal.rs], the undo record of
      a camera control and its store, over files with a visible and a durable
      side.  [EmitterRecovery]: [recover_pending_write] of [ir_emitter.rs].
      [EmitterTheory]: its proofs
      and theorems.

    ** What the theorems show

    - A delivered grant ([delivered_grant_earned],
      [undelivered_attempt_stays_charged]): it was reserved durably, granted
      by the engine, checked three times and admitted inside its window;
      anything else keeps the charge.
    - The engine ([delivered_grant_saw_live_face], [managed_grant_earned],
      [grouped_grant_is_infrared], [request_gets_one_verdict],
      [attempt_loop_ends]): every grant rests on a capture of the attempt that
      granted, which passed the liveness gate and the PAD models, on votes cast
      on the request's own captures and on a comparable template it matches, in
      time; a refusal that is a verdict is never retried; the loop ends.  Its parts are exact ([vit_vote_exact], [ir_only_grant_exact],
      [other_recognizers_ignored], [best_match_exact]).
    - Face budget ([face_budget_bounded], [begin_charges_durably],
      [cooldown_refuses]): attempts between resets are bounded over every
      failure and power loss, the charge is on disk before face work, and
      cooldowns hold across reboots.
    - Recovery, guesses between accepted passwords and administrator resets
      included ([password_guesses_bounded], [verifier_runs_charged],
      [reset_success_authorized], [unproved_reset_forgives_nothing]).
    - Gates, tables and approval ([pregate_exact], [verify_admission],
      [reason_leaks_no_measurement], [served_request_was_approved]).
    - Arbiter and connections ([authentication_first],
      [camera_slot_never_leaks], [connection_limits_hold]); the rule of one
      camera job per account has a gap ([second_camera_job_admitted]).
    - Live status ([snapshot_shows_registrations], [hidden_work_not_shown],
      [tracking_lost_exactly]): a snapshot is the abstraction of the run, and
      shows a reader nothing of what it may not see.
    - Attempt record ([record_remembers_history], [filing_is_atomic],
      [filing_keeps_bounds]).
    - Files under failure: a replacing save ([replacement_all_or_nothing],
      [replacement_completes], [settle_removes_only_recorded]) and a
      publication ([publication_all_or_nothing], [publication_goes_forward])
      leave the old state or the new one; two gaps are shown by runs
      ([undone_replacement_comes_back], [failed_stage_blocks_recovery]).
    - Cameras ([selection_is_best], [selection_ignores_store_order],
      [store_validation_exact], [saved_store_reads_back],
      [group_name_is_fresh], [key_text_canonical],
      [pinned_attempt_grants_unchanged]).
    - Event log ([verified_pcr7_accounts_for_value], [verified_logs_agree],
      [log_reads_back]).
    - PAM text ([session_check_exact], [jump_edit_exact], [wiring_undone],
      [verify_stanza_placed]): the session check is exact for the stacks it
      parses, editing a jump changes nothing else, and taking irlume's lines
      out of a stack without carriage returns whose last line is ended gives it
      back byte for byte.
    - PAM overrides ([edits_survive], [only_unedited_removed],
      [fresh_override_settles], [reconcile_settles], [arrange_keeps_places],
      [common_lines_longest], [stepping_aside_undone], [filling_exact],
      [header_tells_edits]): no line an administrator wrote is lost and no
      jump of an edited or wired file is newly moved by irlume's lines, a second
      run changes nothing, and only a file nobody edited is deleted or rebuilt.
    - Infrared emitter ([recovery_restores_original],
      [record_kept_until_restored], [recovery_writes_bounded]): a recovery
      writes only the recorded original, right after it read back irlume's own
      value; the record goes only once the original was read; the writes are
      bounded over failures, deaths and power losses.  A configuration's view
      is exact ([active_view_spec]), a sound source graph is one whose units
      all lead back to an input ([sound_sources]).
    - PAM module ([codes_earned], [secrets_reach_their_consumer],
      [typed_password_wins], [requests_pass_intent_gate],
      [remote_stands_down], [local_session_exact],
      [keyring_secret_delivered_once], [module_returns]): a success rests on
      irlumed's word or on a delivered secret, a typed password and a remote
      session keep the camera off, no released secret reaches another consumer
      than its own, and the module returns where its calls do and time passes.

    ** Bounds and fuel

    Machine integers are [Z] with [u32], [u64] range predicates and the
    code's own checked and saturating operations.  [EventLog.event_loop] takes
    the number of events still allowed as its structural argument, which is
    the code's [MAX_EVENTS].  [FaceGate.strip_loop], [Text.utf8_lossy],
    the text splitters, [PamGrammar.fields_from] and [pairs_from] take the
    length of their input (or one more), and each step consumes at least one
    character.  [CameraStore.next_free] takes the number of groups, and
    [group_name_is_fresh] shows that this is enough.  The readings of included
    stacks take the levels left of [INCLUDE_DEPTH], as the code counts them;
    [session_reaches_reseal] takes its budget of lines and reads from the
    code.  [PamOverrides.past_session] takes the length of the expanded chain,
    past which a landing is no line.  The loops of the PAM module take a
    number of turns and end with [Spins] when it runs out; [module_returns]
    shows that [HELPER_TURNS], one turn for each byte of the longest helper
    output and each wait within a deadline, is enough for all of them.
    [EngineLoop.attempt_loop] takes a number of rounds, and [attempt_loop_ends]
    shows that one for each tick to the deadline, and one, is enough; a
    collection and a batch take [VIT_PAD_VOTE_N] samples, as the code counts
    them.  [UvcDescriptor.walk] takes the length of the blob, of which each
    descriptor takes two bytes at least, and [place_all] the number of units
    and one.  Floating-point numbers are those of IEEE 754, rounded to nearest at
    every operation, [f32] and [f64] apart.  Every other recursion is
    structural, and every operation is total.

    ** Parameters

    serde ([RetryCodec], [AttemptsCodec], [RequestCodec] and the codecs of the
    later files), base64, SHA-256, AES-GCM, NSS and logind ([System]),
    polkit's decision, the password verifier, the TPM, the captures and the
    answers of the detection, embedding and PAD models, the clock and the stop
    token ([World]), [exp] and [log2] ([Libm], with [LibmOk] for what is
    assumed of them), the socket, libpam and the helper processes ([Host]), the camera, the process
    table and the locks ([Env]) and, for the PAM stacks,
    the reader of an included stack are arguments of the definitions.  What is assumed of a codec, a cipher or a
    hash is a class or a hypothesis, with a concrete instance in the
    witnesses.

    ** Not modelled

    Hardware access but for the recovery of a control, inference, the D-Bus exchange, journal lines, the wording
    of messages and the user interfaces are left out.  Locks taken for one
    operation make it atomic, so an operation is one state transformer and
    interleaving is at the level of operations.  [decide] is modelled for the
    runs without [--adjust-jumps]; the adjustment
    ([pamwire/overrides/adjust.rs]) and the reading and writing of the stack
    files ([pamwire.rs], [files.rs], [lock.rs]) are not.  Of the engine, the
    choice of a capture mode and its fallbacks, the routing of the split
    runtime, the fit of a calibration and trace events are left out: a capture
    enters as the measurements and model answers the code computes on it, and
    an answer of the engine in any other mode is any answer in [FaceReply].
    The file format of enrollments, the authorization records of added cameras
    ([multi_camera/authz.rs]), the TPM and the helpers the PAM module starts
    are calls whose answers the models take as they come. *)

From Stdlib Require Export ZArith Lia Bool.
From Stdlib Require Export Init.Byte.
From stdpp Require Export base gmap strings list fin_maps countable.
From Stdlib Require Strings.Ascii Strings.String.

#[global] Open Scope Z_scope.

(** ** Results

    Rust's [Result<T, E>], and [io::Result<T>] as the instance used by code
    that threads [std::io::Error].  Only the distinctions the code branches on
    are kept: [invalid()] against an error the kernel returned. *)

Inductive result (E A : Type) : Type :=
| Ok (a : A)
| Err (e : E).
Arguments Ok {E A} a.
Arguments Err {E A} e.

Definition is_ok {E A} (r : result E A) : bool :=
  match r with Ok _ => true | Err _ => false end.

#[export] Instance result_ret {E} : MRet (result E) := @Ok E.
#[export] Instance result_bind {E} : MBind (result E) := fun A B f r =>
  match r with Ok a => f a | Err e => Err e end.
#[export] Instance result_fmap {E} : FMap (result E) := fun A B f r =>
  match r with Ok a => Ok (f a) | Err e => Err e end.

Definition ok_or {E A} (e : E) (o : option A) : result E A :=
  match o with Some a => Ok a | None => Err e end.

#[export] Instance result_eq_dec {E A} `{EqDecision E, EqDecision A} :
  EqDecision (result E A).
Proof. solve_decision. Defined.

(** ** Machine-width integers

    An unsigned [w]-bit value is a [Z] in [0, 2^w).  The checked operations
    return [None] where Rust's [checked_*] do, and [sat_sub] is
    [saturating_sub] on unsigned operands. *)

Definition in_width (w n : Z) : Prop := 0 <= n < 2 ^ w.
Definition u32 := in_width 32.
Definition u64 := in_width 64.

Definition checked_add (w a b : Z) : option Z :=
  if a + b <? 2 ^ w then Some (a + b) else None.
Definition checked_mul (w a b : Z) : option Z :=
  if a * b <? 2 ^ w then Some (a * b) else None.
Definition sat_sub (a b : Z) : Z := Z.max 0 (a - b).
(** [u64::div_ceil] on unsigned operands. *)
Definition div_ceil (a b : Z) : Z := (a + b - 1) / b.

Lemma checked_add_Some w a b c :
  checked_add w a b = Some c <-> c = a + b /\ a + b < 2 ^ w.
Proof.
  unfold checked_add. destruct (Z.ltb_spec (a + b) (2 ^ w)); naive_solver lia.
Qed.

Lemma checked_mul_Some w a b c :
  checked_mul w a b = Some c <-> c = a * b /\ a * b < 2 ^ w.
Proof.
  unfold checked_mul. destruct (Z.ltb_spec (a * b) (2 ^ w)); naive_solver lia.
Qed.

Lemma checked_add_in_width w a b c :
  0 <= a -> 0 <= b -> checked_add w a b = Some c -> in_width w c.
Proof. intros ?? [-> ?]%checked_add_Some. unfold in_width; lia. Qed.

Lemma sat_sub_pos a b : b <= a -> sat_sub a b = a - b.
Proof. unfold sat_sub; lia. Qed.

Lemma sat_sub_nonneg a b : 0 <= sat_sub a b.
Proof. unfold sat_sub; lia. Qed.

Lemma div_ceil_bounds a b :
  0 <= a -> 0 < b -> a <= b * div_ceil a b < a + b.
Proof.
  intros Ha Hb. unfold div_ceil.
  pose proof (Z.div_mod (a + b - 1) b ltac:(lia)) as Hd.
  pose proof (Z.mod_pos_bound (a + b - 1) b Hb). lia.
Qed.

(** ** Bytes and little-endian integers *)

#[export] Instance byte_eq_dec : EqDecision byte := Byte.byte_eq_dec.

Definition byte_val (b : byte) : Z := Z.of_N (Byte.to_N b).

Definition byte_of (n : Z) : byte :=
  match Byte.of_N (Z.to_N (n mod 256)) with Some b => b | None => x00 end.

(** [uN::from_le_bytes]. *)
Fixpoint from_le (l : list byte) : Z :=
  match l with
  | [] => 0
  | b :: l => byte_val b + 256 * from_le l
  end.

(** [uN::to_le_bytes], for an [n]-byte integer. *)
Fixpoint to_le (n : nat) (v : Z) : list byte :=
  match n with
  | O => []
  | S n => byte_of v :: to_le n (v / 256)
  end.

Lemma byte_val_bound b : 0 <= byte_val b < 256.
Proof. unfold byte_val. pose proof (Byte.to_N_bounded b). lia. Qed.

Lemma byte_val_of n : byte_val (byte_of n) = n mod 256.
Proof.
  unfold byte_val, byte_of. pose proof (Z.mod_pos_bound n 256 ltac:(lia)).
  destruct (Byte.of_N (Z.to_N (n mod 256))) as [b|] eqn:E.
  - apply Byte.to_of_N in E. rewrite E. lia.
  - apply Byte.of_N_None_iff in E. lia.
Qed.

Lemma byte_of_val b : byte_of (byte_val b) = b.
Proof.
  unfold byte_of. rewrite Z.mod_small by apply byte_val_bound.
  unfold byte_val. rewrite N2Z.id, Byte.of_to_N. done.
Qed.

Lemma length_to_le n v : length (to_le n v) = n.
Proof. revert v; induction n; intros v; simpl; [done|]. by rewrite IHn. Qed.

Lemma from_le_bound l : 0 <= from_le l < 256 ^ Z.of_nat (length l).
Proof.
  induction l as [|b l IH]; simpl from_le; [simpl; lia|].
  pose proof (byte_val_bound b).
  change (length (b :: l)) with (S (length l)).
  rewrite Nat2Z.inj_succ, Z.pow_succ_r by lia. lia.
Qed.

Lemma from_to_le n v : 0 <= v < 256 ^ Z.of_nat n -> from_le (to_le n v) = v.
Proof.
  revert v; induction n as [|n IH]; intros v Hv.
  - simpl in *. lia.
  - rewrite Nat2Z.inj_succ, Z.pow_succ_r in Hv by lia.
    simpl. rewrite byte_val_of, IH.
    + pose proof (Z.div_mod v 256 ltac:(lia)). lia.
    + split; [apply Z.div_pos; lia|]. apply Z.div_lt_upper_bound; lia.
Qed.

(** ** Readers over a shrinking slice *)

(** A decoder consumes a prefix. *)
Definition dec (A : Type) : Type := list byte -> option (A * list byte).

#[export] Instance dec_ret : MRet dec := fun A a b => Some (a, b).
#[export] Instance dec_bind : MBind dec := fun A B f d b =>
  match d b with Some (a, b) => f a b | None => None end.

Definition get (n : nat) : dec (list byte) := fun b =>
  if bool_decide (n <= length b)%nat then Some (take n b, drop n b) else None.

Definition get_u (n : nat) : dec Z := l ← get n; mret (from_le l).

(** A length read from the input: compared before it is counted out. *)
Definition get_z (n : Z) : dec (list byte) := fun b =>
  if bool_decide (0 <= n <= Z.of_nat (length b))
  then Some (take (Z.to_nat n) b, drop (Z.to_nat n) b) else None.

Definition fail {A} : dec A := fun _ => None.
Definition expect (c : bool) : dec () := fun b => if c then Some ((), b) else None.

Definition whole {A} (d : dec A) (b : list byte) : option A :=
  match d b with Some (a, []) => Some a | _ => None end.

(** [d] reads back what [put] writes of [a], whatever follows. *)
Definition reads {A} (d : dec A) (b : list byte) (a : A) : Prop :=
  forall rest, d (b ++ rest) = Some (a, rest).

Lemma reads_bind {A B} (d : dec A) (f : A -> dec B) b b' a x :
  reads d b a -> reads (f a) b' x -> reads (mbind f d) (b ++ b') x.
Proof. intros Hd Hf rest. unfold mbind, dec_bind. rewrite <- app_assoc, Hd. apply Hf. Qed.

Lemma reads_ret {A} (a : A) : reads (mret a) [] a.
Proof. done. Qed.

Lemma reads_map {A B} (d : dec A) (f : A -> B) b a :
  reads d b a -> reads (x ← d; mret (f x)) b (f a).
Proof. intros Hd. rewrite <- (app_nil_r b). by eapply reads_bind. Qed.

Lemma reads_get l : reads (get (length l)) l l.
Proof.
  intros rest. unfold get. rewrite bool_decide_eq_true_2 by (rewrite length_app; lia).
  by rewrite take_app_length, drop_app_length.
Qed.

Lemma reads_get_z l : reads (get_z (Z.of_nat (length l))) l l.
Proof.
  intros rest. unfold get_z. rewrite bool_decide_eq_true_2 by (rewrite length_app; lia).
  by rewrite Nat2Z.id, take_app_length, drop_app_length.
Qed.

Lemma reads_expect (c : bool) : c = true -> reads (expect c) [] ().
Proof. by intros ->. Qed.

Lemma reads_u n v : 0 <= v < 256 ^ Z.of_nat n -> reads (get_u n) (to_le n v) v.
Proof.
  intros Hv. rewrite <- (from_to_le n v Hv) at 2. apply (reads_map _ from_le).
  rewrite <- (length_to_le n v) at 1. apply reads_get.
Qed.

Definition yields {A} (d : dec A) (P : A -> Prop) : Prop :=
  forall b a rest, d b = Some (a, rest) -> P a.

Lemma yields_bind {A B} (d : dec A) (f : A -> dec B) P Q :
  yields d P -> (forall a, P a -> yields (f a) Q) -> yields (mbind f d) Q.
Proof.
  intros Hd Hf b x rest. unfold mbind, dec_bind. destruct (d b) as [[a b']|] eqn:E; [|done].
  apply Hf. by eapply Hd.
Qed.

Lemma yields_ret {A} (a : A) P : P a -> yields (mret a) P.
Proof. intros Ha b x rest [= <- _]. done. Qed.

Lemma yields_any {A} (d : dec A) : yields d (fun _ => True).
Proof. done. Qed.

Lemma yields_u n : yields (get_u n) (fun v => 0 <= v < 256 ^ Z.of_nat n).
Proof.
  unfold get_u. eapply yields_bind with (P := fun l => length l = n).
  - intros b l rest. unfold get. case_bool_decide; [|done]. intros [= <- _].
    rewrite length_take. lia.
  - intros l Hl. apply yields_ret. rewrite <- Hl. apply from_le_bound.
Qed.

(** ** Strings

    A Rust [str] is its UTF-8 bytes, kept as a Rocq [string]. *)

Definition ascii_val (c : Ascii.ascii) : Z := Z.of_N (Ascii.N_of_ascii c).

Fixpoint str_codes (s : string) : list Z :=
  match s with
  | EmptyString => []
  | String c s => ascii_val c :: str_codes s
  end.

Definition str_len (s : string) : Z := Z.of_nat (String.length s).

(** Unicode [White_Space] as UTF-8, for [str::trim]: the number of bytes of
    the whitespace character that starts the list, if one does. *)
Definition ws_prefix (l : list Z) : option nat :=
  match l with
  | a :: l' =>
      if bool_decide (9 <= a <= 13) || bool_decide (a = 32) then Some 1%nat
      else match l' with
      | b :: l'' =>
          if bool_decide (a = 0xC2) && (bool_decide (b = 0x85) || bool_decide (b = 0xA0))
          then Some 2%nat
          else match l'' with
          | c :: _ =>
              if (bool_decide (a = 0xE1) && bool_decide (b = 0x9A) && bool_decide (c = 0x80))
              || (bool_decide (a = 0xE2) && bool_decide (b = 0x80)
                    && (bool_decide (0x80 <= c <= 0x8A) || bool_decide (c = 0xA8)
                          || bool_decide (c = 0xA9) || bool_decide (c = 0xAF)))
              || (bool_decide (a = 0xE2) && bool_decide (b = 0x81) && bool_decide (c = 0x9F))
              || (bool_decide (a = 0xE3) && bool_decide (b = 0x80) && bool_decide (c = 0x80))
              then Some 3%nat else None
          | [] => None
          end
      | [] => None
      end
  | [] => None
  end.

(** The same character read backwards, for the trailing end. *)
Definition ws_suffix (l : list Z) : option nat :=
  match l with
  | a :: b :: c :: _ =>
      match ws_prefix [a] with
      | Some n => Some n
      | None => match ws_prefix [b; a] with
                | Some 2%nat => Some 2%nat
                | _ => match ws_prefix [c; b; a] with
                       | Some 3%nat => Some 3%nat
                       | _ => None
                       end
                end
      end
  | a :: b :: [] =>
      match ws_prefix [a] with
      | Some n => Some n
      | None => match ws_prefix [b; a] with Some 2%nat => Some 2%nat | _ => None end
      end
  | [a] => ws_prefix [a]
  | [] => None
  end.

Fixpoint strip (f : list Z -> option nat) (fuel : nat) (l : list Z) : list Z :=
  match fuel with
  | O => l
  | S fuel => match f l with
              | Some n => strip f fuel (drop n l)
              | None => l
              end
  end.

Definition code_ascii (n : Z) : Ascii.ascii := Ascii.ascii_of_N (Z.to_N n).
Definition codes_str (l : list Z) : string :=
  fold_right (fun n s => String (code_ascii n) s) EmptyString l.

(** [str::trim]. *)
Definition trim (s : string) : string :=
  let l := str_codes s in
  let l := strip ws_prefix (length l) l in
  codes_str (reverse (strip ws_suffix (length l) (reverse l))).

Lemma str_codes_of l : Forall (fun c => 0 <= c < 256) l -> str_codes (codes_str l) = l.
Proof.
  induction 1 as [|c l Hc _ IH]; simpl; [done|]. f_equal; [|done].
  unfold ascii_val, code_ascii. rewrite Ascii.N_ascii_embedding by lia. lia.
Qed.

(** Nothing to trim in text without whitespace. *)
Lemma strip_graphic f fuel l :
  (forall a l', 33 <= a <= 126 -> f (a :: l') = None) -> f [] = None ->
  Forall (fun c => 33 <= c <= 126) l -> strip f fuel l = l.
Proof.
  intros Hf Hn Hl. destruct fuel; [done|]. simpl.
  destruct Hl as [|a l' Ha _]; [by rewrite Hn|by rewrite Hf].
Qed.

Lemma ws_prefix_graphic a l : 33 <= a <= 126 -> ws_prefix (a :: l) = None.
Proof.
  intros Ha. unfold ws_prefix. repeat (rewrite bool_decide_eq_false_2 by lia). simpl.
  destruct l as [|b l]; [done|]. repeat (rewrite (bool_decide_eq_false_2 (a = _)) by lia). simpl.
  by destruct l.
Qed.

Lemma ws_prefix_last2 a b : 33 <= a <= 126 -> ws_prefix [b; a] <> Some 2%nat.
Proof.
  intros Ha. unfold ws_prefix. destruct (_ || bool_decide (b = 32)); [done|].
  rewrite (bool_decide_eq_false_2 (a = 0x85)), (bool_decide_eq_false_2 (a = 0xA0)) by lia.
  by rewrite andb_false_r.
Qed.

Lemma ws_prefix_last3 a b c : 33 <= a <= 126 -> ws_prefix [c; b; a] <> Some 3%nat.
Proof.
  intros Ha. unfold ws_prefix. destruct (_ || bool_decide (c = 32)); [done|].
  destruct (_ && (bool_decide (b = 0x85) || _)); [done|].
  rewrite (bool_decide_eq_false_2 (a = 0x80)), (bool_decide_eq_false_2 (0x80 <= a <= 0x8A)),
    (bool_decide_eq_false_2 (a = 0xA8)), (bool_decide_eq_false_2 (a = 0xA9)),
    (bool_decide_eq_false_2 (a = 0xAF)), (bool_decide_eq_false_2 (a = 0x9F)) by lia.
  by rewrite !andb_false_r.
Qed.

Lemma ws_suffix_graphic a l : 33 <= a <= 126 -> ws_suffix (a :: l) = None.
Proof.
  intros Ha. unfold ws_suffix. destruct l as [|b [|c l]]; rewrite (ws_prefix_graphic a []) by done; [done|..].
  all: pose proof (ws_prefix_last2 a b Ha) as H2.
  - destruct (ws_prefix [b; a]) as [[|[|[|]]]|]; congruence.
  - pose proof (ws_prefix_last3 a b c Ha) as H3.
    destruct (ws_prefix [b; a]) as [[|[|[|]]]|], (ws_prefix [c; b; a]) as [[|[|[|[|]]]]|]; congruence.
Qed.

Lemma trim_graphic l :
  Forall (fun c => 33 <= c <= 126) l -> trim (codes_str l) = codes_str l.
Proof.
  intros Hl. unfold trim. rewrite str_codes_of by (eapply list.Forall_impl; [exact Hl|simpl; lia]).
  rewrite (strip_graphic ws_prefix) by (done || apply ws_prefix_graphic || done).
  rewrite (strip_graphic ws_suffix); [by rewrite reverse_involutive|apply ws_suffix_graphic|done|].
  by apply list.Forall_reverse.
Qed.

Definition lower_code (n : Z) : Z := if bool_decide (65 <= n <= 90) then n + 32 else n.
(** [str::to_ascii_lowercase]. *)
Definition to_ascii_lowercase (s : string) : string :=
  codes_str (map lower_code (str_codes s)).

(** [char::is_control] over a [str]: general category Cc, which is
    U+0000..U+001F and U+007F..U+009F. *)
Fixpoint any_control (l : list Z) : bool :=
  match l with
  | [] => false
  | a :: l' =>
      bool_decide (a < 32) || bool_decide (a = 127)
      || match l' with
         | b :: _ => bool_decide (a = 0xC2) && bool_decide (0x80 <= b <= 0x9F)
         | [] => false
         end
      || any_control l'
  end.

Definition is_ascii_digit (n : Z) : bool := bool_decide (48 <= n <= 57).
Definition is_ascii_hexdigit (n : Z) : bool :=
  is_ascii_digit n || bool_decide (65 <= n <= 70) || bool_decide (97 <= n <= 102).
Definition is_ascii_alphanumeric (n : Z) : bool :=
  is_ascii_digit n || bool_decide (65 <= n <= 90) || bool_decide (97 <= n <= 122).

(** [str::parse] for an unsigned [w]-bit integer: an optional [+], then at
    least one decimal digit, without overflow. *)
Fixpoint parse_digits (w acc : Z) (l : list Z) : option Z :=
  match l with
  | [] => Some acc
  | d :: l =>
      if is_ascii_digit d then
        match checked_mul w acc 10 with
        | Some m => match checked_add w m (d - 48) with
                    | Some v => parse_digits w v l
                    | None => None
                    end
        | None => None
        end
      else None
  end.

Definition parse_uint_codes (w : Z) (l : list Z) : option Z :=
  match l with
  | [] => None
  | 43 :: [] => None
  | 43 :: l => parse_digits w 0 l
  | l => parse_digits w 0 l
  end.
Definition parse_uint (w : Z) (s : string) : option Z := parse_uint_codes w (str_codes s).

(** [str::split_whitespace], over the UTF-8 codes; [cur] is the piece being
    read, reversed. *)
Fixpoint split_ws (fuel : nat) (cur l : list Z) : list (list Z) :=
  let flush := match cur with [] => [] | _ => [reverse cur] end in
  match fuel with
  | O => flush
  | S fuel =>
      match l with
      | [] => flush
      | x :: l' =>
          match ws_prefix l with
          | Some n => flush ++ split_ws fuel [] (drop n l)
          | None => split_ws fuel (x :: cur) l'
          end
      end
  end.
Definition split_whitespace (l : list Z) : list (list Z) := split_ws (S (length l)) [] l.

(** [str::lines]: a line feed ends a line, with a carriage return before it. *)
Definition strip_cr (rev_line : list Z) : list Z :=
  reverse (match rev_line with 13 :: l => l | l => l end).
Fixpoint lines_from (cur l : list Z) : list (list Z) :=
  match l with
  | [] => match cur with [] => [] | _ => [reverse cur] end
  | x :: l => if bool_decide (x = 10) then strip_cr cur :: lines_from [] l
              else lines_from (x :: cur) l
  end.
Definition lines (l : list Z) : list (list Z) := lines_from [] l.

(** The longest prefix of characters that satisfy [f], and the rest. *)
Fixpoint span (f : Z -> bool) (l : list Z) : list Z * list Z :=
  match l with
  | [] => ([], [])
  | c :: l' => if f c then let '(a, b) := span f l' in (c :: a, b) else ([], l)
  end.

Lemma span_spec f l a b :
  span f l = (a, b) -> l = a ++ b /\ Forall (fun c => f c = true) a.
Proof.
  revert a b; induction l as [|c l IH]; intros a b; simpl; [intros [= <- <-]; auto|].
  destruct (f c) eqn:Ef; [|intros [= <- <-]; auto].
  destruct (span f l) as [a' b']. intros [= <- <-].
  destruct (IH a' b' eq_refl) as [-> ?]. split; [done|by constructor].
Qed.

(** [Iterator::position]. *)
Fixpoint position {A} (f : A -> bool) (l : list A) : option nat :=
  match l with [] => None | x :: l => if f x then Some O else S <$> position f l end.

(** [Iterator::find_map]. *)
Fixpoint find_map {A B} (f : A -> option B) (l : list A) : option B :=
  match l with
  | [] => None
  | a :: l => match f a with Some b => Some b | None => find_map f l end
  end.

(** [str::rsplit_once] for a one-byte separator: what follows the last one. *)
Fixpoint after_last (c : Z) (l : list Z) : option (list Z) :=
  match l with
  | [] => None
  | x :: l =>
      match after_last c l with
      | Some r => Some r
      | None => if bool_decide (x = c) then Some l else None
      end
  end.

(** [str::strip_prefix]. *)
Fixpoint strip_prefix (p l : list Z) : option (list Z) :=
  match p, l with
  | [], l => Some l
  | a :: p, b :: l => if bool_decide (a = b) then strip_prefix p l else None
  | _ :: _, [] => None
  end.
(** [str::strip_suffix]. *)
Definition strip_suffix (p l : list Z) : option (list Z) :=
  reverse <$> strip_prefix (reverse p) (reverse l).

Lemma after_last_none c l : c ∉ l -> after_last c l = None.
Proof.
  induction l as [|x l IH]; simpl; [done|]. intros Hn. rewrite not_elem_of_cons in Hn.
  destruct Hn as [Hx Hl]. rewrite (IH Hl), bool_decide_eq_false_2; [done|congruence].
Qed.

Lemma after_last_app c l r : c ∉ r -> after_last c (l ++ c :: r) = Some r.
Proof.
  intros Hr. induction l as [|x l IH]; simpl.
  - by rewrite (after_last_none c r Hr), bool_decide_eq_true_2.
  - by rewrite IH.
Qed.

Lemma str_codes_app s t : str_codes (s +:+ t) = str_codes s ++ str_codes t.
Proof. induction s as [|c s IH]; simpl; [done|]. by f_equal. Qed.

Lemma parse_digits_in_width w acc l v :
  in_width w acc -> parse_digits w acc l = Some v -> in_width w v.
Proof.
  revert acc; induction l as [|d l IH]; intros acc Hacc; simpl; [naive_solver|].
  unfold is_ascii_digit. case_bool_decide; [|done].
  destruct (checked_mul w acc 10) eqn:Em; [|done].
  destruct (checked_add w z (d - 48)) eqn:Ea; [|done].
  apply checked_mul_Some in Em as [-> ?]. apply IH.
  eapply checked_add_in_width, Ea; unfold in_width in *; lia.
Qed.

Lemma parse_uint_in_width w s v :
  0 <= w -> parse_uint w s = Some v -> in_width w v.
Proof.
  intros Hw. assert (in_width w 0) by (unfold in_width; pose proof (Z.pow_pos_nonneg 2 w); lia).
  unfold parse_uint, parse_uint_codes. repeat case_match; try done; eauto using parse_digits_in_width.
Qed.

(** UTF-8, as [core::str] checks it: the length of the well-formed character
    at the head, or of the ill-formed piece there. *)
Definition in_range (lo hi : Z) (o : option Z) : bool :=
  match o with Some b => bool_decide (lo <= b <= hi) | None => false end.

Definition utf8_head (l : list Z) : nat * bool :=
  match l with
  | [] => (0%nat, true)
  | b :: l =>
      let three lo hi :=
        if negb (in_range lo hi (l !! 0%nat)) then (1%nat, false)
        else if negb (in_range 0x80 0xBF (l !! 1%nat)) then (2%nat, false) else (3%nat, true) in
      let four lo hi :=
        if negb (in_range lo hi (l !! 0%nat)) then (1%nat, false)
        else if negb (in_range 0x80 0xBF (l !! 1%nat)) then (2%nat, false)
        else if negb (in_range 0x80 0xBF (l !! 2%nat)) then (3%nat, false) else (4%nat, true) in
      if bool_decide (b < 0x80) then (1%nat, true)
      else if bool_decide (0xC2 <= b <= 0xDF)
      then if in_range 0x80 0xBF (l !! 0%nat) then (2%nat, true) else (1%nat, false)
      else if bool_decide (b = 0xE0) then three 0xA0 0xBF
      else if bool_decide (b = 0xED) then three 0x80 0x9F
      else if bool_decide (0xE1 <= b <= 0xEF) then three 0x80 0xBF
      else if bool_decide (b = 0xF0) then four 0x90 0xBF
      else if bool_decide (0xF1 <= b <= 0xF3) then four 0x80 0xBF
      else if bool_decide (b = 0xF4) then four 0x80 0x8F
      else (1%nat, false)
  end.

(** ** Lists updated in place *)

(** [Vec::swap_remove] at an index in range: the last element takes its place. *)
Definition swap_remove {A} (i : nat) (l : list A) : list A :=
  match list.last l with
  | None => l
  | Some x => take (length l - 1) (<[i := x]> l)
  end.

Lemma swap_remove_perm {A} i (l : list A) y :
  l !! i = Some y -> l ≡ₚ y :: swap_remove i l.
Proof.
  intros Hi. unfold swap_remove.
  destruct (list.last l) as [x|] eqn:El; [|by apply list.last_None in El; subst].
  apply list.last_Some in El as [l' ->]. rewrite length_app. simpl.
  replace (length l' + 1 - 1)%nat with (length l') by lia.
  apply lookup_app_Some in Hi as [Hi|[Hlen Hi]].
  - rewrite insert_app_l by eauto using lookup_lt_Some.
    rewrite take_app_le by (rewrite length_insert; lia).
    rewrite take_ge by (rewrite length_insert; lia).
    rewrite (insert_take_drop l' i x) by eauto using lookup_lt_Some.
    rewrite <- (take_drop_middle l' i y Hi) at 1. solve_Permutation.
  - destruct (i - length l')%nat eqn:Ei; [|done]. simpl in Hi. simplify_eq.
    rewrite insert_app_r_alt by lia. rewrite Ei. simpl.
    rewrite take_app_length. solve_Permutation.
Qed.

(** An element in range splits its list, and an update there replaces it. *)
Lemma insert_split {A} (l : list A) i x :
  l !! i = Some x -> exists l1 l2, l = l1 ++ x :: l2 /\ forall y, <[i := y]> l = l1 ++ y :: l2.
Proof.
  intros Hi. exists (take i l), (drop (S i) l). split; [by rewrite take_drop_middle|].
  intros y. by rewrite insert_take_drop by eauto using lookup_lt_Some.
Qed.

Lemma NoDup_fmap_inj {A B} (f : A -> B) l x y :
  NoDup (f <$> l) -> x ∈ l -> y ∈ l -> f x = f y -> x = y.
Proof.
  intros Hn [i Hi]%list_elem_of_lookup [j Hj]%list_elem_of_lookup Hf.
  assert (i = j) as ->; [|congruence].
  eapply (list.NoDup_lookup (f <$> l) i j (f x)); [done|..]; by rewrite list_lookup_fmap, ?Hi, ?Hj; simpl; rewrite ?Hf.
Qed.

Lemma position_Some {A} (f : A -> bool) l i :
  position f l = Some i <-> (exists x, l !! i = Some x /\ f x = true) /\ forall j y, (j < i)%nat -> l !! j = Some y -> f y = false.
Proof.
  revert i; induction l as [|x l IH]; intros i; simpl; [naive_solver|]. destruct (f x) eqn:Ef.
  - split; [intros [= <-]; split; [by exists x|lia]|]. intros [_ H]. destruct i as [|i]; [done|]. by rewrite (H O x) in Ef by (done || lia).
  - split.
    + destruct (position f l) as [k|]; [|done]. intros [= <-]. destruct (proj1 (IH k) eq_refl) as [(y & Hy & Hfy) Hn].
      split; [by exists y|]. intros [|j] z Hj; simpl; [by intros [= <-]|]. apply Hn. lia.
    + intros [(y & Hy & Hfy) Hn]. destruct i as [|i]; simpl in Hy; [congruence|].
      rewrite (proj2 (IH i)); [done|]. split; [by exists y|]. intros j z Hj. apply (Hn (S j)). lia.
Qed.

(** [find] by a key that no two entries share. *)
Lemma find_key {A B} `{EqDecision B} (f : A -> B) (l : list A) x y :
  NoDup (f <$> l) -> List.find (fun e => bool_decide (f e = y)) l = Some x <-> x ∈ l /\ f x = y.
Proof.
  induction l as [|a l IH]; simpl; [intros _; split; [done|intros [H%elem_of_nil _]; done]|].
  rewrite list.NoDup_cons, elem_of_cons. intros [Ha Hl]. case_bool_decide as Hy.
  - split; [intros [= <-]; auto|]. intros [[->|Hx] Hf]; [done|]. destruct Ha. rewrite Hy, <- Hf. by apply list_elem_of_fmap_2.
  - rewrite (IH Hl). naive_solver.
Qed.

Lemma option_Forall2_Some_Some {A B} (R : A -> B -> Prop) x y :
  option_Forall2 R (Some x) (Some y) -> R x y.
Proof. by inversion 1. Qed.

Lemma existsb_true {A} (f : A -> bool) l : existsb f l = true <-> exists x, x ∈ l /\ f x = true.
Proof. rewrite existsb_exists. by setoid_rewrite list_elem_of_In. Qed.

Lemma existsb_false {A} (f : A -> bool) l : existsb f l = false <-> forall x, x ∈ l -> f x = false.
Proof. rewrite <- not_true_iff_false, existsb_true. setoid_rewrite <- not_true_iff_false. naive_solver. Qed.

(** ** Tactics and hints shared by the components *)

Create HintDb irlume.
#[export] Hint Resolve byte_val_bound from_le_bound sat_sub_nonneg : irlume.

(** Reflect the boolean tests of the code into propositions. *)
Ltac reflect_bools :=
  repeat match goal with
  | H : (_ && _) = true |- _ => apply andb_true_iff in H as [? ?]
  | H : (_ || _) = false |- _ => apply orb_false_iff in H as [? ?]
  | H : negb _ = true |- _ => apply negb_true_iff in H
  | H : negb _ = false |- _ => apply negb_false_iff in H
  | H : bool_decide _ = true |- _ => apply bool_decide_eq_true in H
  | H : bool_decide _ = false |- _ => apply bool_decide_eq_false in H
  end.

(** Case on every [match] in sight, discharging the impossible ones. *)
Ltac case_all := repeat (case_match; simplify_eq/=; try done).
