(* ===== verification/Text.v ===== *)
(** * Text

    Rust strings as their bytes ([list Z]): the operations of [str] and the
    decimal formatting the components below use, with their laws. *)

From S2P Require Import Prelude.

Abbreviation str := (list Z).

Fixpoint utf8_from (fuel : nat) (l : list Z) : bool :=
  match fuel, l with
  | _, [] => true
  | O, _ :: _ => false
  | S fuel, _ :: _ => let '(n, good) := utf8_head l in good && utf8_from fuel (drop n l)
  end.
(** Whether [String::from_utf8] accepts the bytes. *)
Definition is_utf8 (l : list Z) : bool := utf8_from (length l) l.

(** [String::from_utf8_lossy]. *)
Fixpoint utf8_lossy (fuel : nat) (l : list Z) : list Z :=
  match fuel, l with
  | O, _ | _, [] => []
  | S fuel, _ :: _ =>
      let '(n, good) := utf8_head l in
      (if good then take n l else [0xEF; 0xBF; 0xBD]) ++ utf8_lossy fuel (drop n l)
  end.
Definition lossy (l : list Z) : list Z := utf8_lossy (length l) l.

(** [str::trim]. *)
Definition trim_str (l : list Z) : list Z := str_codes (trim (codes_str l)).

(** [str::split] at a one-byte separator, and [str::split_once]. *)
Fixpoint split_at (c : Z) (l : list Z) : list (list Z) :=
  match l with
  | [] => [[]]
  | x :: l =>
      if bool_decide (x = c) then [] :: split_at c l
      else match split_at c l with p :: ps => (x :: p) :: ps | [] => [[x]] end
  end.
Fixpoint split_once (c : Z) (l : list Z) : option (list Z * list Z) :=
  match l with
  | [] => None
  | x :: l => if bool_decide (x = c) then Some ([], l) else '(a, b) ← split_once c l; Some (x :: a, b)
  end.
(** [slice::join] with a one-byte separator. *)
Fixpoint join_with (c : Z) (ls : list (list Z)) : list Z :=
  match ls with [] => [] | [l] => l | l :: ls => l ++ c :: join_with c ls end.

(** The decimal text of a natural number. *)
Fixpoint decimal_from (fuel : nat) (n : Z) : list Z :=
  match fuel with
  | O => []
  | S fuel => if bool_decide (n < 10) then [48 + n] else decimal_from fuel (n / 10) ++ [48 + n mod 10]
  end.
Definition decimal (n : Z) : list Z := decimal_from (S (Z.to_nat n)) n.
(** The number decimal text denotes. *)
Definition digits_val (l : list Z) : Z := foldl (fun acc d => acc * 10 + (d - 48)) 0 l.

(** [starts_with], [contains], [eq_ignore_ascii_case], and [trim_start_matches]
    and [trim_end_matches] of the characters [f] accepts. *)
Definition starts_with (p l : str) : bool := if strip_prefix p l is Some _ then true else false.
Fixpoint contains (p l : str) : bool :=
  starts_with p l || match l with [] => false | _ :: l => contains p l end.
Definition eq_ignore_ascii_case (a b : str) : bool := bool_decide (map lower_code a = map lower_code b).
Definition trim_start_matches (f : Z -> bool) (l : str) : str := (span f l).2.
Definition trim_end_matches (f : Z -> bool) (l : str) : str := reverse (trim_start_matches f (reverse l)).
(** What comes before the first [c], all of it when there is none. *)
Definition before (c : Z) (l : str) : str := (span (fun x => negb (bool_decide (x = c))) l).1.

(** [str::split_inclusive] at a one-byte separator, [str::strip_suffix] of one
    byte, and the text of [lines] joined by line feeds, the last one ended. *)
Fixpoint split_inclusive (c : Z) (l : str) : list str :=
  match l with
  | [] => []
  | x :: l =>
      if bool_decide (x = c) then [x] :: split_inclusive c l
      else match split_inclusive c l with [] => [[x]] | p :: ps => (x :: p) :: ps end
  end.
Definition strip_suffix_of (c : Z) (l : str) : str :=
  if bool_decide (list.last l = Some c) then take (length l - 1) l else l.
Definition unlines (ls : list str) : str := join_with 10 ls ++ [10].
(** [Iterator::rposition]. *)
Fixpoint rposition {A} (f : A -> bool) (l : list A) : option nat :=
  match l with
  | [] => None
  | x :: l => match rposition f l with Some i => Some (S i) | None => if f x then Some O else None end
  end.

(** [str::rsplit_once] at a one-byte separator. *)
Definition rsplit_once (c : Z) (l : str) : option (str * str) :=
  i ← rposition (fun x => bool_decide (x = c)) l; Some (take i l, drop (S i) l).

Lemma split_at_nonempty c l : split_at c l <> [].
Proof. destruct l as [|x l]; simpl; [done|]. case_bool_decide; [done|]. by case_match. Qed.

Lemma split_join c l : join_with c (split_at c l) = l.
Proof.
  induction l as [|x l IH]; simpl; [done|]. pose proof (split_at_nonempty c l).
  case_bool_decide as Hx; destruct (split_at c l) as [|p ps] eqn:Es; [done| |done|].
  - simpl in *. by rewrite IH, Hx.
  - destruct ps; simpl in *; by rewrite <- IH.
Qed.

Lemma split_at_none c l : c ∉ l -> split_at c l = [l].
Proof.
  induction l as [|x l IH]; simpl; [done|]. rewrite not_elem_of_cons. intros [Hx Hl].
  rewrite bool_decide_eq_false_2 by congruence. by rewrite IH.
Qed.

Lemma split_at_app c l r : c ∉ l -> split_at c (l ++ c :: r) = l :: split_at c r.
Proof.
  induction l as [|x l IH]; simpl; [by rewrite bool_decide_eq_true_2|].
  rewrite not_elem_of_cons. intros [Hx Hl]. rewrite bool_decide_eq_false_2 by congruence. by rewrite IH.
Qed.

Lemma join_split c ls : ls <> [] -> Forall (fun l => c ∉ l) ls -> split_at c (join_with c ls) = ls.
Proof.
  induction ls as [|l [|m ls] IH]; intros Hn Hf; [done| |].
  - apply split_at_none. by inversion_clear Hf.
  - inversion_clear Hf as [|? ? Hl Hr]. change (join_with c (l :: m :: ls)) with (l ++ c :: join_with c (m :: ls)).
    rewrite split_at_app by done. by rewrite IH.
Qed.

Lemma split_at_parts c l p : p ∈ split_at c l -> c ∉ p.
Proof.
  revert p; induction l as [|x l IH]; intros p; simpl.
  - intros ->%list_elem_of_singleton. by intros ?%elem_of_nil.
  - case_bool_decide as Hx.
    + intros [->|Hp]%elem_of_cons; [by intros ?%elem_of_nil|auto].
    + pose proof (split_at_nonempty c l). destruct (split_at c l) as [|q qs]; [done|].
      intros [->|Hp]%elem_of_cons; [|apply IH; by right].
      rewrite not_elem_of_cons. split; [congruence|]. apply IH. by left.
Qed.

Lemma split_once_app c l r : c ∉ l -> split_once c (l ++ c :: r) = Some (l, r).
Proof.
  induction l as [|x l IH]; simpl; [by rewrite bool_decide_eq_true_2|].
  rewrite not_elem_of_cons. intros [Hx Hl]. rewrite bool_decide_eq_false_2 by congruence. by rewrite IH.
Qed.

Lemma split_once_Some c l a b : split_once c l = Some (a, b) -> l = a ++ c :: b /\ c ∉ a.
Proof.
  revert a; induction l as [|x l IH]; intros a; simpl; [done|]. case_bool_decide as Hx.
  - intros [= <- <-]. split; [by rewrite Hx|by intros ?%elem_of_nil].
  - destruct (split_once c l) as [[a' b']|]; [simpl|done]. intros [= <- ->].
    destruct (IH a' eq_refl) as [-> Hn]. split; [done|]. rewrite not_elem_of_cons. split; [congruence|done].
Qed.

Lemma strip_prefix_app p l : strip_prefix p (p ++ l) = Some l.
Proof. induction p as [|a p IH]; simpl; [done|]. by rewrite bool_decide_eq_true_2. Qed.

Lemma strip_prefix_Some p l r : strip_prefix p l = Some r -> l = p ++ r.
Proof.
  revert l; induction p as [|a p IH]; intros [|b l]; simpl; [by intros [= <-]..|done|].
  case_bool_decide as Ha; [|done]. intros H. by rewrite Ha, (IH _ H).
Qed.

Lemma digits_val_snoc l d : digits_val (l ++ [d]) = digits_val l * 10 + (d - 48).
Proof. unfold digits_val. by rewrite foldl_snoc. Qed.

Lemma decimal_from_enough f g n : 0 <= n -> (Z.to_nat n < f)%nat -> (Z.to_nat n < g)%nat -> decimal_from f n = decimal_from g n.
Proof.
  revert g n; induction f as [|f IH]; intros [|g] n Hn Hf Hg; try lia. simpl.
  case_bool_decide; [done|]. f_equal. assert (n / 10 < n) by (apply Z.div_lt; lia).
  assert (0 <= n / 10) by (apply Z.div_pos; lia). apply IH; lia.
Qed.

Lemma decimal_step q d : 0 < q -> 0 <= d < 10 -> decimal (q * 10 + d) = decimal q ++ [48 + d].
Proof.
  intros Hq Hd. unfold decimal at 1. simpl. rewrite bool_decide_eq_false_2 by lia.
  rewrite Z.div_add_l, (Z.div_small d), Z.add_0_r by lia.
  rewrite Z.add_comm, Z.mod_add, Z.mod_small by lia. f_equal. apply decimal_from_enough; lia.
Qed.

Lemma decimal_small d : 0 <= d < 10 -> decimal d = [48 + d].
Proof. intros Hd. unfold decimal. simpl. by rewrite bool_decide_eq_true_2 by lia. Qed.

Lemma decimal_spec n : 0 <= n ->
  digits_val (decimal n) = n /\ Forall (fun d => 48 <= d <= 57) (decimal n) /\
  exists d r, decimal n = d :: r /\ (d = 48 -> n = 0).
Proof.
  intros Hn. pattern n. apply Zlt_0_ind; [|done]. clear n Hn. intros n IH Hn.
  destruct (decide (n < 10)).
  - rewrite decimal_small by lia. unfold digits_val. simpl. split; [lia|]. split; [repeat constructor; lia|].
    exists (48 + n), []. split; [done|lia].
  - pose proof (Z.div_mod n 10 ltac:(lia)) as Hdm. pose proof (Z.mod_pos_bound n 10 ltac:(lia)).
    assert (0 < n / 10) by (apply Z.div_str_pos; lia).
    destruct (IH (n / 10)) as (Hv & Hf & d & r & He & Hd); [split; [lia|apply Z.div_lt; lia]|].
    assert (Hs : decimal n = decimal (n / 10) ++ [48 + n mod 10]) by (rewrite <- decimal_step by lia; f_equal; lia).
    rewrite Hs, digits_val_snoc, Hv, list.Forall_app. split; [lia|]. split; [split; [done|repeat constructor; lia]|].
    exists d, (r ++ [48 + n mod 10]). rewrite He. split; [done|]. intros ->. specialize (Hd eq_refl). lia.
Qed.

Lemma digits_grow k a :
  0 <= a -> Forall (fun d => 48 <= d <= 57) k -> a <= foldl (fun acc d => acc * 10 + (d - 48)) a k.
Proof.
  revert a; induction k as [|x k IHk]; intros a Ha Hk; simpl; [lia|]. inversion_clear Hk as [|? ? Hx Hk'].
  specialize (IHk (a * 10 + (x - 48)) ltac:(lia) Hk'). lia.
Qed.

(** Canonical decimal text is the text of its number. *)
Lemma decimal_val l :
  Forall (fun d => 48 <= d <= 57) l -> l <> [] -> (forall r, l = 48 :: r -> r = []) -> decimal (digits_val l) = l.
Proof.
  induction l as [|d l IH] using rev_ind; intros Hf Hn H0; [done|].
  rewrite list.Forall_app in Hf. destruct Hf as [Hl Hd]. inversion_clear Hd as [|? ? Hd' _].
  rewrite digits_val_snoc. destruct l as [|e l].
  - change (digits_val []) with 0. rewrite decimal_small by lia. simpl. f_equal. lia.
  - assert (He : e <> 48). { intros ->. specialize (H0 (l ++ [d]) eq_refl). by destruct l. }
    assert (Hv : decimal (digits_val (e :: l)) = e :: l).
    { apply IH; [done|done|]. intros r [= -> ->]. done. }
    assert (Hp : 0 < digits_val (e :: l)).
    { destruct (decide (0 < digits_val (e :: l))); [done|]. exfalso.
      unfold digits_val in n. simpl in n. inversion_clear Hl as [|? ? He' Hl'].
      pose proof (digits_grow l (0 * 10 + (e - 48)) ltac:(lia) Hl'). lia. }
    rewrite decimal_step by lia. rewrite Hv. do 2 f_equal. lia.
Qed.

Lemma decimal_inj m n : 0 <= m -> 0 <= n -> decimal m = decimal n -> m = n.
Proof.
  intros Hm Hn He. destruct (decimal_spec m Hm) as [<- _]. destruct (decimal_spec n Hn) as [<- _]. by rewrite He.
Qed.

(** [parse] on digits alone. *)
Lemma parse_digits_Some w acc l v :
  Forall (fun d => 48 <= d <= 57) l -> parse_digits w acc l = Some v ->
  v = foldl (fun acc d => acc * 10 + (d - 48)) acc l.
Proof.
  revert acc; induction l as [|d l IH]; intros acc Hf; simpl; [by intros [= <-]|].
  inversion_clear Hf as [|? ? Hd Hl]. unfold is_ascii_digit. rewrite bool_decide_eq_true_2 by lia.
  destruct (checked_mul w acc 10) as [m|] eqn:Em; [|done].
  destruct (checked_add w m (d - 48)) as [a|] eqn:Ea; [|done].
  apply checked_mul_Some in Em as [-> _]. apply checked_add_Some in Ea as [-> _]. by apply IH.
Qed.

Lemma parse_digits_fits w acc l :
  0 <= acc -> Forall (fun d => 48 <= d <= 57) l -> foldl (fun acc d => acc * 10 + (d - 48)) acc l < 2 ^ w ->
  parse_digits w acc l = Some (foldl (fun acc d => acc * 10 + (d - 48)) acc l).
Proof.
  revert acc; induction l as [|d l IH]; intros acc Ha Hf Hv; simpl; [done|].
  inversion_clear Hf as [|? ? Hd Hl]. simpl in Hv.
  pose proof (digits_grow l (acc * 10 + (d - 48)) ltac:(lia) Hl).
  unfold is_ascii_digit. rewrite bool_decide_eq_true_2 by lia.
  assert (checked_mul w acc 10 = Some (acc * 10)) as ->.
  { apply checked_mul_Some. lia. }
  assert (checked_add w (acc * 10) (d - 48) = Some (acc * 10 + (d - 48))) as ->.
  { apply checked_add_Some. lia. }
  apply IH; [lia|done|done].
Qed.

(** ** Searching, and the ends of a text *)

Lemma find_map_Some {A B} (f : A -> option B) l b :
  find_map f l = Some b <->
  exists before a after, l = before ++ a :: after /\ f a = Some b /\ Forall (fun x => f x = None) before.
Proof.
  split.
  - induction l as [|x l IH]; simpl; [done|]. destruct (f x) eqn:Ex.
    + intros [= <-]. exists [], x, l. auto.
    + intros (before & a & after & -> & Ha & Hb)%IH. exists (x :: before), a, after. auto.
  - intros (before & a & after & -> & Ha & Hb). induction Hb as [|x before Hx _ IH]; simpl; [by rewrite Ha|].
    by rewrite Hx.
Qed.

Lemma strip_prefix_spec p l r : strip_prefix p l = Some r <-> l = p ++ r.
Proof. split; [apply strip_prefix_Some|]. intros ->. apply strip_prefix_app. Qed.

Lemma strip_suffix_spec p l r : strip_suffix p l = Some r <-> l = r ++ p.
Proof.
  unfold strip_suffix. rewrite fmap_Some. split.
  - intros (x & Hx & ->). apply strip_prefix_spec in Hx. rewrite <- (reverse_involutive l), Hx, reverse_app.
    by rewrite reverse_involutive.
  - intros ->. exists (reverse r). rewrite reverse_involutive. split; [|done].
    rewrite reverse_app. apply strip_prefix_app.
Qed.

Lemma rposition_Some (c : Z) (l : str) i :
  rposition (fun x => bool_decide (x = c)) l = Some i <->
  exists a b, l = a ++ c :: b /\ (c ∉ b) /\ i = length a.
Proof.
  assert (forall l : str, c ∉ l <-> rposition (fun x => bool_decide (x = c)) l = None) as Hnone.
  { clear. induction l as [|x l IH]; simpl; [split; [done|intros _; apply not_elem_of_nil]|].
    rewrite not_elem_of_cons, IH. destruct (rposition _ l); [naive_solver|]. case_bool_decide; naive_solver. }
  revert i; induction l as [|x l IH]; intros i; simpl.
  - split; [done|]. by intros ([] & b & ? & _).
  - destruct (rposition _ l) as [j|] eqn:Ej.
    + split.
      * intros [= <-]. destruct (proj1 (IH j) eq_refl) as (a & b & -> & Hb & ->). by exists (x :: a), b.
      * intros ([|y a] & b & [= -> Hl] & Hb & ->).
        -- subst l. by apply Hnone in Hb; rewrite Hb in Ej.
        -- f_equal. simpl. f_equal. specialize (IH (length a)). destruct IH as [_ IH].
           specialize (IH (ex_intro _ a (ex_intro _ b (conj Hl (conj Hb eq_refl))))). congruence.
    + case_bool_decide as Hx; split.
      * intros [= <-]. exists [], l. subst x. split_and!; [done|by apply Hnone|done].
      * intros ([|y a] & b & [= Hl] & Hb & ->); [done|]. exfalso.
        assert (c ∈ l) as Hc by set_solver. by apply Hnone in Ej.
      * done.
      * intros ([|y a] & b & [= Hl] & Hb & ->); [done|]. exfalso.
        assert (c ∈ l) as Hc by set_solver. by apply Hnone in Ej.
Qed.

Lemma drop_past (c : Z) (a b : str) : drop (S (length a)) (a ++ c :: b) = b.
Proof. by rewrite cons_middle, app_assoc, drop_app_length' by (rewrite length_app; simpl; lia). Qed.

Lemma rsplit_once_Some c l a b : rsplit_once c l = Some (a, b) <-> l = a ++ c :: b /\ (c ∉ b).
Proof.
  unfold rsplit_once. rewrite bind_Some. split.
  - intros (i & (a' & b' & -> & Hb & ->)%rposition_Some & [= <- <-]).
    by rewrite take_app_length, drop_past.
  - intros [-> Hb]. exists (length a). split; [apply rposition_Some; eauto|].
    by rewrite take_app_length, drop_past.
Qed.

Lemma split_once_None c l : split_once c l = None <-> c ∉ l.
Proof.
  induction l as [|x l IH]; simpl; [split; [intros _; apply not_elem_of_nil|done]|].
  rewrite not_elem_of_cons, <- IH. case_bool_decide; [naive_solver|]. destruct (split_once c l) as [[]|]; naive_solver.
Qed.

(** Where a span ends. *)
Definition stops (f : Z -> bool) (l : str) : Prop := match l with [] => True | c :: _ => f c = false end.

Lemma span_stops f l a b : span f l = (a, b) -> l = a ++ b /\ Forall (fun c => f c = true) a /\ stops f b.
Proof.
  revert a b; induction l as [|c l IH]; intros a b; simpl; [by intros [= <- <-]|].
  destruct (f c) eqn:Ef; [|by intros [= <- <-]].
  destruct (span f l) as [a' b']. intros [= <- <-]. destruct (IH _ _ eq_refl) as (-> & ? & ?). by repeat constructor.
Qed.

Lemma before_app c a b : Forall (fun x => x <> c) a -> before c (a ++ b) = a ++ before c b.
Proof.
  unfold before. induction 1 as [|x a Hx _ IH]; simpl; [done|]. rewrite bool_decide_eq_false_2 by done. simpl.
  destruct (span _ (a ++ b)), (span _ b). simpl in *. by subst.
Qed.
Lemma before_spec c l : exists tail, l = before c l ++ tail /\ Forall (fun x => x <> c) (before c l) /\ before c tail = []
  /\ (tail = [] \/ exists t, tail = c :: t).
Proof.
  unfold before. destruct (span _ l) as [a b] eqn:E. apply span_stops in E as (-> & Ha & Hb). exists b. split_and!; [done| | |].
  - eapply list.Forall_impl; [exact Ha|]. simpl. intros x Hx Hc. by rewrite bool_decide_eq_true_2 in Hx.
  - destruct b as [|x b]; [done|]. simpl in *. by rewrite Hb.
  - destruct b as [|x b]; [by left|]. right. exists b. simpl in Hb. apply negb_false_iff, bool_decide_eq_true in Hb. by subst.
Qed.

Lemma forallb_Forall {A} (f : A -> bool) l : forallb f l = true <-> Forall (fun x => f x = true) l.
Proof. rewrite List.forallb_forall, list.Forall_forall. setoid_rewrite <- list_elem_of_In. done. Qed.

(** ** Numbers as bytes *)

(** Any countable value as bytes, one bit each: a codec to try the components
    with. *)
Fixpoint of_positive (p : positive) : list byte :=
  match p with xH => [] | xO p => Byte.x00 :: of_positive p | xI p => Byte.x01 :: of_positive p end.
Fixpoint to_positive (b : list byte) : positive :=
  match b with [] => xH | Byte.x00 :: b => xO (to_positive b) | _ :: b => xI (to_positive b) end.
Lemma to_of_positive p : to_positive (of_positive p) = p.
Proof. induction p; simpl; congruence. Qed.
