(* ===== verification/RetryStore.v ===== *)
(** * The retry directory

    The file operations under [irlume-daemon/src/retry_throttle.rs]: opening and
    checking the directory ([open_dir], [Store::lock]), reading a record durably
    ([Store::read_bytes]), the per-account exclusive operation lock
    ([Store::operation]), and the atomic writer of [irlume-common]
    ([write_atomic_reporting]).

    The directory is a [world]: what a reader sees ([w_vis]) and what would
    survive a power loss ([w_dur]), the operation files and the locks held on
    them.  Every system call first consults [w_faults], the outcome the
    environment has chosen for it, so a statement about all worlds is a
    statement about every combination of I/O failures.  An operation aborted
    by a crash is one whose next call fails: no code runs after it.

    The directory lock ([flock] with [LOCK_EX]) is held from [lock] to the end
    of the operation that took it and is blocking, so each operation below is
    one critical section and is modelled as one state transformer. *)

From S2P Require Import Prelude.

(** [io::Error], as far as the callers distinguish it: [invalid()], and any
    error returned by the kernel. *)
Inductive io_error := InvalidData | OsError.

#[export] Instance io_error_eq_dec : EqDecision io_error.
Proof. solve_decision. Defined.

Abbreviation io := (result io_error).

Abbreviation bytes := (list byte).

(** ** Inodes and the directory *)

Inductive ikind := KFile | KDir | KSymlink | KOther.

#[export] Instance ikind_eq_dec : EqDecision ikind.
Proof. solve_decision. Defined.

(** What [File::metadata] reports, and a regular file's contents. *)
Record inode := Inode {
  i_kind : ikind;
  i_uid : Z;
  i_mode : Z;
  i_nlink : Z;
  i_data : bytes;
}.

Definition i_len (i : inode) : Z := Z.of_nat (length (i_data i)).

(** The record files of one account: [<uid>.json] and [<uid>.reset.json]. *)
Inductive rpath := FaceFile (uid : Z) | ResetFile (uid : Z).

#[export] Instance rpath_eq_dec : EqDecision rpath.
Proof. solve_decision. Defined.

#[export] Program Instance rpath_countable : Countable rpath :=
  inj_countable'
    (fun p => match p with FaceFile u => inl u | ResetFile u => inr u end)
    (fun s => match s with inl u => FaceFile u | inr u => ResetFile u end) _.
Next Obligation. by intros []. Qed.

Record world := World {
  w_parent : option inode;      (** the store's parent directory *)
  w_retry : option inode;       (** its [retry] subdirectory *)
  w_vis : gmap rpath inode;     (** record files as a reader sees them *)
  w_dur : gmap rpath inode;     (** record files a power loss would leave *)
  w_opfile : gmap Z inode;      (** [<uid>.operation] files *)
  w_oplock : gset Z;            (** uids whose operation file is locked *)
  w_faults : list bool;         (** outcomes of the next calls: [true] fails *)
}.

Definition with_faults (fs : list bool) (w : world) : world :=
  World (w_parent w) (w_retry w) (w_vis w) (w_dur w) (w_opfile w) (w_oplock w) fs.
Definition with_parent (d : option inode) (w : world) : world :=
  World d (w_retry w) (w_vis w) (w_dur w) (w_opfile w) (w_oplock w) (w_faults w).
Definition with_retry (d : option inode) (w : world) : world :=
  World (w_parent w) d (w_vis w) (w_dur w) (w_opfile w) (w_oplock w) (w_faults w).
Definition with_vis (v : gmap rpath inode) (w : world) : world :=
  World (w_parent w) (w_retry w) v (w_dur w) (w_opfile w) (w_oplock w) (w_faults w).
Definition with_dur (d : gmap rpath inode) (w : world) : world :=
  World (w_parent w) (w_retry w) (w_vis w) d (w_opfile w) (w_oplock w) (w_faults w).
Definition with_opfile (f : gmap Z inode) (w : world) : world :=
  World (w_parent w) (w_retry w) (w_vis w) (w_dur w) f (w_oplock w) (w_faults w).
Definition with_oplock (l : gset Z) (w : world) : world :=
  World (w_parent w) (w_retry w) (w_vis w) (w_dur w) (w_opfile w) l (w_faults w).

(** ** The I/O monad *)

Definition M (A : Type) : Type := world -> io A * world.

#[export] Instance M_ret : MRet M := fun A a w => (Ok a, w).
#[export] Instance M_bind : MBind M := fun A B f m w =>
  match m w with
  | (Ok a, w) => f a w
  | (Err e, w) => (Err e, w)
  end.

Definition lift {A} (r : io A) : M A := fun w => (r, w).
Definition gets {A} (f : world -> A) : M A := fun w => (Ok (f w), w).
Definition ensure (b : bool) : M () := fun w => (if b then Ok tt else Err InvalidData, w).

(** A system call: it fails when the environment says so, and otherwise has
    its effect. *)
Definition syscall {A} (k : M A) : M A := fun w =>
  match w_faults w with
  | true :: fs => (Err OsError, with_faults fs w)
  | false :: fs => k (with_faults fs w)
  | [] => k w
  end.

(** A call with no effect on the modelled state: it succeeds or fails. *)
Definition call : M () := syscall (fun w => (Ok tt, w)).

(** Drop of a guard: [release] runs when the body does not return a value that
    [keeps] it. *)
Definition guarded {A} (release : world -> world) (keeps : A -> bool) (m : M A) : M A := fun w =>
  match m w with
  | (Ok a, w) => (Ok a, if keeps a then w else release w)
  | (Err e, w) => (Err e, release w)
  end.

(** ** A small program logic

    [hoare P m Q E]: from a world satisfying [P], [m] ends in [Q a] when it
    returns [a] and in [E] when it fails. *)

Definition hoare {A} (P : world -> Prop) (m : M A) (Q : A -> world -> Prop) (E : world -> Prop) : Prop :=
  forall w, P w -> match m w with (Ok a, w') => Q a w' | (Err _, w') => E w' end.

Section Logic.
Context {A B : Type}.
Implicit Types (P E : world -> Prop) (m : M A).

Lemma hoare_ret P E (a : A) (Q : A -> world -> Prop) :
  (forall w, P w -> Q a w) -> hoare P (mret a) Q E.
Proof. intros H w Hw. by apply H. Qed.

Lemma hoare_bind P E (R : A -> world -> Prop) (Q : B -> world -> Prop) m (f : A -> M B) :
  hoare P m R E -> (forall a, hoare (R a) (f a) Q E) -> hoare P (mbind f m) Q E.
Proof.
  intros Hm Hf w Hw. specialize (Hm w Hw). unfold mbind, M_bind.
  destruct (m w) as [[a|e] w']; [by apply Hf|done].
Qed.

Lemma hoare_conseq P P' E E' (Q Q' : A -> world -> Prop) m :
  hoare P' m Q' E' -> (forall w, P w -> P' w) ->
  (forall a w, Q' a w -> Q a w) -> (forall w, E' w -> E w) -> hoare P m Q E.
Proof.
  intros Hm HP HQ HE w Hw. specialize (Hm w (HP w Hw)).
  destruct (m w) as [[a|e] w']; auto.
Qed.

Lemma hoare_pure P E (Q : A -> world -> Prop) m (X : Prop) :
  (X -> hoare P m Q E) -> hoare (fun w => X /\ P w) m Q E.
Proof. intros H w [HX Hw]. by apply H. Qed.

Lemma hoare_lift P E (r : io A) (Q : A -> world -> Prop) :
  (forall w, P w -> E w) -> (forall a w, r = Ok a -> P w -> Q a w) ->
  hoare P (lift r) Q E.
Proof. intros HE HQ w Hw. unfold lift. destruct r; [by apply HQ|by apply HE]. Qed.

Lemma hoare_syscall P E (Q : A -> world -> Prop) m :
  (forall w fs, P w -> P (with_faults fs w)) -> (forall w, P w -> E w) ->
  hoare P m Q E -> hoare P (syscall m) Q E.
Proof.
  intros Hfs HE Hm w Hw. unfold syscall.
  destruct (w_faults w) as [|[] fs]; [by apply Hm| |by apply Hm, Hfs].
  by apply HE, Hfs.
Qed.

Lemma hoare_guarded P E E' (Q Q' : A -> world -> Prop) release (keeps : A -> bool) m :
  hoare P m Q' E' -> (forall w, E' w -> E (release w)) ->
  (forall a w, Q' a w -> Q a (if keeps a then w else release w)) ->
  hoare P (guarded release keeps m) Q E.
Proof.
  intros Hm HE HQ w Hw. specialize (Hm w Hw). unfold guarded.
  destruct (m w) as [[a|e] w']; auto.
Qed.
End Logic.

Lemma hoare_ensure P E (b : bool) (Q : () -> world -> Prop) :
  (forall w, P w -> E w) -> (forall w, b = true -> P w -> Q tt w) ->
  hoare P (ensure b) Q E.
Proof. intros HE HQ w Hw. unfold ensure. destruct b; auto. Qed.

(** A call that does not change the world on success leaves any [P]
    insensitive to the fault script in place. *)
Definition fault_free (P : world -> Prop) : Prop := forall w fs, P w -> P (with_faults fs w).

Lemma hoare_noop P : fault_free P -> hoare P call (fun _ => P) P.
Proof. intros HP. apply hoare_syscall; [done|done|]. by intros w Hw. Qed.

(** ** Directory checks *)

(** The owner the store trusts, and the daemon's own identity and umask, which
    decide what a file it creates looks like. *)
Class Host := { owner : Z; euid : Z; umask : Z }.

(** The octal permission constants of the code. *)
Definition o7777 : Z := 4095.
Definition o700 : Z := 448.
Definition o600 : Z := 384.
Definition o022 : Z := 18.

Definition MAX_RECORD : Z := 4096.

(** [open_dir]: open without following a link, then check owner, type and
    permission bits. *)
Definition open_dir (dir : option inode) (owner : Z) (private : bool) : M () :=
  i ← syscall (lift (match dir with
                     | Some i => if bool_decide (i_kind i = KDir) then Ok i else Err OsError
                     | None => Err OsError
                     end));
  call;;
  let mode := Z.land (i_mode i) o7777 in
  ensure (bool_decide (i_uid i = owner) && bool_decide (i_kind i = KDir)
          && (if private then bool_decide (mode = o700)
              else bool_decide (Z.land mode o022 = 0))).

(** [DirBuilder::create] for the private subdirectory: a directory that is
    already there is fine. *)
Definition create_retry `{Host} : M () := syscall (fun w =>
  match w_retry w with
  | Some _ => (Ok tt, w)
  | None => (Ok tt, with_retry (Some (Inode KDir euid (Z.ldiff o700 umask) 2 [])) w)
  end).

(** [Store::lock]. *)
Definition lock `{Host} : M () :=
  parent ← gets w_parent;
  open_dir parent owner false;;
  create_retry;;
  dir ← gets w_retry;
  open_dir dir owner true;;
  call;;            (* parent.sync_all *)
  call.             (* flock(LOCK_EX) *)

(** [production_store]: check the fixed ancestors [/], [/var] and [/var/lib],
    given in that order, create the state directory when it is absent and make
    its entry durable. *)
Fixpoint open_ancestors (anc : list (option inode)) : M () :=
  match anc with
  | [] => mret ()
  | dir :: anc => open_dir dir 0 false;; open_ancestors anc
  end.

Definition production_store `{Host} (anc : list (option inode)) : M () :=
  open_ancestors anc;;
  syscall (fun w =>
    match w_parent w with
    | Some _ => (Ok tt, w)
    | None => (Ok tt, with_parent (Some (Inode KDir euid (Z.ldiff o700 umask) 2 [])) w)
    end);;
  call;;            (* File::open *)
  call.             (* sync_all *)

(** ** Reading a record file *)

(** The metadata a record file must have. *)
Definition record_meta `{Host} (i : inode) : bool :=
  bool_decide (i_kind i = KFile) && bool_decide (i_uid i = owner)
  && bool_decide (Z.land (i_mode i) o7777 = o600) && bool_decide (i_nlink i = 1)
  && bool_decide (i_len i <= MAX_RECORD).

(** [Store::read_bytes].  A file that is read is made durable, with its
    directory entry, before its contents are returned. *)
Definition read_bytes `{Host} (p : rpath) : M (option bytes) :=
  found ← syscall (fun w =>
    match w_vis w !! p with
    | Some i => if bool_decide (i_kind i = KSymlink) then (Err OsError, w) else (Ok (Some i), w)
    | None => (Ok None, w)
    end);
  match found with
  | None => mret None
  | Some i =>
      call;;          (* file.metadata *)
      ensure (record_meta i);;
      call;;          (* take(MAX_RECORD + 1).read_to_end *)
      ensure (bool_decide (i_len i <= MAX_RECORD));;
      call;;          (* file.sync_all *)
      syscall (fun w => (Ok tt, with_dur (<[p := i]> (w_dur w)) w));;  (* dir.sync_all *)
      mret (Some (i_data i))
  end.

(** ** The atomic writer *)

Inductive atomic_write := Durable | VisibleNotDurable (e : io_error).

(** The inode a fresh temporary file of mode [mode] becomes. *)
Definition new_inode `{Host} (b : bytes) (mode : Z) : inode :=
  Inode KFile euid (Z.ldiff mode umask) 1 b.

(** Open and sync the directory after the rename: what was published becomes
    durable, or the failure is reported beside the published file. *)
Definition sync_published (p : rpath) (i : inode) : M atomic_write := fun w =>
  match w_faults w with
  | true :: fs => (Ok (VisibleNotDurable OsError), with_faults fs w)
  | false :: fs => (Ok Durable, with_dur (<[p := i]> (w_dur w)) (with_faults fs w))
  | [] => (Ok Durable, with_dur (<[p := i]> (w_dur w)) w)
  end.

(** [write_atomic_reporting]: write and sync a temporary file, rename it over
    [p], then sync the directory.  A failure before the rename publishes
    nothing; a failed directory sync leaves the new contents visible but not
    known to be durable. *)
Definition write_atomic_reporting `{Host} (p : rpath) (b : bytes) (mode : Z) : M atomic_write :=
  call;;              (* create the temporary file *)
  call;;              (* write_all *)
  call;;              (* f.sync_all *)
  syscall (fun w => (Ok tt, with_vis (<[p := new_inode b mode]> (w_vis w)) w));;  (* rename *)
  sync_published p (new_inode b mode).

(** What [commit] does with the writer's answer. *)
Definition require_durable (a : atomic_write) : M () :=
  match a with
  | Durable => mret ()
  | VisibleNotDurable e => lift (Err e)
  end.

(** ** The per-account operation lock *)

Definition op_meta `{Host} (i : inode) : bool :=
  bool_decide (i_kind i = KFile) && bool_decide (i_uid i = owner)
  && bool_decide (Z.land (i_mode i) o7777 = o600) && bool_decide (i_nlink i = 1)
  && bool_decide (i_len i = 0).

Definition release_operation (uid : Z) (w : world) : world :=
  with_oplock (w_oplock w ∖ {[uid]}) w.

(** [Store::operation]: create or open the account's empty operation file and
    lock it without waiting.  A lock that is held is an error, and the guard
    of one taken here is dropped when a later step fails. *)
Definition operation `{Host} (uid : Z) : M () :=
  lock;;
  i ← syscall (fun w =>
    match w_opfile w !! uid with
    | Some i => if bool_decide (i_kind i = KDir) || bool_decide (i_kind i = KSymlink)
                then (Err OsError, w) else (Ok i, w)
    | None => let i := new_inode [] o600 in (Ok i, with_opfile (<[uid := i]> (w_opfile w)) w)
    end);
  call;;              (* file.metadata *)
  ensure (op_meta i);;
  syscall (fun w =>
    if bool_decide (uid ∈ w_oplock w) then (Err OsError, w)
    else (Ok tt, with_oplock ({[uid]} ∪ w_oplock w) w));;
  guarded (release_operation uid) (fun _ => true)
    (call;;           (* file.sync_all *)
     call).           (* dir.sync_all *)

(** ** Specifications

    [files V D L] pins the parts of the world the record protocol is about. *)

Definition files (V D : gmap rpath inode) (L : gset Z) (w : world) : Prop :=
  w_vis w = V /\ w_dur w = D /\ w_oplock w = L.

Lemma files_fault_free V D L : fault_free (files V D L).
Proof. by intros w fs. Qed.
#[export] Hint Resolve files_fault_free hoare_noop : irlume.

Lemma files_self w : files (w_vis w) (w_dur w) (w_oplock w) w.
Proof. done. Qed.

(** One step of a sequence that keeps [P]. *)
Ltac keep := eapply hoare_bind; [by eauto with irlume | intros []].

Section Specs.
Context `{Host}.
Implicit Types (V D : gmap rpath inode) (L : gset Z).

Lemma open_dir_spec dir o private P :
  fault_free P -> hoare P (open_dir dir o private) (fun _ => P) P.
Proof.
  intros HP. unfold open_dir. eapply hoare_bind.
  - apply hoare_syscall; auto. by apply (hoare_lift P P _ (fun _ => P)).
  - intros i. keep. by apply hoare_ensure.
Qed.

Lemma production_store_spec anc V D L :
  hoare (files V D L) (production_store anc) (fun _ => files V D L) (files V D L).
Proof.
  unfold production_store. pose proof (files_fault_free V D L) as HP.
  eapply hoare_bind with (R := fun _ => files V D L).
  { induction anc as [|dir anc IH]; simpl; [by apply hoare_ret|].
    eapply hoare_bind; [by apply open_dir_spec|by intros []]. }
  intros []. eapply hoare_bind with (R := fun _ => files V D L).
  { apply hoare_syscall; auto. intros w Hw. by destruct (w_parent w). }
  intros []. keep. by apply hoare_noop.
Qed.

Lemma lock_spec V D L : hoare (files V D L) lock (fun _ => files V D L) (files V D L).
Proof.
  unfold lock. pose proof (files_fault_free V D L) as HP.
  eapply hoare_bind with (R := fun _ => files V D L); [by intros w Hw|intros parent].
  eapply hoare_bind; [by apply open_dir_spec|intros []].
  eapply hoare_bind with (R := fun _ => files V D L).
  { apply hoare_syscall; auto. intros w Hw. by destruct (w_retry w). }
  intros []. eapply hoare_bind with (R := fun _ => files V D L); [by intros w Hw|intros dir].
  eapply hoare_bind; [by apply open_dir_spec|intros []].
  keep. by apply hoare_noop.
Qed.

(** Reading [p] returns the visible contents, now durable, or nothing when
    there is no file. *)
Definition read_post (p : rpath) V D L (o : option bytes) (w : world) : Prop :=
  match V !! p with
  | None => o = None /\ files V D L w
  | Some i => record_meta i = true /\ o = Some (i_data i) /\ files V (<[p := i]> D) L w
  end.

Lemma read_bytes_spec p V D L :
  hoare (files V D L) (read_bytes p) (read_post p V D L) (files V D L).
Proof.
  unfold read_bytes. pose proof (files_fault_free V D L) as HP.
  eapply hoare_bind with (R := fun o w => o = V !! p /\ files V D L w).
  { apply hoare_syscall; auto. intros w Hw. pose proof Hw as (HV & _ & _). rewrite HV.
    destruct (V !! p) as [i|]; [case_bool_decide|]; done. }
  intros o. apply hoare_pure. intros ->. unfold read_post.
  destruct (V !! p) as [i|]; [|by apply hoare_ret].
  keep. eapply hoare_bind with (R := fun _ w => record_meta i = true /\ files V D L w);
    [by apply hoare_ensure|intros []]. apply hoare_pure; intros Hm.
  keep. eapply hoare_bind with (R := fun _ => files V D L); [by apply hoare_ensure|intros []].
  keep. eapply hoare_bind with (R := fun _ => files V (<[p := i]> D) L).
  { apply hoare_syscall; auto. by intros w (? & <- & ?). }
  intros []. by apply hoare_ret.
Qed.

Definition write_post (p : rpath) (i : inode) V D L (a : atomic_write) (w : world) : Prop :=
  match a with
  | Durable => files (<[p := i]> V) (<[p := i]> D) L w
  | VisibleNotDurable _ => files (<[p := i]> V) D L w
  end.

Lemma write_atomic_spec p b mode V D L :
  hoare (files V D L) (write_atomic_reporting p b mode)
    (write_post p (new_inode b mode) V D L) (files V D L).
Proof.
  unfold write_atomic_reporting. pose proof (files_fault_free V D L) as HP.
  do 3 keep. eapply hoare_bind with (R := fun _ => files (<[p := new_inode b mode]> V) D L).
  { apply hoare_syscall; auto. by intros w (<- & ? & ?). }
  intros [] w (HV & HD & HL). unfold write_post, files, sync_published.
  destruct (w_faults w) as [|[] fs]; simpl; by rewrite ?HD.
Qed.

(** A durable write, or nothing durable and at most a visible change. *)
Lemma write_durable_spec p b mode V D L :
  hoare (files V D L)
    (a ← write_atomic_reporting p b mode; require_durable a)
    (fun _ => files (<[p := new_inode b mode]> V) (<[p := new_inode b mode]> D) L)
    (fun w => files V D L w \/ files (<[p := new_inode b mode]> V) D L w).
Proof.
  eapply hoare_bind with (R := write_post p (new_inode b mode) V D L).
  - eapply hoare_conseq; [apply (write_atomic_spec p b mode V D L)| | |]; simpl; auto.
  - intros [|e] w Hw; simpl in *; auto.
Qed.

(** The lock is newly taken on success; a failure holds nothing new. *)
Lemma operation_spec uid V D L :
  hoare (files V D L) (operation uid)
    (fun _ w => (uid ∉ L) /\ files V D ({[uid]} ∪ L) w) (files V D L).
Proof.
  unfold operation. pose proof (files_fault_free V D L) as HP.
  eapply hoare_bind; [by apply lock_spec|intros []].
  eapply hoare_bind with (R := fun _ => files V D L).
  { apply hoare_syscall; auto. intros w Hw.
    destruct (w_opfile w !! uid); [by destruct (_ || _)|done]. }
  intros i. keep. eapply hoare_bind with (R := fun _ => files V D L); [by apply hoare_ensure|intros []].
  eapply hoare_bind with (R := fun _ w => (uid ∉ L) /\ files V D ({[uid]} ∪ L) w).
  { apply hoare_syscall; auto. intros w (? & ? & <-). by case_bool_decide. }
  intros []. apply hoare_pure. intros Hfresh.
  pose proof (files_fault_free V D ({[uid]} ∪ L)) as HP'.
  eapply hoare_guarded with (E' := files V D ({[uid]} ∪ L)) (Q' := fun _ => files V D ({[uid]} ∪ L)).
  - keep. by apply hoare_noop.
  - intros w (? & ? & Hl). repeat split; try done. simpl. rewrite Hl. set_solver.
  - done.
Qed.
End Specs.
