(* ===== verification/RetryThrottle.v ===== *)
(** * Face retry accounting

    [irlume-daemon/src/retry_throttle.rs]: the durable per-account record of
    strikes, cooldown and face budget ([Record]), its transitions ([arm],
    [strike], [settle_abandoned]), the admission check ([Store::check]) and the
    life of one face attempt ([FaceAttempt::begin], [denied], [delivered] and
    drop).

    The JSON encoding is serde's and is a parameter: [RetryCodec] holds the
    functions the code calls, [RetryCodecOk] what it relies on. *)

From S2P Require Import Prelude RetryStore.

Definition NANOS : Z := 1000000000.
Definition FACE_LIMIT : Z := 50.

(** ** Data *)

Record Account := MkAccount { a_uid : Z; a_name : string }.

Record Policy := MkPolicy { p_limit : Z; p_seconds : Z }.

Record Tick := MkTick { t_boot : string; t_nanos : Z }.

Record Cooldown := MkCooldown { boot_id : string; deadline_nanos : Z; duration_nanos : Z }.

Record FaceBudget := MkBudget { unsuccessful_requests : Z; pending : bool }.

(** The code's [struct Record]. *)
Record RetryRecord := MkRecord {
  version : Z;
  uid : Z;
  account : string;
  strikes : Z;
  cooldown : option Cooldown;
  budget : option FaceBudget;
}.

#[export] Instance Cooldown_eq_dec : EqDecision Cooldown.
Proof. solve_decision. Defined.
#[export] Instance FaceBudget_eq_dec : EqDecision FaceBudget.
Proof. solve_decision. Defined.
#[export] Instance RetryRecord_eq_dec : EqDecision RetryRecord.
Proof. solve_decision. Defined.

Definition set_strikes (n : Z) (r : RetryRecord) : RetryRecord :=
  MkRecord (version r) (uid r) (account r) n (cooldown r) (budget r).
Definition set_cooldown (c : option Cooldown) (r : RetryRecord) : RetryRecord :=
  MkRecord (version r) (uid r) (account r) (strikes r) c (budget r).
Definition set_budget (b : option FaceBudget) (r : RetryRecord) : RetryRecord :=
  MkRecord (version r) (uid r) (account r) (strikes r) (cooldown r) b.

(** The engine's outcome class ([irlume_auth::OutcomeKind]). *)
Inductive OutcomeKind :=
| Granted | NoFace | Uncertain | RgbPadPending | SpoofNoIrFace | Spoof
| BelowThreshold | SetupUnavailable | DeadlineExpired | RuntimeUnavailable | OtherDeny.

(** The fields of [irlume_auth::Outcome] the daemon's accounting reads. *)
Record Outcome := MkOutcome { granted : bool; kind : OutcomeKind }.

(** ** Policy *)

(** [Policy::parse]: the policy in force, and whether a setting was invalid. *)
Definition policy_parse (limit seconds : string) : Policy * bool :=
  let limit := parse_uint 32 limit ≫= fun n => if bool_decide (1 <= n <= 5) then Some n else None in
  let seconds := parse_uint 64 seconds ≫= fun n => if bool_decide (30 <= n <= 86400) then Some n else None in
  (MkPolicy (default 5 limit) (default 30 seconds),
   bool_decide (limit = None) || bool_decide (seconds = None)).

(** ** Clock *)

Fixpoint boot_chars (i : nat) (l : list Z) : bool :=
  match l with
  | [] => true
  | b :: l =>
      (if bool_decide (i ∈ [8; 13; 18; 23]%nat) then bool_decide (b = 45) else is_ascii_hexdigit b)
      && boot_chars (S i) l
  end.

(** [valid_boot]: a UUID in the kernel's text form. *)
Definition valid_boot (boot : string) : bool :=
  bool_decide (str_len boot = 36) && boot_chars 0 (str_codes boot).

(** [linux_clock], over the text of [/proc/sys/kernel/random/boot_id] and the
    [timespec] of [CLOCK_MONOTONIC]. *)
Definition linux_clock (boot_file : io string) (ts : io (Z * Z)) : io Tick :=
  text ← boot_file;
  let boot := trim text in
  if negb (valid_boot boot) then Err InvalidData else
  t ← ts;
  let '(sec, nsec) := t : Z * Z in
  if bool_decide (sec < 0) || bool_decide (nsec < 0) then Err InvalidData else
  if bool_decide (NANOS <= nsec) then Err InvalidData else
  nanos ← ok_or InvalidData (checked_mul 64 sec NANOS ≫= fun n => checked_add 64 n nsec);
  Ok (MkTick boot nanos).

(** ** Record transitions *)

Definition empty_record (a : Account) : RetryRecord :=
  MkRecord 1 (a_uid a) (a_name a) 0 None None.

Definition initialize_budget (r : RetryRecord) : RetryRecord :=
  MkRecord 2 (uid r) (account r) (strikes r) (cooldown r) (Some (MkBudget 0 false)).

Definition reset_record (a : Account) : RetryRecord := initialize_budget (empty_record a).

(** [Record::validate]. *)
Definition validate (a : Account) (r : RetryRecord) : bool :=
  match version r, budget r with
  | 1, None => true
  | 2, Some _ => true
  | _, _ => false
  end
  && match budget r with
     | Some b => negb (bool_decide (FACE_LIMIT < unsuccessful_requests b)
                       || (pending b && bool_decide (unsuccessful_requests b = 0)))
     | None => true
     end
  && bool_decide (uid r = a_uid a)
  && bool_decide (account r = a_name a)
  && negb (bool_decide (str_len (account r) = 0))
  && negb (bool_decide (256 < str_len (account r)))
  && negb (any_control (str_codes (account r)))
  && match cooldown r with
     | Some c => negb (negb (valid_boot (boot_id c))
                       || bool_decide (deadline_nanos c < duration_nanos c)
                       || negb (bool_decide (strikes r = 0)))
     | None => true
     end.

(** [Record::arm]. *)
Definition arm (now : Tick) (duration : Z) (r : RetryRecord) : io RetryRecord :=
  deadline ← ok_or InvalidData (checked_add 64 (t_nanos now) duration);
  Ok (set_strikes 0 (set_cooldown (Some (MkCooldown (t_boot now) deadline duration)) r)).

Definition policy_duration (p : Policy) : io Z :=
  ok_or InvalidData (checked_mul 64 (p_seconds p) NANOS).

(** [Record::strike]. *)
Definition strike (p : Policy) (now : Tick) (r : RetryRecord) : io RetryRecord :=
  match cooldown r with
  | Some _ => Ok r
  | None =>
      n ← ok_or InvalidData (checked_add 32 (strikes r) 1);
      let r := set_strikes n r in
      if bool_decide (p_limit p <= n) then d ← policy_duration p; arm now d r else Ok r
  end.

(** [Record::settle_abandoned]: a reservation nobody completed is a strike. *)
Definition settle_abandoned (p : Policy) (now : Tick) (r : RetryRecord) : io RetryRecord :=
  match budget r with
  | Some b =>
      if pending b then strike p now (set_budget (Some (MkBudget (unsuccessful_requests b) false)) r)
      else Ok r
  | None => Ok r
  end.

(** The cooldown part of [Store::check]. *)
Definition refresh_cooldown (p : Policy) (now : Tick) (r : RetryRecord) : io RetryRecord :=
  match cooldown r with
  | Some c =>
      if negb (bool_decide (boot_id c = t_boot now)) then arm now (duration_nanos c) r
      else if bool_decide (duration_nanos c < sat_sub (deadline_nanos c) (t_nanos now)) then Err InvalidData
      else if bool_decide (deadline_nanos c <= t_nanos now) then Ok (set_strikes 0 (set_cooldown None r))
      else Ok r
  | None =>
      if bool_decide (p_limit p <= strikes r) then d ← policy_duration p; arm now d r else Ok r
  end.

(** What [Store::check] answers from the settled record. *)
Definition limited (now : Tick) (r : RetryRecord) : bool :=
  match budget r with Some b => bool_decide (FACE_LIMIT <= unsuccessful_requests b) | None => false end
  || match cooldown r with Some c => bool_decide (t_nanos now < deadline_nanos c) | None => false end.

(** Outcomes that are not charged as a strike. *)
Definition free_outcome (k : OutcomeKind) : bool :=
  match k with
  | NoFace | Uncertain | RgbPadPending | SpoofNoIrFace | SetupUnavailable => true
  | Granted | Spoof | BelowThreshold | DeadlineExpired | RuntimeUnavailable | OtherDeny => false
  end.

(** ** The codec *)

(** What the code asks of a [serde_json::Value]: its ["version"] as a [u64],
    and whether it has a ["budget"] key. *)
Record json_shape := MkShape { shape_version : option Z; shape_has_budget : bool }.

Class RetryCodec := {
  value_from_slice : bytes -> option json_shape;
  record_from_slice : bytes -> option RetryRecord;
  record_to_vec : RetryRecord -> option bytes;
}.

(** Field values a Rust [Record] can hold. *)
Definition cooldown_typed (c : Cooldown) : Prop := u64 (deadline_nanos c) /\ u64 (duration_nanos c).
Definition record_typed (r : RetryRecord) : Prop :=
  u32 (version r) /\ u32 (uid r) /\ u32 (strikes r)
  /\ (forall c, cooldown r = Some c -> cooldown_typed c)
  /\ (forall b, budget r = Some b -> u32 (unsuccessful_requests b)).

(** serde's documented behaviour for this derive: what is written reads back,
    [skip_serializing_if] leaves out an absent budget, and a decoded value fits
    the fields' types. *)
Class RetryCodecOk `{RetryCodec} : Prop := {
  record_roundtrip r b : record_typed r -> record_to_vec r = Some b -> record_from_slice b = Some r;
  shape_of_record r b : record_typed r -> record_to_vec r = Some b ->
    value_from_slice b = Some (MkShape (Some (version r)) (bool_decide (is_Some (budget r))));
  record_decoded_typed b r : record_from_slice b = Some r -> record_typed r;
}.

(** ** Store operations *)

Section Store.
Context `{Host, RetryCodec}.

(** [Store::read]: absent means an empty version-1 record. *)
Definition decode_record (a : Account) (b : bytes) : io RetryRecord :=
  shape ← ok_or InvalidData (value_from_slice b);
  if bool_decide (shape_version shape = Some 1) && shape_has_budget shape then Err InvalidData else
  r ← ok_or InvalidData (record_from_slice b);
  if validate a r then Ok r else Err InvalidData.

Definition read (a : Account) : M RetryRecord :=
  found ← read_bytes (FaceFile (a_uid a));
  match found with
  | None => mret (empty_record a)
  | Some b => lift (decode_record a b)
  end.

(** [Store::commit]. *)
Definition commit (r : RetryRecord) : M () :=
  let a := MkAccount (uid r) (account r) in
  ensure (validate a r);;
  b ← lift (ok_or InvalidData (record_to_vec r));
  ensure (bool_decide (Z.of_nat (length b) <= MAX_RECORD));;
  w ← write_atomic_reporting (FaceFile (a_uid a)) b o600;
  require_durable w.

(** [Store::check]: [true] when face authentication is limited. *)
Definition check (a : Account) (p : Policy) (clock : io Tick) : M bool :=
  now ← lift clock;
  ensure (valid_boot (t_boot now));;
  lock;;
  before ← read a;
  r ← lift (settle_abandoned p now before ≫= refresh_cooldown p now);
  (if bool_decide (r = before) then mret () else commit r);;
  mret (limited now r).

(** ** One face attempt *)

(** [FaceAttempt]: the account and policy it was reserved with. *)
Record FaceAttempt := MkAttempt { fa_account : Account; fa_policy : Policy }.

(** The reservation of [FaceAttempt::begin], under the directory lock. *)
Definition reserve (a : Account) (p : Policy) : M (option FaceAttempt) :=
  lock;;
  r ← read a;
  let r := match budget r with None => initialize_budget r | Some _ => r end in
  match budget r with
  | None => lift (Err InvalidData)
  | Some b =>
      if bool_decide (FACE_LIMIT <= unsuccessful_requests b) then mret None else
      n ← lift (ok_or InvalidData (checked_add 32 (unsuccessful_requests b) 1));
      commit (set_budget (Some (MkBudget n true)) r);;
      mret (Some (MkAttempt a p))
  end.

(** [FaceAttempt::begin].  The operation lock stays with the attempt and is
    dropped on every other path. *)
Definition begin (a : Account) (p : Policy) (clock : io Tick) : M (option FaceAttempt) :=
  operation (a_uid a);;
  guarded (release_operation (a_uid a)) (fun o => bool_decide (is_Some o))
    (lim ← check a p clock;
     if (lim : bool) then mret None else reserve a p).

(** [FaceAttempt::denied_inner]. *)
Definition denied_inner (fa : FaceAttempt) (o : Outcome) (clock : io Tick) : M () :=
  ensure (negb (granted o));;
  lock;;
  r ← read (fa_account fa);
  match budget r with
  | None => lift (Err InvalidData)
  | Some b =>
      ensure (pending b);;
      let r := set_budget (Some (MkBudget (unsuccessful_requests b) false)) r in
      r ← (if free_outcome (kind o) then mret r else
           now ← lift clock;
           ensure (valid_boot (t_boot now));;
           lift (strike (fa_policy fa) now r));
      commit r
  end.

(** [FaceAttempt::denied] and [delivered] consume the attempt, so its
    operation lock goes whatever the result. *)
Definition denied (fa : FaceAttempt) (o : Outcome) (clock : io Tick) : M () :=
  guarded (release_operation (a_uid (fa_account fa))) (fun _ => false) (denied_inner fa o clock).

Definition delivered_inner (fa : FaceAttempt) : M () :=
  lock;;
  r ← read (fa_account fa);
  ensure (match budget r with Some b => pending b | None => false end);;
  commit (reset_record (fa_account fa)).

Definition delivered (fa : FaceAttempt) : M () :=
  guarded (release_operation (a_uid (fa_account fa))) (fun _ => false) (delivered_inner fa).

(** Drop of an attempt that was neither denied nor delivered. *)
Definition abandon (fa : FaceAttempt) (w : world) : world :=
  release_operation (a_uid (fa_account fa)) w.
End Store.

(** [FaceAttempt::for_account]'s refusals. *)
Inductive retry_refusal := LIMITED | UNAVAILABLE.

(** [account_of]: the account of a registered uid, by the NSS lookup of its name. *)
Definition account_of (name_for_uid : Z -> option string) (u : Z) : option Account :=
  name_for_uid u ≫= fun n => Some (MkAccount u n).

(** Opening the production store and reserving the attempt in it. *)
Definition attempt_begin `{Host, RetryCodec} (anc : list (option inode)) (a : Account) (p : Policy)
    (clock : io Tick) : M (option FaceAttempt) :=
  production_store anc;;
  begin a p clock.

(** [FaceAttempt::for_account], over the registered uid. *)
Definition for_account `{Host, RetryCodec} (name_for_uid : Z -> option string) (anc : list (option inode))
    (u : option Z) (p : Policy) (clock : io Tick) (w : world) : result retry_refusal FaceAttempt * world :=
  match u ≫= account_of name_for_uid with
  | None => (Err UNAVAILABLE, w)
  | Some a =>
      match attempt_begin anc a p clock w with
      | (Ok (Some fa), w) => (Ok fa, w)
      | (Ok None, w) => (Err LIMITED, w)
      | (Err _, w) => (Err UNAVAILABLE, w)
      end
  end.

(** ** Facts about the transitions *)

Definition account_typed (a : Account) : Prop := u32 (a_uid a).
Definition policy_typed (p : Policy) : Prop := 0 <= p_seconds p.
Definition clock_typed (clock : io Tick) : Prop := forall now, clock = Ok now -> u64 (t_nanos now).

Definition count (r : RetryRecord) : Z :=
  match budget r with Some b => unsuccessful_requests b | None => 0 end.

(** [r] is a record of account [a] with fields in range. *)
Definition owned (a : Account) (r : RetryRecord) : Prop :=
  uid r = a_uid a /\ account r = a_name a /\ record_typed r.

(** Destructs the [Result] binds of a transition in a hypothesis. *)
Ltac run_in H :=
  repeat match type of H with
  | mbind _ _ = Ok _ => unfold mbind, result_bind in H
  | ok_or _ ?o = Ok _ => let E := fresh "E" in destruct o eqn:E; simpl in H; [|discriminate H]
  | match ok_or _ ?o with _ => _ end = Ok _ =>
      let E := fresh "E" in destruct o eqn:E; simpl in H; [|discriminate H]
  | match ?x with _ => _ end = Ok _ =>
      let E := fresh "E" in destruct x eqn:E; simpl in H; try discriminate H
  end.

Lemma linux_clock_typed f ts : clock_typed (linux_clock f ts).
Proof.
  intros now H. unfold linux_clock in H. run_in H. simplify_eq. simpl.
  match goal with Hb : option_bind _ _ _ _ = Some _ |- _ =>
    apply bind_Some in Hb as (n & [-> ?]%checked_mul_Some & Ha) end.
  reflect_bools. eapply checked_add_in_width; [| |exact Ha]; unfold NANOS; lia.
Qed.

Lemma arm_owned a now d r r' :
  u64 (t_nanos now) -> 0 <= d -> owned a r -> arm now d r = Ok r' ->
  owned a r' /\ count r' = count r.
Proof.
  intros Hn Hd (?&?&Hv&Hu&Hs&Hc&Hb) Hrun. unfold arm in Hrun. run_in Hrun. simplify_eq.
  apply checked_add_Some in E as [-> ?]. repeat split; try done; simpl; unfold u32, u64, in_width in *.
  all: try lia. all: intros; simplify_eq/=; try (unfold cooldown_typed, u64, in_width; simpl; lia).
  all: match goal with Hx : budget _ = Some _ |- _ => apply Hb in Hx; lia end.
Qed.

Lemma policy_duration_nonneg p d : policy_typed p -> policy_duration p = Ok d -> 0 <= d.
Proof.
  unfold policy_typed, policy_duration. intros ? Hrun. run_in Hrun.
  apply checked_mul_Some in E as [-> ?]. simplify_eq. unfold NANOS. lia.
Qed.

Ltac solve_owned :=
  intros; unfold owned, record_typed in *; destruct_and?; simpl; split_and!;
  try done; try (unfold u32, in_width in *; simpl; lia); naive_solver.

Lemma set_strikes_owned a n r : u32 n -> owned a r -> owned a (set_strikes n r).
Proof. solve_owned. Qed.

Lemma set_cooldown_None_owned a r : owned a r -> owned a (set_cooldown None r).
Proof. solve_owned. Qed.

Lemma set_budget_owned a n b r : u32 n -> owned a r -> owned a (set_budget (Some (MkBudget n b)) r).
Proof. solve_owned. Qed.

Lemma empty_record_owned a : account_typed a -> owned a (empty_record a).
Proof. unfold account_typed. solve_owned. Qed.

Lemma initialize_budget_owned a r : owned a r -> owned a (initialize_budget r).
Proof. assert (u32 0) by (unfold u32, in_width; lia). solve_owned. Qed.

Lemma owned_budget a r b : owned a r -> budget r = Some b -> u32 (unsuccessful_requests b).
Proof. intros (?&?&?&?&?&?&?). auto. Qed.

Lemma owned_strikes a r : owned a r -> u32 (strikes r).
Proof. by intros (?&?&?&?&?&?&?). Qed.

#[export] Hint Resolve set_strikes_owned set_cooldown_None_owned set_budget_owned
  empty_record_owned initialize_budget_owned owned_budget owned_strikes : irlume.

Section Transitions.
Context (a : Account) (p : Policy) (now : Tick).
Context (Hp : policy_typed p) (Hnow : u64 (t_nanos now)).

Lemma strike_owned r r' :
  owned a r -> strike p now r = Ok r' -> owned a r' /\ count r' = count r.
Proof.
  intros Hr Hrun. unfold strike in Hrun. destruct (cooldown r); [by simplify_eq|].
  run_in Hrun; simplify_eq; pose proof (owned_strikes a r Hr) as Hs; unfold u32, in_width in Hs.
  all: apply checked_add_in_width in E as Hz; try lia.
  all: try (split; [auto with irlume|done]).
  eapply (arm_owned a now) in Hrun as [? Hc]; eauto using policy_duration_nonneg with irlume.
Qed.

Lemma settle_abandoned_owned r r' :
  owned a r -> settle_abandoned p now r = Ok r' -> owned a r' /\ count r' = count r.
Proof.
  intros Hr Hrun. unfold settle_abandoned in Hrun.
  destruct (budget r) as [b|] eqn:Eb; [|by simplify_eq].
  destruct (pending b); [|by simplify_eq].
  apply strike_owned in Hrun as [? ->]; eauto with irlume.
  split; [done|]. unfold count. by rewrite Eb.
Qed.

Lemma refresh_cooldown_owned r r' :
  owned a r -> refresh_cooldown p now r = Ok r' -> owned a r' /\ count r' = count r.
Proof.
  intros Hr Hrun. unfold refresh_cooldown in Hrun.
  destruct (cooldown r) as [c|] eqn:Ec.
  - pose proof Hr as (_&_&_&_&_&Hc&_). specialize (Hc c Ec) as [_ Hd]. unfold u64, in_width in Hd.
    run_in Hrun; simplify_eq; try done; [apply (arm_owned a now (duration_nanos c) r); [done|lia|done|done]|].
    split; [|done]. apply set_strikes_owned; [unfold u32, in_width; lia|auto with irlume].
  - run_in Hrun; simplify_eq; try done.
    eapply (arm_owned a now _ r); [done|by eapply policy_duration_nonneg|done|done].
Qed.

Lemma settle_refresh_owned r r' :
  owned a r -> (settle_abandoned p now r ≫= refresh_cooldown p now) = Ok r' ->
  owned a r' /\ count r' = count r.
Proof.
  intros Hr Hrun. unfold mbind, result_bind in Hrun.
  destruct (settle_abandoned p now r) as [s|] eqn:Es; [|done].
  apply settle_abandoned_owned in Es as [Hs <-]; [|done].
  by apply refresh_cooldown_owned in Hrun.
Qed.
End Transitions.
