(* ===== verification/RetryCodecModel.v ===== *)
(** * A concrete codec

    A length-prefixed binary encoding that meets what [RetryThrottle] relies on
    from serde: it instantiates [RetryCodec], so that the theorems that assume
    [RetryCodecOk] can be run on concrete records. *)

From S2P Require Import Prelude RetryStore RetryThrottle.

Definition put_str (s : string) : bytes :=
  to_le 4 (str_len s) ++ String.list_byte_of_string s.
Definition get_str : dec string :=
  n ← get_u 4; l ← get (Z.to_nat n); mret (String.string_of_list_byte l).

Definition put_opt {A} (put : A -> bytes) (o : option A) : bytes :=
  match o with None => [x00] | Some a => x01 :: put a end.
Definition get_opt {A} (d : dec A) : dec (option A) := fun b =>
  match b with
  | x00 :: b => Some (None, b)
  | x01 :: b => match d b with Some (a, b) => Some (Some a, b) | None => None end
  | _ => None
  end.

Definition put_cooldown (c : Cooldown) : bytes :=
  put_str (boot_id c) ++ to_le 8 (deadline_nanos c) ++ to_le 8 (duration_nanos c).
Definition get_cooldown : dec Cooldown :=
  s ← get_str; d ← get_u 8; n ← get_u 8; mret (MkCooldown s d n).

Definition put_bool (b : bool) : bytes := [if b then x01 else x00].
Definition get_bool : dec bool := fun b =>
  match b with x00 :: b => Some (false, b) | x01 :: b => Some (true, b) | _ => None end.

Definition put_budget (f : FaceBudget) : bytes :=
  to_le 4 (unsuccessful_requests f) ++ put_bool (pending f).
Definition get_budget : dec FaceBudget := n ← get_u 4; p ← get_bool; mret (MkBudget n p).

Definition put_record (r : RetryRecord) : bytes :=
  to_le 4 (version r) ++ to_le 4 (uid r) ++ put_str (account r) ++ to_le 4 (strikes r)
  ++ put_opt put_cooldown (cooldown r) ++ put_opt put_budget (budget r).
Definition get_record : dec RetryRecord :=
  v ← get_u 4; u ← get_u 4; a ← get_str; s ← get_u 4;
  c ← get_opt get_cooldown; f ← get_opt get_budget; mret (MkRecord v u a s c f).

Definition short (s : string) : bool := bool_decide (str_len s < 2 ^ 32).
Definition record_short (r : RetryRecord) : bool :=
  short (account r) && match cooldown r with Some c => short (boot_id c) | None => true end.

#[export] Instance model_codec : RetryCodec := {
  record_to_vec r := if record_short r then Some (put_record r) else None;
  record_from_slice := whole get_record;
  value_from_slice b :=
    r ← whole get_record b;
    Some (MkShape (Some (version r)) (bool_decide (is_Some (budget r))));
}.

(** Project the fields of a known record, and nothing else. *)
Ltac fields := cbn [boot_id deadline_nanos duration_nanos unsuccessful_requests pending
  version uid account strikes cooldown budget] in *.

(** ** Round trips *)

Lemma length_list_byte s : length (String.list_byte_of_string s) = String.length s.
Proof.
  unfold String.list_byte_of_string. rewrite length_map.
  induction s; simpl; [done|by f_equal].
Qed.

Lemma reads_str s : short s = true -> reads get_str (put_str s) s.
Proof.
  unfold short. intros Hs. reflect_bools. unfold get_str, put_str.
  assert (0 <= str_len s) by (unfold str_len; lia).
  eapply reads_bind; [by apply reads_u|].
  rewrite <- (String.string_of_list_byte_of_string s) at 3.
  apply (reads_map _ String.string_of_list_byte).
  replace (Z.to_nat (str_len s)) with (length (String.list_byte_of_string s)); [apply reads_get|].
  rewrite length_list_byte. unfold str_len. lia.
Qed.

Lemma reads_opt {A} (d : dec A) put (o : option A) :
  (forall a, o = Some a -> reads d (put a) a) -> reads (get_opt d) (put_opt put o) o.
Proof. intros Hd rest. destruct o as [a|]; [|done]. unfold put_opt. simpl. by rewrite (Hd a). Qed.

Lemma reads_bool p : reads get_bool (put_bool p) p.
Proof. by destruct p. Qed.

Lemma reads_cooldown c :
  cooldown_typed c -> short (boot_id c) = true -> reads get_cooldown (put_cooldown c) c.
Proof.
  destruct c as [s d n]. intros [Hd Hn] Hs. unfold get_cooldown, put_cooldown. fields.
  eapply reads_bind; [by apply reads_str|]. eapply reads_bind; [by apply reads_u|].
  by apply (reads_map _ (MkCooldown s d)), reads_u.
Qed.

Lemma reads_budget f : u32 (unsuccessful_requests f) -> reads get_budget (put_budget f) f.
Proof.
  destruct f as [n p]. intros Hf. unfold get_budget, put_budget. fields.
  eapply reads_bind; [by apply reads_u|]. by apply (reads_map _ (MkBudget n)), reads_bool.
Qed.

Lemma reads_record r :
  record_typed r -> record_short r = true -> reads get_record (put_record r) r.
Proof.
  destruct r as [v u a st c f]. intros (Hv & Hu & Hs & Hc & Hb) Hshort.
  unfold record_short in Hshort. fields. reflect_bools. unfold get_record, put_record. fields.
  do 2 (eapply reads_bind; [by apply reads_u|]). eapply reads_bind; [by apply reads_str|].
  eapply reads_bind; [by apply reads_u|]. eapply reads_bind.
  { apply reads_opt. intros c' ->. apply reads_cooldown; [by apply Hc|done]. }
  apply (reads_map _ (MkRecord v u a st c)).
  apply reads_opt. intros f' ->. by apply reads_budget, Hb.
Qed.

(** ** Decoded values are in range *)

Lemma yields_opt {A} (d : dec A) P :
  yields d P -> yields (get_opt d) (fun o => forall a, o = Some a -> P a).
Proof.
  intros Hd b o rest. unfold get_opt. destruct b as [|[] b]; try done; [naive_solver|].
  destruct (d b) as [[a b']|] eqn:E; [|done]. intros [= <- _] a' [= <-]. by eapply Hd.
Qed.

Lemma yields_record : yields get_record record_typed.
Proof.
  assert (yields get_cooldown cooldown_typed) as Hc.
  { eapply yields_bind; [apply yields_any|intros s _]. do 2 (eapply yields_bind; [apply yields_u|intros ??]).
    by apply yields_ret. }
  assert (yields get_budget (fun f => u32 (unsuccessful_requests f))) as Hb.
  { eapply yields_bind; [apply yields_u|intros ??]. eapply yields_bind; [apply yields_any|intros ??].
    by apply yields_ret. }
  do 2 (eapply yields_bind; [apply yields_u|intros ??]).
  eapply yields_bind; [apply yields_any|intros ??].
  eapply yields_bind; [apply yields_u|intros ??].
  eapply yields_bind; [apply yields_opt, Hc|intros ??].
  eapply yields_bind; [apply yields_opt, Hb|intros ??].
  by apply yields_ret.
Qed.

#[export] Instance model_codec_ok : RetryCodecOk.
Proof.
  assert (forall r b, record_typed r -> record_to_vec r = Some b -> whole get_record b = Some r) as Hrt.
  { intros r b Ht. simpl. destruct (record_short r) eqn:Es; [|done]. intros [= <-]. unfold whole.
    pose proof (reads_record r Ht Es []) as Hr. rewrite app_nil_r in Hr. by rewrite Hr. }
  split.
  - apply Hrt.
  - intros r b Ht Hb. simpl. by rewrite (Hrt r b Ht Hb).
  - intros b r. simpl. unfold whole. destruct (get_record b) as [[r' [|]]|] eqn:E; try done.
    intros [= <-]. by eapply yields_record.
Qed.
