(* ===== verification/RetryTheory.v ===== *)
(** * The face budget and the cooldown

    Theorems about [RetryThrottle]: an attempt is charged durably before face
    work, the charge survives every failure and power loss, at most
    [FACE_LIMIT] attempts are admitted between resets, and no attempt is
    admitted during a cooldown. *)

From S2P Require Import Prelude RetryStore RetryThrottle.

Section Theory.
Context `{Host, RetryCodec, !RetryCodecOk}.
Implicit Types (V D : gmap rpath inode) (L : gset Z) (w : world).

Definition face_path (a : Account) : rpath := FaceFile (a_uid a).

(** The record a face file holds for [a]. *)
Definition face_record (a : Account) (o : option inode) : io RetryRecord :=
  match o with
  | None => Ok (empty_record a)
  | Some i => decode_record a (i_data i)
  end.

(** The budget a face file shows as spent.  An unreadable record admits
    nothing, so it counts as exhausted. *)
Definition spent (a : Account) (o : option inode) : Z :=
  match face_record a o with Ok r => count r | Err _ => FACE_LIMIT end.

(** Both copies of the file show at least [n] spent. *)
Definition charged (a : Account) (n : Z) (w : world) : Prop :=
  n <= spent a (w_vis w !! face_path a) /\ n <= spent a (w_dur w !! face_path a).

(** ** Decoding *)

Lemma validate_count a r : validate a r = true -> count r <= FACE_LIMIT.
Proof.
  unfold validate, count. intros Hv. reflect_bools.
  destruct (budget r); [|unfold FACE_LIMIT; lia]. reflect_bools. lia.
Qed.

Lemma validate_owner a r : validate a r = true -> uid r = a_uid a /\ account r = a_name a.
Proof. unfold validate. intros Hv. by reflect_bools. Qed.

Lemma validate_shape a r :
  validate a r = true -> version r = 1 -> budget r = None.
Proof. unfold validate. intros Hv Hone. rewrite Hone in Hv. by destruct (budget r). Qed.

Lemma decode_record_inv a b r :
  decode_record a b = Ok r ->
  record_from_slice b = Some r /\ validate a r = true /\ owned a r.
Proof.
  intros Hd. unfold decode_record in Hd. run_in Hd; simplify_eq.
  match goal with Hv : validate a r = true |- _ => pose proof (validate_owner a r Hv) as [??] end.
  split_and!; try done. unfold owned. eauto using record_decoded_typed.
Qed.

Lemma decode_committed a r b :
  owned a r -> validate a r = true -> record_to_vec r = Some b -> decode_record a b = Ok r.
Proof.
  intros (Hu & Ha & Ht) Hv Hb. unfold decode_record.
  rewrite (shape_of_record r b Ht Hb), (record_roundtrip r b Ht Hb). simpl.
  destruct (bool_decide (Some (version r) = Some 1)) eqn:E1; reflect_bools; simpl.
  - injection E1 as E1. rewrite (validate_shape a r Hv E1). simpl. by rewrite Hv.
  - by rewrite Hv.
Qed.

Lemma face_record_owned a o r :
  account_typed a -> face_record a o = Ok r -> owned a r.
Proof.
  intros Ha. destruct o as [i|]; simpl; [intros (_&_&?)%decode_record_inv; done|].
  intros [= <-]. auto with irlume.
Qed.

Lemma spent_le a o : spent a o <= FACE_LIMIT.
Proof.
  unfold spent. destruct (face_record a o) as [r|] eqn:Er; [|done].
  destruct o as [i|]; simpl in Er.
  - apply decode_record_inv in Er as (_ & Hv & _). by eapply validate_count.
  - injection Er as <-. unfold count, FACE_LIMIT. simpl. lia.
Qed.

(** ** Reading and writing *)

(** After a successful read the visible file, if any, is durable. *)
Definition synced (a : Account) V D D' : Prop :=
  D' = match V !! face_path a with Some i => <[face_path a := i]> D | None => D end.

Lemma read_spec a V D L :
  hoare (files V D L) (read a)
    (fun r w => face_record a (V !! face_path a) = Ok r
                /\ exists D', synced a V D D' /\ files V D' L w)
    (fun w => exists D', (D' = D \/ synced a V D D') /\ files V D' L w).
Proof.
  unfold read. eapply hoare_bind with (R := read_post (face_path a) V D L).
  { eapply hoare_conseq; [apply read_bytes_spec| | |]; eauto. }
  unfold read_post, synced. intros o w Hw.
  destruct (V !! face_path a) as [i|]; simpl in *.
  - destruct Hw as (_ & -> & Hw). unfold lift.
    destruct (decode_record a (i_data i)); eauto.
  - destruct Hw as (-> & Hw). simpl. eauto.
Qed.

Lemma commit_spec a r V D L :
  owned a r ->
  hoare (files V D L) (commit r)
    (fun _ w => exists i, face_record a (Some i) = Ok r /\
       files (<[face_path a := i]> V) (<[face_path a := i]> D) L w)
    (fun w => files V D L w \/
       exists i, face_record a (Some i) = Ok r /\ files (<[face_path a := i]> V) D L w).
Proof.
  intros Hr. pose proof Hr as (Hu & Ha & _). unfold commit. simpl.
  rewrite Hu, Ha. destruct a as [au an]. simpl in *.
  eapply hoare_bind with (R := fun _ w => validate (MkAccount au an) r = true /\ files V D L w);
    [apply hoare_ensure; auto|intros []]. apply hoare_pure; intros Hv.
  eapply hoare_bind with (R := fun b w => record_to_vec r = Some b /\ files V D L w).
  { apply hoare_lift; [auto|]. intros b w Hb ?. by destruct (record_to_vec r); simplify_eq/=. }
  intros b. apply hoare_pure; intros Hb.
  pose proof (decode_committed _ _ _ Hr Hv Hb) as Hdec.
  eapply hoare_bind with (R := fun _ => files V D L); [apply hoare_ensure; auto|intros []].
  eapply hoare_conseq; [apply (write_durable_spec (FaceFile au) b o600 V D L)|done| |]; unfold face_path; simpl.
  - intros _ w ?. by exists (new_inode b o600).
  - intros w [?|?]; [by left|right]. by exists (new_inode b o600).
Qed.

(** ** The charge is never lost *)

Lemma charged_mono a m n w : m <= n -> charged a n w -> charged a m w.
Proof. unfold charged. lia. Qed.

Lemma charged_faults a n : fault_free (charged a n).
Proof. by intros w fs. Qed.

Lemma charged_release a n u w : charged a n (release_operation u w) <-> charged a n w.
Proof. done. Qed.

Lemma spent_face_record a o r : face_record a o = Ok r -> spent a o = count r.
Proof. unfold spent. by intros ->. Qed.

(** Work from the files of the starting world. *)
Lemma hoare_charged {A} a n (m : M A) Q E :
  (forall V D L, n <= spent a (V !! face_path a) -> n <= spent a (D !! face_path a) ->
     hoare (files V D L) m Q E) ->
  hoare (charged a n) m Q E.
Proof. intros Hm w [Hv Hd]. apply (Hm _ _ (w_oplock w) Hv Hd w), files_self. Qed.

Lemma files_charged a n V D L w :
  n <= spent a (V !! face_path a) -> n <= spent a (D !! face_path a) ->
  files V D L w -> charged a n w.
Proof. intros ?? (Hv & Hd & _). unfold charged. by rewrite Hv, Hd. Qed.

Lemma synced_spent a n V D D' :
  n <= spent a (V !! face_path a) -> n <= spent a (D !! face_path a) ->
  synced a V D D' -> n <= spent a (D' !! face_path a).
Proof.
  intros Hv Hd ->. destruct (V !! face_path a); [|done]. by rewrite lookup_insert_eq.
Qed.

Lemma lock_charged a n : hoare (charged a n) lock (fun _ => charged a n) (charged a n).
Proof.
  apply hoare_charged. intros V D L ??.
  eapply hoare_conseq; [apply (lock_spec V D L)|..]; cbv beta; eauto using files_charged.
Qed.

Lemma operation_charged a n u :
  hoare (charged a n) (operation u) (fun _ => charged a n) (charged a n).
Proof.
  apply hoare_charged. intros V D L ??.
  eapply hoare_conseq; [apply (operation_spec u V D L)|..]; cbv beta; eauto using files_charged.
  intros _ w [_ ?]. eauto using files_charged.
Qed.

Lemma read_charged a n :
  account_typed a ->
  hoare (charged a n) (read a)
    (fun r w => (owned a r /\ n <= count r) /\ charged a n w) (charged a n).
Proof.
  intros Ha. apply hoare_charged. intros V D L Hv Hd.
  eapply hoare_conseq; [apply (read_spec a V D L)|done|..].
  - intros r w (Hr & D' & Hs & Hf). split_and!.
    + by eapply face_record_owned.
    + by rewrite <- (spent_face_record a _ r Hr).
    + eauto using files_charged, synced_spent.
  - intros w (D' & [->|Hs] & Hf); eauto using files_charged, synced_spent.
Qed.

Lemma commit_charged a n r :
  owned a r -> n <= count r ->
  hoare (charged a n) (commit r) (fun _ => charged a (count r)) (charged a n).
Proof.
  intros Hr Hn. apply hoare_charged. intros V D L Hv Hd.
  eapply hoare_conseq; [by apply (commit_spec a r V D L)|done|..].
  - intros _ w (i & Hi & Hf).
    eapply files_charged, Hf; rewrite lookup_insert_eq, (spent_face_record a _ r Hi); lia.
  - intros w [Hf|(i & Hi & Hf)]; [by eapply files_charged, Hf|].
    eapply files_charged, Hf; [|done]. rewrite lookup_insert_eq, (spent_face_record a _ r Hi). lia.
Qed.

(** What an operation on account [b] needs to keep a property [I] of the
    directory: [G] is what a record of [b] read under [I] satisfies and one
    written must satisfy. *)
Record tracks (b : Account) (I : world -> Prop) (G : RetryRecord -> Prop) : Prop := {
  tr_lock : hoare I lock (fun _ => I) I;
  tr_operation u : hoare I (operation u) (fun _ => I) I;
  tr_release u w : I w -> I (release_operation u w);
  tr_read : hoare I (read b) (fun r w => (owned b r /\ G r) /\ I w) I;
  tr_commit r : owned b r -> G r -> hoare I (commit r) (fun _ => I) I;
  tr_count r r' : count r' = count r -> G r -> G r';
}.

Lemma tracks_self a n : account_typed a -> tracks a (charged a n) (fun r => n <= count r).
Proof.
  intros Ha. split; eauto using lock_charged, operation_charged, read_charged.
  - intros r Hr Hn. eapply hoare_conseq; [by apply (commit_charged a n r)|..]; cbv beta;
      eauto using charged_mono.
  - intros r r' ??. lia.
Qed.

(** The exact contents of one file, both copies. *)
Definition slot (q : rpath) (x y : option inode) (w : world) : Prop :=
  w_vis w !! q = x /\ w_dur w !! q = y.

Lemma hoare_slot {A} q x y (m : M A) Q E :
  (forall V D L, V !! q = x -> D !! q = y -> hoare (files V D L) m Q E) ->
  hoare (slot q x y) m Q E.
Proof. intros Hm w [Hv Hd]. apply (Hm _ _ (w_oplock w) Hv Hd w), files_self. Qed.

Lemma files_slot q V D L w : files V D L w -> slot q (V !! q) (D !! q) w.
Proof. intros (Hv & Hd & _). unfold slot. by rewrite Hv, Hd. Qed.

Lemma lock_slot q x y : hoare (slot q x y) lock (fun _ => slot q x y) (slot q x y).
Proof.
  apply hoare_slot. intros V D L <- <-.
  eapply hoare_conseq; [apply (lock_spec V D L)|done|..]; cbv beta; eauto using files_slot.
Qed.

(** An operation on [b]'s face file keeps every other file. *)
Lemma tracks_slot q b x y :
  q <> face_path b -> account_typed b -> tracks b (slot q x y) (fun _ => True).
Proof.
  intros Hne Hb. split; try done.
  - apply lock_slot.
  - intros u. apply hoare_slot. intros V D L <- <-.
    eapply hoare_conseq; [apply (operation_spec u V D L)|done| |]; eauto using files_slot.
    intros _ w [_ ?]; eauto using files_slot.
  - apply hoare_slot. intros V D L <- <-.
    assert (forall D', synced b V D D' -> D !! q = D' !! q) as Hs.
    { intros D' ->. destruct (V !! face_path b); [by rewrite lookup_insert_ne|done]. }
    eapply hoare_conseq; [apply (read_spec b V D L)|done|..].
    + intros r w (Hr & D' & HD & Hf). split; [eauto using face_record_owned|].
      rewrite (Hs D' HD). eauto using files_slot.
    + intros w (D' & [->|HD] & ?); [|rewrite (Hs D' HD)]; eauto using files_slot.
  - intros r Hr _. apply hoare_slot. intros V D L <- <-.
    eapply hoare_conseq; [by apply (commit_spec b r V D L)|done|..].
    + intros _ w (i & _ & Hf%(files_slot q)). by rewrite !lookup_insert_ne in Hf.
    + intros w [?|(i & _ & Hf%(files_slot q))]; [by eauto using files_slot|].
      by rewrite !lookup_insert_ne in Hf.
Qed.

Lemma tracks_other a b x y :
  a_uid a <> a_uid b -> account_typed b -> tracks b (slot (face_path a) x y) (fun _ => True).
Proof. intros Hne. apply tracks_slot. unfold face_path. congruence. Qed.

(** The visible budget and the locks held, exactly. *)
Definition showing (a : Account) (n : Z) (L : gset Z) (w : world) : Prop :=
  spent a (w_vis w !! face_path a) = n /\ w_oplock w = L.

Lemma hoare_showing {A} a n L (m : M A) Q E :
  (forall V D, spent a (V !! face_path a) = n -> hoare (files V D L) m Q E) ->
  hoare (showing a n L) m Q E.
Proof. intros Hm w [Hv <-]. apply (Hm _ (w_dur w) Hv w), files_self. Qed.

Lemma files_showing a V D L w : files V D L w -> showing a (spent a (V !! face_path a)) L w.
Proof. intros (Hv & _ & Hl). unfold showing. by rewrite Hv. Qed.

Lemma lock_showing a n L : hoare (showing a n L) lock (fun _ => showing a n L) (showing a n L).
Proof.
  apply hoare_showing. intros V D <-. eapply hoare_conseq; [apply (lock_spec V D L)|..];
    cbv beta; eauto using files_showing.
Qed.

Lemma read_showing a n L :
  account_typed a ->
  hoare (showing a n L) (read a)
    (fun r w => (owned a r /\ count r = n) /\ showing a n L w) (showing a n L).
Proof.
  intros Ha. apply hoare_showing. intros V D Hn.
  assert (forall D' w, files V D' L w -> showing a n L w) as Hs.
  { intros D' w Hf. apply (files_showing a) in Hf. by rewrite Hn in Hf. }
  eapply hoare_conseq; [apply (read_spec a V D L)|done|..].
  - intros r w (Hr & D' & _ & Hf). split; [split|by apply (Hs D')].
    + by eapply face_record_owned.
    + by rewrite <- (spent_face_record a _ r Hr).
  - intros w (D' & _ & Hf). eauto.
Qed.

Lemma check_showing a n L p clock :
  account_typed a -> policy_typed p -> clock_typed clock ->
  hoare (showing a n L) (check a p clock) (fun _ => showing a n L) (showing a n L).
Proof.
  intros Ha Hp Hc. unfold check.
  eapply hoare_bind with (R := fun now w => clock = Ok now /\ showing a n L w);
    [by apply hoare_lift|intros now]. apply hoare_pure; intros Hnow.
  eapply hoare_bind with (R := fun _ => showing a n L); [by apply hoare_ensure|intros []].
  eapply hoare_bind; [apply lock_showing|intros []].
  eapply hoare_bind; [by apply read_showing|intros r]. apply hoare_pure; intros [Hr HG].
  eapply hoare_bind with (R := fun r' w => (owned a r' /\ count r' = n) /\ showing a n L w).
  { apply hoare_lift; [done|]. intros r' w Hr' ?.
    apply (settle_refresh_owned a p now) in Hr' as [? Heq]; auto with lia. }
  intros r'. apply hoare_pure; intros [Hr' HG'].
  eapply hoare_bind with (R := fun _ => showing a n L); [|intros []; by apply hoare_ret].
  case_bool_decide; [by apply hoare_ret|].
  apply hoare_showing. intros V D Hn.
  eapply hoare_conseq; [by apply (commit_spec a r' V D L)|done|..].
  - intros _ w (i & Hi & Hf). apply (files_showing a) in Hf.
    by rewrite lookup_insert_eq, (spent_face_record a _ r' Hi), HG' in Hf.
  - intros w [Hf|(i & Hi & Hf)]; apply (files_showing a) in Hf; [by rewrite Hn in Hf|].
    by rewrite lookup_insert_eq, (spent_face_record a _ r' Hi), HG' in Hf.
Qed.

Section Ops.
Context {b : Account} {I : world -> Prop} {G : RetryRecord -> Prop} (T : tracks b I G).
Context (p : Policy) (clock : io Tick) (Hp : policy_typed p) (Hc : clock_typed clock).

Lemma check_keeps : hoare I (check b p clock) (fun _ => I) I.
Proof.
  unfold check.
  eapply hoare_bind with (R := fun now w => clock = Ok now /\ I w);
    [by apply hoare_lift|intros now]. apply hoare_pure; intros Hnow.
  eapply hoare_bind with (R := fun _ => I); [by apply hoare_ensure|intros []].
  eapply hoare_bind; [apply (tr_lock _ _ _ T)|intros []].
  eapply hoare_bind; [apply (tr_read _ _ _ T)|intros r]. apply hoare_pure; intros [Hr HG].
  eapply hoare_bind with (R := fun r' w => (owned b r' /\ G r') /\ I w).
  { apply hoare_lift; [done|]. intros r' w Hr' ?.
    apply (settle_refresh_owned b p now) in Hr' as [? Heq]; auto.
    split_and!; try done. by eapply (tr_count _ _ _ T). }
  intros r'. apply hoare_pure; intros [Hr' HG'].
  eapply hoare_bind with (R := fun _ => I); [|intros []; by apply hoare_ret].
  case_bool_decide; [by apply hoare_ret|]. by apply (tr_commit _ _ _ T).
Qed.

(** A reservation reads a record and, when it admits, commits one whose
    budget is one higher: [J] is what that commit establishes. *)
Lemma reserve_spec (J : world -> Prop) :
  (forall r r', owned b r -> G r -> owned b r' -> count r' = count r + 1 ->
     hoare I (commit r') (fun _ => J) I) ->
  hoare I (reserve b p) (fun o => if o is Some _ then J else I) I.
Proof.
  intros HJ. unfold reserve. eapply hoare_bind; [apply (tr_lock _ _ _ T)|intros []].
  eapply hoare_bind; [apply (tr_read _ _ _ T)|intros r]. apply hoare_pure; intros [Hr HG].
  set (r' := match budget r with None => initialize_budget r | Some _ => r end).
  assert (owned b r' /\ count r' = count r) as [Hr' Hcr].
  { unfold r', count. destruct (budget r) eqn:Eb; [by rewrite Eb|]. eauto with irlume. }
  clearbody r'. destruct (budget r') as [f|] eqn:Eb; [|by apply hoare_lift].
  case_bool_decide; [by apply hoare_ret|].
  eapply hoare_bind with (R := fun m w => m = unsuccessful_requests f + 1 /\ I w).
  { apply hoare_lift; [done|]. intros m w Hm ?. run_in Hm. simplify_eq.
    by match goal with Hx : checked_add _ _ _ = _ |- _ => apply checked_add_Some in Hx as [-> _] end. }
  intros m. apply hoare_pure; intros ->.
  pose proof (owned_budget b r' f Hr' Eb) as Hub. unfold FACE_LIMIT, u32, in_width in *.
  eapply hoare_bind with (R := fun _ => J); [|intros []; by apply hoare_ret].
  apply (HJ r); try done; [apply set_budget_owned; [unfold u32, in_width; lia|done]|].
  rewrite <- Hcr. unfold count. by rewrite Eb.
Qed.

(** What a charge of one keeps. *)
Context (Hup : forall r r', count r' = count r + 1 -> G r -> G r').

Lemma reserve_keeps : hoare I (reserve b p) (fun _ => I) I.
Proof.
  eapply hoare_conseq; [apply (reserve_spec I)|done|by intros []|done].
  intros r r' Hr HG Hr' Hcr. apply (tr_commit _ _ _ T); eauto.
Qed.

Lemma begin_keeps : hoare I (begin b p clock) (fun _ => I) I.
Proof.
  unfold begin. eapply hoare_bind; [apply (tr_operation _ _ _ T)|intros []].
  eapply hoare_guarded with (E' := I) (Q' := fun _ => I).
  - eapply hoare_bind; [apply check_keeps|intros []; [by apply hoare_ret|apply reserve_keeps]].
  - apply (tr_release _ _ _ T).
  - intros [fa|] w Hw; [done|]. by apply (tr_release _ _ _ T).
Qed.

Lemma denied_keeps o : hoare I (denied (MkAttempt b p) o clock) (fun _ => I) I.
Proof.
  unfold denied, denied_inner. simpl.
  eapply hoare_guarded with (E' := I) (Q' := fun _ => I); [|apply T|intros _; apply T].
  eapply hoare_bind with (R := fun _ => I); [by apply hoare_ensure|intros []].
  eapply hoare_bind; [apply (tr_lock _ _ _ T)|intros []].
  eapply hoare_bind; [apply (tr_read _ _ _ T)|intros r]. apply hoare_pure; intros [Hr HG].
  destruct (budget r) as [f|] eqn:Eb; [|by apply hoare_lift].
  eapply hoare_bind with (R := fun _ => I); [by apply hoare_ensure|intros []].
  set (r0 := set_budget (Some (MkBudget (unsuccessful_requests f) false)) r).
  assert (owned b r0 /\ count r0 = count r) as [Hr0 Hc0].
  { split; [eauto with irlume|]. unfold count. by rewrite Eb. }
  eapply hoare_bind with (R := fun r' w => (owned b r' /\ count r' = count r) /\ I w).
  - destruct (free_outcome (kind o)); [apply hoare_ret; naive_solver|].
    eapply hoare_bind with (R := fun now w => clock = Ok now /\ I w);
      [by apply hoare_lift|intros now]. apply hoare_pure; intros Hnow.
    eapply hoare_bind with (R := fun _ => I); [by apply hoare_ensure|intros []].
    apply hoare_lift; [done|]. intros r' w Hr' ?.
    apply (strike_owned b) in Hr' as [? ->]; auto.
  - intros r'. apply hoare_pure; intros [Hr' Hcr']. apply (tr_commit _ _ _ T); [done|].
    by eapply (tr_count _ _ _ T).
Qed.

(** A delivered grant resets the record, so it keeps only what a reset
    record satisfies. *)
Lemma delivered_keeps :
  account_typed b -> G (reset_record b) ->
  hoare I (delivered (MkAttempt b p)) (fun _ => I) I.
Proof.
  intros Hb HGr. unfold delivered, delivered_inner. simpl.
  eapply hoare_guarded with (E' := I) (Q' := fun _ => I); [|apply T|intros _; apply T].
  eapply hoare_bind; [apply (tr_lock _ _ _ T)|intros []].
  eapply hoare_bind; [apply (tr_read _ _ _ T)|intros r]. apply hoare_pure; intros _.
  eapply hoare_bind with (R := fun _ => I); [by apply hoare_ensure|intros []].
  apply (tr_commit _ _ _ T); [apply initialize_budget_owned, empty_record_owned|]; done.
Qed.
End Ops.

(** A successful reservation is on disk, durably, one higher. *)
Lemma reserve_charged a p n :
  account_typed a ->
  hoare (charged a n) (reserve a p)
    (fun o => charged a (if o is Some _ then n + 1 else n)) (charged a n).
Proof.
  intros Ha. eapply hoare_conseq; [|done|..].
  - apply (reserve_spec (tracks_self a n Ha) p (charged a (n + 1))).
    intros r r' Hr Hn Hr' Hcr. eapply hoare_conseq; [apply (commit_charged a n r' Hr'); lia|done| |done].
    intros [] w. apply charged_mono. lia.
  - by intros [fa|] w.
  - done.
Qed.

Lemma begin_charged a p clock n :
  account_typed a -> policy_typed p -> clock_typed clock ->
  hoare (charged a n) (begin a p clock)
    (fun o => charged a (if o is Some _ then n + 1 else n)) (charged a n).
Proof.
  intros Ha Hp Hc. unfold begin. eapply hoare_bind; [apply operation_charged|intros []].
  eapply hoare_guarded with (E' := charged a n)
    (Q' := fun o => charged a (if o is Some _ then n + 1 else n)).
  - eapply hoare_bind; [by apply (check_keeps (tracks_self a n Ha))|].
    intros []; [by apply hoare_ret|by apply reserve_charged].
  - by intros w Hw.
  - intros [fa|] w Hw; by simpl in *.
Qed.

(** A reservation that admits leaves its charge, pending, in both copies. *)
Definition reserved (a : Account) (n : Z) (L : gset Z) (w : world) : Prop :=
  w_oplock w = L /\ exists i r,
    w_vis w !! face_path a = Some i /\ w_dur w !! face_path a = Some i
    /\ decode_record a (i_data i) = Ok r /\ budget r = Some (MkBudget n true).

Lemma reserve_reserved a n L p :
  account_typed a ->
  hoare (showing a n L) (reserve a p)
    (fun o w => match o with
                | Some fa => fa = MkAttempt a p /\ reserved a (n + 1) L w
                | None => w_oplock w = L end)
    (fun w => w_oplock w = L).
Proof.
  intros Ha. unfold reserve.
  eapply hoare_bind; [eapply hoare_conseq; [apply (lock_showing a n L)|done|done|by intros w []]|intros []].
  eapply hoare_bind; [eapply hoare_conseq; [by apply (read_showing a n L)|done|done|by intros w []]|intros r].
  apply hoare_pure; intros [Hr Hn].
  set (r' := match budget r with None => initialize_budget r | Some _ => r end).
  assert (owned a r' /\ count r' = n) as [Hr' Hcr].
  { unfold r'. rewrite <- Hn. unfold count. destruct (budget r) eqn:Eb; [by rewrite Eb|].
    eauto with irlume. }
  clearbody r'. destruct (budget r') as [f|] eqn:Eb; [|by apply hoare_lift; [intros w []|]].
  case_bool_decide; [by apply hoare_ret; intros w []|].
  eapply hoare_bind with (R := fun m w => m = n + 1 /\ showing a n L w).
  { apply hoare_lift; [by intros w []|]. intros m w Hm ?. run_in Hm. simplify_eq.
    match goal with Hx : checked_add _ _ _ = _ |- _ => apply checked_add_Some in Hx as [-> _] end.
    unfold count in *. rewrite Eb in *. simpl in *. split; [lia|done]. }
  intros m. apply hoare_pure; intros ->.
  pose proof (owned_budget a r' f Hr' Eb) as Hub. unfold count in Hcr. rewrite Eb in Hcr.
  unfold FACE_LIMIT, u32, in_width in *.
  set (r'' := set_budget _ r').
  assert (owned a r'') as Hr'' by (apply set_budget_owned; [unfold u32, in_width; lia|done]).
  eapply hoare_bind with (R := fun _ => reserved a (n + 1) L); [|intros []; by apply hoare_ret].
  apply hoare_showing. intros V D _.
  eapply hoare_conseq; [by apply (commit_spec a r'' V D L)|done|..].
  - intros _ w (i & Hi & Hv & Hd & Hl). split; [done|]. exists i, r''.
    by rewrite Hv, Hd, !lookup_insert_eq.
  - by intros w [(_&_&?)|(i & _ & _ & _ & ?)].
Qed.

Lemma begin_reserved a n L p clock :
  account_typed a -> policy_typed p -> clock_typed clock ->
  hoare (showing a n L) (begin a p clock)
    (fun o w => match o with
                | Some fa => fa = MkAttempt a p /\ (a_uid a ∉ L) /\ reserved a (n + 1) ({[a_uid a]} ∪ L) w
                | None => w_oplock w = L end)
    (fun w => w_oplock w = L).
Proof.
  intros Ha Hp Hc. unfold begin.
  eapply hoare_bind with (R := fun _ w => (a_uid a ∉ L) /\ showing a n ({[a_uid a]} ∪ L) w).
  { apply hoare_showing. intros V D Hn.
    eapply hoare_conseq; [apply (operation_spec (a_uid a) V D L)|done|..].
    - intros _ w [Hl Hf%(files_showing a)]. by rewrite Hn in Hf.
    - by intros w (_&_&?). }
  intros []. apply hoare_pure; intros Hfresh.
  assert (({[a_uid a]} ∪ L) ∖ {[a_uid a]} = L) as Hrel by set_solver.
  eapply hoare_guarded with (E' := fun w => w_oplock w = {[a_uid a]} ∪ L).
  - eapply hoare_bind;
      [eapply hoare_conseq; [by apply (check_showing a n ({[a_uid a]} ∪ L) p clock)|done|done|by intros w []]|].
    intros [|]; [|by apply reserve_reserved].
    apply hoare_ret. by intros w [_ ?].
  - intros w Hl. simpl. by rewrite Hl.
  - intros [fa|] w Hw; simpl in *; [|by rewrite Hw]. naive_solver.
Qed.

(** Opening the production store first changes none of this. *)
Lemma store_showing anc a n L :
  hoare (showing a n L) (production_store anc) (fun _ => showing a n L) (fun w => w_oplock w = L).
Proof.
  apply hoare_showing. intros V D <-.
  eapply hoare_conseq; [apply (production_store_spec anc V D L)|done|..]; cbv beta;
    eauto using files_showing. by intros w (_ & _ & ?).
Qed.

Lemma attempt_begin_reserved anc a n L p clock :
  account_typed a -> policy_typed p -> clock_typed clock ->
  hoare (showing a n L) (attempt_begin anc a p clock)
    (fun o w => match o with
                | Some fa => fa = MkAttempt a p /\ (a_uid a ∉ L) /\ reserved a (n + 1) ({[a_uid a]} ∪ L) w
                | None => w_oplock w = L end)
    (fun w => w_oplock w = L).
Proof.
  intros Ha Hp Hc. eapply hoare_bind; [apply store_showing|intros []]. by apply begin_reserved.
Qed.

Lemma store_charged anc a n :
  hoare (charged a n) (production_store anc) (fun _ => charged a n) (charged a n).
Proof.
  apply hoare_charged. intros V D L ??.
  eapply hoare_conseq; [apply (production_store_spec anc V D L)|done|..]; cbv beta;
    eauto using files_charged.
Qed.

Lemma attempt_begin_charged anc a p clock n :
  account_typed a -> policy_typed p -> clock_typed clock ->
  hoare (charged a n) (attempt_begin anc a p clock)
    (fun o => charged a (if o is Some _ then n + 1 else n)) (charged a n).
Proof.
  intros Ha Hp Hc. eapply hoare_bind; [apply store_charged|intros []]. by apply begin_charged.
Qed.

(** ** Runs

    The operations of one attempt, and what can happen to the directory
    while no grant to [a] is delivered and its state is not reset: attempts
    of [a] begin, are denied or dropped; other accounts' attempts begin, end
    and are delivered; the environment chooses which calls fail; the daemon
    or the machine stops.  A power loss leaves each record file as it was
    visible or as it was last durable.  The label counts the attempts of
    [a] admitted. *)

Inductive op :=
| OpBegin (p : Policy) (clock : io Tick)
| OpDenied (p : Policy) (o : Outcome) (clock : io Tick)
| OpDelivered (p : Policy)
| OpAbandon (p : Policy).

Definition op_typed (x : op) : Prop :=
  match x with
  | OpBegin p clock | OpDenied p _ clock => policy_typed p /\ clock_typed clock
  | OpDelivered _ | OpAbandon _ => True
  end.

Definition exec (b : Account) (x : op) (w : world) : world :=
  match x with
  | OpBegin p clock => snd (begin b p clock w)
  | OpDenied p o clock => snd (denied (MkAttempt b p) o clock w)
  | OpDelivered p => snd (delivered (MkAttempt b p) w)
  | OpAbandon p => abandon (MkAttempt b p) w
  end.

Definition admits (b : Account) (x : op) (w : world) : bool :=
  match x with
  | OpBegin p clock => if fst (begin b p clock w) is Ok (Some _) then true else false
  | _ => false
  end.

Inductive step (a : Account) : world -> Z -> world -> Prop :=
| step_own x w :
    op_typed x -> (forall p, x <> OpDelivered p) ->
    step a w (if admits a x w then 1 else 0) (exec a x w)
| step_other b x w :
    a_uid a <> a_uid b -> account_typed b -> op_typed x -> step a w 0 (exec b x w)
| step_environment fs w : step a w 0 (with_faults fs w)
| step_power_loss w w' :
    (forall q, w_vis w' !! q = w_vis w !! q \/ w_vis w' !! q = w_dur w !! q) ->
    w_dur w' = w_vis w' -> w_oplock w' = ∅ -> step a w 0 w'.

Inductive run (a : Account) : world -> Z -> world -> Prop :=
| run_done w : run a w 0 w
| run_step w n w' m w'' : step a w n w' -> run a w' m w'' -> run a w (n + m) w''.

Lemma hoare_snd {A} (I : world -> Prop) (m : M A) w :
  hoare I m (fun _ => I) I -> I w -> I (snd (m w)).
Proof. intros Hm Hw. specialize (Hm w Hw). by destruct (m w) as [[]]. Qed.

(** Every operation of [b] keeps what its transitions keep. *)
Lemma exec_keeps b I G x w :
  tracks b I G -> account_typed b -> op_typed x ->
  (forall r r', count r' = count r + 1 -> G r -> G r') ->
  (forall p, x = OpDelivered p -> G (reset_record b)) -> I w -> I (exec b x w).
Proof.
  intros T Hb Hx Hup Hreset Hw. destruct x as [p clock|p o clock|p|p]; simpl in *.
  - apply hoare_snd; [|done]. by eapply begin_keeps; try apply Hx.
  - apply hoare_snd; [|done]. by eapply denied_keeps; try apply Hx.
  - apply hoare_snd; [|done]. eapply delivered_keeps; eauto.
  - by apply T.
Qed.

Lemma step_charged a n k w w' :
  account_typed a -> step a w k w' -> charged a n w -> charged a (n + k) w'.
Proof.
  intros Ha Hstep Hw.
  destruct Hstep as [x w Hx Hnd|b x w Hne Hb Hx|fs w|w w' Hq Hd _]; rewrite ?Z.add_0_r; try done.
  - destruct (admits a x w) eqn:Eadm.
    + destruct x as [p clock|p o clock|p|p]; try done. simpl in *. destruct Hx as [Hp Hc].
      pose proof (begin_charged a p clock n Ha Hp Hc w Hw) as Hbegin.
      by destruct (begin a p clock w) as [[[fa|]|] w'].
    + rewrite Z.add_0_r. eapply (exec_keeps a _ _ x w (tracks_self a n Ha)); eauto; [lia|].
      intros p ->. by destruct (Hnd p).
  - pose proof (exec_keeps b _ _ x w (tracks_other a b _ _ Hne Hb) Hb Hx
      (fun _ _ _ _ => I) (fun _ _ => I) (conj eq_refl eq_refl)) as [Hv Hd].
    unfold charged. by rewrite Hv, Hd.
  - destruct Hw as [Hv Hdur]. unfold charged. rewrite Hd.
    destruct (Hq (face_path a)) as [-> | ->]; done.
Qed.

Lemma run_charged a n k w w' :
  account_typed a -> run a w k w' -> charged a n w -> charged a (n + k) w'.
Proof.
  intros Ha Hr. revert n. induction Hr as [w|w m w' k w'' Hs _ IH]; intros n Hw.
  - by rewrite Z.add_0_r.
  - rewrite Z.add_assoc. eauto using step_charged.
Qed.
End Theory.

(** ** Cooldown *)

(** The cooldown is in force at [now]: in the boot that armed it until its
    deadline, and after a reboot for its full duration again. *)
Definition in_cooldown (now : Tick) (c : Cooldown) : Prop :=
  (boot_id c = t_boot now /\ t_nanos now < deadline_nanos c)
  \/ (boot_id c <> t_boot now /\ 0 < duration_nanos c).

Lemma settle_abandoned_cooldown p now r r' c :
  settle_abandoned p now r = Ok r' -> cooldown r = Some c -> cooldown r' = Some c.
Proof.
  unfold settle_abandoned, strike. intros Hs Hc.
  destruct (budget r) as [b|]; [|by simplify_eq].
  destruct (pending b); [|by simplify_eq]. simpl in Hs. rewrite Hc in Hs. by simplify_eq.
Qed.

Lemma refresh_cooldown_limited p now r r' c :
  refresh_cooldown p now r = Ok r' -> cooldown r = Some c -> in_cooldown now c ->
  limited now r' = true.
Proof.
  unfold refresh_cooldown, limited. intros Hr Hc Hin. rewrite Hc in Hr.
  apply orb_true_iff; right.
  destruct (bool_decide (boot_id c = t_boot now)) eqn:Eb; reflect_bools; simpl in Hr.
  - destruct Hin as [[_ Hlt]|[? _]]; [|done].
    rewrite (bool_decide_eq_false_2 (_ <= _)) in Hr by lia.
    run_in Hr; simplify_eq. rewrite Hc. by apply bool_decide_eq_true.
  - destruct Hin as [[? _]|[_ Hd]]; [done|]. unfold arm in Hr. run_in Hr. simplify_eq. simpl.
    match goal with Hx : checked_add _ _ _ = _ |- _ => apply checked_add_Some in Hx as [-> _] end.
    apply bool_decide_eq_true. lia.
Qed.

(** ** Counting strikes *)

(** A strike at each of [ticks] in turn. *)
Fixpoint strike_all (p : Policy) (ticks : list Tick) (r : RetryRecord) : io RetryRecord :=
  match ticks with
  | [] => Ok r
  | t :: ticks => r ← strike p t r; strike_all p ticks r
  end.

Lemma strike_all_app p l1 l2 r :
  strike_all p (l1 ++ l2) r = (r1 ← strike_all p l1 r; strike_all p l2 r1).
Proof.
  revert r; induction l1 as [|t l1 IH]; intros r; simpl; [done|].
  unfold mbind, result_bind in *. destruct (strike p t r); [apply IH|done].
Qed.

Lemma strike_below p now r :
  cooldown r = None -> strikes r + 1 < p_limit p -> strikes r + 1 < 2 ^ 32 ->
  strike p now r = Ok (set_strikes (strikes r + 1) r).
Proof.
  intros Hc Hl Hw. unfold strike. rewrite Hc.
  assert (checked_add 32 (strikes r) 1 = Some (strikes r + 1)) as -> by (by apply checked_add_Some).
  simpl. by rewrite bool_decide_eq_false_2 by lia.
Qed.

Lemma strike_at p now r :
  cooldown r = None -> strikes r + 1 = p_limit p -> p_limit p < 2 ^ 32 ->
  t_nanos now + p_seconds p * NANOS < 2 ^ 64 -> 0 <= t_nanos now ->
  strike p now r =
    Ok (set_strikes 0 (set_cooldown
      (Some (MkCooldown (t_boot now) (t_nanos now + p_seconds p * NANOS) (p_seconds p * NANOS))) r)).
Proof.
  intros Hc Hl Hw Hn Hp. unfold strike. rewrite Hc.
  assert (checked_add 32 (strikes r) 1 = Some (strikes r + 1)) as -> by (apply checked_add_Some; lia).
  simpl. rewrite bool_decide_eq_true_2 by lia. unfold policy_duration, arm.
  assert (checked_mul 64 (p_seconds p) NANOS = Some (p_seconds p * NANOS)) as ->
    by (apply checked_mul_Some; lia).
  simpl. assert (checked_add 64 (t_nanos now) (p_seconds p * NANOS) = Some (t_nanos now + p_seconds p * NANOS)) as ->
    by (by apply checked_add_Some). done.
Qed.

Lemma strike_all_below p ticks r :
  cooldown r = None -> 0 <= strikes r -> p_limit p < 2 ^ 32 ->
  strikes r + Z.of_nat (length ticks) < p_limit p ->
  strike_all p ticks r = Ok (set_strikes (strikes r + Z.of_nat (length ticks)) r).
Proof.
  revert r; induction ticks as [|t ticks IH]; intros r Hc H0 Hw Hl.
  - simpl. rewrite Z.add_0_r. by destruct r.
  - change (length (t :: ticks)) with (S (length ticks)) in *. simpl.
    rewrite strike_below by (done || lia). simpl. rewrite IH; simpl; try done; try lia.
    f_equal. unfold set_strikes; simpl. f_equal. lia.
Qed.
