(* ===== verification/RetryBudget.v ===== *)
(** * What the face retry accounting guarantees

    The headline theorems of the face budget, the durable charge, the cooldown
    and the isolation of accounts, each with a run of the real operations on a
    concrete directory. *)

From S2P Require Import Prelude RetryStore RetryThrottle RetryCodecModel RetryTheory.

Section Claims.
Context `{Host, RetryCodec, !RetryCodecOk}.

(** C3. At most 50 face attempts are admitted between resets.  Over any run
    of an account's attempts (and of other accounts'), with any calls
    failing and any number of power losses, the attempts admitted plus what
    the record already showed as spent never exceed [FACE_LIMIT], as long as
    no grant is delivered and nothing is reset. *)
Theorem face_budget_bounded a w n w' :
  account_typed a -> run a w n w' ->
  n + Z.min (spent a (w_vis w !! face_path a)) (spent a (w_dur w !! face_path a)) <= FACE_LIMIT.
Proof.
  intros Ha Hr. set (k := Z.min _ _).
  assert (charged a k w) as Hk by (unfold charged, k; lia).
  pose proof (run_charged a k n w w' Ha Hr Hk) as [Hv _].
  pose proof (spent_le a (w_vis w' !! face_path a)). lia.
Qed.

(** An admitted attempt is charged durably before any face work: when
    [begin] admits, both the visible and the durable record of the account
    hold a pending reservation one higher than the budget shown before, and
    the account's operation lock, which was free, is held. *)
Theorem begin_charges_durably a p clock w fa w' :
  account_typed a -> policy_typed p -> clock_typed clock ->
  begin a p clock w = (Ok (Some fa), w') ->
  fa = MkAttempt a p /\ (a_uid a ∉ w_oplock w) /\
  reserved a (spent a (w_vis w !! face_path a) + 1) ({[a_uid a]} ∪ w_oplock w) w'.
Proof.
  intros Ha Hp Hc Hb.
  pose proof (begin_reserved a _ _ p clock Ha Hp Hc w (conj eq_refl eq_refl)) as Hr.
  by rewrite Hb in Hr.
Qed.

(** No attempt is admitted while a cooldown is in force: not before its
    deadline in the boot that armed it, and not at the first check after a
    reboot, whatever calls fail. *)
Theorem cooldown_refuses a p now w r c fa :
  face_record a (w_vis w !! face_path a) = Ok r -> cooldown r = Some c -> in_cooldown now c ->
  fst (begin a p (Ok now) w) <> Ok (Some fa).
Proof.
  intros Hr Hc Hin.
  enough (hoare (files (w_vis w) (w_dur w) (w_oplock w)) (begin a p (Ok now))
            (fun o _ => o = None) (fun _ => True)) as Hb.
  { specialize (Hb w (files_self w)). by destruct (begin a p (Ok now) w) as [[[]|]]. }
  set (V := w_vis w) in *. set (D := w_dur w). unfold begin.
  eapply hoare_bind with (R := fun _ => files V D ({[a_uid a]} ∪ w_oplock w)).
  { eapply hoare_conseq; [apply operation_spec| |by intros ?? []|]; eauto. }
  intros []. eapply hoare_guarded with (E' := fun _ => True) (Q' := fun o _ => o = None); [|done|done].
  eapply hoare_bind with (R := fun lim _ => lim = true); [|by intros [] ? ?].
  unfold check. eapply hoare_bind with (R := fun t w' => t = now /\ files V D _ w').
  { apply hoare_lift; [done|]. by intros t w' [= <-]. }
  intros t. apply hoare_pure; intros ->.
  eapply hoare_bind with (R := fun _ => files V D _); [by apply hoare_ensure|intros []].
  eapply hoare_bind; [eapply hoare_conseq; [apply lock_spec|done|done|done]|intros []].
  eapply hoare_bind with (R := fun r' _ => r' = r).
  { eapply hoare_conseq; [apply read_spec| | |done]; [done|].
    intros r' w' [Hr' _]. by rewrite Hr in Hr'; simplify_eq. }
  intros r' w' ->. unfold mbind, M_bind, lift.
  destruct (settle_abandoned p now r) as [r1|] eqn:Es; simpl; [|done].
  apply settle_abandoned_cooldown with (c := c) in Es; [|done].
  destruct (refresh_cooldown p now r1) as [r2|] eqn:Ef; simpl; [|done].
  rewrite (refresh_cooldown_limited p now r1 r2 c Ef Es Hin).
  case_bool_decide; [done|]. by destruct (commit r2 w') as [[]].
Qed.

(** Accounts are isolated: no operation on one account's retry state
    changes another account's record file, visible or durable. *)
Theorem accounts_isolated a b x w :
  a_uid a <> a_uid b -> account_typed b -> op_typed x ->
  w_vis (exec b x w) !! face_path a = w_vis w !! face_path a /\
  w_dur (exec b x w) !! face_path a = w_dur w !! face_path a.
Proof.
  intros Hne Hb Hx.
  by apply (exec_keeps b _ _ x w (tracks_other a b _ _ Hne Hb) Hb Hx
    (fun _ _ _ _ => I) (fun _ _ => I)).
Qed.

(** What is committed is what is read: a record the store accepts
    decodes, for its own account, to itself. *)
Theorem committed_record_reads_back a r b :
  owned a r -> validate a r = true -> record_to_vec r = Some b -> decode_record a b = Ok r.
Proof. apply decode_committed. Qed.
End Claims.

(** Strikes arm the cooldown exactly at the limit: from a clean record the
    first [p_limit - 1] charged refusals only count, and the next arms a
    cooldown of the configured length from its own time and clears the count. *)
Theorem strikes_arm_at_limit p ticks now r :
  cooldown r = None -> strikes r = 0 -> Z.of_nat (length ticks) + 1 = p_limit p ->
  p_limit p < 2 ^ 32 -> 0 <= t_nanos now -> t_nanos now + p_seconds p * NANOS < 2 ^ 64 ->
  strike_all p ticks r = Ok (set_strikes (Z.of_nat (length ticks)) r) /\
  strike_all p (ticks ++ [now]) r =
    Ok (set_strikes 0 (set_cooldown
      (Some (MkCooldown (t_boot now) (t_nanos now + p_seconds p * NANOS) (p_seconds p * NANOS))) r)).
Proof.
  intros Hc Hs Hl Hw Hn Hd. rewrite strike_all_app.
  rewrite strike_all_below by (done || lia). rewrite Hs, Z.add_0_l. split; [done|].
  unfold mbind, result_bind. simpl. rewrite strike_at; simpl; try done; lia.
Qed.

(** The configured policy is always within its bounds: whatever the two
    settings say, the limit is 1 to 5 and the cooldown 30 seconds to a day, so
    the cooldown never overflows a 64-bit nanosecond count. *)
Theorem policy_in_bounds limit seconds :
  let p := fst (policy_parse limit seconds) in
  1 <= p_limit p <= 5 /\ 30 <= p_seconds p <= 86400 /\
  policy_duration p = Ok (p_seconds p * NANOS).
Proof.
  unfold policy_parse. simpl.
  set (l := parse_uint 32 limit ≫= _). set (s := parse_uint 64 seconds ≫= _).
  assert (1 <= default 5 l <= 5) as Hl.
  { unfold l. destruct (parse_uint 32 limit) as [n|]; simpl; [case_bool_decide|]; simpl; lia. }
  assert (30 <= default 30 s <= 86400) as Hs.
  { unfold s. destruct (parse_uint 64 seconds) as [n|]; simpl; [case_bool_decide|]; simpl; lia. }
  split_and!; try lia. unfold policy_duration. simpl.
  assert (checked_mul 64 (default 30 s) NANOS = Some (default 30 s * NANOS)) as ->; [|done].
  apply checked_mul_Some. unfold NANOS. lia.
Qed.

(** ** Runs on a concrete directory *)

#[local] Instance root_host : Host := {| owner := 0; euid := 0; umask := 18 |}.

Definition alice : Account := MkAccount 1000 "alice".
Definition bob : Account := MkAccount 1001 "bob".
Definition a_boot : string := "0f8fad5b-d9cb-469f-a165-70867728950e".
Definition at_second (s : Z) : Tick := MkTick a_boot (s * NANOS).
Definition five_strikes : Policy := MkPolicy 5 30.

Definition fresh_world : world :=
  World (Some (Inode KDir 0 493 2 [])) None ∅ ∅ ∅ ∅ [].

Lemma at_second_typed s : 0 <= s < 2 ^ 30 -> clock_typed (Ok (at_second s)).
Proof. intros Hs now [= <-]. unfold u64, in_width. simpl. unfold NANOS. lia. Qed.

Lemma alice_typed : account_typed alice.
Proof. unfold account_typed, u32, in_width. simpl. lia. Qed.
Lemma bob_typed : account_typed bob.
Proof. unfold account_typed, u32, in_width. simpl. lia. Qed.

Definition begin_at (s : Z) : op := OpBegin five_strikes (Ok (at_second s)).
Definition miss_at (s : Z) : op := OpDenied five_strikes (MkOutcome false BelowThreshold) (Ok (at_second s)).

Lemma begin_at_typed s : 0 <= s < 2 ^ 30 -> op_typed (begin_at s).
Proof. intros Hs. split; [done|by apply at_second_typed]. Qed.
Lemma miss_at_typed s : 0 <= s < 2 ^ 30 -> op_typed (miss_at s).
Proof. intros Hs. split; [done|by apply at_second_typed]. Qed.

(** The admissions counted and the world reached by a sequence of operations. *)
Fixpoint play (a : Account) (xs : list op) (w : world) : Z * world :=
  match xs with
  | [] => (0, w)
  | x :: xs =>
      let '(n, w') := play a xs (exec a x w) in ((if admits a x w then 1 else 0) + n, w')
  end.

Lemma play_run a xs w :
  Forall (fun x => op_typed x /\ forall p, x <> OpDelivered p) xs ->
  run a w (fst (play a xs w)) (snd (play a xs w)).
Proof.
  intros Hxs. revert w. induction Hxs as [|x xs [Hx Hnd] _ IH]; intros w; simpl; [constructor|].
  specialize (IH (exec a x w)). destruct (play a xs (exec a x w)) as [n w']. simpl in *.
  eapply run_step; [by apply step_own|done].
Qed.

(** Two attempts of [alice], the first denied and the second left pending. *)
Definition two_attempts : list op := [begin_at 1; miss_at 2; begin_at 3].

Lemma two_attempts_typed :
  Forall (fun x => op_typed x /\ forall p, x <> OpDelivered p) two_attempts.
Proof.
  repeat (apply Forall_cons_2; [split; [first [apply begin_at_typed|apply miss_at_typed]; lia|done]|]).
  apply Forall_nil_2.
Qed.

Lemma face_budget_bounded_witness :
  fst (play alice two_attempts fresh_world) = 2 /\
  2 + Z.min (spent alice (w_vis fresh_world !! face_path alice))
            (spent alice (w_dur fresh_world !! face_path alice)) <= FACE_LIMIT.
Proof.
  assert (fst (play alice two_attempts fresh_world) = 2) as Hn by (vm_compute; reflexivity).
  split; [exact Hn|]. rewrite <- Hn.
  apply (face_budget_bounded alice _ _ (snd (play alice two_attempts fresh_world)) alice_typed).
  apply play_run, two_attempts_typed.
Defined.

Lemma begin_charges_durably_witness :
  exists w', begin alice five_strikes (Ok (at_second 1)) fresh_world
             = (Ok (Some (MkAttempt alice five_strikes)), w') /\
  reserved alice 1 {[1000]} w'.
Proof.
  destruct (begin alice five_strikes (Ok (at_second 1)) fresh_world) as [r w'] eqn:E.
  exists w'. assert (r = Ok (Some (MkAttempt alice five_strikes))) as ->.
  { apply (f_equal fst) in E. simpl in E. rewrite <- E. vm_compute. reflexivity. }
  split; [done|].
  destruct (begin_charges_durably alice five_strikes (Ok (at_second 1)) fresh_world _ w'
    alice_typed ltac:(done) (at_second_typed 1 ltac:(lia)) E) as (_ & _ & Hr).
  exact Hr.
Defined.

(** Five misses arm the cooldown; ten seconds later the next attempt is refused. *)
Definition five_misses : list op :=
  [begin_at 1; miss_at 1; begin_at 2; miss_at 2; begin_at 3; miss_at 3;
   begin_at 4; miss_at 4; begin_at 5; miss_at 5].

Definition cooling_world : world := snd (play alice five_misses fresh_world).

Lemma cooldown_refuses_witness :
  fst (play alice five_misses fresh_world) = 5 /\
  fst (begin alice five_strikes (Ok (at_second 15)) cooling_world)
    <> Ok (Some (MkAttempt alice five_strikes)).
Proof.
  split; [vm_compute; reflexivity|].
  eapply (cooldown_refuses alice five_strikes (at_second 15) cooling_world
    (MkRecord 2 1000 "alice" 0 (Some (MkCooldown a_boot (35 * NANOS) (30 * NANOS))) (Some (MkBudget 5 false)))).
  - vm_compute. reflexivity.
  - reflexivity.
  - left. split; [reflexivity|]. unfold at_second, NANOS. simpl. lia.
Defined.

Lemma accounts_isolated_witness :
  w_vis (exec bob (begin_at 9) cooling_world) !! face_path alice = w_vis cooling_world !! face_path alice
  /\ w_vis (exec bob (begin_at 9) cooling_world) !! face_path bob <> None.
Proof.
  split; [|vm_compute; discriminate].
  exact (proj1 (accounts_isolated alice bob (begin_at 9) cooling_world
    ltac:(discriminate) bob_typed (begin_at_typed 9 ltac:(lia)))).
Defined.

Definition struck : RetryRecord := MkRecord 2 1000 "alice" 3 None (Some (MkBudget 4 true)).

Lemma committed_record_reads_back_witness :
  decode_record alice (put_record struck) = Ok struck.
Proof.
  apply (committed_record_reads_back alice struck).
  - unfold owned, record_typed, u32, in_width; split_and!; try reflexivity; simpl; try lia; try discriminate.
    intros ? [= <-]; simpl; lia.
  - vm_compute; reflexivity.
  - reflexivity.
Defined.

Lemma strikes_arm_at_limit_witness :
  strike_all five_strikes ([at_second 1; at_second 2; at_second 3; at_second 4] ++ [at_second 5])
    (reset_record alice)
  = Ok (MkRecord 2 1000 "alice" 0 (Some (MkCooldown a_boot (35 * NANOS) (30 * NANOS)))
      (Some (MkBudget 0 false))).
Proof.
  destruct (strikes_arm_at_limit five_strikes [at_second 1; at_second 2; at_second 3; at_second 4]
    (at_second 5) (reset_record alice)) as [_ ->]; try reflexivity;
    unfold at_second, NANOS; simpl; lia.
Defined.
