(* ===== verification/RetryRecovery.v ===== *)
(** * Retry recovery

    [irlume-daemon/src/retry_throttle/recovery.rs]: an account owner who proves
    knowledge of the password, or an administrator, resets the face retry
    state.  Password guesses are accounted in a second durable record
    ([Attempts], [<uid>.reset.json]) that is charged before the verifier runs.

    A [Recovery] holds the account's operation lock, so between the critical
    sections of one [reset] no other operation touches the account's files. *)

From S2P Require Import Prelude RetryStore RetryThrottle RetryTheory.

Definition LIMIT : Z := 50.
Definition DELAY_AFTER : Z := 5.
Definition DELAY : Z := 30 * NANOS.

(** [struct Attempts]. *)
Record Attempts := MkAttempts {
  at_version : Z;
  at_uid : Z;
  at_account : string;
  failures : Z;
  at_pending : bool;
  at_cooldown : option Cooldown;
}.

#[export] Instance Attempts_eq_dec : EqDecision Attempts.
Proof. solve_decision. Defined.

(** [Attempts::empty]. *)
Definition empty_attempts (a : Account) : Attempts := MkAttempts 1 (a_uid a) (a_name a) 0 false None.

(** [Attempts::validate]. *)
Definition attempts_valid (a : Account) (g : Attempts) : bool :=
  negb (negb (bool_decide (at_version g = 1))
        || negb (bool_decide (at_uid g = a_uid a))
        || negb (bool_decide (at_account g = a_name a))
        || bool_decide (LIMIT < failures g)
        || (at_pending g && bool_decide (failures g = 0))
        || match at_cooldown g with
           | Some c => negb (valid_boot (boot_id c))
                       || negb (bool_decide (duration_nanos c = DELAY))
                       || bool_decide (deadline_nanos c < DELAY)
                       || bool_decide (failures g < DELAY_AFTER)
           | None => false
           end).

(** [Attempts::settle]: the settled record and whether it changed.  A guess
    left pending, or a cooldown of another boot, arms the delay afresh. *)
Definition settle (now : Tick) (g : Attempts) : io (Attempts * bool) :=
  let with_cooldown p c :=
    MkAttempts (at_version g) (at_uid g) (at_account g) (failures g) p c in
  if at_pending g
     || match at_cooldown g with
        | Some c => negb (bool_decide (boot_id c = t_boot now)) | None => false end
  then
    if bool_decide (DELAY_AFTER <= failures g) then
      deadline ← ok_or InvalidData (checked_add 64 (t_nanos now) DELAY);
      Ok (with_cooldown false (Some (MkCooldown (t_boot now) deadline DELAY)), true)
    else Ok (with_cooldown false (at_cooldown g), true)
  else
    match at_cooldown g with
    | Some c =>
        if bool_decide (DELAY < sat_sub (deadline_nanos c) (t_nanos now)) then Err InvalidData
        else if bool_decide (deadline_nanos c <= t_nanos now)
        then Ok (with_cooldown (at_pending g) None, true)
        else Ok (g, false)
    | None => Ok (g, false)
    end.

(** serde's functions for [Attempts], and what the code relies on. *)
Class AttemptsCodec := {
  attempts_from_slice : bytes -> option Attempts;
  attempts_to_vec : Attempts -> option bytes;
}.

Definition attempts_typed (g : Attempts) : Prop :=
  u32 (at_version g) /\ u32 (at_uid g) /\ u32 (failures g)
  /\ (forall c, at_cooldown g = Some c -> cooldown_typed c).

Class AttemptsCodecOk `{AttemptsCodec} : Prop := {
  attempts_roundtrip g b : attempts_typed g -> attempts_to_vec g = Some b -> attempts_from_slice b = Some g;
  attempts_decoded_typed b g : attempts_from_slice b = Some g -> attempts_typed g;
}.

(** The errors a [Recovery] reports. *)
Inductive recovery_error := REFUSED | UNCONFIRMED | BLOCKED | RUNAVAILABLE.

Definition R (A : Type) : Type := world -> result recovery_error A * world.

#[export] Instance R_ret : MRet R := fun A a w => (Ok a, w).
#[export] Instance R_bind : MBind R := fun A B f m w =>
  match m w with
  | (Ok a, w) => f a w
  | (Err e, w) => (Err e, w)
  end.

Definition refuse {A} (e : recovery_error) : R A := fun w => (Err e, w).

(** [Result::map_err(|_| e)]. *)
Definition map_err {A} (e : recovery_error) (m : M A) : R A := fun w =>
  match m w with (Ok a, w) => (Ok a, w) | (Err _, w) => (Err e, w) end.

(** The places where [reset] asks whether its connection and subject are still
    there. *)
Inductive site := AtStart | BeforeVerify | BeforeFace | AfterFace | AfterRecovery.

(** [FaceRetryBudget] and [Status]. *)
Record Status := MkStatus {
  st_spent : option Z;
  st_limit : Z;
  st_reset_required : bool;
  st_failures : Z;
  st_cooldown_seconds : Z;
  st_recovery_failures : Z;
  st_recovery_cooldown_seconds : Z;
  st_recovery_required : bool;
}.

(** The [remaining] closure of [status_inner]. *)
Definition remaining (now : Tick) (c : option Cooldown) : Z :=
  match c with
  | None => 0
  | Some c => div_ceil (if bool_decide (boot_id c = t_boot now)
                        then sat_sub (deadline_nanos c) (t_nanos now)
                        else duration_nanos c) NANOS
  end.

Section Recovery.
Context `{Host, RetryCodec, AttemptsCodec}.

(** [Recovery::now]. *)
Definition recovery_now (clock : io Tick) : M Tick :=
  t ← lift clock;
  ensure (valid_boot (t_boot t));;
  mret t.

(** [Recovery::read]. *)
Definition decode_attempts (a : Account) (b : bytes) : io Attempts :=
  g ← ok_or InvalidData (attempts_from_slice b);
  if attempts_valid a g then Ok g else Err InvalidData.

Definition attempts_read (a : Account) : M Attempts :=
  found ← read_bytes (ResetFile (a_uid a));
  lift (match found with
        | Some b => decode_attempts a b
        | None => if attempts_valid a (empty_attempts a) then Ok (empty_attempts a) else Err InvalidData
        end).

(** [Recovery::commit]. *)
Definition attempts_commit (a : Account) (g : Attempts) : M () :=
  ensure (attempts_valid a g);;
  b ← lift (ok_or InvalidData (attempts_to_vec g));
  ensure (bool_decide (Z.of_nat (length b) <= MAX_RECORD));;
  w ← write_atomic_reporting (ResetFile (a_uid a)) b o600;
  require_durable w.

(** [Recovery::status_inner]. *)
Definition status_inner (a : Account) (p : Policy) (clock : io Tick) : M Status :=
  lock;;
  face ← read a;
  recovery ← attempts_read a;
  now ← recovery_now clock;
  let before := face in
  face ← lift (settle_abandoned p now face);
  (if bool_decide (face = before) then mret () else commit face);;
  settled ← lift (settle now recovery);
  let '(recovery, changed) := settled : Attempts * bool in
  (if changed then attempts_commit a recovery else mret ());;
  mret (MkStatus
    (match budget face with Some b => Some (unsuccessful_requests b) | None => None end)
    FACE_LIMIT
    (match budget face with Some b => bool_decide (FACE_LIMIT <= unsuccessful_requests b) | None => false end)
    (strikes face)
    (remaining now (cooldown face))
    (failures recovery)
    (remaining now (at_cooldown recovery))
    (bool_decide (LIMIT <= failures recovery))).

Definition status (a : Account) (p : Policy) (clock : io Tick) : R Status :=
  map_err RUNAVAILABLE (status_inner a p clock).

(** The first critical section of [reset]: settle, refuse when blocked, and
    otherwise charge one guess, pending, before the verifier is asked. *)
Definition reset_admission (admin : bool) (a : Account) (clock : io Tick) : R () :=
  map_err RUNAVAILABLE lock;;
  map_err RUNAVAILABLE (read a);;
  g ← map_err RUNAVAILABLE (attempts_read a);
  if admin then mret () else
  now ← map_err RUNAVAILABLE (recovery_now clock);
  settled ← map_err RUNAVAILABLE (lift (settle now g));
  let '(g, changed) := settled : Attempts * bool in
  (if changed then map_err RUNAVAILABLE (attempts_commit a g) else mret ());;
  if bool_decide (LIMIT <= failures g) || bool_decide (is_Some (at_cooldown g)) then refuse BLOCKED else
  map_err RUNAVAILABLE (attempts_commit a
    (MkAttempts (at_version g) (at_uid g) (at_account g) (failures g + 1) true (at_cooldown g))).

(** The second critical section: the face record first, so that a torn
    two-file reset leaves a conservative recovery charge. *)
Definition reset_publish (active : site -> bool) (a : Account) : R () :=
  map_err RUNAVAILABLE lock;;
  map_err RUNAVAILABLE (read a);;
  map_err RUNAVAILABLE (attempts_read a);;
  if negb (active BeforeFace) then refuse REFUSED else
  map_err UNCONFIRMED (commit (reset_record a));;
  if negb (active AfterFace) then refuse UNCONFIRMED else
  map_err UNCONFIRMED (attempts_commit a (empty_attempts a));;
  if negb (active AfterRecovery) then refuse UNCONFIRMED else
  mret ().

(** [Recovery::reset].  [active] is what the connection check answers at each
    place, [verify] what the password verifier answers in the world it runs
    in, [clock] and [clock'] what the two clock reads return. *)
Definition reset (admin : bool) (active : site -> bool) (verify : world -> bool)
    (a : Account) (p : Policy) (clock clock' : io Tick) : R () :=
  if negb (active AtStart) then refuse REFUSED else
  reset_admission admin a clock;;
  proved ← (if admin then mret true
            else if active BeforeVerify then fun w => (Ok (verify w), w) else mret false);
  if negb proved then status a p clock';; refuse REFUSED else
  reset_publish active a.

(** [Recovery::begin]: the operation lock, held until the value is dropped. *)
Definition recovery_begin (a : Account) : M () := operation (a_uid a).

(** One recovery request: [begin], the body, the drop of the lock. *)
Definition with_recovery {A} (a : Account) (body : R A) : R A := fun w =>
  match map_err RUNAVAILABLE (recovery_begin a) w with
  | (Err e, w) => (Err e, w)
  | (Ok _, w) => let '(r, w) := body w in (r, release_operation (a_uid a) w)
  end.
End Recovery.
