(* ===== verification/RecoveryTheory.v ===== *)
(** * What retry recovery guarantees

    A password guess is charged durably before the verifier runs, at most
    [LIMIT] guesses are verified between resets, nothing is reset without a
    proof, and a reset that reports success is on disk. *)

From S2P Require Import Prelude RetryStore RetryThrottle RetryTheory RetryRecovery.

(** ** A program logic for [R] *)

Definition rhoare {A} (P : world -> Prop) (m : R A) (Q : A -> world -> Prop)
    (E : recovery_error -> world -> Prop) : Prop :=
  forall w, P w -> match m w with (Ok a, w') => Q a w' | (Err e, w') => E e w' end.

Section Logic.
Context {A B : Type}.
Implicit Types (P : world -> Prop) (E : recovery_error -> world -> Prop).

Lemma rhoare_ret P E (a : A) (Q : A -> world -> Prop) :
  (forall w, P w -> Q a w) -> rhoare P (mret a) Q E.
Proof. intros HQ w Hw. by apply HQ. Qed.

Lemma rhoare_refuse P E e (Q : A -> world -> Prop) :
  (forall w, P w -> E e w) -> rhoare P (refuse e) Q E.
Proof. intros HE w Hw. by apply HE. Qed.

Lemma rhoare_bind P E (S : A -> world -> Prop) (Q : B -> world -> Prop) (m : R A) f :
  rhoare P m S E -> (forall a, rhoare (S a) (f a) Q E) -> rhoare P (mbind f m) Q E.
Proof.
  intros Hm Hf w Hw. specialize (Hm w Hw). unfold mbind, R_bind.
  destruct (m w) as [[a|e] w']; [by apply Hf|done].
Qed.

Lemma rhoare_map_err P E e (m : M A) (Q : A -> world -> Prop) :
  hoare P m Q (E e) -> rhoare P (map_err e m) Q E.
Proof.
  intros Hm w Hw. specialize (Hm w Hw). unfold map_err.
  by destruct (m w) as [[a|e'] w'].
Qed.

Lemma rhoare_pure P E (Q : A -> world -> Prop) (m : R A) (X : Prop) :
  (X -> rhoare P m Q E) -> rhoare (fun w => X /\ P w) m Q E.
Proof. intros H w [HX Hw]. by apply H. Qed.

Lemma rhoare_conseq P P' E E' (Q Q' : A -> world -> Prop) (m : R A) :
  rhoare P' m Q' E' -> (forall w, P w -> P' w) ->
  (forall a w, Q' a w -> Q a w) -> (forall e w, E' e w -> E e w) -> rhoare P m Q E.
Proof.
  intros Hm HP HQ HE w Hw. specialize (Hm w (HP w Hw)).
  destruct (m w) as [[a|e] w']; auto.
Qed.

Lemma rhoare_snd (I : world -> Prop) (m : R A) w :
  rhoare I m (fun _ => I) (fun _ => I) -> I w -> I (snd (m w)).
Proof. intros Hm Hw. specialize (Hm w Hw). by destruct (m w) as [[]]. Qed.
End Logic.

(** ** Transitions of the guess record *)

Definition gowned (a : Account) (g : Attempts) : Prop :=
  at_uid g = a_uid a /\ at_account g = a_name a /\ attempts_typed g.

Lemma settle_owned a now g g' c :
  u64 (t_nanos now) -> gowned a g -> settle now g = Ok (g', c) ->
  gowned a g' /\ failures g' = failures g.
Proof.
  intros Hn (Hu & Ha & Hv & Hi & Hf & Hc) Hs. unfold settle in Hs. unfold gowned, attempts_typed.
  destruct (at_pending g || _) eqn:Ep.
  - case_bool_decide; simplify_eq/=; [|split_and!; done].
    run_in Hs. simplify_eq/=. apply checked_add_Some in E as [-> ?].
    split_and!; try done. intros c0 [= <-]. unfold cooldown_typed, u64, in_width, DELAY, NANOS in *. simpl. lia.
  - destruct (at_cooldown g) as [c0|] eqn:Ec; [|by simplify_eq; rewrite Ec].
    run_in Hs; simplify_eq/=; split_and!; try done. by rewrite Ec.
Qed.

(** A settled record is blocked or has no pending guess. *)
Lemma settle_clean now g g' c : settle now g = Ok (g', c) -> at_pending g' = false.
Proof.
  unfold settle. intros Hs. destruct (at_pending g) eqn:Ep; simpl in Hs.
  - case_bool_decide; run_in Hs; by simplify_eq/=.
  - destruct (at_cooldown g); [|by simplify_eq]. run_in Hs; by simplify_eq/=.
Qed.

Section Theory.
Context `{Host, RetryCodec, !RetryCodecOk, AttemptsCodec, !AttemptsCodecOk}.
Implicit Types (V D : gmap rpath inode) (L : gset Z) (w : world).

Definition reset_path (a : Account) : rpath := ResetFile (a_uid a).

Definition guess_record (a : Account) (o : option inode) : io Attempts :=
  match o with
  | None => Ok (empty_attempts a)
  | Some i => decode_attempts a (i_data i)
  end.

(** The guesses a recovery file shows as used.  An unreadable record lets no
    guess through, so it counts as exhausted. *)
Definition guessed (a : Account) (o : option inode) : Z :=
  match guess_record a o with Ok g => failures g | Err _ => LIMIT end.

Definition guess_charged (a : Account) (n : Z) (w : world) : Prop :=
  n <= guessed a (w_vis w !! reset_path a) /\ n <= guessed a (w_dur w !! reset_path a).

Lemma decode_attempts_inv a b g :
  decode_attempts a b = Ok g -> attempts_valid a g = true /\ gowned a g.
Proof.
  intros Hd. unfold decode_attempts in Hd. run_in Hd; simplify_eq.
  match goal with Hv : attempts_valid a g = true |- _ => pose proof Hv as Hv' end.
  unfold attempts_valid in Hv'. split; [done|].
  apply negb_true_iff in Hv'. repeat (apply orb_false_iff in Hv' as [Hv' ?]).
  reflect_bools. unfold gowned. eauto using attempts_decoded_typed.
Qed.

Lemma attempts_valid_le a g : attempts_valid a g = true -> failures g <= LIMIT.
Proof.
  unfold attempts_valid. intros Hv. apply negb_true_iff in Hv.
  repeat (apply orb_false_iff in Hv as [Hv ?]). reflect_bools. lia.
Qed.

Lemma guess_record_owned a o g : account_typed a -> guess_record a o = Ok g -> gowned a g.
Proof.
  intros Ha. destruct o as [i|]; simpl; [by intros [_ ?]%decode_attempts_inv|].
  intros [= <-]. unfold account_typed, gowned, attempts_typed, u32, in_width in *. simpl.
  split_and!; done || lia.
Qed.

Lemma guessed_le a o : guessed a o <= LIMIT.
Proof.
  unfold guessed. destruct (guess_record a o) as [g|] eqn:Eg; [|done].
  destruct o as [i|]; simpl in Eg.
  - apply decode_attempts_inv in Eg as [? _]. by eapply attempts_valid_le.
  - injection Eg as <-. unfold LIMIT. simpl. lia.
Qed.

Lemma attempts_read_spec a V D L :
  hoare (files V D L) (attempts_read a)
    (fun g w => guess_record a (V !! reset_path a) = Ok g /\
       exists D', D' = match V !! reset_path a with
                       | Some i => <[reset_path a := i]> D | None => D end /\ files V D' L w)
    (fun w => exists D', (D' = D \/ D' = match V !! reset_path a with
                       | Some i => <[reset_path a := i]> D | None => D end) /\ files V D' L w).
Proof.
  unfold attempts_read. eapply hoare_bind with (R := read_post (reset_path a) V D L).
  { eapply hoare_conseq; [apply read_bytes_spec| | |]; eauto. }
  unfold read_post. intros o w Hw. destruct (V !! reset_path a) as [i|]; simpl in *.
  - destruct Hw as (_ & -> & Hw). unfold lift. destruct (decode_attempts a (i_data i)); eauto.
  - destruct Hw as (-> & Hw). unfold lift. destruct (attempts_valid a _); eauto.
Qed.

Lemma attempts_commit_spec a g V D L :
  gowned a g ->
  hoare (files V D L) (attempts_commit a g)
    (fun _ w => exists i, guess_record a (Some i) = Ok g /\
       files (<[reset_path a := i]> V) (<[reset_path a := i]> D) L w)
    (fun w => files V D L w \/
       exists i, guess_record a (Some i) = Ok g /\ files (<[reset_path a := i]> V) D L w).
Proof.
  intros (Hu & Ha & Ht). unfold attempts_commit.
  eapply hoare_bind with (R := fun _ w => attempts_valid a g = true /\ files V D L w);
    [apply hoare_ensure; auto|intros []]. apply hoare_pure; intros Hv.
  eapply hoare_bind with (R := fun b w => attempts_to_vec g = Some b /\ files V D L w).
  { apply hoare_lift; [auto|]. intros b w Hb ?. by destruct (attempts_to_vec g); simplify_eq/=. }
  intros b. apply hoare_pure; intros Hb.
  assert (decode_attempts a b = Ok g) as Hdec.
  { unfold decode_attempts. rewrite (attempts_roundtrip g b Ht Hb). simpl. by rewrite Hv. }
  eapply hoare_bind with (R := fun _ => files V D L); [apply hoare_ensure; auto|intros []].
  eapply hoare_conseq; [apply (write_durable_spec (reset_path a) b o600 V D L)|done| |]; cbv beta.
  - intros _ w ?. by exists (new_inode b o600).
  - intros w [?|?]; [by left|right]. by exists (new_inode b o600).
Qed.

(** ** Invariants of the recovery operations

    [G] and [K] are what face and guess records of [b] satisfy under [I]. *)
Record rtracks (b : Account) (I : world -> Prop) (G : RetryRecord -> Prop)
    (K : Attempts -> Prop) : Prop := {
  rt_face : tracks b I G;
  rt_read : hoare I (attempts_read b) (fun g w => (gowned b g /\ K g) /\ I w) I;
  rt_commit g : gowned b g -> K g -> hoare I (attempts_commit b g) (fun _ => I) I;
  rt_failures g g' : failures g' = failures g -> K g -> K g';
}.

(** Files the recovery of [b] does not own keep their contents. *)
Lemma rtracks_slot q b x y :
  q <> face_path b -> q <> reset_path b -> account_typed b ->
  rtracks b (slot q x y) (fun _ => True) (fun _ => True).
Proof.
  intros Hf Hr Hb. split; [by apply tracks_slot| | |done].
  - apply hoare_slot. intros V D L <- <-.
    assert (forall D', D' = match V !! reset_path b with
      | Some i => <[reset_path b := i]> D | None => D end -> D !! q = D' !! q) as Hs.
    { intros D' ->. destruct (V !! reset_path b); [by rewrite lookup_insert_ne|done]. }
    eapply hoare_conseq; [apply (attempts_read_spec b V D L)|done|..].
    + intros g w (Hg & D' & HD & Hw). split; [eauto using guess_record_owned|].
      rewrite (Hs D' HD). eauto using files_slot.
    + intros w (D' & [->|HD] & ?); [|rewrite (Hs D' HD)]; eauto using files_slot.
  - intros g Hg _. apply hoare_slot. intros V D L <- <-.
    eapply hoare_conseq; [by apply (attempts_commit_spec b g V D L)|done|..].
    + intros _ w (i & _ & Hw%(files_slot q)). by rewrite !lookup_insert_ne in Hw.
    + intros w [?|(i & _ & Hw%(files_slot q))]; [by eauto using files_slot|].
      by rewrite !lookup_insert_ne in Hw.
Qed.

(** From every content of one file to an invariant of that file. *)
Definition about (q : rpath) (I : world -> Prop) : Prop := forall w w',
  w_vis w !! q = w_vis w' !! q -> w_dur w !! q = w_dur w' !! q -> I w -> I w'.

Lemma about_keeps {A} q (I : world -> Prop) (m : M A) :
  about q I -> (forall x y, hoare (slot q x y) m (fun _ => slot q x y) (slot q x y)) ->
  hoare I m (fun _ => I) I.
Proof.
  intros HI Hm w Hw. specialize (Hm _ _ w (conj eq_refl eq_refl)).
  destruct (m w) as [[a|e] w']; destruct Hm; by eapply HI.
Qed.

Lemma about_returns {A} q (I : world -> Prop) (X : A -> Prop) (m : M A) :
  about q I -> (forall x y, hoare (slot q x y) m (fun r w => X r /\ slot q x y w) (slot q x y)) ->
  hoare I m (fun r w => X r /\ I w) I.
Proof.
  intros HI Hm w Hw. specialize (Hm _ _ w (conj eq_refl eq_refl)).
  destruct (m w) as [[a|e] w']; [destruct Hm as [? []]; split; [done|]|destruct Hm]; by eapply HI.
Qed.

Lemma rtracks_about q b I :
  q <> face_path b -> q <> reset_path b -> account_typed b -> about q I ->
  rtracks b I (fun _ => True) (fun _ => True).
Proof.
  intros Hf Hr Hb HI. pose proof (fun x y => rtracks_slot q b x y Hf Hr Hb) as T. split; [split|..]; try done.
  - eapply about_keeps; [done|]. intros x y. apply (rt_face _ _ _ _ (T x y)).
  - intros u. eapply about_keeps; [done|]. intros x y. apply (rt_face _ _ _ _ (T x y)).
  - intros u w. by apply HI.
  - eapply about_returns; [done|]. intros x y. apply (rt_face _ _ _ _ (T x y)).
  - intros r Hr' _. eapply about_keeps; [done|]. intros x y. by apply (rt_face _ _ _ _ (T x y)).
  - eapply about_returns; [done|]. intros x y. apply (rt_read _ _ _ _ (T x y)).
  - intros g Hg _. eapply about_keeps; [done|]. intros x y. by apply (rt_commit _ _ _ _ (T x y)).
Qed.

Lemma rtracks_face a n :
  account_typed a -> rtracks a (charged a n) (fun r => n <= count r) (fun _ => True).
Proof.
  intros Ha. assert (about (face_path a) (charged a n)) as HI.
  { unfold about, charged. by intros w w' -> ->. }
  split; [by apply tracks_self| | |done].
  - eapply about_returns; [done|]. intros x y. apply hoare_slot. intros V D L <- <-.
    eapply hoare_conseq; [apply (attempts_read_spec a V D L)|done|..].
    + intros g w (Hg & D' & -> & Hw%(files_slot (face_path a))). split; [eauto using guess_record_owned|].
      by destruct (V !! reset_path a); [rewrite lookup_insert_ne in Hw|].
    + intros w (D' & [->| ->] & Hw%(files_slot (face_path a))); [done|].
      by destruct (V !! reset_path a); [rewrite lookup_insert_ne in Hw|].
  - intros g Hg _. eapply about_keeps; [done|]. intros x y. apply hoare_slot. intros V D L <- <-.
    eapply hoare_conseq; [by apply (attempts_commit_spec a g V D L)|done|..]; cbv beta.
    + intros _ w (i & _ & Hw%(files_slot (face_path a))). by rewrite !lookup_insert_ne in Hw.
    + intros w [?|(i & _ & Hw%(files_slot (face_path a)))]; [by eauto using files_slot|].
      by rewrite !lookup_insert_ne in Hw.
Qed.

Lemma guess_charged_mono a m n w : m <= n -> guess_charged a n w -> guess_charged a m w.
Proof. unfold guess_charged. lia. Qed.

Lemma guessed_record a o g : guess_record a o = Ok g -> guessed a o = failures g.
Proof. unfold guessed. by intros ->. Qed.

Lemma hoare_guess_charged {A} a n (m : M A) Q E :
  (forall V D L, n <= guessed a (V !! reset_path a) -> n <= guessed a (D !! reset_path a) ->
     hoare (files V D L) m Q E) ->
  hoare (guess_charged a n) m Q E.
Proof. intros Hm w [Hv Hd]. apply (Hm _ _ (w_oplock w) Hv Hd w), files_self. Qed.

Lemma files_guess_charged a n V D L w :
  n <= guessed a (V !! reset_path a) -> n <= guessed a (D !! reset_path a) ->
  files V D L w -> guess_charged a n w.
Proof. intros ?? (Hv & Hd & _). unfold guess_charged. by rewrite Hv, Hd. Qed.

Lemma attempts_commit_charged a n g :
  gowned a g -> n <= failures g ->
  hoare (guess_charged a n) (attempts_commit a g) (fun _ => guess_charged a (failures g))
    (guess_charged a n).
Proof.
  intros Hg Hn. apply hoare_guess_charged. intros V D L Hv Hd.
  eapply hoare_conseq; [by apply (attempts_commit_spec a g V D L)|done|..]; cbv beta.
  - intros _ w (i & Hi & Hf).
    eapply files_guess_charged, Hf; rewrite lookup_insert_eq, (guessed_record a _ g Hi); lia.
  - intros w [Hf|(i & Hi & Hf)]; [by eapply files_guess_charged, Hf|].
    eapply files_guess_charged, Hf; [|done]. rewrite lookup_insert_eq, (guessed_record a _ g Hi). lia.
Qed.

Lemma rtracks_guess a n :
  account_typed a -> rtracks a (guess_charged a n) (fun _ => True) (fun g => n <= failures g).
Proof.
  intros Ha. assert (about (reset_path a) (guess_charged a n)) as HI.
  { unfold about, guess_charged. by intros w w' -> ->. }
  assert (reset_path a <> face_path a) as Hne by done.
  pose proof (fun x y => tracks_slot (reset_path a) a x y Hne Ha) as T.
  split; [split|..]; try done.
  - eapply about_keeps; [done|]. intros x y. apply (T x y).
  - intros u. eapply about_keeps; [done|]. intros x y. apply (T x y).
  - eapply about_returns; [done|]. intros x y. apply (T x y).
  - intros r Hr _. eapply about_keeps; [done|]. intros x y. by apply (T x y).
  - apply hoare_guess_charged. intros V D L Hv Hd.
    assert (forall D', D' = match V !! reset_path a with
      | Some i => <[reset_path a := i]> D | None => D end -> n <= guessed a (D' !! reset_path a)) as Hs.
    { intros D' ->. destruct (V !! reset_path a); [by rewrite lookup_insert_eq|done]. }
    eapply hoare_conseq; [apply (attempts_read_spec a V D L)|done|..].
    + intros g w (Hg & D' & HD & Hf). split_and!; [by eapply guess_record_owned| |].
      * by rewrite <- (guessed_record a _ g Hg).
      * eauto using files_guess_charged.
    + intros w (D' & [->|HD] & Hf); eauto using files_guess_charged.
  - intros g Hg Hn. eapply hoare_conseq; [by apply (attempts_commit_charged a n g)|..]; cbv beta;
      eauto using guess_charged_mono.
  - intros g g' ??. lia.
Qed.

Section Ops.
Context {b : Account} {I : world -> Prop} {G : RetryRecord -> Prop} {K : Attempts -> Prop}.
Context (T : rtracks b I G K).
Context (p : Policy) (clock : io Tick) (Hp : policy_typed p) (Hc : clock_typed clock).

Lemma recovery_now_keeps :
  hoare I (recovery_now clock) (fun t w => u64 (t_nanos t) /\ I w) I.
Proof.
  unfold recovery_now. eapply hoare_bind with (R := fun t w => clock = Ok t /\ I w);
    [by apply hoare_lift|intros t]. apply hoare_pure; intros Ht.
  eapply hoare_bind with (R := fun _ => I); [by apply hoare_ensure|intros []].
  apply hoare_ret. eauto.
Qed.

(** Settling reads and rewrites the record with its count unchanged. *)
Lemma settle_keeps g now :
  gowned b g -> K g -> u64 (t_nanos now) ->
  hoare I (lift (settle now g))
    (fun s w => (gowned b (fst s) /\ K (fst s) /\ failures (fst s) = failures g) /\ I w) I.
Proof.
  intros Hg HK Hn. apply hoare_lift; [done|]. intros [g' c] w Hs ?.
  apply (settle_owned b) in Hs as [? Hf]; try done. simpl. split_and!; try done.
  eapply (rt_failures _ _ _ _ T); [|done]. lia.
Qed.

Lemma status_inner_keeps : hoare I (status_inner b p clock) (fun _ => I) I.
Proof.
  unfold status_inner. pose proof (rt_face _ _ _ _ T) as F.
  eapply hoare_bind; [apply (tr_lock _ _ _ F)|intros []].
  eapply hoare_bind; [apply (tr_read _ _ _ F)|intros r]. apply hoare_pure; intros [Hr HG].
  eapply hoare_bind; [apply (rt_read _ _ _ _ T)|intros g]. apply hoare_pure; intros [Hg HK].
  eapply hoare_bind; [apply recovery_now_keeps|intros now]. apply hoare_pure; intros Hn.
  eapply hoare_bind with (R := fun r' w => (owned b r' /\ G r') /\ I w).
  { apply hoare_lift; [done|]. intros r' w Hs ?.
    apply (settle_abandoned_owned b p now) in Hs as [? Heq]; auto.
    split_and!; try done. by eapply (tr_count _ _ _ F). }
  intros r'. apply hoare_pure; intros [Hr' HG'].
  eapply hoare_bind with (R := fun _ => I).
  { case_bool_decide; [by apply hoare_ret|by apply (tr_commit _ _ _ F)]. }
  intros []. eapply hoare_bind; [by apply settle_keeps|].
  intros [g' c]. apply hoare_pure; intros (Hg' & HK' & _). simpl in *.
  eapply hoare_bind with (R := fun _ => I); [|intros []; by apply hoare_ret].
  destruct c; [by apply (rt_commit _ _ _ _ T)|by apply hoare_ret].
Qed.

(** The first critical section, with [J] what a charge of one establishes. *)
Lemma reset_admission_spec (J E : world -> Prop) :
  (forall w, I w -> E w) ->
  (forall g g', gowned b g -> K g -> gowned b g' -> failures g' = failures g + 1 ->
     at_pending g' = true -> hoare I (attempts_commit b g') (fun _ => J) E) ->
  rhoare I (reset_admission false b clock) (fun _ => J) (fun _ => E).
Proof.
  intros HE HJ. unfold reset_admission. pose proof (rt_face _ _ _ _ T) as F.
  assert (forall {A} e (m : M A) Q, hoare I m Q I -> rhoare I (map_err e m) Q (fun _ => E)) as Hm.
  { intros A e m Q Hm. apply rhoare_map_err. by eapply hoare_conseq. }
  eapply rhoare_bind; [apply Hm, (tr_lock _ _ _ F)|intros []].
  eapply rhoare_bind; [apply Hm, (tr_read _ _ _ F)|intros r]. apply rhoare_pure; intros _.
  eapply rhoare_bind; [apply Hm, (rt_read _ _ _ _ T)|intros g].
  apply rhoare_pure; intros [Hg HK].
  eapply rhoare_bind; [apply Hm, recovery_now_keeps|intros now].
  apply rhoare_pure; intros Hn.
  eapply rhoare_bind; [by apply Hm, settle_keeps|].
  intros [g' c]. apply rhoare_pure; intros (Hg' & HK' & _). simpl in *.
  eapply rhoare_bind with (S := fun _ => I).
  { destruct c; [by apply Hm, (rt_commit _ _ _ _ T)|by apply rhoare_ret]. }
  intros []. case_bool_decide as Hl; simpl; [by apply rhoare_refuse|].
  destruct (bool_decide (is_Some (at_cooldown g'))); [by apply rhoare_refuse|].
  apply rhoare_map_err, (HJ g'); try done.
  destruct Hg' as (? & ? & ? & ? & Hf & ?). unfold gowned, attempts_typed, u32, in_width, LIMIT in *.
  simpl. split_and!; done || lia.
Qed.

Context (Hup : forall g g', failures g' = failures g + 1 -> K g -> K g').

Lemma reset_admission_keeps admin :
  rhoare I (reset_admission admin b clock) (fun _ => I) (fun _ => I).
Proof.
  destruct admin.
  - unfold reset_admission. pose proof (rt_face _ _ _ _ T) as F.
    eapply rhoare_bind; [apply rhoare_map_err, (tr_lock _ _ _ F)|intros []].
    eapply rhoare_bind; [apply rhoare_map_err, (tr_read _ _ _ F)|intros r]. apply rhoare_pure; intros _.
    eapply rhoare_bind; [apply rhoare_map_err, (rt_read _ _ _ _ T)|intros g].
    apply rhoare_pure; intros _. by apply rhoare_ret.
  - apply (reset_admission_spec I I); [done|]. intros g g' Hg HK Hg' Hf _.
    apply (rt_commit _ _ _ _ T); eauto.
Qed.
End Ops.

Section Reset.
Context {b : Account} {I : world -> Prop} {G : RetryRecord -> Prop} {K : Attempts -> Prop}.
Context (T : rtracks b I G K) (Hup : forall g g', failures g' = failures g + 1 -> K g -> K g').
Context (p : Policy) (clock clock' : io Tick) (active : site -> bool) (verify : world -> bool).
Context (Hp : policy_typed p) (Hc : clock_typed clock) (Hc' : clock_typed clock').

Lemma status_keeps : rhoare I (status b p clock') (fun _ => I) (fun _ => I).
Proof. by apply rhoare_map_err, (status_inner_keeps T). Qed.

(** Without a proof nothing is reset. *)
Lemma reset_unproved :
  (forall w, verify w = false) ->
  rhoare I (reset false active verify b p clock clock') (fun _ _ => False) (fun _ => I).
Proof.
  intros Hv. unfold reset. destruct (active AtStart); simpl; [|by apply rhoare_refuse].
  eapply rhoare_bind; [by eapply (reset_admission_keeps T)|intros []].
  eapply rhoare_bind with (S := fun proved w => proved = false /\ I w).
  { destruct (active BeforeVerify); [by intros w Hw; rewrite Hv|by apply rhoare_ret]. }
  intros proved. apply rhoare_pure; intros ->. simpl.
  eapply rhoare_bind; [apply status_keeps|intros s]. by apply rhoare_refuse.
Qed.

Lemma reset_publish_keeps :
  account_typed b -> G (reset_record b) -> K (empty_attempts b) ->
  rhoare I (reset_publish active b) (fun _ => I) (fun _ => I).
Proof.
  intros Hb HG HK. unfold reset_publish. pose proof (rt_face _ _ _ _ T) as F.
  eapply rhoare_bind; [apply rhoare_map_err, (tr_lock _ _ _ F)|intros []].
  eapply rhoare_bind; [apply rhoare_map_err, (tr_read _ _ _ F)|intros r]. apply rhoare_pure; intros _.
  eapply rhoare_bind; [apply rhoare_map_err, (rt_read _ _ _ _ T)|intros g]. apply rhoare_pure; intros _.
  destruct (active BeforeFace); simpl; [|by apply rhoare_refuse].
  eapply rhoare_bind with (S := fun _ => I).
  { apply rhoare_map_err, (tr_commit _ _ _ F); [|done]. apply initialize_budget_owned, empty_record_owned, Hb. }
  intros []. destruct (active AfterFace); simpl; [|by apply rhoare_refuse].
  eapply rhoare_bind with (S := fun _ => I).
  { apply rhoare_map_err, (rt_commit _ _ _ _ T); [|done]. by apply (guess_record_owned b None). }
  intros []. destruct (active AfterRecovery); simpl; [by apply rhoare_ret|by apply rhoare_refuse].
Qed.

Lemma reset_keeps admin :
  account_typed b -> G (reset_record b) -> K (empty_attempts b) ->
  rhoare I (reset admin active verify b p clock clock') (fun _ => I) (fun _ => I).
Proof.
  intros Hb HG HK. unfold reset. destruct (active AtStart); simpl; [|by apply rhoare_refuse].
  eapply rhoare_bind; [by eapply (reset_admission_keeps T)|intros []].
  eapply rhoare_bind with (S := fun _ => I).
  { destruct admin, (active BeforeVerify); by intros w Hw. }
  intros []; simpl; [by apply reset_publish_keeps|].
  eapply rhoare_bind; [apply status_keeps|intros s]. by apply rhoare_refuse.
Qed.
End Reset.

(** ** The exact charge *)

(** The visible guess count, exactly. *)
Definition guess_showing (a : Account) (n : Z) (w : world) : Prop :=
  guessed a (w_vis w !! reset_path a) = n.

Lemma rtracks_showing a n :
  account_typed a -> rtracks a (guess_showing a n) (fun _ => True) (fun g => failures g = n).
Proof.
  intros Ha. assert (about (reset_path a) (guess_showing a n)) as HI.
  { unfold about, guess_showing. by intros w w' -> _. }
  assert (reset_path a <> face_path a) as Hne by done.
  pose proof (fun x y => tracks_slot (reset_path a) a x y Hne Ha) as T.
  assert (forall V D L w, files V D L w -> guessed a (V !! reset_path a) = n -> guess_showing a n w) as Hto.
  { intros V D L w (Hv & _). unfold guess_showing. by rewrite Hv. }
  split; [split|..]; try done.
  - eapply about_keeps; [done|]. intros x y. apply (T x y).
  - intros u. eapply about_keeps; [done|]. intros x y. apply (T x y).
  - eapply about_returns; [done|]. intros x y. apply (T x y).
  - intros r Hr _. eapply about_keeps; [done|]. intros x y. by apply (T x y).
  - intros w Hw. pose proof (attempts_read_spec a _ _ _ w (files_self w)) as Hs.
    destruct (attempts_read a w) as [[g|e] w'].
    + destruct Hs as (Hg & D' & _ & Hf). split_and!; [by eapply guess_record_owned| |by eapply Hto].
      by rewrite <- (guessed_record a _ g Hg).
    + destruct Hs as (D' & _ & Hf). by eapply Hto.
  - intros g Hg Hn w Hw. pose proof (attempts_commit_spec a g _ _ _ Hg w (files_self w)) as Hs.
    assert (forall i D L w', guess_record a (Some i) = Ok g ->
      files (<[reset_path a := i]> (w_vis w)) D L w' -> guess_showing a n w') as Hnew.
    { intros i D L w' Hi Hf. eapply Hto; [exact Hf|]. by rewrite lookup_insert_eq, (guessed_record a _ g Hi). }
    destruct (attempts_commit a g w) as [[[]|e] w'].
    + destruct Hs as (i & Hi & Hf). eauto.
    + destruct Hs as [Hf|(i & Hi & Hf)]; [by eapply Hto|eauto].
  - intros g g' ->. done.
Qed.

(** A charged guess: both copies hold the same record, [n] used, pending. *)
Definition guess_pending (a : Account) (n : Z) (w : world) : Prop :=
  exists i g, w_vis w !! reset_path a = Some i /\ w_dur w !! reset_path a = Some i
    /\ decode_attempts a (i_data i) = Ok g /\ failures g = n /\ at_pending g = true.

Lemma reset_admission_pending a n clock :
  account_typed a -> clock_typed clock ->
  rhoare (guess_showing a n) (reset_admission false a clock)
    (fun _ => guess_pending a (n + 1)) (fun _ _ => True).
Proof.
  intros Ha Hc.
  apply (reset_admission_spec (rtracks_showing a n Ha) clock Hc (guess_pending a (n + 1)) (fun _ => True)); [done|].
  intros g g' Hg Hn Hg' Hf Hpend w Hw.
  pose proof (attempts_commit_spec a g' _ _ _ Hg' w (files_self w)) as Hs.
  destruct (attempts_commit a g' w) as [[[]|e] w']; [|done].
  destruct Hs as (i & Hi & Hv & Hd & _). exists i, g'. rewrite Hv, Hd, !lookup_insert_eq.
  split_and!; try done. lia.
Qed.

(** A charged admission, for the durable floor [n]. *)
Lemma reset_admission_charged a n clock :
  account_typed a -> clock_typed clock ->
  rhoare (guess_charged a n) (reset_admission false a clock)
    (fun _ => guess_charged a (n + 1)) (fun _ => guess_charged a n).
Proof.
  intros Ha Hc.
  apply (reset_admission_spec (rtracks_guess a n Ha) clock Hc (guess_charged a (n + 1)) (guess_charged a n)); [done|].
  intros g g' Hg Hn Hg' Hf _. eapply hoare_conseq; [apply (attempts_commit_charged a n g'); [done|lia]|done| |done].
  intros [] w. apply guess_charged_mono. lia.
Qed.

(** ** Publishing a reset *)

(** Both records of [a], visible and durable, as a reset leaves them. *)
Definition all_reset (a : Account) (w : world) : Prop :=
  exists i j, w_vis w !! face_path a = Some i /\ w_dur w !! face_path a = Some i
    /\ face_record a (Some i) = Ok (reset_record a)
    /\ w_vis w !! reset_path a = Some j /\ w_dur w !! reset_path a = Some j
    /\ guess_record a (Some j) = Ok (empty_attempts a).

Lemma reset_publish_spec active a :
  account_typed a ->
  rhoare (fun _ => True) (reset_publish active a)
    (fun _ w => (active BeforeFace = true /\ active AfterFace = true /\ active AfterRecovery = true)
                /\ all_reset a w) (fun _ _ => True).
Proof.
  intros Ha. unfold reset_publish.
  assert (forall {A} e (m : M A), rhoare (fun _ => True) (map_err e m) (fun _ _ => True) (fun _ _ => True)) as Hany.
  { intros A e m w _. by destruct (map_err e m w) as [[]]. }
  do 3 (eapply rhoare_bind; [apply Hany|intros ?]).
  destruct (active BeforeFace); simpl; [|by apply rhoare_refuse].
  eapply rhoare_bind with (S := fun _ w => exists i, face_record a (Some i) = Ok (reset_record a)
    /\ slot (face_path a) (Some i) (Some i) w).
  { apply rhoare_map_err. intros w _.
    assert (owned a (reset_record a)) as Hr by (apply initialize_budget_owned, empty_record_owned, Ha).
    pose proof (commit_spec a _ _ _ _ Hr w (files_self w)) as Hs.
    destruct (commit _ w) as [[[]|e] w']; [|done]. destruct Hs as (i & Hi & Hf%(files_slot (face_path a))).
    rewrite !lookup_insert_eq in Hf. eauto. }
  intros []. destruct (active AfterFace); simpl; [|by apply rhoare_refuse].
  eapply rhoare_bind with (S := fun _ => all_reset a).
  { apply rhoare_map_err. intros w (i & Hi & Hv & Hd).
    pose proof (attempts_commit_spec a (empty_attempts a) _ _ _
      (guess_record_owned a None _ Ha eq_refl) w (files_self w)) as Hs.
    destruct (attempts_commit a _ w) as [[[]|e] w']; [|done]. destruct Hs as (j & Hj & Hv' & Hd' & _).
    exists i, j. rewrite Hv', Hd', !lookup_insert_eq, !lookup_insert_ne by done. done. }
  intros []. destruct (active AfterRecovery); simpl; [|by apply rhoare_refuse].
  by apply rhoare_ret.
Qed.
End Theory.
