(* ===== verification/RecoveryClaims.v ===== *)
(** * The guarantees of retry recovery

    Theorems about [RetryRecovery.reset], each run on a concrete directory. *)

From S2P Require Import Prelude RetryStore RetryThrottle RetryCodecModel.
From S2P Require Import RetryTheory RetryBudget RetryRecovery RecoveryTheory.

Section Claims.
Context `{Host, RetryCodec, !RetryCodecOk, AttemptsCodec, !AttemptsCodecOk}.
Implicit Types (w : world).

(** What can happen to the directory while no guess of [a] is proved: its own
    resets with a verifier that refuses, its status queries and every face
    operation on it; anything on other accounts, administrator resets of
    them included; any choice of failing calls; power loss.  The label
    counts the times the verifier is consulted for [a]. *)
Definition consults (active : site -> bool) (a : Account) (clock : io Tick) (w : world) : bool :=
  active AtStart && active BeforeVerify
  && match reset_admission false a clock w with (Ok _, _) => true | (Err _, _) => false end.

Inductive gstep (a : Account) : world -> Z -> world -> Prop :=
| gstep_reset active verify p clock clock' w :
    policy_typed p -> clock_typed clock -> clock_typed clock' -> (forall w, verify w = false) ->
    gstep a w (if consults active a clock w then 1 else 0)
      (snd (reset false active verify a p clock clock' w))
| gstep_status p clock w :
    policy_typed p -> clock_typed clock -> gstep a w 0 (snd (status a p clock w))
| gstep_face b x w : account_typed b -> op_typed x -> gstep a w 0 (exec b x w)
| gstep_other b admin active verify p clock clock' w :
    a_uid a <> a_uid b -> account_typed b ->
    policy_typed p -> clock_typed clock -> clock_typed clock' ->
    gstep a w 0 (snd (reset admin active verify b p clock clock' w))
| gstep_environment fs w : gstep a w 0 (with_faults fs w)
| gstep_power_loss w w' :
    (forall q, w_vis w' !! q = w_vis w !! q \/ w_vis w' !! q = w_dur w !! q) ->
    w_dur w' = w_vis w' -> w_oplock w' = ∅ -> gstep a w 0 w'.

Inductive grun (a : Account) : world -> Z -> world -> Prop :=
| grun_done w : grun a w 0 w
| grun_step w n w' m w'' : gstep a w n w' -> grun a w' m w'' -> grun a w (n + m) w''.

Lemma guess_charged_about a n : about (reset_path a) (guess_charged a n).
Proof. unfold about, guess_charged. by intros w w' -> ->. Qed.

Lemma reset_consulted a n active verify p clock clock' w :
  account_typed a -> policy_typed p -> clock_typed clock -> clock_typed clock' ->
  (forall w, verify w = false) -> consults active a clock w = true -> guess_charged a n w ->
  guess_charged a (n + 1) (snd (reset false active verify a p clock clock' w)).
Proof.
  intros Ha Hp Hc Hc' Hv Hcons Hw. unfold consults in Hcons. reflect_bools. unfold reset.
  pose proof (reset_admission_charged a n clock Ha Hc w Hw) as Hadm.
  destruct (active AtStart), (active BeforeVerify); try done. simpl. unfold mbind at 1, R_bind.
  destruct (reset_admission false a clock w) as [[[]|] w1]; [|done].
  simpl. unfold mbind at 1, R_bind. rewrite Hv. simpl.
  apply (rhoare_snd (guess_charged a (n + 1))); [|done].
  eapply rhoare_bind; [apply (status_keeps (rtracks_guess a (n + 1) Ha) p clock' Hp Hc')|intros s].
  by apply rhoare_refuse.
Qed.

Lemma gstep_charged a n k w w' :
  account_typed a -> gstep a w k w' -> guess_charged a n w -> guess_charged a (n + k) w'.
Proof.
  intros Ha Hstep Hw. pose proof (rtracks_guess a n Ha) as T.
  destruct Hstep as [active verify p clock clock' w Hp Hc Hc' Hv|p clock w Hp Hc|b x w Hb Hx
    |b admin active verify p clock clock' w Hne Hb Hp Hc Hc'|fs w|w w' Hq Hd _].
  - destruct (consults active a clock w) eqn:E; [by apply reset_consulted|].
    rewrite Z.add_0_r. pose proof (reset_unproved T ltac:(cbv beta; lia) p clock clock' active verify Hp Hc Hc' Hv w Hw) as Hr.
    by destruct (reset _ _ _ _ _ _ _ w) as [[]].
  - rewrite Z.add_0_r. apply rhoare_snd; [|done]. by apply (status_keeps T).
  - rewrite Z.add_0_r. assert (reset_path a <> face_path b) as Hne by done.
    pose proof (exec_keeps b _ _ x w (tracks_slot (reset_path a) b _ _ Hne Hb) Hb Hx
      (fun _ _ _ _ => I) (fun _ _ => I) (conj eq_refl eq_refl)) as [Hvis Hdur].
    by eapply guess_charged_about.
  - rewrite Z.add_0_r. apply rhoare_snd; [|done].
    apply (reset_keeps (rtracks_about (reset_path a) b _ ltac:(done)
      ltac:(unfold reset_path; congruence) Hb (guess_charged_about a n))); done.
  - by rewrite Z.add_0_r.
  - rewrite Z.add_0_r. destruct Hw as [Hvis Hdur]. unfold guess_charged. rewrite Hd.
    destruct (Hq (reset_path a)) as [-> | ->]; done.
Qed.

Lemma grun_charged a n k w w' :
  account_typed a -> grun a w k w' -> guess_charged a n w -> guess_charged a (n + k) w'.
Proof.
  intros Ha Hr. revert n. induction Hr as [w|w m w' k w'' Hs _ IH]; intros n Hw.
  - by rewrite Z.add_0_r.
  - rewrite Z.add_assoc. eauto using gstep_charged.
Qed.

(** C10. At most 50 wrong passwords are verified between resets: over any run
    in which the verifier accepts no password for the account and no
    administrator resets the account (both empty its guesses), with any resets
    of other accounts, any calls failing and any number of power losses, the
    consultations of the verifier for the account plus the guesses already on
    record never exceed [LIMIT]. *)
Theorem password_guesses_bounded a w n w' :
  account_typed a -> grun a w n w' ->
  n + Z.min (guessed a (w_vis w !! reset_path a)) (guessed a (w_dur w !! reset_path a)) <= LIMIT.
Proof.
  intros Ha Hr. set (k := Z.min _ _).
  assert (guess_charged a k w) as Hk by (unfold guess_charged, k; lia).
  pose proof (grun_charged a k n w w' Ha Hr Hk) as [Hv _].
  pose proof (guessed_le a (w_vis w' !! reset_path a)). lia.
Qed.

(** The verifier is consulted only behind a durable charge: two verifiers
    that agree on every directory holding the new guess, pending and on
    disk, make [reset] behave identically, so it never asks them anywhere
    else. *)
Theorem verifier_runs_charged a active v1 v2 p clock clock' w :
  account_typed a -> clock_typed clock ->
  (forall w1, guess_pending a (guessed a (w_vis w !! reset_path a) + 1) w1 -> v1 w1 = v2 w1) ->
  reset false active v1 a p clock clock' w = reset false active v2 a p clock clock' w.
Proof.
  intros Ha Hc Hv. unfold reset. destruct (active AtStart); simpl; [|done].
  unfold mbind, R_bind.
  pose proof (reset_admission_pending a _ clock Ha Hc w eq_refl) as Hadm.
  destruct (reset_admission false a clock w) as [[[]|] w1]; [|done].
  destruct (active BeforeVerify); [|done]. by rewrite (Hv w1 Hadm).
Qed.

(** C11. A reset that reports success was authorized and is on disk: the
    caller was an administrator or the verifier accepted behind a durable
    charge, the connection was live at every check, and both records of the
    account, visible and durable, are the reset ones. *)
Theorem reset_success_authorized admin active verify a p clock clock' w w' :
  account_typed a -> clock_typed clock ->
  reset admin active verify a p clock clock' w = (Ok (), w') ->
  (admin = true \/ active BeforeVerify = true /\ exists w1, verify w1 = true /\
     guess_pending a (guessed a (w_vis w !! reset_path a) + 1) w1)
  /\ (active AtStart = true /\ active BeforeFace = true /\ active AfterFace = true
      /\ active AfterRecovery = true)
  /\ all_reset a w'.
Proof.
  intros Ha Hc Hr. unfold reset in Hr. destruct (active AtStart); simpl in Hr; [|done].
  unfold mbind at 1, R_bind in Hr.
  pose proof (reset_admission_pending a _ clock Ha Hc w eq_refl) as Hadm.
  assert (forall w1, reset_publish active a w1 = (Ok (), w') ->
    (active BeforeFace = true /\ active AfterFace = true /\ active AfterRecovery = true) /\ all_reset a w') as Hpub.
  { intros w1 Hw1. pose proof (reset_publish_spec active a Ha w1 I) as Hs. by rewrite Hw1 in Hs. }
  destruct admin.
  - destruct (reset_admission true a clock w) as [[[]|] w1]; [|done].
    unfold mbind, R_bind in Hr. apply Hpub in Hr. naive_solver.
  - destruct (reset_admission false a clock w) as [[[]|] w1]; [|done]. unfold mbind at 1, R_bind in Hr.
    assert (forall w2, (status a p clock';; refuse (A := ()) REFUSED) w2 <> (Ok (), w')) as Hno.
    { intros w2. unfold mbind, R_bind. by destruct (status a p clock' w2) as [[]]. }
    destruct (active BeforeVerify); [|by apply Hno in Hr].
    destruct (verify w1) eqn:Ev; [|by apply Hno in Hr]. apply Hpub in Hr. naive_solver.
Qed.

(** Without a proof nothing is forgiven: a self-service reset whose
    verifier refuses never succeeds, and neither the face budget nor the
    guess count of the account, visible or durable, goes down. *)
Theorem unproved_reset_forgives_nothing active verify a p clock clock' w :
  account_typed a -> policy_typed p -> clock_typed clock -> clock_typed clock' ->
  (forall w, verify w = false) ->
  let '(r, w') := reset false active verify a p clock clock' w in
  (exists e, r = Err e)
  /\ (forall n, charged a n w -> charged a n w')
  /\ (forall n, guess_charged a n w -> guess_charged a n w').
Proof.
  intros Ha Hp Hc Hc' Hv. destruct (reset _ _ _ _ _ _ _ w) as [r w'] eqn:E.
  pose proof (fun n => reset_unproved (rtracks_face a n Ha) ltac:(done) p clock clock' active verify Hp Hc Hc' Hv w) as Hf.
  pose proof (fun n => reset_unproved (rtracks_guess a n Ha) ltac:(cbv beta; lia) p clock clock' active verify Hp Hc Hc' Hv w) as Hg.
  rewrite E in Hf, Hg. split_and!; try by (destruct r; [intros n Hn; by destruct (Hf n Hn)|eauto]).
  - destruct r; [|eauto]. destruct (Hg (Z.min (guessed a (w_vis w !! reset_path a))
      (guessed a (w_dur w !! reset_path a)))). unfold guess_charged. lia.
  - destruct r; [intros n Hn; by destruct (Hg n Hn)|eauto].
Qed.
End Claims.

(** ** A concrete codec for [Attempts] *)

Definition put_attempts (g : Attempts) : bytes :=
  to_le 4 (at_version g) ++ to_le 4 (at_uid g) ++ put_str (at_account g) ++ to_le 4 (failures g)
  ++ put_bool (at_pending g) ++ put_opt put_cooldown (at_cooldown g).
Definition get_attempts : dec Attempts :=
  v ← get_u 4; u ← get_u 4; s ← get_str; n ← get_u 4; q ← get_bool;
  c ← get_opt get_cooldown; mret (MkAttempts v u s n q c).
Definition attempts_short (g : Attempts) : bool :=
  short (at_account g) && match at_cooldown g with Some c => short (boot_id c) | None => true end.

#[export] Instance model_attempts_codec : AttemptsCodec := {
  attempts_to_vec g := if attempts_short g then Some (put_attempts g) else None;
  attempts_from_slice := whole get_attempts;
}.

Lemma reads_attempts g :
  attempts_typed g -> attempts_short g = true -> reads get_attempts (put_attempts g) g.
Proof.
  destruct g as [v u a n q c]. intros (Hv & Hu & Hn & Hc) Hs. unfold attempts_short in Hs.
  cbn [at_version at_uid at_account failures at_pending at_cooldown] in *. reflect_bools.
  unfold get_attempts, put_attempts. cbn [at_version at_uid at_account failures at_pending at_cooldown].
  do 2 (eapply reads_bind; [by apply reads_u|]). eapply reads_bind; [by apply reads_str|].
  eapply reads_bind; [by apply reads_u|]. eapply reads_bind; [by apply reads_bool|].
  apply (reads_map _ (MkAttempts v u a n q)), reads_opt. intros c' ->.
  apply reads_cooldown; [by apply Hc|done].
Qed.

Lemma yields_attempts : yields get_attempts attempts_typed.
Proof.
  assert (yields get_cooldown cooldown_typed) as Hc.
  { eapply yields_bind; [apply yields_any|intros s _]. do 2 (eapply yields_bind; [apply yields_u|intros ??]).
    by apply yields_ret. }
  do 2 (eapply yields_bind; [apply yields_u|intros ??]).
  eapply yields_bind; [apply yields_any|intros ??].
  eapply yields_bind; [apply yields_u|intros ??].
  eapply yields_bind; [apply yields_any|intros ??].
  eapply yields_bind; [apply yields_opt, Hc|intros ??].
  by apply yields_ret.
Qed.

#[export] Instance model_attempts_codec_ok : AttemptsCodecOk.
Proof.
  split.
  - intros g b Ht. simpl. destruct (attempts_short g) eqn:Es; [|done]. intros [= <-]. unfold whole.
    pose proof (reads_attempts g Ht Es []) as Hr. rewrite app_nil_r in Hr. by rewrite Hr.
  - intros b g. simpl. unfold whole. destruct (get_attempts b) as [[g' [|]]|] eqn:E; try done.
    intros [= <-]. by eapply yields_attempts.
Qed.

(** ** Runs on a concrete directory *)

#[local] Existing Instance root_host.

Definition live (s : site) : bool := true.
Definition wrong (w : world) : bool := false.
Definition right (w : world) : bool := true.

Definition guess_at (verify : world -> bool) (s : Z) (w : world) : result recovery_error () * world :=
  reset false live verify alice five_strikes (Ok (at_second s)) (Ok (at_second s)) w.

(** Two wrong passwords. *)
Definition guess1 : world := snd (guess_at wrong 1 fresh_world).
Definition guess2 : world := snd (guess_at wrong 2 guess1).

Lemma at_s_typed s : bool_decide (0 <= s < 2 ^ 30) = true -> clock_typed (Ok (at_second s)).
Proof. intros Hs. apply at_second_typed. by apply bool_decide_eq_true in Hs. Qed.

Lemma five_strikes_typed : policy_typed five_strikes.
Proof. unfold policy_typed. simpl. lia. Qed.

Lemma password_guesses_bounded_witness :
  2 + Z.min (guessed alice (w_vis fresh_world !! reset_path alice))
            (guessed alice (w_dur fresh_world !! reset_path alice)) <= LIMIT.
Proof.
  apply (password_guesses_bounded alice fresh_world 2 guess2 alice_typed).
  assert (consults live alice (Ok (at_second 1)) fresh_world = true) as H1 by (vm_compute; reflexivity).
  assert (consults live alice (Ok (at_second 2)) guess1 = true) as H2 by (vm_compute; reflexivity).
  pose proof (gstep_reset alice live wrong five_strikes (Ok (at_second 1)) (Ok (at_second 1)) fresh_world
    five_strikes_typed (at_s_typed 1 eq_refl) (at_s_typed 1 eq_refl) (fun _ => eq_refl)) as S1.
  pose proof (gstep_reset alice live wrong five_strikes (Ok (at_second 2)) (Ok (at_second 2)) guess1
    five_strikes_typed (at_s_typed 2 eq_refl) (at_s_typed 2 eq_refl) (fun _ => eq_refl)) as S2.
  rewrite H1 in S1. rewrite H2 in S2.
  exact (grun_step alice _ 1 _ 1 _ S1 (grun_step alice _ 1 _ 0 _ S2 (grun_done alice guess2))).
Defined.

(** A verifier that would accept on a directory without the charge changes
    nothing. *)
Definition uncharged_accepts (w : world) : bool := bool_decide (w_vis w !! reset_path alice = None).

Lemma verifier_runs_charged_witness :
  guess_at uncharged_accepts 1 fresh_world = guess_at wrong 1 fresh_world.
Proof.
  apply (verifier_runs_charged alice live uncharged_accepts wrong five_strikes
    (Ok (at_second 1)) (Ok (at_second 1)) fresh_world alice_typed (at_s_typed 1 eq_refl)).
  intros w1 (i & g & Hi & _). unfold uncharged_accepts. by rewrite Hi.
Defined.

Lemma reset_success_authorized_witness :
  fst (guess_at right 3 guess2) = Ok () /\ all_reset alice (snd (guess_at right 3 guess2)).
Proof.
  assert (fst (guess_at right 3 guess2) = Ok ()) as Hr by (vm_compute; reflexivity).
  split; [exact Hr|].
  apply (reset_success_authorized false live right alice five_strikes (Ok (at_second 3)) (Ok (at_second 3))
    guess2 (snd (guess_at right 3 guess2)) alice_typed (at_s_typed 3 eq_refl)).
  unfold guess_at in *. destruct (reset false live right _ _ _ _ guess2) as [r w']. simpl in *. by rewrite Hr.
Defined.

Lemma unproved_reset_forgives_nothing_witness :
  let '(r, w') := guess_at wrong 3 cooling_world in
  (exists e, r = Err e) /\ (forall n, charged alice n cooling_world -> charged alice n w')
  /\ (forall n, guess_charged alice n cooling_world -> guess_charged alice n w').
Proof.
  unfold guess_at.
  apply (unproved_reset_forgives_nothing live wrong alice five_strikes (Ok (at_second 3)) (Ok (at_second 3))
    cooling_world alice_typed five_strikes_typed (at_s_typed 3 eq_refl) (at_s_typed 3 eq_refl)
    (fun _ => eq_refl)).
Defined.
