(* ===== verification/Services.v ===== *)
(** * PAM services and what a face match may do for them

    [irlume-common/src/pam_service.rs] (what a service name is),
    [irlume-core/src/biopolicy.rs] (what an operation class and an assurance
    tier allow) and the method setting of [irlume-core/src/policy.rs]. *)

From S2P Require Import Prelude.

Module pam_service.

(** [ServiceKind]. *)
Inductive ServiceKind := ScreenUnlock | Greeter | Elevation | AppConsent | Remote.

#[global] Instance ServiceKind_eq_dec : EqDecision ServiceKind.
Proof. solve_decision. Defined.

Definition SERVICES : list (string * ServiceKind) :=
  [ ("kde", ScreenUnlock);
    ("kde-fingerprint", ScreenUnlock);
    ("kscreensaver", ScreenUnlock);
    ("xscreensaver", ScreenUnlock);
    ("gnome-screensaver", ScreenUnlock);
    ("swaylock", ScreenUnlock);
    ("i3lock", ScreenUnlock);
    ("hyprlock", ScreenUnlock);
    ("gtklock", ScreenUnlock);
    ("waylock", ScreenUnlock);
    ("omarchy-lock-face", ScreenUnlock);
    ("omarchy-lock-password", ScreenUnlock);
    ("cinnamon-screensaver", ScreenUnlock);
    ("sddm", Greeter);
    ("sddm-greeter", Greeter);
    ("plasmalogin", Greeter);
    ("gdm-password", Greeter);
    ("gdm-fingerprint", Greeter);
    ("gdm", Greeter);
    ("gdm3", Greeter);
    ("lightdm", Greeter);
    ("login", Greeter);
    ("greetd", Greeter);
    ("ly", Greeter);
    ("cosmic-greeter", Greeter);
    ("sudo", Elevation);
    ("sudo-i", Elevation);
    ("su", Elevation);
    ("su-l", Elevation);
    ("runuser", Elevation);
    ("runuser-l", Elevation);
    ("doas", Elevation);
    ("polkit-1", AppConsent);
    ("polkit", AppConsent);
    ("sshd", Remote);
    ("remote", Remote);
    ("cockpit", Remote) ].

(** The key [classify] looks up. *)
Definition service_key (service : string) : string := to_ascii_lowercase (trim service).

(** The first row with that name. *)
Fixpoint find_service (s : string) (rows : list (string * ServiceKind)) : option ServiceKind :=
  match rows with
  | [] => None
  | (name, kind) :: rows => if bool_decide (name = s) then Some kind else find_service s rows
  end.

Definition classify (service : string) : option ServiceKind :=
  find_service (service_key service) SERVICES.

Definition requires_face_intent_confirmation (k : ServiceKind) : bool :=
  match k with Elevation | AppConsent => true | _ => false end.

Definition wants_short_grace (k : ServiceKind) : bool :=
  match k with Elevation | AppConsent => true | _ => false end.

Definition wants_consent_instruction (k : ServiceKind) : bool :=
  match k with AppConsent => true | _ => false end.

Lemma find_service_Some s rows k : find_service s rows = Some k -> (s, k) ∈ rows.
Proof.
  induction rows as [|[name kind] rows IH]; simpl; [done|].
  case_bool_decide; [intros [= <-]; subst; left|right; auto].
Qed.

Lemma find_service_unique s rows k :
  NoDup (map fst rows) -> (s, k) ∈ rows -> find_service s rows = Some k.
Proof.
  induction rows as [|[name kind] rows IH]; simpl; intros Hnd Hin; [by apply elem_of_nil in Hin|].
  inversion_clear Hnd as [|? ? Hni Hnd']. apply elem_of_cons in Hin as [[= <- <-]|Hin].
  - by rewrite bool_decide_eq_true_2.
  - rewrite bool_decide_eq_false_2; [auto|]. intros ->. apply Hni.
    apply list_elem_of_fmap. by exists (s, k).
Qed.

Lemma SERVICES_NoDup : NoDup (map fst SERVICES).
Proof. apply (bool_decide_unpack (NoDup (map fst SERVICES))). vm_compute. exact I. Qed.

End pam_service.

Module biopolicy.

Inductive Tier := Convenience | Secure.

(** [OperationClass]. *)
Inductive OperationClass := ScreenUnlock | Login | Elevation | AppConsent | Remote | Unknown.

Inductive Action := Verify | Unseal | Deny.

#[global] Instance Action_eq_dec : EqDecision Action.
Proof. solve_decision. Defined.

Inductive SessionState := Warm | Cold.

Definition classify (service : string) (session : SessionState) : OperationClass :=
  match pam_service.classify service with
  | Some pam_service.ScreenUnlock => ScreenUnlock
  | Some pam_service.Greeter => match session with Warm => ScreenUnlock | Cold => Login end
  | Some pam_service.Elevation => Elevation
  | Some pam_service.AppConsent => AppConsent
  | Some pam_service.Remote => Remote
  | None => Unknown
  end.

Definition decide (class : OperationClass) (tier : Tier) : Action :=
  match class with
  | Remote | Unknown => Deny
  | ScreenUnlock => Verify
  | AppConsent => match tier with Secure => Verify | Convenience => Deny end
  | Login | Elevation => match tier with Secure => Unseal | Convenience => Deny end
  end.

End biopolicy.

Module policy.

(** [Method]. *)
Inductive Method := Auto | Face | Fingerprint | Both.

Definition as_str (m : Method) : string :=
  match m with
  | Auto => "auto"
  | Face => "face"
  | Fingerprint => "fingerprint"
  | Both => "both"
  end.

(** [Method::parse].  The code lowercases with [str::to_lowercase]; no
    character outside ASCII lowercases to a letter of these words, so the
    comparison is the ASCII one. *)
Definition parse (s : string) : Method :=
  let s := to_ascii_lowercase (trim s) in
  if bool_decide (s ∈ ["fingerprint"; "finger"; "fp"]) then Fingerprint
  else if bool_decide (s = "face") then Face
  else if bool_decide (s ∈ ["both"; "face+fingerprint"; "face+fp"]) then Both
  else Auto.

Definition face_disabled (m : Method) : bool := match m with Fingerprint => true | _ => false end.

End policy.

(** The service table answers by row: a name is recognised as a kind
    exactly when its trimmed, case-folded form is the table's row of that
    kind, so no row shadows another and none is unreachable. *)
Theorem service_table_exact service k :
  pam_service.classify service = Some k <->
  (pam_service.service_key service, k) ∈ pam_service.SERVICES.
Proof.
  split; [apply pam_service.find_service_Some|].
  apply pam_service.find_service_unique, pam_service.SERVICES_NoDup.
Qed.

(** A sealed credential is released exactly to an infrared-verified match
    for terminal elevation or a cold greeter login: never to a lock screen, an
    application prompt, a remote or an unrecognised service, and never to an
    RGB-only match. *)
Theorem unseal_exactly service session tier :
  biopolicy.decide (biopolicy.classify service session) tier = biopolicy.Unseal <->
  tier = biopolicy.Secure /\
  (pam_service.classify service = Some pam_service.Elevation
   \/ pam_service.classify service = Some pam_service.Greeter /\ session = biopolicy.Cold).
Proof.
  unfold biopolicy.classify, biopolicy.decide.
  destruct (pam_service.classify service) as [[]|], session, tier; naive_solver.
Qed.

(** The method setting reads back what is written for it, and only a
    setting that names fingerprint alone turns face off. *)
Theorem method_roundtrip m :
  policy.parse (policy.as_str m) = m /\
  (policy.face_disabled m = true <-> m = policy.Fingerprint).
Proof. split; [by destruct m; vm_compute|]. destruct m; simpl; naive_solver. Qed.
