(* ===== verification/Protocol.v ===== *)
(** * Requests, what they may do and who may send them

    The wire requests of [irlume-common/src/lib.rs], and the tables and gates of
    [irlume-daemon/src/main.rs] and [arbiter.rs] that every request meets before
    it is served: the security posture, the camera class, the OS approval it
    needs, and [pregate].

    A request keeps the fields the gates and tables read, and those the PAM
    module fills in.  Other payloads that no model reads (the other secrets,
    camera choices, calibration floats) are left out. *)

From stdpp Require Import pretty.
From S2P Require Import Prelude Services.

(** [IntentAttestation]. *)
Inductive IntentAttestation := PamConversation | PolicyWaived.

Inductive SelfTestKind := AlignmentIdentity | Liveness.

(** [Request]. *)
Inductive Request :=
| Authenticate (structured_errors : bool) (user : string) (service : option string)
    (intent_confirmation : option IntentAttestation)
| Enroll (user : string) (profile : option string) (scans : option Z) (reset : bool)
| EnrollOn (user : string) (profile : option string) (scans : option Z) (reset : bool)
| EnrollSplitOn (user : string) (profile : option string) (scans : option Z) (reset : bool)
| EnrollmentSession (user : string) (profile : option string) (scans : Z) (improve : bool)
| Identify
| SetCameras (rgb ir : string)
| SetCamerasIfCurrent (rgb ir : string)
| AddScan (user profile : string) (scans : option Z) (report_enrollment : bool)
| AddCameraGroup (user : string) (profile : option string) (scans : option Z)
| AddCameraGroupOn (user : string) (profile : option string) (scans : option Z)
| AddSplitCameraGroupOn (user : string) (profile : option string) (scans : option Z)
| RemoveCameraGroup (user group : string)
| ListProfiles (user : string) (structured_errors handles : bool)
| DeleteProfile (user profile : string)
| DeleteScan (user profile scan : string)
| ForgetRecognizer (user space : string)
| RenameProfile (user profile new_name : string)
| RenameScan (user profile scan new_name : string)
| SetRequireEyesOpen (user : string) (on : bool)
| CaptureEarMedian (user : string)
| SetClosureCalibration (user : string)
| SetupIrEmitter (dry_run : bool)
| TuneCaptureMode (rounds : option Z) (emit_record_path : option string)
| CaptureModeStatus
| FaceSensorStatus (user : option string)
| LastAttempts (user : string)
| IdentifyFor (user : string)
| PreferencesStatus
| SelfTest (kind : SelfTestKind)
| ListCameras
| CameraDiagnostics
| SupportSnapshot (since_ms : Z)
| LiveStatus
| SupportProbe (since_ms : Z)
| TraceSubscribe (duration_ms : Z) (trace_schema : option Z)
| Ping
| Health
| PositionSample (user : option string)
| PositionSession (user : option string)
| SealPassword (user : string)
| UnsealPassword (user : string) (service : option string)
| UnsealKeyring (user : string) (service : option string) (have_password auth_phase : bool)
| HasSealedPassword (user : string)
| KeyringMetadata (user : string)
| SealedStorage
| TpmReadiness
| TpmEndorsement
| KeyringInfo (user : string)
| ForgetPassword (user : string)
| ReleaseTokenForDisarm (user : string)
| ResealPassword (user : string) (password : list Z) (wallet_salt : option (list Z))
    (wallet_salt_checked : bool)
| RecoverySetup (user : string)
| RecoveryRestore (user : string)
| RecoveryStatus (user : string)
| RecoveryForget (user : string)
| RetryStatus (user : string)
| RetryReset (user : string)
| ListSplitAuthorizations
| SplitStatus
| AddSplitAuthorization
| RemoveSplitAuthorization (pair : string)
| SelectSplitPair (pair : string).

(** [OutcomeCause]. *)
Module Cause.
Inductive t :=
| NoFace | LivenessRefused | BelowThreshold | PrivacyShutter | CameraUnavailable
| NotEnrolledOnThisCamera | SetupUnavailable | Cancelled | TimedOut | MethodNotAvailable
| Policy | Configuration | RetryThrottled | DaemonStarting | Other | Unknown.

Definition is_face_verdict (c : t) : bool :=
  match c with NoFace | LivenessRefused | BelowThreshold => true | _ => false end.

Definition is_operational (c : t) : bool :=
  negb (is_face_verdict c) && match c with Unknown => false | _ => true end.
End Cause.

(** [irlume_common::Error].  The measurement in [DeliveredRate] is left out:
    neither its cause nor its text reads it. *)
Module Error.
Inductive t :=
| Io (why : string) | Protocol (why : string) | NotAuthorized (why : string) | Hardware (why : string)
| CameraBusy (why : string) | Tpm (why : string) | Policy (why : string) | DeliveredRate
| Preempted (why : string) | DeadlineExpired | PrivacyShutter (why : string)
| CameraUnavailable (why : string) | IrIlluminationUnreported (why : string) | Enrollment (why : string).

(** [Display]. *)
Definition to_string (e : t) : string :=
  match e with
  | Io why => "io: " +:+ why
  | Protocol why => "protocol: " +:+ why
  | NotAuthorized why => "not authorized: " +:+ why
  | Hardware why | CameraBusy why | PrivacyShutter why | CameraUnavailable why
  | IrIlluminationUnreported why => "hardware: " +:+ why
  | Tpm why => "tpm: " +:+ why
  | Policy why => "policy: " +:+ why
  | DeliveredRate => "delivered rate below floor"
  | Preempted why => "preempted: " +:+ why
  | DeadlineExpired => "authentication window expired; use your password"
  | Enrollment why => why
  end.

(** [Error::cause]. *)
Definition cause (e : t) : Cause.t :=
  match e with
  | PrivacyShutter _ => Cause.PrivacyShutter
  | CameraUnavailable _ | CameraBusy _ | DeliveredRate | IrIlluminationUnreported _ => Cause.CameraUnavailable
  | Enrollment _ => Cause.SetupUnavailable
  | Preempted _ => Cause.Cancelled
  | DeadlineExpired => Cause.TimedOut
  | Policy _ | NotAuthorized _ => Cause.Policy
  | Hardware _ | Io _ | Protocol _ | Tpm _ => Cause.Other
  end.
End Error.

(** [OperationErrorCode]. *)
Module ErrorCode.
Inductive t := NotAuthorized | OperationFailed | CameraBusy | DeadlineExpired | Unknown.
End ErrorCode.

(** [KeyringSecretKind]: what a released secret is. *)
Module SecretKind.
Inductive t := LoginPassword | KdeWalletKey | GnomeKeyringToken.
End SecretKind.

(** A 32-bit float by its bit pattern; it is passed on and never computed with. *)
Definition f32 : Type := Z.

(** The replies the gates and the face path build ([Response]). *)
Module Response.
Inductive t :=
| AuthResult (granted : bool) (score : f32) (live : bool) (reason : string)
    (refused_by_policy declined_by_gesture : bool) (situation : string) (cause : option Cause.t)
| Error (reason : string)
| OperationError (code : ErrorCode.t) (retryable : bool) (cause : option Cause.t)
| UnsealUnavailable (reason : string)
| PasswordUnsealed (secret : list byte) (kind : SecretKind.t).
End Response.

(** [EarlyRefusal] and its wire shape. *)
Inductive EarlyRefusal :=
| MethodNotAvailable | PolicyRefusal | Configuration | RetryThrottled | DaemonStarting.

Definition early_cause (r : EarlyRefusal) : Cause.t :=
  match r with
  | MethodNotAvailable => Cause.MethodNotAvailable
  | PolicyRefusal => Cause.Policy
  | Configuration => Cause.Configuration
  | RetryThrottled => Cause.RetryThrottled
  | DaemonStarting => Cause.DaemonStarting
  end.

Definition early_refusal (r : EarlyRefusal) (reason : string) : Response.t :=
  Response.AuthResult false 0 false reason true false "" (Some (early_cause r)).

(** ** The posture table *)

Inductive Privilege :=
| AnyPeer
| RootOrTarget (verb : string)
| RootOnly (command : string).

Inductive EnrollmentEffect := Reads | Mutates | AddsTrust.

Inductive CameraUse := NoCapture | Captures.

Record RequestPosture := MkPosture {
  privilege : Privilege;
  user : option string;
  enrollment : EnrollmentEffect;
  camera : CameraUse;
}.

(** [posture], arm by arm. *)
Definition posture (req : Request) : RequestPosture :=
  match req with
  | DeleteProfile user _ | DeleteScan user _ _ | ForgetRecognizer user _
  | RenameProfile user _ _ | RenameScan user _ _ _ | SetRequireEyesOpen user _ =>
      MkPosture (RootOrTarget "modify") (Some user) Mutates NoCapture
  | AddScan user _ _ _ => MkPosture (RootOrTarget "modify") (Some user) AddsTrust Captures
  | Enroll user _ _ _ | EnrollOn user _ _ _ | EnrollSplitOn user _ _ _
  | EnrollmentSession user _ _ _ =>
      MkPosture (RootOrTarget "enroll") (Some user) AddsTrust Captures
  | AddCameraGroup user _ _ | AddCameraGroupOn user _ _ | AddSplitCameraGroupOn user _ _ =>
      MkPosture (RootOrTarget "enroll") (Some user) AddsTrust Captures
  | RemoveCameraGroup user _ => MkPosture (RootOrTarget "modify") (Some user) Mutates NoCapture
  | RecoverySetup user => MkPosture (RootOrTarget "set recovery for") (Some user) Mutates NoCapture
  | RecoveryRestore user =>
      MkPosture (RootOrTarget "restore recovery for") (Some user) Mutates NoCapture
  | RecoveryForget user =>
      MkPosture (RootOrTarget "forget recovery for") (Some user) Mutates NoCapture
  | Authenticate _ user _ _ =>
      MkPosture (RootOrTarget "authenticate") (Some user) Reads Captures
  | ListProfiles user _ _ => MkPosture (RootOrTarget "list") (Some user) Reads NoCapture
  | SetClosureCalibration user => MkPosture (RootOrTarget "modify") (Some user) Reads NoCapture
  | RetryReset user | RetryStatus user =>
      MkPosture (RootOrTarget "manage retry state for") (Some user) Reads NoCapture
  | ListSplitAuthorizations => MkPosture AnyPeer None Reads NoCapture
  | TpmReadiness => MkPosture (RootOnly "TPM readiness") None Reads NoCapture
  | TpmEndorsement => MkPosture (RootOnly "TPM endorsement") None Reads NoCapture
  | SplitStatus => MkPosture (RootOnly "split_status") None Reads NoCapture
  | AddSplitAuthorization => MkPosture (RootOnly "split_add") None Reads NoCapture
  | RemoveSplitAuthorization _ => MkPosture (RootOnly "split_remove") None Reads NoCapture
  | SelectSplitPair _ => MkPosture (RootOnly "split_select") None Reads NoCapture
  | HasSealedPassword user | KeyringMetadata user | KeyringInfo user | RecoveryStatus user =>
      MkPosture (RootOrTarget "query") (Some user) Reads NoCapture
  | SealPassword user => MkPosture (RootOrTarget "seal password for") (Some user) Reads NoCapture
  | ForgetPassword user =>
      MkPosture (RootOrTarget "forget password for") (Some user) Reads NoCapture
  | ReleaseTokenForDisarm user =>
      MkPosture (RootOrTarget "release the keyring token for") (Some user) Reads NoCapture
  | ResealPassword user _ _ _ => MkPosture (RootOnly "reseal_password") (Some user) Reads NoCapture
  | UnsealPassword user _ => MkPosture (RootOnly "unseal_password") (Some user) Reads Captures
  | UnsealKeyring user _ _ _ => MkPosture (RootOnly "unseal_keyring") (Some user) Reads NoCapture
  | CaptureEarMedian user => MkPosture (RootOnly "capture_ear_median") (Some user) Reads NoCapture
  | SetCameras _ _ | SetCamerasIfCurrent _ _ =>
      MkPosture (RootOnly "set_cameras") None Reads NoCapture
  | TuneCaptureMode _ _ => MkPosture (RootOnly "camera-tune") None Reads Captures
  | SelfTest _ => MkPosture (RootOnly "self_test") None Reads Captures
  | SupportProbe _ => MkPosture (RootOnly "support-report --probe") None Reads Captures
  | TraceSubscribe _ _ => MkPosture (RootOnly "trace record") None Reads NoCapture
  | SetupIrEmitter dry_run =>
      MkPosture (if dry_run then AnyPeer else RootOnly "setup_ir_emitter") None Reads
        (if dry_run then NoCapture else Captures)
  | PositionSample user | PositionSession user => MkPosture AnyPeer user Reads Captures
  | FaceSensorStatus user =>
      MkPosture (match user with Some _ => RootOrTarget "query" | None => AnyPeer end)
        user Reads NoCapture
  | LastAttempts user => MkPosture (RootOrTarget "query") (Some user) Reads NoCapture
  | IdentifyFor user =>
      MkPosture (RootOrTarget "test recognition for") (Some user) Reads Captures
  | Identify | CameraDiagnostics => MkPosture AnyPeer None Reads Captures
  | Ping | PreferencesStatus | SealedStorage | Health | ListCameras | CaptureModeStatus
  | SupportSnapshot _ | LiveStatus => MkPosture AnyPeer None Reads NoCapture
  end.

(** ** The camera class ([arbiter::classify]) *)

Module Class.
Inductive t := Auth | Camera | Plain | Status.

#[global] Instance t_eq_dec : EqDecision t.
Proof. solve_decision. Defined.
End Class.

Definition classify (req : Request) : Class.t :=
  match req with
  | Authenticate _ _ _ _ | UnsealPassword _ _ | UnsealKeyring _ _ _ _ => Class.Auth
  | Ping | Health | PreferencesStatus | SealedStorage | LastAttempts _ | FaceSensorStatus None
  | HasSealedPassword _ | KeyringMetadata _ | RecoveryStatus _ | RetryStatus _ | RetryReset _
  | ListProfiles _ _ _ | SupportSnapshot _ | LiveStatus | TraceSubscribe _ _
  | ListSplitAuthorizations | SplitStatus => Class.Status
  | PositionSample _ | PositionSession _ | Identify | IdentifyFor _ | Enroll _ _ _ _
  | EnrollOn _ _ _ _ | EnrollSplitOn _ _ _ _ | EnrollmentSession _ _ _ _ | AddScan _ _ _ _
  | AddCameraGroup _ _ _ | AddCameraGroupOn _ _ _ | AddSplitCameraGroupOn _ _ _
  | SetupIrEmitter _ | TuneCaptureMode _ _ | CaptureModeStatus | SelfTest _ | CameraDiagnostics
  | SupportProbe _ | ListCameras => Class.Camera
  | SetCameras _ _ | SetCamerasIfCurrent _ _ | AddSplitAuthorization
  | RemoveSplitAuthorization _ | SelectSplitPair _ | DeleteProfile _ _ | DeleteScan _ _ _
  | ForgetRecognizer _ _ | RenameProfile _ _ _ | RenameScan _ _ _ _ | SetRequireEyesOpen _ _
  | RemoveCameraGroup _ _ | CaptureEarMedian _ | SetClosureCalibration _ => Class.Plain
  | FaceSensorStatus (Some _) | SealPassword _ | TpmReadiness | TpmEndorsement | KeyringInfo _
  | ForgetPassword _ | ReleaseTokenForDisarm _ | RecoverySetup _ | RecoveryRestore _
  | RecoveryForget _ => Class.Plain
  | ResealPassword _ _ _ _ => Class.Plain
  end.

(** ** The OS approval table ([operation_authorization::approval_operation]) *)

Definition ACTION : string := "org.irlume.enroll".
Definition RECOVERY_ACTION : string := "org.irlume.recovery-manage".

Definition approval_operation (req : Request) : option (string * string) :=
  match req with
  | Enroll _ _ _ true | EnrollOn _ _ _ true | EnrollSplitOn _ _ _ true =>
      Some (ACTION, "replace enrolled faces")
  | Enroll _ _ _ _ | EnrollOn _ _ _ _ | EnrollSplitOn _ _ _ _ | EnrollmentSession _ _ _ false =>
      Some (ACTION, "enroll a face")
  | AddCameraGroup _ _ _ | AddCameraGroupOn _ _ _ | AddSplitCameraGroupOn _ _ _ =>
      Some (ACTION, "enroll a face on another camera")
  | RemoveCameraGroup _ _ => Some (ACTION, "remove an enrolled camera")
  | AddScan _ _ _ _ | EnrollmentSession _ _ _ true => Some (ACTION, "add face scans")
  | DeleteProfile _ _ => Some (ACTION, "delete a face profile")
  | ForgetRecognizer _ _ => Some (ACTION, "remove a recognizer's face data")
  | RecoverySetup _ => Some (RECOVERY_ACTION, "set or replace the recovery passphrase")
  | RecoveryForget _ => Some (RECOVERY_ACTION, "erase the recovery passphrase")
  | Authenticate _ _ _ _ | Identify | SetCameras _ _ | SetCamerasIfCurrent _ _
  | ListProfiles _ _ _ | DeleteScan _ _ _ | RenameProfile _ _ _ | RenameScan _ _ _ _
  | SetRequireEyesOpen _ _ | CaptureEarMedian _ | SetClosureCalibration _ | SetupIrEmitter _
  | TuneCaptureMode _ _ | CaptureModeStatus | FaceSensorStatus _ | LastAttempts _
  | IdentifyFor _ | PreferencesStatus | SealedStorage | TpmReadiness | TpmEndorsement
  | SelfTest _ | ListCameras | CameraDiagnostics | SupportSnapshot _ | LiveStatus
  | SupportProbe _ | TraceSubscribe _ _ | Ping | Health | PositionSample _ | PositionSession _
  | SealPassword _ | UnsealPassword _ _ | UnsealKeyring _ _ _ _ | HasSealedPassword _
  | KeyringMetadata _ | KeyringInfo _ | ForgetPassword _ | ReleaseTokenForDisarm _
  | ResealPassword _ _ _ _ | RecoveryRestore _ | RecoveryStatus _ | RetryStatus _ | RetryReset _
  | ListSplitAuthorizations | SplitStatus | AddSplitAuthorization | RemoveSplitAuthorization _
  | SelectSplitPair _ => None
  end.

(** ** The gate every request passes *)

Definition MAX_SCANS_PER_PROFILE : Z := 30.

Record Peer := MkPeer { peer_uid : Z; peer_gid : Z; peer_pid : Z }.

Definition username_char (b : Z) : bool :=
  is_ascii_alphanumeric b || bool_decide (b ∈ [95; 45; 46; 36]).

(** [valid_username]. *)
Definition valid_username (u : string) : bool :=
  negb (bool_decide (u = "")) && bool_decide (str_len u <= 64)
  && negb (match str_codes u with b :: _ => bool_decide (b ∈ [45; 46]) | [] => false end)
  && forallb username_char (str_codes u).

(** What the gates ask of the system: the name service, logind's active seat
    sessions ([None] when they cannot be read) and whether the machine's
    configuration requires the privileged-face confirmation. *)
Class System := {
  uid_of : string -> option Z;
  holds_an_active_seat : Z -> option bool;
  privileged_face_consent_required : bool;
}.

Section Gates.
Context `{System}.

Definition authorized_for (peer : Peer) (target : string) : bool :=
  bool_decide (peer_uid peer = 0) || bool_decide (uid_of target = Some (peer_uid peer)).

(** Whether a refusal at the door is filed in the named account's history. *)
Definition peer_may_file_for (req : Request) (peer : Peer) : bool :=
  match req, user (posture req) with
  | UnsealPassword _ _, _ => bool_decide (peer_uid peer = 0)
  | _, Some u => authorized_for peer u
  | _, None => false
  end.

Definition not_authorized (req : Request) (verb u : string) : Response.t :=
  match req with
  | ListProfiles _ true _ => Response.OperationError ErrorCode.NotAuthorized false None
  | Authenticate true _ _ _ =>
      Response.OperationError ErrorCode.NotAuthorized false (Some Cause.Policy)
  | _ => Response.Error ("not authorized to " +:+ verb +:+ " '" +:+ u +:+ "'")
  end.

(** Whether the service is one whose face attempts need the confirmation. *)
Definition requires_confirmation (service : option string) : bool :=
  match service ≫= pam_service.classify with
  | Some k => pam_service.requires_face_intent_confirmation k
  | None => false
  end.

Definition intent_confirmation_gate (req : Request) (peer : Peer) : option Response.t :=
  match req with
  | Authenticate _ _ service intent =>
      let trusted := bool_decide (peer_uid peer = 0)
        && match intent with
           | Some PamConversation => true
           | Some PolicyWaived => negb privileged_face_consent_required
           | None => false
           end in
      let valid := if requires_confirmation service then trusted
                   else match intent with None => true | Some _ => false end in
      if valid then None
      else Some (early_refusal PolicyRefusal
        "privileged face authentication requires PAM conversation confirmation")
  | _ => None
  end.

Definition CAMERA_SEAT_REFUSED : string :=
  "irlumed turns the camera on for an account's own request only while that account holds the active local session on a seat; run this from that session, or as root".
Definition CAMERA_SEAT_UNKNOWN : string :=
  "irlumed turns the camera on for an account's own request only while that account holds the active local session on a seat, and the seat state could not be read; run this as root".

Definition camera_seat_gate (req : Request) (use : CameraUse) (peer : Peer) : option Response.t :=
  if match use with NoCapture => true | Captures => false end || bool_decide (peer_uid peer = 0)
  then None else
  let held := holds_an_active_seat (peer_uid peer) in
  if bool_decide (held = Some true) then None else
  let reason := match held with None => CAMERA_SEAT_UNKNOWN | Some _ => CAMERA_SEAT_REFUSED end in
  Some (match req with
        | Authenticate true _ _ _ =>
            Response.OperationError ErrorCode.NotAuthorized false (Some Cause.Policy)
        | Authenticate _ _ _ _ => early_refusal PolicyRefusal reason
        | _ => Response.Error reason
        end).

(** The shape check on a guided enrollment. *)
Definition bad_session (req : Request) : bool :=
  match req with
  | EnrollmentSession _ profile scans improve =>
      negb (bool_decide (1 <= scans <= MAX_SCANS_PER_PROFILE))
      || (improve && match profile with Some name => bool_decide (name = "") | None => true end)
  | _ => false
  end.

Definition root_refusal (req : Request) (command : string) (peer : Peer) : Response.t :=
  let reason := command +:+ " requires root (peer uid " +:+ pretty (peer_uid peer) +:+ ")" in
  match req with
  | UnsealPassword _ _ => Response.UnsealUnavailable reason
  | _ => Response.Error reason
  end.

Definition pregate (req : Request) (peer : Peer) : option Response.t :=
  if bad_session req
  then Some (Response.Error "invalid guided enrollment scan count or target") else
  let p := posture req in
  if match user p with Some u => negb (valid_username u) | None => false end
  then Some (Response.Error "invalid username") else
  match intent_confirmation_gate req peer with
  | Some response => Some response
  | None =>
      match privilege p, user p with
      | AnyPeer, _ => camera_seat_gate req (camera p) peer
      | RootOrTarget _, None =>
          Some (Response.Error "request names no account to authorize against")
      | RootOrTarget verb, Some u =>
          if authorized_for peer u then camera_seat_gate req (camera p) peer
          else Some (not_authorized req verb u)
      | RootOnly command, _ =>
          if bool_decide (peer_uid peer = 0) then camera_seat_gate req (camera p) peer
          else Some (root_refusal req command peer)
      end
  end.

(** ** What the gate promises *)

(** The peer has the authority the request's posture demands. *)
Definition has_authority (req : Request) (peer : Peer) : Prop :=
  match privilege (posture req) with
  | AnyPeer => True
  | RootOrTarget _ => exists u, user (posture req) = Some u
                        /\ (peer_uid peer = 0 \/ uid_of u = Some (peer_uid peer))
  | RootOnly _ => peer_uid peer = 0
  end.

(** A camera is turned on for root or for the account at the seat. *)
Definition may_use_camera (req : Request) (peer : Peer) : Prop :=
  camera (posture req) = Captures ->
  peer_uid peer = 0 \/ holds_an_active_seat (peer_uid peer) = Some true.

(** A face attempt for a privileged service carries root's attestation of a
    confirmation, or of a waiver the machine's configuration grants; any
    other attempt carries none. *)
Definition intent_attested (req : Request) (peer : Peer) : Prop :=
  match req with
  | Authenticate _ _ service intent =>
      if requires_confirmation service
      then peer_uid peer = 0 /\
        (intent = Some PamConversation
         \/ intent = Some PolicyWaived /\ privileged_face_consent_required = false)
      else intent = None
  | _ => True
  end.

Definition safe_username (req : Request) : Prop :=
  forall u, user (posture req) = Some u -> valid_username u = true.

Lemma intent_gate_None req peer :
  intent_confirmation_gate req peer = None <-> intent_attested req peer.
Proof.
  destruct req; simpl; try done.
  destruct (requires_confirmation service); [|destruct intent_confirmation; naive_solver].
  destruct intent_confirmation as [[]|]; simpl; rewrite ?andb_true_r, ?andb_false_r.
  - case_bool_decide; naive_solver.
  - case_bool_decide; destruct privileged_face_consent_required; naive_solver.
  - naive_solver.
Qed.

Lemma seat_gate_None req peer :
  camera_seat_gate req (camera (posture req)) peer = None <-> may_use_camera req peer.
Proof.
  unfold camera_seat_gate, may_use_camera.
  destruct (camera (posture req)); simpl; [naive_solver|].
  case_bool_decide; [naive_solver|]. case_bool_decide; [naive_solver|]. naive_solver.
Qed.

Lemma authorized_for_spec peer u :
  authorized_for peer u = true <-> peer_uid peer = 0 \/ uid_of u = Some (peer_uid peer).
Proof. unfold authorized_for. by rewrite orb_true_iff, !bool_decide_eq_true. Qed.

Lemma pregate_None req peer :
  pregate req peer = None <->
  bad_session req = false /\ safe_username req /\ intent_attested req peer
  /\ has_authority req peer /\ may_use_camera req peer.
Proof.
  unfold pregate, safe_username, has_authority.
  destruct (bad_session req); [naive_solver|].
  destruct (match user (posture req) with Some u => negb (valid_username u) | None => false end) eqn:Eu.
  { split; [done|]. intros (_ & Hs & _). destruct (user (posture req)); [|done].
    by rewrite (Hs _ eq_refl) in Eu. }
  assert (forall u, user (posture req) = Some u -> valid_username u = true) as Hs.
  { intros u Hu. rewrite Hu in Eu. by destruct (valid_username u). }
  rewrite <- intent_gate_None, <- seat_gate_None.
  destruct (intent_confirmation_gate req peer); [naive_solver|].
  destruct (privilege (posture req)), (user (posture req)) as [u|]; simpl; try naive_solver.
  - destruct (authorized_for peer u) eqn:Ea; [apply authorized_for_spec in Ea; naive_solver|].
    split; [done|]. intros (_ & _ & _ & (? & [= <-] & Ha%authorized_for_spec) & _). congruence.
  - case_bool_decide; naive_solver.
  - case_bool_decide; naive_solver.
Qed.

(** C8. The gate is exact: a request passes [pregate] if and only if its
    enrollment shape is sound, the account it names is a safe file name, the
    peer has the authority its posture demands, its confirmation is attested
    as its service requires, and a camera is turned on only for root or for
    the account that holds the active seat. *)
Theorem pregate_exact req peer :
  pregate req peer = None <->
  bad_session req = false /\ safe_username req /\ intent_attested req peer
  /\ has_authority req peer /\ may_use_camera req peer.
Proof. apply pregate_None. Qed.

(** A peer other than root that passes the gate on a request naming an
    account under account privilege is that account. *)
Theorem unprivileged_acts_for_itself req peer verb :
  pregate req peer = None -> peer_uid peer <> 0 ->
  privilege (posture req) = RootOrTarget verb ->
  exists u, user (posture req) = Some u /\ uid_of u = Some (peer_uid peer).
Proof.
  intros (_ & _ & _ & Ha & _)%pregate_None Hne Hpriv. unfold has_authority in Ha.
  rewrite Hpriv in Ha. naive_solver.
Qed.
End Gates.

(** A username that passes the screen is one path component inside its
    directory: not empty, at most 64 bytes, no separator, no NUL byte, and
    neither [.] nor [..]. *)
Theorem valid_username_is_component u :
  valid_username u = true ->
  u <> "" /\ str_len u <= 64 /\ (47 ∉ str_codes u) /\ (0 ∉ str_codes u) /\ u <> "." /\ u <> "..".
Proof.
  unfold valid_username. intros Hv. reflect_bools.
  assert (forall b, b ∈ str_codes u -> username_char b = true) as Hall.
  { intros b Hb. match goal with Hf : forallb _ _ = true |- _ => rewrite forallb_forall in Hf; apply Hf end.
    by apply list_elem_of_In. }
  split_and!; try done.
  - intros Hin%Hall. by vm_compute in Hin.
  - intros Hin%Hall. by vm_compute in Hin.
  - intros ->. by simpl in *.
  - intros ->. by simpl in *.
Qed.

(** The tables agree.  A request that turns a camera on is classed as
    camera or authentication work; one that adds trusted templates needs OS
    approval, turns a camera on and is limited to root or its account; one
    that changes an enrollment names its account under account privilege and
    is never answered as status; a request that needs approval names its
    account; and authentication-class work names one. *)
Theorem tables_agree req :
  (camera (posture req) = Captures -> classify req = Class.Auth \/ classify req = Class.Camera)
  /\ (enrollment (posture req) = AddsTrust ->
        is_Some (approval_operation req) /\ camera (posture req) = Captures)
  /\ (enrollment (posture req) <> Reads ->
        classify req <> Class.Status
        /\ exists verb u, privilege (posture req) = RootOrTarget verb /\ user (posture req) = Some u)
  /\ (is_Some (approval_operation req) ->
        exists verb u, privilege (posture req) = RootOrTarget verb /\ user (posture req) = Some u)
  /\ (classify req = Class.Auth -> exists u, user (posture req) = Some u).
Proof.
  destruct req; simpl; split_and!; try (intros [? ?]; discriminate); try naive_solver.
  all: repeat match goal with |- context [match ?x with _ => _ end] => destruct x end; naive_solver.
Qed.

(** ** Concrete requests *)

Definition a_system : System := {|
  uid_of u := if bool_decide (u = "alice") then Some 1000 else None;
  holds_an_active_seat u := Some (bool_decide (u = 1000));
  privileged_face_consent_required := true;
|}.

Lemma unprivileged_acts_for_itself_witness :
  exists u, user (posture (Enroll "alice" None None false)) = Some u
            /\ @uid_of a_system u = Some 1000.
Proof.
  apply (@unprivileged_acts_for_itself a_system (Enroll "alice" None None false)
    (MkPeer 1000 1000 4242) "enroll"); [vm_compute; reflexivity|discriminate|reflexivity].
Defined.

Lemma valid_username_is_component_witness :
  "alice" <> "" /\ str_len "alice" <= 64 /\ (47 ∉ str_codes "alice") /\ (0 ∉ str_codes "alice")
  /\ "alice" <> "." /\ "alice" <> "..".
Proof. apply (valid_username_is_component "alice"). vm_compute. reflexivity. Defined.
