(* ===== verification/Authorization.v ===== *)
(** * Per-request OS authorization

    [irlume-daemon/src/operation_authorization.rs]: a peer other than root that
    asks to change enrolled trust is bound to a process ([Subject]), approved
    by polkit for that one request, and served only while the approval is
    fresh ([Grant::consume], called by the worker before any mutation). *)

From S2P Require Import Prelude Services Protocol.

(** Times are nanoseconds of the monotonic clock. *)
Definition APPROVAL_BUDGET : Z := 60 * 1000000000.
Definition QUEUE_FRESHNESS : Z := 15 * 1000000000.
Definition PENDING_LIMIT : nat := 8.

Inductive auth_error := REFUSED | ANOTHER_PENDING.

(** [required]. *)
Definition required (req : Request) (peer : Peer) : bool :=
  negb (bool_decide (peer_uid peer = 0)) && bool_decide (is_Some (approval_operation req)).

(** ** The bound process *)

(** [parse_start]: field 22 of [/proc/<pid>/stat], counted after the last
    closing parenthesis; none for a dead process. *)
Definition parse_start (stat : string) : option Z :=
  rest ← after_last 41 (str_codes stat);
  let fields := split_whitespace rest in
  state ← fields !! 0%nat;
  if bool_decide (state ∈ [[90]; [88]; [120]]) then None else
  field ← fields !! 19%nat;
  parse_uint_codes 64 field.

(** [uids_match]: the four ids of the [Uid:] line of [/proc/<pid>/status]. *)
Definition uids_match (status : string) (uid : Z) : bool :=
  match find_map (strip_prefix (str_codes "Uid:")) (lines (str_codes status)) with
  | None => false
  | Some line =>
      let fields := split_whitespace line in
      bool_decide (length fields = 4%nat)
      && forallb (fun f => bool_decide (parse_uint_codes 32 f = Some uid)) fields
  end.

(** What one look at the open process directory shows; [None] when a read
    fails. *)
Record ProcView := MkView { v_stat : option string; v_status : option string }.

(** [Subject], with the open directory left to the views. *)
Record Subject := MkSubject { s_pid : Z; s_uid : Z; s_start : Z }.

(** [Subject::validate]. *)
Definition validate (s : Subject) (peer : Peer) (v : ProcView) : bool :=
  bool_decide (0 < peer_pid peer) && bool_decide (peer_pid peer = s_pid s)
  && bool_decide (peer_uid peer = s_uid s)
  && bool_decide (v_stat v ≫= parse_start = Some (s_start s))
  && match v_status v with Some text => uids_match text (s_uid s) | None => false end.

(** [Subject::capture]: [opened] is whether [/proc/<pid>] opened, [first] the
    view its start time is taken from and [v] the one it is checked against. *)
Definition capture (peer : Peer) (opened : bool) (first v : ProcView) : option Subject :=
  if negb (bool_decide (0 < peer_pid peer)) then None else
  if negb (bool_decide (peer_uid peer < 2 ^ 31)) then None else
  if negb opened then None else
  start ← v_stat first ≫= parse_start;
  let s := MkSubject (peer_pid peer) (peer_uid peer) start in
  if validate s peer v then Some s else None.

(** ** Approvals in progress *)

(** [Pending::acquire] and the drop of its [Slot]. *)
Definition acquire (pending : gset Z) (uid : Z) : option (gset Z) :=
  if bool_decide (PENDING_LIMIT <= size pending)%nat || bool_decide (uid ∈ pending)
  then None else Some ({[uid]} ∪ pending).

Definition release (pending : gset Z) (uid : Z) : gset Z := pending ∖ {[uid]}.

(** ** Grants *)

(** serde's encoding of a request, the bytes a grant is bound to. *)
Class RequestCodec := { encode_request : Request -> option (list byte) }.

Record Grant := MkGrant { g_subject : Subject; g_request : list byte; g_approved : Z }.

(** What the environment answers during one approval: the process directory
    and its views, when each instant is read, polkit's answer and whether the
    client is still connected. *)
Record Approval := MkApproval {
  ap_opened : bool;
  ap_first : ProcView;
  ap_captured : ProcView;
  ap_start : Z;
  ap_allowed : Subject -> Request -> bool;
  ap_gone : bool;
  ap_end : Z;
  ap_final : ProcView;
  ap_approved : Z;
}.

Section Grants.
Context `{System, RequestCodec}.

(** The account the request names is the peer's own. *)
Definition names_peer (req : Request) (peer : Peer) : bool :=
  bool_decide (user (posture req) ≫= uid_of = Some (peer_uid peer)).

(** The approval itself, while the slot is held. *)
Definition approve (req : Request) (peer : Peer) (ap : Approval) : result auth_error Grant :=
  subject ← ok_or REFUSED (capture peer (ap_opened ap) (ap_first ap) (ap_captured ap));
  request ← ok_or REFUSED (encode_request req);
  let deadline := ap_start ap + APPROVAL_BUDGET in
  if negb (ap_allowed ap subject req) then Err REFUSED else
  if ap_gone ap || bool_decide (deadline <= ap_end ap) then Err REFUSED else
  if negb (validate subject peer (ap_final ap)) then Err REFUSED else
  Ok (MkGrant subject request (ap_approved ap)).

(** [authorize_using], with the set of approvals in progress it starts from
    and the one it leaves. *)
Definition authorize_using (req : Request) (peer : Peer) (ap : Approval) (pending : gset Z)
    : result auth_error (option Grant) * gset Z :=
  if negb (required req peer) then (Ok None, pending) else
  if negb (names_peer req peer) then (Err REFUSED, pending) else
  match acquire pending (peer_uid peer) with
  | None => (Err ANOTHER_PENDING, pending)
  | Some held =>
      (match approve req peer ap with Ok g => Ok (Some g) | Err e => Err e end,
       release held (peer_uid peer))
  end.

(** [Grant::consume], at time [now] with the process seen as [v]. *)
Definition consume (g : Grant) (req : Request) (peer : Peer) (now : Z) (v : ProcView)
    : result auth_error () :=
  if bool_decide (QUEUE_FRESHNESS <= sat_sub now (g_approved g)) then Err REFUSED else
  binding ← ok_or REFUSED (encode_request req);
  if negb (bool_decide (binding = g_request g)) || negb (names_peer req peer) then Err REFUSED else
  if validate (g_subject g) peer v then Ok () else Err REFUSED.

(** The worker's check before it serves a request
    ([dispatch_scoped_session_inner]): the gate again, then the grant. *)
Definition worker_admits (req : Request) (peer : Peer) (grant : option Grant) (now : Z) (v : ProcView)
    : bool :=
  match pregate req peer with
  | Some _ => false
  | None =>
      if required req peer then
        match grant with
        | None => false
        | Some g => is_ok (consume g req peer now v)
        end
      else true
  end.

Lemma validate_spec s peer v :
  validate s peer v = true ->
  peer_pid peer = s_pid s /\ peer_uid peer = s_uid s
  /\ v_stat v ≫= parse_start = Some (s_start s)
  /\ exists text, v_status v = Some text /\ uids_match text (s_uid s) = true.
Proof. unfold validate. intros Hv. reflect_bools. destruct (v_status v); naive_solver. Qed.

Lemma capture_spec peer opened first v s :
  capture peer opened first v = Some s ->
  s_pid s = peer_pid peer /\ s_uid s = peer_uid peer.
Proof.
  unfold capture. case_all. intros (start & _ & Hs)%bind_Some.
  destruct (validate _ _ _); by simplify_eq.
Qed.

Lemma consume_spec g req peer now v :
  consume g req peer now v = Ok () ->
  now < g_approved g + QUEUE_FRESHNESS /\ encode_request req = Some (g_request g)
  /\ user (posture req) ≫= uid_of = Some (peer_uid peer) /\ validate (g_subject g) peer v = true.
Proof.
  unfold consume, names_peer. case_bool_decide as Hf; [done|].
  destruct (encode_request req) as [b|]; simpl; [|done].
  case_bool_decide; simpl; [|done]. case_bool_decide; simpl; [|done].
  destruct (validate _ _ _); [|done]. intros _. subst. unfold sat_sub in Hf. split_and!; try done. lia.
Qed.

Lemma approve_spec req peer ap g :
  approve req peer ap = Ok g ->
  s_pid (g_subject g) = peer_pid peer /\ s_uid (g_subject g) = peer_uid peer
  /\ encode_request req = Some (g_request g) /\ g_approved g = ap_approved ap
  /\ ap_allowed ap (g_subject g) req = true /\ ap_gone ap = false
  /\ ap_end ap < ap_start ap + APPROVAL_BUDGET
  /\ validate (g_subject g) peer (ap_final ap) = true.
Proof.
  unfold approve. destruct (capture _ _ _ _) as [s|] eqn:Ec; simpl; [|done].
  destruct (encode_request req) as [b|]; simpl; [|done].
  apply capture_spec in Ec as [??].
  destruct (ap_allowed ap s req) eqn:Ea; simpl; [|done].
  destruct (ap_gone ap); simpl; [done|]. case_bool_decide; simpl; [done|].
  destruct (validate s peer (ap_final ap)) eqn:Ev; simpl; [|done].
  intros [= <-]. simpl. split_and!; try done. lia.
Qed.

(** C9. Enrolled trust changes only behind an approval of that very request.
    When the worker serves a request that needs approval for a peer other
    than root with the grant an approval issued, polkit allowed the same
    encoded request, for the same process (pid, uid and start time, with all
    four of its ids the peer's, both when approved and when served) and less
    than 15 seconds ago, and the request names the peer's own account. *)
Theorem served_request_was_approved req req' peer peer' ap pending pending' g now v :
  authorize_using req' peer' ap pending = (Ok (Some g), pending') ->
  required req peer = true ->
  worker_admits req peer (Some g) now v = true ->
  encode_request req = encode_request req' /\ is_Some (encode_request req)
  /\ ap_allowed ap (g_subject g) req' = true
  /\ peer_pid peer = peer_pid peer' /\ peer_uid peer = peer_uid peer'
  /\ v_stat v ≫= parse_start = v_stat (ap_final ap) ≫= parse_start
  /\ (exists text, v_status v = Some text /\ uids_match text (peer_uid peer) = true)
  /\ now < ap_approved ap + QUEUE_FRESHNESS
  /\ user (posture req) ≫= uid_of = Some (peer_uid peer).
Proof.
  unfold authorize_using, worker_admits. intros Ha Hreq Hw. rewrite Hreq in Hw.
  destruct (required req' peer'); simpl in Ha; [|done].
  destruct (names_peer req' peer'); simpl in Ha; [|done].
  destruct (acquire pending (peer_uid peer')); [|done].
  destruct (approve req' peer' ap) as [g'|] eqn:Eap; simplify_eq.
  apply approve_spec in Eap as (Hp & Hu & Henc & Hat & Hok & _ & _ & Hv').
  destruct (pregate req peer); [done|].
  destruct (consume g req peer now v) as [[]|] eqn:Ec; [|done].
  apply consume_spec in Ec as (Hfresh & Henc' & Hname & Hv).
  apply validate_spec in Hv as (Hpid & Huid & Hstart & Htext), Hv' as (_ & _ & Hstart' & _).
  rewrite Henc', Henc, Hstart, Hstart'. rewrite <- Huid in Htext. rewrite Hat in Hfresh.
  split_and!; try done; congruence.
Qed.

(** Without a grant nothing that needs approval is served to a peer
    other than root. *)
Theorem ungranted_request_refused req peer now v :
  peer_uid peer <> 0 -> enrollment (posture req) = AddsTrust ->
  worker_admits req peer None now v = false.
Proof.
  intros Hne Htrust. unfold worker_admits, required. destruct (pregate req peer); [done|].
  rewrite (bool_decide_eq_false_2 _ Hne). simpl.
  rewrite bool_decide_eq_true_2; [done|].
  destruct req; simpl in *; try discriminate; repeat case_match; eauto.
Qed.
End Grants.

(** ** The approvals in progress *)

(** Requests of several peers, interleaved: an approval starts (and is refused
    when it may not) or ends. *)
Inductive slot_step : gset Z -> gset Z -> Prop :=
| slot_take p u p' : acquire p u = Some p' -> slot_step p p'
| slot_drop p u : u ∈ p -> slot_step p (release p u).

(** At most eight approvals are in progress, and at most one per account:
    the set never grows beyond the limit, a start is refused exactly when the
    limit is reached or the account already has one, and an approval that
    ends leaves the set as it was before it started. *)
Theorem pending_approvals_bounded p u :
  (forall p', rtc slot_step ∅ p' -> size p' <= PENDING_LIMIT)%nat
  /\ (acquire p u = None <-> (PENDING_LIMIT <= size p)%nat \/ u ∈ p)
  /\ (forall p', acquire p u = Some p' -> release p' u = p /\ size p' = S (size p)).
Proof.
  assert (forall q q' x, acquire q x = Some q' -> q' = {[x]} ∪ q /\ (size q < PENDING_LIMIT)%nat /\ x ∉ q) as Hacq.
  { intros q q' x. unfold acquire. destruct (_ || _) eqn:E; [done|]. intros [= <-].
    reflect_bools. split_and!; [done|lia|done]. }
  split_and!.
  - intros p' Hr.
    apply (rtc_ind_r (fun q => (size q <= PENDING_LIMIT)%nat) ∅) in Hr; [done|rewrite size_empty; lia|].
    intros y z _ Hs Hy. destruct Hs as [q x q' (-> & Hlt & Hx)%Hacq|q x Hx].
    + rewrite size_union, size_singleton by set_solver. lia.
    + etrans; [|exact Hy]. apply subseteq_size. unfold release. set_solver.
  - unfold acquire. destruct (_ || _) eqn:E.
    + split; [intros _|done]. apply orb_true_iff in E as [E|E]; reflect_bools; eauto.
    + split; [done|]. reflect_bools. intros [?|?]; [lia|done].
  - intros p' (-> & _ & Hx)%Hacq. split.
    + unfold release. apply set_eq. set_solver.
    + by rewrite size_union, size_singleton by set_solver.
Qed.

(** A process cannot disguise its start time: what [parse_start] reads
    from the kernel's line does not depend on the command name, which the
    process chooses and which may itself contain parentheses and spaces. *)
Theorem start_time_ignores_comm pid comm comm' rest :
  41 ∉ str_codes rest ->
  parse_start (pid +:+ " (" +:+ comm +:+ ")" +:+ rest)
  = parse_start (pid +:+ " (" +:+ comm' +:+ ")" +:+ rest).
Proof.
  intros Hr. unfold parse_start.
  assert (forall c, after_last 41 (str_codes (pid +:+ " (" +:+ c +:+ ")" +:+ rest)) = Some (str_codes rest)) as E.
  { intros c. rewrite !str_codes_app.
    change (str_codes ")" ++ str_codes rest) with (41 :: str_codes rest).
    rewrite !app_assoc. by apply after_last_app. }
  by rewrite !E.
Qed.

(** ** A concrete approval *)

#[local] Existing Instance a_system.
#[local] Instance a_codec : RequestCodec := {|
  encode_request req := match approval_operation req with
                        | Some (_, op) => Some (String.list_byte_of_string op)
                        | None => None
                        end |}.

Definition a_stat : string :=
  "4242 (irlume ) Z) S 1 4242 4242 0 -1 4194560 0 0 0 0 1 0 0 0 20 0 1 0 987654 0 0".
Definition a_status : string := "Name:	irlume
Umask:	0022
Uid:	1000	1000	1000	1000
Gid:	1000	1000	1000	1000".
Definition a_view : ProcView := MkView (Some a_stat) (Some a_status).
Definition a_peer : Peer := MkPeer 1000 1000 4242.
Definition an_approval : Approval :=
  MkApproval true a_view a_view 0 (fun _ _ => true) false 5000000000 a_view 5000000000.
Definition an_enrollment : Request := Enroll "alice" None None false.
Definition a_grant : Grant :=
  MkGrant (MkSubject 4242 1000 987654) (String.list_byte_of_string "enroll a face") 5000000000.

Lemma served_request_was_approved_witness :
  v_stat a_view ≫= parse_start = Some 987654 /\ 6000000000 < 5000000000 + QUEUE_FRESHNESS.
Proof.
  split; [vm_compute; reflexivity|].
  apply (served_request_was_approved an_enrollment an_enrollment a_peer a_peer an_approval ∅ ∅ a_grant
    6000000000 a_view); vm_compute; reflexivity.
Defined.

Lemma ungranted_request_refused_witness :
  worker_admits an_enrollment a_peer None 0 a_view = false.
Proof. apply (ungranted_request_refused an_enrollment a_peer 0 a_view); [discriminate|reflexivity]. Defined.

Lemma start_time_ignores_comm_witness :
  parse_start ("4242" +:+ " (" +:+ "x) Z 1 (" +:+ ")" +:+ " S 1 2") = parse_start ("4242" +:+ " (" +:+ "sh" +:+ ")" +:+ " S 1 2").
Proof.
  apply (start_time_ignores_comm "4242" "x) Z 1 (" "sh" " S 1 2").
  apply (bool_decide_unpack (41 ∉ str_codes " S 1 2")). vm_compute. exact I.
Defined.
