(* ===== verification/Arbiter.v ===== *)
(** * Who gets the camera next

    [irlume-daemon/src/arbiter.rs] (the queue one worker serves) with the parts
    of [main.rs] that drive it: the admission of a connection thread, the
    worker loop and the [ClientLink] handshake that lets a departing client
    stop its own job.

    The queue is one mutex-guarded value, so each method is one transition.
    Background tasks are named by a number. *)

From S2P Require Import Prelude Services Protocol.

(** [Refusal]. *)
Inductive Refusal := Busy | AlreadyHoldsSlot | ShuttingDown.

(** [CancelToken]: the shared stop signal. *)
Record CancelToken := MkToken { yield_requested : bool; cancel_requested : bool }.

Definition request_stop (t : CancelToken) : CancelToken := MkToken true (cancel_requested t).
Definition request_cancel (t : CancelToken) : CancelToken := MkToken (yield_requested t) true.
Definition stop_requested (t : CancelToken) : bool := yield_requested t || cancel_requested t.
Definition token_reset (t : CancelToken) : CancelToken := MkToken false false.

Section Queue.
Context {T : Type}.

Record Job := MkJob { class : Class.t; uid : Z; payload : T }.

Inductive Work := WorkJob (j : Job) | WorkBackground (task : nat).

(** [Inner], with the arbiter's token. *)
Record Inner := MkInner {
  auth : list Job;
  other : list Job;
  background : list nat;
  camera_slots : list Z;
  auth_running : bool;
  closed : bool;
  cancel : CancelToken;
}.

Definition new : Inner := MkInner [] [] [] [] false false (MkToken false false).

Definition auth_pending (s : Inner) : bool :=
  auth_running s || negb (match auth s with [] => true | _ => false end).

Definition push_auth (j : Job) (s : Inner) : Inner :=
  MkInner (auth s ++ [j]) (other s) (background s) (camera_slots s) (auth_running s) (closed s)
    (request_stop (cancel s)).
Definition push_other (j : Job) (slots : list Z) (s : Inner) : Inner :=
  MkInner (auth s) (other s ++ [j]) (background s) slots (auth_running s) (closed s) (cancel s).

(** [Arbiter::submit]. *)
Definition submit (c : Class.t) (u : Z) (x : T) (s : Inner) : result Refusal () * Inner :=
  if closed s then (Err ShuttingDown, s) else
  match c with
  | Class.Auth => (Ok (), push_auth (MkJob c u x) s)
  | Class.Camera =>
      if auth_pending s then (Err Busy, s) else
      if negb (bool_decide (u = 0)) && bool_decide (u ∈ camera_slots s)
      then (Err AlreadyHoldsSlot, s) else
      let slots := if bool_decide (u = 0) then camera_slots s else camera_slots s ++ [u] in
      (Ok (), push_other (MkJob c u x) slots s)
  | Class.Plain | Class.Status => (Ok (), push_other (MkJob c u x) (camera_slots s) s)
  end.

(** [Arbiter::submit_background]. *)
Definition submit_background (task : nat) (s : Inner) : result Refusal () * Inner :=
  if closed s then (Err ShuttingDown, s) else
  if auth_pending s then (Err Busy, s) else
  (Ok (), MkInner (auth s) (other s) (background s ++ [task]) (camera_slots s) (auth_running s)
            (closed s) (cancel s)).

(** One look of [Arbiter::take_work] at the queue: work, nothing because the
    queue is closed and drained, or a wait for a notification. *)
Inductive Take := Took (w : Work) (s : Inner) | Drained | Waits.

Definition take_work (s : Inner) : Take :=
  match auth s with
  | j :: rest =>
      Took (WorkJob j) (MkInner rest (other s) (background s) (camera_slots s) true (closed s)
        (token_reset (cancel s)))
  | [] =>
      match other s with
      | j :: rest =>
          Took (WorkJob j) (MkInner [] rest (background s) (camera_slots s) (auth_running s) (closed s)
            (token_reset (cancel s)))
      | [] =>
          if closed s then Drained else
          match background s with
          | task :: rest =>
              Took (WorkBackground task) (MkInner [] [] rest (camera_slots s) (auth_running s) (closed s)
                (token_reset (cancel s)))
          | [] => Waits
          end
      end
  end.

(** [Vec::swap_remove] of the first occurrence, when there is one. *)
Definition swap_remove_first (u : Z) (l : list Z) : list Z :=
  match list_find (u =.) l with
  | None => l
  | Some (i, _) => swap_remove i l
  end.

(** [Arbiter::finish]. *)
Definition finish (c : Class.t) (u : Z) (s : Inner) : Inner :=
  MkInner (auth s) (other s) (background s) (swap_remove_first u (camera_slots s))
    (if bool_decide (c = Class.Auth) then false else auth_running s) (closed s) (cancel s).

(** [Arbiter::close]. *)
Definition close (s : Inner) : Inner :=
  MkInner (auth s) (other s) (background s) (camera_slots s) (auth_running s) true (cancel s).

(** The admission of a connection thread: an account other than root is also
    refused camera work while its live status shows another account's work
    as unknown. *)
Definition admission (unknown_work : bool) (c : Class.t) (u : Z) (x : T) (s : Inner)
    : result Refusal () * Inner :=
  if bool_decide (c = Class.Camera) && negb (bool_decide (u = 0)) && unknown_work
  then (Err Busy, s) else submit c u x s.

(** ** Facts about one operation *)

(** Up to order, [swap_remove_first] drops one occurrence. *)
Lemma swap_remove_first_perm u l :
  u ∈ l -> l ≡ₚ u :: swap_remove_first u l.
Proof.
  intros Hu. unfold swap_remove_first.
  destruct (list_find (u =.) l) as [[i y]|] eqn:Ef.
  - apply list_find_Some in Ef as (Hi & <- & _). by apply swap_remove_perm.
  - apply list_find_None in Ef. rewrite list.Forall_forall in Ef. by destruct (Ef u Hu).
Qed.

Lemma swap_remove_first_absent u l : u ∉ l -> swap_remove_first u l = l.
Proof.
  intros Hu. unfold swap_remove_first.
  destruct (list_find (u =.) l) as [[i y]|] eqn:Ef; [|done].
  apply list_find_Some in Ef as (Hi & <- & _). by apply list.list_elem_of_lookup_2 in Hi.
Qed.

(** On a list without repetition it removes exactly that element. *)
Lemma swap_remove_first_elem u l x :
  NoDup l -> (x ∈ swap_remove_first u l <-> x ∈ l /\ x <> u) /\ NoDup (swap_remove_first u l).
Proof.
  intros Hnd. destruct (decide (u ∈ l)) as [Hu|Hu].
  - pose proof (swap_remove_first_perm u l Hu) as Hp. revert Hp.
    generalize (swap_remove_first u l). intros l' Hp. rewrite Hp in Hnd.
    apply list.NoDup_cons in Hnd as [Hni Hnd]. split; [|done]. rewrite Hp. set_solver.
  - rewrite swap_remove_first_absent by done. split; [set_solver|done].
Qed.
End Queue.
Arguments Job : clear implicits.
Arguments Inner : clear implicits.
Arguments Work : clear implicits.
Arguments Take : clear implicits.

(** ** The worker and its clients *)

(** [ClientState]. *)
Inductive ClientState := Queued | Running | Abandoned | Released.

#[export] Instance ClientState_eq_dec : EqDecision ClientState.
Proof. solve_decision. Defined.

(** Where the worker loop is: waiting, holding a job it has not claimed,
    running it, past [link.released], or running the daemon's own work. *)
Inductive Phase :=
| Idle
| Taken (j : Job nat)
| Claimed (j : Job nat)
| Releasing (j : Job nat)
| InBackground (task : nat).

(** The daemon: the queue, the worker and one link per request. *)
Record Sys := MkSys { queue : Inner nat; phase : Phase; links : gmap nat ClientState }.

Definition set_cancel (t : CancelToken) (q : Inner nat) : Inner nat :=
  MkInner (auth q) (other q) (background q) (camera_slots q) (auth_running q) (closed q) t.

(** [ClientLink::claim]: whether the worker may run the job. *)
Definition claim (id : nat) (l : gmap nat ClientState) : option (gmap nat ClientState) :=
  match l !! id with
  | Some Queued => Some (<[id := Running]> l)
  | _ => None
  end.

(** [ClientLink::released]. *)
Definition released (id : nat) (l : gmap nat ClientState) : gmap nat ClientState :=
  <[id := Released]> l.

(** [ClientLink::abandon]: the stop signal is written under the link's lock,
    and only when this link's job is the one running. *)
Definition abandon (id : nat) (s : Sys) : Sys :=
  let running := bool_decide (links s !! id = Some Running) in
  MkSys (if running then set_cancel (request_cancel (cancel (queue s))) (queue s) else queue s)
    (phase s) (<[id := Abandoned]> (links s)).

Definition job_finish (j : Job nat) (q : Inner nat) : Inner nat := finish (class j) (uid j) q.

Inductive event := Submitted (c : Class.t) (u : Z) (id : nat) | TookJob (j : Job nat) | Quiet.

(** One transition of the daemon: a connection's admission, the daemon's own
    work, a step of the worker loop, a client leaving, or the shutdown. *)
Inductive sys_step : Sys -> event -> Sys -> Prop :=
| ss_submit unknown c u id q ph l q' :
    l !! id = None -> admission unknown c u id q = (Ok (), q') ->
    sys_step (MkSys q ph l) (Submitted c u id) (MkSys q' ph (<[id := Queued]> l))
| ss_background task q ph l q' :
    submit_background task q = (Ok (), q') -> sys_step (MkSys q ph l) Quiet (MkSys q' ph l)
| ss_take j q l q' :
    take_work q = Took (WorkJob j) q' -> sys_step (MkSys q Idle l) (TookJob j) (MkSys q' (Taken j) l)
| ss_take_background task q l q' :
    take_work q = Took (WorkBackground task) q' ->
    sys_step (MkSys q Idle l) Quiet (MkSys q' (InBackground task) l)
| ss_claim j q l l' :
    claim (payload j) l = Some l' -> sys_step (MkSys q (Taken j) l) Quiet (MkSys q (Claimed j) l')
| ss_drop j q l :
    claim (payload j) l = None ->
    sys_step (MkSys q (Taken j) l) Quiet (MkSys (job_finish j q) Idle l)
| ss_release j q l :
    sys_step (MkSys q (Claimed j) l) Quiet (MkSys q (Releasing j) (released (payload j) l))
| ss_finish j q l :
    sys_step (MkSys q (Releasing j) l) Quiet (MkSys (job_finish j q) Idle l)
| ss_background_done task q l :
    sys_step (MkSys q (InBackground task) l) Quiet (MkSys (finish Class.Camera 0 q) Idle l)
| ss_abandon id s : is_Some (links s !! id) -> sys_step s Quiet (abandon id s)
| ss_close q ph l : sys_step (MkSys q ph l) Quiet (MkSys (close q) ph l).

Inductive sys_run : Sys -> list event -> Sys -> Prop :=
| sr_nil s : sys_run s [] s
| sr_cons s e s' es s'' : sys_step s e s' -> sys_run s' es s'' -> sys_run s (e :: es) s''.

Definition start : Sys := MkSys new Idle ∅.

(** The job the worker holds. *)
Definition held (p : Phase) : list (Job nat) :=
  match p with Taken j | Claimed j | Releasing j => [j] | Idle | InBackground _ => [] end.

(** Camera jobs of [u] queued or held by the worker. *)
Definition camera_of (u : Z) (j : Job nat) : Prop := class j = Class.Camera /\ uid j = u.
Definition in_flight (s : Sys) : list (Job nat) := other (queue s) ++ held (phase s).
Definition camera_jobs (u : Z) (s : Sys) : list (Job nat) := filter (camera_of u) (in_flight s).

(** What always holds of the daemon. *)
Record sys_ok (s : Sys) : Prop := {
  ok_auth : Forall (fun j => class j = Class.Auth) (auth (queue s));
  ok_other : Forall (fun j => class j <> Class.Auth) (other (queue s));
  ok_running : auth_running (queue s) = true <-> exists j, j ∈ held (phase s) /\ class j = Class.Auth;
  ok_slots_nodup : NoDup (camera_slots (queue s));
  ok_root : 0 ∉ camera_slots (queue s);
  ok_slots u : u ∈ camera_slots (queue s) -> exists j, j ∈ in_flight s /\ camera_of u j;
  ok_cancel : cancel_requested (cancel (queue s)) = true ->
    match phase s with
    | Claimed j => links s !! payload j = Some Abandoned
    | Taken _ => False
    | _ => True
    end;
  ok_link id : links s !! id = Some Running -> exists j, phase s = Claimed j /\ payload j = id;
  ok_claimed j : phase s = Claimed j ->
    links s !! payload j = Some Running \/ links s !! payload j = Some Abandoned;
}.

(** ** The invariant *)

Lemma start_ok : sys_ok start.
Proof. split; simpl; try done; try (split; [done|]); try (by intros ? ?%elem_of_nil); try (by constructor).
  - by intros (j & ?%elem_of_nil & _).
  - apply not_elem_of_nil.
Qed.

Lemma submit_ok unknown c u id q ph l q' :
  l !! id = None -> admission unknown c u id q = (Ok (), q') ->
  sys_ok (MkSys q ph l) -> sys_ok (MkSys q' ph (<[id := Queued]> l)).
Proof.
  intros Hid Hs [Ha Ho Hr Hn H0 Hsl Hc Hl Hcl]. simpl in *.
  assert (forall j, ph = Claimed j -> payload j <> id) as Hne.
  { intros j -> Heq. destruct (Hcl j eq_refl); congruence. }
  assert (sys_ok (MkSys q ph (<[id := Queued]> l))) as Hok.
  { split; simpl; try done.
    - intros Hcan. specialize (Hc Hcan). destruct ph; try done. rewrite lookup_insert_ne; naive_solver.
    - intros id'. destruct (decide (id = id')) as [->|?]; [by rewrite lookup_insert_eq|].
      rewrite lookup_insert_ne by done. apply Hl.
    - intros j Hj. rewrite lookup_insert_ne by naive_solver. by apply Hcl. }
  clear Hc Hl Hcl Hne Hid. destruct Hok as [_ _ _ _ _ _ Hc Hl Hcl]. simpl in *.
  unfold admission, submit in Hs. destruct (_ && _ && _); [done|]. destruct (closed q); [done|].
  assert (forall c' slots, c' <> Class.Auth -> NoDup slots -> 0 ∉ slots ->
    (forall v, v ∈ slots -> v ∈ camera_slots q \/ v = u /\ c' = Class.Camera) ->
    sys_ok (MkSys (push_other (MkJob c' u id) slots q) ph (<[id := Queued]> l))) as Hpush.
  { intros c' slots Hna Hnd Hz Hin. split; simpl; try done.
    - apply Forall_app. split; [done|]. by constructor.
    - intros v [Hv|[-> ->]]%Hin.
      + destruct (Hsl v Hv) as (j & Hj & ?). exists j. unfold in_flight in *. simpl in *. set_solver.
      + exists (MkJob Class.Camera u id). split; [|done]. unfold in_flight. simpl. set_solver. }
  destruct c.
  - simplify_eq. split; simpl; try done. apply Forall_app. split; [done|]. by constructor.
  - destruct (auth_pending q); [done|]. case_bool_decide as Hu; simpl in Hs.
    + simplify_eq. apply Hpush; try done. auto.
    + case_bool_decide as Hin; [done|]. simplify_eq. apply Hpush; try done.
      * apply list.NoDup_app. split_and!; [done| |apply list.NoDup_singleton]. set_solver.
      * set_solver.
      * set_solver.
  - simplify_eq. apply Hpush; auto.
  - simplify_eq. apply Hpush; auto.
Qed.

(** Taking a job moves it from its queue to the worker and clears the signal. *)
Lemma take_job (q : Inner nat) j q' :
  take_work q = Took (WorkJob j) q' ->
  cancel q' = MkToken false false /\ camera_slots q' = camera_slots q /\ closed q' = closed q
  /\ background q' = background q
  /\ ((auth q = j :: auth q' /\ other q' = other q /\ auth_running q' = true)
      \/ (auth q = [] /\ auth q' = [] /\ other q = j :: other q' /\ auth_running q' = auth_running q)).
Proof.
  unfold take_work. destruct (auth q); [destruct (other q); [destruct (closed q), (background q)|]|];
    intros [= <- <-] || discriminate; simpl; eauto 10.
Qed.

Lemma take_ok j q l q' :
  take_work q = Took (WorkJob j) q' -> sys_ok (MkSys q Idle l) -> sys_ok (MkSys q' (Taken j) l).
Proof.
  intros Ht [Ha Ho Hr Hn H0 Hsl Hc Hl Hcl]. simpl in *.
  apply take_job in Ht as (Ecan & Esl & _ & _ & Hcase).
  assert (auth_running q = false) as Hnr.
  { destruct (auth_running q); [|done]. destruct (proj1 Hr eq_refl) as (? & ?%elem_of_nil & _). done. }
  split; simpl; rewrite ?Esl, ?Ecan; try done.
  - destruct Hcase as [(E & _)|(_ & -> & _)]; [|done]. rewrite E in Ha. by inversion_clear Ha.
  - destruct Hcase as [(_ & -> & _)|(_ & _ & E & _)]; [done|]. rewrite E in Ho. by inversion_clear Ho.
  - destruct Hcase as [(E & _ & ->)|(_ & _ & E & ->)].
    + rewrite E in Ha. inversion_clear Ha. split; [exists j; set_solver|done].
    + rewrite E in Ho. inversion_clear Ho. rewrite Hnr. split; [done|]. intros (k & Hk & ?). set_solver.
  - intros u Hu. destruct (Hsl u Hu) as (k & Hk & ?). exists k. split; [|done].
    unfold in_flight in *. simpl in *. destruct Hcase as [(_ & -> & _)|(_ & _ & E & _)]; [set_solver|].
    rewrite E in Hk. set_solver.
  - intros id Hid. by destruct (Hl id Hid) as (? & ? & _).
Qed.

(** Finishing the held job frees its account's slot and nothing else. *)
Lemma finish_ok j q ph l :
  held ph = [j] -> (forall k, ph <> Claimed k) ->
  sys_ok (MkSys q ph l) -> sys_ok (MkSys (job_finish j q) Idle l).
Proof.
  intros Hh Hph [Ha Ho Hr Hn H0 Hsl Hc Hl Hcl]. simpl in *.
  pose proof (fun x => swap_remove_first_elem (uid j) (camera_slots q) x Hn) as Hrem.
  split; simpl; try done.
  - case_bool_decide as Hca.
    + split; [done|]. by intros (? & ?%elem_of_nil & _).
    + rewrite Hr, Hh. split; [intros (k & ->%list_elem_of_singleton & ?); done|].
      by intros (? & ?%elem_of_nil & _).
  - apply (Hrem 0).
  - by intros [? _]%Hrem.
  - intros u [Hu Hne]%Hrem. destruct (Hsl u Hu) as (k & Hk & Hcam). exists k. split; [|done].
    unfold in_flight in *. simpl in *. rewrite Hh in Hk. rewrite app_nil_r.
    apply elem_of_app in Hk as [?| ->%list_elem_of_singleton]; [done|]. by destruct Hcam.
  - intros id Hid. destruct (Hl id Hid) as (k & -> & _). by destruct (Hph k).
Qed.

Lemma background_ok task q ph l q' :
  submit_background task q = (Ok (), q') -> sys_ok (MkSys q ph l) -> sys_ok (MkSys q' ph l).
Proof.
  unfold submit_background. destruct (closed q), (auth_pending q); try done.
  intros [= <-] [Ha Ho Hr Hn H0 Hsl Hc Hl Hcl]. by split.
Qed.

Lemma take_background_ok task q l q' :
  take_work q = Took (WorkBackground task) q' ->
  sys_ok (MkSys q Idle l) -> sys_ok (MkSys q' (InBackground task) l).
Proof.
  unfold take_work. intros Ht [Ha Ho Hr Hn H0 Hsl Hc Hl Hcl]. simpl in *.
  destruct (auth q) eqn:Ea, (other q) eqn:Eo, (closed q), (background q); simplify_eq.
  split; simpl; try done.
  - intros u Hu. destruct (Hsl u Hu) as (k & Hk & ?). unfold in_flight in Hk. simpl in Hk.
    rewrite Eo in Hk. by apply elem_of_nil in Hk.
  - intros id Hid. by destruct (Hl id Hid) as (? & ? & _).
Qed.

Lemma claim_ok j q l l' :
  claim (payload j) l = Some l' -> sys_ok (MkSys q (Taken j) l) -> sys_ok (MkSys q (Claimed j) l').
Proof.
  unfold claim. destruct (l !! payload j) as [[]|] eqn:El; try done.
  intros [= <-] [Ha Ho Hr Hn H0 Hsl Hc Hl Hcl]. simpl in *. split; simpl; try done.
  - intros id Hid. destruct (decide (payload j = id)) as [<-|Hne]; [by eauto|].
    rewrite lookup_insert_ne in Hid by done. by destruct (Hl id Hid) as (? & ? & _).
  - intros k [= <-]. rewrite lookup_insert_eq. auto.
Qed.

Lemma release_ok j q l :
  sys_ok (MkSys q (Claimed j) l) -> sys_ok (MkSys q (Releasing j) (released (payload j) l)).
Proof.
  intros [Ha Ho Hr Hn H0 Hsl Hc Hl Hcl]. simpl in *. unfold released. split; simpl; try done.
  intros id Hid. destruct (decide (payload j = id)) as [<-|Hne]; [by rewrite lookup_insert_eq in Hid|].
  rewrite lookup_insert_ne in Hid by done. destruct (Hl id Hid) as (k & [= <-] & <-). done.
Qed.

Lemma abandon_ok id s : sys_ok s -> sys_ok (abandon id s).
Proof.
  destruct s as [q ph l]. intros [Ha Ho Hr Hn H0 Hsl Hc Hl Hcl]. simpl in *. unfold abandon. simpl.
  assert (forall id', <[id := Abandoned]> l !! id' = Some Running -> l !! id' = Some Running) as Hrun.
  { intros id'. destruct (decide (id = id')) as [->|?]; [by rewrite lookup_insert_eq|by rewrite lookup_insert_ne]. }
  assert (forall id', l !! id' = Some Abandoned -> <[id := Abandoned]> l !! id' = Some Abandoned) as Hab.
  { intros id'. destruct (decide (id = id')) as [->|?]; [by rewrite lookup_insert_eq|by rewrite lookup_insert_ne]. }
  assert (forall j, ph = Claimed j -> <[id := Abandoned]> l !! payload j = Some Running
    \/ <[id := Abandoned]> l !! payload j = Some Abandoned) as Hcl'.
  { intros j Hj. destruct (decide (id = payload j)) as [->|?]; [rewrite lookup_insert_eq; auto|].
    rewrite lookup_insert_ne by done. auto. }
  case_bool_decide as Hid.
  - destruct (Hl id Hid) as (j & -> & <-). split; simpl; try done.
    + intros _. by rewrite lookup_insert_eq.
    + intros id' ?%Hrun. eauto.
  - split; simpl; try done.
    + intros Hcan. specialize (Hc Hcan). destruct ph; eauto.
    + intros id' ?%Hrun. eauto.
Qed.

Lemma step_ok s e s' : sys_step s e s' -> sys_ok s -> sys_ok s'.
Proof.
  intros Hs. destruct Hs; eauto using submit_ok, background_ok, take_ok, take_background_ok, claim_ok,
    release_ok, abandon_ok.
  - apply finish_ok; done.
  - apply finish_ok; done.
  - intros [Ha Ho Hr Hn H0 Hsl Hc Hl Hcl]. simpl in *.
    pose proof (fun x => swap_remove_first_elem 0 (camera_slots q) x Hn) as Hrem.
    split; simpl; try done.
    + apply (Hrem 0).
    + by intros [? _]%Hrem.
    + intros u [Hu _]%Hrem. apply (Hsl u Hu).
    + intros id Hid. by destruct (Hl id Hid) as (? & ? & _).
  - intros [Ha Ho Hr Hn H0 Hsl Hc Hl Hcl]. by split.
Qed.

Lemma run_ok s es s' : sys_run s es s' -> sys_ok s -> sys_ok s'.
Proof. induction 1; eauto using step_ok. Qed.

Lemma reachable_ok es s : sys_run start es s -> sys_ok s.
Proof. intros Hr. by eapply run_ok, start_ok. Qed.

(** ** What the arbiter guarantees *)

(** The jobs a run takes, in order. *)
Definition taken (es : list event) : list (Job nat) :=
  omap (fun e => match e with TookJob j => Some j | _ => None end) es.

(** A step takes the head of the authentication queue or leaves the queue a
    prefix of what it becomes. *)
Lemma step_auth s e s' :
  sys_step s e s' ->
  match e with
  | TookJob j => auth (queue s) = j :: auth (queue s') \/ auth (queue s) = []
  | _ => exists more, auth (queue s') = auth (queue s) ++ more
  end.
Proof.
  intros Hs. destruct Hs as [unknown c u id q ph l q' _ Hq|task q ph l q' Hq|j q l q' Ht|task q l q' Ht
    |j q l l' _|j q l _|j q l|j q l|task q l|id s _|q ph l]; simpl; try (exists []; by rewrite app_nil_r).
  - unfold admission, submit in Hq. destruct (_ && _ && _); [done|]. destruct (closed q); [done|].
    destruct c; [simplify_eq; simpl; eauto|destruct (auth_pending q); [done|];
      destruct (_ && _); [done|]| |]; simplify_eq; exists []; simpl; by rewrite app_nil_r.
  - unfold submit_background in Hq. destruct (closed q), (auth_pending q); simplify_eq.
    exists []; simpl; by rewrite app_nil_r.
  - apply take_job in Ht as (_ & _ & _ & _ & [(-> & _)|(-> & _)]); auto.
  - unfold take_work in Ht. destruct (auth q), (other q), (closed q), (background q); simplify_eq.
    by exists [].
  - unfold abandon. exists []. rewrite app_nil_r. by destruct (bool_decide _).
Qed.

Lemma take_of_extended {A} (q more l : list A) :
  take (length (q ++ more)) l = take (length l) (q ++ more) ->
  take (length q) l = take (length l) q.
Proof.
  intros E%(f_equal (take (length q))). rewrite length_app, !take_take in E.
  rewrite Nat.min_l in E by lia. rewrite E, Nat.min_comm, <- take_take. by rewrite take_app_length.
Qed.

(** Authentication goes first, in order: whatever else is submitted,
    finished, abandoned or closed meanwhile, the next jobs the worker takes
    are the authentications that were queued, in the order they were queued. *)
Theorem authentication_first s es s' :
  sys_run s es s' ->
  take (length (auth (queue s))) (taken es) = take (length (taken es)) (auth (queue s)).
Proof.
  induction 1 as [s|s e s' es s'' Hs _ IH]; [by destruct (length _)|].
  apply step_auth in Hs. destruct e as [c u id|j|]; simpl in *.
  - destruct Hs as [more E]. rewrite E in IH. by eapply take_of_extended.
  - destruct Hs as [->| ->]; simpl; [by f_equal|done].
  - destruct Hs as [more E]. rewrite E in IH. by eapply take_of_extended.
Qed.

(** No camera work is admitted while an authentication is pending: in
    every reachable state with an authentication queued or held by the worker,
    every camera request and the daemon's own camera work are refused, and
    the refusal changes nothing. *)
Theorem camera_waits_for_authentication es s unknown u id task :
  sys_run start es s ->
  (auth (queue s) <> [] \/ exists j, j ∈ held (phase s) /\ class j = Class.Auth) ->
  (exists e, admission unknown Class.Camera u id (queue s) = (Err e, queue s))
  /\ (exists e, submit_background task (queue s) = (Err e, queue s)).
Proof.
  intros Hok%reachable_ok Hp.
  assert (auth_pending (queue s) = true) as Hpend.
  { unfold auth_pending. destruct Hp as [Hq|Hh%(ok_running s Hok)]; [|by rewrite Hh].
    apply orb_true_iff. right. by destruct (auth (queue s)). }
  unfold admission, submit, submit_background. rewrite Hpend.
  destruct (_ && _ && _), (closed (queue s)); eauto.
Qed.

(** C39. No account is locked out of the camera: in every reachable state, an
    account with no camera job queued or held can submit one exactly when no
    authentication is pending, the daemon is not shutting down, and the
    connection's snapshot shows the account no unknown work of another (root is
    never refused for that). *)
Theorem camera_slot_never_leaks es s u id unknown :
  sys_run start es s -> camera_jobs u s = [] ->
  (exists q', admission unknown Class.Camera u id (queue s) = (Ok (), q'))
  <-> auth_pending (queue s) = false /\ closed (queue s) = false /\ (unknown = false \/ u = 0).
Proof.
  intros Hok%reachable_ok Hnone.
  assert (u ∉ camera_slots (queue s)) as Hni.
  { intros (j & Hj & Hcam)%(ok_slots s Hok).
    assert (j ∈ camera_jobs u s) as Hin by (by apply list_elem_of_filter).
    rewrite Hnone in Hin. by apply elem_of_nil in Hin. }
  unfold admission, submit. rewrite (bool_decide_eq_false_2 _ Hni), andb_false_r. cbn [andb].
  rewrite (bool_decide_eq_true_2 (Class.Camera = Class.Camera)) by done. cbn [andb].
  destruct (closed (queue s)), (auth_pending (queue s)), unknown; try case_bool_decide; cbn; split;
    (try by intros (? & ?)); (try by intros (? & ? & [|])); eauto 6.
Qed.

(** A departing client stops only its own job: in every reachable state
    where the worker runs a job and the shared token says to cancel, the
    client that left is that job's own; and a job starts with the signal
    clear. *)
Theorem cancellation_is_own es s :
  sys_run start es s ->
  (forall j, phase s = Claimed j -> cancel_requested (cancel (queue s)) = true ->
     links s !! payload j = Some Abandoned)
  /\ (forall j q', take_work (queue s) = Took (WorkJob j) q' -> stop_requested (cancel q') = false).
Proof.
  intros Hok%reachable_ok. split.
  - intros j Hj Hc. pose proof (ok_cancel s Hok Hc) as H. by rewrite Hj in H.
  - by intros j q' (-> & _)%take_job.
Qed.

(** ** The one-slot rule *)

(** An account whose jobs are all camera jobs: the camera jobs it has in
    flight are covered by its slot. *)
Record exclusive (u : Z) (s : Sys) : Prop := {
  ex_class j : j ∈ auth (queue s) ++ in_flight s -> uid j = u -> class j = Class.Camera;
  ex_count : (length (camera_jobs u s) <= 1)%nat;
  ex_slot : camera_jobs u s <> [] -> u ∈ camera_slots (queue s);
}.

(** Camera jobs only depend on the queue and on what the worker holds. *)
Lemma exclusive_same u s s' :
  auth (queue s') ++ in_flight s' ≡ₚ auth (queue s) ++ in_flight s ->
  camera_jobs u s' ≡ₚ camera_jobs u s ->
  (u ∈ camera_slots (queue s) -> u ∈ camera_slots (queue s')) -> exclusive u s -> exclusive u s'.
Proof.
  intros Hall Hcam Hsl [Hc Hn Hs]. split.
  - intros j. rewrite Hall. apply Hc.
  - by rewrite Hcam.
  - intros Hne. apply Hsl, Hs. intros Hnil. rewrite Hnil in Hcam. by apply Permutation_nil_r in Hcam.
Qed.

Lemma exclusive_finish u j q ph l :
  sys_ok (MkSys q ph l) -> held ph = [j] ->
  exclusive u (MkSys q ph l) -> exclusive u (MkSys (job_finish j q) Idle l).
Proof.
  intros Hok Hh [Hc Hn Hs]. unfold camera_jobs, in_flight in *. simpl in *. rewrite Hh in *.
  rewrite !list.filter_app, !length_app in *.
  split; unfold camera_jobs, in_flight; simpl; rewrite ?app_nil_r.
  - intros k Hk. apply Hc. set_solver.
  - lia.
  - intros Hne. rewrite (proj1 (swap_remove_first_elem (uid j) _ u (ok_slots_nodup _ Hok))). split.
    + apply Hs. intros [E _]%app_eq_nil. done.
    + intros Hu. assert (camera_of u j) as Hcam by (split; [apply Hc; [set_solver|done]|done]).
      rewrite (list.filter_cons_True _ j [] Hcam) in Hn. simpl in Hn.
      destruct (filter (camera_of u) (other q)); [done|]. simpl in Hn. lia.
Qed.

Lemma exclusive_submit u unknown c v id q ph l q' l' :
  u <> 0 -> (v = u -> c = Class.Camera) -> admission unknown c v id q = (Ok (), q') ->
  exclusive u (MkSys q ph l) -> exclusive u (MkSys q' ph l').
Proof.
  intros Hu Hcls Hs [Hc Hn Hsl]. unfold camera_jobs, in_flight in *. simpl in *.
  unfold admission, submit in Hs. destruct (_ && _ && _); [done|]. destruct (closed q); [done|].
  assert (forall c' slots, v <> u \/ c' <> Class.Camera -> (v = u -> c' = Class.Camera) ->
    (u ∈ camera_slots q -> u ∈ slots) ->
    exclusive u (MkSys (push_other (MkJob c' v id) slots q) ph l')) as Hpush.
  { intros c' slots Hno Himp Hin.
    assert (~ camera_of u (MkJob c' v id)) as Hncam by (intros [? ?]; simpl in *; naive_solver).
    split; unfold camera_jobs, in_flight; simpl.
    - intros k Hk Hku. rewrite !elem_of_app, list_elem_of_singleton in Hk.
      destruct Hk as [?|[[?| ->]|?]]; [apply Hc; set_solver|apply Hc; set_solver| |apply Hc; set_solver].
      simpl in *. naive_solver.
    - rewrite !list.filter_app, (list.filter_cons_False _ _ _ Hncam), app_nil_r, <- list.filter_app. done.
    - rewrite !list.filter_app, (list.filter_cons_False _ _ _ Hncam), app_nil_r, <- list.filter_app. auto. }
  destruct c.
  - simplify_eq. split; unfold camera_jobs, in_flight; simpl; [|done|done].
    intros k Hk Hku. rewrite !elem_of_app, list_elem_of_singleton in Hk.
    destruct Hk as [[?| ->]|[?|?]]; [apply Hc; set_solver| |apply Hc; set_solver|apply Hc; set_solver].
    simpl in *. naive_solver.
  - destruct (auth_pending q); [done|].
    destruct (decide (v = u)) as [->|Hne].
    + rewrite (bool_decide_eq_false_2 (u = 0)) in Hs by done. simpl in Hs.
      case_bool_decide as Hin; [done|]. simplify_eq.
      assert (filter (camera_of u) (other q ++ held ph) = []) as Hnil.
      { destruct (filter _ _) eqn:E; [done|]. destruct Hin. by apply Hsl. }
      rewrite list.filter_app in Hnil. apply app_eq_nil in Hnil as [E1 E2].
      split; unfold camera_jobs, in_flight; simpl.
      * intros k Hk Hku. rewrite !elem_of_app, list_elem_of_singleton in Hk.
        destruct Hk as [?|[[?| ->]|?]]; [apply Hc; set_solver|apply Hc; set_solver|done|apply Hc; set_solver].
      * rewrite !list.filter_app, E1, E2. rewrite list.filter_cons_True by done. simpl. lia.
      * intros _. set_solver.
    + destruct (_ && _); [done|]. simplify_eq. apply Hpush; [auto|done|].
      case_bool_decide; set_solver.
  - simplify_eq. apply Hpush; auto.
  - simplify_eq. apply Hpush; auto.
Qed.

Lemma exclusive_take u j q l q' :
  sys_ok (MkSys q Idle l) -> take_work q = Took (WorkJob j) q' ->
  exclusive u (MkSys q Idle l) -> exclusive u (MkSys q' (Taken j) l).
Proof.
  intros Hok (_ & Esl & _ & _ & Hcase)%take_job.
  destruct Hcase as [(E & Eo & _)|(E & E' & Eo & _)]; apply exclusive_same;
    unfold camera_jobs, in_flight; simpl; rewrite ?Esl; try done.
  - rewrite E, Eo. solve_Permutation.
  - rewrite Eo, app_nil_r, list.filter_app. pose proof (ok_auth _ Hok) as Ha. simpl in Ha.
    rewrite E in Ha. inversion_clear Ha as [|? ? Hj _].
    rewrite (list.filter_cons_False _ j []); [by rewrite app_nil_r|].
    intros [Hcam _]. congruence.
  - rewrite E, E', Eo. simpl. solve_Permutation.
  - rewrite Eo. apply filter_Permutation. solve_Permutation.
Qed.

Lemma exclusive_step u s e s' :
  u <> 0 -> sys_ok s -> sys_step s e s' ->
  (forall c id, e = Submitted c u id -> c = Class.Camera) -> exclusive u s -> exclusive u s'.
Proof.
  intros Hu Hok Hs Hcls. destruct Hs as [unknown c v id q ph l q' _ Hq|task q ph l q' Hq|j q l q' Ht
    |task q l q' Ht|j q l l' _|j q l _|j q l|j q l|task q l|id s _|q ph l].
  - eapply exclusive_submit; [done| |exact Hq]. intros ->. by eapply Hcls.
  - unfold submit_background in Hq. destruct (closed q), (auth_pending q); simplify_eq.
    by apply exclusive_same.
  - by apply exclusive_take.
  - unfold take_work in Ht. destruct (auth q) eqn:Ea, (other q) eqn:Eo, (closed q), (background q); simplify_eq.
    apply exclusive_same; unfold camera_jobs, in_flight; simpl; by rewrite ?Ea, ?Eo.
  - by apply exclusive_same.
  - by apply exclusive_finish.
  - by apply exclusive_same.
  - by apply exclusive_finish.
  - apply exclusive_same; try done. simpl. intros Hin.
    by apply (swap_remove_first_elem 0 _ u (ok_slots_nodup _ Hok)).
  - unfold abandon. case_bool_decide; by apply exclusive_same.
  - by apply exclusive_same.
Qed.

(** One camera job per account, for an account that submits only camera
    work: in every run, an unprivileged account all of whose submissions are
    camera requests has at most one camera job queued or held. *)
Theorem camera_only_account_holds_one u es s :
  u <> 0 -> sys_run start es s ->
  (forall c id, Submitted c u id ∈ es -> c = Class.Camera) ->
  (length (camera_jobs u s) <= 1)%nat.
Proof.
  intros Hu Hr Hes. apply (ex_count u s).
  assert (exclusive u start) as Hex.
  { split; unfold camera_jobs, in_flight; simpl; [by intros ? ?%elem_of_nil|lia|done]. }
  pose proof start_ok as Hok. revert Hes Hex Hok.
  induction Hr as [s|s e s' es s'' Hs _ IH]; intros Hes Hex Hok; [done|].
  apply IH; [intros; eapply Hes; by right| |by eapply step_ok].
  eapply exclusive_step; [done|exact Hok|exact Hs| |done]. intros c id ->. eapply Hes. by left.
Qed.

(** ** Runs *)

Definition plain_and_camera : Sys :=
  MkSys (snd (submit Class.Camera 1000 1%nat (snd (submit Class.Plain 1000 0%nat new)))) Idle
    (<[1%nat := Queued]> (<[0%nat := Queued]> ∅)).

Lemma plain_and_camera_run :
  sys_run start [Submitted Class.Plain 1000 0; Submitted Class.Camera 1000 1] plain_and_camera.
Proof.
  eapply sr_cons; [apply (ss_submit false); reflexivity|].
  eapply sr_cons; [apply (ss_submit false); reflexivity|]. apply sr_nil.
Qed.

(** The slot rule has a gap: [finish] gives up the account's camera slot
    whatever the class of the job that finished, so an account with a settings
    request ahead of its camera request gets a second camera job admitted
    while the first is still queued. *)
Theorem second_camera_job_admitted :
  exists es s, sys_run start es s /\ length (camera_jobs 1000 s) = 2%nat.
Proof.
  eexists _, _. split.
  - eapply sr_cons; [apply (ss_submit false Class.Plain 1000 0%nat); reflexivity|].
    eapply sr_cons; [apply (ss_submit false Class.Camera 1000 1%nat); reflexivity|].
    eapply sr_cons; [apply ss_take; reflexivity|].
    eapply sr_cons; [apply ss_claim; reflexivity|].
    eapply sr_cons; [apply ss_release|].
    eapply sr_cons; [apply ss_finish|].
    eapply sr_cons; [apply (ss_submit false Class.Camera 1000 2%nat); reflexivity|].
    apply sr_nil.
  - vm_compute. reflexivity.
Qed.

(** A login arrives behind a queued preview. *)
Definition login_behind_preview : Sys :=
  MkSys (snd (submit Class.Auth 0 1%nat (snd (submit Class.Camera 1000 0%nat new)))) Idle
    (<[1%nat := Queued]> (<[0%nat := Queued]> ∅)).

Lemma login_behind_preview_run :
  sys_run start [Submitted Class.Camera 1000 0; Submitted Class.Auth 0 1] login_behind_preview.
Proof.
  eapply sr_cons; [apply (ss_submit false); reflexivity|].
  eapply sr_cons; [apply (ss_submit false); reflexivity|]. apply sr_nil.
Qed.

Lemma authentication_first_witness :
  exists s', sys_run login_behind_preview [TookJob (MkJob Class.Auth 0 1%nat)] s'
  /\ take 1 [MkJob Class.Auth 0 1%nat] = auth (queue login_behind_preview).
Proof.
  assert (exists s', sys_run login_behind_preview [TookJob (MkJob Class.Auth 0 1%nat)] s') as [s' Hr].
  { eexists. eapply sr_cons; [apply ss_take; reflexivity|apply sr_nil]. }
  exists s'. split; [exact Hr|]. exact (authentication_first _ _ _ Hr).
Defined.

Lemma camera_waits_for_authentication_witness :
  exists e, admission false Class.Camera 1001 7%nat (queue login_behind_preview)
            = (Err e, queue login_behind_preview).
Proof.
  apply (camera_waits_for_authentication _ _ false 1001 7%nat 0%nat login_behind_preview_run).
  left. discriminate.
Defined.

Lemma camera_slot_never_leaks_witness :
  exists q', admission false Class.Camera 1001 7%nat (queue plain_and_camera) = (Ok (), q').
Proof.
  apply (camera_slot_never_leaks _ _ 1001 7%nat false plain_and_camera_run); [vm_compute; reflexivity|].
  split; [vm_compute; reflexivity|split; [vm_compute; reflexivity|left; reflexivity]].
Defined.

(** A client whose job runs leaves. *)
Lemma cancellation_is_own_witness :
  exists s, phase s = Claimed (MkJob Class.Camera 1000 0%nat)
  /\ cancel_requested (cancel (queue s)) = true /\ links s !! 0%nat = Some Abandoned.
Proof.
  assert (exists es s, sys_run start es s /\ phase s = Claimed (MkJob Class.Camera 1000 0%nat)
    /\ cancel_requested (cancel (queue s)) = true) as (es & s & Hr & Hp & Hc).
  { eexists _, _. split; [|split].
    - eapply sr_cons; [apply (ss_submit false Class.Camera 1000 0%nat); reflexivity|].
      eapply sr_cons; [apply ss_take; reflexivity|].
      eapply sr_cons; [apply ss_claim; reflexivity|].
      eapply sr_cons; [apply (ss_abandon 0%nat); by eexists|]. apply sr_nil.
    - reflexivity.
    - vm_compute. reflexivity. }
  exists s. split; [exact Hp|split; [exact Hc|]].
  exact (proj1 (cancellation_is_own es s Hr) _ Hp Hc).
Defined.

Lemma camera_only_account_holds_one_witness :
  exists s, sys_run start [Submitted Class.Camera 1000 0] s /\ (length (camera_jobs 1000 s) <= 1)%nat.
Proof.
  assert (exists s, sys_run start [Submitted Class.Camera 1000 0] s) as [s Hr].
  { eexists. eapply sr_cons; [apply (ss_submit false); reflexivity|apply sr_nil]. }
  exists s. split; [exact Hr|]. apply (camera_only_account_holds_one 1000 _ _ ltac:(discriminate) Hr).
  intros c id Hin. apply list_elem_of_singleton in Hin. by injection Hin as ->.
Defined.
