(* ===== verification/ConnectionSlots.v ===== *)
(** * Connection slots

    [irlume-daemon/src/connection_slots.rs]: how many connections the daemon
    serves at once and how many of them one account may hold.  The counters
    are one mutex-guarded value, so [take] and the drop of a [Slot] are one
    transition each. *)

From S2P Require Import Prelude.

Definition TOTAL : nat := 64.
Definition ROOT_RESERVED : nat := 16.
Definition PER_ACCOUNT : nat := 12.

Inductive SlotRefusal := PoolFull | AccountFull.

Record Held := MkHeld { all : nat; by_uid : gmap Z nat }.

(** The limits of a [ConnectionSlots]. *)
Record Limits := MkLimits { total : nat; root_reserved : nat; per_account : nat }.

(** [with_limits] and [new]. *)
Definition with_limits (total root_reserved per_account : nat) : Limits * Held :=
  (MkLimits total (Nat.min root_reserved total) per_account, MkHeld 0 ∅).
Definition new_slots : Limits * Held := with_limits TOTAL ROOT_RESERVED PER_ACCOUNT.

(** The account a peer's slot is charged to. *)
Definition slot_account (uid : option Z) : option Z :=
  match uid with Some u => if bool_decide (u = 0) then None else Some u | None => None end.

Definition ceiling (l : Limits) (uid : option Z) : nat :=
  if bool_decide (uid = Some 0) then total l else (total l - root_reserved l)%nat.

(** [ConnectionSlots::take]: on success the account the [Slot] remembers. *)
Definition take_slot (l : Limits) (uid : option Z) (h : Held) : result SlotRefusal (option Z) * Held :=
  if bool_decide (ceiling l uid <= all h)%nat then (Err PoolFull, h) else
  match slot_account uid with
  | Some u =>
      let n := default 0%nat (by_uid h !! u) in
      if bool_decide (per_account l <= n)%nat
      then (Err AccountFull, MkHeld (all h) (<[u := n]> (by_uid h)))
      else (Ok (Some u), MkHeld (S (all h)) (<[u := S n]> (by_uid h)))
  | None => (Ok None, MkHeld (S (all h)) (by_uid h))
  end.

(** [Drop for Slot]. *)
Definition drop_slot (account : option Z) (h : Held) : Held :=
  MkHeld (all h - 1)
    (match account with
     | Some u =>
         match by_uid h !! u with
         | Some n => if bool_decide (n - 1 = 0)%nat then delete u (by_uid h)
                     else <[u := (n - 1)%nat]> (by_uid h)
         | None => by_uid h
         end
     | None => by_uid h
     end).

(** ** The daemon's connections

    The peers whose connections are open, with the counters. *)

Inductive conn_step (l : Limits) : list (option Z) * Held -> list (option Z) * Held -> Prop :=
| conn_open ps h uid a h' :
    take_slot l uid h = (Ok a, h') -> conn_step l (ps, h) (uid :: ps, h')
| conn_refuse ps h uid e h' :
    take_slot l uid h = (Err e, h') -> conn_step l (ps, h) (ps, h')
| conn_close ps1 uid ps2 h :
    conn_step l (ps1 ++ uid :: ps2, h) (ps1 ++ ps2, drop_slot (slot_account uid) h).

Definition holds (u : Z) (ps : list (option Z)) : nat := length (filter (fun p => p = Some u) ps).
Definition unprivileged (ps : list (option Z)) : nat := length (filter (fun p => p <> Some 0) ps).

(** The counters count the open connections, within the limits. *)
Record conns_ok (l : Limits) (s : list (option Z) * Held) : Prop := {
  co_all : all s.2 = length s.1;
  co_uid u : u <> 0 -> default 0%nat (by_uid s.2 !! u) = holds u s.1;
  co_total : (length s.1 <= total l)%nat;
  co_account u : u <> 0 -> (holds u s.1 <= per_account l)%nat;
  co_shared : (unprivileged s.1 <= total l - root_reserved l)%nat;
}.

Lemma holds_cons u p ps : holds u (p :: ps) = ((if decide (p = Some u) then 1 else 0) + holds u ps)%nat.
Proof.
  unfold holds. destruct (decide (p = Some u)).
  - by rewrite list.filter_cons_True.
  - by rewrite list.filter_cons_False.
Qed.

Lemma unprivileged_cons p ps :
  unprivileged (p :: ps) = ((if decide (p = Some 0%Z) then 0 else 1) + unprivileged ps)%nat.
Proof.
  unfold unprivileged. destruct (decide (p = Some 0)).
  - rewrite list.filter_cons_False; auto.
  - by rewrite list.filter_cons_True.
Qed.

Lemma unprivileged_le ps : (unprivileged ps <= length ps)%nat.
Proof. apply list.length_filter. Qed.

Lemma slot_account_Some uid u : slot_account uid = Some u <-> uid = Some u /\ u <> 0.
Proof. destruct uid as [v|]; simpl; [case_bool_decide|]; naive_solver. Qed.

Lemma slot_account_None uid : slot_account uid = None <-> uid = None \/ uid = Some 0.
Proof. destruct uid as [v|]; simpl; [case_bool_decide|]; naive_solver. Qed.

Lemma take_slot_ok l uid h a h' ps :
  take_slot l uid h = (Ok a, h') -> conns_ok l (ps, h) -> conns_ok l (uid :: ps, h').
Proof.
  unfold take_slot. intros Ht [Ha Hu Hto Hac Hsh]. simpl in *.
  case_bool_decide as Hc; [done|]. unfold ceiling in Hc. pose proof (unprivileged_le ps).
  destruct (slot_account uid) as [u|] eqn:Es.
  - apply slot_account_Some in Es as [-> Hne]. rewrite bool_decide_eq_false_2 in Hc by naive_solver.
    case_bool_decide as Hn; simplify_eq. rewrite Hu in * by done.
    split; simpl; try lia.
    + intros v Hv. rewrite holds_cons. destruct (decide (Some u = Some v)) as [[= ->]|Hne'].
      * by rewrite lookup_insert_eq.
      * rewrite lookup_insert_ne by congruence. by rewrite Hu.
    + intros v Hv. rewrite holds_cons. specialize (Hac v Hv).
      destruct (decide (Some u = Some v)) as [[= ->]|]; lia.
    + rewrite unprivileged_cons. destruct (decide _); lia.
  - simplify_eq. apply slot_account_None in Es.
    assert (forall v, v <> 0 -> holds v (uid :: ps) = holds v ps) as Hsame.
    { intros v Hv. rewrite holds_cons. destruct (decide _); naive_solver. }
    case_bool_decide as H0; split; simpl; rewrite ?unprivileged_cons; try lia.
    all: try (intros v Hv; rewrite Hsame by done; auto).
    all: try (destruct (decide _); simplify_eq; lia).
Qed.

Lemma take_slot_refused l uid h e h' ps :
  take_slot l uid h = (Err e, h') -> conns_ok l (ps, h) -> conns_ok l (ps, h').
Proof.
  unfold take_slot. intros Ht [Ha Hu Hto Hac Hsh]. simpl in *.
  case_bool_decide; [by simplify_eq|]. destruct (slot_account uid) as [u|]; [|done].
  case_bool_decide; simplify_eq. split; simpl; try done.
  intros v Hv. destruct (decide (u = v)) as [->|?]; [by rewrite lookup_insert_eq, <- Hu|].
  rewrite lookup_insert_ne by done. auto.
Qed.

Lemma drop_slot_ok l uid h ps1 ps2 :
  conns_ok l (ps1 ++ uid :: ps2, h) -> conns_ok l (ps1 ++ ps2, drop_slot (slot_account uid) h).
Proof.
  intros [Ha Hu Hto Hac Hsh]. simpl in *.
  assert (forall v, holds v (ps1 ++ uid :: ps2) = holds v (uid :: ps1 ++ ps2)) as Hp.
  { intros v. unfold holds. by rewrite (Permutation_middle ps1 ps2 uid). }
  assert (unprivileged (ps1 ++ uid :: ps2) = unprivileged (uid :: ps1 ++ ps2)) as Hq.
  { unfold unprivileged. by rewrite (Permutation_middle ps1 ps2 uid). }
  rewrite Hq, unprivileged_cons in Hsh. rewrite length_app in *. simpl in *.
  split; simpl; rewrite ?length_app; try lia.
  - intros v Hv. specialize (Hu v Hv). rewrite Hp, holds_cons in Hu.
    destruct (slot_account uid) as [u|] eqn:Es.
    + apply slot_account_Some in Es as [-> Hne]. destruct (by_uid h !! u) as [n|] eqn:En.
      * destruct (decide (Some u = Some v)) as [[= ->]|Hne'].
        -- rewrite En in Hu. simpl in Hu. case_bool_decide.
           ++ rewrite lookup_delete_eq. simpl. lia.
           ++ rewrite lookup_insert_eq. simpl. lia.
        -- case_bool_decide; rewrite ?lookup_delete_ne, ?lookup_insert_ne by congruence; lia.
      * destruct (decide (Some u = Some v)) as [[= ->]|]; [|lia]. rewrite En in Hu. simpl in Hu. lia.
    + apply slot_account_None in Es. destruct (decide (uid = Some v)); naive_solver.
  - intros v Hv. specialize (Hac v Hv). rewrite Hp, holds_cons in Hac. lia.
Qed.

Lemma conn_step_ok l s s' : conn_step l s s' -> conns_ok l s -> conns_ok l s'.
Proof. intros []; eauto using take_slot_ok, take_slot_refused, drop_slot_ok. Qed.

Lemma conns_reachable_ok l s :
  rtc (conn_step l) ([], MkHeld 0 ∅) s -> conns_ok l s.
Proof.
  intros Hr. apply (rtc_ind_r (conns_ok l) ([], MkHeld 0 ∅)) in Hr; eauto using conn_step_ok.
  split; simpl; try lia; unfold holds, unprivileged; simpl; try lia; try done.
Qed.

(** The connection limits hold whatever clients do: over any sequence of
    connections opening, being refused and closing, at most [total] are open,
    at most [total - root_reserved] belong to peers other than root, and no
    account but root's holds more than [per_account]; the counters agree with
    the connections that are open, so a closed one is always given back. *)
Theorem connection_limits_hold l s u :
  rtc (conn_step l) ([], MkHeld 0 ∅) s -> u <> 0 ->
  (length s.1 <= total l)%nat /\ (unprivileged s.1 <= total l - root_reserved l)%nat
  /\ (holds u s.1 <= per_account l)%nat
  /\ all s.2 = length s.1 /\ default 0%nat (by_uid s.2 !! u) = holds u s.1.
Proof.
  intros Hok%conns_reachable_ok Hu. pose proof Hok as [Ha Hb Hto Hac Hsh]. split_and!; auto.
Qed.

(** Root is never crowded out: while root holds fewer than its reserved
    slots, a connection from root gets one, whatever the others hold. *)
Theorem root_always_admitted l s :
  rtc (conn_step l) ([], MkHeld 0 ∅) s -> (root_reserved l <= total l)%nat ->
  (holds 0 s.1 < root_reserved l)%nat ->
  exists h', take_slot l (Some 0) s.2 = (Ok None, h').
Proof.
  intros [Ha _ _ _ Hsh]%conns_reachable_ok Hres Hroot.
  assert (length s.1 = holds 0 s.1 + unprivileged s.1)%nat as Hlen.
  { generalize s.1. intros ps. induction ps as [|p ps IH]; [done|].
    rewrite holds_cons, unprivileged_cons. simpl. destruct (decide (p = Some 0)); lia. }
  unfold take_slot, ceiling. rewrite (bool_decide_eq_true_2 (Some 0 = Some 0)) by done.
  rewrite bool_decide_eq_false_2 by lia. simpl. eauto.
Qed.

(** Two connections of one account, as the daemon is configured. *)
Lemma connection_limits_hold_witness :
  exists s, rtc (conn_step (fst new_slots)) ([], MkHeld 0 ∅) s /\ holds 1000 s.1 = 2%nat
  /\ (holds 1000 s.1 <= per_account (fst new_slots))%nat.
Proof.
  assert (exists s, rtc (conn_step (fst new_slots)) ([], MkHeld 0 ∅) s /\ holds 1000 s.1 = 2%nat)
    as (s & Hr & Hn).
  { eexists. split.
    - eapply rtc_l; [eapply (conn_open _ [] _ (Some 1000)); reflexivity|].
      eapply rtc_l; [eapply (conn_open _ [Some 1000] _ (Some 1000)); reflexivity|apply rtc_refl].
    - vm_compute. reflexivity. }
  exists s. split; [exact Hr|split; [exact Hn|]].
  apply (connection_limits_hold (fst new_slots) s 1000 Hr). discriminate.
Defined.

Lemma root_always_admitted_witness :
  exists h', take_slot (fst new_slots) (Some 0) (MkHeld 0 ∅) = (Ok None, h').
Proof.
  apply (root_always_admitted (fst new_slots) ([], MkHeld 0 ∅)); [apply rtc_refl|vm_compute; lia|vm_compute; lia].
Defined.
