(* ===== verification/EventLog.v ===== *)
(** * The firmware event log

    [irlume-common/src/event_log.rs]: the crypto-agile TCG log, its parser, the
    replay of its digests, what PCR 7 recorded, and [verified_pcr7], which
    trusts that account only when it explains the value the TPM holds.

    SHA-256 is the [sha2] crate's and is a parameter. *)

From S2P Require Import Prelude Text.

Abbreviation bytes := (list byte).

Definition EV_NO_ACTION : Z := 0x00000003.
Definition EV_SEPARATOR : Z := 0x00000004.
Definition EV_EFI_VARIABLE_DRIVER_CONFIG : Z := 0x80000001.
Definition EV_EFI_BOOT_SERVICES_APPLICATION : Z := 0x80000003.
Definition EV_EFI_BOOT_SERVICES_DRIVER : Z := 0x80000004.
Definition EV_EFI_RUNTIME_SERVICES_DRIVER : Z := 0x80000005.
Definition EV_EFI_ACTION : Z := 0x80000007.
Definition EV_EFI_VARIABLE_AUTHORITY : Z := 0x800000e0.
Definition TPM_ALG_SHA256 : Z := 0x000b.

(** A GUID as UEFI stores it. *)
Definition guid (a b c : Z) (d : list Z) : bytes :=
  to_le 4 a ++ to_le 2 b ++ to_le 2 c ++ map byte_of d.

Definition EFI_GLOBAL_VARIABLE : bytes :=
  guid 0x8be4df61 0x93ca 0x11d2 [0xaa; 0x0d; 0x00; 0xe0; 0x98; 0x03; 0x2b; 0x8c].
Definition EFI_IMAGE_SECURITY_DATABASE : bytes :=
  guid 0xd719b2cb 0x3d3a 0x4596 [0xa3; 0xbc; 0xda; 0xd0; 0x0e; 0x67; 0x65; 0x6f].
Definition SHIM_LOCK : bytes :=
  guid 0x605dab50 0xe046 0x4300 [0xab; 0xb6; 0x3d; 0xd8; 0x10; 0xdd; 0x8b; 0x23].

Definition MAX_ALGORITHMS : Z := 64.
Definition MAX_OTHER_KINDS : nat := 8.
Definition SPEC_ID_EVENT03 : bytes := String.list_byte_of_string "Spec ID Event03" ++ [x00].
Definition MAX_EVENTS : nat := Z.to_nat 100000.

Record Event := MkEvent {
  ev_pcr : Z;
  ev_kind : Z;
  ev_sha256 : option bytes;
  ev_data : bytes;
}.

(** ** Parsing *)

(** The algorithms the header declares: each once. *)
Fixpoint algorithms (n : nat) (sizes : list (Z * Z)) : dec (list (Z * Z)) :=
  match n with
  | O => mret sizes
  | S n =>
      id ← get_u 2;
      size ← get_u 2;
      if bool_decide (id ∈ sizes.*1) then fail else
      algorithms n (sizes ++ [(id, size)])
  end.

(** The Spec ID event data: the declared algorithms with their digest sizes. *)
Definition spec_id : dec (list (Z * Z)) :=
  sig ← get 16;
  expect (bool_decide (sig = SPEC_ID_EVENT03));;
  get 4;;
  version ← get 4;
  expect (match version with
          | [_; major; _; uintn] =>
              negb (bool_decide (byte_val major < 2))
              && (bool_decide (byte_val uintn = 1) || bool_decide (byte_val uintn = 2))
          | _ => false
          end);;
  count ← get_u 4;
  expect (negb (bool_decide (count = 0) || bool_decide (MAX_ALGORITHMS < count)));;
  sizes ← algorithms (Z.to_nat count) [];
  vendor_info ← get_u 1;
  get_z vendor_info;;
  mret sizes.

(** The header event, up to the first event of the log. *)
Definition header : dec (list (Z * Z)) :=
  pcr ← get_u 4;
  kind ← get_u 4;
  digest ← get 20;
  size ← get_u 4;
  spec ← get_z size;
  expect (bool_decide (pcr = 0) && bool_decide (kind = EV_NO_ACTION)
          && forallb (fun b => bool_decide (b = x00)) digest);;
  match whole spec_id spec with
  | Some sizes => mret sizes
  | None => fail
  end.

(** [Iterator::position] of an algorithm. *)
Fixpoint position (a : Z) (sizes : list (Z * Z)) : option nat :=
  match sizes with
  | [] => None
  | (id, _) :: sizes =>
      if bool_decide (id = a) then Some 0%nat
      else match position a sizes with Some i => Some (S i) | None => None end
  end.

(** The digests of one event: [seen] is the 64-bit mask of the algorithms read
    so far, [sha256] the SHA-256 digest found. *)
Fixpoint digests (n : nat) (sizes : list (Z * Z)) (seen : Z) (sha256 : option bytes)
    : dec (option bytes) :=
  match n with
  | O => mret sha256
  | S n =>
      algorithm ← get_u 2;
      match position algorithm sizes with
      | None => fail
      | Some index =>
          let bit := Z.shiftl 1 (Z.of_nat index) in
          if negb (bool_decide (Z.land seen bit = 0)) then fail else
          let size := default 0 (snd <$> sizes !! index) in
          digest ← get_z size;
          digests n sizes (Z.lor seen bit)
            (if bool_decide (algorithm = TPM_ALG_SHA256) && bool_decide (size = 32)
             then Some digest else sha256)
      end
  end.

(** [event2]. *)
Definition event2 (sizes : list (Z * Z)) : dec Event :=
  pcr ← get_u 4;
  kind ← get_u 4;
  count ← get_u 4;
  expect (bool_decide (count = Z.of_nat (length sizes)));;
  sha256 ← digests (Z.to_nat count) sizes 0 None;
  size ← get_u 4;
  data ← get_z size;
  mret (MkEvent pcr kind sha256 data).

(** The loop of [events]: [fuel] is the number of events that may still be
    read, so running out of it is the code's own limit. *)
Fixpoint event_loop (fuel : nat) (sizes : list (Z * Z)) (r : bytes) : list Event * bool :=
  match r, fuel with
  | [], _ => ([], true)
  | _ :: _, O => ([], false)
  | _ :: _, S fuel =>
      match event2 sizes r with
      | None => ([], false)
      | Some (e, r) => let '(es, complete) := event_loop fuel sizes r in (e :: es, complete)
      end
  end.

(** [events]. *)
Definition events (log : bytes) : option (list Event * bool) :=
  match header log with
  | Some (sizes, r) => Some (event_loop MAX_EVENTS sizes r)
  | None => None
  end.

(** ** Variables *)

(** [String::from_utf16], as UTF-8. *)
Definition utf8 (c : Z) : list Z :=
  if bool_decide (c < 0x80) then [c]
  else if bool_decide (c < 0x800) then [0xC0 + c / 64; 0x80 + c mod 64]
  else if bool_decide (c < 0x10000) then [0xE0 + c / 4096; 0x80 + c / 64 mod 64; 0x80 + c mod 64]
  else [0xF0 + c / 262144; 0x80 + c / 4096 mod 64; 0x80 + c / 64 mod 64; 0x80 + c mod 64].

Fixpoint from_utf16 (l : list Z) : option (list Z) :=
  match l with
  | [] => Some []
  | u :: l =>
      if bool_decide (0xD800 <= u <= 0xDBFF) then
        match l with
        | v :: l =>
            if bool_decide (0xDC00 <= v <= 0xDFFF)
            then rest ← from_utf16 l;
                 Some (utf8 (0x10000 + (u - 0xD800) * 1024 + (v - 0xDC00)) ++ rest)
            else None
        | [] => None
        end
      else if bool_decide (0xDC00 <= u <= 0xDFFF) then None
      else rest ← from_utf16 l; Some (utf8 u ++ rest)
  end.

(** [chunks_exact(2)] as little-endian units. *)
Fixpoint units (l : bytes) : list Z :=
  match l with a :: b :: l => from_le [a; b] :: units l | _ => [] end.

(** [variable]. *)
Definition variable (data : bytes) : option (bytes * string * bytes) :=
  whole (g ← get 16;
         name_len ← get_u 8;
         data_len ← get_u 8;
         twice ← (match checked_mul 64 name_len 2 with Some n => mret n | None => fail end);
         name ← get_z twice;
         value ← get_z data_len;
         match from_utf16 (units name) with
         | Some text => mret (g, codes_str text, value)
         | None => fail
         end) data.

(** ** PCR 7 *)

Record Authority := MkAuthority { au_guid : bytes; au_variable : string; au_data : bytes }.

(** [Authority::verifies_images]. *)
Definition verifies_images (a : Authority) : bool :=
  if bool_decide (au_variable a ∈ ["db"; "vendor_db"])
  then bool_decide (au_guid a = EFI_IMAGE_SECURITY_DATABASE) && bool_decide (16 < length (au_data a))%nat
  else if bool_decide (au_variable a = "MokListRT")
  then bool_decide (au_guid a = SHIM_LOCK) && bool_decide (16 < length (au_data a))%nat
  else if bool_decide (au_variable a = "Shim")
  then bool_decide (au_guid a = SHIM_LOCK) && negb (bool_decide (length (au_data a) = 0%nat))
  else false.

(** [Authority::disables_validation]. *)
Definition disables_validation (a : Authority) : bool :=
  bool_decide (au_variable a = "MokSBState") && bool_decide (au_guid a = SHIM_LOCK).

Record Setting := MkSetting { se_guid : bytes; se_name : string; se_data : bool }.

Record Pcr7 := MkPcr7 {
  secure_boot : option bool;
  configuration : list Setting;
  leading_configuration : nat;
  authorities : list Authority;
  actions : list string;
  separator_errors : nat;
  extraneous : nat;
  other : nat;
  other_kinds : list Z;
  unverified : nat;
  malformed : nat;
}.

Definition pcr7_default : Pcr7 := MkPcr7 None [] 0 [] [] 0 0 0 [] 0 0.

(** [String::from_utf8_lossy]. *)
Definition from_utf8_lossy (b : bytes) : string :=
  codes_str (lossy (map byte_val b)).

(** The text of an action, without the NULs some firmware ends it with. *)
Fixpoint drop_nuls (l : bytes) : bytes :=
  match l with x00 :: l => drop_nuls l | l => l end.
Definition action_text (data : bytes) : string := from_utf8_lossy (reverse (drop_nuls (reverse data))).

(** The [sha2] crate. *)
Class Hash := { sha256_digest : bytes -> bytes }.
Class HashOk `{Hash} : Prop := { sha256_length b : length (sha256_digest b) = 32%nat }.

Definition one_le : bytes := to_le 4 1.

Section Pcr7.
Context `{Hash}.

(** The events a PCR is extended with. *)
Definition extends (pcr : Z) (e : Event) : bool :=
  bool_decide (ev_pcr e = pcr) && negb (bool_decide (ev_kind e = EV_NO_ACTION)).
Definition events_of (pcr : Z) (es : list Event) : list Event := List.filter (extends pcr) es.

Fixpoint extend_all (value : bytes) (es : list Event) : option bytes :=
  match es with
  | [] => Some value
  | e :: es => d ← ev_sha256 e; extend_all (sha256_digest (value ++ d)) es
  end.

(** [replay]. *)
Definition replay (es : list Event) (pcr : Z) : option bytes :=
  extend_all (repeat x00 32) (events_of pcr es).

Definition error_separator (e : Event) : bool :=
  bool_decide (ev_kind e = EV_SEPARATOR) && bool_decide (ev_sha256 e = Some (sha256_digest one_le)).

(** The kinds whose data is read. *)
Definition is_read (k : Z) : bool :=
  bool_decide (k ∈ [EV_EFI_VARIABLE_DRIVER_CONFIG; EV_SEPARATOR; EV_EFI_VARIABLE_AUTHORITY; EV_EFI_ACTION]).

(** An event read here whose data does not hash to its digest. *)
Definition is_unverified (e : Event) : bool :=
  is_read (ev_kind e) && negb (error_separator e)
  && negb (bool_decide (ev_sha256 e = Some (sha256_digest (ev_data e)))).

(** The body of the loop of [pcr7]: [leading] is still true when this event
    counts as leading configuration. *)
Definition pcr7_event (leading : bool) (e : Event) (o : Pcr7) : Pcr7 :=
  let lead := if leading then S (leading_configuration o) else leading_configuration o in
  let unv := if is_unverified e then S (unverified o) else unverified o in
  let out sb conf auths acts seps ext oth kinds mal :=
    MkPcr7 sb conf lead auths acts seps ext oth kinds unv mal in
  let k := ev_kind e in
  if bool_decide (k = EV_EFI_VARIABLE_DRIVER_CONFIG) then
    match variable (ev_data e) with
    | Some (g, name, data) =>
        let named := bool_decide (name = "SecureBoot") && bool_decide (g = EFI_GLOBAL_VARIABLE) in
        let sb := match data with [] | [x00] => Some (Some false) | [x01] => Some (Some true) | _ => None end in
        out (if named then match sb with Some v => v | None => secure_boot o end else secure_boot o)
          (configuration o ++ [MkSetting g name (existsb (fun b => negb (bool_decide (b = x00))) data)])
          (authorities o) (actions o) (separator_errors o) (extraneous o) (other o) (other_kinds o)
          (if named && bool_decide (sb = None) then S (malformed o) else malformed o)
    | None =>
        out (secure_boot o) (configuration o) (authorities o) (actions o) (separator_errors o)
          (extraneous o) (other o) (other_kinds o) (S (malformed o))
    end
  else if bool_decide (k = EV_EFI_VARIABLE_AUTHORITY) then
    match variable (ev_data e) with
    | Some (g, name, data) =>
        out (secure_boot o) (configuration o) (authorities o ++ [MkAuthority g name data]) (actions o)
          (separator_errors o) (extraneous o) (other o) (other_kinds o) (malformed o)
    | None =>
        out (secure_boot o) (configuration o) (authorities o) (actions o) (separator_errors o)
          (extraneous o) (other o) (other_kinds o) (S (malformed o))
    end
  else if bool_decide (k = EV_EFI_ACTION) then
    out (secure_boot o) (configuration o) (authorities o) (actions o ++ [action_text (ev_data e)])
      (separator_errors o) (extraneous o) (other o) (other_kinds o) (malformed o)
  else if bool_decide (k = EV_SEPARATOR) then
    if error_separator e then
      out (secure_boot o) (configuration o) (authorities o) (actions o) (S (separator_errors o))
        (extraneous o) (other o) (other_kinds o) (malformed o)
    else
      out (secure_boot o) (configuration o) (authorities o) (actions o) (separator_errors o)
        (extraneous o) (other o) (other_kinds o)
        (if bool_decide (ev_data e ∈ [[x00; x00; x00; x00]; [xff; xff; xff; xff]])
         then malformed o else S (malformed o))
  else if bool_decide (k ∈ [EV_EFI_BOOT_SERVICES_APPLICATION; EV_EFI_BOOT_SERVICES_DRIVER;
                            EV_EFI_RUNTIME_SERVICES_DRIVER]) then
    out (secure_boot o) (configuration o) (authorities o) (actions o) (separator_errors o)
      (S (extraneous o)) (other o) (other_kinds o) (malformed o)
  else
    out (secure_boot o) (configuration o) (authorities o) (actions o) (separator_errors o)
      (extraneous o) (S (other o))
      (if bool_decide (length (other_kinds o) < MAX_OTHER_KINDS)%nat && negb (bool_decide (k ∈ other_kinds o))
       then other_kinds o ++ [k] else other_kinds o)
      (malformed o).

Fixpoint pcr7_loop (leading : bool) (es : list Event) (o : Pcr7) : Pcr7 :=
  match es with
  | [] => o
  | e :: es =>
      let leading := leading && bool_decide (ev_kind e = EV_EFI_VARIABLE_DRIVER_CONFIG) in
      pcr7_loop leading es (pcr7_event leading e o)
  end.

(** [pcr7]. *)
Definition pcr7 (es : list Event) : Pcr7 := pcr7_loop true (events_of 7 es) pcr7_default.

Inductive Untrusted :=
| NotCryptoAgile | Incomplete | NoSha256 | Replay | Payload (n : nat) | Malformed (n : nat).

(** [verified_pcr7]. *)
Definition verified_pcr7 (log value : bytes) : result Untrusted Pcr7 :=
  parsed ← ok_or NotCryptoAgile (events log);
  let '(es, complete) := parsed : list Event * bool in
  if negb complete then Err Incomplete else
  replayed ← ok_or NoSha256 (replay es 7);
  if negb (bool_decide (replayed = value)) then Err Replay else
  let p := pcr7 es in
  if bool_decide (0 < unverified p)%nat then Err (Payload (unverified p)) else
  if bool_decide (0 < malformed p)%nat then Err (Malformed (malformed p)) else
  Ok p.
End Pcr7.

(** [authority_certificate]. *)
Definition authority_certificate (a : Authority) : option bytes :=
  if bool_decide (16 <= length (au_data a))%nat then
    match drop 16 (au_data a) with [] => None | c => Some c end
  else None.

(** [u8::from_str_radix(_, 16)] on two bytes of text: an optional [+], then
    hex digits. *)
Definition hex_digit (c : Z) : option Z :=
  if bool_decide (48 <= c <= 57) then Some (c - 48)
  else if bool_decide (97 <= c <= 102) then Some (c - 87)
  else if bool_decide (65 <= c <= 70) then Some (c - 55)
  else None.

Definition hex_byte (a b : Z) : option byte :=
  if bool_decide (a = 43) then d ← hex_digit b; Some (byte_of d)
  else h ← hex_digit a; d ← hex_digit b; Some (byte_of (16 * h + d)).

Fixpoint hex_pairs (l : list Z) : option bytes :=
  match l with
  | [] => Some []
  | a :: b :: l => x ← hex_byte a b; xs ← hex_pairs l; Some (x :: xs)
  | [_] => None
  end.

(** [pcr_value]. *)
Definition pcr_value (text : string) : option bytes :=
  let l := str_codes (trim text) in
  if negb (bool_decide (length l = 64%nat)) || negb (forallb (fun c => bool_decide (c < 128)) l)
  then None else hex_pairs l.
