(* ===== verification/EventLogTheory.v ===== *)
(** * What the event log reader guarantees

    The parser's bounds, its agreement with the format it reads, and what a
    verified account of PCR 7 rests on. *)

From S2P Require Import Prelude EventLog.

#[local] Opaque to_le.

(** ** Bounds *)

(** [d] consumes at least what [f] says of its result. *)
Definition spends {A} (d : dec A) (f : A -> nat) : Prop :=
  forall b a rest, d b = Some (a, rest) -> (f a + length rest <= length b)%nat.

Lemma spends_bind {A B} (d : dec A) (k : A -> dec B) f g h :
  spends d f -> (forall a, spends (k a) (g a)) -> (forall a b, h b <= f a + g a b)%nat ->
  spends (mbind k d) h.
Proof.
  intros Hd Hk Hh b x rest. unfold mbind, dec_bind. destruct (d b) as [[a b']|] eqn:E; [|done].
  intros Hx. apply Hd in E. apply Hk in Hx. specialize (Hh a x). lia.
Qed.

Lemma spends_weaken {A} (d : dec A) f g : spends d f -> (forall a, g a <= f a)%nat -> spends d g.
Proof. intros Hd Hg b a rest E. apply Hd in E. specialize (Hg a). lia. Qed.

Lemma spends_ret {A} (a : A) : spends (mret a) (fun _ => 0%nat).
Proof. intros b x rest [= _ <-]. lia. Qed.

Lemma spends_fail {A} f : spends (@fail A) f.
Proof. done. Qed.

Lemma spends_expect c : spends (expect c) (fun _ => 0%nat).
Proof. intros b x rest. unfold expect. destruct c; [intros [= _ <-]; lia|done]. Qed.

Lemma spends_get n : spends (get n) (fun _ => n).
Proof.
  intros b x rest. unfold get. case_bool_decide; [|done]. intros [= _ <-]. rewrite length_drop. lia.
Qed.

Lemma spends_u n : spends (get_u n) (fun _ => n).
Proof. eapply spends_bind; [apply spends_get|intros; apply spends_ret|simpl; lia]. Qed.

Lemma spends_get_z n : spends (get_z n) length.
Proof.
  intros b x rest. unfold get_z. case_bool_decide; [|done]. intros [= <- <-].
  rewrite length_take, length_drop. lia.
Qed.

Lemma spends_digests n sizes seen sha : spends (digests n sizes seen sha) (fun _ => 0%nat).
Proof.
  revert seen sha; induction n as [|n IH]; intros seen sha; simpl; [apply spends_ret|].
  eapply spends_bind; [apply spends_u| |].
  - intros a. instantiate (1 := fun _ _ => 0%nat). simpl.
    destruct (position a sizes); [|apply spends_fail].
    destruct (negb _); [apply spends_fail|].
    eapply spends_bind; [apply spends_get_z|intros; apply IH|simpl; lia].
  - simpl. lia.
Qed.

(** An event takes at least its 16 bytes of fixed fields and its data. *)
Lemma spends_event2 sizes : spends (event2 sizes) (fun e => 16 + length (ev_data e))%nat.
Proof.
  unfold event2. eapply spends_bind with (g := fun _ e => (12 + length (ev_data e))%nat); [apply spends_u| |simpl; lia].
  intros pcr. eapply spends_bind with (g := fun _ e => (8 + length (ev_data e))%nat); [apply spends_u| |simpl; lia].
  intros kind. eapply spends_bind with (g := fun _ e => (4 + length (ev_data e))%nat); [apply spends_u| |simpl; lia].
  intros count. eapply spends_bind with (g := fun _ e => (4 + length (ev_data e))%nat); [apply spends_expect| |simpl; lia].
  intros _. eapply spends_bind with (g := fun _ e => (4 + length (ev_data e))%nat); [apply spends_digests| |simpl; lia].
  intros sha. eapply spends_bind with (g := fun _ e => length (ev_data e)); [apply spends_u| |simpl; lia].
  intros size b e rest. unfold mbind, dec_bind. destruct (get_z size b) as [[d b']|] eqn:E; [|done].
  intros [= <- <-]. simpl. by apply spends_get_z in E.
Qed.

(** The bytes the events of a list take up at least. *)
Definition footprint (es : list Event) : nat :=
  sum_list_with (fun e => (16 + length (ev_data e))%nat) es.

Lemma event_loop_bounds fuel sizes r es c :
  event_loop fuel sizes r = (es, c) -> (length es <= fuel)%nat /\ (footprint es <= length r)%nat.
Proof.
  revert r es c; induction fuel as [|fuel IH]; intros r es c; destruct r as [|b r]; simpl event_loop.
  1-3: intros [= <- <-]; simpl; lia.
  destruct (event2 sizes (b :: r)) as [[e r']|] eqn:E; [|intros [= <- <-]; simpl; lia].
  destruct (event_loop fuel sizes r') as [es' c'] eqn:El. intros [= <- <-].
  apply IH in El as [??]. apply spends_event2 in E. unfold footprint in *. simpl in *. lia.
Qed.

Lemma spends_any {A} (d : dec A) f : spends d f -> spends d (fun _ => 0%nat).
Proof. intros Hd. eapply spends_weaken; [done|lia]. Qed.

Lemma spends_header : spends header (fun _ => 32%nat).
Proof.
  unfold header. eapply spends_bind with (g := fun _ _ => 28%nat); [apply spends_u| |simpl; lia].
  intros pcr. eapply spends_bind with (g := fun _ _ => 24%nat); [apply spends_u| |simpl; lia].
  intros kind. eapply spends_bind with (g := fun _ _ => 4%nat); [apply spends_get| |simpl; lia].
  intros digest. eapply spends_bind with (g := fun _ _ => 0%nat); [apply spends_u| |simpl; lia].
  intros size. eapply spends_bind with (g := fun _ _ => 0%nat); [apply spends_get_z| |simpl; lia].
  intros spec. eapply spends_bind with (g := fun _ _ => 0%nat); [apply spends_expect| |simpl; lia].
  intros _. destruct (whole spec_id spec); [apply spends_ret|apply spends_fail].
Qed.

(** ** The digest chain *)

Section Chain.
Context `{Hash, !HashOk}.

Definition extend (v d : bytes) : bytes := sha256_digest (v ++ d).
Definition zero_pcr : bytes := repeat x00 32.

(** A SHA-256 collision, or an input that hashes to zero. *)
Definition sha256_broken : Prop :=
  (exists x y, x <> y /\ sha256_digest x = sha256_digest y) \/ (exists x, sha256_digest x = zero_pcr).

Lemma extend_all_digests v es w :
  extend_all v es = Some w <-> exists ds, Forall2 (fun e d => ev_sha256 e = Some d) es ds /\ foldl extend v ds = w.
Proof.
  revert v; induction es as [|e es IH]; intros v; simpl.
  - split; [intros [= <-]; exists []; by split; [constructor|]|].
    intros (ds & Hf & <-). by inversion Hf.
  - rewrite bind_Some. split.
    + intros (d & Hd & (ds & Hf & <-)%IH). exists (d :: ds). by split; [constructor|].
    + intros (ds & Hf & <-). inversion Hf as [|? d ? ds' Hd Hf']. subst. exists d. split; [done|].
      apply IH. by exists ds'.
Qed.

Lemma foldl_extend_length ds : length (foldl extend zero_pcr ds) = 32%nat.
Proof.
  induction ds as [|d ds _] using rev_ind; [done|].
  rewrite foldl_snoc. apply sha256_length.
Qed.

Lemma chain_binding ds ds' :
  foldl extend zero_pcr ds = foldl extend zero_pcr ds' -> ds = ds' \/ sha256_broken.
Proof.
  revert ds'; induction ds as [|d ds IH] using rev_ind; intros ds' Heq.
  - destruct ds' as [|d' ds' _] using rev_ind; [by left|]. right. right.
    rewrite foldl_snoc in Heq. by eexists.
  - destruct ds' as [|d' ds' _] using rev_ind.
    { right. right. rewrite foldl_snoc in Heq. by eexists. }
    rewrite !foldl_snoc in Heq. unfold extend at 1 3 in Heq.
    destruct (decide (foldl extend zero_pcr ds ++ d = foldl extend zero_pcr ds' ++ d')) as [E|Hne].
    + apply app_inj_1 in E as [E ->]; [|by rewrite !foldl_extend_length].
      destruct (IH ds' E) as [->|?]; auto.
    + right. left. eauto.
Qed.
End Chain.

(** ** Counting *)

Section Counting.
Context `{Hash}.

Lemma pcr7_event_unverified lead e o :
  unverified (pcr7_event lead e o) = ((if is_unverified e then 1 else 0) + unverified o)%nat.
Proof.
  unfold pcr7_event. destruct (is_unverified e);
    repeat (case_bool_decide; simpl; [try done; repeat case_match; done|]); done.
Qed.

Lemma pcr7_loop_unverified lead es o :
  unverified (pcr7_loop lead es o) = (length (List.filter is_unverified es) + unverified o)%nat.
Proof.
  revert lead o; induction es as [|e es IH]; intros lead o; simpl; [done|].
  rewrite IH, pcr7_event_unverified. destruct (is_unverified e); simpl; lia.
Qed.

Lemma pcr7_verified es e :
  unverified (pcr7 es) = 0%nat -> e ∈ events_of 7 es -> is_read (ev_kind e) = true ->
  error_separator e = true \/ ev_sha256 e = Some (sha256_digest (ev_data e)).
Proof.
  unfold pcr7. rewrite pcr7_loop_unverified. simpl. intros Hn Hin Hr.
  destruct (is_unverified e) eqn:Eu.
  - apply list_elem_of_In in Hin.
    assert (In e (List.filter is_unverified (events_of 7 es))) as Hf by (by apply List.filter_In).
    destruct (List.filter is_unverified (events_of 7 es)); simpl in *; [done|lia].
  - unfold is_unverified in Eu. rewrite Hr in Eu. simpl in Eu.
    destruct (error_separator e); [by left|]. simpl in Eu. reflect_bools. auto.
Qed.
End Counting.

(** ** The format *)

(** The digests of an event, one per declared algorithm in header order. *)
Fixpoint put_digests (sizes : list (Z * Z)) (ds : list bytes) : bytes :=
  match sizes, ds with
  | (id, _) :: sizes, d :: ds => to_le 2 id ++ d ++ put_digests sizes ds
  | _, _ => []
  end.

Definition put_event (sizes : list (Z * Z)) (pcr kind : Z) (ds : list bytes) (data : bytes) : bytes :=
  to_le 4 pcr ++ to_le 4 kind ++ to_le 4 (Z.of_nat (length sizes)) ++ put_digests sizes ds
  ++ to_le 4 (Z.of_nat (length data)) ++ data.

(** The SHA-256 digest among them. *)
Fixpoint sha_of (sizes : list (Z * Z)) (ds : list bytes) (found : option bytes) : option bytes :=
  match sizes, ds with
  | (id, size) :: sizes, d :: ds =>
      sha_of sizes ds (if bool_decide (id = TPM_ALG_SHA256) && bool_decide (size = 32) then Some d else found)
  | _, _ => found
  end.

Definition put_algorithms (sizes : list (Z * Z)) : bytes :=
  concat (map (fun s => to_le 2 s.1 ++ to_le 2 s.2) sizes).

(** Spec ID event data: platform class, version, algorithms, vendor info. *)
Definition put_spec (platform errata minor : byte) (sizes : list (Z * Z)) (vendor : bytes) : bytes :=
  SPEC_ID_EVENT03 ++ [platform; x00; x00; x00] ++ [minor; x02; errata; x02]
  ++ to_le 4 (Z.of_nat (length sizes)) ++ put_algorithms sizes
  ++ to_le 1 (Z.of_nat (length vendor)) ++ vendor.

Definition put_header (spec : bytes) : bytes :=
  to_le 4 0 ++ to_le 4 EV_NO_ACTION ++ repeat x00 20 ++ to_le 4 (Z.of_nat (length spec)) ++ spec.

(** The algorithms a header may declare. *)
Record sizes_ok (sizes : list (Z * Z)) : Prop := {
  so_some : sizes <> [];
  so_count : (length sizes <= 64)%nat;
  so_nodup : NoDup sizes.*1;
  so_range : Forall (fun s => 0 <= s.1 < 65536 /\ 0 <= s.2 < 65536) sizes;
}.

Lemma position_app pre id size post :
  id ∉ pre.*1 -> position id (pre ++ (id, size) :: post) = Some (length pre).
Proof.
  induction pre as [|[i s] pre IH]; simpl; intros Hn.
  - by rewrite bool_decide_eq_true_2.
  - apply not_elem_of_cons in Hn as [? Hn]. rewrite bool_decide_eq_false_2 by congruence. by rewrite IH.
Qed.

Lemma ones_land_bit n : Z.land (Z.ones (Z.of_nat n)) (Z.shiftl 1 (Z.of_nat n)) = 0.
Proof.
  rewrite Z.shiftl_1_l. apply Z.bits_inj'. intros i Hi. rewrite Z.land_spec, Z.bits_0.
  destruct (decide (i < Z.of_nat n)) as [Hlt|Hge].
  - rewrite Z.pow2_bits_false by lia. by rewrite andb_false_r.
  - by rewrite Z.ones_spec_high by lia.
Qed.

Lemma ones_lor_bit n :
  Z.lor (Z.ones (Z.of_nat n)) (Z.shiftl 1 (Z.of_nat n)) = Z.ones (Z.of_nat (S n)).
Proof.
  rewrite Z.shiftl_1_l. apply Z.bits_inj'. intros i Hi.
  rewrite Z.lor_spec, Z.pow2_bits_eqb, !Z.testbit_ones by lia.
  destruct (Z.leb_spec 0 i), (Z.ltb_spec i (Z.of_nat n)), (Z.ltb_spec i (Z.of_nat (S n))),
    (Z.eqb_spec (Z.of_nat n) i); simpl; try done; lia.
Qed.

Lemma reads_digests pre post ds found :
  sizes_ok (pre ++ post) -> Forall2 (fun s d => Z.of_nat (length d) = s.2) post ds ->
  reads (digests (length post) (pre ++ post) (Z.ones (Z.of_nat (length pre))) found)
    (put_digests post ds) (sha_of post ds found).
Proof.
  revert pre ds found; induction post as [|[id size] post IH]; intros pre ds found Hok Hds;
    inversion Hds as [|? d ? ds' Hd Hds']; subst; simpl.
  - apply reads_ret.
  - pose proof Hok as [_ _ Hnd Hr]. rewrite fmap_app in Hnd. apply list.NoDup_app in Hnd as (_ & Hdis & _).
    apply Forall_app in Hr as [_ Hr]. inversion_clear Hr as [|? ? [Hid _] _]. simpl in *.
    eapply reads_bind; [by apply reads_u|].
    rewrite position_app by (intros Hin; apply (Hdis id Hin); by left).
    rewrite ones_land_bit, bool_decide_eq_true_2 by done. simpl.
    rewrite list_lookup_middle by done. simpl. rewrite <- Hd.
    eapply reads_bind; [apply reads_get_z|]. rewrite ones_lor_bit, Hd.
    specialize (IH (pre ++ [(id, size)]) ds'). rewrite <- app_assoc, length_app in IH.
    rewrite Nat.add_1_r in IH. by apply IH.
Qed.

Lemma reads_event2 sizes pcr kind ds data :
  sizes_ok sizes -> u32 pcr -> u32 kind -> Z.of_nat (length data) < 2 ^ 32 ->
  Forall2 (fun s d => Z.of_nat (length d) = s.2) sizes ds ->
  reads (event2 sizes) (put_event sizes pcr kind ds data)
    (MkEvent pcr kind (sha_of sizes ds None) data).
Proof.
  intros Hok Hp Hk Hd Hds. pose proof (so_count _ Hok). unfold event2, put_event.
  do 2 (eapply reads_bind; [by apply reads_u|]).
  eapply reads_bind; [apply reads_u; lia|].
  change (put_digests sizes ds ++ ?x) with ([] ++ put_digests sizes ds ++ x).
  eapply reads_bind; [by apply reads_expect, bool_decide_eq_true_2|].
  rewrite Nat2Z.id.
  eapply reads_bind; [by apply (reads_digests [] sizes ds None)|].
  eapply reads_bind; [apply reads_u; lia|].
  apply (reads_map _ (MkEvent pcr kind (sha_of sizes ds None))), reads_get_z.
Qed.

Lemma reads_algorithms pre post :
  sizes_ok (pre ++ post) -> reads (algorithms (length post) pre) (put_algorithms post) (pre ++ post).
Proof.
  revert pre; induction post as [|[id size] post IH]; intros pre Hok; simpl.
  - rewrite app_nil_r. apply reads_ret.
  - pose proof Hok as [_ _ Hnd Hr]. rewrite fmap_app in Hnd. apply list.NoDup_app in Hnd as (_ & Hdis & _).
    apply Forall_app in Hr as [_ Hr]. inversion_clear Hr as [|? ? [Hid Hsz] _]. simpl in *.
    unfold put_algorithms. simpl. rewrite <- app_assoc.
    do 2 (eapply reads_bind; [by apply reads_u|]).
    rewrite bool_decide_eq_false_2 by (intros Hin; apply (Hdis id Hin); by left).
    specialize (IH (pre ++ [(id, size)])). rewrite <- app_assoc in IH. by apply IH.
Qed.

Lemma whole_reads {A} (d : dec A) b a : reads d b a -> whole d b = Some a.
Proof. intros Hr. unfold whole. specialize (Hr []). rewrite app_nil_r in Hr. by rewrite Hr. Qed.

Lemma reads_skip {A B} (d : dec A) (k : dec B) b b' a x :
  reads d b a -> reads k b' x -> reads (d ≫= fun _ => k) (b ++ b') x.
Proof. intros Hd Hk. eapply reads_bind; [exact Hd|done]. Qed.

Lemma reads_expect_then {B} (c : bool) (k : dec B) b x :
  c = true -> reads k b x -> reads (expect c ≫= fun _ => k) b x.
Proof. intros Hc Hk. rewrite <- (app_nil_l b). by eapply reads_skip; [apply reads_expect|]. Qed.

Lemma reads_exact n l : length l = n -> reads (get n) l l.
Proof. intros <-. apply reads_get. Qed.

Lemma reads_spec platform errata minor sizes vendor :
  sizes_ok sizes -> (length vendor < 256)%nat ->
  reads spec_id (put_spec platform errata minor sizes vendor) sizes.
Proof.
  intros Hok Hv. pose proof (so_count _ Hok). pose proof (so_some _ Hok) as Hne.
  unfold spec_id, put_spec.
  eapply reads_bind; [by apply reads_exact|].
  apply reads_expect_then; [by apply bool_decide_eq_true_2|].
  eapply reads_skip; [by apply (reads_exact 4 [platform; x00; x00; x00])|].
  eapply reads_bind; [by apply (reads_exact 4 [minor; x02; errata; x02])|].
  apply reads_expect_then; [done|].
  eapply reads_bind; [apply reads_u; lia|].
  apply reads_expect_then.
  { assert (length sizes <> 0%nat) by (by destruct sizes). unfold MAX_ALGORITHMS.
    rewrite !bool_decide_eq_false_2 by lia. done. }
  rewrite Nat2Z.id. eapply reads_bind; [by apply (reads_algorithms [] sizes)|].
  eapply reads_bind; [apply reads_u; lia|].
  rewrite <- (app_nil_r vendor) at 2. eapply reads_skip; [apply reads_get_z|apply reads_ret].
Qed.

Lemma reads_header spec sizes :
  reads spec_id spec sizes -> Z.of_nat (length spec) < 2 ^ 32 -> reads header (put_header spec) sizes.
Proof.
  intros Hs Hlen. unfold header, put_header.
  do 2 (eapply reads_bind; [apply reads_u; unfold EV_NO_ACTION; lia|]).
  eapply reads_bind; [by apply reads_exact|].
  eapply reads_bind; [apply reads_u; lia|].
  rewrite <- (app_nil_r spec) at 2. eapply reads_bind; [apply reads_get_z|].
  apply reads_expect_then; [vm_compute; reflexivity|]. rewrite (whole_reads _ _ _ Hs). apply reads_ret.
Qed.

(** An event as firmware logs it. *)
Record Logged := MkLogged { lg_pcr : Z; lg_kind : Z; lg_digests : list bytes; lg_data : bytes }.

Definition logged_ok (sizes : list (Z * Z)) (e : Logged) : Prop :=
  u32 (lg_pcr e) /\ u32 (lg_kind e) /\ Z.of_nat (length (lg_data e)) < 2 ^ 32
  /\ Forall2 (fun s d => Z.of_nat (length d) = s.2) sizes (lg_digests e).

Definition put_logged (sizes : list (Z * Z)) (e : Logged) : bytes :=
  put_event sizes (lg_pcr e) (lg_kind e) (lg_digests e) (lg_data e).
Definition event_of (sizes : list (Z * Z)) (e : Logged) : Event :=
  MkEvent (lg_pcr e) (lg_kind e) (sha_of sizes (lg_digests e) None) (lg_data e).

Lemma event_loop_logged sizes es fuel :
  sizes_ok sizes -> Forall (logged_ok sizes) es -> (length es <= fuel)%nat ->
  event_loop fuel sizes (concat (map (put_logged sizes) es)) = (map (event_of sizes) es, true).
Proof.
  intros Hok Hes. revert fuel; induction Hes as [|e es (Hp & Hk & Hd & Hds) _ IH]; intros fuel Hlen; simpl.
  - by destruct fuel.
  - destruct fuel as [|fuel]; [simpl in Hlen; lia|]. simpl in Hlen.
    pose proof (reads_event2 sizes _ _ _ _ Hok Hp Hk Hd Hds (concat (map (put_logged sizes) es))) as Hr.
    fold (put_logged sizes e) in Hr.
    assert (length (put_logged sizes e) <> 0%nat) as Hne.
    { unfold put_logged, put_event. rewrite !length_app, !length_to_le. lia. }
    unfold event_loop at 1. fold event_loop.
    destruct (put_logged sizes e ++ _) as [|b r] eqn:Eb;
      [apply app_eq_nil in Eb as [Eb _]; by rewrite Eb in Hne|].
    rewrite Hr, (IH fuel) by lia. done.
Qed.

(** ** PCR values as text *)

Definition hex_char (n : Z) : Z := if bool_decide (n < 10) then 48 + n else 87 + n.
(** Two lower-case digits per byte, as the kernel prints them. *)
Definition hex_codes (v : bytes) : list Z :=
  concat (map (fun b => [hex_char (byte_val b / 16); hex_char (byte_val b mod 16)]) v).

Lemma hex_char_range n : 0 <= n < 16 -> 48 <= hex_char n <= 57 \/ 97 <= hex_char n <= 102.
Proof. unfold hex_char. case_bool_decide; lia. Qed.

Lemma hex_digit_char n : 0 <= n < 16 -> hex_digit (hex_char n) = Some n.
Proof.
  intros Hn. unfold hex_digit. destruct (decide (n < 10)).
  - assert (hex_char n = 48 + n) as -> by (unfold hex_char; by rewrite bool_decide_eq_true_2).
    rewrite bool_decide_eq_true_2 by lia. f_equal. lia.
  - assert (hex_char n = 87 + n) as -> by (unfold hex_char; by rewrite bool_decide_eq_false_2).
    rewrite bool_decide_eq_false_2 by lia. rewrite bool_decide_eq_true_2 by lia. f_equal. lia.
Qed.

Lemma nibbles b : 0 <= byte_val b / 16 < 16 /\ 0 <= byte_val b mod 16 < 16.
Proof.
  pose proof (byte_val_bound b). split; [|apply Z.mod_pos_bound; lia].
  split; [apply Z.div_pos; lia|apply Z.div_lt_upper_bound; lia].
Qed.

Lemma hex_pairs_codes v : hex_pairs (hex_codes v) = Some v.
Proof.
  induction v as [|b v IH]; [done|]. unfold hex_codes in *. simpl. destruct (nibbles b) as [Hh Hl].
  unfold hex_byte. rewrite bool_decide_eq_false_2 by (pose proof (hex_char_range _ Hh); lia).
  rewrite (hex_digit_char _ Hh), (hex_digit_char _ Hl). simpl.
  rewrite <- Z.div_mod by lia. rewrite byte_of_val, IH. done.
Qed.

Lemma hex_codes_graphic v : Forall (fun c => 33 <= c <= 126) (hex_codes v).
Proof.
  induction v as [|b v IH]; [by constructor|]. destruct (nibbles b) as [Hh Hl].
  apply hex_char_range in Hh, Hl. unfold hex_codes in *. simpl.
  constructor; [lia|]. constructor; [lia|done].
Qed.

Lemma length_hex_codes v : length (hex_codes v) = (2 * length v)%nat.
Proof. unfold hex_codes. induction v as [|b v IH]; simpl; [done|]. simpl in IH. lia. Qed.

(** ** The guarantees *)

Section Claims.
Context `{Hash, !HashOk}.

Lemma verified_pcr7_inv log value p :
  verified_pcr7 log value = Ok p ->
  exists es, events log = Some (es, true) /\ replay es 7 = Some value /\ p = pcr7 es
    /\ unverified (pcr7 es) = 0%nat /\ malformed (pcr7 es) = 0%nat.
Proof.
  unfold verified_pcr7. destruct (events log) as [[es []]|]; simpl; try done.
  destruct (replay es 7) as [v|] eqn:Er; simpl; [|done].
  case_bool_decide; simpl; [|done]. case_bool_decide; [done|]. case_bool_decide; [done|].
  intros [= <-]. subst. exists es. split_and!; try done; lia.
Qed.

(** A verified account of PCR 7 rests on the TPM's value: when
    [verified_pcr7] accepts a log, every event parsed, the digests of its
    PCR 7 events replay from zero to the value the TPM holds, and every event
    it read hashes to its own digest (an error separator apart, which is
    recognised by the digest itself) and has the form its type requires. *)
Theorem verified_pcr7_accounts_for_value log value p :
  verified_pcr7 log value = Ok p ->
  exists es, events log = Some (es, true) /\ replay es 7 = Some value /\ p = pcr7 es
    /\ malformed p = 0%nat
    /\ forall e, e ∈ events_of 7 es -> is_read (ev_kind e) = true ->
         error_separator e = true \/ ev_sha256 e = Some (sha256_digest (ev_data e)).
Proof.
  intros (es & He & Hr & -> & Hu & Hm)%verified_pcr7_inv. exists es. split_and!; try done.
  intros e. by apply pcr7_verified.
Qed.

(** Two events PCR 7 was extended with that cannot be told apart: the same
    digest and, where both were read from their data, the same data. *)
Definition same_account (e e' : Event) : Prop :=
  ev_sha256 e = ev_sha256 e' /\
  (is_read (ev_kind e) = true -> error_separator e = false ->
   is_read (ev_kind e') = true -> error_separator e' = false -> ev_data e = ev_data e').

Lemma same_account_digests es es' ds :
  unverified (pcr7 es) = 0%nat -> unverified (pcr7 es') = 0%nat ->
  Forall2 (fun e d => ev_sha256 e = Some d) (events_of 7 es) ds ->
  Forall2 (fun e d => ev_sha256 e = Some d) (events_of 7 es') ds ->
  Forall2 same_account (events_of 7 es) (events_of 7 es') \/ sha256_broken.
Proof.
  intros Hu Hu' Hd Hd'.
  assert (forall e, e ∈ events_of 7 es -> is_read (ev_kind e) = true -> error_separator e = false ->
    ev_sha256 e = Some (sha256_digest (ev_data e))) as Hv.
  { intros e He Hr Hs. destruct (pcr7_verified es e Hu He Hr); congruence. }
  assert (forall e, e ∈ events_of 7 es' -> is_read (ev_kind e) = true -> error_separator e = false ->
    ev_sha256 e = Some (sha256_digest (ev_data e))) as Hv'.
  { intros e He Hr Hs. destruct (pcr7_verified es' e Hu' He Hr); congruence. }
  revert Hd' Hv Hv'. generalize (events_of 7 es'). induction Hd as [|e d l ds' Ed _ IH]; intros l' Hd' Hv Hv'.
  - inversion Hd'. left. constructor.
  - inversion Hd' as [|e' ? l1 ? Ed' Hd1]; subst.
    destruct (IH l1 Hd1 ltac:(set_solver) ltac:(set_solver)) as [Hall|?]; [|by right].
    destruct (decide (ev_data e = ev_data e')) as [Heq|Hne].
    { left. constructor; [|done]. split; [congruence|done]. }
    destruct (decide (sha256_digest (ev_data e) = sha256_digest (ev_data e'))) as [Hcol|Hcol].
    { right. left. by eexists _, _. }
    left. constructor; [|done]. split; [congruence|]. intros H1 H2 H3 H4. destruct Hcol.
    pose proof (Hv e ltac:(set_solver) H1 H2). pose proof (Hv' e' ltac:(set_solver) H3 H4). congruence.
Qed.

(** A log cannot be forged: two logs accepted for the same PCR 7 value
    record the same sequence of digests, with the same data wherever both
    were read from it, unless SHA-256 is broken (a collision, or an input
    that hashes to zero). *)
Theorem verified_logs_agree log log' value p p' :
  verified_pcr7 log value = Ok p -> verified_pcr7 log' value = Ok p' ->
  exists es es', events log = Some (es, true) /\ events log' = Some (es', true)
    /\ (Forall2 same_account (events_of 7 es) (events_of 7 es') \/ sha256_broken).
Proof.
  intros (es & He & Hr & _ & Hu & _)%verified_pcr7_inv (es' & He' & Hr' & _ & Hu' & _)%verified_pcr7_inv.
  exists es, es'. split_and!; try done.
  apply extend_all_digests in Hr as (ds & Hds & <-), Hr' as (ds' & Hds' & Heq).
  destruct (chain_binding ds' ds Heq) as [->|?]; [|by right]. by eapply same_account_digests.
Qed.
End Claims.

(** The parser reads what the format writes: a log with a valid header
    and any number of events within the limit, each with one digest per
    declared algorithm, parses completely to exactly those events, each with
    its SHA-256 digest. *)
Theorem log_reads_back platform errata minor sizes vendor es :
  sizes_ok sizes -> (length vendor < 256)%nat -> Forall (logged_ok sizes) es ->
  (length es <= MAX_EVENTS)%nat ->
  events (put_header (put_spec platform errata minor sizes vendor) ++ concat (map (put_logged sizes) es))
  = Some (map (event_of sizes) es, true).
Proof.
  intros Hok Hv Hes Hlen. unfold events.
  pose proof (reads_spec platform errata minor sizes vendor Hok Hv) as Hs.
  assert (Z.of_nat (length (put_spec platform errata minor sizes vendor)) < 2 ^ 32) as Hb.
  { unfold put_spec, put_algorithms. rewrite !length_app, !length_to_le. simpl length.
    assert (length (concat (map (fun s : Z * Z => to_le 2 s.1 ++ to_le 2 s.2) sizes)) = 4 * length sizes)%nat as ->.
    { clear. induction sizes as [|s sizes IH]; [done|]. simpl. rewrite !length_app, !length_to_le, IH. lia. }
    pose proof (so_count _ Hok). lia. }
  rewrite (reads_header _ _ Hs Hb). by rewrite event_loop_logged.
Qed.

(** The parser stays within its input: whatever the bytes, at most
    [MAX_EVENTS] events come out, and together with the header they account
    for no more bytes than the log has. *)
Theorem log_bounds log es complete :
  events log = Some (es, complete) ->
  (length es <= MAX_EVENTS)%nat /\ (32 + footprint es <= length log)%nat.
Proof.
  unfold events. destruct (header log) as [[sizes r]|] eqn:Eh; [|done].
  destruct (event_loop MAX_EVENTS sizes r) as [es' c] eqn:El. intros [= <- <-].
  apply spends_header in Eh. apply event_loop_bounds in El as [??]. split; [done|lia].
Qed.

(** A PCR value reads back from the kernel's text: the 64 hex digits the
    kernel prints for a 32-byte value parse to that value. *)
Theorem pcr_value_reads_back v :
  length v = 32%nat -> pcr_value (codes_str (hex_codes v)) = Some v.
Proof.
  intros Hv. pose proof (hex_codes_graphic v) as Hg. unfold pcr_value.
  rewrite trim_graphic by done. rewrite str_codes_of by (eapply list.Forall_impl; [exact Hg|simpl; lia]).
  rewrite length_hex_codes, Hv, bool_decide_eq_true_2 by done.
  assert (forallb (fun c => bool_decide (c < 128)) (hex_codes v) = true) as ->; [|apply hex_pairs_codes].
  apply forallb_forall. intros c Hc. apply bool_decide_eq_true_2.
  rewrite list.Forall_forall in Hg. apply list_elem_of_In, Hg in Hc. lia.
Qed.

(** [pcr_value] accepts more than hex digits: each pair is parsed with
    [u8::from_str_radix], which takes a leading [+]. *)
Theorem pcr_value_accepts_sign :
  pcr_value (codes_str (concat (repeat [43; 102] 32))) = Some (repeat x0f 32).
Proof. vm_compute. reflexivity. Qed.

(** ** A concrete log *)

#[local] Transparent to_le.

(** A stand-in for SHA-256 with its output length. *)
#[local] Instance a_hash : Hash := {| sha256_digest b := to_le 32 (from_le b + 1) |}.
#[local] Instance a_hash_ok : HashOk.
Proof. split. intros b. apply length_to_le. Qed.

Definition a_sizes : list (Z * Z) := [(4, 20); (11, 32)].

Lemma a_sizes_ok : sizes_ok a_sizes.
Proof.
  split; [done|simpl; lia| |].
  - apply (bool_decide_unpack (NoDup a_sizes.*1)). vm_compute. exact I.
  - repeat constructor; simpl; lia.
Qed.

Definition a_separator : Logged :=
  MkLogged 7 EV_SEPARATOR [repeat x00 20; sha256_digest [x00; x00; x00; x00]] [x00; x00; x00; x00].

Definition a_log : bytes :=
  put_header (put_spec x00 x00 x00 a_sizes [x2a]) ++ concat (map (put_logged a_sizes) [a_separator]).
Definition a_value : bytes := sha256_digest (repeat x00 32 ++ sha256_digest [x00; x00; x00; x00]).

Lemma a_log_verified : verified_pcr7 a_log a_value = Ok (pcr7 (map (event_of a_sizes) [a_separator])).
Proof. vm_compute. reflexivity. Qed.

Lemma verified_pcr7_accounts_for_value_witness :
  exists es, events a_log = Some (es, true) /\ replay es 7 = Some a_value.
Proof.
  destruct (verified_pcr7_accounts_for_value a_log a_value _ a_log_verified) as (es & He & Hr & _).
  exists es. split; [exact He|exact Hr].
Defined.

Lemma verified_logs_agree_witness :
  exists es es', events a_log = Some (es, true) /\ events a_log = Some (es', true)
    /\ (Forall2 same_account (events_of 7 es) (events_of 7 es') \/ sha256_broken).
Proof. exact (verified_logs_agree a_log a_log a_value _ _ a_log_verified a_log_verified). Defined.

Lemma log_reads_back_witness :
  events a_log = Some (map (event_of a_sizes) [a_separator], true).
Proof.
  apply (log_reads_back x00 x00 x00 a_sizes [x2a] [a_separator] a_sizes_ok).
  - simpl. lia.
  - constructor; [|constructor]. unfold logged_ok, u32, in_width. simpl. split_and!; try lia; try done.
    repeat constructor.
  - unfold MAX_EVENTS. simpl length. lia.
Defined.

Lemma log_bounds_witness : (32 + footprint (map (event_of a_sizes) [a_separator]) <= length a_log)%nat.
Proof.
  apply (log_bounds a_log (map (event_of a_sizes) [a_separator]) true). vm_compute. reflexivity.
Defined.

Lemma pcr_value_reads_back_witness :
  pcr_value (codes_str (hex_codes a_value)) = Some a_value.
Proof. apply (pcr_value_reads_back a_value). vm_compute. reflexivity. Defined.
