(* ===== verification/FaceGate.v ===== *)
(** * Before the face engine runs, and what its reason may say

    The policy gates of the [Authenticate] and [UnsealPassword] arms of
    [irlume-daemon/src/main.rs] (method, sensor policy, tier, service class,
    opt-in biopolicy), the same gates applied again to the camera an automatic
    selection chose, and the redaction of a refusal's measurements.

    Journal lines are not modelled. *)

From S2P Require Import Prelude Services Protocol.

(** [FaceSensorPolicy]. *)
Inductive FaceSensorPolicy := Dual | IrOnlyExperimental.

(** [face_tier]. *)
Definition face_tier (p : FaceSensorPolicy) (detected : biopolicy.Tier) : biopolicy.Tier :=
  match p with Dual => detected | IrOnlyExperimental => biopolicy.Secure end.

(** What the arms read of the configuration, the engine and the caller. *)
Record FaceContext := MkContext {
  fc_method : policy.Method;
  fc_sensor : result string FaceSensorPolicy;
  fc_tier : biopolicy.Tier;          (** [engine.tier()] *)
  fc_automatic : bool;               (** [engine.may_select_account_camera()] *)
  fc_biopolicy : bool;               (** [biopolicy_enforced()] *)
  fc_binding : result string ();     (** [shared_unlock::Binding::capture] *)
}.

Definition eq_ignore_ascii_case (s t : string) : bool :=
  bool_decide (to_ascii_lowercase s = to_ascii_lowercase t).

Definition service_name (service : option string) : string := default "" service.

(** The [Debug] name of a class, as the refusals print it. *)
Definition class_debug (c : biopolicy.OperationClass) : string :=
  match c with
  | biopolicy.ScreenUnlock => "ScreenUnlock"
  | biopolicy.Login => "Login"
  | biopolicy.Elevation => "Elevation"
  | biopolicy.AppConsent => "AppConsent"
  | biopolicy.Remote => "Remote"
  | biopolicy.Unknown => "Unknown"
  end.

Definition is_screen_unlock (c : biopolicy.OperationClass) : bool :=
  match c with biopolicy.ScreenUnlock => true | _ => false end.

(** The convenience rule: RGB-only face satisfies a screen unlock only, and a
    COSMIC greeter only through its captured session binding.  [Ok true] when
    the reply is bound to that session. *)
Definition convenience_rule (svc : string) (binding : result string ()) : result string bool :=
  let class := biopolicy.classify svc biopolicy.Cold in
  if eq_ignore_ascii_case (trim svc) "cosmic-greeter" then
    match binding with Ok _ => Ok true | Err reason => Err reason end
  else if is_screen_unlock class then Ok false
  else Err ("RGB-only convenience: face limited to screen unlock (not " +:+ class_debug class +:+ ")").

Definition biopolicy_denies (svc : string) : bool :=
  bool_decide (biopolicy.decide (biopolicy.classify svc biopolicy.Cold) biopolicy.Secure = biopolicy.Deny).

Definition is_convenience (t : biopolicy.Tier) : bool :=
  match t with biopolicy.Convenience => true | biopolicy.Secure => false end.

(** The gates of the [Authenticate] arm before the retry reservation: the
    sensor policy and whether a shared-unlock binding was captured. *)
Definition verify_gate (cx : FaceContext) (service : option string)
    : result Response.t (FaceSensorPolicy * bool) :=
  if policy.face_disabled (fc_method cx)
  then Err (early_refusal MethodNotAvailable "face auth disabled: the configured method is fingerprint") else
  match fc_sensor cx with
  | Err reason => Err (early_refusal Configuration reason)
  | Ok sensor =>
      let tier := face_tier sensor (fc_tier cx) in
      let svc := service_name service in
      let bound :=
        if negb (fc_automatic cx) && is_convenience tier
        then convenience_rule svc (fc_binding cx) else Ok false in
      match bound with
      | Err reason => Err (early_refusal PolicyRefusal reason)
      | Ok bound =>
          if fc_biopolicy cx && negb (is_convenience tier) && biopolicy_denies svc
          then Err (early_refusal PolicyRefusal ("biopolicy: face may not satisfy '" +:+ svc +:+ "'"))
          else Ok (sensor, bound)
      end
  end.

(** [admit_selected_verify]: the same purpose against the selected route. *)
Definition admit_selected_verify (cx : FaceContext) (selected : biopolicy.Tier)
    (service : option string) (sensor : FaceSensorPolicy) : result Error.t bool :=
  let svc := service_name service in
  if is_convenience (face_tier sensor selected) then
    match convenience_rule svc (fc_binding cx) with
    | Ok b => Ok b
    | Err reason => Err (Error.Policy reason)
    end
  else if fc_biopolicy cx && biopolicy_denies svc
  then Err (Error.Policy ("biopolicy: face may not satisfy '" +:+ svc +:+ "'"))
  else Ok false.

Definition is_app_consent (c : biopolicy.OperationClass) : bool :=
  match c with biopolicy.AppConsent => true | _ => false end.

(** The gates of the [UnsealPassword] arm. *)
Definition unseal_gate (cx : FaceContext) (service : option string) : result Response.t FaceSensorPolicy :=
  if policy.face_disabled (fc_method cx)
  then Err (Response.Error "face auth disabled: the configured method is fingerprint") else
  match fc_sensor cx with
  | Err reason => Err (Response.Error reason)
  | Ok sensor =>
      let svc := service_name service in
      if is_app_consent (biopolicy.classify svc biopolicy.Cold)
      then Err (Response.Error ("'" +:+ svc +:+ "' is verify-only: a polkit prompt never releases the credential")) else
      if negb (fc_automatic cx) && is_convenience (face_tier sensor (fc_tier cx))
      then Err (Response.UnsealUnavailable "RGB-only convenience: face cannot release the login credential") else
      if fc_biopolicy cx
         && negb (bool_decide (biopolicy.decide (biopolicy.classify svc biopolicy.Cold) biopolicy.Secure = biopolicy.Unseal))
      then Err (Response.Error ("biopolicy: '" +:+ svc +:+ "' may not release the credential"))
      else Ok sensor
  end.

(** [admit_selected_credential]. *)
Definition admit_selected_credential (cx : FaceContext) (selected : biopolicy.Tier)
    (service : option string) (sensor : FaceSensorPolicy) : result Error.t () :=
  let svc := service_name service in
  if is_app_consent (biopolicy.classify svc biopolicy.Cold)
  then Err (Error.Policy ("'" +:+ svc +:+ "' is verify-only: a polkit prompt never releases the credential"))
  else if is_convenience (face_tier sensor selected)
  then Err (Error.Policy "RGB-only convenience: face cannot release the login credential")
  else if fc_biopolicy cx
          && negb (bool_decide (biopolicy.decide (biopolicy.classify svc biopolicy.Cold) biopolicy.Secure = biopolicy.Unseal))
  then Err (Error.Policy ("biopolicy: '" +:+ svc +:+ "' may not release the credential"))
  else Ok ().

(** ** Redaction *)

Definition is_digit_or_dot (c : Z) : bool := is_ascii_digit c || bool_decide (c = 46).
Definition is_ascii_alphabetic (c : Z) : bool := bool_decide (65 <= c <= 90) || bool_decide (97 <= c <= 122).

Definition REASON_PROSE_KEEP : list (list Z) := map str_codes ["2D"; "3D"; "850nm"].

Definition ELLIPSIS : list Z := [0xE2; 0x80; 0xA6].

Fixpoint drop_dots (l : list Z) : list Z :=
  match l with c :: l' => if bool_decide (c = 46) then drop_dots l' else l | [] => [] end.

(** The loop of [strip_measurements]: [prev] is the character before [l].  A
    number that is neither part of an identifier nor a kept token becomes an
    ellipsis; its sentence periods stay. *)
Fixpoint strip_loop (fuel : nat) (prev : option Z) (l : list Z) : list Z :=
  match fuel, l with
  | O, _ | _, [] => []
  | S fuel, c :: l' =>
      if is_ascii_digit c then
        let '(run, rest) := span is_digit_or_dot l in
        let num := reverse (drop_dots (reverse run)) in
        let dots := drop (length num) run in
        let '(tail, after) := span is_ascii_alphabetic (dots ++ rest) in
        let token := num ++ tail in
        let is_ident := match prev with Some p => is_ascii_alphabetic p | None => false end in
        if is_ident || bool_decide (token ∈ REASON_PROSE_KEEP)
        then token ++ strip_loop fuel (list.last token) after
        else ELLIPSIS ++ dots ++ strip_loop fuel (list.last run) rest
      else c :: strip_loop fuel (Some c) l'
  end.

Definition strip_measurements (r : string) : string :=
  let l := str_codes r in codes_str (strip_loop (length l) None l).

(** [reply_reason]. *)
Definition reply_reason (reason : string) (live : bool) (uid : Z) : string :=
  if bool_decide (uid = 0) || live then reason else strip_measurements reason.

(** ** The gates, together *)

(** The tier the capture runs at. *)
Definition effective_tier (cx : FaceContext) (sensor : FaceSensorPolicy) (selected : biopolicy.Tier)
    : biopolicy.Tier :=
  face_tier sensor (if fc_automatic cx then selected else fc_tier cx).

(** A verification that reaches capture on a camera of tier [selected]: both
    gates passed.  The result says whether the reply is bound to a session. *)
Definition verify_admitted (cx : FaceContext) (selected : biopolicy.Tier)
    (service : option string) : option (FaceSensorPolicy * bool) :=
  match verify_gate cx service with
  | Err _ => None
  | Ok (sensor, bound) =>
      if fc_automatic cx then
        match admit_selected_verify cx selected service sensor with
        | Ok bound => Some (sensor, bound)
        | Err _ => None
        end
      else Some (sensor, bound)
  end.

Definition unseal_admitted (cx : FaceContext) (selected : biopolicy.Tier)
    (service : option string) : option FaceSensorPolicy :=
  match unseal_gate cx service with
  | Err _ => None
  | Ok sensor =>
      if fc_automatic cx then
        match admit_selected_credential cx selected service sensor with
        | Ok _ => Some sensor
        | Err _ => None
        end
      else Some sensor
  end.

Lemma convenience_rule_Ok svc binding b :
  convenience_rule svc binding = Ok b ->
  (b = true /\ binding = Ok ()) \/ biopolicy.classify svc biopolicy.Cold = biopolicy.ScreenUnlock.
Proof.
  unfold convenience_rule. destruct (eq_ignore_ascii_case _ _).
  - destruct binding as [[]|]; [|done]. intros [= <-]. by left.
  - destruct (biopolicy.classify svc biopolicy.Cold); try done. by right.
Qed.

(** What a face may verify: a verification reaches capture only when face
    is an enabled method; at the RGB-only tier only for a lock screen or a
    request bound to the COSMIC session it unlocks; and at the infrared tier
    under biopolicy never for a remote or unrecognised service. *)
Theorem verify_admission cx selected service sensor bound :
  verify_admitted cx selected service = Some (sensor, bound) ->
  fc_method cx <> policy.Fingerprint /\
  match effective_tier cx sensor selected with
  | biopolicy.Convenience =>
      (bound = true /\ fc_binding cx = Ok ())
      \/ biopolicy.classify (service_name service) biopolicy.Cold = biopolicy.ScreenUnlock
  | biopolicy.Secure =>
      fc_biopolicy cx = true ->
      biopolicy.decide (biopolicy.classify (service_name service) biopolicy.Cold) biopolicy.Secure <> biopolicy.Deny
  end.
Proof.
  unfold verify_admitted, verify_gate, admit_selected_verify, effective_tier, biopolicy_denies.
  intros Ha. destruct (policy.face_disabled (fc_method cx)) eqn:Em; [done|].
  split; [by intros E; rewrite E in Em|].
  destruct (fc_sensor cx) as [s|]; [|done]. destruct (fc_automatic cx); simpl in Ha |- *.
  - destruct (fc_biopolicy cx && _ && _); [done|].
    destruct (face_tier s selected) eqn:Et; simpl in Ha.
    + destruct (convenience_rule _ _) as [b|] eqn:Ec; simplify_eq. rewrite Et.
      by apply convenience_rule_Ok in Ec.
    + destruct (fc_biopolicy cx); simpl in Ha; [case_bool_decide; simplify_eq; by rewrite Et|].
      simplify_eq. by rewrite Et.
  - destruct (face_tier s (fc_tier cx)) eqn:Et; simpl in Ha.
    + destruct (convenience_rule _ _) as [b|] eqn:Ec; [|done].
      rewrite andb_false_r in Ha. simpl in Ha. simplify_eq. rewrite Et. by apply convenience_rule_Ok in Ec.
    + rewrite andb_true_r in Ha. destruct (fc_biopolicy cx); simpl in Ha;
        [case_bool_decide; simplify_eq; by rewrite Et|]. simplify_eq. by rewrite Et.
Qed.

(** What a face may release: a credential release reaches capture only at
    the infrared tier, never for an application prompt, and under biopolicy
    only for a service class that may unseal. *)
Theorem unseal_admission cx selected service sensor :
  unseal_admitted cx selected service = Some sensor ->
  fc_method cx <> policy.Fingerprint
  /\ effective_tier cx sensor selected = biopolicy.Secure
  /\ biopolicy.classify (service_name service) biopolicy.Cold <> biopolicy.AppConsent
  /\ (fc_biopolicy cx = true ->
      biopolicy.decide (biopolicy.classify (service_name service) biopolicy.Cold) biopolicy.Secure
      = biopolicy.Unseal).
Proof.
  unfold unseal_admitted, unseal_gate, admit_selected_credential, effective_tier. intros Ha.
  destruct (policy.face_disabled (fc_method cx)) eqn:Em; [done|].
  split; [by intros E; rewrite E in Em|].
  destruct (fc_sensor cx) as [s|]; [|done].
  destruct (is_app_consent (biopolicy.classify (service_name service) biopolicy.Cold)) eqn:Eapp; [done|].
  assert (biopolicy.classify (service_name service) biopolicy.Cold <> biopolicy.AppConsent) as Hnc.
  { intros E. by rewrite E in Eapp. }
  destruct (fc_automatic cx); simpl in Ha |- *.
  - destruct (fc_biopolicy cx); simpl in Ha; [case_bool_decide; simpl in Ha; [|done]|];
      destruct (face_tier s selected) eqn:Et; simpl in Ha; simplify_eq; done.
  - destruct (face_tier s (fc_tier cx)) eqn:Et; simpl in Ha; [done|].
    destruct (fc_biopolicy cx); simpl in Ha; [case_bool_decide; simpl in Ha; [|done]|]; simplify_eq; done.
Qed.

(** ** What the redaction leaves *)

(** Text after [o] in which every digit belongs to a kept token or continues
    an identifier that starts with a letter. *)
Inductive clean : option Z -> list Z -> Prop :=
| clean_nil o : clean o []
| clean_char o c l : is_ascii_digit c = false -> clean (Some c) l -> clean o (c :: l)
| clean_keep o k l : k ∈ REASON_PROSE_KEEP -> clean (list.last k) l -> clean o (k ++ l)
| clean_ident p t l :
    is_ascii_alphabetic p = true -> clean (list.last t) l -> clean (Some p) (t ++ l).

Lemma drop_dots_spec l : exists ds, l = ds ++ drop_dots l /\ Forall (fun c => c = 46) ds.
Proof.
  induction l as [|c l (ds & E & Hd)]; simpl; [by exists []|].
  case_bool_decide as Hc; [|by exists []]. exists (c :: ds). split; [by rewrite E at 1|by constructor].
Qed.

Lemma trailing_dots run :
  let num := reverse (drop_dots (reverse run)) in
  Forall (fun c => c = 46) (drop (length num) run).
Proof.
  simpl. destruct (drop_dots_spec (reverse run)) as (ds & E & Hd).
  set (rest := drop_dots (reverse run)) in *. clearbody rest.
  assert (run = reverse rest ++ reverse ds) as ->.
  { rewrite <- reverse_app, <- E. by rewrite reverse_involutive. }
  rewrite drop_app_length. by apply list.Forall_reverse.
Qed.

Lemma clean_dots o ds l : Forall (fun c => c = 46) ds -> (forall o, clean o l) -> clean o (ds ++ l).
Proof.
  intros Hd Hl. revert o; induction Hd as [|c ds -> _ IH]; intros o; simpl; [done|].
  apply clean_char; [done|auto].
Qed.

Lemma strip_loop_clean fuel prev o l :
  (forall p, prev = Some p -> is_ascii_alphabetic p = true -> o = Some p) ->
  clean o (strip_loop fuel prev l).
Proof.
  revert prev o l; induction fuel as [|fuel IH]; intros prev o l Hp; [constructor|].
  destruct l as [|c l]; [constructor|]. cbn [strip_loop].
  destruct (is_ascii_digit c) eqn:Ec; [|apply clean_char; [done|apply IH; naive_solver]].
  destruct (span is_digit_or_dot (c :: l)) as [run rest] eqn:Er. cbv zeta.
  destruct (span is_ascii_alphabetic _) as [tail after] eqn:Et.
  set (num := reverse (drop_dots (reverse run))).
  destruct (match prev with Some p => is_ascii_alphabetic p | None => false end) eqn:Ei; cbn [orb].
  - destruct prev as [p|]; [|done]. rewrite (Hp p eq_refl Ei). apply clean_ident; [done|]. apply IH. auto.
  - case_bool_decide as Hk; [by apply clean_keep; [done|apply IH; auto]|].
    unfold ELLIPSIS. simpl app. do 3 (apply clean_char; [done|]).
    apply clean_dots; [apply trailing_dots|]. intros o'. apply IH.
    intros p Hlast Halpha. apply span_spec in Er as [_ Hall].
    apply list.last_Some_elem_of in Hlast. rewrite list.Forall_forall in Hall.
    specialize (Hall p Hlast). unfold is_digit_or_dot, is_ascii_digit, is_ascii_alphabetic in *.
    repeat case_bool_decide; simpl in *; try done; lia.
Qed.

Lemma strip_loop_codes fuel prev l :
  Forall (fun c => 0 <= c < 256) l -> Forall (fun c => 0 <= c < 256) (strip_loop fuel prev l).
Proof.
  revert prev l; induction fuel as [|fuel IH]; intros prev l Hl; [constructor|].
  destruct l as [|c l]; [constructor|]. cbn [strip_loop].
  destruct (is_ascii_digit c); [|inversion_clear Hl; constructor; auto].
  destruct (span is_digit_or_dot (c :: l)) as [run rest] eqn:Er. cbv zeta.
  destruct (span is_ascii_alphabetic _) as [tail after] eqn:Et.
  apply span_spec in Er as [Er _]. apply span_spec in Et as [Et _]. rewrite Er in Hl.
  apply Forall_app in Hl as [Hrun Hrest].
  assert (Forall (fun c => 0 <= c < 256) (drop (length (reverse (drop_dots (reverse run)))) run ++ rest)) as Hdr.
  { apply Forall_app. split; [by apply list.Forall_drop|done]. }
  rewrite Et in Hdr. apply Forall_app in Hdr as [Htail Hafter].
  destruct (_ || _).
  - apply Forall_app. split; [|by apply IH]. apply Forall_app. split; [|done].
    apply list.Forall_reverse. destruct (drop_dots_spec (reverse run)) as (ds & E & _).
    apply list.Forall_reverse in Hrun. rewrite E in Hrun. by apply Forall_app in Hrun as [_ ?].
  - apply Forall_app. split; [repeat constructor; lia|]. apply Forall_app. split; [by apply list.Forall_drop|].
    by apply IH.
Qed.

Lemma str_codes_range s : Forall (fun c => 0 <= c < 256) (str_codes s).
Proof.
  induction s as [|c s IH]; simpl; constructor; [|done]. unfold ascii_val.
  pose proof (Ascii.N_ascii_bounded c). lia.
Qed.

Lemma strip_loop_digit_free fuel prev l :
  Forall (fun c => is_ascii_digit c = false) l -> (length l <= fuel)%nat -> strip_loop fuel prev l = l.
Proof.
  intros Hl. revert fuel prev; induction Hl as [|c l Hc _ IH]; intros [|fuel] prev Hf; simpl in *; try done; try lia.
  rewrite Hc, IH by lia. done.
Qed.

Lemma codes_str_codes s : codes_str (str_codes s) = s.
Proof.
  induction s as [|c s IH]; simpl; [done|]. unfold codes_str in *. rewrite IH. f_equal.
  unfold code_ascii, ascii_val. rewrite N2Z.id. apply Ascii.ascii_N_embedding.
Qed.

(** A refusal leaks no measurement: the reason an unprivileged peer reads
    of a face that was not judged live keeps no number but the allowed prose
    tokens and the digits of identifiers, and keeps text without digits
    unchanged. *)
Theorem reason_leaks_no_measurement reason uid :
  uid <> 0 ->
  clean None (str_codes (reply_reason reason false uid))
  /\ (Forall (fun c => is_ascii_digit c = false) (str_codes reason) ->
      reply_reason reason false uid = reason).
Proof.
  intros Hu. unfold reply_reason. rewrite bool_decide_eq_false_2 by done. simpl.
  unfold strip_measurements. split.
  - rewrite str_codes_of by apply strip_loop_codes, str_codes_range. by apply strip_loop_clean.
  - intros Hd. rewrite strip_loop_digit_free by done. apply codes_str_codes.
Qed.

(** ** Concrete requests *)

Definition ir_context : FaceContext :=
  MkContext policy.Auto (Ok Dual) biopolicy.Secure false true (Err "no session").

Lemma verify_admission_witness :
  biopolicy.decide (biopolicy.classify "sudo" biopolicy.Cold) biopolicy.Secure <> biopolicy.Deny.
Proof.
  apply (verify_admission ir_context biopolicy.Secure (Some "sudo") Dual false); vm_compute; reflexivity.
Defined.

Lemma unseal_admission_witness :
  effective_tier ir_context Dual biopolicy.Secure = biopolicy.Secure.
Proof.
  apply (unseal_admission ir_context biopolicy.Secure (Some "sddm") Dual). vm_compute. reflexivity.
Defined.

Lemma reason_leaks_no_measurement_witness :
  clean None (str_codes (reply_reason "IR too flat (1.02) at 850nm" false 1000))
  /\ reply_reason "IR too flat (1.02) at 850nm" false 1000
     = codes_str (str_codes "IR too flat (" ++ ELLIPSIS ++ str_codes ") at 850nm").
Proof.
  split; [|vm_compute; reflexivity].
  apply (reason_leaks_no_measurement "IR too flat (1.02) at 850nm" 1000). discriminate.
Defined.
