(* ===== verification/FaceReply.v ===== *)
(** * From a face attempt to the reply the client reads

    The completion boundary of [irlume-daemon/src/main.rs]: the presence window
    ([AuthenticationWindow]), [bounded_face_response], the replies of the
    [Authenticate] and [UnsealPassword] arms ([verify_reply], [unseal_reply]),
    and [WorkerReply::respond], which admits a grant for the last time before
    its first byte and settles the retry reservation by what the client got.

    The engine's verdict, the TPM's answer and the socket are the environment.
    The early hand-over of a reply before camera release builds it with the
    same functions and is not a separate path here. *)

From S2P Require Import Prelude RetryStore RetryThrottle RetryCodecModel RetryTheory RetryBudget.
From S2P Require Import Services.
From S2P Require Import Protocol.
From S2P Require Import FaceGate.

(** ** The presence window ([authentication_window.rs]); times are nanoseconds *)

Record AuthenticationWindow := MkWindow { deadline : Z; milliseconds : Z }.

Definition MILLI : Z := 1000000.

Definition from_started (started ms : Z) : AuthenticationWindow := MkWindow (started + ms * MILLI) ms.
Definition origin (w : AuthenticationWindow) : Z := deadline w - milliseconds w * MILLI.

(** [clipped_to]. *)
Definition clipped_to (w allowance : AuthenticationWindow) : AuthenticationWindow :=
  if bool_decide (milliseconds w = 0) || bool_decide (milliseconds allowance = 0)
     || bool_decide (deadline w <= deadline allowance)
  then w
  else MkWindow (deadline allowance) (Z.min (milliseconds allowance) (milliseconds w)).

Definition capture_deadline (w : AuthenticationWindow) : option Z :=
  if bool_decide (milliseconds w = 0) then None else Some (deadline w).

Definition remaining (w : AuthenticationWindow) (now : Z) : option Z :=
  match capture_deadline w with Some d => Some (sat_sub d now) | None => None end.

(** [AuthenticationWindow::check]: whether a reply is still eligible. *)
Definition window_open (w : AuthenticationWindow) (now : Z) : bool :=
  match capture_deadline w with Some d => negb (bool_decide (d <= now)) | None => true end.

(** ** Building the reply *)

(** The engine's outcome: what the accounting reads and what the reply says. *)
Record FaceOutcome := MkFaceOutcome {
  fo_core : Outcome;
  fo_score : f32;
  fo_live : bool;
  fo_reason : string;
  fo_cause : option Cause.t;
}.

(** What a reply in progress carries: the retry directory and the completion
    ([FaceCompletion]) it sets for a grant. *)
Record Reply := MkReply { rp_world : world; rp_completion : option FaceAttempt }.

Definition is_face_grant (r : Response.t) : bool :=
  match r with
  | Response.AuthResult true _ _ _ _ _ _ _ => true
  | Response.PasswordUnsealed _ _ => true
  | _ => false
  end.

Definition LIMITED_TEXT : string := "too many recent face attempts; use your password".
Definition UNAVAILABLE_TEXT : string := 
  "face retry state unavailable; use your password and ask an administrator to check /var/lib/irlume/retry".

Section Reply.
Context `{Host, RetryCodec}.

(** [recorded_face_response]. *)
Definition recorded_face_response (record : Reply -> result string () * Reply)
    (refuse : string -> Response.t) (complete : Response.t) (s : Reply) : Response.t * Reply :=
  match record s with
  | (Ok _, s) => (complete, s)
  | (Err reason, s) => (refuse reason, s)
  end.

(** [bounded_face_response]: [active n] is what the completion check answers
    the [n]-th time it is asked, [prepare] the prepared reply, and [forget]
    what dropping the uncalled [record] does. *)
Definition bounded_face_response (granted : bool) (active : nat -> result Error.t ())
    (prepare : Response.t) (record : Reply -> result string () * Reply) (forget : Reply -> Reply)
    (refuse : string -> Response.t) (boundary : Error.t -> Response.t) (s : Reply)
    : Response.t * Reply :=
  if negb granted then recorded_face_response record refuse prepare s else
  match active 0%nat with
  | Err e => (boundary e, forget s)
  | Ok _ =>
      match active 1%nat with
      | Err e => (boundary e, forget s)
      | Ok _ =>
          if negb (is_face_grant prepare) then (prepare, forget s) else
          let '(recorded, s) := record s in
          match active 2%nat with
          | Err e => (boundary e, s)
          | Ok _ =>
              match recorded with
              | Ok _ => (prepare, s)
              | Err reason => (refuse reason, s)
              end
          end
      end
  end.

(** The [record] of both arms: a grant keeps its attempt for the connection
    thread, a refusal is accounted now. *)
Definition record_outcome (o : FaceOutcome) (fa : FaceAttempt) (clock : io Tick) (s : Reply)
    : result string () * Reply :=
  if granted (fo_core o) then (Ok (), MkReply (rp_world s) (Some fa))
  else match denied fa (fo_core o) clock (rp_world s) with
       | (Ok _, w) => (Ok (), MkReply w (rp_completion s))
       | (Err _, w) => (Err UNAVAILABLE_TEXT, MkReply w (rp_completion s))
       end.

Definition forget_attempt (fa : FaceAttempt) (s : Reply) : Reply :=
  MkReply (abandon fa (rp_world s)) (rp_completion s).

(** [authentication_error]. *)
Definition authentication_error (structured : bool) (e : Error.t) : Response.t :=
  if structured then
    let cause := Some (Error.cause e) in
    match e with
    | Error.CameraBusy _ => Response.OperationError ErrorCode.CameraBusy true cause
    | Error.DeadlineExpired => Response.OperationError ErrorCode.DeadlineExpired false cause
    | Error.NotAuthorized _ => Response.OperationError ErrorCode.NotAuthorized false cause
    | _ =>
        Response.OperationError ErrorCode.OperationFailed
          (match e with Error.Preempted _ | Error.IrIlluminationUnreported _ => true | _ => false end)
          cause
    end
  else Response.Error (Error.to_string e).

Definition retry_verify_refusal (reason : string) : Response.t := early_refusal RetryThrottled reason.
Definition retry_unseal_refusal (reason : string) : Response.t := Response.Error reason.

(** The reply the [Authenticate] arm prepares. *)
Definition verify_response (o : FaceOutcome) (situation : option string) (uid : Z) : Response.t :=
  let g := granted (fo_core o) in
  Response.AuthResult g (fo_score o) (fo_live o) (reply_reason (fo_reason o) (fo_live o) uid) false false
    (if g then "" else default "" situation) (fo_cause o).

(** One evaluation of the completion check: [check_authentication_completion]
    before and after the shared-unlock binding is validated. *)
Record Check := MkCheck {
  ck_before : result Error.t ();
  ck_binding : option (result string ());
  ck_after : result Error.t ();
}.

Definition verify_active (c : Check) : result Error.t () :=
  ck_before c;;
  (match ck_binding c with
   | Some (Err reason) => Err (Error.Policy reason)
   | _ => Ok ()
   end);;
  ck_after c.

(** [verify_reply]. *)
Definition verify_reply (o : FaceOutcome) (structured : bool) (situation : option string) (uid : Z)
    (fa : FaceAttempt) (clock : io Tick) (checks : nat -> Check) (s : Reply)
    : Response.t * Reply :=
  bounded_face_response (granted (fo_core o)) (verify_active ∘ checks) (verify_response o situation uid)
    (record_outcome o fa clock) (forget_attempt fa) retry_verify_refusal
    (authentication_error structured) s.

(** [finish_unseal_password]: [unsealed] is what the TPM released, with the
    kind its envelope records. *)
Definition finish_unseal_password (o : FaceOutcome) (unsealed : result Error.t (list byte * SecretKind.t))
    : Response.t :=
  if negb (granted (fo_core o)) then Response.Error ("face not granted: " +:+ fo_reason o) else
  match unsealed with
  | Ok (secret, k) => Response.PasswordUnsealed secret k
  | Err e => Response.Error (Error.to_string e)
  end.

(** [unseal_reply]. *)
Definition unseal_reply (o : FaceOutcome) (unsealed : result Error.t (list byte * SecretKind.t)) (fa : FaceAttempt)
    (clock : io Tick) (checks : nat -> Check) (s : Reply) : Response.t * Reply :=
  bounded_face_response (granted (fo_core o)) (ck_before ∘ checks) (finish_unseal_password o unsealed)
    (record_outcome o fa clock) (forget_attempt fa) retry_unseal_refusal
    (fun e => Response.Error (Error.to_string e)) s.

(** ** Delivering it *)

(** What the socket and the clock answer while the reply is written. *)
Record Wire := MkWire {
  wi_encoded : bool;       (** [serde_json::to_vec] *)
  wi_budget : Z;           (** when the write budget is computed *)
  wi_timeout_set : bool;   (** [set_write_timeout] *)
  wi_gone : bool;          (** [peer_gone] *)
  wi_first : Z;            (** the first window check *)
  wi_binding : bool;       (** the shared-unlock binding, when there is one *)
  wi_last : Z;             (** the last window check *)
  wi_written : bool;       (** [write_all] and [flush] *)
}.

(** The last admission check, before the first byte. *)
Definition admitted (win : AuthenticationWindow) (x : Wire) : bool :=
  negb (match remaining win (wi_budget x) with Some 0 => true | _ => false end)
  && wi_timeout_set x && negb (wi_gone x)
  && window_open win (wi_first x) && wi_binding x && window_open win (wi_last x).

(** [WorkerReply::respond]: whether the client got the reply, and the retry
    directory after. *)
Definition respond (win : AuthenticationWindow) (x : Wire) (r : Response.t) (s : Reply) : bool * world :=
  match rp_completion s with
  | Some fa =>
      if is_face_grant r then
        if wi_encoded x && admitted win x && wi_written x
        then (true, snd (delivered fa (rp_world s)))
        else (false, abandon fa (rp_world s))
      else (wi_encoded x && wi_written x, abandon fa (rp_world s))
  | None => (wi_encoded x && wi_written x, rp_world s)
  end.

(** ** One request *)

(** What a request asks for: a verification, or the release of [user]'s
    sealed password, with whether one is sealed and what the TPM answers. *)
Inductive Arm :=
| Verify (structured : bool) (situation : option string) (uid : Z)
| Release (user : string) (sealed : bool) (unsealed : result Error.t (list byte * SecretKind.t)).

Definition refusal_text (r : retry_refusal) : string :=
  match r with LIMITED => LIMITED_TEXT | UNAVAILABLE => UNAVAILABLE_TEXT end.

(** What the environment answers to one request past its policy gates: the
    directories above the store, the clock at the reservation and at the accounting, the engine's result, the
    completion checks and the socket. *)
Record Env := MkEnv {
  en_ancestors : list (option inode);
  en_begin : io Tick;
  en_denied : io Tick;
  en_engine : result Error.t FaceOutcome;
  en_checks : nat -> Check;
  en_window : AuthenticationWindow;
  en_wire : Wire;
}.

(** The [Authenticate] arm past its gates: reserve, run the engine, build the
    reply.  An engine error drops the attempt and its charge stays. *)
Definition authenticate_reply (names : Z -> option string) (u : option Z) (p : Policy)
    (structured : bool) (situation : option string) (uid : Z) (env : Env) (w : world) : Response.t * Reply :=
  match for_account names (en_ancestors env) u p (en_begin env) w with
  | (Err reason, w) => (retry_verify_refusal (refusal_text reason), MkReply w None)
  | (Ok fa, w) =>
      match en_engine env with
      | Ok o => verify_reply o structured situation uid fa (en_denied env) (en_checks env) (MkReply w None)
      | Err e => (authentication_error structured e, MkReply (abandon fa w) None)
      end
  end.

(** [do_unseal_password_scoped]. *)
Definition do_unseal_password_scoped (names : Z -> option string) (u : option Z) (p : Policy)
    (user : string) (sealed : bool) (unsealed : result Error.t (list byte * SecretKind.t)) (env : Env)
    (w : world) : Response.t * Reply :=
  if negb sealed then
    (Response.UnsealUnavailable ("no sealed password for '" +:+ user +:+ "': run `irlume keyring arm`"),
     MkReply w None)
  else
  match for_account names (en_ancestors env) u p (en_begin env) w with
  | (Err reason, w) => (retry_unseal_refusal (refusal_text reason), MkReply w None)
  | (Ok fa, w) =>
      match en_engine env with
      | Ok o => unseal_reply o unsealed fa (en_denied env) (en_checks env) (MkReply w None)
      | Err e => (Response.Error (Error.to_string e), MkReply (abandon fa w) None)
      end
  end.

Definition face_reply (names : Z -> option string) (u : option Z) (p : Policy) (arm : Arm) (env : Env)
    (w : world) : Response.t * Reply :=
  match arm with
  | Verify structured situation uid => authenticate_reply names u p structured situation uid env w
  | Release user sealed unsealed => do_unseal_password_scoped names u p user sealed unsealed env w
  end.

(** The whole request: the reply, whether the client got it, and the retry
    directory after. *)
Definition face_request (names : Z -> option string) (u : option Z) (p : Policy) (arm : Arm) (env : Env)
    (w : world) : Response.t * bool * world :=
  let '(r, s) := face_reply names u p arm env w in
  let '(sent, w) := respond (en_window env) (en_wire env) r s in
  (r, sent, w).
End Reply.

(** ** The window a camera selection may only shorten *)

(** A camera selection never widens the presence window: clipping to the
    selected route's allowance admits no reply the original window would not,
    nor, when both are finite, one the allowance would not; it neither removes
    nor introduces the one-shot mode; and two windows that started together
    keep that start, so the time spent selecting stays charged. *)
Theorem clipped_never_widens w a now :
  (window_open (clipped_to w a) now = true -> window_open w now = true)
  /\ (capture_deadline w <> None -> window_open (clipped_to w a) now = true -> window_open a now = true)
  /\ (capture_deadline (clipped_to w a) = None <-> capture_deadline w = None)
  /\ (origin a = origin w -> origin (clipped_to w a) = origin w).
Proof.
  unfold clipped_to, window_open, capture_deadline, origin, MILLI. destruct w as [dw mw], a as [da ma]. simpl.
  split_and!; repeat (case_bool_decide; simpl in *); try done; try lia; intros; exfalso; lia.
Qed.

(** ** What the reply path does to the retry directory *)

Create HintDb locks.

Section ReplyTheory.
Context `{Host, RetryCodec}.

Lemma early_refusal_not_grant r reason : is_face_grant (early_refusal r reason) = false.
Proof. done. Qed.

Lemma authentication_error_not_grant b e : is_face_grant (authentication_error b e) = false.
Proof. unfold authentication_error. by destruct b, e. Qed.

Lemma verify_active_ok c :
  verify_active c = Ok () ->
  ck_before c = Ok () /\ ck_after c = Ok () /\ (forall r, ck_binding c = Some r -> r = Ok ()).
Proof.
  unfold verify_active, mbind, result_bind. destruct (ck_before c) as [[]|]; [|done].
  destruct (ck_binding c) as [[[]|]|]; simpl; try done; intros ->; naive_solver.
Qed.

(** Every way [bounded_face_response] can end, with the reply it gives. *)
Lemma bounded_cases g active prepare record forget refuse boundary s r s' :
  (g = false -> is_face_grant prepare = false) ->
  (forall reason, is_face_grant (refuse reason) = false) ->
  (forall e, is_face_grant (boundary e) = false) ->
  bounded_face_response g active prepare record forget refuse boundary s = (r, s') ->
  (is_face_grant r = true /\ g = true /\ r = prepare /\ record s = (Ok (), s')
     /\ active 0%nat = Ok () /\ active 1%nat = Ok () /\ active 2%nat = Ok ())
  \/ (is_face_grant r = false /\ (s' = snd (record s) \/ (g = true /\ s' = forget s))).
Proof.
  intros Hp Hr Hb. unfold bounded_face_response, recorded_face_response.
  destruct g; simpl.
  - destruct (active 0%nat) as [[]|e0]; [|intros [= <- <-]; right; eauto].
    destruct (active 1%nat) as [[]|e1]; [|intros [= <- <-]; right; eauto].
    destruct (is_face_grant prepare) eqn:Ep; simpl; [|intros [= <- <-]; right; eauto].
    destruct (record s) as [[[]|] s1] eqn:Er; simpl;
      (destruct (active 2%nat) as [[]|e2]; intros [= <- <-]); naive_solver.
  - destruct (record s) as [[[]|] s1] eqn:Er; simpl; intros [= <- <-]; right; eauto.
Qed.

(** A reply that grants is the arm's own, from a granted outcome whose three
    completion checks passed, and leaves the attempt to the connection. *)
Definition grants (arm : Arm) (o : FaceOutcome) (checks : nat -> Check) (r : Response.t) : Prop :=
  granted (fo_core o) = true /\
  (forall i, (i < 3)%nat -> ck_before (checks i) = Ok ()) /\
  match arm with
  | Verify _ situation uid =>
      r = verify_response o situation uid
      /\ forall i b, (i < 3)%nat -> ck_binding (checks i) = Some b -> b = Ok ()
  | Release _ _ unsealed => exists secret k, unsealed = Ok (secret, k) /\ r = Response.PasswordUnsealed secret k
  end.

Lemma three (P : nat -> Prop) : P 0%nat -> P 1%nat -> P 2%nat -> forall i, (i < 3)%nat -> P i.
Proof. intros ???[|[|[|i]]] ?; [done|done|done|lia]. Qed.

Lemma record_granted o fa clock s res s' :
  granted (fo_core o) = true -> record_outcome o fa clock s = (res, s') ->
  res = Ok () /\ s' = MkReply (rp_world s) (Some fa).
Proof. unfold record_outcome. intros ->. naive_solver. Qed.

Lemma record_refused o fa clock w :
  granted (fo_core o) = false ->
  snd (record_outcome o fa clock (MkReply w None)) = MkReply (snd (denied fa (fo_core o) clock w)) None.
Proof. unfold record_outcome. intros ->. simpl. by destruct (denied _ _ _ _) as [[[]|] w']. Qed.

(** The two arms in one shape. *)
Definition arm_unavailable (arm : Arm) : bool :=
  match arm with Release _ sealed _ => negb sealed | Verify _ _ _ => false end.
Definition arm_reply (arm : Arm) (o : FaceOutcome) (fa : FaceAttempt) (clock : io Tick)
    (checks : nat -> Check) (s : Reply) : Response.t * Reply :=
  match arm with
  | Verify structured situation uid => verify_reply o structured situation uid fa clock checks s
  | Release _ _ unsealed => unseal_reply o unsealed fa clock checks s
  end.

(** Without a sealed password, or without a reservation, the reply is no
    grant; an engine error drops the attempt; otherwise the arm replies. *)
Lemma face_reply_cases names u p arm env w :
  match arm_unavailable arm, for_account names (en_ancestors env) u p (en_begin env) w, en_engine env with
  | true, _, _ => exists r, face_reply names u p arm env w = (r, MkReply w None) /\ is_face_grant r = false
  | false, (Err _, w1), _ =>
      exists r, face_reply names u p arm env w = (r, MkReply w1 None) /\ is_face_grant r = false
  | false, (Ok fa, w1), Err _ =>
      exists r, face_reply names u p arm env w = (r, MkReply (abandon fa w1) None) /\ is_face_grant r = false
  | false, (Ok fa, w1), Ok o =>
      face_reply names u p arm env w
      = arm_reply arm o fa (en_denied env) (en_checks env) (MkReply w1 None)
  end.
Proof.
  destruct arm as [structured situation uid|user [] unsealed]; simpl;
    unfold authenticate_reply, do_unseal_password_scoped; simpl; eauto;
    destruct (for_account _ _ _ _ _ _) as [[fa|e] w1]; simpl; eauto;
    destruct (en_engine env); eauto using authentication_error_not_grant.
Qed.

Lemma arm_reply_cases arm o fa clock checks w r s :
  arm_reply arm o fa clock checks (MkReply w None) = (r, s) ->
  (is_face_grant r = true /\ grants arm o checks r /\ s = MkReply w (Some fa))
  \/ (is_face_grant r = false /\
      (s = MkReply w (Some fa) \/ s = MkReply (abandon fa w) None
       \/ s = MkReply (snd (denied fa (fo_core o) clock w)) None)).
Proof.
  intros Hr. destruct arm as [structured situation uid|user sealed unsealed]; simpl in Hr;
    [unfold verify_reply in Hr|unfold unseal_reply in Hr];
    apply bounded_cases in Hr as [(Hg & Ho & -> & Hrec & H0' & H1' & H2')|(Hg & Hs)];
    try (by intros; apply authentication_error_not_grant); try done.
  all: try (by unfold verify_response; intros ->).
  all: try (by unfold finish_unseal_password; intros ->).
  all: try (right; split; [done|]; destruct Hs as [-> |[Ho ->]]; [|by right; left];
    destruct (granted (fo_core o)) eqn:Ho; [left|right; right; by apply record_refused];
    by unfold record_outcome; rewrite Ho).
  all: left; split; [done|]; split; [|by apply record_granted in Hrec as [_ ->]].
  all: split; [done|].
  - pose proof (three (fun i => verify_active (checks i) = Ok ()) H0' H1' H2') as Ha.
    split_and!; [|done|]; intros i; intros; by apply (verify_active_ok (checks i) (Ha i ltac:(done))).
  - split; [by apply (three (fun i => ck_before (checks i) = Ok ()))|].
    revert Hg. unfold finish_unseal_password. rewrite Ho. simpl.
    destruct unsealed as [[secret k]|]; naive_solver.
Qed.

(** The account a request is charged to. *)
Definition request_account (names : Z -> option string) (u : option Z) : option Account :=
  u ≫= account_of names.

(** One request either reserves nothing, and then its reply is no grant, or
    reserves an attempt and settles it in one of three ways. *)
Lemma face_request_cases names u p arm env w r sent w' :
  face_request names u p arm env w = (r, sent, w') ->
  (is_face_grant r = false /\
     ((w' = w /\ (arm_unavailable arm = true \/ request_account names u = None)) \/
     exists a, request_account names u = Some a /\
     w' = snd (attempt_begin (en_ancestors env) a p (en_begin env) w) /\
     (forall fa, fst (attempt_begin (en_ancestors env) a p (en_begin env) w) <> Ok (Some fa))))
  \/ exists a fa w1,
    request_account names u = Some a /\ attempt_begin (en_ancestors env) a p (en_begin env) w = (Ok (Some fa), w1) /\
    ((sent = true /\ is_face_grant r = true /\ w' = snd (delivered fa w1)
        /\ admitted (en_window env) (en_wire env) = true
        /\ exists o, en_engine env = Ok o /\ grants arm o (en_checks env) r)
     \/ ((sent && is_face_grant r) = false /\
         (w' = abandon fa w1 \/ exists o, w' = snd (denied fa o (en_denied env) w1)))).
Proof.
  unfold face_request. pose proof (face_reply_cases names u p arm env w) as Hf.
  destruct (arm_unavailable arm) eqn:Eu.
  { destruct Hf as (r0 & -> & Hg). simpl. intros [= <- <- <-]. left. eauto. }
  unfold for_account in Hf. fold (request_account names u) in Hf.
  destruct (request_account names u) as [a|] eqn:Ea.
  2: { destruct Hf as (r0 & -> & Hg). simpl. intros [= <- <- <-]. left. eauto. }
  destruct (attempt_begin (en_ancestors env) a p (en_begin env) w) as [[[fa|]|e] w1] eqn:Eb.
  2,3: destruct Hf as (r0 & -> & Hg); simpl; intros [= <- <- <-]; left; split; [done|];
    right; exists a; by rewrite Eb.
  intros Hreq. right. exists a, fa, w1. split; [done|]. split; [done|].
  destruct (en_engine env) as [o|e] eqn:Eo.
  2: { destruct Hf as (r0 & Hr & Hg). rewrite Hr in Hreq. simpl in Hreq. injection Hreq as <- <- <-.
       right. rewrite Hg, andb_false_r. eauto. }
  rewrite Hf in Hreq. destruct (arm_reply arm o fa _ _ _) as [r1 s] eqn:Er.
  apply arm_reply_cases in Er as [(Hg & Hgr & ->)|(Hg & Hs)]; simpl in Hreq.
  - unfold respond in Hreq. simpl in Hreq. rewrite Hg in Hreq.
    destruct (_ && _ && _) eqn:Ew; injection Hreq as <- <- <-.
    + left. reflect_bools. eauto 10.
    + right. simpl. eauto.
  - right. destruct Hs as [-> |[-> | ->]]; unfold respond in Hreq; simpl in Hreq;
      rewrite ?Hg in Hreq; injection Hreq as <- <- <-; rewrite Hg, andb_false_r; eauto.
Qed.

(** ** The operation lock *)

Definition holds (L : gset Z) (w : world) : Prop := w_oplock w = L.
Definition keeps_locks {A} (m : M A) : Prop := forall L, hoare (holds L) m (fun _ => holds L) (holds L).

Lemma keeps_files {A} (m : M A) :
  (forall V D L, hoare (files V D L) m (fun _ => holds L) (holds L)) -> keeps_locks m.
Proof. intros Hm L w Hw. apply (Hm (w_vis w) (w_dur w) L). by repeat split. Qed.

Lemma files_holds V D L w : files V D L w -> holds L w.
Proof. by intros (_ & _ & ?). Qed.

Lemma keeps_lock : keeps_locks lock.
Proof.
  apply keeps_files. intros V D L.
  eapply hoare_conseq; [apply (lock_spec V D L)|done|..]; cbv beta; eauto using files_holds.
Qed.

Lemma keeps_read a : keeps_locks (read a).
Proof.
  apply keeps_files. intros V D L. eapply hoare_conseq; [apply (read_spec a V D L)|done|..]; cbv beta.
  - intros r w (_ & D' & _ & ?). eauto using files_holds.
  - intros w (D' & _ & ?). eauto using files_holds.
Qed.

Lemma keeps_bind {A B} (m : M A) (f : A -> M B) :
  keeps_locks m -> (forall a, keeps_locks (f a)) -> keeps_locks (mbind f m).
Proof. intros Hm Hf L. eapply hoare_bind; [apply Hm|intros a; apply Hf]. Qed.

Lemma keeps_lift {A} (r : io A) : keeps_locks (lift r).
Proof. intros L. by apply hoare_lift. Qed.

Lemma keeps_ret {A} (a : A) : keeps_locks (mret a).
Proof. intros L. by apply hoare_ret. Qed.

Lemma keeps_ensure b : keeps_locks (ensure b).
Proof. intros L. by apply hoare_ensure. Qed.

Lemma keeps_write q b mode : keeps_locks (w ← write_atomic_reporting q b mode; require_durable w).
Proof.
  apply keeps_files. intros V D L.
  eapply hoare_conseq; [apply (write_durable_spec q b mode V D L)|done|..]; cbv beta.
  - intros _ w ?. eauto using files_holds.
  - intros w [?|?]; eauto using files_holds.
Qed.
End ReplyTheory.

#[export] Hint Resolve keeps_lock keeps_read keeps_lift keeps_ret keeps_ensure keeps_write : locks.

(** Splits a straight-line operation into its calls. *)
Ltac keeps_step :=
  repeat first [ progress intros | solve [auto with locks] | apply keeps_bind
               | match goal with |- keeps_locks (match ?x with _ => _ end) => destruct x end ].

Section LockTheory.
Context `{Host, RetryCodec}.

Lemma keeps_commit r : keeps_locks (commit r).
Proof. unfold commit. keeps_step. Qed.

Lemma keeps_denied_inner fa o clock : keeps_locks (denied_inner fa o clock).
Proof. unfold denied_inner. pose proof keeps_commit. keeps_step; auto. Qed.

Lemma keeps_delivered_inner fa : keeps_locks (delivered_inner fa).
Proof. unfold delivered_inner. pose proof keeps_commit. keeps_step; auto. Qed.

(** An operation that consumes the attempt drops its lock whatever it answers. *)
Lemma guarded_releases {A} u (m : M A) w :
  keeps_locks m -> w_oplock (snd (guarded (release_operation u) (fun _ => false) m w)) = w_oplock w ∖ {[u]}.
Proof.
  intros Hm. specialize (Hm _ w eq_refl). unfold guarded.
  destruct (m w) as [[x|e] w']; simpl; by rewrite Hm.
Qed.
End LockTheory.

Section Claims.
Context `{Host, RetryCodec, !RetryCodecOk}.
Context (a : Account) (p : Policy) (names : Z -> option string) (u : option Z) (env : Env).
Context (Ha : account_typed a) (Hp : policy_typed p).
Context (Hbegin : clock_typed (en_begin env)) (Hdenied : clock_typed (en_denied env)).
Context (Hnamed : request_account names u = Some a).

Lemma begin_reserved_self w fa w1 :
  attempt_begin (en_ancestors env) a p (en_begin env) w = (Ok (Some fa), w1) ->
  fa = MkAttempt a p /\ (a_uid a ∉ w_oplock w) /\
  reserved a (spent a (w_vis w !! face_path a) + 1) ({[a_uid a]} ∪ w_oplock w) w1.
Proof.
  intros Hb. pose proof (attempt_begin_reserved (en_ancestors env) a _ _ p (en_begin env) Ha Hp Hbegin w (conj eq_refl eq_refl)) as Hr.
  by rewrite Hb in Hr.
Qed.

Lemma admitted_before_deadline win x d :
  admitted win x = true -> capture_deadline win = Some d -> wi_last x < d.
Proof.
  unfold admitted, window_open. intros Ha' Hd. reflect_bools. rewrite Hd in *. reflect_bools. lia.
Qed.

(** C1. A grant the client received was earned: its attempt was reserved
    durably first, the engine granted it, the three completion checks passed
    (with the shared-unlock binding where there is one), the last admission
    check passed before the first byte and inside the presence window, a
    released password is the one the TPM gave, and only then was the
    reservation cleared. *)
Theorem delivered_grant_earned arm w r w' :
  face_request names u p arm env w = (r, true, w') -> is_face_grant r = true ->
  exists o w1,
    attempt_begin (en_ancestors env) a p (en_begin env) w = (Ok (Some (MkAttempt a p)), w1) /\
    reserved a (spent a (w_vis w !! face_path a) + 1) ({[a_uid a]} ∪ w_oplock w) w1 /\
    en_engine env = Ok o /\ grants arm o (en_checks env) r /\
    admitted (en_window env) (en_wire env) = true /\
    (forall d, capture_deadline (en_window env) = Some d -> wi_last (en_wire env) < d) /\
    w' = snd (delivered (MkAttempt a p) w1).
Proof.
  intros Hreq Hg.
  apply face_request_cases in Hreq as [[? _]|(a' & fa & w1 & Hn & Hb & Hend)]; [congruence|].
  assert (a' = a) as -> by congruence.
  destruct (begin_reserved_self w fa w1 Hb) as (-> & _ & Hres).
  destruct Hend as [(_ & _ & -> & Hadm & o & Ho & Hgr)|[Hf _]]; [|by rewrite Hg in Hf].
  exists o, w1. split_and!; try done. intros d. by apply admitted_before_deadline.
Qed.

(** C4. An admitted attempt that does not end in a grant the client received
    keeps its charge, visible and durable, whichever way it ends: an engine
    error, a denial whose own accounting fails, a grant withdrawn at a
    completion check, a failed TPM release, a client that left or a window
    that closed before the first byte. *)
Theorem undelivered_attempt_stays_charged arm n w fa w1 r sent w' :
  arm_unavailable arm = false -> charged a n w -> attempt_begin (en_ancestors env) a p (en_begin env) w = (Ok (Some fa), w1) ->
  face_request names u p arm env w = (r, sent, w') -> (sent && is_face_grant r) = false ->
  charged a (n + 1) w'.
Proof.
  intros Hu Hn Hb Hreq Hf.
  pose proof (attempt_begin_charged (en_ancestors env) a p (en_begin env) n Ha Hp Hbegin w Hn) as Hc. rewrite Hb in Hc.
  apply face_request_cases in Hreq as [(_ & [[_ Hw]|(a' & Hn' & _ & Hno)])|(a' & fa' & w2 & Hn' & Hb' & Hend)].
  - destruct Hw; congruence.
  - assert (a' = a) as -> by congruence. rewrite Hb in Hno. by destruct (Hno fa).
  - assert (a' = a) as -> by congruence. rewrite Hb in Hb'. injection Hb' as <- <-.
    destruct (begin_reserved_self w fa w1 Hb) as (-> & _).
    destruct Hend as [(-> & Hg & _)|(_ & [-> |[o ->]])]; [by rewrite Hg in Hf| |].
    + by apply charged_release.
    + apply hoare_snd; [|done]. by apply (denied_keeps (tracks_self a (n + 1) Ha)).
Qed.

(** The account's operation lock is free again after every request,
    whatever the engine, the disk, the TPM or the client did: no path leaves
    the account locked out of face authentication. *)
Theorem request_releases_lock arm w r sent w' :
  face_request names u p arm env w = (r, sent, w') -> w_oplock w' = w_oplock w.
Proof.
  clear Hdenied. intros Hreq.
  pose proof (attempt_begin_reserved (en_ancestors env) a _ _ p (en_begin env) Ha Hp Hbegin w (conj eq_refl eq_refl)) as Hb.
  apply face_request_cases in Hreq as [(_ & [[-> _]|(a' & Hn & -> & Hno)])|(a' & fa & w1 & Hn & Hb' & Hend)];
    [done| |]; (assert (a' = a) as -> by congruence).
  - destruct (attempt_begin (en_ancestors env) a p (en_begin env) w) as [[[fa|]|] w1]; simpl in *; [by destruct (Hno fa)|done|done].
  - destruct (begin_reserved_self w fa w1 Hb') as (-> & Hfree & Hl & _).
    assert (w_oplock w1 ∖ {[a_uid a]} = w_oplock w) as Hgoal by (rewrite Hl; set_solver).
    destruct Hend as [(_ & _ & -> & _)|(_ & [-> |[o ->]])].
    + unfold delivered. rewrite guarded_releases by apply keeps_delivered_inner. done.
    + done.
    + unfold denied. rewrite guarded_releases by apply keeps_denied_inner. done.
Qed.
End Claims.

(** ** Concrete requests *)

#[local] Existing Instance root_host.

Definition passing : Check := MkCheck (Ok ()) None (Ok ()).
Definition matched : FaceOutcome := MkFaceOutcome (MkOutcome true Granted) 0 true "match" None.
Definition open_wire : Wire := MkWire true 5 true false 6 true 7 true.
Definition late_wire : Wire := MkWire true 5 true false 6 true (5000 * MILLI) true.

Definition trusted : list (option inode) := repeat (Some (Inode KDir 0 493 2 [])) 3.

(** A match within a four-second window, written by [x]. *)
Definition matching (x : Wire) : Env :=
  MkEnv trusted (Ok (at_second 1)) (Ok (at_second 2)) (Ok matched) (fun _ => passing) (from_started 0 4000) x.

Definition alice_name (_ : Z) : option string := Some "alice".
Definition alice_release : Arm := Release "alice" true (Ok ([], SecretKind.LoginPassword)).
Definition alice_verify : Arm := Verify true None 0.

Lemma delivered_grant_earned_witness :
  let e := face_request alice_name (Some 1000) five_strikes alice_release (matching open_wire) fresh_world in
  fst e = (Response.PasswordUnsealed [] SecretKind.LoginPassword, true) /\
  spent alice (w_dur (snd e) !! face_path alice) = 0 /\
  exists w1, w_dur w1 !! face_path alice <> None /\ snd e = snd (delivered (MkAttempt alice five_strikes) w1).
Proof.
  intros e.
  assert (fst e = (Response.PasswordUnsealed [] SecretKind.LoginPassword, true)) as Hr
    by (vm_compute; reflexivity).
  assert (spent alice (w_dur (snd e) !! face_path alice) = 0) as Hz by (vm_compute; reflexivity).
  split; [exact Hr|]. split; [exact Hz|]. clear Hz.
  destruct e as [[r sent] w'] eqn:E. unfold e in E. simpl in Hr. injection Hr as -> ->.
  destruct (delivered_grant_earned alice five_strikes alice_name (Some 1000) (matching open_wire)
    alice_typed ltac:(done) (at_second_typed 1 ltac:(lia)) eq_refl _ _ _ _ E eq_refl)
    as (o & w1 & _ & (_ & i & rec & _ & Hd & _) & _ & _ & _ & _ & Hw).
  exists w1. split; [by rewrite Hd|exact Hw].
Defined.

Lemma undelivered_attempt_stays_charged_witness :
  let e := face_request alice_name (Some 1000) five_strikes alice_verify (matching late_wire) fresh_world in
  is_face_grant (fst (fst e)) = true /\ snd (fst e) = false /\ charged alice 1 (snd e).
Proof.
  intros e.
  assert (is_face_grant (fst (fst e)) = true) as Hg by (vm_compute; reflexivity).
  assert (snd (fst e) = false) as Hs by (vm_compute; reflexivity).
  split; [exact Hg|]. split; [exact Hs|].
  destruct e as [[r sent] w'] eqn:E. unfold e in E. simpl in Hs. subst sent.
  destruct (attempt_begin trusted alice five_strikes (Ok (at_second 1)) fresh_world) as [b w1] eqn:Eb.
  assert (b = Ok (Some (MkAttempt alice five_strikes))) as ->.
  { apply (f_equal fst) in Eb. simpl in Eb. rewrite <- Eb. vm_compute. reflexivity. }
  apply (undelivered_attempt_stays_charged alice five_strikes alice_name (Some 1000) (matching late_wire)
    alice_typed ltac:(done) (at_second_typed 1 ltac:(lia)) (at_second_typed 2 ltac:(lia)) eq_refl
    alice_verify 0 fresh_world (MkAttempt alice five_strikes) w1 r false w'); try done.
Defined.

Lemma request_releases_lock_witness :
  w_oplock (snd (face_request alice_name (Some 1000) five_strikes alice_verify (matching late_wire) fresh_world)) = ∅.
Proof.
  destruct (face_request _ _ _ _ _ _) as [[r sent] w'] eqn:E.
  exact (request_releases_lock alice five_strikes alice_name (Some 1000) (matching late_wire)
    alice_typed ltac:(done) (at_second_typed 1 ltac:(lia)) eq_refl alice_verify fresh_world r sent w' E).
Defined.
