(* ===== verification/LiveStatus.v ===== *)
(** * Live status: what the worker is doing, and for whom

    [irlume-daemon/src/live.rs] (the tracker every request registers with and
    every [LiveStatus] reader is served from), [Owner] of
    [irlume-daemon/src/diagnostics.rs], and the data and the reader's checks
    of [irlume-common/src/live.rs].

    The tracker is one mutex-guarded value, so each method below is one
    transition of [Inner]; a registration's phase is only accessed under that
    lock, so it is part of the same transition.  An [OperationId] is the
    128-bit number its bytes spell.  The camera inventory is carried through
    unread, so its type is a parameter. *)

From stdpp Require Import sorting.
From S2P Require Import Prelude Services Protocol Arbiter.

(** ** Data *)

Inductive LiveStage := Starting | Ready | Rebuilding | Stopping | StageUnknown.

#[export] Instance LiveStage_eq_dec : EqDecision LiveStage.
Proof. solve_decision. Defined.

Module Kind.
Inductive t :=
| Authentication | WalletAuthentication | Enrollment | Framing | Identification
| CameraEnumeration | CameraSetup | CaptureQualification | CameraDiagnostics | ProfileRead
| ProfileUpdate | SensorReadiness | WalletRead | WalletUpdate | RecoveryUpdate | Compatibility
| Status | Unknown.

#[global] Instance t_eq_dec : EqDecision t.
Proof. solve_decision. Defined.

(** The constructors in order, which is the order a [BTreeMap] keyed by a kind
    iterates in. *)
Definition all : list t :=
  [Authentication; WalletAuthentication; Enrollment; Framing; Identification;
   CameraEnumeration; CameraSetup; CaptureQualification; CameraDiagnostics; ProfileRead;
   ProfileUpdate; SensorReadiness; WalletRead; WalletUpdate; RecoveryUpdate; Compatibility;
   Status; Unknown].

Lemma elem_of_all k : k ∈ all.
Proof. destruct k; set_solver. Qed.

Lemma NoDup_all : NoDup all.
Proof. apply (bool_decide_unpack _). by vm_compute. Qed.

Definition index (k : t) : nat :=
  match list_find (k =.) all with Some (i, _) => i | None => 0%nat end.

#[global] Program Instance t_countable : Countable t :=
  inj_countable index (fun n => all !! n) _.
Next Obligation. by intros []. Qed.
End Kind.

Inductive Owner := Daemon | Account (uid : Z) | Unresolved.

#[export] Instance Owner_eq_dec : EqDecision Owner.
Proof. solve_decision. Defined.

#[export] Program Instance Owner_countable : Countable Owner :=
  inj_countable'
    (fun o => match o with Daemon => inl () | Account u => inr (inl u) | Unresolved => inr (inr ()) end)
    (fun s => match s with
              | inl _ => Daemon | inr (inl u) => Account u | inr (inr _) => Unresolved
              end) _.
Next Obligation. by intros []. Qed.

(** [Owner::visible_to]. *)
Definition visible_to (o : Owner) (peer_uid : Z) : bool :=
  match o with
  | Daemon => true
  | Account uid => bool_decide (peer_uid = 0) || bool_decide (uid = peer_uid)
  | Unresolved => bool_decide (peer_uid = 0)
  end.

Record Worker := MkWorker {
  w_id : Z; w_kind : Kind.t; w_owner : Owner; w_started_ms : Z; w_cancelled : bool }.

Definition MAX_REVISION_ACCOUNTS : nat := 1024.
Definition MAX_WAITING_KINDS : nat := 18.
Definition MAX_BACKGROUND_OPERATIONS : nat := 4.
Definition LIVE_SCHEMA_VERSION : Z := 1.

Record AccountRevision := MkAccount { changes : Z; latest : Z }.

(** [live.rs]'s [Inner]. *)
Record Live := MkLive {
  stage : LiveStage;
  revision : Z;
  shared_revision : Z;
  account_revisions : gmap Z AccountRevision;
  waiting : gmap (Kind.t * Owner) Z;
  worker : option Worker;
  tasks : list Worker;
  available : bool;
}.

Definition set_available (b : bool) (s : Live) : Live :=
  MkLive (stage s) (revision s) (shared_revision s) (account_revisions s) (waiting s) (worker s)
    (tasks s) b.
Definition set_waiting (m : gmap (Kind.t * Owner) Z) (s : Live) : Live :=
  MkLive (stage s) (revision s) (shared_revision s) (account_revisions s) m (worker s)
    (tasks s) (available s).
Definition set_worker (w : option Worker) (s : Live) : Live :=
  MkLive (stage s) (revision s) (shared_revision s) (account_revisions s) (waiting s) w
    (tasks s) (available s).
Definition set_tasks (l : list Worker) (s : Live) : Live :=
  MkLive (stage s) (revision s) (shared_revision s) (account_revisions s) (waiting s) (worker s)
    l (available s).
Definition set_revisions (rev shared : Z) (m : gmap Z AccountRevision) (s : Live) : Live :=
  MkLive (stage s) rev shared m (waiting s) (worker s) (tasks s) (available s).

(** [LiveState::new]. *)
Definition live_new : Live := MkLive Starting 0 0 ∅ ∅ None [] true.

(** ** Counting completed changes *)

Inductive ChangeReaders := Every | OneAccount (uid : Z) | RootOnly.

Definition change_readers (kind : Kind.t) (owner : Owner) : ChangeReaders :=
  match kind, owner with
  | Kind.CameraSetup, _ | Kind.CaptureQualification, _ => Every
  | _, Daemon | _, Unresolved => Every
  | _, Account uid => if bool_decide (uid = 0) then RootOnly else OneAccount uid
  end.

(** A [BTreeMap]'s entries, in key order. *)
Definition key_le (a b : Z * AccountRevision) : Prop := a.1 <= b.1.
#[export] Instance key_le_dec : RelDecision key_le := fun a b => Z.le_dec a.1 b.1.
Definition entries (m : gmap Z AccountRevision) : list (Z * AccountRevision) :=
  merge_sort key_le (map_to_list m).

(** [Iterator::min_by_key] on [latest]: the first of the least. *)
Fixpoint min_by_latest (l : list (Z * AccountRevision)) : option (Z * AccountRevision) :=
  match l with
  | [] => None
  | e :: l =>
      match min_by_latest l with
      | Some e' => if latest e'.2 <? latest e.2 then Some e' else Some e
      | None => Some e
      end
  end.

(** The eviction of [Inner::note_change]: the count whose latest change is
    oldest moves into the shared one. *)
Definition evict (shared : Z) (m : gmap Z AccountRevision) : Z * gmap Z AccountRevision :=
  match min_by_latest (entries m) with
  | Some (evicted, _) =>
      match m !! evicted with
      | Some account => (shared + changes account, delete evicted m)
      | None => (shared, m)
      end
  | None => (shared, m)
  end.

Definition make_room (uid : Z) (shared : Z) (m : gmap Z AccountRevision)
    : Z * gmap Z AccountRevision :=
  if bool_decide (m !! uid = None) && bool_decide (size m = MAX_REVISION_ACCOUNTS)
  then evict shared m else (shared, m).

(** [Inner::note_change]. *)
Definition note_change (kind : Kind.t) (owner : Owner) (s : Live) : Live :=
  match checked_add 64 (revision s) 1 with
  | None => set_available false s
  | Some rev =>
      match change_readers kind owner with
      | Every => set_revisions rev (shared_revision s + 1) (account_revisions s) s
      | OneAccount uid =>
          let '(shared, m) := make_room uid (shared_revision s) (account_revisions s) in
          let account := default (MkAccount 0 0) (m !! uid) in
          set_revisions rev shared (<[uid := MkAccount (changes account + 1) rev]> m) s
      | RootOnly => set_revisions rev (shared_revision s) (account_revisions s) s
      end
  end.

(** [Inner::revision_for]. *)
Definition revision_for (peer_uid : Z) (s : Live) : Z :=
  if bool_decide (peer_uid = 0) then revision s
  else shared_revision s + from_option changes 0 (account_revisions s !! peer_uid).

Definition hidden_from (peer_uid : Z) (o : Owner) : bool := negb (visible_to o peer_uid).

(** [Inner::shows_unknown_work]. *)
Definition shows_unknown_work (peer_uid : Z) (s : Live) : bool :=
  from_option (fun w => hidden_from peer_uid (w_owner w)) false (worker s)
  || existsb (fun w => hidden_from peer_uid (w_owner w)) (tasks s)
  || existsb (fun e : Kind.t * Owner * Z => hidden_from peer_uid e.1.2) (map_to_list (waiting s)).

(** ** Registrations *)

Inductive Phase := CREATED | WAITING | RUNNING | FINISHED | UNTRACKED.
#[export] Instance Phase_eq_dec : EqDecision Phase.
Proof. solve_decision. Defined.

Inductive Lane := WorkerLane | BackgroundLane.
#[export] Instance Lane_eq_dec : EqDecision Lane.
Proof. solve_decision. Defined.

Record Registration := MkRegistration {
  g_id : Z; g_kind : Kind.t; g_owner : Owner; g_changes : bool; g_lane : Lane; g_phase : Phase }.

Definition set_phase (p : Phase) (g : Registration) : Registration :=
  MkRegistration (g_id g) (g_kind g) (g_owner g) (g_changes g) (g_lane g) p.

(** [LiveState::register_in_lane], [register] and [register_background]. *)
Definition register_in_lane (id : Z) (kind : Kind.t) (changes_state : bool) (owner : Owner)
    (lane : Lane) : Registration :=
  MkRegistration id kind owner changes_state lane CREATED.
Definition register (id : Z) (kind : Kind.t) (changes_state : bool) (owner : Owner) :=
  register_in_lane id kind changes_state owner WorkerLane.
Definition register_background (id : Z) :=
  register_in_lane id Kind.CaptureQualification true Daemon BackgroundLane.

(** [LiveState::set_stage]: shutdown wins over a concurrent publication. *)
Definition set_stage (st : LiveStage) (s : Live) : Live :=
  if bool_decide (stage s = Stopping) then s
  else MkLive st (revision s) (shared_revision s) (account_revisions s) (waiting s) (worker s)
         (tasks s) (available s).

(** [LiveState::note_shared_change]. *)
Definition note_shared_change (s : Live) : Live := note_change Kind.CaptureQualification Daemon s.

(** [LiveGuard::waiting]. *)
Definition guard_waiting (g : Registration) (s : Live) : Registration * Live :=
  if negb (bool_decide (g_phase g = CREATED)) then (g, s) else
  if negb (bool_decide (g_lane g = WorkerLane)) then (g, set_available false s) else
  let key := (g_kind g, g_owner g) in
  let count := default 0 (waiting s !! key) in
  (set_phase WAITING g,
   match checked_add 64 count 1 with
   | Some next => set_waiting (<[key := next]> (waiting s)) s
   | None => set_available false (set_waiting (<[key := count]> (waiting s)) s)
   end).

(** [remove_waiter]. *)
Definition remove_waiter (kind : Kind.t) (owner : Owner) (s : Live) : Live :=
  match waiting s !! (kind, owner) with
  | Some count =>
      if 1 <? count then set_waiting (<[(kind, owner) := count - 1]> (waiting s)) s
      else set_waiting (delete (kind, owner) (waiting s)) s
  | None => set_available false s
  end.

Definition duplicate_id (id : Z) (s : Live) : bool :=
  from_option (fun w => bool_decide (w_id w = id)) false (worker s)
  || existsb (fun w => bool_decide (w_id w = id)) (tasks s).

Definition lane_full (lane : Lane) (s : Live) : bool :=
  match lane with
  | WorkerLane => bool_decide (is_Some (worker s))
  | BackgroundLane => bool_decide (length (tasks s) = MAX_BACKGROUND_OPERATIONS)
  end.

(** What [LiveGuard::running] does once the registration left the queue. *)
Definition start (now_ms : Z) (g : Registration) (s : Live) : Registration * Live :=
  if duplicate_id (g_id g) s || lane_full (g_lane g) s
  then (set_phase UNTRACKED g, set_available false s)
  else
    let w := MkWorker (g_id g) (g_kind g) (g_owner g) now_ms false in
    (set_phase RUNNING g,
     match g_lane g with
     | WorkerLane => set_worker (Some w) s
     | BackgroundLane => set_tasks (tasks s ++ [w]) s
     end).

(** [LiveGuard::running]. *)
Definition guard_running (now_ms : Z) (g : Registration) (s : Live) : Registration * Live :=
  match g_phase g with
  | WAITING => start now_ms g (remove_waiter (g_kind g) (g_owner g) s)
  | CREATED => start now_ms g s
  | _ => (g, s)
  end.

Definition cancelled_worker (w : Worker) : Worker :=
  MkWorker (w_id w) (w_kind w) (w_owner w) (w_started_ms w) true.

(** The first element with the id, as [iter_mut().find] marks it. *)
Fixpoint cancel_first (id : Z) (l : list Worker) : list Worker :=
  match l with
  | [] => []
  | w :: l => if bool_decide (w_id w = id) then cancelled_worker w :: l else w :: cancel_first id l
  end.

(** [LiveGuard::cancel]. *)
Definition guard_cancel (g : Registration) (s : Live) : Registration * Live :=
  if negb (bool_decide (g_phase g = RUNNING)) then (g, s) else
  (g, match g_lane g with
      | WorkerLane =>
          match worker s with
          | Some w => if bool_decide (w_id w = g_id g)
                      then set_worker (Some (cancelled_worker w)) s else s
          | None => s
          end
      | BackgroundLane => set_tasks (cancel_first (g_id g) (tasks s)) s
      end).

(** Leaving the worker or the background list in [Registration::finish]. *)
Definition untrack (g : Registration) (s : Live) : Live :=
  match g_lane g with
  | WorkerLane =>
      match worker s with
      | Some w => if bool_decide (w_id w = g_id g) then set_worker None s else set_available false s
      | None => set_available false s
      end
  | BackgroundLane =>
      match list_find (fun w => w_id w = g_id g) (tasks s) with
      | Some (index, _) => set_tasks (swap_remove index (tasks s)) s
      | None => set_available false s
      end
  end.

(** [Registration::finish], which [Drop] also runs. *)
Definition guard_finish (g : Registration) (s : Live) : Registration * Live :=
  let counted s := if g_changes g then note_change (g_kind g) (g_owner g) s else s in
  (set_phase FINISHED g,
   match g_phase g with
   | WAITING => remove_waiter (g_kind g) (g_owner g) s
   | RUNNING => counted (untrack g s)
   | UNTRACKED => counted s
   | _ => s
   end).

(** ** A reader's view *)

Record LiveWorkerOperation := MkOperation {
  o_id : Z; o_kind : Kind.t; o_elapsed_ms : Z; o_cancellation_requested : bool }.
Record LiveWaitingCount := MkRow { r_kind : Kind.t; r_count : Z }.

Definition visible_kind (kind : Kind.t) (owner : Owner) (peer_uid : Z) : Kind.t :=
  if visible_to owner peer_uid then kind else Kind.Unknown.

(** [stop_requested] of [live.rs]. *)
Definition stop_shown (token : CancelToken) (kind : Kind.t) (owner : Owner) (peer_uid : Z) : bool :=
  let yield_shown := bool_decide (peer_uid = 0) || bool_decide (owner = Account peer_uid) in
  match kind with
  | Kind.Authentication | Kind.WalletAuthentication | Kind.Unknown => cancel_requested token
  | _ => if yield_shown then stop_requested token else cancel_requested token
  end.

Definition sat_add64 (a b : Z) : Z := Z.min (2 ^ 64 - 1) (a + b).

(** The waiting rows of [snapshot_for]: counts added up under the kind the
    reader reads. *)
Definition waiting_by_kind (peer_uid : Z) (s : Live) : gmap Kind.t Z :=
  map_fold (fun key count rows =>
      let k := visible_kind key.1 key.2 peer_uid in
      <[k := sat_add64 (default 0 (rows !! k)) count]> rows) ∅ (waiting s).

Definition waiting_rows (peer_uid : Z) (s : Live) : list LiveWaitingCount :=
  omap (fun k => MkRow k <$> waiting_by_kind peer_uid s !! k) Kind.all.

Section Snapshot.
Context {C : Type}.

Record LiveStatusSnapshot := MkSnapshot {
  live_schema : Z;
  daemon_instance : Z;
  daemon_uptime_ms : Z;
  state_revision : Z;
  s_stage : LiveStage;
  s_worker : option LiveWorkerOperation;
  s_background : list LiveWorkerOperation;
  s_waiting : list LiveWaitingCount;
  s_cameras : C;
  tracking_available : bool;
}.

Definition worker_view (now_ms : Z) (token : option CancelToken) (peer_uid : Z) (w : Worker)
    : LiveWorkerOperation :=
  let kind := visible_kind (w_kind w) (w_owner w) peer_uid in
  let requested := from_option (fun t => stop_shown t kind (w_owner w) peer_uid) false token in
  MkOperation (w_id w) kind (sat_sub now_ms (w_started_ms w)) (w_cancelled w || requested).

Definition task_view (now_ms : Z) (peer_uid : Z) (w : Worker) : LiveWorkerOperation :=
  MkOperation (w_id w) (visible_kind (w_kind w) (w_owner w) peer_uid)
    (sat_sub now_ms (w_started_ms w)) (w_cancelled w).

(** [LiveState::snapshot_for]; [instance], [now_ms] and [token] are the
    fields of [Shared]. *)
Definition snapshot_for (instance now_ms : Z) (token : option CancelToken) (cameras : C)
    (peer_uid : Z) (s : Live) : LiveStatusSnapshot :=
  MkSnapshot LIVE_SCHEMA_VERSION instance now_ms (revision_for peer_uid s) (stage s)
    (worker_view now_ms token peer_uid <$> worker s)
    (task_view now_ms peer_uid <$> tasks s)
    (waiting_rows peer_uid s) cameras (available s).

(** ** What a reader accepts ([LiveStatusSnapshot::deserialize]) *)

Fixpoint checked_sum (acc : Z) (rows : list LiveWaitingCount) : option Z :=
  match rows with
  | [] => Some acc
  | row :: rows =>
      match checked_add 64 acc (r_count row) with
      | Some acc => checked_sum acc rows
      | None => None
      end
  end.

(** [enumerate().any(|(i, x)| bad(x) || rows[..i].iter().any(same x))]. *)
Fixpoint any_indexed {A} (bad : A -> bool) (same : A -> A -> bool) (before l : list A) : bool :=
  match l with
  | [] => false
  | x :: l => bad x || existsb (same x) before || any_indexed bad same (before ++ [x]) l
  end.

Definition wire_accepted (s : LiveStatusSnapshot) : bool :=
  bool_decide (length (s_background s) <= MAX_BACKGROUND_OPERATIONS)%nat
  && bool_decide (length (s_waiting s) <= MAX_WAITING_KINDS)%nat
  && negb (
    negb (bool_decide (live_schema s = LIVE_SCHEMA_VERSION))
    || bool_decide (daemon_instance s = 0)
    || bool_decide (MAX_WAITING_KINDS < length (s_waiting s))%nat
    || bool_decide (checked_sum 0 (s_waiting s) = None)
    || any_indexed (fun row => bool_decide (r_count row = 0))
         (fun row prior => bool_decide (r_kind prior = r_kind row)) [] (s_waiting s)
    || any_indexed (fun task => bool_decide (o_id task = 0)
           || bool_decide (daemon_uptime_ms s < o_elapsed_ms task)
           || from_option (fun w => bool_decide (o_id w = o_id task)) false (s_worker s))
         (fun task prior => bool_decide (o_id prior = o_id task)) [] (s_background s)
    || from_option (fun w => bool_decide (o_id w = 0)
           || bool_decide (daemon_uptime_ms s < o_elapsed_ms w)) false (s_worker s)).
End Snapshot.
Arguments LiveStatusSnapshot C : clear implicits.

(** ** Which requests register ([request_kind]) *)

Definition request_kind (req : Request) : option (Kind.t * bool) :=
  match req with
  | Authenticate _ _ _ _ => Some (Kind.Authentication, false)
  | UnsealPassword _ _ | UnsealKeyring _ _ _ _ | ReleaseTokenForDisarm _ =>
      Some (Kind.WalletAuthentication, false)
  | Enroll _ _ _ _ | EnrollOn _ _ _ _ | EnrollSplitOn _ _ _ _ | EnrollmentSession _ _ _ _
  | AddScan _ _ _ _ | AddCameraGroup _ _ _ | AddCameraGroupOn _ _ _ | AddSplitCameraGroupOn _ _ _ =>
      Some (Kind.Enrollment, true)
  | PositionSample _ | PositionSession _ => Some (Kind.Framing, false)
  | Identify | IdentifyFor _ => Some (Kind.Identification, false)
  | ListCameras => Some (Kind.CameraEnumeration, false)
  | SetCameras _ _ | SetCamerasIfCurrent _ _ | AddSplitAuthorization | RemoveSplitAuthorization _
  | SelectSplitPair _ => Some (Kind.CameraSetup, true)
  | ListSplitAuthorizations | SplitStatus => None
  | SetupIrEmitter dry_run => Some (Kind.CameraSetup, negb dry_run)
  | TuneCaptureMode _ _ => Some (Kind.CaptureQualification, true)
  | CaptureModeStatus | CameraDiagnostics | SelfTest _ | SupportProbe _ =>
      Some (Kind.CameraDiagnostics, false)
  | ListProfiles _ _ _ => Some (Kind.ProfileRead, false)
  | DeleteProfile _ _ | DeleteScan _ _ _ | ForgetRecognizer _ _ | RenameProfile _ _ _
  | RemoveCameraGroup _ _ | RenameScan _ _ _ _ | SetRequireEyesOpen _ _ =>
      Some (Kind.ProfileUpdate, true)
  | FaceSensorStatus (Some _) => Some (Kind.SensorReadiness, false)
  | KeyringInfo _ => Some (Kind.WalletRead, false)
  | SealPassword _ | ResealPassword _ _ _ _ | ForgetPassword _ => Some (Kind.WalletUpdate, true)
  | RecoverySetup _ | RecoveryRestore _ | RecoveryForget _ => Some (Kind.RecoveryUpdate, true)
  | CaptureEarMedian _ | SetClosureCalibration _ => Some (Kind.Compatibility, false)
  | LiveStatus | SupportSnapshot _ | TraceSubscribe _ _ | Ping | Health | PreferencesStatus
  | SealedStorage | TpmReadiness | TpmEndorsement | LastAttempts _ | FaceSensorStatus None
  | HasSealedPassword _ | KeyringMetadata _ | RecoveryStatus _ | RetryStatus _ | RetryReset _ =>
      None
  end.

(** ** Runs

    The tracker with every registration made so far, in order; a dropped
    registration is one whose [finish] ran.  [EvPoisoned] is a lock recovered
    after a panic. *)

Record World := MkWorld { live : Live; regs : list Registration }.

Definition world_new : World := MkWorld live_new [].

Inductive event :=
| EvRegister (id : Z) (kind : Kind.t) (changes_state : bool) (owner : Owner)
| EvRegisterBackground (id : Z)
| EvWaiting (i : nat)
| EvRunning (i : nat) (now_ms : Z)
| EvCancel (i : nat)
| EvFinish (i : nat)
| EvStage (st : LiveStage)
| EvSharedChange
| EvPoisoned.

Definition on_guard (i : nat) (f : Registration -> Live -> Registration * Live) (w : World) : World :=
  match regs w !! i with
  | Some g => let '(g', s) := f g (live w) in MkWorld s (<[i := g']> (regs w))
  | None => w
  end.

Definition apply_event (w : World) (e : event) : World :=
  match e with
  | EvRegister id kind changes_state owner =>
      MkWorld (live w) (regs w ++ [register id kind changes_state owner])
  | EvRegisterBackground id => MkWorld (live w) (regs w ++ [register_background id])
  | EvWaiting i => on_guard i guard_waiting w
  | EvRunning i now_ms => on_guard i (guard_running now_ms) w
  | EvCancel i => on_guard i guard_cancel w
  | EvFinish i => on_guard i guard_finish w
  | EvStage st => MkWorld (set_stage st (live w)) (regs w)
  | EvSharedChange => MkWorld (note_shared_change (live w)) (regs w)
  | EvPoisoned => MkWorld (set_available false (live w)) (regs w)
  end.

Definition run (w : World) (es : list event) : World := foldl apply_event w es.
