(* ===== verification/LiveTheory.v ===== *)
(** * Live status: what every reader can rely on

    Invariants of the tracker of [LiveStatus] over every run, what a snapshot
    shows of the registrations behind it, and what it does not show. *)

From stdpp Require Import sorting fin_maps.
From S2P Require Import Prelude Services Protocol Arbiter LiveStatus.

(** ** The revision counters *)

Definition sum_changes (m : gmap Z AccountRevision) : Z :=
  map_fold (fun _ a acc => changes a + acc) 0 m.

Lemma sum_changes_insert m u a :
  m !! u = None -> sum_changes (<[u := a]> m) = changes a + sum_changes m.
Proof. intros Hu. unfold sum_changes. rewrite map_fold_insert_L; [done|lia|done]. Qed.

Lemma sum_changes_delete m u a :
  m !! u = Some a -> sum_changes m = changes a + sum_changes (delete u m).
Proof. intros Hu. unfold sum_changes. rewrite (map_fold_delete_L _ _ u a); [done|lia|done]. Qed.

Lemma sum_changes_empty : sum_changes ∅ = 0.
Proof. done. Qed.

Record revisions_ok (s : Live) : Prop := {
  rev_shared : 0 <= shared_revision s;
  rev_positive : map_Forall (fun _ a => 0 <= changes a) (account_revisions s);
  rev_total : shared_revision s + sum_changes (account_revisions s) <= revision s;
  rev_width : revision s < 2 ^ 64;
  rev_accounts : (size (account_revisions s) <= MAX_REVISION_ACCOUNTS)%nat;
}.

Lemma min_by_latest_elem l e : min_by_latest l = Some e -> e ∈ l.
Proof.
  revert e; induction l as [|x l IH]; intros e; simpl; [done|].
  destruct (min_by_latest l) as [e'|]; [|set_solver].
  destruct (_ <? _); intros [= <-]; set_solver.
Qed.

Lemma min_by_latest_least l e x :
  min_by_latest l = Some e -> x ∈ l -> latest e.2 <= latest x.2.
Proof.
  revert e x; induction l as [|y l IH]; intros e x; simpl; [set_solver|].
  destruct (min_by_latest l) as [e'|] eqn:El.
  - specialize (IH e'). destruct (Z.ltb_spec (latest e'.2) (latest y.2)); intros [= <-] [->|Hx]%elem_of_cons.
    + lia.
    + by apply IH.
    + lia.
    + specialize (IH x eq_refl Hx). lia.
  - destruct l; [|by simpl in El; repeat case_match]. intros [= <-] Hx. set_solver.
Qed.

Lemma min_by_latest_some l : l <> [] -> is_Some (min_by_latest l).
Proof. destruct l; [done|]. simpl. repeat case_match; eauto. Qed.

Lemma entries_elem m u a : (u, a) ∈ entries m <-> m !! u = Some a.
Proof. unfold entries. by rewrite merge_sort_Permutation, elem_of_map_to_list. Qed.

Lemma evict_spec shared m :
  m <> ∅ -> exists u a, m !! u = Some a /\ evict shared m = (shared + changes a, delete u m)
    /\ (forall u' a', m !! u' = Some a' -> latest a <= latest a').
Proof.
  intros Hm. unfold evict. destruct (min_by_latest (entries m)) as [[u a]|] eqn:E.
  - pose proof (min_by_latest_elem _ _ E) as He%entries_elem. rewrite He.
    exists u, a. split_and!; [done..|]. intros u' a' Hu'%entries_elem.
    exact (min_by_latest_least _ _ _ E Hu').
  - destruct (min_by_latest_some (entries m)) as [? Hs]; [|congruence].
    intros Hn. apply Hm, map_to_list_empty_iff, Permutation_nil.
    rewrite <- Hn. apply merge_sort_Permutation.
Qed.

(** Room for one more account: nothing is lost, and no reader goes back. *)
Lemma make_room_spec uid shared m shared' m' :
  make_room uid shared m = (shared', m') ->
  map_Forall (fun _ a => 0 <= changes a) m -> (size m <= MAX_REVISION_ACCOUNTS)%nat ->
  shared <= shared' /\ shared' + sum_changes m' = shared + sum_changes m
  /\ m' ⊆ m /\ m' !! uid = m !! uid
  /\ (m !! uid = None -> (size m' < MAX_REVISION_ACCOUNTS)%nat)
  /\ (size m' <= MAX_REVISION_ACCOUNTS)%nat
  /\ forall u, shared + from_option changes 0 (m !! u) <= shared' + from_option changes 0 (m' !! u).
Proof.
  intros Hr Hpos Hsz. unfold make_room in Hr.
  destruct (bool_decide _ && bool_decide _) eqn:Ec; reflect_bools; simplify_eq.
  - destruct (evict_spec shared m) as (e & a & He & Hev & _).
    { intros ->. by rewrite map_size_empty in *. }
    rewrite Hev in Hr. simplify_eq. pose proof (Hpos _ _ He). simpl in *.
    rewrite (sum_changes_delete m e a He), map_size_delete_Some by eauto.
    unfold MAX_REVISION_ACCOUNTS in *.
    split_and!; [lia|lia|apply delete_subseteq|..|intros; lia|lia|].
    + rewrite lookup_delete_ne; [done|congruence].
    + intros u. destruct (decide (u = e)) as [->|].
      * rewrite lookup_delete_eq, He. simpl. lia.
      * rewrite lookup_delete_ne by done. lia.
  - split_and!; try done; try lia. intros Hn.
    apply andb_false_iff in Ec as [Ec|Ec]; reflect_bools; [done|lia].
Qed.

Lemma note_change_revisions_ok kind owner s :
  revisions_ok s -> revisions_ok (note_change kind owner s).
Proof.
  intros [Hs Hp Ht Hw Ha]. unfold note_change.
  destruct (checked_add 64 (revision s) 1) as [rev|] eqn:Er; [|by constructor].
  apply checked_add_Some in Er as [-> Hlt].
  destruct (change_readers kind owner) as [|uid|]; [constructor; simpl; try done; lia| |constructor; simpl; try done; lia].
  destruct (make_room _ _ _) as [shared m] eqn:Er.
  destruct (make_room_spec _ _ _ _ _ Er Hp Ha) as (Hge & Hsum & Hsub & Hu & Hroom & Hsz & _).
  assert (Hp' : map_Forall (fun _ a => 0 <= changes a) m).
  { intros u a Hl. eapply Hp, lookup_weaken; eauto. }
  constructor; simpl.
  - lia.
  - apply map_Forall_insert_2; [|done]. simpl. destruct (m !! uid) as [a|] eqn:Em; simpl; [|lia].
    specialize (Hp' _ _ Em). simpl in Hp'. lia.
  - destruct (m !! uid) as [a|] eqn:Em; simpl.
    + rewrite <- insert_delete_eq, sum_changes_insert by apply lookup_delete_eq. simpl.
      rewrite (sum_changes_delete m uid a Em) in Hsum. lia.
    + rewrite sum_changes_insert by done. simpl. lia.
  - done.
  - destruct (m !! uid) as [a|] eqn:Em.
    + rewrite map_size_insert_Some by eauto. done.
    + rewrite map_size_insert_None by done. symmetry in Hu. specialize (Hroom Hu). lia.
Qed.

(** One completed change never takes any reader's revision back. *)
Lemma note_change_revision_mono kind owner s u :
  revisions_ok s -> revision_for u s <= revision_for u (note_change kind owner s).
Proof.
  intros [Hs Hp Ht Hw Ha]. unfold note_change.
  destruct (checked_add 64 (revision s) 1) as [rev|] eqn:Er; [|done].
  apply checked_add_Some in Er as [-> Hlt]. unfold revision_for.
  destruct (change_readers kind owner) as [|uid|]; [case_bool_decide; simpl; lia| |case_bool_decide; simpl; lia].
  destruct (make_room _ _ _) as [shared m] eqn:Er.
  destruct (make_room_spec _ _ _ _ _ Er Hp Ha) as (_ & _ & _ & _ & _ & _ & Hmono).
  case_bool_decide; simpl; [lia|]. specialize (Hmono u).
  destruct (decide (u = uid)) as [->|]; [|by rewrite lookup_insert_ne].
  rewrite lookup_insert_eq. destruct (m !! uid); simpl in *; lia.
Qed.

Lemma revision_for_bounds u s :
  revisions_ok s -> 0 <= revision_for u s <= revision s.
Proof.
  intros [Hs Hp Ht Hw Ha]. assert (Hnn : forall m, map_Forall (fun _ a => 0 <= changes a) m -> 0 <= sum_changes m).
  { intros m. induction m as [|k a m Hk IH] using map_ind; intros Hm.
    - rewrite sum_changes_empty. lia.
    - rewrite sum_changes_insert by done. apply map_Forall_insert in Hm as [? Hm]; [|done].
      specialize (IH Hm). simpl in *. lia. }
  specialize (Hnn _ Hp) as Hnn0. unfold revision_for. case_bool_decide; [lia|].
  destruct (account_revisions s !! u) as [a|] eqn:El; simpl; [|lia].
  pose proof (Hp _ _ El). rewrite (sum_changes_delete _ _ _ El) in Ht.
  assert (0 <= sum_changes (delete u (account_revisions s))) by by apply Hnn, map_Forall_delete.
  simpl in *. lia.
Qed.

(** The counters an operation leaves alone. *)
Definition same_revisions (s s' : Live) : Prop :=
  revision s' = revision s /\ shared_revision s' = shared_revision s
  /\ account_revisions s' = account_revisions s.

Lemma same_revisions_ok s s' : same_revisions s s' -> revisions_ok s -> revisions_ok s'.
Proof. intros (H1 & H2 & H3) []. by constructor; rewrite ?H1, ?H2, ?H3. Qed.

Lemma same_revisions_for s s' u : same_revisions s s' -> revision_for u s' = revision_for u s.
Proof. intros (H1 & H2 & H3). unfold revision_for. by rewrite H1, H2, H3. Qed.

Ltac solve_same := unfold same_revisions; repeat (case_match || done || case_bool_decide); done.

Lemma guard_waiting_revisions g s : same_revisions s (guard_waiting g s).2.
Proof. unfold guard_waiting. solve_same. Qed.
Lemma remove_waiter_revisions k o s : same_revisions s (remove_waiter k o s).
Proof. unfold remove_waiter. solve_same. Qed.
Lemma start_revisions now g s : same_revisions s (start now g s).2.
Proof. unfold start. solve_same. Qed.
Lemma guard_cancel_revisions g s : same_revisions s (guard_cancel g s).2.
Proof. unfold guard_cancel. solve_same. Qed.
Lemma untrack_revisions g s : same_revisions s (untrack g s).
Proof. unfold untrack. solve_same. Qed.
Lemma set_stage_revisions st s : same_revisions s (set_stage st s).
Proof. unfold set_stage. solve_same. Qed.
Lemma same_revisions_trans s1 s2 s3 :
  same_revisions s1 s2 -> same_revisions s2 s3 -> same_revisions s1 s3.
Proof. unfold same_revisions. naive_solver congruence. Qed.
Lemma guard_running_revisions now g s : same_revisions s (guard_running now g s).2.
Proof.
  unfold guard_running. case_match; [apply start_revisions| |by split..].
  eapply same_revisions_trans; [apply remove_waiter_revisions|apply start_revisions].
Qed.

(** A finishing registration leaves the counters alone or notes one change. *)
Lemma guard_finish_revisions g s :
  same_revisions s (guard_finish g s).2
  \/ exists s', same_revisions s s' /\ (guard_finish g s).2 = note_change (g_kind g) (g_owner g) s'.
Proof.
  unfold guard_finish. simpl. destruct (g_phase g); [by left|left; apply remove_waiter_revisions| |by left|].
  - destruct (g_changes g); [right|left; apply untrack_revisions].
    eexists; split; [apply untrack_revisions|done].
  - destruct (g_changes g); [right|by left]. exists s; by split.
Qed.

(** Every step either keeps the counters or notes one change. *)
Lemma apply_event_revisions w e :
  same_revisions (live w) (live (apply_event w e))
  \/ exists s k o, same_revisions (live w) s /\ live (apply_event w e) = note_change k o s
       /\ (o = Daemon \/ exists g, g ∈ regs w /\ g_owner g = o).
Proof.
  assert (Hguard : forall i f, (forall g s, same_revisions s (f g s).2) ->
    same_revisions (live w) (live (on_guard i f w))).
  { intros i f Hf. unfold on_guard. destruct (regs w !! i) as [g|]; [|by split].
    specialize (Hf g (live w)). by destruct (f g (live w)). }
  destruct e as [| |i|i now|i|i|st| |]; simpl.
  1,2: left; by split.
  - left. apply Hguard. intros. apply guard_waiting_revisions.
  - left. apply Hguard. intros. apply guard_running_revisions.
  - left. apply Hguard. intros. apply guard_cancel_revisions.
  - unfold on_guard. destruct (regs w !! i) as [g|] eqn:Ei; [|left; by split].
    apply list_elem_of_lookup_2 in Ei.
    destruct (guard_finish_revisions g (live w)) as [H|(s & Hs & Hn)];
      destruct (guard_finish g (live w)) as [g' s'']; simpl in *; [by left|right]. eauto 10.
  - left. apply set_stage_revisions.
  - right. exists (live w), Kind.CaptureQualification, Daemon. by split_and!; [split|..|left].
  - left. by split.
Qed.

Lemma apply_event_revisions_ok w e :
  revisions_ok (live w) -> revisions_ok (live (apply_event w e)).
Proof.
  intros Hok. destruct (apply_event_revisions w e) as [H|(s & k & o & H & -> & _)].
  - by eapply same_revisions_ok.
  - eapply note_change_revisions_ok, same_revisions_ok; eauto.
Qed.

Lemma apply_event_revision_mono w e u :
  revisions_ok (live w) -> revision_for u (live w) <= revision_for u (live (apply_event w e)).
Proof.
  intros Hok. destruct (apply_event_revisions w e) as [H|(s & k & o & H & -> & _)].
  - by rewrite (same_revisions_for _ _ _ H).
  - rewrite <- (same_revisions_for _ _ _ H). eapply note_change_revision_mono, same_revisions_ok; eauto.
Qed.

Lemma live_new_revisions_ok : revisions_ok live_new.
Proof. constructor; simpl; try lia; try done. rewrite map_size_empty. unfold MAX_REVISION_ACCOUNTS. lia. Qed.

Lemma run_app w es1 es2 : run w (es1 ++ es2) = run (run w es1) es2.
Proof. apply foldl_app. Qed.

Lemma run_revisions_ok w es : revisions_ok (live w) -> revisions_ok (live (run w es)).
Proof.
  revert w; induction es as [|e es IH]; intros w Hw; [done|]. by apply IH, apply_event_revisions_ok.
Qed.

Lemma run_revision_mono w es u :
  revisions_ok (live w) -> revision_for u (live w) <= revision_for u (live (run w es)).
Proof.
  revert w; induction es as [|e es IH]; intros w Hw; [done|]. simpl.
  etrans; [by apply apply_event_revision_mono|]. by apply IH, apply_event_revisions_ok.
Qed.

(** ** What the tracker holds of the registrations *)

Definition wkey (w : Worker) : Z * Kind.t * Owner := (w_id w, w_kind w, w_owner w).
Definition gkey (g : Registration) : Z * Kind.t * Owner := (g_id g, g_kind g, g_owner g).

(** A registration's share of one waiting count, and of one lane. *)
Definition waits (key : Kind.t * Owner) (g : Registration) : Z :=
  if bool_decide (g_phase g = WAITING /\ (g_kind g, g_owner g) = key) then 1 else 0.
Definition runs (lane : Lane) (g : Registration) : list (Z * Kind.t * Owner) :=
  if bool_decide (g_phase g = RUNNING /\ g_lane g = lane) then [gkey g] else [].

Definition waiting_in (key : Kind.t * Owner) (l : list Registration) : Z :=
  foldr (fun g n => waits key g + n) 0 l.
Definition running_in (lane : Lane) (l : list Registration) : list (Z * Kind.t * Owner) :=
  l ≫= runs lane.

Definition nonzero (n : Z) : option Z := if bool_decide (n = 0) then None else Some n.

Definition few (l : list Registration) : Prop := Z.of_nat (length l) < 2 ^ 64.

Record tracked (s : Live) (l : list Registration) : Prop := {
  t_waiting : forall key, waiting s !! key = nonzero (waiting_in key l);
  t_worker : wkey <$> option_list (worker s) ≡ₚ running_in WorkerLane l;
  t_tasks : wkey <$> tasks s ≡ₚ running_in BackgroundLane l;
  t_ids : NoDup (w_id <$> option_list (worker s) ++ tasks s);
  t_few : (length (tasks s) <= MAX_BACKGROUND_OPERATIONS)%nat;
}.

Lemma waits_bounds key g : 0 <= waits key g <= 1.
Proof. unfold waits. case_bool_decide; lia. Qed.

Lemma waiting_in_app key l1 l2 : waiting_in key (l1 ++ l2) = waiting_in key l1 + waiting_in key l2.
Proof. induction l1 as [|g l1 IH]; simpl; [lia|]. rewrite IH. lia. Qed.

Lemma waiting_in_bounds key l : 0 <= waiting_in key l <= Z.of_nat (length l).
Proof.
  induction l as [|g l IH]; simpl; [lia|]. pose proof (waits_bounds key g).
  change (0 <= waits key g + waiting_in key l <= Z.of_nat (S (length l))). lia.
Qed.

Lemma running_in_middle lane l1 g l2 :
  running_in lane (l1 ++ g :: l2) ≡ₚ runs lane g ++ running_in lane (l1 ++ l2).
Proof.
  unfold running_in. rewrite !bind_app, bind_cons. solve_Permutation.
Qed.

Lemma waiting_in_middle key l1 g l2 :
  waiting_in key (l1 ++ g :: l2) = waits key g + waiting_in key (l1 ++ l2).
Proof. rewrite !waiting_in_app. simpl. lia. Qed.

Lemma few_middle l1 g g' l2 : few (l1 ++ g :: l2) -> few (l1 ++ g' :: l2).
Proof. unfold few. by rewrite !length_app. Qed.

(** The parts of [tracked] that only the queue, or only the running work,
    is about. *)
Definition waiting_ok (m : gmap (Kind.t * Owner) Z) (l : list Registration) : Prop :=
  forall key, m !! key = nonzero (waiting_in key l).

Lemma waits_self g : g_phase g = WAITING -> waits (g_kind g, g_owner g) g = 1.
Proof. intros H. unfold waits. by rewrite bool_decide_eq_true_2. Qed.
Lemma waits_other key g : key <> (g_kind g, g_owner g) -> waits key g = 0.
Proof. intros H. unfold waits. rewrite bool_decide_eq_false_2; [done|naive_solver]. Qed.
Lemma waits_not key g : g_phase g <> WAITING -> waits key g = 0.
Proof. intros H. unfold waits. rewrite bool_decide_eq_false_2; [done|naive_solver]. Qed.
Lemma runs_not lane g : g_phase g <> RUNNING -> runs lane g = [].
Proof. intros H. unfold runs. rewrite bool_decide_eq_false_2; [done|naive_solver]. Qed.
Lemma runs_self lane g : g_phase g = RUNNING -> g_lane g = lane -> runs lane g = [gkey g].
Proof. intros H <-. unfold runs. by rewrite bool_decide_eq_true_2. Qed.
Lemma runs_other lane g : lane <> g_lane g -> runs lane g = [].
Proof. intros H. unfold runs. rewrite bool_decide_eq_false_2; [done|naive_solver]. Qed.

(** Leaving the queue never misses the count the registration joined. *)
Lemma remove_waiter_ok s l1 g g' l2 :
  g_phase g = WAITING -> g_phase g' <> WAITING ->
  waiting_ok (waiting s) (l1 ++ g :: l2) ->
  let s' := remove_waiter (g_kind g) (g_owner g) s in
  waiting_ok (waiting s') (l1 ++ g' :: l2) /\ s' = set_waiting (waiting s') s.
Proof.
  intros Hg Hg' Hw. unfold remove_waiter. pose proof (Hw (g_kind g, g_owner g)) as Hk.
  rewrite waiting_in_middle, waits_self in Hk by done. unfold nonzero in Hk.
  pose proof (waiting_in_bounds (g_kind g, g_owner g) (l1 ++ l2)).
  rewrite bool_decide_eq_false_2 in Hk by lia. rewrite Hk. simpl.
  destruct (Z.ltb_spec 1 (1 + waiting_in (g_kind g, g_owner g) (l1 ++ l2))); (split; [|done]); intros key;
    rewrite waiting_in_middle, (waits_not key g') by done; simpl;
    (destruct (decide (key = (g_kind g, g_owner g))) as [->|Hne];
      [rewrite ?lookup_insert_eq, ?lookup_delete_eq
      |rewrite ?lookup_insert_ne, ?lookup_delete_ne by done;
       by rewrite Hw, waiting_in_middle, waits_other]);
    unfold nonzero; case_bool_decide; try lia; try done. f_equal; lia.
Qed.

(** Joining the queue counts once. *)
Lemma waiting_insert_ok m l1 g l2 :
  g_phase g <> WAITING -> few (l1 ++ g :: l2) -> waiting_ok m (l1 ++ g :: l2) ->
  let key := (g_kind g, g_owner g) in
  checked_add 64 (default 0 (m !! key)) 1 = Some (default 0 (m !! key) + 1)
  /\ waiting_ok (<[key := default 0 (m !! key) + 1]> m) (l1 ++ set_phase WAITING g :: l2).
Proof.
  intros Hg Hf Hw key. pose proof (waiting_in_bounds key (l1 ++ l2)) as Hb.
  assert (Hd : default 0 (m !! key) = waiting_in key (l1 ++ l2)).
  { rewrite Hw, waiting_in_middle, waits_not by done. unfold nonzero. case_bool_decide; simpl; lia. }
  unfold few in Hf. rewrite length_app in Hf. simpl in Hf. rewrite length_app in Hb.
  rewrite Hd. split; [apply checked_add_Some; lia|]. intros key'. rewrite waiting_in_middle.
  destruct (decide (key' = key)) as [->|Hne].
  - rewrite lookup_insert_eq, (waits_self (set_phase WAITING g) eq_refl : waits key _ = 1).
    unfold nonzero. rewrite bool_decide_eq_false_2 by lia. f_equal. lia.
  - rewrite lookup_insert_ne, Hw, waiting_in_middle by done.
    by rewrite (waits_not _ g), (waits_other _ (set_phase WAITING g)).
Qed.

(** The running work alone. *)
Definition running_ok (s : Live) (l : list Registration) : Prop :=
  wkey <$> option_list (worker s) ≡ₚ running_in WorkerLane l
  /\ wkey <$> tasks s ≡ₚ running_in BackgroundLane l
  /\ NoDup (w_id <$> option_list (worker s) ++ tasks s)
  /\ (length (tasks s) <= MAX_BACKGROUND_OPERATIONS)%nat.

Lemma tracked_split s l : tracked s l <-> waiting_ok (waiting s) l /\ running_ok s l.
Proof. split; [intros []; by repeat split|intros (? & ? & ? & ? & ?); by constructor]. Qed.

(** Only the running registrations, and only the running work, matter to it. *)
Lemma running_ok_idle s s' l1 g g' l2 :
  worker s' = worker s -> tasks s' = tasks s ->
  (forall lane, runs lane g' = runs lane g) ->
  running_ok s (l1 ++ g :: l2) -> running_ok s' (l1 ++ g' :: l2).
Proof.
  intros Hw Ht Hr. unfold running_ok. rewrite Hw, Ht, !running_in_middle, !Hr.
  done.
Qed.

Lemma duplicate_id_spec id s :
  duplicate_id id s = false <-> id ∉ (w_id <$> option_list (worker s) ++ tasks s).
Proof.
  unfold duplicate_id. rewrite orb_false_iff, existsb_false, fmap_app, not_elem_of_app, !list_elem_of_fmap.
  setoid_rewrite bool_decide_eq_false. destruct (worker s) as [w|]; simpl.
  - rewrite bool_decide_eq_false. set_solver.
  - set_solver.
Qed.

Lemma start_running_ok now g s l1 l2 :
  g_phase g <> RUNNING -> running_ok s (l1 ++ g :: l2) ->
  running_ok (start now g s).2 (l1 ++ (start now g s).1 :: l2).
Proof.
  intros Hg Hok. unfold start. destruct (duplicate_id _ _ || lane_full _ _) eqn:Ef; simpl.
  - eapply running_ok_idle, Hok; [done..|]. intros lane. by rewrite !runs_not.
  - apply orb_false_iff in Ef as [Hid%duplicate_id_spec Hfull].
    destruct Hok as (Hw & Ht & Hn & Hl). rewrite running_in_middle, runs_not in Hw, Ht by done.
    unfold running_ok. rewrite !running_in_middle. unfold lane_full in Hfull.
    destruct (g_lane g) eqn:Elane; simpl.
    + apply bool_decide_eq_false in Hfull. destruct (worker s) eqn:Ew; [by destruct Hfull|].
      rewrite (runs_self WorkerLane), (runs_other BackgroundLane) by (simpl; congruence). simpl in *.
      rewrite <- Hw, <- Ht. split_and!; [done..| |done]. by apply list.NoDup_cons.
    + apply bool_decide_eq_false in Hfull.
      rewrite (runs_self BackgroundLane), (runs_other WorkerLane) by (simpl; congruence).
      rewrite <- Hw, <- Ht. rewrite !fmap_app, length_app in *. simpl. split_and!; [done| |..].
      * solve_Permutation.
      * rewrite app_assoc, list.NoDup_app. split_and!; [done|set_solver|apply list.NoDup_singleton].
      * lia.
Qed.

(** A running registration is found where it is tracked. *)
Lemma untrack_ok g s l1 l2 g' :
  g_phase g = RUNNING -> g_phase g' <> RUNNING -> running_ok s (l1 ++ g :: l2) ->
  running_ok (untrack g s) (l1 ++ g' :: l2)
  /\ available (untrack g s) = available s /\ waiting (untrack g s) = waiting s.
Proof.
  intros Hg Hg' (Hw & Ht & Hn & Hl). unfold untrack, running_ok. rewrite !running_in_middle in *.
  rewrite !(runs_not _ g') by done. simpl. destruct (g_lane g) eqn:Elane.
  - rewrite (runs_self WorkerLane g), (runs_other BackgroundLane g) in * by congruence. simpl in *.
    destruct (worker s) as [w|] eqn:Ew; simpl in Hw; [|by apply Permutation_nil_cons in Hw].
    assert (Hnil : running_in WorkerLane (l1 ++ l2) = []).
    { apply Permutation_length in Hw. simpl in Hw. by apply nil_length_inv; lia. }
    rewrite Hnil in *. apply Permutation_singleton_inj in Hw.
    rewrite bool_decide_eq_true_2 by (unfold wkey, gkey in Hw; congruence). simpl.
    split_and!; [done|done| |done..]. by apply list.NoDup_cons in Hn as [].
  - rewrite (runs_self BackgroundLane g), (runs_other WorkerLane g) in * by congruence. simpl in *.
    assert (exists w, gkey g = wkey w /\ w ∈ tasks s) as (w & Hkey & Hin).
    { apply list_elem_of_fmap. rewrite Ht. by left. }
    destruct (list_find (fun w => w_id w = g_id g) (tasks s)) as [[i w']|] eqn:Ef.
    + apply list_find_Some in Ef as (Hi & Hid & _).
      assert (w' = w) as ->.
      { rewrite fmap_app in Hn. apply list.NoDup_app in Hn as (_ & _ & Hn).
        eapply (NoDup_fmap_inj w_id); [done|by eapply list_elem_of_lookup_2|done|].
        unfold gkey, wkey in Hkey. congruence. }
      pose proof (swap_remove_perm _ _ _ Hi) as Hp. simpl. split_and!; [done|..|done|done].
      * rewrite Hp in Ht. simpl in Ht. rewrite <- Hkey in Ht. by apply Permutation_cons_inv in Ht.
      * rewrite Hp in Hn. rewrite !fmap_app in *. simpl in Hn.
        rewrite <- Permutation_middle in Hn. by apply list.NoDup_cons in Hn as [].
      * apply Permutation_length in Hp. simpl in Hp. lia.
    + apply list_find_None in Ef. rewrite list.Forall_forall in Ef. exfalso.
      eapply Ef; [done|]. unfold gkey, wkey in Hkey. congruence.
Qed.

Lemma cancel_first_fmap {B} (f : Worker -> B) id l :
  (forall w, f (cancelled_worker w) = f w) -> f <$> cancel_first id l = f <$> l.
Proof.
  intros Hf. induction l as [|w l IH]; simpl; [done|]. case_bool_decide; cbn; f_equal; auto.
Qed.

(** ** Every transition keeps the tracker true to the registrations *)

Lemma note_change_tracker k o s :
  waiting (note_change k o s) = waiting s /\ worker (note_change k o s) = worker s
  /\ tasks (note_change k o s) = tasks s.
Proof. unfold note_change. repeat case_match; done. Qed.

Lemma waiting_ok_idle m l1 g g' l2 :
  (forall key, waits key g' = waits key g) ->
  waiting_ok m (l1 ++ g :: l2) -> waiting_ok m (l1 ++ g' :: l2).
Proof. intros Hg Hm key. by rewrite Hm, !waiting_in_middle, Hg. Qed.

(** What one guard operation does to a registration in place. *)
Definition keeps (f : Registration -> Live -> Registration * Live) : Prop :=
  forall g s l1 l2, few (l1 ++ g :: l2) -> tracked s (l1 ++ g :: l2) ->
  tracked (f g s).2 (l1 ++ (f g s).1 :: l2).

Lemma keeps_on_guard f i w :
  keeps f -> few (regs w) -> tracked (live w) (regs w) ->
  tracked (live (on_guard i f w)) (regs (on_guard i f w)).
Proof.
  intros Hf Hfew Ht. unfold on_guard. destruct (regs w !! i) as [g|] eqn:Ei; [|done].
  destruct (insert_split _ _ _ Ei) as (l1 & l2 & Hl & Hu). rewrite Hl in Hfew, Ht.
  specialize (Hf _ _ _ _ Hfew Ht). destruct (f g (live w)) as [g' s]. simpl in *. by rewrite Hu.
Qed.

Lemma guard_waiting_keeps : keeps guard_waiting.
Proof.
  intros g s l1 l2 Hfew. rewrite !tracked_split. intros [Hw Hr]. unfold guard_waiting.
  case_bool_decide as Hp; simpl; [|done]. case_bool_decide; simpl; [|done].
  destruct (waiting_insert_ok (waiting s) l1 g l2) as [Hc Hw']; [congruence|done..|].
  rewrite Hc. simpl. split; [done|]. eapply running_ok_idle, Hr; [done..|].
  intros lane. rewrite !runs_not; simpl; congruence.
Qed.

Lemma start_waiting now g s : waiting (start now g s).2 = waiting s.
Proof. unfold start. by repeat case_match. Qed.

Lemma start_phase now g s : g_phase (start now g s).1 <> WAITING.
Proof. unfold start. by repeat case_match. Qed.

Lemma guard_running_keeps now : keeps (guard_running now).
Proof.
  intros g s l1 l2 Hfew. rewrite !tracked_split. intros [Hw Hr]. unfold guard_running.
  destruct (g_phase g) eqn:Hp; try done.
  - rewrite start_waiting. split; [|apply start_running_ok; [congruence|done]].
    eapply waiting_ok_idle, Hw. intros key. pose proof (start_phase now g s).
    rewrite !waits_not; congruence.
  - pose proof (start_phase now g (remove_waiter (g_kind g) (g_owner g) s)) as Hsp.
    destruct (remove_waiter_ok s l1 g _ l2 Hp Hsp Hw) as [Hw' Hs'].
    rewrite start_waiting. split; [done|]. apply start_running_ok; [congruence|]. rewrite Hs'. done.
Qed.

Lemma guard_cancel_keeps : keeps guard_cancel.
Proof.
  intros g s l1 l2 Hfew. rewrite !tracked_split. intros [Hw Hr]. unfold guard_cancel.
  case_bool_decide; simpl; [|done]. destruct (g_lane g).
  - destruct (worker s) as [w|] eqn:Ew; [|done]. case_bool_decide; [|done]. split; [done|].
    unfold running_ok in *. rewrite Ew in Hr. done.
  - destruct Hr as (Hwk & Ht & Hn & Hl). unfold running_ok. simpl. split_and!; try done.
    + by rewrite cancel_first_fmap.
    + by rewrite fmap_app, cancel_first_fmap, <- fmap_app.
    + by rewrite <- (length_fmap wkey), cancel_first_fmap, length_fmap.
Qed.

Lemma counted_tracked g s l :
  tracked s l -> tracked (if g_changes g then note_change (g_kind g) (g_owner g) s else s) l.
Proof.
  intros Ht. destruct (g_changes g); [|done].
  destruct (note_change_tracker (g_kind g) (g_owner g) s) as (H1 & H2 & H3).
  destruct Ht; constructor; by rewrite ?H1, ?H2, ?H3.
Qed.

Lemma guard_finish_keeps : keeps guard_finish.
Proof.
  intros g s l1 l2 Hfew Ht. unfold guard_finish. simpl. set (g' := set_phase FINISHED g).
  assert (Hid : g_phase g <> WAITING -> g_phase g <> RUNNING -> tracked s (l1 ++ g' :: l2)).
  { intros H1 H2. rewrite tracked_split in *. destruct Ht as [Hw Hr]. split.
    - eapply waiting_ok_idle, Hw. intros. by rewrite !waits_not.
    - eapply running_ok_idle, Hr; [done..|]. intros. by rewrite !runs_not. }
  destruct (g_phase g) eqn:Hp; try by apply Hid.
  - rewrite tracked_split in *. destruct Ht as [Hw Hr].
    destruct (remove_waiter_ok s l1 g g' l2 Hp) as [Hw' Hs']; [done..|]. split; [done|].
    eapply running_ok_idle, Hr; [by rewrite Hs'..|]. intros. rewrite !runs_not; simpl; congruence.
  - apply counted_tracked. rewrite tracked_split in *. destruct Ht as [Hw Hr].
    destruct (untrack_ok g s l1 l2 g') as (Hr' & _ & Hw'); [done..|]. split; [|done].
    rewrite Hw'. eapply waiting_ok_idle, Hw. intros. rewrite !waits_not; simpl; congruence.
  - by apply counted_tracked, Hid.
Qed.

Lemma tracked_register s l g :
  g_phase g = CREATED -> tracked s l -> tracked s (l ++ [g]).
Proof.
  intros Hg []. assert (Hr : forall lane, running_in lane (l ++ [g]) = running_in lane l).
  { intros. unfold running_in. rewrite bind_app. simpl. rewrite runs_not by congruence.
    by rewrite app_nil_r. }
  constructor; rewrite ?Hr; try done. intros key. rewrite waiting_in_app. simpl.
  rewrite waits_not by congruence. by rewrite Z.add_0_r.
Qed.

Lemma apply_event_regs w e : (length (regs w) <= length (regs (apply_event w e)))%nat.
Proof.
  destruct e; simpl; rewrite ?length_app; try (unfold on_guard; repeat case_match; simpl; rewrite ?length_insert); lia.
Qed.

Lemma apply_event_tracked w e :
  few (regs w) -> tracked (live w) (regs w) ->
  tracked (live (apply_event w e)) (regs (apply_event w e)).
Proof.
  intros Hf Ht. destruct e; simpl.
  1,2: by apply tracked_register.
  - by apply keeps_on_guard; [apply guard_waiting_keeps|..].
  - by apply keeps_on_guard; [apply guard_running_keeps|..].
  - by apply keeps_on_guard; [apply guard_cancel_keeps|..].
  - by apply keeps_on_guard; [apply guard_finish_keeps|..].
  - unfold set_stage. case_bool_decide; [done|]. by destruct Ht.
  - destruct (note_change_tracker Kind.CaptureQualification Daemon (live w)) as (H1 & H2 & H3).
    destruct Ht; constructor; unfold note_shared_change; by rewrite ?H1, ?H2, ?H3.
  - by destruct Ht.
Qed.

Lemma run_regs w es : (length (regs w) <= length (regs (run w es)))%nat.
Proof.
  revert w; induction es as [|e es IH]; intros w; simpl; [done|].
  pose proof (apply_event_regs w e). specialize (IH (apply_event w e)). unfold run in *. lia.
Qed.

Lemma run_regs_length w es : (length (regs (run w es)) <= length (regs w) + length es)%nat.
Proof.
  revert w; induction es as [|e es IH]; intros w; simpl; [lia|]. specialize (IH (apply_event w e)).
  assert (length (regs (apply_event w e)) <= S (length (regs w)))%nat; [|unfold run in *; lia].
  destruct e; simpl; rewrite ?length_app; try (unfold on_guard; repeat case_match; simpl; rewrite ?length_insert); simpl; lia.
Qed.

Lemma few_run w es : few (regs (run w es)) -> few (regs w).
Proof. unfold few. pose proof (run_regs w es). lia. Qed.

Lemma run_tracked w es :
  few (regs (run w es)) -> tracked (live w) (regs w) -> tracked (live (run w es)) (regs (run w es)).
Proof.
  revert w; induction es as [|e es IH]; intros w Hf Ht; [done|]. simpl. apply IH; [done|].
  apply apply_event_tracked; [|done]. apply (few_run w [e]). by apply (few_run _ es).
Qed.

Lemma world_new_tracked : tracked (live world_new) (regs world_new).
Proof. by constructor; simpl; try (unfold MAX_BACKGROUND_OPERATIONS; lia || apply NoDup_nil_2). Qed.

(** ** What the waiting rows show *)

Definition shown_as (u : Z) (g : Registration) : Kind.t := visible_kind (g_kind g) (g_owner g) u.

(** How many registrations wait that the reader reads as kind [k]. *)
Definition shown_waiting (u : Z) (k : Kind.t) (l : list Registration) : Z :=
  foldr (fun g n => (if bool_decide (g_phase g = WAITING /\ shown_as u g = k) then 1 else 0) + n) 0 l.

Definition sum_shown (u : Z) (k : Kind.t) (m : gmap (Kind.t * Owner) Z) : Z :=
  map_fold (fun key c acc => (if bool_decide (visible_kind key.1 key.2 u = k) then c else 0) + acc) 0 m.

Lemma sum_shown_insert u k m key c :
  m !! key = None ->
  sum_shown u k (<[key := c]> m)
  = (if bool_decide (visible_kind key.1 key.2 u = k) then c else 0) + sum_shown u k m.
Proof. intros Hm. unfold sum_shown. rewrite map_fold_insert_L; [done| |done]. intros. lia. Qed.

Lemma sum_shown_delete u k m key :
  sum_shown u k m
  = (if bool_decide (visible_kind key.1 key.2 u = k) then default 0 (m !! key) else 0)
    + sum_shown u k (delete key m).
Proof.
  destruct (m !! key) as [c|] eqn:Em.
  - rewrite <- (insert_delete_id m key c Em) at 1. by rewrite sum_shown_insert by apply lookup_delete_eq.
  - rewrite delete_id by done. simpl. by destruct (bool_decide _).
Qed.

Definition counts_pos (m : gmap (Kind.t * Owner) Z) : Prop := map_Forall (fun _ c => 0 < c) m.

Lemma sum_shown_nonneg u k m : counts_pos m -> 0 <= sum_shown u k m.
Proof.
  induction m as [|key c m Hk IH] using map_ind; intros Hp; [done|].
  apply map_Forall_insert in Hp as [Hc Hp]; [|done]. rewrite sum_shown_insert by done.
  specialize (IH Hp). simpl in Hc. case_bool_decide; lia.
Qed.

Lemma waiting_by_kind_spec u s k :
  counts_pos (waiting s) ->
  waiting_by_kind u s !! k = nonzero (Z.min (2 ^ 64 - 1) (sum_shown u k (waiting s))).
Proof.
  unfold waiting_by_kind. revert k. apply (map_fold_weak_ind (fun rows m => forall k, counts_pos m ->
    rows !! k = nonzero (Z.min (2 ^ 64 - 1) (sum_shown u k m)))); [done|].
  intros key c m rows Hm IH k Hp. apply map_Forall_insert in Hp as [Hc Hp]; [|done]. simpl in Hc.
  rewrite sum_shown_insert by done. set (k0 := visible_kind key.1 key.2 u).
  pose proof (sum_shown_nonneg u k m Hp) as Hnn. destruct (decide (k0 = k)) as [<-|Hne].
  - rewrite lookup_insert_eq, bool_decide_eq_true_2, IH by done. unfold nonzero, sat_add64.
    repeat case_bool_decide; simpl; try lia; f_equal; lia.
  - rewrite lookup_insert_ne, bool_decide_eq_false_2, IH by done. done.
Qed.

(** The counts of the queue add up, kind by kind, to its registrations. *)
Lemma sum_shown_registrations u k m l :
  waiting_ok m l -> sum_shown u k m = shown_waiting u k l.
Proof.
  revert m; induction l as [|g l IH]; intros m Hm.
  - assert (m = ∅) as ->; [|done]. apply map_eq. intros key. by rewrite Hm.
  - simpl. destruct (decide (g_phase g = WAITING)) as [Hg|Hg].
    + set (key := (g_kind g, g_owner g)). pose proof (waiting_in_bounds key l) as Hb.
      pose proof (Hm key) as Hk. simpl in Hk. rewrite (waits_self g Hg : waits key g = 1) in Hk.
      unfold nonzero in Hk. fold (waiting_in key l) in Hk. rewrite bool_decide_eq_false_2 in Hk by lia.
      specialize (IH (partial_alter (fun _ => nonzero (waiting_in key l)) key m)).
      rewrite (sum_shown_delete u k m key), Hk. rewrite <- IH.
      * rewrite (sum_shown_delete u k (partial_alter _ key m) key), lookup_partial_alter_eq.
        assert (delete key (partial_alter (fun _ => nonzero (waiting_in key l)) key m) = delete key m) as ->.
        { apply map_eq. intros key'. destruct (decide (key' = key)) as [->|].
          - by rewrite !lookup_delete_eq.
          - by rewrite !lookup_delete_ne, lookup_partial_alter_ne. }
        simpl. fold (shown_as u g). unfold nonzero. repeat case_bool_decide; simpl; naive_solver lia.
      * intros key'. destruct (decide (key' = key)) as [->|Hne].
        -- by rewrite lookup_partial_alter_eq.
        -- rewrite lookup_partial_alter_ne by done. rewrite Hm. simpl. by rewrite waits_other.
    + rewrite bool_decide_eq_false_2 by naive_solver. rewrite (IH m); [done|].
      intros key. rewrite Hm. simpl. by rewrite waits_not.
Qed.

Lemma waiting_ok_pos m l : waiting_ok m l -> counts_pos m.
Proof.
  intros Hm key c Hc. rewrite Hm in Hc. pose proof (waiting_in_bounds key l).
  unfold nonzero in Hc. case_bool_decide; simplify_eq. lia.
Qed.

Lemma shown_waiting_bounds u k l : 0 <= shown_waiting u k l <= Z.of_nat (length l).
Proof.
  induction l as [|g l IH]; simpl; [lia|]. fold (shown_waiting u k l). case_bool_decide; lia.
Qed.

(** The rows a reader should see of the registrations. *)
Definition rows_of (u : Z) (l : list Registration) : list LiveWaitingCount :=
  omap (fun k => MkRow k <$> nonzero (shown_waiting u k l)) Kind.all.

Lemma waiting_rows_spec u s l :
  few l -> waiting_ok (waiting s) l -> waiting_rows u s = rows_of u l.
Proof.
  intros Hf Hw. unfold waiting_rows, rows_of. apply list_omap_ext, Forall2_same_length_lookup_2; [done|].
  intros i k0 k Hi Hi'. assert (k0 = k) as -> by congruence.
  rewrite waiting_by_kind_spec by by eapply waiting_ok_pos.
  erewrite sum_shown_registrations by done. pose proof (shown_waiting_bounds u k l).
  unfold few in Hf. by rewrite Z.min_r by lia.
Qed.

(** ** What a reader cannot tell

    Two runs that differ only in what some operations the reader may not see
    are: their kinds, other than the two kinds whose completion every reader
    is told of, and, for another account's operation, whether it changes that
    account's state. *)

Definition private_kind (k : Kind.t) : Prop := k <> Kind.CameraSetup /\ k <> Kind.CaptureQualification.

Definition relabelled (u : Z) (o : Owner) (k1 k2 : Kind.t) : Prop :=
  k1 = k2 \/ (visible_to o u = false /\ private_kind k1 /\ private_kind k2).

Definition low_op (u : Z) (o : Owner) (k1 k2 : Kind.t) (c1 c2 : bool) : Prop :=
  relabelled u o k1 k2
  /\ (c1 = c2 \/ (visible_to o u = false /\ o <> Unresolved /\ private_kind k1 /\ private_kind k2)).

Definition low_event (u : Z) (e1 e2 : event) : Prop :=
  e1 = e2 \/ exists id k1 k2 c1 c2 o,
    e1 = EvRegister id k1 c1 o /\ e2 = EvRegister id k2 c2 o /\ low_op u o k1 k2 c1 c2.

Definition low_reg (u : Z) (g1 g2 : Registration) : Prop :=
  g_id g1 = g_id g2 /\ g_owner g1 = g_owner g2
  /\ g_lane g1 = g_lane g2 /\ g_phase g1 = g_phase g2
  /\ low_op u (g_owner g1) (g_kind g1) (g_kind g2) (g_changes g1) (g_changes g2).

Definition low_worker (u : Z) (w1 w2 : Worker) : Prop :=
  w_id w1 = w_id w2 /\ w_owner w1 = w_owner w2 /\ w_started_ms w1 = w_started_ms w2
  /\ w_cancelled w1 = w_cancelled w2 /\ relabelled u (w_owner w1) (w_kind w1) (w_kind w2).

Definition own_changes (u : Z) (s : Live) : Z := from_option changes 0 (account_revisions s !! u).

Record low (u : Z) (s1 s2 : Live) : Prop := {
  low_stage : stage s1 = stage s2;
  low_shared : shared_revision s1 = shared_revision s2;
  low_own : own_changes u s1 = own_changes u s2;
  low_running : option_Forall2 (low_worker u) (worker s1) (worker s2);
  low_tasks : Forall2 (low_worker u) (tasks s1) (tasks s2);
  low_available : available s1 = available s2;
}.

(** No account ever has to give up its count: the accounts with one are among
    [accounts], at most as many as there is room for; and the next change
    still fits the revision. *)
Record roomy (accounts : list Z) (s : Live) : Prop := {
  room_accounts : forall uid, is_Some (account_revisions s !! uid) -> uid ∈ accounts;
  room_length : (length accounts <= MAX_REVISION_ACCOUNTS)%nat;
  room_revision : revision s + 1 < 2 ^ 64;
}.

Definition owner_among (accounts : list Z) (o : Owner) : Prop :=
  match o with Account uid => uid ∈ accounts | _ => True end.

Lemma make_room_roomy accounts uid s :
  roomy accounts s -> uid ∈ accounts ->
  make_room uid (shared_revision s) (account_revisions s) = (shared_revision s, account_revisions s).
Proof.
  intros [Ha Hl _] Hu. unfold make_room. destruct (_ && _) eqn:E; [|done]. reflect_bools. exfalso.
  assert (Hd : dom (account_revisions s) ⊆ list_to_set accounts ∖ {[uid]}).
  { intros v Hv. apply elem_of_dom in Hv as Hv'. apply elem_of_difference.
    split; [by apply elem_of_list_to_set, Ha|]. intros ->%elem_of_singleton. destruct Hv'. congruence. }
  apply subseteq_size in Hd. rewrite size_dom in Hd.
  assert (Hin : {[uid]} ⊆ (list_to_set accounts : gset Z)) by set_solver.
  rewrite size_difference, size_singleton in Hd by done.
  pose proof (subseteq_size _ _ Hin) as Hone. rewrite size_singleton in Hone.
  assert (size (list_to_set accounts : gset Z) <= length accounts)%nat; [|lia].
  clear. induction accounts as [|v l IH]; simpl; [by vm_compute; lia|].
  pose proof (size_union_alt {[v]} (list_to_set l : gset Z)) as Hu. rewrite size_singleton in Hu.
  pose proof (subseteq_size (list_to_set l ∖ {[v]}) (list_to_set l : gset Z) ltac:(set_solver)). lia.
Qed.

(** What a change adds to the shared count, and to a reader's own. *)
Definition shared_step (r : ChangeReaders) : Z := match r with Every => 1 | _ => 0 end.
Definition own_step (u : Z) (r : ChangeReaders) : Z :=
  match r with OneAccount v => if bool_decide (v = u) then 1 else 0 | _ => 0 end.

(** What one change does to the reader's two counts when there is room. *)
Lemma note_change_roomy accounts k o s :
  roomy accounts s -> owner_among accounts o ->
  let s' := note_change k o s in
  revision s' = revision s + 1
  /\ shared_revision s' = shared_revision s + shared_step (change_readers k o)
  /\ (forall u, own_changes u s' = own_changes u s + own_step u (change_readers k o))
  /\ (forall uid, is_Some (account_revisions s' !! uid) -> uid ∈ accounts)
  /\ stage s' = stage s /\ worker s' = worker s /\ tasks s' = tasks s /\ available s' = available s.
Proof.
  intros Hr Ho. unfold note_change.
  assert (checked_add 64 (revision s) 1 = Some (revision s + 1)) as ->.
  { apply checked_add_Some. by destruct Hr. }
  destruct (change_readers k o) as [|uid|] eqn:Ec; simpl.
  - split_and!; try done; [|apply (room_accounts _ _ Hr)]. intros u. unfold own_changes. simpl. lia.
  - assert (uid ∈ accounts) as Hu.
    { destruct k, o as [|v|]; simpl in *; try done; case_bool_decide; congruence. }
    rewrite (make_room_roomy accounts) by done. simpl. split_and!; try done; [lia|..].
    + intros u. unfold own_changes. simpl. destruct (decide (u = uid)) as [->|Hne].
      * rewrite lookup_insert_eq, bool_decide_eq_true_2 by done. by destruct (account_revisions s !! uid).
      * rewrite lookup_insert_ne, bool_decide_eq_false_2 by congruence. lia.
    + intros v. destruct (decide (v = uid)) as [->|]; [done|]. rewrite lookup_insert_ne by done.
      apply (room_accounts _ _ Hr).
  - split_and!; try done; [lia| |apply (room_accounts _ _ Hr)]. intros u. unfold own_changes. simpl. lia.
Qed.

Lemma relabelled_shown u o k1 k2 : relabelled u o k1 k2 -> visible_kind k1 o u = visible_kind k2 o u.
Proof. unfold visible_kind. intros [->|[-> _]]; done. Qed.

(** A private kind's completion is counted for its owner, whatever it is. *)
Lemma relabelled_readers u o k1 k2 :
  relabelled u o k1 k2 -> change_readers k1 o = change_readers k2 o.
Proof.
  intros [->|(_ & [] & [])]; [done|]. destruct k1, k2, o; simpl; try done; congruence.
Qed.

Lemma low_note_change accounts u k1 k2 o s1 s2 :
  roomy accounts s1 -> roomy accounts s2 -> owner_among accounts o ->
  relabelled u o k1 k2 -> low u s1 s2 -> low u (note_change k1 o s1) (note_change k2 o s2).
Proof.
  intros H1 H2 Ho Hk [].
  destruct (note_change_roomy _ k1 o _ H1 Ho) as (_ & Hs1 & Ho1 & _ & Hst1 & Hw1 & Ht1 & Ha1).
  destruct (note_change_roomy _ k2 o _ H2 Ho) as (_ & Hs2 & Ho2 & _ & Hst2 & Hw2 & Ht2 & Ha2).
  rewrite (relabelled_readers _ _ _ _ Hk) in Hs1, Ho1. specialize (Ho1 u). specialize (Ho2 u).
  constructor; congruence.
Qed.

(** Another account's private change shows nowhere in the reader's counts. *)
Lemma private_change_unseen accounts u k o s1 s2 :
  roomy accounts s2 -> owner_among accounts o ->
  visible_to o u = false -> o <> Unresolved -> private_kind k ->
  low u s1 s2 -> low u s1 (note_change k o s2).
Proof.
  intros H2 Ho Hv Hu [Hk1 Hk2] [].
  destruct (note_change_roomy _ k o _ H2 Ho) as (_ & Hs2 & Ho2 & _ & Hst2 & Hw2 & Ht2 & Ha2).
  specialize (Ho2 u). destruct o as [|uid|]; [done| |done]. simpl in Hv.
  apply orb_false_iff in Hv as [Hv0 Hv]. reflect_bools.
  assert (Hr : shared_step (change_readers k (Account uid)) = 0
    /\ own_step u (change_readers k (Account uid)) = 0).
  { destruct k; simpl; try done; case_bool_decide; simpl; try done;
      by rewrite bool_decide_eq_false_2 by congruence. }
  destruct Hr as [Hr1 Hr2]. rewrite Hr1 in Hs2. rewrite Hr2 in Ho2.
  constructor; try congruence; lia.
Qed.

Lemma low_sym u s1 s2 : low u s1 s2 -> low u s2 s1.
Proof.
  intros []. assert (Hw : forall x y, low_worker u x y -> low_worker u y x).
  { unfold low_worker, relabelled. intros x y (-> & -> & -> & -> & Hk). naive_solver. }
  constructor; try done.
  - destruct low_running0; constructor. auto.
  - induction low_tasks0; [done|]. apply Forall2_cons_2; auto.
Qed.

Lemma low_set_waiting u m1 m2 s1 s2 : low u s1 s2 -> low u (set_waiting m1 s1) (set_waiting m2 s2).
Proof. intros []. by constructor. Qed.
Lemma low_unavailable u s1 s2 : low u s1 s2 -> low u (set_available false s1) (set_available false s2).
Proof. intros []. by constructor. Qed.

(** One operation on corresponding registrations of corresponding worlds. *)
Definition low_keeps (u : Z) (f : Registration -> Live -> Registration * Live) : Prop :=
  forall accounts g1 g2 s1 s2 a1 b1 a2 b2,
  roomy accounts s1 -> roomy accounts s2 -> owner_among accounts (g_owner g1) ->
  few (a1 ++ g1 :: b1) -> few (a2 ++ g2 :: b2) ->
  tracked s1 (a1 ++ g1 :: b1) -> tracked s2 (a2 ++ g2 :: b2) ->
  low_reg u g1 g2 -> low u s1 s2 ->
  low_reg u (f g1 s1).1 (f g2 s2).1 /\ low u (f g1 s1).2 (f g2 s2).2.

Lemma low_reg_phase u p g1 g2 : low_reg u g1 g2 -> low_reg u (set_phase p g1) (set_phase p g2).
Proof. unfold low_reg. simpl. naive_solver. Qed.

Lemma low_waiting u : low_keeps u guard_waiting.
Proof.
  intros accounts g1 g2 s1 s2 a1 b1 a2 b2 _ _ _ Hf1 Hf2 [Hw1 _]%tracked_split [Hw2 _]%tracked_split Hg Hs.
  pose proof Hg as (_ & _ & Hl & Hp & _). unfold guard_waiting. rewrite Hl, Hp.
  case_bool_decide as Hc; simpl; [|done]. case_bool_decide; simpl; [|split; [done|by apply low_unavailable]].
  destruct (waiting_insert_ok (waiting s1) a1 g1 b1) as [-> _]; [congruence|done..|].
  destruct (waiting_insert_ok (waiting s2) a2 g2 b2) as [-> _]; [congruence|done..|].
  split; [by apply low_reg_phase|by apply low_set_waiting].
Qed.

Lemma low_duplicate u id s1 s2 : low u s1 s2 -> duplicate_id id s1 = duplicate_id id s2.
Proof.
  intros []. unfold duplicate_id. f_equal.
  - destruct low_running0 as [w1 w2 (Hid & _)|]; simpl; [by rewrite Hid|done].
  - induction low_tasks0 as [|w1 w2 l1 l2 (Hid & _) _ IH]; simpl; [done|by rewrite Hid, IH].
Qed.

Lemma low_full u lane s1 s2 : low u s1 s2 -> lane_full lane s1 = lane_full lane s2.
Proof.
  intros []. destruct lane; simpl.
  - apply bool_decide_ext. by destruct low_running0; split; intros [].
  - by erewrite Forall2_length.
Qed.

Lemma low_start u now g1 g2 s1 s2 :
  low_reg u g1 g2 -> low u s1 s2 ->
  low_reg u (start now g1 s1).1 (start now g2 s2).1 /\ low u (start now g1 s1).2 (start now g2 s2).2.
Proof.
  intros Hg Hs. pose proof Hg as (Hi & Ho & Hl & Hp & Hk & _). unfold start.
  rewrite Hi, Hl, (low_duplicate _ _ _ _ Hs), (low_full _ _ _ _ Hs).
  destruct (_ || _); simpl; [split; [by apply low_reg_phase|by apply low_unavailable]|].
  split; [by apply low_reg_phase|]. rewrite Ho in *. destruct Hs. destruct (g_lane g2); constructor; simpl; try done.
  - by constructor.
  - apply Forall2_app; [done|]. by apply Forall2_cons_2; [|apply Forall2_nil_2].
Qed.

Lemma low_remove u g1 g2 s1 s2 a1 b1 a2 b2 :
  g_phase g1 = WAITING -> g_phase g2 = WAITING ->
  waiting_ok (waiting s1) (a1 ++ g1 :: b1) -> waiting_ok (waiting s2) (a2 ++ g2 :: b2) ->
  low u s1 s2 ->
  low u (remove_waiter (g_kind g1) (g_owner g1) s1) (remove_waiter (g_kind g2) (g_owner g2) s2).
Proof.
  intros H1 H2 Hw1 Hw2 Hs.
  destruct (remove_waiter_ok s1 a1 g1 (set_phase FINISHED g1) b1) as [_ ->]; [done..|].
  destruct (remove_waiter_ok s2 a2 g2 (set_phase FINISHED g2) b2) as [_ ->]; [done..|].
  by apply low_set_waiting.
Qed.

Lemma low_run u now : low_keeps u (guard_running now).
Proof.
  intros accounts g1 g2 s1 s2 a1 b1 a2 b2 _ _ _ Hf1 Hf2 [Hw1 _]%tracked_split [Hw2 _]%tracked_split Hg Hs.
  pose proof Hg as (_ & _ & _ & Hp & _). unfold guard_running. rewrite Hp.
  destruct (g_phase g2) eqn:Hp2; try done; apply low_start; try done.
  by eapply low_remove.
Qed.

Lemma low_cancel u : low_keeps u guard_cancel.
Proof.
  intros accounts g1 g2 s1 s2 a1 b1 a2 b2 _ _ _ _ _ _ _ Hg Hs.
  pose proof Hg as (Hi & _ & Hl & Hp & _). unfold guard_cancel. rewrite Hp, Hl.
  case_bool_decide; simpl; [|done]. split; [done|]. rewrite Hi. destruct (g_lane g2).
  - pose proof (low_running _ _ _ Hs) as Hr.
    destruct (worker s1) as [w1|], (worker s2) as [w2|]; try (by inversion Hr); [].
    apply option_Forall2_Some_Some in Hr as (Hid & Hw). rewrite Hid. case_bool_decide; [|done].
    destruct Hs; constructor; simpl; try done. constructor. unfold low_worker. naive_solver.
  - destruct Hs; constructor; simpl; try done. clear -low_tasks0.
    induction low_tasks0 as [|w1 w2 l1 l2 (Hid & Hw) Hl IH]; simpl; [done|]. rewrite Hid.
    case_bool_decide; apply Forall2_cons_2; unfold low_worker in *; naive_solver.
Qed.

Lemma low_find u id l1 l2 :
  Forall2 (low_worker u) l1 l2 ->
  fst <$> list_find (fun w => w_id w = id) l1 = fst <$> list_find (fun w => w_id w = id) l2.
Proof.
  induction 1 as [|w1 w2 l1 l2 (Hid & _) _ IH]; [done|]. simpl. rewrite Hid.
  destruct (decide _); [done|].
  by destruct (list_find _ l1) as [[]|], (list_find _ l2) as [[]|]; simplify_eq/=.
Qed.

Lemma low_swap_remove u i l1 l2 :
  Forall2 (low_worker u) l1 l2 -> Forall2 (low_worker u) (swap_remove i l1) (swap_remove i l2).
Proof.
  intros Hl. unfold swap_remove. rewrite (Forall2_length Hl).
  pose proof (list.Forall2_last _ _ _ Hl) as Hlast.
  destruct (list.last l1), (list.last l2); try (by inversion Hlast); [].
  apply option_Forall2_Some_Some in Hlast. by apply Forall2_take, Forall2_insert.
Qed.

Lemma low_untrack u g1 g2 s1 s2 :
  low_reg u g1 g2 -> low u s1 s2 -> low u (untrack g1 s1) (untrack g2 s2).
Proof.
  intros Hg Hs. pose proof Hg as (Hi & _ & Hl & _). unfold untrack. rewrite Hl, Hi.
  destruct (g_lane g2).
  - pose proof (low_running _ _ _ Hs) as Hr.
    destruct (worker s1) as [w1|], (worker s2) as [w2|]; try (by inversion Hr); [|by apply low_unavailable].
    apply option_Forall2_Some_Some in Hr as (Hid & Hw). rewrite Hid.
    case_bool_decide; [|by apply low_unavailable]. destruct Hs. constructor; simpl; try done. constructor.
  - pose proof (low_tasks _ _ _ Hs) as Ht.
    pose proof (low_find u (g_id g2) _ _ Ht) as Hf.
    destruct (list_find _ (tasks s1)) as [[i w1]|], (list_find _ (tasks s2)) as [[j w2]|]; simplify_eq/=;
      [|by apply low_unavailable].
    destruct Hs. constructor; simpl; try done. by apply low_swap_remove.
Qed.

Lemma untrack_roomy accounts g s : roomy accounts s -> roomy accounts (untrack g s).
Proof.
  intros []. destruct (untrack_revisions g s) as (H1 & H2 & H3). constructor; rewrite ?H1, ?H3; done.
Qed.

(** Counting, or not counting, the completion of corresponding work. *)
Lemma low_counted accounts u g1 g2 s1 s2 :
  roomy accounts s1 -> roomy accounts s2 -> owner_among accounts (g_owner g1) ->
  low_reg u g1 g2 -> low u s1 s2 ->
  low u (if g_changes g1 then note_change (g_kind g1) (g_owner g1) s1 else s1)
        (if g_changes g2 then note_change (g_kind g2) (g_owner g2) s2 else s2).
Proof.
  intros H1 H2 Hin (_ & Ho & _ & _ & Hk & Hc) Hs. rewrite Ho in *.
  destruct Hc as [->|(Hv & Hu & Hk1 & Hk2)].
  - destruct (g_changes g2); [by eapply low_note_change|done].
  - destruct (g_changes g1), (g_changes g2); [by eapply low_note_change| | |done].
    + apply low_sym. eapply private_change_unseen; try done. by apply low_sym.
    + by eapply private_change_unseen.
Qed.

Lemma low_finish u : low_keeps u guard_finish.
Proof.
  intros accounts g1 g2 s1 s2 a1 b1 a2 b2 H1 H2 Hin _ _ [Hw1 _]%tracked_split [Hw2 _]%tracked_split Hg Hs.
  pose proof Hg as (_ & Ho & _ & Hp & _). unfold guard_finish. simpl. split; [by apply low_reg_phase|].
  rewrite Hp. destruct (g_phase g2) eqn:Hp2; try done.
  - by eapply low_remove; rewrite ?Hp.
  - eapply low_counted; eauto using untrack_roomy, low_untrack.
  - by eapply low_counted.
Qed.

(** Corresponding worlds, with room for [n] more changes. *)
Definition low_world (u : Z) (accounts : list Z) (n : nat) (w1 w2 : World) : Prop :=
  Forall2 (low_reg u) (regs w1) (regs w2) /\ low u (live w1) (live w2)
  /\ tracked (live w1) (regs w1) /\ tracked (live w2) (regs w2)
  /\ Forall (fun g => owner_among accounts (g_owner g)) (regs w1)
  /\ Forall (fun s => (forall uid, is_Some (account_revisions s !! uid) -> uid ∈ accounts)
        /\ revision s + Z.of_nat n < 2 ^ 64) [live w1; live w2].

Lemma low_on_guard u accounts f i w1 w2 :
  low_keeps u f -> few (regs w1) -> few (regs w2) ->
  roomy accounts (live w1) -> roomy accounts (live w2) ->
  Forall2 (low_reg u) (regs w1) (regs w2) -> low u (live w1) (live w2) ->
  tracked (live w1) (regs w1) -> tracked (live w2) (regs w2) ->
  Forall (fun g => owner_among accounts (g_owner g)) (regs w1) ->
  Forall2 (low_reg u) (regs (on_guard i f w1)) (regs (on_guard i f w2))
  /\ low u (live (on_guard i f w1)) (live (on_guard i f w2)).
Proof.
  intros Hf Hf1 Hf2 H1 H2 Hr Hl Ht1 Ht2 Hin. unfold on_guard.
  destruct (regs w1 !! i) as [g1|] eqn:E1.
  - destruct (Forall2_lookup_l _ _ _ _ _ Hr E1) as (g2 & E2 & Hg). rewrite E2.
    pose proof (Forall_lookup_1 _ _ _ _ Hin E1) as Hg1. simpl in Hg1.
    destruct (insert_split _ _ _ E1) as (a1 & b1 & R1 & _). destruct (insert_split _ _ _ E2) as (a2 & b2 & R2 & _).
    rewrite R1 in Hf1, Ht1. rewrite R2 in Hf2, Ht2.
    destruct (Hf _ _ _ _ _ _ _ _ _ H1 H2 Hg1 Hf1 Hf2 Ht1 Ht2 Hg Hl) as [Hg' Hl'].
    destruct (f g1 _), (f g2 _). simpl in *. split; [by apply Forall2_insert|done].
  - destruct (regs w2 !! i) as [g2|] eqn:E2; [|done].
    destruct (Forall2_lookup_r _ _ _ _ _ Hr E2) as (g1 & ? & _). congruence.
Qed.

Definition event_among (accounts : list Z) (e : event) : Prop :=
  match e with EvRegister _ _ _ o => owner_among accounts o | _ => True end.

(** A step counts at most one change, of an account among those registered. *)
Lemma apply_event_room accounts w e :
  roomy accounts (live w) -> Forall (fun g => owner_among accounts (g_owner g)) (regs w) ->
  (forall uid, is_Some (account_revisions (live (apply_event w e)) !! uid) -> uid ∈ accounts)
  /\ revision (live (apply_event w e)) <= revision (live w) + 1.
Proof.
  intros Hr Hin. destruct (apply_event_revisions w e) as [(H1 & H2 & H3)|(s & k & o & (H1 & H2 & H3) & -> & Ho)].
  - rewrite H1, H3. split; [apply (room_accounts _ _ Hr)|lia].
  - assert (Hs : roomy accounts s) by (destruct Hr; constructor; rewrite ?H1, ?H3; done).
    assert (Hoa : owner_among accounts o).
    { destruct Ho as [->|(g & Hg & <-)]; [done|]. rewrite list.Forall_forall in Hin. by apply Hin. }
    destruct (note_change_roomy _ k o _ Hs Hoa) as (Hv & _ & _ & Ha & _). split; [done|]. rewrite Hv, H1. lia.
Qed.

Lemma guard_owner g s now :
  g_owner (guard_waiting g s).1 = g_owner g /\ g_owner (guard_running now g s).1 = g_owner g
  /\ g_owner (guard_cancel g s).1 = g_owner g /\ g_owner (guard_finish g s).1 = g_owner g.
Proof. unfold guard_waiting, guard_running, guard_cancel, guard_finish, start. repeat case_match; done. Qed.

Lemma apply_event_owners accounts w e :
  event_among accounts e -> Forall (fun g => owner_among accounts (g_owner g)) (regs w) ->
  Forall (fun g => owner_among accounts (g_owner g)) (regs (apply_event w e)).
Proof.
  intros He Hin.
  assert (Hf : forall i f, (forall g s, g_owner (f g s).1 = g_owner g) ->
    Forall (fun g => owner_among accounts (g_owner g)) (regs (on_guard i f w))).
  { intros i f Ho. unfold on_guard. destruct (regs w !! i) as [g|] eqn:Ei; [|done].
    specialize (Ho g (live w)). destruct (f g (live w)) as [g' s]. simpl in *. apply Forall_insert; [done|].
    rewrite Ho. by apply (list.Forall_lookup_1 _ _ _ _ Hin Ei). }
  destruct e; simpl; try done; try (apply Hf; intros; by apply (guard_owner _ _ 0));
    try (by apply list.Forall_app; split; [|apply list.Forall_singleton]).
  apply Hf. intros g s. by apply (guard_owner g s now_ms).
Qed.

Lemma low_step u accounts n w1 w2 e1 e2 :
  (length accounts <= MAX_REVISION_ACCOUNTS)%nat ->
  low_event u e1 e2 -> event_among accounts e1 -> few (regs w1) -> few (regs w2) ->
  low_world u accounts (S n) w1 w2 -> low_world u accounts n (apply_event w1 e1) (apply_event w2 e2).
Proof.
  intros Hlen He Hea Hf1 Hf2 (Hr & Hl & Ht1 & Ht2 & Hin1 & Hroom).
  apply list.Forall_cons in Hroom as [[Ha1 Hv1] Hroom]. apply list.Forall_singleton in Hroom as [Ha2 Hv2].
  assert (H1 : roomy accounts (live w1)) by (constructor; [done|done|lia]).
  assert (H2 : roomy accounts (live w2)) by (constructor; [done|done|lia]).
  assert (Hin2 : Forall (fun g => owner_among accounts (g_owner g)) (regs w2)).
  { clear -Hr Hin1. induction Hr as [|g1 g2 l1 l2 (_ & Ho & _) _ IH]; [done|].
    apply list.Forall_cons in Hin1 as [? ?]. apply list.Forall_cons. split; [by rewrite <- Ho|auto]. }
  assert (Forall2 (low_reg u) (regs (apply_event w1 e1)) (regs (apply_event w2 e2))
    /\ low u (live (apply_event w1 e1)) (live (apply_event w2 e2))) as [Hr' Hl'].
  { destruct He as [->|(id & k1 & k2 & c1 & c2 & o & -> & -> & Hk)].
    - destruct e2; simpl; try (by eapply low_on_guard; eauto using low_waiting, low_run, low_cancel, low_finish).
      1,2: split; [|done]; apply Forall2_app; [done|]; apply Forall2_cons_2; [|by apply Forall2_nil_2];
        repeat split; by left.
      + split; [done|]. unfold set_stage. destruct Hl. rewrite low_stage0.
        case_bool_decide; by constructor.
      + split; [done|]. eapply low_note_change; try done. by left.
      + split; [done|]. by apply low_unavailable.
    - simpl. split; [|done]. apply Forall2_app; [done|]. apply Forall2_cons_2; [|by apply Forall2_nil_2].
      destruct Hk. by repeat split. }
  destruct (apply_event_room accounts w1 e1) as [? ?]; [done..|].
  destruct (apply_event_room accounts w2 e2) as [? ?]; [done..|].
  split_and!; [done|done|by apply apply_event_tracked|by apply apply_event_tracked|by apply apply_event_owners|].
  apply list.Forall_cons; split; [|apply list.Forall_singleton]; (split; [done|lia]).
Qed.

Lemma low_runs u accounts es1 es2 w1 w2 :
  (length accounts <= MAX_REVISION_ACCOUNTS)%nat ->
  Forall2 (low_event u) es1 es2 -> Forall (event_among accounts) es1 ->
  low_world u accounts (length es1) w1 w2 ->
  few (regs (run w1 es1)) -> few (regs (run w2 es2)) -> low_world u accounts 0 (run w1 es1) (run w2 es2).
Proof.
  intros Hlen Hes. revert w1 w2.
  induction Hes as [|e1 e2 es1 es2 He _ IH]; intros w1 w2 Hea Hw Hf1 Hf2; [done|].
  apply list.Forall_cons in Hea as [Hea1 Hea]. simpl in *. apply IH; [done| |done..].
  apply low_step; [done..| | |done].
  - by apply (few_run w1 [e1]), (few_run _ es1).
  - by apply (few_run w2 [e2]), (few_run _ es2).
Qed.

Lemma low_rows u l1 l2 : Forall2 (low_reg u) l1 l2 -> rows_of u l1 = rows_of u l2.
Proof.
  intros Hl. unfold rows_of. apply list_omap_ext, Forall2_same_length_lookup_2; [done|].
  intros i k0 k Hi Hi'. assert (k0 = k) as -> by congruence. do 2 f_equal. clear Hi Hi'.
  induction Hl as [|g1 g2 l1 l2 Hg _ IH]; simpl; [done|]. rewrite IH. f_equal.
  destruct Hg as (_ & Ho & _ & -> & Hk & _). unfold shown_as.
  by rewrite (relabelled_shown _ _ _ _ Hk), Ho.
Qed.

(** The queue shows unknown work when a hidden registration waits. *)
Lemma shows_unknown_waiting u m l :
  waiting_ok m l ->
  existsb (fun e : Kind.t * Owner * Z => hidden_from u e.1.2) (map_to_list m)
  = existsb (fun g => bool_decide (g_phase g = WAITING) && hidden_from u (g_owner g)) l.
Proof.
  intros Hm. apply eq_true_iff_eq. rewrite !existsb_true. split.
  - intros ([[k o] c] & He%elem_of_map_to_list & Hh). rewrite Hm in He.
    unfold nonzero in He. case_bool_decide as Hz; [done|]. simpl in Hh. clear He c Hm.
    induction l as [|g l IH]; [done|]. simpl in *. destruct (decide (g_phase g = WAITING /\ g_owner g = o)) as [[? <-]|Hn].
    + exists g. split; [by left|]. by rewrite bool_decide_eq_true_2.
    + assert (Hg : waits (k, o) g = 0) by (unfold waits; rewrite bool_decide_eq_false_2; naive_solver).
      rewrite Hg in Hz. destruct IH as (g' & ? & ?); [done|]. exists g'. split; [by right|done].
  - intros (g & Hg & Hb). reflect_bools. exists (g_kind g, g_owner g, waiting_in (g_kind g, g_owner g) l).
    split; [|done]. apply elem_of_map_to_list. rewrite Hm. unfold nonzero. rewrite bool_decide_eq_false_2; [done|].
    apply list_elem_of_split in Hg as (l1 & l2 & ->). rewrite waiting_in_middle, waits_self by done.
    pose proof (waiting_in_bounds (g_kind g, g_owner g) (l1 ++ l2)). lia.
Qed.

Lemma low_shows u accounts n w1 w2 :
  low_world u accounts n w1 w2 ->
  shows_unknown_work u (live w1) = shows_unknown_work u (live w2).
Proof.
  intros (Hr & [] & Ht1 & Ht2 & _). unfold shows_unknown_work.
  rewrite (shows_unknown_waiting u _ (regs w1)) by (intros key; by apply t_waiting, Ht1).
  rewrite (shows_unknown_waiting u _ (regs w2)) by (intros key; by apply t_waiting, Ht2).
  f_equal; [f_equal|].
  - destruct low_running0 as [x1 x2 (_ & Ho & _)|]; simpl; [by rewrite Ho|done].
  - induction low_tasks0 as [|x1 x2 l1 l2 (_ & Ho & _) _ IH]; simpl; [done|by rewrite Ho, IH].
  - clear -Hr. induction Hr as [|g1 g2 l1 l2 (_ & Ho & _ & Hp & _) _ IH]; simpl; [done|].
    by rewrite Ho, Hp, IH.
Qed.

(** ** Claims *)

Lemma reachable_tracked es :
  few (regs (run world_new es)) -> tracked (live (run world_new es)) (regs (run world_new es)).
Proof. intros Hf. apply run_tracked; [done|apply world_new_tracked]. Qed.

Lemma reachable_revisions es : revisions_ok (live (run world_new es)).
Proof. apply run_revisions_ok, live_new_revisions_ok. Qed.

(** What the reader [u] should see run in a lane. *)
Definition shown_running (u : Z) (lane : Lane) (l : list Registration) : list (Z * Kind.t) :=
  (fun g => (g_id g, shown_as u g)) <$> filter (fun g => g_phase g = RUNNING /\ g_lane g = lane) l.

Definition show (u : Z) (k : Z * Kind.t * Owner) : Z * Kind.t := (k.1.1, visible_kind k.1.2 k.2 u).

Lemma shown_running_in u lane l : shown_running u lane l = show u <$> running_in lane l.
Proof.
  unfold shown_running, running_in. induction l as [|g l IH]; simpl; [done|].
  rewrite filter_cons. unfold runs at 1. rewrite bool_decide_decide.
  destruct (decide _); cbn; [f_equal|]; exact IH.
Qed.

(** C23. What any reader is shown of the queue, of the worker and of the
    background work is exactly what the registrations behind it are doing, as
    that reader may see it: after any run, the waiting rows count the
    registrations that wait, the worker is the one that runs on the worker
    lane, and the background list is up to order the ones that run in the
    background, at most four. *)
Theorem snapshot_shows_registrations {C} es instance now_ms token (cameras : C) u :
  let w := run world_new es in
  let shown := snapshot_for instance now_ms token cameras u (live w) in
  few (regs w) ->
  s_waiting shown = rows_of u (regs w)
  /\ (fun o => (o_id o, o_kind o)) <$> option_list (s_worker shown) = shown_running u WorkerLane (regs w)
  /\ (fun o => (o_id o, o_kind o)) <$> s_background shown ≡ₚ shown_running u BackgroundLane (regs w)
  /\ (length (s_background shown) <= MAX_BACKGROUND_OPERATIONS)%nat.
Proof.
  intros w shown Hf. destruct (reachable_tracked es Hf) as [Hw Hwk Ht Hn Hl]. fold w in Hw, Hwk, Ht, Hl.
  unfold shown. simpl. split_and!.
  - by apply waiting_rows_spec.
  - rewrite shown_running_in. destruct (worker (live w)) as [x|]; simpl in *.
    + apply Permutation_singleton_l in Hwk. by rewrite <- Hwk.
    + apply Permutation_nil in Hwk. by rewrite Hwk.
  - rewrite shown_running_in, <- Ht, <- !list_fmap_compose. done.
  - by rewrite length_fmap.
Qed.

(** No reader's revision ever goes back, not when a completed change is
    counted and not when the account counts are full and one is given up to
    the shared count; it never exceeds root's, and no count overflows 64 bits. *)
Theorem revision_only_grows es es' u :
  revision_for u (live (run world_new es)) <= revision_for u (live (run world_new (es ++ es')))
  /\ 0 <= revision_for u (live (run world_new es)) <= revision_for 0 (live (run world_new es))
  /\ revision_for 0 (live (run world_new es)) < 2 ^ 64
  /\ (size (account_revisions (live (run world_new es))) <= MAX_REVISION_ACCOUNTS)%nat.
Proof.
  pose proof (reachable_revisions es) as Hok. rewrite run_app. split_and!.
  - by apply run_revision_mono.
  - by apply revision_for_bounds.
  - by apply revision_for_bounds.
  - apply (rev_width _ Hok).
  - apply (rev_accounts _ Hok).
Qed.

Lemma low_event_root e1 e2 : low_event 0 e1 e2 -> e1 = e2.
Proof.
  intros [->|(id & k1 & k2 & c1 & c2 & o & -> & -> & Hk & Hc)]; [done|].
  assert (Hv : visible_to o 0 = true) by (destruct o; done).
  destruct Hk as [->|(? & _)]; [|congruence]. destruct Hc as [->|(? & _)]; [done|congruence].
Qed.

(** C24. A reader cannot tell from live status what an operation it may not see
    is: two runs that differ only in the kinds of such operations (neither of
    the two kinds whose completion every reader is told of) and in whether
    other accounts' operations change those accounts' state give it equal
    snapshots, at every moment and under every stop signal, and the same
    answer when its own camera request asks whether unknown work is shown.
    The runs have fewer than 2^64 events and register work only for resolved
    owners, of at most 1024 accounts, past which an account gives up its count
    to the shared one. *)
Theorem hidden_work_not_shown {C} es1 es2 accounts instance now_ms token (cameras : C) u :
  let s1 := live (run world_new es1) in
  let s2 := live (run world_new es2) in
  Forall2 (low_event u) es1 es2 ->
  Forall (event_among accounts) es1 -> (length accounts <= MAX_REVISION_ACCOUNTS)%nat ->
  Z.of_nat (length es1) < 2 ^ 64 ->
  snapshot_for instance now_ms token cameras u s1 = snapshot_for instance now_ms token cameras u s2
  /\ shows_unknown_work u s1 = shows_unknown_work u s2.
Proof.
  intros s1 s2 Hes Hin Hlen Hf. subst s1 s2.
  destruct (decide (u = 0)) as [->|Hu].
  { assert (es1 = es2) as ->; [|done]. clear -Hes. induction Hes; [done|]. f_equal; [by apply low_event_root|done]. }
  assert (Hfew : forall es, length es = length es1 -> few (regs (run world_new es))).
  { intros es Hl. unfold few. pose proof (run_regs_length world_new es). simpl in *. lia. }
  assert (Hw : low_world u accounts 0 (run world_new es1) (run world_new es2)).
  { apply low_runs; [done..| |by apply Hfew|apply Hfew; symmetry; by eapply Forall2_length].
    split_and!; [by constructor|by constructor; try constructor|apply world_new_tracked..|done|].
    apply list.Forall_cons; split; [|apply list.Forall_singleton]; simpl; (split; [intros ? [? ?]; done|lia]). }
  split; [|by eapply low_shows]. unfold snapshot_for. destruct Hw as (Hr & [] & Ht1 & Ht2 & _).
  f_equal; try done.
  - unfold revision_for. rewrite bool_decide_eq_false_2 by done. unfold own_changes in *. congruence.
  - destruct low_running0 as [x1 x2 (Hi & Ho & Hst & Hc & Hk)|]; [|done]. simpl. unfold worker_view.
    by rewrite (relabelled_shown _ _ _ _ Hk), Hi, Ho, Hst, Hc.
  - clear -low_tasks0. induction low_tasks0 as [|x1 x2 l1 l2 (Hi & Ho & Hst & Hc & Hk) _ IH]; [done|].
    cbn. f_equal; [|exact IH]. unfold task_view. by rewrite (relabelled_shown _ _ _ _ Hk), Hi, Ho, Hst, Hc.
  - rewrite (waiting_rows_spec u _ (regs (run world_new es1))), (waiting_rows_spec u _ (regs (run world_new es2)));
      [by apply low_rows|apply Hfew; symmetry; by eapply Forall2_length|intros key; by apply t_waiting|by apply Hfew|intros key; by apply t_waiting].
Qed.

(** Another account logs in, or changes its wallet. *)
Definition some_login : list event :=
  [EvRegister 7 Kind.Authentication false (Account 1001); EvRegister 8 Kind.Framing false (Account 1002);
   EvWaiting 0; EvWaiting 1; EvRunning 0 5; EvFinish 0; EvRegister 9 Kind.ProfileUpdate true (Account 1001);
   EvWaiting 2].
Definition some_wallet : list event :=
  [EvRegister 7 Kind.WalletUpdate true (Account 1001); EvRegister 8 Kind.Framing false (Account 1002);
   EvWaiting 0; EvWaiting 1; EvRunning 0 5; EvFinish 0; EvRegister 9 Kind.WalletAuthentication false (Account 1001);
   EvWaiting 2].

Lemma hidden_work_not_shown_witness :
  Forall2 (low_event 1002) some_login some_wallet
  /\ snapshot_for 1 9 (Some (MkToken true false)) tt 1002 (live (run world_new some_login))
     = snapshot_for 1 9 (Some (MkToken true false)) tt 1002 (live (run world_new some_wallet))
  /\ shows_unknown_work 1002 (live (run world_new some_login)) = true.
Proof.
  assert (Hes : Forall2 (low_event 1002) some_login some_wallet).
  { repeat (apply Forall2_cons_2; [first [by left|right]|]); [..|apply Forall2_nil_2].
    - eexists 7, _, _, false, true, (Account 1001).
      do 2 (split; [done|]). split; right; by split_and!.
    - eexists 9, _, _, true, false, (Account 1001).
      do 2 (split; [done|]). split; right; by split_and!. }
  split; [exact Hes|]. split; [|by vm_compute].
  refine (proj1 (hidden_work_not_shown some_login some_wallet [1001; 1002] 1 9
    (Some (MkToken true false)) tt 1002 Hes _ _ _)).
  - repeat constructor.
  - unfold MAX_REVISION_ACCOUNTS. simpl. lia.
  - vm_compute. reflexivity.
Defined.

Lemma snapshot_shows_registrations_witness :
  s_waiting (snapshot_for 1 9 None tt 1002 (live (run world_new (take 5 some_login)))) = [MkRow Kind.Framing 1]
  /\ shown_running 1002 WorkerLane (regs (run world_new (take 5 some_login))) = [(7, Kind.Unknown)].
Proof.
  destruct (snapshot_shows_registrations (take 5 some_login) 1 9 None tt 1002) as (H & _).
  - unfold few. vm_compute. reflexivity.
  - rewrite H. split; by vm_compute.
Defined.

(** ** Every reader accepts every snapshot *)

Lemma any_indexed_false {A} bad same (l before : list A) :
  (forall x, x ∈ l -> bad x = false) ->
  (forall x y, x ∈ before ++ l -> y ∈ l -> same y x = true -> x = y) ->
  NoDup (before ++ l) -> any_indexed bad same before l = false.
Proof.
  revert before; induction l as [|x l IH]; intros before Hb Hs Hn; simpl; [done|].
  rewrite Hb by set_solver. simpl. apply orb_false_iff. split.
  - apply existsb_false. intros y Hy. destruct (same x y) eqn:E; [|done].
    assert (y = x) as -> by (apply Hs; set_solver). exfalso.
    apply list.NoDup_app in Hn as (_ & Hd & _). apply (Hd x); set_solver.
  - apply IH; [set_solver|..]; rewrite <- app_assoc; simpl; [|done]. intros. apply Hs; set_solver.
Qed.

Lemma checked_sum_some acc rows :
  0 <= acc -> Forall (fun r => 0 <= r_count r) rows ->
  acc + foldr (fun r n => r_count r + n) 0 rows < 2 ^ 64 -> is_Some (checked_sum acc rows).
Proof.
  intros Hacc Hr. revert acc Hacc. induction Hr as [|r rows Hr Hrows IH]; intros acc Hacc Hlt; simpl in *; [eauto|].
  assert (0 <= foldr (fun r n => r_count r + n) 0 rows).
  { clear -Hrows. induction Hrows; simpl; lia. }
  unfold checked_add. destruct (Z.ltb_spec (acc + r_count r) (2 ^ 64)); [|lia]. apply IH; lia.
Qed.

Lemma any_indexed_keys {A} {B} `{EqDecision B} bad (key : A -> B) (l : list A) :
  (forall x, x ∈ l -> bad x = false) -> NoDup (key <$> l) ->
  any_indexed bad (fun x prior => bool_decide (key prior = key x)) [] l = false.
Proof.
  intros Hb Hn. apply any_indexed_false; [done|..|by eapply list.NoDup_fmap_1]. simpl.
  intros x y Hx Hy Hk. reflect_bools. by eapply NoDup_fmap_inj.
Qed.

Lemma rows_kinds u l :
  r_kind <$> rows_of u l = filter (fun k => shown_waiting u k l <> 0) Kind.all.
Proof.
  unfold rows_of. induction Kind.all as [|k ks IH]; [done|]. rewrite filter_cons. csimpl.
  unfold nonzero at 1. case_bool_decide; csimpl.
  - rewrite decide_False by naive_solver. exact IH.
  - rewrite decide_True by done. f_equal. exact IH.
Qed.

Lemma rows_elem u l r :
  r ∈ rows_of u l -> r_count r = shown_waiting u (r_kind r) l /\ r_count r <> 0.
Proof.
  unfold rows_of. rewrite list_elem_of_omap. intros (k & _ & Hr). unfold nonzero in Hr.
  case_bool_decide; simplify_eq/=. done.
Qed.

(** The rows add up to no more than there are registrations. *)
Definition sum_kinds (u : Z) (ks : list Kind.t) (l : list Registration) : Z :=
  foldr (fun k n => shown_waiting u k l + n) 0 ks.

Lemma sum_kinds_other u ks g l :
  shown_as u g ∉ ks -> sum_kinds u ks (g :: l) = sum_kinds u ks l.
Proof.
  induction ks as [|k ks IH]; [done|]. intros Hn. rewrite not_elem_of_cons in Hn.
  destruct Hn as [Hk Hn]. specialize (IH Hn). cbn [sum_kinds foldr].
  change (shown_waiting u k (g :: l) + sum_kinds u ks (g :: l) = shown_waiting u k l + sum_kinds u ks l).
  rewrite IH. simpl. rewrite bool_decide_eq_false_2 by naive_solver. done.
Qed.

Lemma sum_kinds_bound u ks l : NoDup ks -> 0 <= sum_kinds u ks l <= Z.of_nat (length l).
Proof.
  intros Hn. induction l as [|g l IH].
  - assert (sum_kinds u ks [] = 0) as ->; [|done]. clear. unfold sum_kinds. induction ks; simpl in *; lia.
  - assert (sum_kinds u ks l <= sum_kinds u ks (g :: l) <= 1 + sum_kinds u ks l); [|simpl length; lia].
    clear IH. induction Hn as [|k ks Hk Hn IHk]; [simpl; lia|].
    change (sum_kinds u (k :: ks) (g :: l)) with (shown_waiting u k (g :: l) + sum_kinds u ks (g :: l)).
    change (sum_kinds u (k :: ks) l) with (shown_waiting u k l + sum_kinds u ks l). simpl.
    fold (shown_waiting u k l). case_bool_decide as Hc.
    + destruct Hc as [_ <-]. rewrite sum_kinds_other by done. lia.
    + lia.
Qed.

Lemma rows_sum u l :
  foldr (fun r n => r_count r + n) 0 (rows_of u l) = sum_kinds u Kind.all l.
Proof.
  unfold rows_of. induction Kind.all as [|k ks IH]; [done|]. cbn. unfold nonzero at 1.
  case_bool_decide; simpl.
  - etrans; [exact IH|]. unfold sum_kinds. lia.
  - f_equal. exact IH.
Qed.

(** Clock readings the tracker keeps are not negative. *)
Definition started_ok (s : Live) : Prop :=
  Forall (fun w => 0 <= w_started_ms w) (option_list (worker s) ++ tasks s).

Definition event_sound (e : event) : Prop :=
  match e with
  | EvRegister id _ _ _ | EvRegisterBackground id => id <> 0
  | EvRunning _ now_ms => 0 <= now_ms
  | _ => True
  end.

Lemma started_ok_eq s s' : worker s' = worker s -> tasks s' = tasks s -> started_ok s -> started_ok s'.
Proof. unfold started_ok. by intros -> ->. Qed.

Lemma remove_waiter_work k o s :
  worker (remove_waiter k o s) = worker s /\ tasks (remove_waiter k o s) = tasks s.
Proof. unfold remove_waiter. by repeat case_match. Qed.

Lemma start_started now g s : 0 <= now -> started_ok s -> started_ok (start now g s).2.
Proof.
  intros Hn Hs. unfold start. destruct (_ || _); [done|]. unfold started_ok in *. apply list.Forall_app in Hs as [H1 H2].
  destruct (g_lane g); simpl.
  - by apply list.Forall_cons.
  - rewrite app_assoc. apply list.Forall_app. split; [by apply list.Forall_app|by apply list.Forall_singleton].
Qed.

Lemma cancel_first_started id l :
  Forall (fun w => 0 <= w_started_ms w) l -> Forall (fun w => 0 <= w_started_ms w) (cancel_first id l).
Proof. induction 1; simpl; [done|]. case_bool_decide; apply list.Forall_cons; auto. Qed.

Lemma apply_event_started w e :
  event_sound e -> started_ok (live w) -> started_ok (live (apply_event w e)).
Proof.
  intros He Hs. assert (Hg : forall i f, (forall g s, started_ok s -> started_ok (f g s).2) ->
    started_ok (live (on_guard i f w))).
  { intros i f Hf. unfold on_guard. destruct (regs w !! i) as [g|]; [|done].
    specialize (Hf g _ Hs). by destruct (f g (live w)). }
  destruct e; simpl; try done.
  - apply Hg. intros g s Hgs. unfold guard_waiting. by repeat case_match.
  - apply Hg. intros g s Hgs. unfold guard_running. destruct (g_phase g); try done; apply start_started; try done.
    destruct (remove_waiter_work (g_kind g) (g_owner g) s). by eapply started_ok_eq.
  - apply Hg. intros g s Hgs. unfold guard_cancel. case_bool_decide; [|done]. simpl. unfold started_ok in *.
    apply list.Forall_app in Hgs as [H1 H2]. destruct (g_lane g).
    + destruct (worker s) as [x|] eqn:Ex; [|by rewrite Ex; apply list.Forall_app].
      case_bool_decide; [|rewrite Ex; by apply list.Forall_app]. simpl.
      simpl in H1. rewrite list.Forall_singleton in H1. by rewrite list.Forall_cons.
    + apply list.Forall_app. split; [done|]. by apply cancel_first_started.
  - apply Hg. intros g s Hgs. unfold guard_finish. simpl.
    assert (Hc : forall t, started_ok t -> started_ok (if g_changes g then note_change (g_kind g) (g_owner g) t else t)).
    { intros t Ht. destruct (g_changes g); [|done].
      destruct (note_change_tracker (g_kind g) (g_owner g) t) as (_ & ? & ?). by eapply started_ok_eq. }
    destruct (g_phase g); auto.
    + destruct (remove_waiter_work (g_kind g) (g_owner g) s). by eapply started_ok_eq.
    + apply Hc. unfold untrack, started_ok in *. apply list.Forall_app in Hgs as [H1 H2]. destruct (g_lane g).
      * destruct (worker s) as [x|] eqn:Ex; [case_bool_decide|]; simpl; rewrite ?Ex; by rewrite ?list.Forall_app.
      * destruct (list_find _ _) as [[j x]|] eqn:Ef; [|by apply list.Forall_app]. simpl.
        apply list.Forall_app. split; [done|]. apply list_find_Some in Ef as (Hi & _).
        rewrite (swap_remove_perm _ _ _ Hi) in H2. by apply list.Forall_cons in H2 as [].
  - unfold set_stage. by case_bool_decide.
  - destruct (note_change_tracker Kind.CaptureQualification Daemon (live w)) as (_ & ? & ?). by eapply started_ok_eq.
Qed.

Lemma run_started w es :
  Forall event_sound es -> started_ok (live w) -> started_ok (live (run w es)).
Proof.
  intros Hes. revert w. induction Hes as [|e es He _ IH]; intros w Hw; [done|]. simpl.
  apply IH. by apply apply_event_started.
Qed.

Lemma run_ids w es :
  Forall event_sound es -> Forall (fun g => g_id g <> 0) (regs w) ->
  Forall (fun g => g_id g <> 0) (regs (run w es)).
Proof.
  intros Hes. revert w. induction Hes as [|e es He _ IH]; intros w Hw; [done|]. simpl. apply IH.
  assert (Hg : forall i f, (forall g s, g_id (f g s).1 = g_id g) ->
    Forall (fun g => g_id g <> 0) (regs (on_guard i f w))).
  { intros i f Hf. unfold on_guard. destruct (regs w !! i) as [g|] eqn:Ei; [|done].
    specialize (Hf g (live w)). destruct (f g (live w)) as [g' s]. simpl in *. apply Forall_insert; [done|].
    rewrite Hf. by apply (list.Forall_lookup_1 _ _ _ _ Hw Ei). }
  destruct e; simpl; try done; try (by apply list.Forall_app; split; [|apply list.Forall_singleton]);
    apply Hg; intros; unfold guard_waiting, guard_running, guard_cancel, guard_finish, start; by repeat case_match.
Qed.

(** Tracked work has an id, and did not start after the clock's start. *)
Lemma tracked_work_sound es now_ms x :
  let w := run world_new es in
  Forall event_sound es -> tracked (live w) (regs w) -> 0 <= now_ms ->
  x ∈ option_list (worker (live w)) ++ tasks (live w) ->
  w_id x <> 0 /\ sat_sub now_ms (w_started_ms x) <= now_ms.
Proof.
  intros w Hes [_ Hwk Ht _ _] Hnow Hx.
  pose proof (run_started world_new es Hes ltac:(by constructor)) as Hst. fold w in Hst.
  pose proof (run_ids world_new es Hes ltac:(by constructor)) as Hid. fold w in Hid.
  unfold started_ok in Hst. rewrite list.Forall_forall in Hst. specialize (Hst x Hx). simpl in Hst.
  split; [|unfold sat_sub; lia]. intros Hz.
  assert (exists lane, wkey x ∈ running_in lane (regs w)) as [lane Hin].
  { apply elem_of_app in Hx as [Hx|Hx]; [exists WorkerLane; rewrite <- Hwk|exists BackgroundLane; rewrite <- Ht];
      by apply list_elem_of_fmap_2. }
  unfold running_in in Hin. apply list_elem_of_bind in Hin as (g & Hin & Hg).
  unfold runs in Hin. case_bool_decide; [|by apply elem_of_nil in Hin].
  apply list_elem_of_singleton in Hin. rewrite list.Forall_forall in Hid. apply (Hid g Hg).
  unfold gkey, wkey in Hin. congruence.
Qed.

(** Every snapshot the daemon serves passes the checks its readers apply:
    whatever ran, whoever reads, the rows are at most the allowed numbers, the
    counts are not zero and add up without overflow, each kind has one row, no
    operation is listed twice, and no elapsed time exceeds the uptime. *)
Theorem served_snapshot_accepted {C} es instance now_ms token (cameras : C) u :
  Forall event_sound es -> few (regs (run world_new es)) -> instance <> 0 -> 0 <= now_ms ->
  wire_accepted (snapshot_for instance now_ms token cameras u (live (run world_new es))) = true.
Proof.
  intros Hes Hf Hi Hnow. pose proof (reachable_tracked es Hf) as Htr.
  pose proof (fun x => tracked_work_sound es now_ms x Hes Htr Hnow) as Hids.
  destruct Htr as [Hw Hwk Ht Hn Hl]. set (w := run world_new es) in *.
  assert (Hrows : waiting_rows u (live w) = rows_of u (regs w)) by by apply waiting_rows_spec.
  assert (Hlen : (length (rows_of u (regs w)) <= MAX_WAITING_KINDS)%nat).
  { rewrite <- (length_fmap r_kind), rows_kinds. etrans; [apply length_filter|done]. }
  unfold wire_accepted, snapshot_for. simpl. rewrite Hrows. rewrite length_fmap.
  rewrite !bool_decide_eq_true_2 by done. simpl.
  rewrite (bool_decide_eq_false_2 (instance = 0)), (bool_decide_eq_false_2 (_ < _)%nat) by (done || lia). simpl.
  apply negb_true_iff. rewrite !orb_false_iff. split_and!.
  - apply bool_decide_eq_false. intros Hnone.
    destruct (checked_sum_some 0 (rows_of u (regs w))) as [? ?]; [done|..|congruence].
    + apply list.Forall_forall. intros r Hr%rows_elem. pose proof (shown_waiting_bounds u (r_kind r) (regs w)). lia.
    + rewrite rows_sum. pose proof (sum_kinds_bound u Kind.all (regs w) Kind.NoDup_all). unfold few in Hf. lia.
  - apply any_indexed_keys.
    + intros r Hr%rows_elem. apply bool_decide_eq_false_2. by destruct Hr.
    + rewrite rows_kinds. apply list.NoDup_filter, Kind.NoDup_all.
  - apply any_indexed_keys.
    + intros o (x & -> & Hx)%list_elem_of_fmap. destruct (Hids x) as [Hz He]; [set_solver|]. simpl.
      rewrite !bool_decide_eq_false_2 by (done || lia). simpl.
      destruct (worker (live w)) as [y|]; [|done]. simpl. apply bool_decide_eq_false_2.
      rewrite fmap_app in Hn. apply list.NoDup_app in Hn as (_ & Hd & _). intros Heq.
      apply (Hd (w_id y)); [set_solver|]. rewrite Heq. by apply list_elem_of_fmap_2.
    + rewrite <- list_fmap_compose. rewrite fmap_app in Hn. by apply list.NoDup_app in Hn as (_ & _ & Hn).
  - destruct (worker (live w)) as [y|]; [|done]. simpl. destruct (Hids y) as [Hz He]; [set_solver|].
    rewrite !bool_decide_eq_false_2 by (done || lia). done.
Qed.

Lemma served_snapshot_accepted_witness :
  wire_accepted (snapshot_for 1 9 None tt 1002 (live (run world_new some_login))) = true.
Proof.
  apply (served_snapshot_accepted some_login 1 9 None tt 1002); [|vm_compute; reflexivity|lia..].
  repeat (apply list.Forall_cons; split; [simpl; lia || exact I|]). apply list.Forall_nil. exact I.
Defined.

(** ** When tracking is lost *)

Definition counts_full (s : Live) : bool := bool_decide (2 ^ 64 <= revision s + 1).

(** The steps that end tracking: a poisoned lock, a background task that
    queues, work that starts beside work that already runs or under an id in
    use, and a change past the last revision. *)
Definition loses_tracking (w : World) (e : event) : bool :=
  match e with
  | EvPoisoned => true
  | EvWaiting i =>
      from_option (fun g => bool_decide (g_phase g = CREATED) && bool_decide (g_lane g = BackgroundLane))
        false (regs w !! i)
  | EvRunning i _ =>
      from_option (fun g => (bool_decide (g_phase g = CREATED) || bool_decide (g_phase g = WAITING))
          && (duplicate_id (g_id g) (live w) || lane_full (g_lane g) (live w))) false (regs w !! i)
  | EvFinish i =>
      from_option (fun g => g_changes g && (bool_decide (g_phase g = RUNNING) || bool_decide (g_phase g = UNTRACKED))
          && counts_full (live w)) false (regs w !! i)
  | EvSharedChange => counts_full (live w)
  | _ => false
  end.

Lemma note_change_available k o s :
  available (note_change k o s) = available s && negb (counts_full s).
Proof.
  unfold note_change, counts_full. destruct (checked_add 64 (revision s) 1) as [r|] eqn:E.
  - apply checked_add_Some in E as [-> ?]. rewrite bool_decide_eq_false_2 by lia.
    rewrite andb_true_r. by repeat case_match.
  - unfold checked_add in E. destruct (Z.ltb_spec (revision s + 1) (2 ^ 64)); [done|].
    rewrite bool_decide_eq_true_2 by lia. by rewrite andb_false_r.
Qed.

Lemma counted_available g s :
  available (if g_changes g then note_change (g_kind g) (g_owner g) s else s)
  = available s && negb (g_changes g && counts_full s).
Proof. destruct (g_changes g); simpl; [apply note_change_available|by rewrite andb_true_r]. Qed.

Lemma start_available now g s :
  available (start now g s).2
  = available s && negb (duplicate_id (g_id g) s || lane_full (g_lane g) s).
Proof.
  unfold start. destruct (_ || _); simpl; [by rewrite andb_false_r|]. rewrite andb_true_r. by destruct (g_lane g).
Qed.

(** Readers are told tracking is unavailable exactly when the tracker lost
    count: a step keeps it available unless it is one of those of
    [loses_tracking], and nothing but a restart brings it back. *)
Theorem tracking_lost_exactly es e :
  let w := run world_new es in
  few (regs w) ->
  available (live (apply_event w e)) = available (live w) && negb (loses_tracking w e).
Proof.
  intros w Hf. pose proof (reachable_tracked es Hf) as Ht. fold w in Ht.
  assert (Hg : forall i f p, (forall g l1 l2, regs w = l1 ++ g :: l2 ->
      available (f g (live w)).2 = available (live w) && negb (p g)) ->
    available (live (on_guard i f w)) = available (live w) && negb (from_option p false (regs w !! i))).
  { intros i f p Hi. unfold on_guard. destruct (regs w !! i) as [g|] eqn:Ei; [|by rewrite andb_true_r].
    destruct (insert_split _ _ _ Ei) as (l1 & l2 & Hl & _). specialize (Hi g l1 l2 Hl).
    by destruct (f g (live w)). }
  apply tracked_split in Ht as [Hw Hr].
  destruct e as [| |i|i now|i|i|st| |]; simpl; rewrite ?andb_true_r, ?andb_false_r; try done.
  - apply Hg. intros g l1 l2 Hl. rewrite Hl in Hw, Hf. unfold guard_waiting.
    case_bool_decide as Hp; simpl; [|by rewrite andb_true_r].
    destruct (g_lane g); simpl; [|by rewrite andb_false_r]. rewrite andb_true_r.
    destruct (waiting_insert_ok (waiting (live w)) l1 g l2) as [-> _]; [congruence|done..].
  - apply Hg. intros g l1 l2 Hl. rewrite Hl in Hw. unfold guard_running.
    destruct (g_phase g) eqn:Hp; simpl; rewrite ?andb_true_r; try done; rewrite start_available; [done|].
    destruct (remove_waiter_ok (live w) l1 g (set_phase FINISHED g) l2 Hp) as [_ ->]; [done..|]. done.
  - unfold on_guard. destruct (regs w !! i) as [g|]; [|done]. unfold guard_cancel.
    by repeat case_match; simplify_eq/=.
  - apply Hg. intros g l1 l2 Hl. rewrite Hl in Hw, Hr. unfold guard_finish. simpl.
    destruct (g_phase g) eqn:Hp; simpl; rewrite ?andb_false_r, ?andb_true_r; try done.
    + destruct (remove_waiter_ok (live w) l1 g (set_phase FINISHED g) l2 Hp) as [_ ->]; done.
    + destruct (untrack_ok g (live w) l1 l2 (set_phase FINISHED g)) as (_ & Ha & _); [done..|].
      rewrite counted_available, Ha. unfold counts_full.
      destruct (untrack_revisions g (live w)) as (-> & _). done.
    + apply counted_available.
  - unfold set_stage. by case_bool_decide.
  - apply note_change_available.
Qed.

Lemma tracking_lost_exactly_witness :
  available (live (apply_event (run world_new some_login) (EvRunning 1 6))) = true
  /\ loses_tracking (run world_new some_login) (EvRunning 1 6) = false.
Proof.
  split; [|by vm_compute]. rewrite (tracking_lost_exactly some_login (EvRunning 1 6)); by vm_compute.
Defined.

(** ** Live status and the camera queue *)

(** A camera request of an account other than root learns nothing of work
    it may not see from being refused: while such work runs or waits it gets
    the one answer [Busy], whatever the work is and whatever the queue holds,
    a closed queue included, and the queue is left as it was. *)
Theorem unknown_work_refuses_alike {T} es u (x : T) q :
  let s := live (run world_new es) in
  few (regs (run world_new es)) -> u <> 0 ->
  (exists g, g ∈ regs (run world_new es) /\ g_phase g ∈ [WAITING; RUNNING] /\ visible_to (g_owner g) u = false) ->
  admission (shows_unknown_work u s) Class.Camera u x q = (Err Busy, q).
Proof.
  intros s Hf Hu (g & Hg & Hp & Hv). destruct (reachable_tracked es Hf) as [Hw Hwk Ht _ _].
  assert (shows_unknown_work u s = true) as ->.
  { unfold shows_unknown_work, s. rewrite (shows_unknown_waiting u _ (regs (run world_new es))) by done.
    assert (Hh : hidden_from u (g_owner g) = true) by (unfold hidden_from; by rewrite Hv).
    rewrite !orb_true_iff. apply elem_of_cons in Hp as [Hp|Hp%list_elem_of_singleton].
    - right. apply existsb_true. exists g. split; [done|]. by rewrite bool_decide_eq_true_2.
    - left. assert (Hin : gkey g ∈ running_in (g_lane g) (regs (run world_new es))).
      { apply list_elem_of_bind. exists g. split; [|done]. rewrite runs_self by done. by left. }
      destruct (g_lane g).
      + left. rewrite <- Hwk in Hin. destruct (worker (live (run world_new es))) as [y|]; simpl in *;
          [|by apply elem_of_nil in Hin]. apply list_elem_of_singleton in Hin.
        unfold gkey, wkey in Hin. by assert (w_owner y = g_owner g) as -> by congruence.
      + right. apply existsb_true. rewrite <- Ht in Hin. apply list_elem_of_fmap in Hin as (y & Hy & Hin).
        exists y. split; [done|]. unfold gkey, wkey in Hy.
        by assert (w_owner y = g_owner g) as -> by congruence. }
  unfold admission. by rewrite (bool_decide_eq_false_2 (u = 0)).
Qed.

Lemma unknown_work_refuses_alike_witness :
  admission (shows_unknown_work 1002 (live (run world_new some_login))) Class.Camera 1002 0%nat
    (close new) = (Err Busy, close new).
Proof.
  apply (unknown_work_refuses_alike some_login 1002 0%nat (close new)); [by vm_compute|lia|].
  exists (MkRegistration 9 Kind.ProfileUpdate (Account 1001) true WorkerLane WAITING).
  split; [vm_compute; right; right; left; reflexivity|]. split; [by left|done].
Defined.
