(* ===== verification/AttemptRecord.v ===== *)
(** * The attempt record

    [irlume-daemon/src/attempt_record.rs]: what the daemon keeps of an
    account's face attempts, who is at the machine as logind's files say, the
    store the records live in, and the one background writer.  The record's
    data is [irlume-common]'s ([AttemptEntry] and the types beside it).

    SHA-256 (the [sha2] crate) and JSON (the [serde_json] crate) are
    parameters.  A text is the list of its bytes' codes; [sys] is a system
    call whose outcome the environment chooses. *)

From S2P Require Import Prelude RetryStore Services Protocol.

Module attempt.

(** ** Data *)

Inductive Kind := Authenticate | Identify.
#[global] Instance Kind_eq_dec : EqDecision Kind.
Proof. solve_decision. Defined.

Inductive Surface := Login | Lock | Elevation | App | Other.
Inductive Result := Granted | Refused | Failed.
#[global] Instance Result_eq_dec : EqDecision Result.
Proof. solve_decision. Defined.

Record Camera := MkCamera {
  model : string; port_chain : option string; descriptor_token : option string;
  unit_token : option string }.
#[global] Instance Camera_eq_dec : EqDecision Camera.
Proof. solve_decision. Defined.

Record Entry := MkEntry {
  at_secs : Z; seq : Z; kind : Kind; surface : Surface; outcome : Result;
  cause : option Cause.t; elapsed_ms : Z; capture_ms : option Z; camera : option Camera }.

Record CameraAttempts := MkBucket {
  b_camera : Camera; attempts : list Entry; connected : option bool; b_name : option string }.

Record Record_ := MkRecord {
  latest_authenticate : option Entry; latest_identify : option Entry;
  cameras : list CameraAttempts }.

Definition PER_CAMERA : nat := 5.
Definition MAX_CAMERAS : nat := 8.
Definition BUCKET_TTL_SECS : Z := 90 * 24 * 60 * 60.

(** [Stored]; [Stored::default()] draws [next_seq] as zero. *)
Record Stored := MkStored {
  account : string; unit_key_hex : string; next_seq : Z; record : Record_ }.
Definition stored_default : Stored := MkStored "" "" 0 (MkRecord None None []).

(** [CameraLocation]. *)
Record CameraLocation := MkLocation {
  l_model : string; l_port_chain : option string; l_descriptor_token : string;
  l_serial : option string; l_name : option string }.

Record Filed := MkFiled {
  f_at : Z; f_kind : Kind; f_surface : Surface; f_result : Result; f_cause : option Cause.t;
  f_elapsed_ms : Z; f_capture_ms : option Z; f_camera : option CameraLocation }.

Definition result_of (granted decided : bool) : Result :=
  if granted then Granted else if decided then Refused else Failed.

Definition surface_for (class : biopolicy.OperationClass) : Surface :=
  match class with
  | biopolicy.Login => Login
  | biopolicy.ScreenUnlock => Lock
  | biopolicy.Elevation => Elevation
  | biopolicy.AppConsent => App
  | biopolicy.Remote | biopolicy.Unknown => Other
  end.

(** ** logind's files *)

Definition text (s : string) : list Z := str_codes s.

(** [str::split] at a slash or at white space; the pieces it filters out
    because they are empty are not produced. *)
Definition cgroup_parts (cgroup : list Z) : list (list Z) :=
  split_whitespace ((fun c => if bool_decide (c = 47) then 32 else c) <$> cgroup).

Definition session_id (part : list Z) : option (list Z) :=
  rest ← strip_prefix (text "session-") part; strip_suffix (text ".scope") rest.

Definition session_of (cgroup : list Z) : option (list Z) :=
  snd <$> list_find (fun id => (id <> [] /\ forallb is_ascii_alphanumeric id = true))
    (omap session_id (cgroup_parts cgroup)).

(** The loop over a session file: the last [UID=] and [CLASS=] lines. *)
Definition session_facts (facts : list Z) : option Z * option string :=
  foldl (fun acc line =>
      match strip_prefix (text "UID=") line with
      | Some value => (parse_uint 32 (trim (codes_str value)), acc.2)
      | None =>
          match strip_prefix (text "CLASS=") line with
          | Some value => (acc.1, Some (trim (codes_str value)))
          | None => acc
          end
      end) (None, None) (lines facts).

(** [session_state_from]; the two readings are [read_to_string(..).ok()]. *)
Definition session_state_from (cgroup : option (list Z)) (session_file : list Z -> option (list Z))
    (target_uid : Z) : option biopolicy.SessionState :=
  cgroup ← cgroup;
  match session_of cgroup with
  | None => Some biopolicy.Cold
  | Some id =>
      facts ← session_file id;
      let '(uid, class) := session_facts facts in
      Some (if bool_decide (uid = Some target_uid) && bool_decide (class = Some "user")
            then biopolicy.Warm else biopolicy.Cold)
  end.

(** The first line with a prefix, without it. *)
Fixpoint find_line (key : list Z) (ls : list (list Z)) : option (list Z) :=
  match ls with
  | [] => None
  | l :: ls => match strip_prefix key l with Some v => Some v | None => find_line key ls end
  end.

Definition seat_is_held_by (facts : list Z) (uid : Z) : bool :=
  bool_decide ((v ← find_line (text "ACTIVE_UID=") (lines facts); parse_uint 32 (trim (codes_str v)))
               = Some uid).

Definition fact (facts : list Z) (key : string) : string :=
  from_option (fun v => trim (codes_str v)) "" (find_line (text key) (lines facts)).

Definition local_graphical_session_of (facts : list Z) (uid : Z) : bool :=
  bool_decide (parse_uint 32 (fact facts "UID=") = Some uid)
  && bool_decide (fact facts "CLASS=" = "user")
  && bool_decide (fact facts "STATE=" ∈ ["active"; "online"])
  && bool_decide (fact facts "TYPE=" ∈ ["x11"; "wayland"; "mir"])
  && bool_decide (fact facts "REMOTE=" = "0").

(** An entry of [read_dir] as the scan meets it: unreadable, of a kind that
    cannot be told, not a regular file, or a file with what reading it gave. *)
Inductive reading := Contents (facts : list Z) | Vanished | Unreadable.
Inductive dir_entry := BadEntry | BadKind | NotAFile | AFile (r : reading).

Definition scan_step (matches : list Z -> bool) (acc : bool * bool) (e : dir_entry) : bool * bool :=
  let '(found, unknown) := acc in
  match e with
  | BadEntry | BadKind => (found, true)
  | NotAFile => (found, unknown)
  | AFile (Contents facts) => (found || matches facts, unknown)
  | AFile Vanished => (found, unknown)
  | AFile Unreadable => (found, true)
  end.

(** [scan_logind_dir]; [None] for a directory that cannot be read. *)
Definition scan_logind_dir (entries : option (list dir_entry)) (matches : list Z -> bool)
    : option bool :=
  entries ← entries;
  let '(found, unknown) := foldl (scan_step matches) (false, false) entries in
  if found then Some true else if unknown then None else Some false.

Definition local_graphical_session_in (entries : option (list dir_entry)) (uid : Z) : option bool :=
  scan_logind_dir entries (fun facts => local_graphical_session_of facts uid).
Definition holds_an_active_seat_in (entries : option (list dir_entry)) (uid : Z) : option bool :=
  scan_logind_dir entries (fun facts => seat_is_held_by facts uid).

(** ** Filing an attempt *)

(** The order of two entries: by sequence, then by time. *)
Definition order_le (a b : Z * Z) : bool :=
  (a.1 <? b.1) || ((a.1 =? b.1) && (a.2 <=? b.2)).
Definition order (e : Entry) : Z * Z := (seq e, at_secs e).

(** [iter().position] and [Vec::insert]. *)
Definition position {A} (p : A -> bool) (l : list A) : option nat :=
  fst <$> list_find (fun x => p x = true) l.
Definition insert_at {A} (i : nat) (x : A) (l : list A) : list A := take i l ++ x :: drop i l.

Definition bucket_live (now : Z) (b : CameraAttempts) : bool :=
  match attempts b with
  | newest :: _ => bool_decide (sat_sub now (at_secs newest) <= BUCKET_TTL_SECS)
  | [] => false
  end.

Definition newer (current : option Entry) (e : Entry) : option Entry :=
  match current with
  | Some c => if order_le (order c) (order e) then Some e else Some c
  | None => Some e
  end.

Definition set_latest (r : Record_) (e : Entry) : Record_ :=
  match kind e with
  | Authenticate => MkRecord (newer (latest_authenticate r) e) (latest_identify r) (cameras r)
  | Identify => MkRecord (latest_authenticate r) (newer (latest_identify r) e) (cameras r)
  end.

Definition newest (b : CameraAttempts) : Z * Z :=
  match attempts b with e :: _ => order e | [] => (0, 0) end.

(** The entry in its bucket, by its own completion order. *)
Definition file_in (b : CameraAttempts) (e : Entry) : CameraAttempts :=
  let slot := default (length (attempts b))
    (position (fun kept => order_le (order kept) (order e)) (attempts b)) in
  MkBucket (b_camera b) (take PER_CAMERA (insert_at slot e (attempts b))) (connected b) (b_name b).

Definition apply (r : Record_) (e : Entry) (now : Z) : Record_ :=
  let r := MkRecord (latest_authenticate r) (latest_identify r)
             (filter (fun b => bucket_live now b = true) (cameras r)) in
  let r := set_latest r e in
  match camera e with
  | None => r
  | Some c =>
      let '(bucket, rest) :=
        match position (fun b => bool_decide (b_camera b = c)) (cameras r) with
        | Some index =>
            (default (MkBucket c [] None None) (cameras r !! index), delete index (cameras r))
        | None => (MkBucket c [] None None, cameras r)
        end in
      let bucket := file_in bucket e in
      let slot := default (length rest)
        (position (fun kept => order_le (newest kept) (newest bucket)) rest) in
      MkRecord (latest_authenticate r) (latest_identify r)
        (take MAX_CAMERAS (insert_at slot bucket rest))
  end.

(** [name_bucket]. *)
Fixpoint name_first (c : Camera) (name : string) (l : list CameraAttempts) : list CameraAttempts :=
  match l with
  | [] => []
  | b :: l =>
      if bool_decide (b_camera b = c)
      then MkBucket (b_camera b) (attempts b) (connected b) (Some name) :: l
      else b :: name_first c name l
  end.

Definition name_bucket (r : Record_) (c : option Camera) (name : option string) : Record_ :=
  match c, name with
  | Some c, Some name =>
      MkRecord (latest_authenticate r) (latest_identify r) (name_first c name (cameras r))
  | _, _ => r
  end.

Section Keyed.
Context (sha256 : list byte -> list byte).

Definition hex_digit (n : Z) : Z := if bool_decide (n < 10) then 48 + n else 87 + n.
Definition hex_byte (b : byte) : list Z := [hex_digit (byte_val b / 16); hex_digit (byte_val b mod 16)].
Definition hex_of (l : list byte) : string := codes_str (l ≫= hex_byte).

Definition str_bytes (s : string) : list byte := byte_of <$> str_codes s.

Definition unit_discriminator (key : list byte) (serial : string) : string :=
  hex_of (take 8 (sha256 (key ++ str_bytes "irlume-attempt-unit" ++ [x00] ++ str_bytes serial))).

Definition camera_of (location : CameraLocation) (key : list byte) : Camera :=
  MkCamera (l_model location) (l_port_chain location) (Some (l_descriptor_token location))
    (serial ← l_serial location;
     if bool_decide (trim serial = "") then None else Some (unit_discriminator key serial)).

Definition hex_val (c : Z) : option Z :=
  if bool_decide (48 <= c <= 57) then Some (c - 48)
  else if bool_decide (97 <= c <= 102) then Some (c - 87)
  else if bool_decide (65 <= c <= 70) then Some (c - 55) else None.

(** [u8::from_str_radix] of two characters; a sign is accepted there only
    before a digit. *)
Definition hex_pair (a b : Z) : option byte :=
  if bool_decide (a = 43) then byte_of <$> hex_val b
  else x ← hex_val a; y ← hex_val b; Some (byte_of (16 * x + y)).

Fixpoint hex_pairs (l : list Z) : list byte :=
  match l with
  | a :: b :: l => match hex_pair a b with Some x => x :: hex_pairs l | None => hex_pairs l end
  | _ => []
  end.
Definition key_bytes (hex : string) : list byte := hex_pairs (str_codes hex).

Definition attached (key : list byte) (c : Camera) (location : CameraLocation) : bool :=
  bool_decide (l_model location = model c)
  && bool_decide (l_port_chain location = port_chain c)
  && bool_decide (Some (l_descriptor_token location) = descriptor_token c)
  && match unit_token c with
     | Some unit => bool_decide (unit_token (camera_of location key) = Some unit)
     | None => true
     end.

Definition annotate_connected (r : Record_) (key : list byte) (connected : list CameraLocation) : Record_ :=
  MkRecord (latest_authenticate r) (latest_identify r)
    ((fun b => MkBucket (b_camera b) (attempts b)
        (Some (existsb (attached key (b_camera b)) connected)) (b_name b)) <$> cameras r).

(** The middle of [record]: from the stored record to the one written back. *)
Definition entry_of (filed : Filed) (seq : Z) (key : list byte) : Entry :=
  MkEntry (f_at filed) seq (f_kind filed) (f_surface filed) (f_result filed) (f_cause filed)
    (f_elapsed_ms filed) (f_capture_ms filed)
    ((fun location => camera_of location key) <$> f_camera filed).

Definition file_attempt (user : string) (filed : Filed) (key_hex : string) (now : Z) (stored : Stored)
    : Stored :=
  let seq := Z.max 1 (next_seq stored) in
  let next := Z.max 1 ((seq + 1) mod 2 ^ 64) in
  let entry := entry_of filed seq (key_bytes key_hex) in
  let r := apply (record stored) entry now in
  MkStored user key_hex next
    (name_bucket r (camera entry) (location ← f_camera filed; l_name location)).
End Keyed.

End attempt.

(** ** The store *)

Module attempt_store.
Import attempt.

(** What [metadata] says of a directory, and a record file. *)
Record dmeta := MkDir { d_isdir : bool; d_uid : Z; d_mode : Z }.
Record afile := MkFile { a_owner : Z; a_regular : bool; a_bytes : list byte }.

(** The directories by path, the record files by uid as they are and as a
    power loss would leave them, the lock file, and the outcomes of the next
    system calls ([true] fails). *)
Record state := MkState {
  dirs : gmap string dmeta;
  files : gmap Z afile;
  durable : gmap Z afile;
  faults : list bool;
}.

Definition M (A : Type) : Type := state -> io A * state.
#[global] Instance M_ret : MRet M := fun A a s => (Ok a, s).
#[global] Instance M_bind : MBind M := fun A B f m s =>
  match m s with (Ok a, s) => f a s | (Err e, s) => (Err e, s) end.

Definition throw {A} (e : io_error) : M A := fun s => (Err e, s).
Definition sys : M () := fun s =>
  match faults s with
  | [] => (Ok (), s)
  | b :: rest =>
      (if b then Err OsError else Ok (), MkState (dirs s) (files s) (durable s) rest)
  end.
Definition get_state : M state := fun s => (Ok s, s).
Definition modify (f : state -> state) : M () := fun s => (Ok (), f s).

(** The configuration [store] reads: the state directory, whether the
    environment moved it, and the effective uid. *)
Record config := MkConfig { state_dir : string; overridden : bool; euid : Z }.

Section Store.
Context (cfg : config).

(** Permission bits, in the octal notation of the code: 7777, 700 and 022. *)
Definition MODE_BITS : Z := 0xFFF.
Definition PRIVATE_DIR : Z := 0x1C0.
Definition OTHERS_WRITE : Z := 0x12.

(** [checked_dir]: opened without following a link, owned, and private when
    it holds records. *)
Definition checked_dir (path : string) (owner : Z) (private : bool) : M () :=
  _ ← sys;
  s ← get_state;
  match dirs s !! path with
  | Some d =>
      if negb (d_isdir d) then throw OsError else
      _ ← sys;
      let mode := Z.land (d_mode d) MODE_BITS in
      if negb (bool_decide (d_uid d = owner))
         || (if private then negb (bool_decide (mode = PRIVATE_DIR))
             else negb (bool_decide (Z.land mode OTHERS_WRITE = 0)))
      then throw InvalidData else mret ()
  | None => throw OsError
  end.

(** [create_private]. *)
Definition create_private (path : string) : M bool :=
  _ ← sys;
  s ← get_state;
  match dirs s !! path with
  | Some _ => mret false
  | None =>
      _ ← modify (fun s => MkState (<[path := MkDir true (euid cfg) PRIVATE_DIR]> (dirs s)) (files s)
                    (durable s) (faults s));
      mret true
  end.

(** [store]: the owner the record files must have. *)
Definition open_store : M Z :=
  owner ← (if negb (overridden cfg) then
             _ ← checked_dir "/" 0 false;
             _ ← checked_dir "/var" 0 false;
             _ ← checked_dir "/var/lib" 0 false;
             created ← create_private (state_dir cfg);
             _ ← (if created : bool then sys else mret ());
             _ ← checked_dir (state_dir cfg) 0 false;
             mret 0
           else
             _ ← checked_dir (state_dir cfg) (euid cfg) false;
             mret (euid cfg));
  let child := String.append (state_dir cfg) "/attempts" in
  created ← create_private child;
  _ ← (if created : bool then sys else mret ());
  _ ← checked_dir child owner true;
  mret owner.

Context (encode : Stored -> list byte) (decode : list byte -> option Stored).

(** [Store::read_any] and [Store::read]. *)
Definition read_any (owner uid : Z) : M Stored :=
  s ← get_state;
  match files s !! uid with
  | None => _ ← sys; mret stored_default
  | Some f =>
      _ ← sys; _ ← sys;
      if negb (bool_decide (a_owner f = owner)) || negb (a_regular f) then throw InvalidData else
      _ ← sys;
      match decode (a_bytes f) with Some x => mret x | None => throw InvalidData end
  end.

Definition read (owner uid : Z) (user : string) : M Stored :=
  stored ← read_any owner uid;
  mret (if negb (bool_decide (account stored = "")) && negb (bool_decide (account stored = user))
        then stored_default else stored).

(** [Store::write]: the temporary file's open, permissions, bytes and sync,
    then the rename a reader sees, then the directory's sync. *)
Definition write (uid : Z) (stored : Stored) : M () :=
  let bytes := encode stored in
  _ ← sys; _ ← sys; _ ← sys; _ ← sys; _ ← sys;
  _ ← modify (fun s => MkState (dirs s) (<[uid := MkFile (euid cfg) true bytes]> (files s))
                (durable s) (faults s));
  _ ← sys;
  modify (fun s => MkState (dirs s) (files s) (files s) (faults s)).

(** [Store::lock]: the open and the [flock]. *)
Definition lock : M () := _ ← sys; sys.

Context (sha256 : list byte -> list byte).

(** [record]; [name_of] is [users::name_for_record_writer], [random] what
    [/dev/urandom] would give and [now] the clock. *)
Definition record_attempt (name_of : Z -> option string) (random : list byte) (now : Z)
    (uid : Z) (user : string) (filed : Filed) : M () :=
  if negb (bool_decide (name_of uid = Some user)) then throw InvalidData else
  owner ← open_store;
  _ ← lock;
  stored ← read owner uid user;
  key_hex ← (if negb (bool_decide (String.length (unit_key_hex stored) = 64%nat))
             then _ ← sys; _ ← sys; mret (hex_of random) else mret (unit_key_hex stored));
  write uid (file_attempt sha256 user filed key_hex now stored).

(** [load], after the writer caught up; [uid_of] and [name_of] are the two
    lookups of [account_uid]. *)
Definition load (uid_of : string -> option Z) (name_of : Z -> option string)
    (connected : list CameraLocation) (user : string) (s : state) : option Record_ :=
  uid ← uid_of user;
  if negb (bool_decide (name_of uid = Some user)) then None else
  match open_store s with
  | (Ok owner, s) =>
      match read owner uid user s with
      | (Ok stored, _) =>
          Some (annotate_connected sha256 (record stored) (key_bytes (unit_key_hex stored)) connected)
      | _ => None
      end
  | _ => None
  end.
End Store.

(** ** Replies and the writer *)

(** [Pending]. *)
Definition Pending : Type := option (Z * string * Filed).

Definition undelivered (p : Pending) (c : Cause.t) : Pending :=
  (fun '(uid, user, filed) =>
     (uid, user,
      if bool_decide (f_result filed = Granted)
      then MkFiled (f_at filed) (f_kind filed) (f_surface filed) Failed (Some c)
             (f_elapsed_ms filed) (f_capture_ms filed) (f_camera filed)
      else filed)) <$> p.

Definition WRITER_QUEUE : nat := 64.

(** The writer's work; a fence is named by the reader that waits for it. *)
Inductive Job := JFile (uid : Z) (user : string) (filed : Filed) | JBarrier (reader : nat).

(** The queue, the jobs the writer took in order, the readers acknowledged
    and the records dropped. *)
Record writer := MkWriter {
  queue : list Job; taken : list Job; acked : list nat; dropped : Z }.
Definition writer_new : writer := MkWriter [] [] [] 0.

(** [SyncSender::try_send]: what it hands back says the queue is full. *)
Definition try_send (j : Job) (w : writer) : bool * writer :=
  if bool_decide (length (queue w) < WRITER_QUEUE)%nat
  then (true, MkWriter (queue w ++ [j]) (taken w) (acked w) (dropped w))
  else (false, w).

(** [enqueue]. *)
Definition enqueue (uid : Z) (user : string) (filed : Filed) (w : writer) : writer :=
  match try_send (JFile uid user filed) w with
  | (true, w) => w
  | (false, w) => MkWriter (queue w) (taken w) (acked w) (dropped w + 1)
  end.

(** [Pending::commit]. *)
Definition commit (p : Pending) (w : writer) : writer :=
  match p with Some (uid, user, filed) => enqueue uid user filed w | None => w end.

(** One turn of the writer's loop. *)
Definition writer_step (w : writer) : writer :=
  match queue w with
  | [] => w
  | JFile uid user filed :: q => MkWriter q (taken w ++ [JFile uid user filed]) (acked w) (dropped w)
  | JBarrier r :: q => MkWriter q (taken w ++ [JBarrier r]) (acked w ++ [r]) (dropped w)
  end.

(** The loop of [await_writer] at one of its tries. *)
Definition send_fence (reader : nat) (w : writer) : bool * writer := try_send (JBarrier reader) w.

Inductive wevent := WCommit (p : Pending) | WFence (reader : nat) | WStep.
Definition wapply (w : writer) (e : wevent) : writer :=
  match e with
  | WCommit p => commit p w
  | WFence r => (send_fence r w).2
  | WStep => writer_step w
  end.

End attempt_store.
