(* ===== verification/AttemptTheory.v ===== *)
(** * The attempt record: what it keeps

    The bounds of the record over everything that can be filed in it, what a
    record says of the attempts behind it, and whose record an attempt is
    filed in. *)

From stdpp Require Import sorting.
From S2P Require Import Prelude RetryStore Services Protocol AttemptRecord.
Import attempt attempt_store.

(** ** Placing an entry by its order *)

Definition olt (a b : Z * Z) : Prop := a.1 < b.1 \/ (a.1 = b.1 /\ a.2 < b.2).

Lemma order_le_spec a b : order_le a b = true <-> olt a b \/ a = b.
Proof.
  unfold order_le, olt. destruct a as [a1 a2], b as [b1 b2]. simpl.
  rewrite orb_true_iff, andb_true_iff, Z.ltb_lt, Z.eqb_eq, Z.leb_le. split.
  - intros [?|[-> ?]]; [by left; left|]. destruct (decide (a2 = b2)) as [->|]; [by right|left; right; lia].
  - intros [[?|[? ?]]|[= -> ->]]; [by left|right; lia|right; lia].
Qed.

Lemma order_le_total a b : order_le a b = false -> order_le b a = true.
Proof.
  intros H. apply order_le_spec. unfold olt. destruct a as [a1 a2], b as [b1 b2]. unfold order_le in H.
  simpl in *. apply orb_false_iff in H as [H1 H2]. apply Z.ltb_ge in H1. apply andb_false_iff in H2.
  destruct H2 as [H2|H2]; [apply Z.eqb_neq in H2; left; left; lia|apply Z.leb_gt in H2].
  destruct (decide (b1 < a1)); left; [by left|right; lia].
Qed.

Lemma order_le_refl a : order_le a a = true.
Proof. apply order_le_spec. by right. Qed.

Lemma order_le_trans a b c : order_le a b = true -> order_le b c = true -> order_le a c = true.
Proof.
  rewrite !order_le_spec. unfold olt. destruct a, b, c; simpl.
  intros [[?|[? ?]]|[= -> ->]] [[?|[? ?]]|[= -> ->]]; first [left; left; lia|left; right; lia|by right].
Qed.

(** Newest first. *)
Definition descending {A} (key : A -> Z * Z) : list A -> Prop :=
  StronglySorted (fun x y => order_le (key y) (key x) = true).

Section Place.
Context {A : Type} (key : A -> Z * Z).

(** [insert] at the first element not newer, as a recursion. *)
Fixpoint place (x : A) (l : list A) : list A :=
  match l with
  | [] => [x]
  | y :: l => if order_le (key y) (key x) then x :: y :: l else y :: place x l
  end.

Lemma insert_at_position x l :
  insert_at (default (length l) (position (fun y => order_le (key y) (key x)) l)) x l = place x l.
Proof.
  unfold position. induction l as [|y l IH]; [done|]. simpl. destruct (order_le (key y) (key x)) eqn:E.
  - by rewrite decide_True.
  - rewrite decide_False by congruence. rewrite <- IH.
    destruct (list_find _ l) as [[i z]|]; done.
Qed.

Lemma place_perm x l : place x l ≡ₚ x :: l.
Proof.
  induction l as [|y l IH]; simpl; [done|]. destruct (order_le _ _); [done|]. rewrite IH. constructor.
Qed.

Lemma place_descending x l : descending key l -> descending key (place x l).
Proof.
  unfold descending. induction 1 as [|y l Hl IH Hy]; simpl; [by repeat constructor|].
  destruct (order_le (key y) (key x)) eqn:E.
  - constructor; [by constructor|]. constructor; [done|]. eapply list.Forall_impl; [exact Hy|].
    simpl. intros z Hz. by eapply order_le_trans.
  - constructor; [done|]. rewrite place_perm. constructor; [by apply order_le_total|done].
Qed.

Lemma place_newest x l :
  Forall (fun y => order_le (key y) (key x) = true) l -> place x l = x :: l.
Proof. destruct 1 as [|y l Hy _]; simpl; [done|by rewrite Hy]. Qed.
End Place.

Lemma Forall_sublist {A} (P : A -> Prop) l l' : l' `sublist_of` l -> Forall P l -> Forall P l'.
Proof. rewrite !list.Forall_forall. eauto using elem_of_sublist. Qed.

Lemma descending_sub {A} (key : A -> Z * Z) l l' :
  l' `sublist_of` l -> descending key l -> descending key l'.
Proof.
  unfold descending. induction 1 as [|x l1 l2 Hs IH|x l1 l2 Hs IH]; intros Hd; [done|..];
    apply StronglySorted_inv in Hd as [Hd Hx].
  - constructor; [by apply IH|]. by eapply Forall_sublist.
  - by apply IH.
Qed.

(** ** Records within their bounds *)

Record bucket_ok (b : CameraAttempts) : Prop := {
  bo_some : attempts b <> [];
  bo_few : (length (attempts b) <= PER_CAMERA)%nat;
  bo_own : Forall (fun e => camera e = Some (b_camera b)) (attempts b);
  bo_sorted : descending order (attempts b);
}.

Record record_ok (r : Record_) : Prop := {
  ro_few : (length (cameras r) <= MAX_CAMERAS)%nat;
  ro_distinct : NoDup (b_camera <$> cameras r);
  ro_buckets : Forall bucket_ok (cameras r);
  ro_sorted : descending newest (cameras r);
  ro_auth : forall e, latest_authenticate r = Some e -> kind e = Authenticate;
  ro_identify : forall e, latest_identify r = Some e -> kind e = Identify;
}.

Lemma file_in_place b e :
  file_in b e = MkBucket (b_camera b) (take PER_CAMERA (place order e (attempts b))) (connected b) (b_name b).
Proof. unfold file_in. by rewrite (insert_at_position order). Qed.

Lemma file_in_ok b e :
  attempts b = [] \/ bucket_ok b -> camera e = Some (b_camera b) -> bucket_ok (file_in b e).
Proof.
  intros Hb He. rewrite file_in_place.
  assert (Hd : descending order (attempts b)) by (destruct Hb as [->|[]]; [constructor|done]).
  assert (Ho : Forall (fun e => camera e = Some (b_camera b)) (attempts b))
    by (destruct Hb as [->|[]]; done).
  constructor; simpl.
  - intros Hn. apply (f_equal length) in Hn. rewrite length_take, place_perm in Hn. simpl in Hn. lia.
  - rewrite length_take. lia.
  - apply list.Forall_take. rewrite place_perm. by constructor.
  - eapply descending_sub; [apply sublist_take|by apply place_descending].
Qed.

Lemma empty_record_ok : record_ok (MkRecord None None []).
Proof.
  constructor; simpl; try done; [unfold MAX_CAMERAS; lia|apply NoDup_nil_2|constructor].
Qed.

(** The bucket an entry goes to, and the others. *)
Lemma find_bucket c l :
  NoDup (b_camera <$> l) ->
  match position (fun b => bool_decide (b_camera b = c)) l with
  | Some i => exists b, l !! i = Some b /\ b_camera b = c /\ l ≡ₚ b :: delete i l
                /\ c ∉ (b_camera <$> delete i l)
  | None => c ∉ (b_camera <$> l)
  end.
Proof.
  intros Hn. unfold position. destruct (list_find _ l) as [[i b]|] eqn:E; simpl.
  - apply list_find_Some in E as (Hi & Hb & _). apply bool_decide_eq_true in Hb. exists b.
    pose proof (delete_Permutation l i b Hi) as Hp. split_and!; [done..|].
    rewrite Hp in Hn. simpl in Hn. apply list.NoDup_cons in Hn as [Hn _]. by rewrite Hb in Hn.
  - apply list_find_None in E. intros (b & -> & Hb)%list_elem_of_fmap.
    rewrite list.Forall_forall in E. apply (E b Hb). by apply bool_decide_eq_true.
Qed.

(** What [apply] leaves of the cameras, given the ones still live. *)
Definition live_cameras (now : Z) (r : Record_) : list CameraAttempts :=
  filter (fun b => bucket_live now b = true) (cameras r).

Lemma set_latest_cameras r e : cameras (set_latest r e) = cameras r.
Proof. unfold set_latest. by destruct (kind e). Qed.

Lemma apply_cameras r e now c :
  camera e = Some c -> NoDup (b_camera <$> live_cameras now r) ->
  exists b rest, cameras (apply r e now) = take MAX_CAMERAS (place newest (file_in b e) rest)
    /\ b_camera b = c /\ (c ∉ b_camera <$> rest) /\ (rest `sublist_of` live_cameras now r)
    /\ ((live_cameras now r ≡ₚ b :: rest /\ b ∈ live_cameras now r)
        \/ (b = MkBucket c [] None None /\ rest = live_cameras now r)).
Proof.
  intros Hc Hn. unfold apply. rewrite Hc, set_latest_cameras. simpl. fold (live_cameras now r).
  pose proof (find_bucket c _ Hn) as Hf.
  destruct (position (fun b => bool_decide (b_camera b = c)) (live_cameras now r)) as [i|].
  - destruct Hf as (b & Hi & Hbc & Hp & Hfresh). rewrite Hi. simpl. exists b, (delete i (live_cameras now r)).
    rewrite (insert_at_position newest). split_and!; [done..|apply sublist_delete|].
    left. split; [done|]. by eapply list_elem_of_lookup_2.
  - exists (MkBucket c [] None None), (live_cameras now r). simpl. rewrite (insert_at_position newest).
    split_and!; [done..|]. by right.
Qed.

Lemma apply_latest r e now :
  latest_authenticate (apply r e now) = latest_authenticate (set_latest r e)
  /\ latest_identify (apply r e now) = latest_identify (set_latest r e).
Proof. unfold apply, set_latest. destruct (kind e), (camera e); simpl; by repeat case_match. Qed.

Lemma apply_no_camera r e now : camera e = None -> cameras (apply r e now) = live_cameras now r.
Proof. intros Hc. unfold apply. rewrite Hc. by rewrite set_latest_cameras. Qed.

Lemma live_cameras_sub now r : live_cameras now r `sublist_of` cameras r.
Proof. apply sublist_filter. Qed.

Lemma sublist_fmap_NoDup {A B} (f : A -> B) l l' :
  l' `sublist_of` l -> NoDup (f <$> l) -> NoDup (f <$> l').
Proof.
  intros Hs Hn. eapply sublist_NoDup; [done|]. clear Hn. induction Hs; simpl; by constructor.
Qed.

Lemma newer_kind k o e :
  kind e = k -> (forall x, o = Some x -> kind x = k) -> forall x, newer o e = Some x -> kind x = k.
Proof. intros He Ho x. unfold newer. repeat case_match; naive_solver. Qed.

Lemma apply_record_ok r e now : record_ok r -> record_ok (apply r e now).
Proof.
  intros [Hf Hd Hb Hs Ha Hi]. destruct (apply_latest r e now) as [Hla Hli].
  assert (Hlive : NoDup (b_camera <$> live_cameras now r))
    by (eapply sublist_fmap_NoDup; [apply live_cameras_sub|done]).
  assert (Hlb : Forall bucket_ok (live_cameras now r)) by (eapply Forall_sublist; [apply live_cameras_sub|done]).
  assert (Hcams : (length (cameras (apply r e now)) <= MAX_CAMERAS)%nat
    /\ NoDup (b_camera <$> cameras (apply r e now)) /\ Forall bucket_ok (cameras (apply r e now))
    /\ descending newest (cameras (apply r e now))).
  { destruct (camera e) as [c|] eqn:Hc.
    - destruct (apply_cameras r e now c Hc Hlive) as (b & rest & -> & Hbc & Hfresh & Hsub & Hcase).
      assert (Hrest : Forall bucket_ok rest) by by eapply Forall_sublist.
      assert (Hnew : bucket_ok (file_in b e)).
      { apply file_in_ok; [|congruence]. destruct Hcase as [[_ Hin]|[-> _]]; [right|by left].
        rewrite list.Forall_forall in Hlb. by apply Hlb. }
      split_and!.
      + rewrite length_take. lia.
      + eapply sublist_fmap_NoDup; [apply sublist_take|]. rewrite place_perm. simpl.
        apply list.NoDup_cons. split; [change (b_camera b ∉ b_camera <$> rest); by rewrite Hbc|].
        by eapply sublist_fmap_NoDup.
      + apply list.Forall_take. rewrite place_perm. by constructor.
      + eapply descending_sub; [apply sublist_take|]. apply place_descending.
        eapply descending_sub; [done|]. eapply descending_sub; [apply live_cameras_sub|done].
    - rewrite apply_no_camera by done. split_and!; [|done|done|by eapply descending_sub; [apply live_cameras_sub|]].
      etrans; [by apply sublist_length, live_cameras_sub|done]. }
  destruct Hcams as (H1 & H2 & H3 & H4). constructor; try done.
  - rewrite Hla. unfold set_latest. destruct (kind e) eqn:Hk; simpl; [by apply newer_kind|done].
  - rewrite Hli. unfold set_latest. destruct (kind e) eqn:Hk; simpl; [done|by apply newer_kind].
Qed.

(** ** What a record says of the attempts behind it *)

(** The attempts of a camera, or of a kind, in a history kept newest first. *)
Definition on_camera (c : Camera) (h : list Entry) : list Entry := filter (fun e => camera e = Some c) h.
Definition of_kind (k : Kind) (h : list Entry) : list Entry := filter (fun e => kind e = k) h.

Record remembers (h : list Entry) (r : Record_) : Prop := {
  rm_auth : latest_authenticate r = head (of_kind Authenticate h);
  rm_identify : latest_identify r = head (of_kind Identify h);
  rm_buckets : Forall (fun b => attempts b `prefix_of` on_camera (b_camera b) h) (cameras r);
}.

Definition newest_of (h : list Entry) (e : Entry) : Prop := Forall (fun x => seq x < seq e) h.

Lemma newest_of_order h e x : newest_of h e -> x ∈ h -> order_le (order x) (order e) = true.
Proof.
  unfold newest_of. rewrite list.Forall_forall. intros Hn Hx. apply order_le_spec. left. left. by apply Hn.
Qed.

Lemma on_camera_elem c h x : x ∈ on_camera c h <-> camera x = Some c /\ x ∈ h.
Proof. unfold on_camera. by rewrite list_elem_of_filter. Qed.

Lemma prefix_elem {A} (l k : list A) x : l `prefix_of` k -> x ∈ l -> x ∈ k.
Proof. intros [l' ->] Hx. apply elem_of_app. by left. Qed.

Lemma prefix_take {A} n (l k : list A) : l `prefix_of` k -> take n l `prefix_of` k.
Proof. intros Hp. etrans; [|exact Hp]. exists (drop n l). by rewrite take_drop. Qed.

(** The newest attempt goes first in its bucket. *)
Lemma file_in_newest h b e :
  newest_of h e -> attempts b `prefix_of` on_camera (b_camera b) h ->
  attempts (file_in b e) = take PER_CAMERA (e :: attempts b).
Proof.
  intros Hn Hp. rewrite file_in_place. simpl attempts. rewrite place_newest; [done|].
  apply list.Forall_forall. intros x Hx. eapply newest_of_order; [done|].
  eapply prefix_elem in Hx; [|done]. by apply on_camera_elem in Hx as [].
Qed.

Lemma of_kind_cons k e h : of_kind k (e :: h) = if decide (kind e = k) then e :: of_kind k h else of_kind k h.
Proof. unfold of_kind. by rewrite filter_cons. Qed.
Lemma on_camera_cons c e h :
  on_camera c (e :: h) = if decide (camera e = Some c) then e :: on_camera c h else on_camera c h.
Proof. unfold on_camera. by rewrite filter_cons. Qed.

Lemma newer_head k h e :
  newest_of h e -> kind e = k -> newer (head (of_kind k h)) e = head (of_kind k (e :: h)).
Proof.
  intros Hn Hk. rewrite of_kind_cons, decide_True by done. simpl.
  destruct (of_kind k h) as [|x l] eqn:E; [done|]. simpl.
  rewrite (newest_of_order h e x Hn); [done|].
  assert (Hx : x ∈ of_kind k h) by (rewrite E; by left). unfold of_kind in Hx.
  by apply list_elem_of_filter in Hx as [].
Qed.

Lemma set_latest_remembers h r e :
  newest_of h e -> remembers h r ->
  latest_authenticate (set_latest r e) = head (of_kind Authenticate (e :: h))
  /\ latest_identify (set_latest r e) = head (of_kind Identify (e :: h)).
Proof.
  intros Hn [Ha Hi _]. unfold set_latest. destruct (kind e) eqn:Hk; simpl.
  - rewrite Ha, Hi, newer_head by done. rewrite (of_kind_cons Identify), decide_False by congruence. done.
  - rewrite Ha, Hi, newer_head by done. rewrite (of_kind_cons Authenticate), decide_False by congruence. done.
Qed.

Lemma file_in_prefix h b e :
  newest_of h e -> camera e = Some (b_camera b) -> attempts b `prefix_of` on_camera (b_camera b) h ->
  attempts (file_in b e) `prefix_of` on_camera (b_camera b) (e :: h).
Proof.
  intros Hn Hc Hp. rewrite (file_in_newest h) by done. apply prefix_take.
  rewrite on_camera_cons, decide_True by done. by apply prefix_cons.
Qed.

Lemma prefix_others h e c rest :
  camera e = Some c -> c ∉ b_camera <$> rest ->
  Forall (fun b => attempts b `prefix_of` on_camera (b_camera b) h) rest ->
  Forall (fun b => attempts b `prefix_of` on_camera (b_camera b) (e :: h)) rest.
Proof.
  intros Hc Hfresh. rewrite !list.Forall_forall. intros Hr x Hx.
  rewrite on_camera_cons, decide_False; [by apply Hr|]. rewrite Hc. intros [= ->].
  apply Hfresh. by apply list_elem_of_fmap_2.
Qed.

Lemma apply_remembers h r e now :
  newest_of h e -> record_ok r -> remembers h r -> remembers (e :: h) (apply r e now).
Proof.
  intros Hn Hok Hr. destruct (apply_latest r e now) as [Hla Hli].
  destruct (set_latest_remembers h r e Hn Hr) as [Ha Hi]. destruct Hr as [_ _ Hb].
  constructor; [congruence..|].
  assert (Hlive : Forall (fun b => attempts b `prefix_of` on_camera (b_camera b) h) (live_cameras now r))
    by (eapply Forall_sublist; [apply live_cameras_sub|done]).
  destruct (camera e) as [c|] eqn:Hc.
  - destruct (apply_cameras r e now c Hc) as (b & rest & -> & Hbc & Hfresh & Hsub & Hcase).
    { eapply sublist_fmap_NoDup; [apply live_cameras_sub|apply Hok]. }
    apply list.Forall_take. rewrite place_perm. constructor.
    + assert (Hp : attempts b `prefix_of` on_camera (b_camera b) h).
      { destruct Hcase as [[_ Hin]|[-> _]]; [|apply prefix_nil]. rewrite list.Forall_forall in Hlive. by apply Hlive. }
      change (b_camera (file_in b e)) with (b_camera b). apply file_in_prefix; [done|congruence|done].
    + eapply prefix_others; [done..|]. by eapply Forall_sublist.
  - rewrite apply_no_camera by done. eapply list.Forall_impl; [exact Hlive|]. simpl. intros b Hp.
    rewrite on_camera_cons, decide_False by congruence. done.
Qed.

(** Nothing is pruned: every bucket is live, and there is room for a bucket
    of every camera. *)
Definition complete (h : list Entry) (r : Record_) : Prop :=
  forall c, on_camera c h <> [] ->
  exists b, b ∈ cameras r /\ b_camera b = c /\ attempts b = take PER_CAMERA (on_camera c h).

Definition cameras_among (cs : list Camera) (h : list Entry) : Prop :=
  Forall (fun e => forall c, camera e = Some c -> c ∈ cs) h.

Lemma bucket_camera_among cs h b :
  cameras_among cs h -> bucket_ok b -> attempts b `prefix_of` on_camera (b_camera b) h -> b_camera b ∈ cs.
Proof.
  intros Hc Hb Hp. pose proof (bo_some b Hb). destruct (attempts b) as [|x l] eqn:E; [done|].
  assert (Hx : x ∈ on_camera (b_camera b) h) by (eapply prefix_elem; [done|by left]).
  apply on_camera_elem in Hx as [Hx Hin]. unfold cameras_among in Hc. rewrite list.Forall_forall in Hc.
  by eapply Hc.
Qed.

Lemma buckets_among cs h l :
  cameras_among cs h -> Forall bucket_ok l ->
  Forall (fun b => attempts b `prefix_of` on_camera (b_camera b) h) l ->
  NoDup (b_camera <$> l) -> (length l <= length cs)%nat.
Proof.
  intros Hc Hb Hp Hn. rewrite <- (length_fmap b_camera). apply submseteq_length, NoDup_submseteq; [done|].
  intros c (b & -> & Hin)%list_elem_of_fmap. rewrite list.Forall_forall in Hb, Hp.
  eapply bucket_camera_among; eauto.
Qed.

Lemma live_all now r :
  Forall (fun b => bucket_live now b = true) (cameras r) -> live_cameras now r = cameras r.
Proof.
  unfold live_cameras. induction 1 as [|b l Hb _ IH]; [done|]. rewrite filter_cons, decide_True by done. by f_equal.
Qed.

(** With room for every camera, no bucket falls off. *)
Lemma apply_keeps_buckets cs h r e now c :
  (length cs <= MAX_CAMERAS)%nat -> cameras_among cs (e :: h) ->
  Forall (fun b => bucket_live now b = true) (cameras r) ->
  newest_of h e -> record_ok r -> remembers h r -> camera e = Some c ->
  exists b rest, cameras (apply r e now) ≡ₚ file_in b e :: rest
    /\ b_camera b = c /\ attempts b `prefix_of` on_camera c h
    /\ ((cameras r ≡ₚ b :: rest /\ bucket_ok b) \/ (attempts b = [] /\ rest = cameras r /\ (c ∉ b_camera <$> rest))).
Proof.
  intros Hcs Ham Hlive Hn Hok Hr Hc.
  destruct (apply_cameras r e now c Hc) as (b & rest & Heq & Hbc & Hfresh & Hsub & Hcase).
  { eapply sublist_fmap_NoDup; [apply live_cameras_sub|apply Hok]. }
  rewrite live_all in Hsub, Hcase by done. destruct Hok as [_ Hd Hbs _ _ _], Hr as [_ _ Hps].
  assert (Hb : attempts b `prefix_of` on_camera (b_camera b) h /\ (attempts b = [] \/ bucket_ok b)).
  { destruct Hcase as [[_ Hin]|[-> _]]; [|split; [apply prefix_nil|by left]].
    rewrite list.Forall_forall in Hps, Hbs. split; [by apply Hps|right; by apply Hbs]. }
  destruct Hb as [Hp Hbok]. exists b, rest. split_and!; [|done|by rewrite <- Hbc|].
  - rewrite Heq, take_ge; [by rewrite place_perm|]. rewrite place_perm. etrans; [|exact Hcs].
    apply (buckets_among cs (e :: h)); [done|..].
    + constructor; [apply file_in_ok; [done|congruence]|by eapply Forall_sublist].
    + constructor; [change (b_camera (file_in b e)) with (b_camera b); apply file_in_prefix; [done|congruence|done]|].
      eapply prefix_others; [done..|]. by eapply Forall_sublist.
    + simpl. apply list.NoDup_cons. split; [change (b_camera b ∉ b_camera <$> rest); by rewrite Hbc|].
      by eapply sublist_fmap_NoDup.
  - destruct Hcase as [[Hperm Hin]|[-> ->]]; [left|right; done]. split; [done|].
    rewrite list.Forall_forall in Hbs. by apply Hbs.
Qed.

(** Within the limits, the buckets hold the five most recent of each camera. *)
Lemma apply_complete cs h r e now :
  (length cs <= MAX_CAMERAS)%nat -> cameras_among cs (e :: h) ->
  Forall (fun b => bucket_live now b = true) (cameras r) ->
  newest_of h e -> record_ok r -> remembers h r -> complete h r -> complete (e :: h) (apply r e now).
Proof.
  intros Hcs Ham Hlive Hn Hok Hr Hcomp c Hne. destruct (camera e) as [ce|] eqn:Hce.
  - destruct (apply_keeps_buckets cs h r e now ce) as (b & rest & Heq & Hbc & Hp & Hcase); [done..|].
    setoid_rewrite Heq. destruct (decide (c = ce)) as [->|Hc].
    + exists (file_in b e). split_and!; [by left|done|].
      rewrite (file_in_newest h), on_camera_cons, decide_True by (done || by rewrite Hbc).
      assert (attempts b = take PER_CAMERA (on_camera ce h)) as ->; [|unfold PER_CAMERA; simpl; by rewrite take_take].
      destruct (on_camera ce h) as [|x l] eqn:E.
      * by apply prefix_nil_inv in Hp.
      * destruct (Hcomp ce) as (b' & Hin' & Hc' & Ha'); [by rewrite E|]. rewrite <- E, <- Ha'.
        destruct Hcase as [[Hperm _]|(_ & -> & Hfresh)].
        -- f_equal. eapply (NoDup_fmap_inj b_camera (cameras r)); [apply Hok| |done|congruence].
           rewrite Hperm. by left.
        -- destruct Hfresh. rewrite <- Hc'. by apply list_elem_of_fmap_2.
    + rewrite on_camera_cons, decide_False in Hne |- * by congruence.
      destruct (Hcomp c Hne) as (b' & Hin' & Hc' & Ha'). exists b'. split_and!; [|done..].
      right. destruct Hcase as [[Hperm _]|(_ & -> & _)]; [|done].
      rewrite Hperm in Hin'. apply elem_of_cons in Hin' as [->|]; [congruence|done].
  - rewrite apply_no_camera, live_all by done. rewrite on_camera_cons, decide_False in Hne |- * by congruence.
    by apply Hcomp.
Qed.

(** ** Naming a bucket changes only its name *)

Definition same_bucket (b b' : CameraAttempts) : Prop :=
  b_camera b' = b_camera b /\ attempts b' = attempts b.

Lemma same_buckets_refl l : Forall2 same_bucket l l.
Proof. induction l; constructor; done. Qed.

Lemma name_first_same c n l : Forall2 same_bucket l (name_first c n l).
Proof.
  induction l as [|b l IH]; simpl; [done|].
  case_bool_decide; apply Forall2_cons_2; try done. apply same_buckets_refl.
Qed.

Lemma same_buckets_cameras l l' : Forall2 same_bucket l l' -> b_camera <$> l' = b_camera <$> l.
Proof. induction 1 as [|b b' l l' [Hb _] _ IH]; csimpl; [done|by rewrite Hb, IH]. Qed.

Lemma same_bucket_ok b b' : same_bucket b b' -> bucket_ok b -> bucket_ok b'.
Proof. intros [Hc Ha] []. by constructor; rewrite ?Ha, ?Hc. Qed.

Lemma same_buckets_Forall (P : CameraAttempts -> Prop) l l' :
  (forall b b', same_bucket b b' -> P b -> P b') ->
  Forall2 same_bucket l l' -> Forall P l -> Forall P l'.
Proof. intros HP Hs. induction Hs; intros Hl; [done|]. apply list.Forall_cons in Hl as [??]. constructor; eauto. Qed.

Lemma same_buckets_sorted l l' :
  Forall2 same_bucket l l' -> descending newest l -> descending newest l'.
Proof.
  unfold descending. induction 1 as [|b b' l l' Hb Hl IH]; intros Hs; [done|].
  apply StronglySorted_inv in Hs as [Hs Hf]. constructor; [by apply IH|].
  assert (Hn : forall x y, same_bucket x y -> newest y = newest x) by (intros x y [_ E]; unfold newest; by rewrite E).
  rewrite (Hn b b' Hb). eapply same_buckets_Forall; [|done|exact Hf]. simpl. intros x y Hxy. by rewrite (Hn x y Hxy).
Qed.

Lemma name_bucket_same r c n :
  latest_authenticate (name_bucket r c n) = latest_authenticate r
  /\ latest_identify (name_bucket r c n) = latest_identify r
  /\ Forall2 same_bucket (cameras r) (cameras (name_bucket r c n)).
Proof.
  pose proof (same_buckets_refl (cameras r)).
  destruct c, n; simpl; split_and!; try done. apply name_first_same.
Qed.

Lemma name_bucket_ok r c n : record_ok r -> record_ok (name_bucket r c n).
Proof.
  intros []. destruct (name_bucket_same r c n) as (Ha & Hi & Hs). constructor; rewrite ?Ha, ?Hi; try done.
  - by rewrite <- (Forall2_length Hs).
  - by rewrite (same_buckets_cameras _ _ Hs).
  - eapply same_buckets_Forall; [apply same_bucket_ok|done..].
  - by eapply same_buckets_sorted.
Qed.

Lemma name_bucket_remembers h r c n : remembers h r -> remembers h (name_bucket r c n).
Proof.
  intros []. destruct (name_bucket_same r c n) as (Ha & Hi & Hs). constructor; rewrite ?Ha, ?Hi; try done.
  eapply same_buckets_Forall; [|done..]. by intros b b' [-> ->].
Qed.

Lemma name_bucket_complete h r c n : complete h r -> complete h (name_bucket r c n).
Proof.
  intros Hc cam Hne. destruct (Hc cam Hne) as (b & Hb & Hbc & Ha).
  destruct (name_bucket_same r c n) as (_ & _ & Hs).
  apply list_elem_of_lookup in Hb as [i Hi].
  destruct (Forall2_lookup_l _ _ _ _ _ Hs Hi) as (b' & Hi' & Hc' & Ha').
  exists b'. split_and!; [by eapply list_elem_of_lookup_2|congruence..].
Qed.

(** ** Everything filed for an account *)

Section History.
Context (sha256 : list byte -> list byte) (user key_hex : string).

Definition file_run (stored : Stored) (fs : list (Filed * Z)) : Stored :=
  foldl (fun stored f => file_attempt sha256 user f.1 key_hex f.2 stored) stored fs.

(** The attempts filed, newest first, numbered from [n] on. *)
Fixpoint filed_history (n : Z) (h : list Entry) (fs : list (Filed * Z)) : list Entry :=
  match fs with
  | [] => h
  | f :: fs => filed_history (n + 1) (entry_of sha256 f.1 n (key_bytes key_hex) :: h) fs
  end.

Record filed_ok (n : Z) (h : list Entry) (stored : Stored) : Prop := {
  fo_next : Z.max 1 (next_seq stored) = n;
  fo_record : record_ok (record stored);
  fo_remembers : remembers h (record stored);
  fo_numbered : Forall (fun e => seq e < n) h;
}.

Lemma file_attempt_ok n h stored f :
  n + 1 < 2 ^ 64 -> filed_ok n h stored ->
  filed_ok (n + 1) (entry_of sha256 f.1 n (key_bytes key_hex) :: h)
    (file_attempt sha256 user f.1 key_hex f.2 stored).
Proof.
  intros Hn [Hnext Hok Hr Hnum]. unfold file_attempt. rewrite Hnext. constructor; simpl.
  - rewrite Z.mod_small by lia. lia.
  - by apply name_bucket_ok, apply_record_ok.
  - by apply name_bucket_remembers, apply_remembers.
  - constructor; [simpl; lia|]. eapply list.Forall_impl; [exact Hnum|]. simpl. lia.
Qed.

Lemma file_run_ok n h stored fs :
  n + Z.of_nat (length fs) < 2 ^ 64 -> filed_ok n h stored ->
  filed_ok (n + Z.of_nat (length fs)) (filed_history n h fs) (file_run stored fs).
Proof.
  revert n h stored. induction fs as [|f fs IH]; intros n h stored Hn Hok; simpl in *.
  - by rewrite Z.add_0_r.
  - replace (n + Z.of_nat (S (length fs))) with (n + 1 + Z.of_nat (length fs)) by lia.
    apply IH; [lia|]. apply file_attempt_ok; [lia|done].
Qed.

Lemma stored_default_ok : filed_ok 1 [] stored_default.
Proof. constructor; simpl; try done. apply empty_record_ok. Qed.

(** Attempts recent enough that no bucket is ever pruned. *)
Definition within_ttl (nows : list Z) (ats : list Z) : Prop :=
  Forall (fun now => Forall (fun t => sat_sub now t <= BUCKET_TTL_SECS) ats) nows.

Lemma buckets_live h r now :
  record_ok r -> remembers h r -> Forall (fun e => sat_sub now (at_secs e) <= BUCKET_TTL_SECS) h ->
  Forall (fun b => bucket_live now b = true) (cameras r).
Proof.
  intros [_ _ Hb _ _ _] [_ _ Hp] Ht. rewrite list.Forall_forall in Hb, Hp |- *.
  rewrite list.Forall_forall in Ht. intros b Hin. unfold bucket_live.
  destruct (attempts b) as [|x l] eqn:E; [by destruct (bo_some b (Hb b Hin))|].
  apply bool_decide_eq_true, Ht. specialize (Hp b Hin). simpl in Hp. rewrite E in Hp.
  assert (Hx : x ∈ on_camera (b_camera b) h) by (eapply prefix_elem; [done|by left]).
  by apply on_camera_elem in Hx as [].
Qed.

Definition camera_key (f : Filed * Z) : option Camera :=
  (fun l => camera_of sha256 l (key_bytes key_hex)) <$> f_camera f.1.

Lemma file_run_complete cs nows n h stored fs :
  (length cs <= MAX_CAMERAS)%nat ->
  cameras_among cs h -> Forall (fun f => forall c, camera_key f = Some c -> c ∈ cs) fs ->
  Forall (fun f => f.2 ∈ nows) fs -> within_ttl nows (at_secs <$> h) ->
  within_ttl nows ((fun f => f_at f.1) <$> fs) ->
  n + Z.of_nat (length fs) < 2 ^ 64 -> filed_ok n h stored -> complete h (record stored) ->
  complete (filed_history n h fs) (record (file_run stored fs)).
Proof.
  intros Hcs. revert n h stored. induction fs as [|f fs IH]; intros n h stored Ham Hfs Hnows Ht Htf Hn Hok Hc;
    simpl in *; [done|].
  apply list.Forall_cons in Hfs as [Hf Hfs]. apply list.Forall_cons in Hnows as [Hnow Hnows].
  set (e := entry_of sha256 f.1 n (key_bytes key_hex)).
  assert (Ham' : cameras_among cs (e :: h)) by (constructor; [exact Hf|done]).
  apply IH; try done; [..|by apply file_attempt_ok; [lia|]|].
  - unfold within_ttl in *. rewrite list.Forall_forall in Ht, Htf |- *. intros now Hin. simpl.
    specialize (Ht now Hin). specialize (Htf now Hin). apply list.Forall_cons in Htf as [Hfat _]. by constructor.
  - unfold within_ttl in *. rewrite list.Forall_forall in Htf |- *. intros now Hin. specialize (Htf now Hin).
    by apply list.Forall_cons in Htf as [_ Htf].
  - lia.
  - destruct Hok as [Hnext Hok Hr Hnum]. unfold file_attempt. rewrite Hnext. simpl.
    apply name_bucket_complete. eapply apply_complete; try done. eapply buckets_live; [done..|].
    unfold within_ttl in Ht. rewrite list.Forall_forall in Ht. specialize (Ht _ Hnow).
    rewrite list.Forall_fmap in Ht. exact Ht.
Qed.
End History.

(** ** Claims *)

(** C25. The record of an account says of its attempts what happened: after any
    attempts filed for it, the latest of each kind is the last one of that
    kind, and each camera's list is the most recent attempts on that camera,
    newest first, from the last one back without a gap, at most five of them
    over at most eight cameras. *)
Theorem record_remembers_history sha256 user key_hex fs :
  let h := filed_history sha256 key_hex 1 [] fs in
  let r := record (file_run sha256 user key_hex stored_default fs) in
  Z.of_nat (length fs) + 1 < 2 ^ 64 ->
  latest_authenticate r = head (of_kind Authenticate h)
  /\ latest_identify r = head (of_kind Identify h)
  /\ (length (cameras r) <= MAX_CAMERAS)%nat
  /\ NoDup (b_camera <$> cameras r)
  /\ Forall (fun b => attempts b <> [] /\ (length (attempts b) <= PER_CAMERA)%nat
       /\ attempts b `prefix_of` on_camera (b_camera b) h) (cameras r).
Proof.
  intros h r Hn.
  destruct (file_run_ok sha256 user key_hex 1 [] stored_default fs) as [_ Hok Hr _];
    [lia|apply stored_default_ok|]. fold h r in Hok, Hr. destruct Hr as [Ha Hi Hp], Hok as [Hf Hd Hb _ _ _].
  split_and!; try done. rewrite list.Forall_forall in Hb, Hp |- *. intros b Hin.
  destruct (Hb b Hin). by split_and!; auto.
Qed.

(** Nothing recent is lost: while the attempts use at most eight cameras
    and none is more than ninety days old when another is filed, every camera
    used has its bucket, and it holds exactly the five most recent attempts
    on that camera (or all, when there were fewer). *)
Theorem five_most_recent_kept sha256 user key_hex fs cs c :
  let h := filed_history sha256 key_hex 1 [] fs in
  let r := record (file_run sha256 user key_hex stored_default fs) in
  Z.of_nat (length fs) + 1 < 2 ^ 64 ->
  (length cs <= MAX_CAMERAS)%nat ->
  Forall (fun f => forall c, camera_key sha256 key_hex f = Some c -> c ∈ cs) fs ->
  within_ttl (snd <$> fs) ((fun f => f_at f.1) <$> fs) ->
  on_camera c h <> [] ->
  exists b, b ∈ cameras r /\ b_camera b = c /\ attempts b = take PER_CAMERA (on_camera c h).
Proof.
  intros h r Hn Hcs Hfs Ht Hne.
  apply (file_run_complete sha256 user key_hex cs (snd <$> fs) 1 [] stored_default fs);
    try done; [constructor|..|lia|apply stored_default_ok|by intros c' []].
  - apply list.Forall_forall. intros f Hf. by apply list_elem_of_fmap_2.
  - apply list.Forall_forall. intros now _. constructor.
Qed.

(** Six attempts on one camera, with a test between. *)
Definition desk_camera : CameraLocation := MkLocation "04f2:b6d9" (Some "1-6") "d00d" None (Some "Desk").
Definition one_filing (k : Kind) (t : Z) : Filed * Z :=
  (MkFiled t k Login Refused None 700 None (Some desk_camera), t).
Definition six_filings : list (Filed * Z) :=
  [one_filing Authenticate 10; one_filing Authenticate 11; one_filing Identify 12;
   one_filing Authenticate 13; one_filing Authenticate 14; one_filing Authenticate 15].
Definition no_digest (l : list byte) : list byte := l.

Lemma record_remembers_history_witness :
  let r := record (file_run no_digest "bob" "" stored_default six_filings) in
  at_secs <$> latest_authenticate r = Some 15 /\ at_secs <$> latest_identify r = Some 12.
Proof.
  destruct (record_remembers_history no_digest "bob" "" six_filings) as (H1 & H2 & _).
  - vm_compute. reflexivity.
  - cbv zeta in H1, H2 |- *. rewrite H1, H2. split; vm_compute; reflexivity.
Defined.

Lemma five_most_recent_kept_witness :
  let c := MkCamera "04f2:b6d9" (Some "1-6") (Some "d00d") None in
  exists b, b ∈ cameras (record (file_run no_digest "bob" "" stored_default six_filings))
    /\ b_camera b = c /\ at_secs <$> attempts b = [15; 14; 13; 12; 11].
Proof.
  intros c.
  destruct (five_most_recent_kept no_digest "bob" "" six_filings [c] c) as (b & Hb & Hc & Ha).
  - vm_compute. reflexivity.
  - unfold MAX_CAMERAS. simpl. lia.
  - repeat (apply list.Forall_cons; split; [intros ? [= <-]; by left|]). by apply list.Forall_nil.
  - unfold within_ttl, BUCKET_TTL_SECS, sat_sub. simpl.
    repeat (apply list.Forall_cons; split; [repeat (apply list.Forall_cons; split; [lia|]); by apply list.Forall_nil|]).
    by apply list.Forall_nil.
  - by vm_compute.
  - exists b. split_and!; [done..|]. rewrite Ha. by vm_compute.
Defined.

(** C40. Filing an attempt keeps the stored record within its bounds, whatever
    the attempt, the clock and the order attempts arrive in: at most eight
    cameras, each once, most recently used first, each with one to five of its
    own attempts in completion order, and each latest entry of its own kind. *)
Theorem filing_keeps_bounds sha256 user filed key_hex now stored :
  record_ok (record stored) -> record_ok (record (file_attempt sha256 user filed key_hex now stored)).
Proof. intros Hok. unfold file_attempt. simpl. by apply name_bucket_ok, apply_record_ok. Qed.

Lemma filing_keeps_bounds_witness :
  record_ok (record (file_attempt no_digest "bob" (one_filing Identify 3).1 "" 9 stored_default)).
Proof.
  apply (filing_keeps_bounds no_digest "bob" (one_filing Identify 3).1 "" 9 stored_default).
  apply empty_record_ok.
Defined.

(** ** The store *)

(** A step that leaves the record files alone. *)
Definition leaves_files {A} (m : M A) : Prop :=
  forall s, files (m s).2 = files s /\ durable (m s).2 = durable s.

Lemma leaves_ret {A} (a : A) : leaves_files (mret a).
Proof. done. Qed.
Lemma leaves_throw {A} e : leaves_files (throw (A := A) e).
Proof. done. Qed.
Lemma leaves_get : leaves_files get_state.
Proof. done. Qed.
Lemma leaves_sys : leaves_files sys.
Proof. intros s. unfold sys. destruct (faults s) as [|[]]; done. Qed.
Lemma leaves_bind {A B} (m : M A) (f : A -> M B) :
  leaves_files m -> (forall a, leaves_files (f a)) -> leaves_files (mbind f m).
Proof.
  intros Hm Hf s. unfold mbind, M_bind. specialize (Hm s). destruct (m s) as [[a|e] s']; simpl in *; [|done].
  destruct (Hf a s') as [H1 H2]. by rewrite H1, H2.
Qed.
Lemma leaves_dirs f : leaves_files (modify (fun s => MkState (f s) (files s) (durable s) (faults s))).
Proof. done. Qed.

#[local] Hint Resolve leaves_ret leaves_throw leaves_get leaves_sys leaves_bind leaves_dirs : irlume.
Ltac leaves := repeat (first [apply leaves_bind; [|intros ?] | case_match | solve [eauto with irlume]]).

Lemma open_store_leaves cfg : leaves_files (open_store cfg).
Proof. unfold open_store, checked_dir, create_private. leaves. Qed.
Lemma read_leaves decode owner uid user : leaves_files (read decode owner uid user).
Proof. unfold read, read_any. leaves. Qed.
Lemma lock_leaves : leaves_files lock.
Proof. unfold lock. leaves. Qed.

Lemma bind_ok {A B} (m : M A) (f : A -> M B) s b s' :
  mbind f m s = (Ok b, s') -> exists a s1, m s = (Ok a, s1) /\ f a s1 = (Ok b, s').
Proof. unfold mbind, M_bind. destruct (m s) as [[a|] s1] eqn:E; [|done]. eauto. Qed.

Lemma leaves_ok {A} (m : M A) s r s' :
  leaves_files m -> m s = (r, s') -> files s' = files s /\ durable s' = durable s.
Proof. intros Hm E. specialize (Hm s). by rewrite E in Hm. Qed.

(** What reading the record of [uid] as [user]'s gives: nothing filed yet, or
    the file's record unless it names another account. *)
Definition reads_as (decode : list byte -> option Stored) (fs : gmap Z afile) (owner uid : Z)
    (user : string) (x : Stored) : Prop :=
  match fs !! uid with
  | None => x = stored_default
  | Some f => a_owner f = owner /\ a_regular f = true /\ exists y, decode (a_bytes f) = Some y
      /\ x = (if negb (bool_decide (account y = "")) && negb (bool_decide (account y = user))
              then stored_default else y)
  end.

Lemma stored_read_spec decode owner uid user s x s' :
  read decode owner uid user s = (Ok x, s') -> reads_as decode (files s) owner uid user x.
Proof.
  unfold read. intros (y & s1 & Hr & E)%bind_ok. injection E as <- <-. unfold reads_as, read_any in *.
  apply bind_ok in Hr as (s0 & s2 & [= <- <-] & Hr). destruct (files s !! uid) as [f|].
  - apply bind_ok in Hr as (? & s3 & _ & Hr). apply bind_ok in Hr as (? & s4 & _ & Hr).
    destruct (negb (bool_decide (a_owner f = owner)) || negb (a_regular f)) eqn:Eb; [done|].
    apply orb_false_iff in Eb as [E1 E2]. reflect_bools.
    apply bind_ok in Hr as (? & s5 & _ & Hr). destruct (decode (a_bytes f)) as [z|]; [|done].
    injection Hr as <- <-. split_and!; eauto.
  - apply bind_ok in Hr as (? & s3 & _ & Hr). injection Hr as <- <-. by destruct (_ && _).
Qed.

(** A step before the record is written: it fails, leaving the files, or goes on. *)
Lemma bind_leaves {A B} (m : M A) (f : A -> M B) s r s' :
  leaves_files m -> mbind f m s = (r, s') ->
  (is_ok r = false /\ files s' = files s)
  \/ exists a s1, m s = (Ok a, s1) /\ f a s1 = (r, s') /\ files s1 = files s.
Proof.
  intros Hm. unfold mbind, M_bind. destruct (m s) as [[a|e] s1] eqn:E; apply (leaves_ok _ _ _ _ Hm) in E as E'.
  - intros Hf. right. exists a, s1. naive_solver.
  - intros [= <- <-]. left. naive_solver.
Qed.

Lemma write_spec cfg encode uid x s r s' :
  let written := <[uid := MkFile (euid cfg) true (encode x)]> (files s) in
  write cfg encode uid x s = (r, s') ->
  (files s' = files s \/ files s' = written) /\ (r = Ok () -> files s' = written /\ durable s' = written).
Proof.
  intros written. unfold write. intros Hw.
  do 5 (apply bind_leaves in Hw as [[Hr Hs]|(? & ? & _ & Hw & ?)];
    [split; [left; congruence|by intros ->]| |apply leaves_sys]).
  unfold mbind, M_bind, modify in Hw.
  destruct (sys _) as [[?|?] s6] eqn:E6; apply (leaves_ok _ _ _ _ leaves_sys) in E6 as [G1 G2];
    simpl in *; injection Hw as <- <-; simpl; unfold written.
  - split; [right; congruence|intros _; split; congruence].
  - split; [right; congruence|done].
Qed.

(** The record with the attempt filed in it. *)
Definition filed_in cfg encode decode sha256 name_of now uid user filed (fs fs' : gmap Z afile) : Prop :=
  name_of uid = Some user /\ exists owner prev key_hex, reads_as decode fs owner uid user prev
  /\ fs' = <[uid := MkFile (euid cfg) true (encode (file_attempt sha256 user filed key_hex now prev))]> fs.

Lemma record_attempt_spec cfg encode decode sha256 name_of random now uid user filed s r s' :
  let filed_now := filed_in cfg encode decode sha256 name_of now uid user filed (files s) (files s') in
  record_attempt cfg encode decode sha256 name_of random now uid user filed s = (r, s') ->
  (files s' = files s \/ filed_now) /\ (r = Ok () -> filed_now /\ durable s' = files s')
  /\ (name_of uid <> Some user -> r = Err InvalidData /\ s' = s).
Proof.
  intros filed_now. unfold record_attempt. case_bool_decide as En; simpl.
  2: { intros [= <- <-]. split_and!; [by left|done|done]. }
  intros Hrun.
  assert (Hstop : is_ok r = false -> files s' = files s -> (files s' = files s \/ filed_now)
    /\ (r = Ok () -> filed_now /\ durable s' = files s') /\ (name_of uid <> Some user -> r = Err InvalidData /\ s' = s)).
  { intros Hr Hs. split_and!; [by left|by intros ->|done]. }
  apply bind_leaves in Hrun as [[Hr Hs]|(owner & s1 & _ & Hrun & F1)]; [by apply Hstop| |apply open_store_leaves].
  apply bind_leaves in Hrun as [[Hr Hs]|(u & s2 & _ & Hrun & F2)]; [apply Hstop; congruence| |apply lock_leaves].
  apply bind_leaves in Hrun as [[Hr Hs]|(prev & s3 & E3 & Hrun & F3)]; [apply Hstop; congruence| |apply read_leaves].
  apply bind_leaves in Hrun as [[Hr Hs]|(key & s4 & _ & Hrun & F4)]; [apply Hstop; congruence| |leaves].
  apply stored_read_spec in E3. apply write_spec in Hrun as [Hw Hok].
  assert (Hf : files s4 = files s) by congruence. rewrite Hf in Hw, Hok. rewrite F2, F1 in E3.
  split_and!; [| |done].
  - destruct Hw as [Hw|Hw]; [by left|right]. split; [done|]. by exists owner, prev, key.
  - intros Hr. destruct (Hok Hr) as [H1 H2]. split; [|congruence]. split; [done|]. by exists owner, prev, key.
Qed.

(** C32. Filing an attempt either leaves every record as it was or replaces the
    account's by that record with the attempt filed in it, whatever fails on
    the way; a name the uid no longer carries files nothing; no other
    account's record is touched; and when filing reports success the new
    record is there and is the durable one. *)
Theorem filing_is_atomic cfg encode decode sha256 name_of random now uid user filed s r s' :
  let filed_now := filed_in cfg encode decode sha256 name_of now uid user filed (files s) (files s') in
  record_attempt cfg encode decode sha256 name_of random now uid user filed s = (r, s') ->
  (files s' = files s \/ filed_now) /\ (r = Ok () -> filed_now /\ durable s' = files s')
  /\ (name_of uid <> Some user -> r = Err InvalidData /\ s' = s).
Proof. apply record_attempt_spec. Qed.

(** A codec that keeps one account name, and a fresh machine. *)
Definition name_codec (stored : Stored) : list byte := str_bytes (account stored).
Definition name_decodec (l : list byte) : option Stored :=
  Some (MkStored (codes_str (byte_val <$> l)) "" 0 (MkRecord None None [])).
Definition root_config : config := MkConfig "/var/lib/irlume" false 0.
Definition fresh_machine : attempt_store.state :=
  let d := MkDir true 0 0x1ED in
  attempt_store.MkState (<["/" := d]> (<["/var" := d]> {["/var/lib" := d]}))
    {[1000 := MkFile 0 true (str_bytes "carol")]} ∅ [].
Definition bob_is_1000 (uid : Z) : option string := if bool_decide (uid = 1000) then Some "bob" else None.

Definition bob_files (s : attempt_store.state) :=
  record_attempt root_config name_codec name_decodec no_digest bob_is_1000 (replicate 32 x41) 50
    1000 "bob" (one_filing Identify 50).1 s.

Lemma filing_is_atomic_witness :
  files (bob_files fresh_machine).2 !! 1000 = Some (MkFile 0 true (str_bytes "bob")).
Proof.
  destruct (filing_is_atomic root_config name_codec name_decodec no_digest bob_is_1000 (replicate 32 x41) 50
    1000 "bob" (one_filing Identify 50).1 fresh_machine (Ok ()) (bob_files fresh_machine).2) as (_ & H & _).
  - vm_compute. reflexivity.
  - destruct H as [(_ & owner & prev & key & _ & ->) _]; [reflexivity|]. rewrite lookup_insert_eq. reflexivity.
Defined.

(** A uid that now belongs to another account starts a record of its own:
    when the stored record names another account, the one written for the new
    account holds the attempt just filed and nothing of the other's. *)
Theorem reused_uid_starts_fresh cfg encode decode sha256 name_of random now uid user filed s s' f y :
  record_attempt cfg encode decode sha256 name_of random now uid user filed s = (Ok (), s') ->
  files s !! uid = Some f -> decode (a_bytes f) = Some y -> account y <> "" -> account y <> user ->
  exists stored key_hex, files s' !! uid = Some (MkFile (euid cfg) true (encode stored))
    /\ account stored = user
    /\ let e := entry_of sha256 filed 1 (key_bytes key_hex) in
       remembers [e] (record stored) /\ record_ok (record stored).
Proof.
  intros Hrun Hf Hy Hne Hnu.
  apply record_attempt_spec in Hrun as (_ & Hok & _).
  destruct (Hok eq_refl) as [(_ & owner & prev & key & Hr & Hs') _]. clear Hok. unfold reads_as in Hr. rewrite Hf in Hr.
  destruct Hr as (_ & _ & z & Hz & ->). assert (z = y) as -> by congruence.
  rewrite !bool_decide_eq_false_2 in Hs' by done. simpl in Hs'.
  exists (file_attempt sha256 user filed key now stored_default), key. split_and!; [|done|].
  - by rewrite Hs', lookup_insert_eq.
  - destruct (file_attempt_ok sha256 user key 1 [] stored_default (filed, now)) as [_ Hok Hrm _];
      [lia|apply stored_default_ok|]. by split.
Qed.

Lemma reused_uid_starts_fresh_witness :
  exists stored, files (bob_files fresh_machine).2 !! 1000 = Some (MkFile 0 true (name_codec stored))
    /\ account stored = "bob".
Proof.
  destruct (reused_uid_starts_fresh root_config name_codec name_decodec no_digest bob_is_1000 (replicate 32 x41) 50
    1000 "bob" (one_filing Identify 50).1 fresh_machine (bob_files fresh_machine).2
    (MkFile 0 true (str_bytes "carol")) (MkStored "carol" "" 0 (MkRecord None None [])))
    as (stored & key & H & Ha & _); [vm_compute; reflexivity|vm_compute; reflexivity|vm_compute; reflexivity
    |discriminate|discriminate|]. exists stored. by split.
Defined.

(** ** The background writer *)

Definition wrun (w : writer) (es : list wevent) : writer := foldl wapply w es.

Lemma wapply_fifo w e : exists later, taken (wapply w e) ++ queue (wapply w e) = (taken w ++ queue w) ++ later.
Proof.
  destruct e as [p|r|]; simpl.
  - destruct p as [[[uid user] filed]|]; simpl; [|exists []; by rewrite app_nil_r].
    unfold enqueue, try_send. case_bool_decide; simpl; [eexists; by rewrite app_assoc|].
    exists []. by rewrite app_nil_r.
  - unfold send_fence, try_send. case_bool_decide; simpl; [eexists; by rewrite app_assoc|].
    exists []. by rewrite app_nil_r.
  - exists []. rewrite app_nil_r. unfold writer_step. destruct (queue w) as [|[uid user filed|r] q] eqn:E; simpl;
      rewrite ?E; [done|..]; by rewrite <- app_assoc.
Qed.

Lemma wapply_bounded w e :
  (length (queue w) <= WRITER_QUEUE)%nat -> (length (queue (wapply w e)) <= WRITER_QUEUE)%nat.
Proof.
  intros Hq. destruct e as [p|r|]; simpl.
  - destruct p as [[[uid user] filed]|]; simpl; [|done].
    unfold enqueue, try_send. case_bool_decide; simpl; [rewrite length_app; simpl; lia|done].
  - unfold send_fence, try_send. case_bool_decide; simpl; [rewrite length_app; simpl; lia|done].
  - unfold writer_step. revert Hq. destruct (queue w) as [|[] q] eqn:E; simpl; rewrite ?E; simpl; lia.
Qed.

(** A reader is acknowledged when its fence was taken, and only then. *)
Definition acks_taken (w : writer) : Prop := forall r, r ∈ acked w -> JBarrier r ∈ taken w.

Lemma wapply_acks w e : acks_taken w -> acks_taken (wapply w e).
Proof.
  intros Ha. destruct e as [p|r|]; simpl.
  - destruct p as [[[uid user] filed]|]; simpl; [|done]. unfold enqueue, try_send. by case_bool_decide.
  - unfold send_fence, try_send. by case_bool_decide.
  - unfold writer_step. destruct (queue w) as [|[uid user filed|r] q]; [done|..]; intros r'; simpl.
    + intros Hr. apply elem_of_app. left. by apply Ha.
    + intros [Hr|Hr%list_elem_of_singleton]%elem_of_app; apply elem_of_app; [left; by apply Ha|right].
      subst. by left.
Qed.

Lemma wrun_fifo w es : exists later, taken (wrun w es) ++ queue (wrun w es) = (taken w ++ queue w) ++ later.
Proof.
  revert w; induction es as [|e es IH]; intros w; [exists []; by rewrite app_nil_r|].
  destruct (IH (wapply w e)) as [l2 H2], (wapply_fifo w e) as [l1 H1]. exists (l1 ++ l2).
  change (wrun w (e :: es)) with (wrun (wapply w e) es). by rewrite H2, H1, <- app_assoc.
Qed.

Lemma wrun_acks w es : acks_taken w -> acks_taken (wrun w es).
Proof. revert w; induction es as [|e es IH]; intros w Hw; [done|]. simpl. by apply IH, wapply_acks. Qed.

Lemma wrun_bounded w es :
  (length (queue w) <= WRITER_QUEUE)%nat -> (length (queue (wrun w es)) <= WRITER_QUEUE)%nat.
Proof. revert w; induction es as [|e es IH]; intros w Hw; [done|]. simpl. by apply IH, wapply_bounded. Qed.

Lemma prefix_before {A} (l t q later : list A) x :
  t ++ q = (l ++ [x]) ++ later -> x ∈ t -> x ∉ l -> l `prefix_of` t.
Proof.
  intros E Ht Hl. destruct (decide (length l <= length t)%nat) as [Hle|Hlt].
  - apply (f_equal (take (length l))) in E. rewrite take_app_le in E by done.
    rewrite <- app_assoc, take_app_length in E. rewrite <- E. exists (drop (length l) t). by rewrite take_drop.
  - exfalso. apply Hl. apply (f_equal (take (length t))) in E. rewrite take_app_length in E.
    rewrite <- app_assoc, (take_app_le l) in E by lia. rewrite E in Ht. by eapply elem_of_sublist; [|apply sublist_take].
Qed.

(** A reader that waited for the writer reads everything queued before it
    asked: once its fence is acknowledged, every record accepted before the
    fence has been handed to the store, in the order it was queued, however
    many records arrived or were dropped meanwhile; and the queue never holds
    more than 64 jobs. *)
Theorem fence_waits_for_records es0 es r :
  let w0 := wrun writer_new es0 in
  let '(sent, w1) := send_fence r w0 in
  let w := wrun w1 es in
  sent = true -> JBarrier r ∉ taken w0 ++ queue w0 -> r ∈ acked w ->
  (taken w0 ++ queue w0) `prefix_of` taken w /\ (length (queue w) <= WRITER_QUEUE)%nat.
Proof.
  intros w0. unfold send_fence, try_send.
  assert (Hb : (length (queue w0) <= WRITER_QUEUE)%nat) by (apply wrun_bounded; unfold WRITER_QUEUE; simpl; lia).
  case_bool_decide as Hlt; [|done]. intros _ Hfresh Hack. set (w1 := MkWriter _ _ _ _) in *.
  assert (Ha : acks_taken (wrun w1 es)).
  { apply wrun_acks. intros r' Hr'. apply (wrun_acks writer_new es0) in Hr'; [done|by intros ? ?%elem_of_nil]. }
  split; [|apply wrun_bounded; simpl; rewrite length_app; simpl; lia].
  destruct (wrun_fifo w1 es) as [later E]. simpl in E. rewrite app_assoc in E.
  eapply prefix_before; [exact E|by apply Ha|done].
Qed.

Lemma fence_waits_for_records_witness :
  let es0 := [WCommit (Some (1000, "bob", (one_filing Identify 50).1))] in
  [JFile 1000 "bob" (one_filing Identify 50).1]
    `prefix_of` taken (wrun (send_fence 3 (wrun writer_new es0)).2 [WStep; WStep]).
Proof.
  apply (fence_waits_for_records [WCommit (Some (1000, "bob", (one_filing Identify 50).1))] [WStep; WStep] 3).
  - reflexivity.
  - simpl. set_solver.
  - simpl. set_solver.
Defined.

(** ** Who is at the machine *)

Definition unknown_entry (e : dir_entry) : bool :=
  match e with BadEntry | BadKind | AFile Unreadable => true | _ => false end.
Definition matching_entry (matches : list Z -> bool) (e : dir_entry) : bool :=
  match e with AFile (Contents facts) => matches facts | _ => false end.

Lemma scan_fold matches es found unknown :
  foldl (scan_step matches) (found, unknown) es
  = (found || existsb (matching_entry matches) es, unknown || existsb unknown_entry es).
Proof.
  revert found unknown. induction es as [|e es IH]; intros found unknown; simpl; [by rewrite !orb_false_r|].
  destruct e as [| | |[facts| |]]; simpl; rewrite IH; simpl; rewrite ?orb_true_r, ?orb_assoc; done.
Qed.

(** What the daemon concludes from logind's files is exact: it answers that
    the account has a live local desktop only when a session file read in full
    says so, that it has none only when every entry of the directory was read
    and none says so, and otherwise, whatever could not be read, that it does
    not know. *)
Theorem desktop_scan_exact entries uid :
  match local_graphical_session_in entries uid with
  | Some true => exists es facts, entries = Some es /\ AFile (Contents facts) ∈ es
      /\ local_graphical_session_of facts uid = true
  | Some false => exists es, entries = Some es /\ Forall (fun e => unknown_entry e = false
      /\ matching_entry (fun facts => local_graphical_session_of facts uid) e = false) es
  | None => entries = None \/ exists es, entries = Some es /\ (exists e, e ∈ es /\ unknown_entry e = true)
      /\ Forall (fun e => matching_entry (fun facts => local_graphical_session_of facts uid) e = false) es
  end.
Proof.
  unfold local_graphical_session_in, scan_logind_dir. destruct entries as [es|]; simpl; [|by left].
  rewrite scan_fold. simpl. set (p := fun facts => local_graphical_session_of facts uid).
  destruct (existsb (matching_entry p) es) eqn:Em.
  - apply existsb_true in Em as (e & He & Hm). destruct e as [| | |[facts| |]]; try done.
    exists es, facts. by split_and!.
  - rewrite existsb_false in Em. destruct (existsb unknown_entry es) eqn:Eu.
    + right. exists es. apply existsb_true in Eu. split_and!; [done..|]. by apply list.Forall_forall.
    + rewrite existsb_false in Eu. exists es. split; [done|]. apply list.Forall_forall. auto.
Qed.
