(* ===== verification/Replacement.v ===== *)
(** * Replacing another account's enrollment

    [irlume-core/src/replacement.rs], the record a write keeps while it
    replaces another uid's enrollment, with the write itself: the part of
    [ensure_key_with], [ReplacedKey] and [WriteKey::settle] of
    [template_key.rs] and of [save_with_key_and_publisher] of [storage.rs]
    that a replacement goes through, and [write_atomic_reporting] of
    [irlume-common].

    The files of one account are six paths (and two staging files, which only
    the publication of the added-camera store uses).  Each has the contents a reader
    sees and the contents a power loss could bring back since its directory
    was last synced; a power loss picks one for each path.  Every system call
    may succeed, fail, or be the last one the process makes.  The account's
    state lock is held throughout, so each operation runs alone.

    Parameters: SHA-256, the JSON and base64 codecs, and what the TPM answers
    (the sealed envelope of the new key, and whether it reads back).  The
    directories exist; the entry of the template-key directory in its own
    parent, which [begin] also syncs, is taken to last.

    A first key that [ensure_key_with] mints where there was none, before the
    write of it replaces another uid's plaintext enrollment, is not part of
    the write modelled: it is on disk before the record is, and stays when the
    write is undone. *)

From S2P Require Import Prelude.

Abbreviation bytes := (list byte).

(** ** Files and power loss *)

Inductive path := Enrollment | Key | Recovery | Store | Journal | Replacing | StoreStaging | JournalStaging.
#[export] Instance path_eq_dec : EqDecision path.
Proof. solve_decision. Defined.

Inductive dir := Profiles | Keys | Recoveries | Cameras.
#[export] Instance dir_eq_dec : EqDecision dir.
Proof. solve_decision. Defined.

Definition parent (p : path) : dir :=
  match p with
  | Enrollment => Profiles
  | Key | Replacing => Keys
  | Recovery => Recoveries
  | Store | Journal | StoreStaging | JournalStaging => Cameras
  end.

Inductive fault := Good | Fails | Dies.

(** [maybe p]: what [p] could be after a power loss, besides [vis p]. *)
Record fs := MkFs {
  vis : path -> option bytes;
  maybe : path -> list (option bytes);
  script : list fault;
}.

Definition poss (s : fs) (p : path) : list (option bytes) := vis s p :: maybe s p.

Definition upd {A} (p : path) (a : A) (f : path -> A) : path -> A :=
  fun q => if decide (q = p) then a else f q.

(** A power loss: every path is one of the contents it could have. *)
Definition power_loss (s s' : fs) : Prop :=
  forall p, vis s' p ∈ poss s p /\ maybe s' p = [].

Inductive outcome (A : Type) := Done (a : A) | Failed | Died.
Arguments Done {A} a.
Arguments Failed {A}.
Arguments Died {A}.

Definition M (A : Type) : Type := fs -> outcome A * fs.
#[export] Instance M_ret : MRet M := fun A a s => (Done a, s).
#[export] Instance M_bind : MBind M := fun A B f m s =>
  match m s with
  | (Done a, s) => f a s
  | (Failed, s) => (Failed, s)
  | (Died, s) => (Died, s)
  end.

Definition error {A} : M A := fun s => (Failed, s).
(** A handled error: the caller sees [None]. *)
Definition try {A} (m : M A) : M (option A) := fun s =>
  match m s with
  | (Done a, s) => (Done (Some a), s)
  | (Failed, s) => (Done None, s)
  | (Died, s) => (Died, s)
  end.

Definition sys : M () := fun s =>
  match script s with
  | [] => (Done (), s)
  | f :: rest =>
      (match f with Good => Done () | Fails => Failed | Dies => Died end,
       MkFs (vis s) (maybe s) rest)
  end.

Definition set_file (p : path) (v : option bytes) (s : fs) : fs :=
  MkFs (upd p v (vis s)) (upd p (vis s p :: maybe s p) (maybe s)) (script s).
Definition synced (d : dir) (s : fs) : fs :=
  MkFs (vis s) (fun p => if decide (parent p = d) then [] else maybe s p) (script s).

Definition look (p : path) : M (option bytes) := fun s => (Done (vis s p), s).
Definition modify (f : fs -> fs) : M () := fun s => (Done (), f s).

Definition read_file (p : path) : M (option bytes) := _ ← sys; look p.

(** [fs::remove_file]; [false] when there was none. *)
Definition remove_file (p : path) : M bool :=
  _ ← sys;
  v ← look p;
  match v with
  | None => mret false
  | Some _ => _ ← modify (set_file p None); mret true
  end.

(** [sync_parent], of a directory that exists. *)
Definition sync_parent (d : dir) : M () := _ ← sys; modify (synced d).

Inductive AtomicWrite := Durable | VisibleNotDurable.

(** [write_atomic_reporting]: the temporary file (which no reader sees), the
    rename, and the directory's sync. *)
Definition write_atomic_reporting (p : path) (b : bytes) : M AtomicWrite :=
  _ ← sys;
  _ ← sys;
  _ ← modify (set_file p (Some b));
  r ← try (sync_parent (parent p));
  mret (match r with Some _ => Durable | None => VisibleNotDurable end).

(** [write_0600_atomic]. *)
Definition write_0600_atomic (p : path) (b : bytes) : M () :=
  w ← write_atomic_reporting p b;
  match w with Durable => mret () | VisibleNotDurable => error end.

(** ** The record *)

Section Replacement.
Context (sha256 : bytes -> bytes) (b64_encode : bytes -> string) (b64_decode : string -> option bytes).

Definition VERSION : Z := 1.

Record Record_ := MkRecord {
  version : Z;
  key : option string;
  enrollment : option bytes;
  recovery : option bytes;
  camera_store : option bytes;
  camera_journal : option bytes;
}.

Context (to_json : Record_ -> bytes) (from_json : bytes -> option Record_).

(** [digest]; the code keeps the digest's hex, one to one. *)
Definition digest (p : path) : M (option bytes) := b ← read_file p; mret (sha256 <$> b).

(** [remove_if_recorded]. *)
Definition remove_if_recorded (p : path) (recorded : option bytes) : M bool :=
  removed ← (match recorded with
             | Some _ =>
                 d ← digest p;
                 if bool_decide (d = recorded) then remove_file p else mret false
             | None => mret false
             end);
  _ ← sync_parent (parent p);
  mret removed.

(** [begin]. *)
Definition begin (k : option bytes) : M () :=
  e ← digest Enrollment;
  r ← (match k with Some _ => digest Recovery | None => mret None end);
  c ← digest Store;
  j ← digest Journal;
  w ← write_atomic_reporting Replacing (to_json (MkRecord VERSION (b64_encode <$> k) e r c j));
  match w with
  | Durable =>
      ok ← try sys;
      match ok with
      | Some _ => mret ()
      | None => _ ← try (remove_file Replacing); error
      end
  | VisibleNotDurable => _ ← try (remove_file Replacing); error
  end.

(** [read]. *)
Definition read_record : M (option Record_) :=
  b ← read_file Replacing;
  match b with
  | None => mret None
  | Some b =>
      match from_json b with
      | Some r => if bool_decide (version r = VERSION) then mret (Some r) else error
      | None => error
      end
  end.

(** [end]. *)
Definition end_ : M () :=
  removed ← remove_file Replacing;
  if removed : bool then sync_parent Keys else mret ().

(** [finish]. *)
Definition finish : M () :=
  r ← read_record;
  match r with
  | None => mret ()
  | Some r =>
      _ ← sync_parent (parent Enrollment);
      _ ← remove_if_recorded Recovery (recovery r);
      _ ← remove_if_recorded Journal (camera_journal r);
      _ ← remove_if_recorded Store (camera_store r);
      end_
  end.

(** [undo]. *)
Definition undo : M () :=
  r ← read_record;
  match r with
  | None => mret ()
  | Some r =>
      _ ← (match key r with
           | None => mret ()
           | Some k =>
               match b64_decode k with
               | None => error
               | Some replaced =>
                   current ← try (read_file Key);
                   _ ← (if bool_decide (mjoin current = Some replaced) then mret ()
                        else write_0600_atomic Key replaced);
                   sync_parent (parent Key)
               end
           end);
      end_
  end.

(** [settle_interrupted]. *)
Definition settle_interrupted (loading : bool) : M () :=
  r ← read_record;
  match r with
  | None => mret ()
  | Some r =>
      d ← digest Enrollment;
      if bool_decide (d = enrollment r) then undo
      else if loading then _ ← try finish; mret () else finish
  end.

(** ** The write *)

(** [ReplacedKey::set_aside] and [ReplacedKey::put_back]. *)
Definition set_aside : M bytes :=
  b ← read_file Key;
  match b with
  | None => error
  | Some envelope => _ ← begin (Some envelope); mret envelope
  end.

Definition put_back (envelope : bytes) : M () := _ ← write_0600_atomic Key envelope; undo.

(** [ensure_key_with] once the key is found to be another account's:
    [uid_known] says whether the uid to record resolves, [sealed] is the new
    key's envelope from the TPM and [round_trip] whether it unseals to the
    key. *)
Definition replace_key (uid_known : bool) (sealed : option bytes) (round_trip : bool) : M bytes :=
  envelope ← set_aside;
  if negb uid_known then _ ← put_back envelope; error else
  ok ← try (match sealed with
            | None => error
            | Some b => _ ← write_0600_atomic Key b; if round_trip then mret () else error
            end);
  match ok with
  | Some _ => mret envelope
  | None => _ ← put_back envelope; error
  end.

(** [save_with_key_and_publisher] for a write that replaces another
    account's enrollment, with a key of its own ([new_key]) or without;
    [serialized] is the new enrollment's file. *)
Definition replacing_save (new_key : option (bool * option bytes * bool)) (serialized : option bytes)
    : M () :=
  _ ← settle_interrupted false;
  envelope ← (match new_key with
              | Some (uid_known, sealed, round_trip) => envelope ← replace_key uid_known sealed round_trip; mret (Some envelope)
              | None => _ ← begin None; mret None
              end);
  published ← (match serialized with
               | Some b => try (write_atomic_reporting Enrollment b)
               | None => mret None
               end);
  _ ← (match published with
       | Some Durable => finish
       | Some VisibleNotDurable => mret ()
       | None => match envelope with Some envelope => put_back envelope | None => undo end
       end);
  match published with Some Durable => mret () | _ => error end.
End Replacement.
