(* ===== verification/ReplacementTheory.v ===== *)
(** * A replacement is all or nothing

    The files of [Replacement] after a write that replaces another account's
    enrollment, whatever fails, wherever the process stops and whatever a
    power loss brings back, once the account's state lock is taken again. *)

From S2P Require Import Prelude Replacement.

(** ** Reasoning about the file operations

    [triple c P m Q F X]: from a state in [P], [m] ends in [Q], fails in [F] or
    is cut short in [X]; when [c] holds and no call fails, it ends. *)

Definition triple {A} (c : Prop) (P : fs -> Prop) (m : M A) (Q : A -> fs -> Prop) (F X : fs -> Prop) : Prop :=
  forall s, P s -> (c -> script s = []) ->
  match m s with
  | (Done a, s') => Q a s' /\ (c -> script s' = [])
  | (Failed, s') => F s' /\ ~ c
  | (Died, s') => X s' /\ ~ c
  end.

(** An assertion about the files alone. *)
Definition stable (P : fs -> Prop) : Prop := forall s sc, P s -> P (MkFs (vis s) (maybe s) sc).

Section Rules.
Context {c : Prop}.

Lemma t_ret {A} (a : A) (P : fs -> Prop) (Q : A -> fs -> Prop) F X :
  (forall s, P s -> Q a s) -> triple c P (mret a) Q F X.
Proof. intros H s Hs Hc. simpl. auto. Qed.

Lemma t_error {A} (P : fs -> Prop) (Q : A -> fs -> Prop) (F X : fs -> Prop) :
  (forall s, P s -> F s /\ ~ c) -> triple c P error Q F X.
Proof. intros H s Hs Hc. simpl. auto. Qed.

Lemma t_bind {A B} P (m : M A) (f : A -> M B) R Q F X :
  triple c P m R F X -> (forall a, triple c (R a) (f a) Q F X) -> triple c P (mbind f m) Q F X.
Proof.
  intros Hm Hf s Hs Hc. specialize (Hm s Hs Hc). unfold mbind, M_bind.
  destruct (m s) as [[a| |] s']; [|done..]. destruct Hm as [Hr Hc']. by apply Hf.
Qed.

Lemma t_conseq {A} (P P' : fs -> Prop) (m : M A) (Q Q' : A -> fs -> Prop) (F F' X X' : fs -> Prop) :
  triple c P' m Q' F' X' -> (forall s, P s -> P' s) -> (forall a s, Q' a s -> Q a s) ->
  (forall s, F' s -> F s) -> (forall s, X' s -> X s) -> triple c P m Q F X.
Proof.
  intros Hm HP HQ HF HX s Hs Hc. specialize (Hm s (HP s Hs) Hc).
  destruct (m s) as [[a| |] s']; naive_solver.
Qed.

Lemma t_pre {A} (P P' : fs -> Prop) (m : M A) Q F X :
  (forall s, P s -> P' s) -> triple c P' m Q F X -> triple c P m Q F X.
Proof. intros HP Hm. by eapply t_conseq. Qed.

Lemma t_post {A} P (m : M A) (Q Q' : A -> fs -> Prop) F X :
  triple c P m Q' F X -> (forall a s, Q' a s -> Q a s) -> triple c P m Q F X.
Proof. intros Hm HQ. by eapply t_conseq. Qed.

Lemma t_exn {A} P (m : M A) Q (F F' X X' : fs -> Prop) :
  triple c P m Q F' X' -> (forall s, F' s -> F s) -> (forall s, X' s -> X s) -> triple c P m Q F X.
Proof. intros Hm HF HX. by eapply t_conseq. Qed.

Lemma t_or {A} (P P' : fs -> Prop) (m : M A) Q F X :
  triple c P m Q F X -> triple c P' m Q F X -> triple c (fun s => P s \/ P' s) m Q F X.
Proof. intros H H' s [Hs|Hs]; [by apply H|by apply H']. Qed.

Lemma t_try {A} P (m : M A) (Q : option A -> fs -> Prop) (F F' X : fs -> Prop) :
  triple c P m (fun a => Q (Some a)) F' X -> (~ c -> forall s, F' s -> Q None s) -> triple c P (try m) Q F X.
Proof.
  intros Hm HF s Hs Hc. specialize (Hm s Hs Hc). unfold try.
  destruct (m s) as [[a| |] s']; [done| |done]. destruct Hm as [He Hn]. split; [by apply HF|done].
Qed.

Lemma t_sys (P F X : fs -> Prop) :
  stable P -> (forall s, P s -> F s) -> (forall s, P s -> X s) -> triple c P sys (fun _ => P) F X.
Proof.
  intros HP HF HX s Hs Hc. unfold sys. destruct (script s) as [|f rest] eqn:Es; [by split|].
  assert (Hn : ~ c) by (intros Hcc; by specialize (Hc Hcc)).
  destruct f; (split; [|done]); auto.
Qed.

Lemma t_look p (P F X : fs -> Prop) : triple c P (look p) (fun v s => P s /\ v = vis s p) F X.
Proof. intros s Hs Hc. by split. Qed.

Lemma t_modify f (P : fs -> Prop) (Q : () -> fs -> Prop) F X :
  (forall s, script (f s) = script s) -> (forall s, P s -> Q () (f s)) -> triple c P (modify f) Q F X.
Proof. intros Hf HQ s Hs Hc. simpl. split; [by apply HQ|]. intros H. by rewrite Hf, Hc. Qed.
End Rules.

(** ** What each path may hold *)

Definition within (A : path -> option bytes -> Prop) (s : fs) : Prop :=
  forall p v, v ∈ poss s p -> A p v.

Lemma within_vis A s p : within A s -> A p (vis s p).
Proof. intros H. apply H. by left. Qed.

Lemma within_stable A : stable (within A).
Proof. intros s sc H. exact H. Qed.

Lemma within_mono (A B : path -> option bytes -> Prop) s :
  (forall p v, A p v -> B p v) -> within A s -> within B s.
Proof. intros HAB HA p v Hv. by apply HAB, HA. Qed.

Lemma poss_set p v s q : poss (set_file p v s) q = if decide (q = p) then v :: poss s p else poss s q.
Proof. unfold poss, set_file, upd. simpl. by destruct (decide (q = p)) as [->|]. Qed.

Lemma vis_set p v s q : vis (set_file p v s) q = if decide (q = p) then v else vis s q.
Proof. done. Qed.

Lemma within_set (A : path -> option bytes -> Prop) p v s : A p v -> within A s -> within A (set_file p v s).
Proof.
  intros Hv HA q w. rewrite poss_set. destruct (decide (q = p)) as [->|]; [|apply HA].
  intros [->|Hw]%elem_of_cons; [done|by apply HA].
Qed.

(** A sync leaves what is seen, and only that, in its directory. *)
Lemma within_sync A B d s :
  within A s -> (forall p, parent p = d -> B p (vis s p)) ->
  (forall p v, parent p <> d -> A p v -> B p v) -> within B (synced d s).
Proof.
  intros HA Hd Hn p v. unfold poss, synced. simpl. destruct (decide (parent p = d)) as [Hp|Hp].
  - intros ->%list_elem_of_singleton. by apply Hd.
  - intros Hv. apply Hn; [done|]. by apply HA.
Qed.

Lemma within_sync_same A d s : within A s -> within A (synced d s).
Proof. intros HA. eapply within_sync; [done| |done]. intros p _. by apply within_vis. Qed.

Lemma within_loss A s s' : within A s -> power_loss s s' -> within A s'.
Proof.
  intros HA Hl p v Hv. destruct (Hl p) as [Hp Hm]. unfold poss in Hv. rewrite Hm in Hv.
  apply list_elem_of_singleton in Hv as ->. by apply HA.
Qed.

Section Ops.
Context {c : Prop}.

(** Reading. *)
Lemma t_read p (P F X : fs -> Prop) :
  stable P -> (forall s, P s -> F s) -> (forall s, P s -> X s) ->
  triple c P (read_file p) (fun v s => P s /\ v = vis s p) F X.
Proof.
  intros HP HF HX. unfold read_file. eapply t_bind; [by apply t_sys|intros ?; apply t_look].
Qed.

Lemma t_sync d (P F X : fs -> Prop) (Q : () -> fs -> Prop) :
  stable P -> (forall s, P s -> F s) -> (forall s, P s -> X s) -> (forall s, P s -> Q () (synced d s)) ->
  triple c P (sync_parent d) Q F X.
Proof.
  intros HP HF HX HQ. unfold sync_parent. eapply t_bind; [by apply t_sys|]. intros ?. by apply t_modify.
Qed.

(** An atomic write: nothing seen ([P]), or seen ([V]), or seen and durable
    ([D]). *)
Lemma t_write_atomic p b (P V D F X : fs -> Prop) :
  stable P -> stable V -> (forall s, P s -> F s) -> (forall s, P s -> X s) -> (forall s, V s -> X s) ->
  (forall s, P s -> V (set_file p (Some b) s)) -> (forall s, V s -> D (synced (parent p) s)) ->
  triple c P (write_atomic_reporting p b)
    (fun w s => match w with Durable => D s | VisibleNotDurable => V s /\ ~ c end) F X.
Proof.
  intros HP HV HPF HPX HVX Hset Hsync. unfold write_atomic_reporting.
  do 2 (eapply t_bind; [by apply t_sys|intros ?]).
  eapply t_bind with (R := fun _ => V); [by apply t_modify|]. intros ?.
  eapply t_bind with (R := fun r s => match r with Some _ => D s | None => V s /\ ~ c end).
  - apply (t_try _ _ _ _ V); [|intros Hc s Hs; by split]. by apply t_sync; [..|intros s Hs; apply Hsync].
  - intros [u|]; by apply t_ret.
Qed.

(** ... and one that must be durable. *)
Lemma t_write_0600 p b (P V D F X : fs -> Prop) :
  stable P -> stable V -> (forall s, P s -> F s) -> (forall s, V s -> F s) ->
  (forall s, P s -> X s) -> (forall s, V s -> X s) ->
  (forall s, P s -> V (set_file p (Some b) s)) -> (forall s, V s -> D (synced (parent p) s)) ->
  triple c P (write_0600_atomic p b) (fun _ => D) F X.
Proof.
  intros. unfold write_0600_atomic. eapply t_bind; [by eapply (t_write_atomic p b P V D)|].
  intros [|]; [by apply t_ret|]. apply t_error. naive_solver.
Qed.

(** Removing a file that may be anything. *)
Lemma t_remove p (P : fs -> Prop) (Q : bool -> fs -> Prop) (F X : fs -> Prop) :
  stable P -> (forall s, P s -> F s) -> (forall s, P s -> X s) ->
  (forall s, P s -> vis s p = None -> Q false s) ->
  (forall s, P s -> vis s p <> None -> Q true (set_file p None s)) ->
  triple c P (remove_file p) Q F X.
Proof.
  intros HP HF HX Hn Hs. unfold remove_file. eapply t_bind; [by apply t_sys|intros ?].
  eapply t_bind; [apply t_look|]. intros [b|].
  - eapply t_bind with (R := fun _ => Q true); [|intros ?; by apply t_ret].
    apply t_modify; [done|]. intros s [Hp Hv]. apply Hs; [done|congruence].
  - apply t_ret. intros s [Hp Hv]. by apply Hn.
Qed.
End Ops.

(** ** The situations a replacement goes through *)

Lemma keys_cases (o : option (bytes * bytes)) : o = None \/ exists k k1, o = Some (k, k1).
Proof. destruct o as [[k k1]|]; eauto. Qed.

Section Situations.
Context (sha256 : bytes -> bytes) (b64_encode : bytes -> string) (b64_decode : string -> option bytes).
Context (to_json : Record_ -> bytes) (from_json : bytes -> option Record_).
Context (json_ok : forall r, from_json (to_json r) = Some r).
Context (b64_ok : forall b, b64_decode (b64_encode b) = Some b).

(** The account's files before the write, the new enrollment and, when the
    write replaces the key, the replaced and the new key's envelopes. *)
Context (old : path -> option bytes) (e1 : bytes) (keys : option (bytes * bytes)).
Context (old_key : forall k k1, keys = Some (k, k1) -> old Key = Some k).
(** The new enrollment is another file, as far as its digest tells. *)
Context (new_file : Some (sha256 e1) <> sha256 <$> old Enrollment).

Definition key_after : option bytes := match keys with Some (_, k1) => Some k1 | None => old Key end.
(** What finishing leaves of the recovery envelope, which is the replaced
    key's alone. *)
Definition left_recovery : option bytes := match keys with Some _ => None | None => old Recovery end.

Definition the_record : Record_ :=
  MkRecord VERSION (b64_encode <$> (fst <$> keys)) (sha256 <$> old Enrollment)
    (match keys with Some _ => sha256 <$> old Recovery | None => None end)
    (sha256 <$> old Store) (sha256 <$> old Journal).
Definition rb : bytes := to_json the_record.

(** Untouched, but for a record that may or may not be there. *)
Definition untouched (p : path) (v : option bytes) : Prop :=
  match p with Replacing => v = None \/ v = Some rb | _ => v = old p end.
(** Recorded; the key may be the new one. *)
Definition recorded (p : path) (v : option bytes) : Prop :=
  match p with
  | Replacing => v = Some rb
  | Key => v = old Key \/ v = key_after
  | _ => v = old p
  end.
(** Published, but a power loss may bring the replaced enrollment back. *)
Definition published (p : path) (v : option bytes) : Prop :=
  match p with
  | Enrollment => v = old Enrollment \/ v = Some e1
  | Replacing => v = Some rb
  | Key => v = key_after
  | _ => v = old p
  end.
(** The new enrollment is durable, the removals are under way. *)
Definition finishing (p : path) (v : option bytes) : Prop :=
  match p with
  | Enrollment => v = Some e1
  | Replacing => v = Some rb
  | Key => v = key_after
  | Recovery => v = old Recovery \/ v = left_recovery
  | Store | Journal => v = old p \/ v = None
  | _ => v = old p
  end.
(** Finished, but for the record. *)
Definition finished (p : path) (v : option bytes) : Prop :=
  match p with
  | Enrollment => v = Some e1
  | Replacing => v = None \/ v = Some rb
  | Key => v = key_after
  | Recovery => v = left_recovery
  | Store | Journal => v = None
  | _ => v = old p
  end.

Definition undoing (s : fs) : Prop := within untouched s \/ within recorded s.
Definition going_on (s : fs) : Prop :=
  (within published s /\ vis s Enrollment = Some e1) \/ within finishing s \/ within finished s.
Definition inv (s : fs) : Prop := undoing s \/ going_on s.

(** The two ends. *)
Definition as_before (s : fs) : Prop := within untouched s /\ vis s Replacing = None.
Definition replaced (s : fs) : Prop := within finished s /\ vis s Replacing = None.

Lemma inv_stable : stable inv.
Proof. intros s sc H. exact H. Qed.

Lemma inv_loss s s' : inv s -> power_loss s s' -> inv s'.
Proof.
  intros [[H|H]|[[H Hv]|[H|H]]] Hl; pose proof (within_loss _ _ _ H Hl) as H'; unfold inv, undoing, going_on.
  - tauto.
  - tauto.
  - destruct (within_vis _ _ Enrollment H') as [He|He]; simpl in He.
    + left. right. intros p v Hp. destruct (Hl p) as [_ Hm]. unfold poss in Hp. rewrite Hm in Hp.
      apply list_elem_of_singleton in Hp as ->. pose proof (within_vis _ _ p H') as Hw.
      destruct p; simpl in *; auto.
    + right. right. left. intros p v Hp. destruct (Hl p) as [_ Hm]. unfold poss in Hp. rewrite Hm in Hp.
      apply list_elem_of_singleton in Hp as ->. pose proof (within_vis _ _ p H') as Hw.
      destruct p; simpl in *; auto.
  - tauto.
  - tauto.
Qed.

Context {c : Prop}.

(** Reading the record where it is the one the write made. *)
Lemma t_read_record (P F X : fs -> Prop) :
  stable P -> (forall s, P s -> F s) -> (forall s, P s -> X s) ->
  (forall s, P s -> vis s Replacing = None \/ vis s Replacing = Some rb) ->
  triple c P (read_record from_json)
    (fun r s => P s /\ ((r = None /\ vis s Replacing = None) \/ (r = Some the_record /\ vis s Replacing = Some rb))) F X.
Proof.
  intros HP HF HX Hv. unfold read_record. eapply t_bind; [by apply t_read|]. intros [b|]; simpl.
  - intros s [Hs Hb] Hc. destruct (Hv s Hs) as [Hn|Hn]; [congruence|].
    assert (b = rb) as -> by congruence. unfold rb. rewrite json_ok. simpl. split; [|done].
    split; [done|]. by right.
  - apply t_ret. intros s [Hs Hb]. split; [done|]. by left.
Qed.

(** The record goes from where it may go. *)
Lemma t_end (I : fs -> Prop) (A : path -> option bytes -> Prop) :
  A Replacing None -> (forall s, within A s -> I s) ->
  triple c (within A) end_ (fun _ s => within A s /\ vis s Replacing = None) I I.
Proof.
  intros HA Hinv. unfold end_.
  eapply t_bind with (R := fun _ s => within A s /\ vis s Replacing = None).
  - apply t_remove; [apply within_stable|done|done|by intros|].
    intros s Hs ?. split; [|done]. by apply within_set.
  - intros [|]; [|by apply t_ret]. apply t_sync; [by intros s sc [? ?]|naive_solver..|].
    intros s [Hs Hv]. split; [by apply within_sync_same|done].
Qed.

Lemma untouched_inv s : within untouched s -> inv s.
Proof. intros H. by left; left. Qed.
Lemma recorded_inv s : within recorded s -> inv s.
Proof. intros H. by left; right. Qed.
Lemma going_on_inv s : going_on s -> inv s.
Proof. intros H. by right. Qed.
Lemma finishing_inv s : within finishing s -> inv s.
Proof. intros H. by right; right; left. Qed.
Lemma finished_inv s : within finished s -> inv s.
Proof. intros H. by right; right; right. Qed.

(** Seen and durable, the replaced key makes everything as before. *)
Lemma sync_key_back s :
  within recorded s -> vis s Key = old Key -> within untouched (synced Keys s).
Proof.
  intros Hs Hv. eapply within_sync; [exact Hs|..].
  - intros p Hp. pose proof (within_vis _ _ p Hs) as Hw. destruct p; simpl in *; try done; auto.
  - intros p v Hp Hw. destruct p; simpl in *; done.
Qed.

(** Writing the replaced key back, and syncing its directory. *)
Lemma t_key_back (A : path -> option bytes -> Prop) k k1 :
  keys = Some (k, k1) -> A Key (old Key) -> (forall s, within A s -> inv s) ->
  triple c (within A) (write_0600_atomic Key k) (fun _ s => within A s /\ vis s Key = old Key) inv inv.
Proof.
  intros Hk HA Hinv. pose proof (old_key _ _ Hk) as Hold.
  eapply (t_write_0600 Key k (within A) (fun s => within A s /\ vis s Key = old Key));
    [apply within_stable|by intros s sc [? ?]|naive_solver..| |].
  - intros s Hs. split; [|by rewrite vis_set]. apply within_set; [|done]. by rewrite <- Hold.
  - intros s [Hs Hv]. split; [by apply within_sync_same|done].
Qed.

(** The key's part of [undo]. *)
Lemma t_undo_key (A : path -> option bytes -> Prop) k k1 :
  keys = Some (k, k1) -> A Key (old Key) -> (forall s, within A s -> inv s) ->
  (forall s, within A s -> vis s Key = old Key -> within untouched (synced Keys s)) ->
  triple c (within A)
    (current ← try (read_file Key);
     _ ← (if bool_decide (mjoin current = Some k) then mret () else write_0600_atomic Key k);
     sync_parent (parent Key)) (fun _ => within untouched) inv inv.
Proof.
  intros Hk HA Hinv Hsync. pose proof (old_key _ _ Hk) as Hold.
  eapply t_bind with (R := fun cur s => within A s /\ (mjoin cur = Some k -> vis s Key = old Key)).
  - apply (t_try _ _ _ _ (within A)).
    + eapply t_post; [apply t_read; [apply within_stable|done|done]|]. simpl. intros v s [Hs ->]. by rewrite Hold.
    + intros ? s Hs. split; [done|]. simpl. congruence.
  - intros cur. eapply t_bind with (R := fun _ s => within A s /\ vis s Key = old Key).
    + case_bool_decide as Hcur; [apply t_ret; naive_solver|].
      eapply t_pre; [|by eapply t_key_back]. naive_solver.
    + intros ?. apply t_sync; [by intros s sc [? ?]|naive_solver..].
Qed.

Lemma t_undo_from (A : path -> option bytes -> Prop) :
  A Key (old Key) -> (forall s, within A s -> inv s) ->
  (forall s, within A s -> vis s Key = old Key -> within untouched (synced Keys s)) ->
  (keys = None -> forall s, within A s -> within untouched s) ->
  (forall v, A Replacing v -> v = None \/ v = Some rb) ->
  (forall s, within A s -> vis s Replacing = None -> within untouched s) ->
  triple c (within A) (undo b64_decode from_json) (fun _ => as_before) inv inv.
Proof.
  intros HA Hinv Hsync Hnokey Hrec Hnone. unfold undo.
  eapply t_bind; [apply (t_read_record (within A)); [apply within_stable|done|done|]|].
  { intros s Hs. apply Hrec. by apply within_vis. }
  intros [r|].
  - eapply t_pre with (P' := fun s => within A s /\ r = the_record).
    { intros s [Hs [[? _]|[[= ->] _]]]; [done|by split]. }
    intros s [Hs ->]. revert s Hs.
    change (triple c (within A) (_ ← (match key the_record with
           | None => mret ()
           | Some k =>
               match b64_decode k with
               | None => error
               | Some replaced =>
                   current ← try (read_file Key);
                   _ ← (if bool_decide (mjoin current = Some replaced) then mret ()
                        else write_0600_atomic Key replaced);
                   sync_parent (parent Key)
               end
           end); end_) (fun _ => as_before) inv inv).
    eapply t_bind with (R := fun _ => within untouched).
    + unfold the_record. simpl. destruct (keys_cases keys) as [Hk|(k & k1 & Hk)]; rewrite Hk; simpl.
      * apply t_ret. by apply Hnokey.
      * rewrite b64_ok. by eapply t_undo_key.
    + intros ?. apply t_end; [by left|apply untouched_inv].
  - apply t_ret. intros s [Hs [[_ Hv]|[? _]]]; [|done]. split; [by apply Hnone|done].
Qed.

Lemma t_undo : triple c undoing (undo b64_decode from_json) (fun _ => as_before) inv inv.
Proof.
  apply t_or; apply t_undo_from; try done.
  - apply untouched_inv.
  - intros s Hs ?. by apply within_sync_same.
  - by left.
  - apply recorded_inv.
  - apply sync_key_back.
  - intros Hk s Hs. eapply within_mono; [|exact Hs]. intros p v. unfold recorded, untouched, key_after.
    rewrite Hk. destruct p; naive_solver.
  - intros v ->. by right.
  - intros s Hs Hv. pose proof (within_vis _ _ Replacing Hs) as Hw. simpl in Hw. congruence.
Qed.
(** [A], with [p] left as [l] alone. *)
Definition left_at (p : path) (l : option bytes) (A : path -> option bytes -> Prop) (q : path) (v : option bytes) : Prop :=
  A q v /\ (q = p -> v = l).

Lemma within_left_at p l A s : within (left_at p l A) s -> within A s.
Proof. apply within_mono. by intros q v [? _]. Qed.

Lemma sync_left_at p l A s :
  within A s -> vis s p = l -> within (left_at p l A) (synced (parent p) s).
Proof.
  intros Hs Hv. eapply within_sync; [exact Hs|..].
  - intros q _. split; [by apply within_vis|]. by intros ->.
  - intros q v Hq Hw. split; [done|]. by intros ->.
Qed.

(** A file that is as recorded or gone is gone, for good. *)
Lemma t_removal (I : fs -> Prop) (A : path -> option bytes -> Prop) p o :
  (forall v, A p v -> v = o \/ v = None) -> A p None -> (forall s, within A s -> I s) ->
  triple c (within A) (remove_if_recorded sha256 p (sha256 <$> o)) (fun _ => within (left_at p None A)) I I.
Proof.
  intros HA Hnone Hinv. unfold remove_if_recorded.
  eapply t_bind with (R := fun _ s => within A s /\ vis s p = None).
  2: { intros removed. eapply t_bind with (R := fun _ => within (left_at p None A)); [|intros ?; by apply t_ret].
       apply t_sync; [by intros s sc [? ?]|naive_solver..|]. intros s [Hs Hv]. by apply sync_left_at. }
  destruct o as [b|]; simpl.
  2: { apply t_ret. intros s Hs. split; [done|]. destruct (HA _ (within_vis _ _ p Hs)); done. }
  eapply t_bind with (R := fun d s => within A s /\ d = sha256 <$> vis s p).
  - unfold digest. eapply t_bind; [apply t_read; [apply within_stable|done|done]|].
    intros v. apply t_ret. by intros s [Hs ->].
  - intros d. case_bool_decide as Hd.
    + apply t_remove; [by intros s sc [? ?]|naive_solver..|]. intros s [Hs _] _.
      split; [by apply within_set|]. rewrite vis_set. by rewrite decide_True.
    + apply t_ret. intros s [Hs ->]. split; [done|].
      destruct (HA _ (within_vis _ _ p Hs)) as [Hv|Hv]; [|done]. rewrite Hv in Hd. by destruct Hd.
Qed.

(** A file that was not recorded stays. *)
Lemma t_no_removal (I : fs -> Prop) (A : path -> option bytes -> Prop) p l :
  (forall v, A p v -> v = l) -> (forall s, within A s -> I s) ->
  triple c (within A) (remove_if_recorded sha256 p None) (fun _ => within (left_at p l A)) I I.
Proof.
  intros HA Hinv. unfold remove_if_recorded. eapply t_bind with (R := fun _ => within A); [by apply t_ret|].
  intros removed. eapply t_bind with (R := fun _ => within (left_at p l A)); [|intros ?; by apply t_ret].
  apply t_sync; [apply within_stable|done|done|]. intros s Hs. apply sync_left_at; [done|].
  apply HA. by apply within_vis.
Qed.

(** The removals and the record's, from where none, some or all are done. *)
Lemma t_removals (I : fs -> Prop) (A : path -> option bytes -> Prop) :
  (forall v, A Recovery v -> v = old Recovery \/ v = left_recovery) -> A Recovery left_recovery ->
  (forall p v, p = Journal \/ p = Store -> A p v -> v = old p \/ v = None) ->
  A Journal None -> A Store None -> (forall s, within A s -> I s) -> (forall s, within finished s -> I s) ->
  (forall s, within (left_at Store None (left_at Journal None (left_at Recovery left_recovery A))) s ->
     within finished s) ->
  triple c (within A)
    (_ ← remove_if_recorded sha256 Recovery (recovery the_record);
     _ ← remove_if_recorded sha256 Journal (camera_journal the_record);
     _ ← remove_if_recorded sha256 Store (camera_store the_record);
     end_) (fun _ => replaced) I I.
Proof.
  intros HR HRl HJS HJ HS Hinv HfI Hfin.
  eapply t_bind with (R := fun _ => within (left_at Recovery left_recovery A)); [|intros ?].
  { unfold the_record, left_recovery in *. simpl.
    destruct (keys_cases keys) as [Hk|(k & k1 & Hk)]; rewrite Hk in *.
    - apply t_no_removal; [naive_solver|done].
    - by apply t_removal. }
  eapply t_bind with (R := fun _ => within (left_at Journal None (left_at Recovery left_recovery A))); [|intros ?].
  { apply t_removal; [|done|].
    + intros v [Hv _]. apply (HJS Journal); [by left|done].
    + intros s Hs. by apply within_left_at, Hinv in Hs. }
  eapply t_bind with (R := fun _ => within finished); [|intros ?; apply t_end; [by left|done]].
  eapply t_post; [apply t_removal; [|done|]|auto].
  - intros v [[Hv _] _]. apply (HJS Store); [by right|done].
  - intros s Hs. by apply within_left_at, within_left_at, Hinv in Hs.
Qed.

Lemma going_on_stable : stable going_on.
Proof. intros s sc H. exact H. Qed.

(** Once the enrollment's directory is synced, the removals may begin. *)
Lemma sync_going_on s :
  going_on s -> within finishing (synced Profiles s) \/ within finished (synced Profiles s).
Proof.
  intros [[Hs Hv]|[Hs|Hs]]; [left|left; by apply within_sync_same|right; by apply within_sync_same].
  eapply within_sync; [exact Hs|..].
  - intros [] Hp; try done.
  - intros [] v Hp Hw; simpl in *; try done; auto.
Qed.

Lemma finishing_left s :
  within (left_at Store None (left_at Journal None (left_at Recovery left_recovery finishing))) s -> within finished s.
Proof.
  apply within_mono. intros p v [[[Hf HR] HJ] HS]. destruct p; simpl in *; auto.
Qed.

Lemma going_on_record s : going_on s -> vis s Replacing = None \/ vis s Replacing = Some rb.
Proof.
  intros [[Hs _]|[Hs|Hs]]; pose proof (within_vis _ _ Replacing Hs) as H; simpl in H; auto.
Qed.

Lemma going_on_done s : going_on s -> vis s Replacing = None -> replaced s.
Proof.
  intros [[Hs _]|[Hs|Hs]] Hv; [..|by split]; pose proof (within_vis _ _ Replacing Hs) as H; simpl in H; congruence.
Qed.

Lemma t_finish : triple c going_on (finish sha256 from_json) (fun _ => replaced) inv inv.
Proof.
  unfold finish. eapply t_bind.
  { apply (t_read_record going_on); [apply going_on_stable|apply going_on_inv..|apply going_on_record]. }
  intros [r|].
  - intros s [Hs [[? _]|[[= ->] _]]]; [done|]. revert s Hs. apply (t_bind (c:=c)) with (R := fun _ s => within finishing s \/ within finished s).
    + apply t_sync; [apply going_on_stable|apply going_on_inv..|apply sync_going_on].
    + intros ?. apply t_or; apply t_removals; simpl; auto; try (intros p v [-> | ->]; simpl; auto).
      * apply finishing_inv.
      * apply finished_inv.
      * apply finishing_left.
      * apply finished_inv.
      * apply finished_inv.
      * intros s Hs. by do 3 apply within_left_at in Hs.
  - apply t_ret. intros s [Hs [[_ Hv]|[? _]]]; [|done]. by apply going_on_done.
Qed.

(** ** Settling *)

(** What the digests tell. *)
Lemma digest_undoing s : undoing s -> sha256 <$> vis s Enrollment = enrollment the_record.
Proof. by intros [Hs|Hs]; rewrite (within_vis _ _ Enrollment Hs). Qed.

Lemma digest_going_on s : going_on s -> sha256 <$> vis s Enrollment <> enrollment the_record.
Proof.
  intros [[_ ->]|[Hs|Hs]]; [done|..]; rewrite (within_vis _ _ Enrollment Hs); done.
Qed.

Lemma undoing_record s : undoing s -> vis s Replacing = None \/ vis s Replacing = Some rb.
Proof. intros [Hs|Hs]; pose proof (within_vis _ _ Replacing Hs) as H; simpl in H; auto. Qed.

Lemma undoing_done s : undoing s -> vis s Replacing = None -> as_before s.
Proof.
  intros [Hs|Hs] Hv; [by split|]. pose proof (within_vis _ _ Replacing Hs) as H. simpl in H. congruence.
Qed.

Lemma inv_record s : inv s -> vis s Replacing = None \/ vis s Replacing = Some rb.
Proof. intros [H|H]; [by apply undoing_record|by apply going_on_record]. Qed.

Definition settled (loading : bool) (s : fs) : Prop :=
  (as_before s \/ replaced s) \/ (loading = true /\ ~ c /\ inv s).

Lemma t_settle loading :
  triple c inv (settle_interrupted sha256 b64_decode from_json loading) (fun _ => settled loading) inv inv.
Proof.
  unfold settle_interrupted. eapply t_bind.
  { apply (t_read_record inv); [apply inv_stable|done|done|apply inv_record]. }
  intros [r|].
  - intros s [Hs [[? _]|[[= ->] _]]]; [done|]. revert s Hs.
    apply (t_bind (c:=c)) with (R := fun d s => inv s /\ d = sha256 <$> vis s Enrollment).
    { unfold digest. eapply t_bind; [apply t_read; [apply inv_stable|done|done]|].
      intros v. apply t_ret. by intros s [Hs ->]. }
    intros d. case_bool_decide as Hd.
    + apply t_pre with (P' := undoing).
      { intros s [[Hs|Hs] ->]; [done|]. by destruct (digest_going_on s Hs). }
      eapply t_post; [apply t_undo|]. intros ? s Hs. by left; left.
    + apply t_pre with (P' := going_on).
      { intros s [[Hs|Hs] ->]; [|done]. by destruct Hd; apply digest_undoing. }
      destruct loading.
      * eapply t_bind with (R := fun _ => settled true); [|intros ?; by apply t_ret].
        apply (t_try _ _ _ _ inv).
        -- eapply t_post; [apply t_finish|]. intros ? s Hs. by left; right.
        -- intros Hc s Hs. by right.
      * eapply t_post; [apply t_finish|]. intros ? s Hs. by left; right.
  - apply t_ret. intros s [[Hs|Hs] [[_ Hv]|[? _]]]; try done; left.
    + left. by apply undoing_done.
    + right. by apply going_on_done.
Qed.
(** What is finished stays finished, whatever fails. *)
Lemma t_settle_finished loading :
  triple c (within finished) (settle_interrupted sha256 b64_decode from_json loading)
    (fun _ => within finished) (within finished) (within finished).
Proof.
  unfold settle_interrupted. eapply t_bind.
  { apply (t_read_record (within finished)); [apply within_stable|done|done|].
    intros s Hs. pose proof (within_vis _ _ Replacing Hs) as H. simpl in H. tauto. }
  intros [r|]; [|apply t_ret; naive_solver].
  intros s [Hs [[? _]|[[= ->] _]]]; [done|]. revert s Hs.
  apply (t_bind (c:=c)) with (R := fun d s => within finished s /\ d <> enrollment the_record).
  { unfold digest. eapply t_bind; [apply t_read; [apply within_stable|done|done]|].
    intros v. apply t_ret. intros s [Hs ->]. split; [done|]. apply digest_going_on. by right; right. }
  intros d s [Hs Hd]. rewrite bool_decide_eq_false_2 by done. revert s Hs.
  assert (Hf : triple c (within finished) (finish sha256 from_json) (fun _ => within finished) (within finished) (within finished)).
  { unfold finish. eapply t_bind.
    { apply (t_read_record (within finished)); [apply within_stable|done|done|].
      intros s Hs. pose proof (within_vis _ _ Replacing Hs) as H. simpl in H. tauto. }
    intros [r|]; [|apply t_ret; naive_solver].
    intros s [Hs [[? _]|[[= ->] _]]]; [done|]. revert s Hs.
    apply (t_bind (c:=c)) with (R := fun _ => within finished).
    { apply t_sync; [apply within_stable|done|done|]. intros s Hs. by apply within_sync_same. }
    intros ?. eapply t_post; [apply (t_removals (within finished)); simpl; auto|by intros ? s [? _]].
    - by intros p v [-> | ->]; simpl; auto.
    - intros s Hs. by do 3 apply within_left_at in Hs. }
  destruct loading; [|done].
  apply (t_bind (c:=c)) with (R := fun _ => within finished); [|intros ?; by apply t_ret].
  by apply (t_try _ _ _ _ (within finished)).
Qed.

(** ** The write *)

(** Before the write: nothing pending, no record. *)
Definition clean (p : path) (v : option bytes) : Prop := match p with Replacing => v = None | _ => v = old p end.
(** The record is durable and nothing is changed. *)
Definition marked (p : path) (v : option bytes) : Prop := match p with Replacing => v = Some rb | _ => v = old p end.
(** The new key is durable too. *)
Definition moved (p : path) (v : option bytes) : Prop :=
  match p with Replacing => v = Some rb | Key => v = key_after | _ => v = old p end.

Lemma clean_untouched s : within clean s -> within untouched s.
Proof. apply within_mono. intros [] v; simpl; auto. Qed.
Lemma clean_inv s : within clean s -> inv s.
Proof. intros H. by apply untouched_inv, clean_untouched. Qed.
Lemma marked_recorded s : within marked s -> within recorded s.
Proof. apply within_mono. intros [] v; simpl; auto. Qed.
Lemma moved_recorded s : within moved s -> within recorded s.
Proof. apply within_mono. intros [] v; simpl; auto. Qed.
Lemma marked_untouched s : within marked s -> within untouched s.
Proof. apply within_mono. intros [] v; simpl; auto. Qed.
Lemma marked_inv s : within marked s -> inv s.
Proof. intros H. by apply recorded_inv, marked_recorded. Qed.
Lemma moved_inv s : within moved s -> inv s.
Proof. intros H. by apply recorded_inv, moved_recorded. Qed.

Lemma t_settle_clean loading :
  triple c (within clean) (settle_interrupted sha256 b64_decode from_json loading) (fun _ => within clean) inv inv.
Proof.
  unfold settle_interrupted. eapply t_bind.
  { apply (t_read_record (within clean)); [apply within_stable|apply clean_inv..|].
    intros s Hs. left. apply (within_vis _ _ Replacing Hs). }
  intros [r|]; [|apply t_ret; naive_solver].
  intros s [Hs [[? _]|[_ Hv]]]; [done|]. rewrite (within_vis _ _ Replacing Hs) in Hv. done.
Qed.

Lemma t_digest p : 
  triple c (within clean) (digest sha256 p) (fun d s => within clean s /\ d = sha256 <$> vis s p) inv inv.
Proof.
  unfold digest. eapply t_bind; [apply t_read; [apply within_stable|apply clean_inv..]|].
  intros v. apply t_ret. by intros s [Hs ->].
Qed.

Lemma t_digest_clean {B} p (f : option bytes -> M B) Q :
  p <> Replacing -> triple c (within clean) (f (sha256 <$> old p)) Q inv inv ->
  triple c (within clean) (mbind f (digest sha256 p)) Q inv inv.
Proof.
  intros Hp Hf. eapply t_bind; [apply t_digest|]. intros d s [Hs ->].
  replace (vis s p) with (old p); [by apply Hf|].
  pose proof (within_vis _ _ p Hs) as Hw. by destruct p.
Qed.

(** A record that could not be made durable is taken away again. *)
Lemma t_refuse (P : fs -> Prop) :
  (forall s, P s -> within untouched s) -> (forall s, P s -> ~ c) -> stable P ->
  triple c P (_ ← try (remove_file Replacing); error) (fun _ : () => within marked) inv inv.
Proof.
  intros HP Hc Hst. eapply t_bind with (R := fun _ s => within untouched s /\ ~ c).
  - apply (t_try _ _ _ _ P); [|naive_solver].
    apply t_remove; [done|intros s Hs; first [exact Hs|by apply untouched_inv, HP]..| |].
    + intros s Hs _. naive_solver.
    + intros s Hs _. split; [|by eapply Hc]. apply within_set; [by left|by apply HP].
  - intros ?. apply t_error. intros s [Hs ?]. split; [by apply untouched_inv|done].
Qed.

Lemma t_begin :
  triple c (within clean) (begin sha256 b64_encode to_json (fst <$> keys)) (fun _ => within marked) inv inv.
Proof.
  unfold begin. apply t_digest_clean; [done|].
  eapply t_bind with (R := fun r s => within clean s /\
    r = match keys with Some _ => sha256 <$> old Recovery | None => None end).
  { destruct (keys_cases keys) as [Hk|(k & k1 & Hk)]; rewrite Hk; simpl; [by apply t_ret|].
    eapply t_post; [apply t_digest|]. simpl. intros d s [Hs ->]. split; [done|].
    by rewrite (within_vis _ _ Recovery Hs). }
  intros r s [Hs ->]. revert s Hs.
  apply (t_digest_clean (B:=())); [done|]. apply t_digest_clean; [done|].
  change (to_json _) with rb.
  eapply t_bind.
  { apply (t_write_atomic _ _ _ (fun s => within untouched s /\ vis s Replacing = Some rb) (within marked)).
    - apply within_stable.
    - by intros s sc [? ?].
    - apply clean_inv.
    - apply clean_inv.
    - intros s [Hs _]. by apply untouched_inv.
    - intros s Hs. split; [|done]. apply within_set; [by right|by apply clean_untouched].
    - intros s [Hs Hv]. eapply within_sync; [exact Hs|..].
      + intros p Hp. pose proof (within_vis _ _ p Hs) as Hw. by destruct p.
      + intros p v Hp Hw. by destruct p. }
  intros [|].
  - eapply t_bind with (R := fun ok s => within marked s /\ (ok = None -> ~ c)).
    + apply (t_try _ _ _ _ (within marked)); [|naive_solver].
      eapply t_post; [apply t_sys; [apply within_stable|done|apply marked_inv]|]. naive_solver.
    + intros [u|]; [apply t_ret; naive_solver|]. apply t_refuse.
      * intros s [Hs _]. by apply marked_untouched.
      * naive_solver.
      * by intros s sc [? ?].
  - apply t_refuse; [naive_solver..|]. intros s sc [[? ?] ?]. done.
Qed.

Lemma t_put_back k k1 :
  keys = Some (k, k1) ->
  triple c (within recorded) (put_back b64_decode from_json k) (fun _ => as_before) inv inv.
Proof.
  intros Hk. unfold put_back. eapply t_bind; [eapply t_key_back; [exact Hk|by left|apply recorded_inv]|].
  intros ?. eapply t_pre; [|apply t_undo]. intros s [Hs _]. by right.
Qed.
(** An operation that puts the replaced key back and refuses. *)
Lemma t_put_back_refuse {A} k k1 :
  keys = Some (k, k1) -> ~ c ->
  triple c (within recorded) (_ ← put_back b64_decode from_json k; error) (fun (_ : A) _ => False) inv inv.
Proof.
  intros Hk Hc. eapply t_bind; [by eapply t_put_back|]. intros ?. apply t_error.
  intros s [Hs _]. split; [by apply untouched_inv|done].
Qed.

Lemma t_set_aside k k1 :
  keys = Some (k, k1) ->
  triple c (within clean) (set_aside sha256 b64_encode to_json)
    (fun envelope s => envelope = k /\ within marked s) inv inv.
Proof.
  intros Hk. unfold set_aside.
  eapply t_bind; [apply t_read; [apply within_stable|apply clean_inv..]|].
  intros v s [Hs ->]. rewrite (within_vis _ _ Key Hs), (old_key _ _ Hk). revert s Hs.
  apply (t_bind (c:=c)) with (R := fun _ => within marked); [|intros ?; by apply t_ret].
  pose proof t_begin as Hb. by rewrite Hk in Hb.
Qed.

(** The new key's file, sealed and read back. *)
Lemma t_new_key k k1 sealed (round_trip : bool) :
  keys = Some (k, k1) -> sealed = None \/ sealed = Some k1 -> (c -> sealed = Some k1 /\ round_trip = true) ->
  triple c (within marked)
    (match sealed with
     | None => error
     | Some b => _ ← write_0600_atomic Key b; if round_trip then mret () else error
     end) (fun _ => within moved) (within recorded) inv.
Proof.
  intros Hk Hs Hc. destruct sealed as [b|].
  2: { apply t_error. intros s Hm. split; [by apply marked_recorded|]. intros Hcc. by destruct (Hc Hcc). }
  assert (b = k1) as -> by (destruct Hs; congruence).
  assert (Hnew : key_after = Some k1) by (unfold key_after; by rewrite Hk).
  eapply t_bind with (R := fun _ => within moved).
  - apply (t_write_0600 _ _ _ (fun s => within recorded s /\ vis s Key = Some k1)).
    + apply within_stable.
    + by intros s sc [? ?].
    + apply marked_recorded.
    + by intros s [? _].
    + apply marked_inv.
    + intros s [? _]. by apply recorded_inv.
    + intros s Hm. split; [|done]. apply within_set; [by right; rewrite Hnew|by apply marked_recorded].
    + intros s [Hm Hv]. eapply within_sync; [exact Hm|..].
      * intros p Hp. pose proof (within_vis _ _ p Hm) as Hw. destruct p; simpl in *; try done; congruence.
      * intros p v Hp Hw. by destruct p.
  - intros ?. destruct round_trip; [by apply t_ret|]. apply t_error. intros s Hm.
    split; [by apply moved_recorded|]. intros Hcc. by destruct (Hc Hcc).
Qed.

Lemma t_replace_key k k1 uid_known sealed round_trip :
  keys = Some (k, k1) -> sealed = None \/ sealed = Some k1 ->
  (c -> uid_known = true /\ sealed = Some k1 /\ round_trip = true) ->
  triple c (within clean)
    (replace_key sha256 b64_encode b64_decode to_json from_json uid_known sealed round_trip)
    (fun envelope s => envelope = k /\ within moved s) inv inv.
Proof.
  intros Hk Hs Hc. unfold replace_key. eapply t_bind; [by eapply t_set_aside|].
  intros envelope s [-> Hm]. revert s Hm.
  assert (Hrefuse : ~ c -> forall P : fs -> Prop, (forall s, P s -> within recorded s) ->
    triple c P (_ ← put_back b64_decode from_json k; error)
      (fun (envelope : bytes) s => envelope = k /\ within moved s) inv inv).
  { intros Hn P HP. eapply t_conseq; [by eapply t_put_back_refuse|done|naive_solver|done|done]. }
  destruct uid_known; simpl.
  2: { apply Hrefuse; [|apply marked_recorded]. intros Hcc. by destruct (Hc Hcc). }
  apply (t_bind (c:=c)) with (R := fun ok s => match ok with Some _ => within moved s | None => within recorded s /\ ~ c end).
  - apply (t_try _ _ _ _ (within recorded)); [|naive_solver]. eapply t_new_key; naive_solver.
  - intros [u|]; [by apply t_ret|]. intros s [Hr Hn]. by apply (Hrefuse Hn (within recorded)).
Qed.

(** The inputs of the write that the situations are about. *)
Definition saves (new_key : option (bool * option bytes * bool)) (serialized : option bytes) : Prop :=
  match new_key with
  | Some (_, sealed, _) => exists k k1, keys = Some (k, k1) /\ (sealed = None \/ sealed = Some k1)
  | None => keys = None
  end /\ (serialized = None \/ serialized = Some e1).
(** ... when nothing refuses them. *)
Definition works (new_key : option (bool * option bytes * bool)) (serialized : option bytes) : Prop :=
  match new_key with
  | Some (uid_known, sealed, round_trip) => uid_known = true /\ sealed <> None /\ round_trip = true
  | None => True
  end /\ serialized <> None.

Lemma t_publish serialized :
  (serialized = None \/ serialized = Some e1) -> (c -> serialized <> None) ->
  triple c (within moved)
    (match serialized with Some b => try (write_atomic_reporting Enrollment b) | None => mret None end)
    (fun published s => match published with
       | Some Durable => going_on s
       | Some VisibleNotDurable => going_on s /\ ~ c
       | None => within moved s /\ ~ c
       end) inv inv.
Proof.
  intros Hs Hc. destruct serialized as [b|]; [|apply t_ret; naive_solver].
  assert (b = e1) as -> by (destruct Hs; congruence).
  apply (t_try _ _ _ _ (within moved)); [|naive_solver].
  apply (t_write_atomic _ _ _ going_on).
  - apply within_stable.
  - apply going_on_stable.
  - done.
  - apply moved_inv.
  - apply going_on_inv.
  - intros s Hm. left. split; [|done]. apply within_set; [by right|].
    eapply within_mono; [|exact Hm]. intros [] v; simpl; auto.
  - intros s Hg. right. by apply sync_going_on.
Qed.

Lemma t_save new_key serialized :
  saves new_key serialized -> (c -> works new_key serialized) ->
  triple c (within clean)
    (replacing_save sha256 b64_encode b64_decode to_json from_json new_key serialized)
    (fun _ => replaced) inv inv.
Proof.
  intros [Hk He] Hc. unfold replacing_save.
  eapply t_bind; [apply t_settle_clean|]. intros ?.
  eapply t_bind with (R := fun envelope s => envelope = fst <$> keys /\ within moved s).
  { destruct new_key as [[[uid_known sealed] round_trip]|].
    - destruct Hk as (k & k1 & Hk & Hs). eapply t_bind.
      + eapply t_replace_key; [done|done|]. intros Hcc. destruct (Hc Hcc) as [[-> [Hn ->]] _].
        destruct Hs; [done|naive_solver].
      + intros envelope. apply t_ret. intros s [-> Hm]. by rewrite Hk.
    - pose proof t_begin as Hb. rewrite Hk in *. eapply t_bind; [apply Hb|]. intros ?. apply t_ret.
      intros s Hm. split; [done|]. eapply within_mono; [|exact Hm].
      intros p v. unfold moved, key_after. rewrite Hk. by destruct p. }
  intros envelope s [-> Hm]. revert s Hm.
  apply (t_bind (c:=c)) with (R := fun published s => match published with
       | Some Durable => going_on s
       | Some VisibleNotDurable => going_on s /\ ~ c
       | None => within moved s /\ ~ c
       end).
  { apply t_publish; [done|]. intros Hcc. by destruct (Hc Hcc). }
  intros [[|]|].
  - eapply t_bind; [apply t_finish|]. intros ?. by apply t_ret.
  - eapply t_bind with (R := fun _ s => inv s /\ ~ c); [apply t_ret|intros ?; by apply t_error].
    intros s [Hg ?]. split; [by apply going_on_inv|done].
  - intros s [Hm Hn]. revert s Hm. apply (t_bind (c:=c)) with (R := fun _ => as_before).
    + apply t_pre with (P' := within recorded); [apply moved_recorded|].
      destruct (keys_cases keys) as [Hk'|(k & k1 & Hk')]; rewrite Hk'; simpl; [|by eapply t_put_back].
      eapply t_pre; [|apply t_undo]. by right.
    + intros ?. apply t_error. intros s [Hs _]. split; [by apply untouched_inv|done].
Qed.
End Situations.
