(* ===== verification/ReplacementClaims.v ===== *)
(** * What a replacement promises

    The theorems on [replacement.rs] over every way a replacing write can be
    cut short: [run] is every state of the account's files from the write on,
    through any failures, power losses and attempts to settle. *)

From stdpp Require Import countable.
From S2P Require Import Prelude Text Replacement ReplacementTheory.

Section Claims.
Context (sha256 : bytes -> bytes) (b64_encode : bytes -> string) (b64_decode : string -> option bytes).
Context (to_json : Record_ -> bytes) (from_json : bytes -> option Record_).

(** What may follow: faults still to come, power losses, and the settling
    that each acquisition of the state lock does. *)
Inductive later : fs -> fs -> Prop :=
  | later_refl s : later s s
  | later_faults s s' sc : later s s' -> later s (MkFs (vis s') (maybe s') sc)
  | later_loss s s' s'' : later s s' -> power_loss s' s'' -> later s s''
  | later_settle s s' loading : later s s' ->
      later s (snd (settle_interrupted sha256 b64_decode from_json loading s')).

(** The files' state from a replacing write on, started from the files [old]
    with nothing pending. *)
Definition run (old : path -> option bytes) (new_key : option (bool * option bytes * bool))
    (serialized : option bytes) (s' : fs) : Prop :=
  exists s, within (clean old) s /\
    later (snd (replacing_save sha256 b64_encode b64_decode to_json from_json new_key serialized s)) s'.

(** The files after the replacement: the new enrollment and key, and nothing
    of the account they replace. *)
Definition replaced_files (old : path -> option bytes) (keys : option (bytes * bytes)) (e1 : bytes)
    (p : path) : option bytes :=
  match p with
  | Enrollment => Some e1
  | Key => key_after old keys
  | Recovery => left_recovery old keys
  | Store | Journal | Replacing => None
  | StoreStaging | JournalStaging => old p
  end.

(** Every file but the record is as [files] says, now and after a power loss. *)
Definition holds (files : path -> option bytes) (s : fs) : Prop :=
  forall p v, p <> Replacing -> v ∈ poss s p -> v = files p.

Section OneWrite.
Context (json_ok : forall r, from_json (to_json r) = Some r).
Context (b64_ok : forall b, b64_decode (b64_encode b) = Some b).
Context (old : path -> option bytes) (e1 : bytes) (keys : option (bytes * bytes)).
Context (old_key : forall k k1, keys = Some (k, k1) -> old Key = Some k).
Context (new_file : Some (sha256 e1) <> sha256 <$> old Enrollment).

Local Abbreviation inv := (inv sha256 b64_encode to_json old e1 keys).

Lemma as_before_holds s : as_before sha256 b64_encode to_json old keys s -> holds old s /\ vis s Replacing = None.
Proof.
  intros [Hs Hv]. split; [|done]. intros p v Hp Hi. apply Hs in Hi. by destruct p.
Qed.

Lemma replaced_holds s :
  replaced sha256 b64_encode to_json old e1 keys s -> holds (replaced_files old keys e1) s /\ vis s Replacing = None.
Proof.
  intros [Hs Hv]. split; [|done]. intros p v Hp Hi. apply Hs in Hi. by destruct p.
Qed.

Lemma later_inv s s' : later s s' -> inv s -> inv s'.
Proof.
  induction 1 as [|s s' sc _ IH|s s' s'' _ IH Hl|s s' loading _ IH]; intros Hi; [done|by apply IH| |].
  - eapply inv_loss; [by apply IH|done].
  - pose proof (t_settle sha256 b64_encode b64_decode to_json from_json json_ok b64_ok old e1 keys old_key new_file
      (c := False) loading) as T.
    specialize (T s' (IH Hi) ltac:(done)).
    destruct (settle_interrupted _ _ _ _ s') as [[[]| |] s2]; simpl in *; [|naive_solver..].
    destruct T as [[[[T _]|[T _]]|(_ & _ & T)] _]; [by apply untouched_inv|by apply finished_inv|done].
Qed.

Lemma later_finished s s' :
  later s s' -> within (finished sha256 b64_encode to_json old e1 keys) s ->
  within (finished sha256 b64_encode to_json old e1 keys) s'.
Proof.
  induction 1 as [|s s' sc _ IH|s s' s'' _ IH Hl|s s' loading _ IH]; intros Hi; [done|by apply IH| |].
  - eapply within_loss; [by apply IH|done].
  - pose proof (t_settle_finished sha256 b64_encode b64_decode to_json from_json json_ok old e1 keys old_key new_file
      (c := False) loading) as T.
    specialize (T s' (IH Hi) ltac:(done)).
    destruct (settle_interrupted _ _ _ _ s') as [[[]| |] s2]; simpl in *; naive_solver.
Qed.

(** Whatever happens, the situation is one of those a replacement goes
    through. *)
Lemma run_inv new_key serialized s :
  saves e1 keys new_key serialized -> run old new_key serialized s -> inv s.
Proof.
  intros Hsv (s0 & Hs & Hl). eapply later_inv; [exact Hl|].
  pose proof (t_save sha256 b64_encode b64_decode to_json from_json json_ok b64_ok old e1 keys old_key new_file
    (c := False) new_key serialized Hsv) as T.
  specialize (T ltac:(done) s0 Hs ltac:(done)).
  destruct (replacing_save _ _ _ _ _ _ _ s0) as [[[]| |] s']; simpl in *; [|naive_solver..].
  destruct T as [[T _] _]. by apply finished_inv.
Qed.
(** C20. A write that replaces another account's enrollment is all or
    nothing: whatever failed in it, wherever it stopped, whatever power losses
    and failed attempts to settle followed, once [settle_interrupted] returns
    the record is gone and every file of the account is either as it was
    before the write or as the finished replacement leaves it (new enrollment
    and key, nothing left of the replaced account), also after another power
    loss. *)
Theorem replacement_all_or_nothing new_key serialized s s' :
  saves e1 keys new_key serialized -> run old new_key serialized s ->
  settle_interrupted sha256 b64_decode from_json false s = (Done (), s') ->
  (holds old s' \/ holds (replaced_files old keys e1) s') /\ vis s' Replacing = None.
Proof.
  intros Hsv Hr Hd.
  pose proof (t_settle sha256 b64_encode b64_decode to_json from_json json_ok b64_ok old e1 keys old_key new_file
    (c := False) false s (run_inv _ _ _ Hsv Hr) ltac:(done)) as T.
  rewrite Hd in T. destruct T as [[[T|T]|[? _]] _]; [..|done].
  - apply as_before_holds in T. tauto.
  - apply replaced_holds in T. tauto.
Qed.

(** A replacement that was reported as done stays done: no later power
    loss, fault or settling brings back anything of the replaced account or
    takes anything of the new one. *)
Theorem reported_replacement_lasts new_key serialized s s1 s2 :
  saves e1 keys new_key serialized -> within (clean old) s ->
  replacing_save sha256 b64_encode b64_decode to_json from_json new_key serialized s = (Done (), s1) ->
  later s1 s2 -> holds (replaced_files old keys e1) s2.
Proof.
  intros Hsv Hs Hd Hl.
  pose proof (t_save sha256 b64_encode b64_decode to_json from_json json_ok b64_ok old e1 keys old_key new_file
    (c := False) new_key serialized Hsv ltac:(done) s Hs ltac:(done)) as T.
  rewrite Hd in T. destruct T as [[T _] _]. apply (later_finished _ _ Hl) in T.
  intros p v Hp Hi. apply T in Hi. by destruct p.
Qed.

(** With no further fault both the write and the settling return: a
    write whose inputs are good replaces the account's files, and an
    interrupted one is settled at the next acquisition of the lock, for a
    load as for a write. *)
Theorem replacement_completes new_key serialized s :
  saves e1 keys new_key serialized -> script s = [] ->
  (within (clean old) s -> works new_key serialized ->
   exists s', replacing_save sha256 b64_encode b64_decode to_json from_json new_key serialized s = (Done (), s') /\
     holds (replaced_files old keys e1) s') /\
  (run old new_key serialized s -> forall loading,
   exists s', settle_interrupted sha256 b64_decode from_json loading s = (Done (), s') /\
     (holds old s' \/ holds (replaced_files old keys e1) s')).
Proof.
  intros Hsv Hc. split.
  - intros Hs Hw.
    pose proof (t_save sha256 b64_encode b64_decode to_json from_json json_ok b64_ok old e1 keys old_key new_file
      (c := True) new_key serialized Hsv (fun _ => Hw) s Hs (fun _ => Hc)) as T.
    destruct (replacing_save _ _ _ _ _ _ _ s) as [[[]| |] s']; [|by destruct T as [_ []]..].
    exists s'. split; [done|]. apply replaced_holds, T.
  - intros Hr loading.
    pose proof (t_settle sha256 b64_encode b64_decode to_json from_json json_ok b64_ok old e1 keys old_key new_file
      (c := True) loading s (run_inv _ _ _ Hsv Hr) (fun _ => Hc)) as T.
    destruct (settle_interrupted _ _ _ _ s) as [[[]| |] s']; [|by destruct T as [_ []]..].
    exists s'. split; [done|]. destruct T as [[[T|T]|(_ & Hn & _)] _]; [..|by destruct Hn].
    + left. by apply as_before_holds.
    + right. by apply replaced_holds.
Qed.
End OneWrite.

(** ** Settling in any state *)

(** What settling may do to each file, given the record [r]. *)
Definition allowed (r : option Record_) (s0 : fs) (p : path) (v : option bytes) : Prop :=
  v = vis s0 p \/
  match p, r with
  | Recovery, Some r => v = None /\ sha256 <$> vis s0 p = recovery r /\ recovery r <> None
  | Journal, Some r => v = None /\ sha256 <$> vis s0 p = camera_journal r /\ camera_journal r <> None
  | Store, Some r => v = None /\ sha256 <$> vis s0 p = camera_store r /\ camera_store r <> None
  | Key, Some r => exists k, key r = Some k /\ v = b64_decode k
  | Replacing, Some _ => v = None
  | _, _ => False
  end.

(** The record as [read] takes it. *)
Definition readable (s : fs) : option Record_ :=
  r ← vis s Replacing ≫= from_json; if bool_decide (version r = VERSION) then Some r else None.

Section AnyState.
Context (s0 : fs) (r0 : Record_) (readable0 : readable s0 = Some r0).

Definition within_bounds (s : fs) : Prop := forall p, allowed (Some r0) s0 p (vis s p).
Definition record_kept (s : fs) : Prop := within_bounds s /\ vis s Replacing = vis s0 Replacing.

Lemma bounds_set p v s : allowed (Some r0) s0 p v -> within_bounds s -> within_bounds (set_file p v s).
Proof.
  intros Hv Hs q. rewrite vis_set. destruct (decide (q = p)) as [->|]; [done|apply Hs].
Qed.

Lemma kept_set p v s : p <> Replacing -> allowed (Some r0) s0 p v -> record_kept s -> record_kept (set_file p v s).
Proof.
  intros Hp Hv [Hs Hr]. split; [by apply bounds_set|]. by rewrite vis_set, decide_False.
Qed.

Lemma kept_stable : stable record_kept.
Proof. intros s sc H. exact H. Qed.

Local Abbreviation quiet m := (triple False record_kept m (fun _ => record_kept) within_bounds within_bounds).

Lemma t_kept_read {B} (f : option Record_ -> M B) Q :
  triple False record_kept (f (Some r0)) Q within_bounds within_bounds ->
  triple False record_kept (mbind f (read_record from_json)) Q within_bounds within_bounds.
Proof.
  intros Hf. eapply t_bind with (R := fun r s => record_kept s /\ r = Some r0).
  - unfold read_record. eapply t_bind; [apply t_read; [apply kept_stable|by intros s [? _]..]|].
    intros v. apply t_pre with (P' := fun s => record_kept s /\ v = vis s0 Replacing).
    { intros s [Hs ->]. split; [done|]. apply Hs. }
    intros s [Hs ->] _. revert readable0. unfold readable.
    destruct (vis s0 Replacing) as [b|]; [simpl|done]. destruct (from_json b) as [r|]; [simpl|done].
    case_bool_decide; [|done]. intros [= ->]. done.
  - intros r s [Hs ->]. by apply Hf.
Qed.

Lemma t_kept_sync d : quiet (sync_parent d).
Proof. apply t_sync; [apply kept_stable|by intros s [? _]..|]. by intros s [? ?]. Qed.

Lemma t_kept_removal p recorded :
  p <> Replacing ->
  (forall s, record_kept s -> sha256 <$> vis s p = recorded -> recorded <> None -> allowed (Some r0) s0 p None) ->
  quiet (remove_if_recorded sha256 p recorded).
Proof.
  intros Hp Hrec. unfold remove_if_recorded.
  eapply t_bind with (R := fun _ => record_kept).
  - destruct recorded as [d0|]; [|by apply t_ret].
    eapply t_bind with (R := fun d s => record_kept s /\ d = sha256 <$> vis s p).
    { unfold digest. eapply t_bind; [apply t_read; [apply kept_stable|by intros s [? _]..]|].
      intros v. apply t_ret. by intros s [Hs ->]. }
    intros d. case_bool_decide as Hd; [|apply t_ret; by intros s [? _]].
    apply t_remove; [by intros s sc [? ?]|by intros s [[? _] _]..|by intros s [? _]|].
    intros s [Hs ->] _. apply kept_set; [done| |done]. by apply (Hrec s).
  - intros ?. eapply t_bind; [apply t_kept_sync|]. intros ?. by apply t_ret.
Qed.

Lemma t_kept_end : triple False record_kept end_ (fun _ => within_bounds) within_bounds within_bounds.
Proof.
  unfold end_. eapply t_bind with (R := fun _ => within_bounds).
  - apply t_remove; [apply kept_stable|by intros s [? _]..|].
    intros s [Hs _] _. apply bounds_set; [by right|done].
  - intros [|]; [|by apply t_ret]. apply t_sync; [by intros s sc H|done|done|by intros s H].
Qed.

Local Ltac removal_ok p :=
  intros s [Hs _] Hd Hn; destruct (Hs p) as [Hv|?]; right; [rewrite Hv in Hd; auto|naive_solver].

Lemma t_kept_finish :
  triple False record_kept (finish sha256 from_json) (fun _ => within_bounds) within_bounds within_bounds.
Proof.
  unfold finish. apply t_kept_read.
  eapply t_bind; [apply t_kept_sync|]. intros ?.
  eapply t_bind; [apply t_kept_removal; [done|]; removal_ok Recovery|intros ?].
  eapply t_bind; [apply t_kept_removal; [done|]; removal_ok Journal|intros ?].
  eapply t_bind; [apply t_kept_removal; [done|]; removal_ok Store|intros ?].
  apply t_kept_end.
Qed.

Lemma t_kept_undo :
  triple False record_kept (undo b64_decode from_json) (fun _ => within_bounds) within_bounds within_bounds.
Proof.
  unfold undo. apply t_kept_read. eapply t_bind with (R := fun _ => record_kept); [|intros ?; apply t_kept_end].
  destruct (key r0) as [k|] eqn:Hk; [|by apply t_ret].
  destruct (b64_decode k) as [b|] eqn:Hb; [|apply t_error; intros s [? _]; split; [done|tauto]].
  eapply t_bind with (R := fun _ => record_kept).
  { apply (t_try _ _ _ _ record_kept); [|done].
    eapply t_post; [apply t_read; [apply kept_stable|done|by intros s [? _]]|by intros ? s [? _]]. }
  intros current. eapply t_bind with (R := fun _ => record_kept); [|intros ?; apply t_kept_sync].
  case_bool_decide; [by apply t_ret|].
  eapply (t_write_0600 _ _ _ record_kept); [apply kept_stable|apply kept_stable|by intros s [? _]..| |].
  - intros s Hs. apply kept_set; [done| |done]. right. exists k. by rewrite Hb.
  - by intros s [? ?].
Qed.

Lemma t_kept_settle loading :
  triple False record_kept (settle_interrupted sha256 b64_decode from_json loading)
    (fun _ => within_bounds) within_bounds within_bounds.
Proof.
  unfold settle_interrupted. apply t_kept_read.
  eapply t_bind with (R := fun _ => record_kept).
  { unfold digest. eapply t_bind; [apply t_read; [apply kept_stable|by intros s [? _]..]|].
    intros v. apply t_ret. by intros s [Hs _]. }
  intros d. case_bool_decide; [apply t_kept_undo|]. destruct loading; [|apply t_kept_finish].
  eapply t_bind with (R := fun _ => within_bounds); [|intros ?; by apply t_ret].
  by apply (t_try _ _ _ _ within_bounds); [apply t_kept_finish|].
Qed.
End AnyState.

(** Without a readable record nothing changes. *)
Lemma settle_unreadable loading s o s' :
  readable s = None -> settle_interrupted sha256 b64_decode from_json loading s = (o, s') -> vis s' = vis s.
Proof.
  intros Hr Hd.
  assert (T : triple False (fun t => vis t = vis s) (settle_interrupted sha256 b64_decode from_json loading)
    (fun _ t => vis t = vis s) (fun t => vis t = vis s) (fun t => vis t = vis s)).
  { unfold settle_interrupted, read_record.
    eapply t_bind with (R := fun r t => vis t = vis s /\ r = None).
    - eapply t_bind; [apply t_read; [by intros t sc H|done|done]|].
      intros v t [Ht ->] _. rewrite Ht. revert Hr. unfold readable.
      destruct (vis s Replacing) as [b|]; [simpl|done]. destruct (from_json b) as [r|]; simpl; [|tauto].
      case_bool_decide; [done|]. simpl. tauto.
    - intros r t [Ht ->]. by apply (t_ret (c:=False) ()) with (P := fun t => vis t = vis s). }
  specialize (T s eq_refl ltac:(done)). rewrite Hd in T. by destruct o; destruct T.
Qed.

(** In any state of the files, whatever record is there and whatever
    fails: settling never touches the enrollment; it removes the recovery
    envelope, the added-camera store or its journal only while the file is as
    the record says; it writes the key only with the envelope the record
    holds; and without a record it can read it changes nothing. *)
Theorem settle_removes_only_recorded loading s o s' :
  settle_interrupted sha256 b64_decode from_json loading s = (o, s') ->
  forall p, allowed (readable s) s p (vis s' p).
Proof.
  intros Hd p. destruct (readable s) as [r|] eqn:Hr.
  - pose proof (t_kept_settle s r Hr loading s) as T.
    assert (Hk : record_kept s r s) by (split; [|done]; intros q; by left).
    specialize (T Hk ltac:(done)). rewrite Hd in T. destruct o; destruct T as [T _]; apply T.
  - rewrite (settle_unreadable _ _ _ _ Hr Hd). by left.
Qed.
End Claims.

(** ** A codec, and one write with it *)

Module Sample.
(** A record as bits. *)
#[global] Instance byte_eq_dec : EqDecision byte.
Proof. intros a b. destruct (Byte.byte_eq_dec a b); [by left|by right]. Defined.
#[global] Instance byte_countable : Countable byte.
Proof. apply (inj_countable Byte.to_N Byte.of_N). apply Byte.of_to_N. Defined.
#[global] Instance Record__eq_dec : EqDecision Record_.
Proof. solve_decision. Defined.
#[global] Instance Record__countable : Countable Record_.
Proof.
  apply (inj_countable' (fun r => (version r, key r, enrollment r, recovery r, camera_store r, camera_journal r))
    (fun '(v, k, e, r, c, j) => MkRecord v k e r c j)). by intros [].
Defined.

Definition to_json (r : Record_) : bytes := of_positive (encode r).
Definition from_json (b : bytes) : option Record_ := decode (to_positive b).
Lemma json_ok r : from_json (to_json r) = Some r.
Proof. unfold from_json, to_json. rewrite to_of_positive. apply decode_encode. Qed.

Definition b64_encode (b : bytes) : string := String.string_of_list_byte b.
Definition b64_decode (t : string) : option bytes := Some (String.list_byte_of_string t).
Lemma b64_ok b : b64_decode (b64_encode b) = Some b.
Proof. unfold b64_decode, b64_encode. by rewrite String.list_byte_of_string_of_list_byte. Qed.

Definition sha256 (b : bytes) : bytes := b.

(** The account's files, the new enrollment and the new key's envelope. *)
Definition old (p : path) : option bytes :=
  match p with
  | Enrollment => Some [Byte.x10]
  | Key => Some [Byte.x20]
  | Recovery => Some [Byte.x30]
  | Store => Some [Byte.x40]
  | _ => None
  end.
Definition e1 : bytes := [Byte.x11].
Definition keys : option (bytes * bytes) := Some ([Byte.x20], [Byte.x21]).
Definition start (sc : list fault) : fs := MkFs old (fun _ => []) sc.
Definition inputs : option (bool * option bytes * bool) := Some (true, Some [Byte.x21], true).

Abbreviation save := (replacing_save sha256 b64_encode b64_decode to_json from_json).
Abbreviation settle := (settle_interrupted sha256 b64_decode from_json).

Lemma old_key k k1 : keys = Some (k, k1) -> old Key = Some k.
Proof. by intros [= <- <-]. Qed.
Lemma new_file : Some (sha256 e1) <> sha256 <$> old Enrollment.
Proof. done. Qed.
Lemma start_clean sc : within (clean old) (start sc).
Proof. intros p v ->%list_elem_of_singleton. by destruct p. Qed.
Lemma inputs_save : saves e1 keys inputs (Some e1).
Proof. split; [by exists [Byte.x20], [Byte.x21]; auto|by right]. Qed.
End Sample.

(** The process dies in the sync that would make the new enrollment durable. *)
Lemma replacement_all_or_nothing_witness :
  holds (replaced_files Sample.old Sample.keys Sample.e1)
    (snd (Sample.settle false (snd (Sample.save Sample.inputs (Some Sample.e1) (Sample.start (repeat Good 15 ++ [Dies])))))).
Proof.
  set (s := snd (Sample.save _ _ _)).
  destruct (replacement_all_or_nothing Sample.sha256 Sample.b64_encode Sample.b64_decode Sample.to_json
    Sample.from_json Sample.json_ok Sample.b64_ok Sample.old Sample.e1 Sample.keys Sample.old_key Sample.new_file
    Sample.inputs (Some Sample.e1) s (snd (Sample.settle false s)) Sample.inputs_save) as [[H|H] _].
  - exists (Sample.start (repeat Good 15 ++ [Dies])). split; [apply Sample.start_clean|constructor].
  - vm_compute. reflexivity.
  - specialize (H Recovery None ltac:(done)). discriminate H. vm_compute. left.
  - exact H.
Defined.

Lemma reported_replacement_lasts_witness :
  holds (replaced_files Sample.old Sample.keys Sample.e1)
    (snd (Sample.settle true (snd (Sample.save Sample.inputs (Some Sample.e1) (Sample.start []))))).
Proof.
  apply (reported_replacement_lasts Sample.sha256 Sample.b64_encode Sample.b64_decode Sample.to_json
    Sample.from_json Sample.json_ok Sample.b64_ok Sample.old Sample.e1 Sample.keys Sample.old_key Sample.new_file
    Sample.inputs (Some Sample.e1) (Sample.start []) (snd (Sample.save Sample.inputs (Some Sample.e1) (Sample.start [])))).
  - apply Sample.inputs_save.
  - apply Sample.start_clean.
  - vm_compute. reflexivity.
  - do 2 constructor.
Defined.

Lemma replacement_completes_witness :
  exists s', Sample.save Sample.inputs (Some Sample.e1) (Sample.start []) = (Done (), s') /\
    holds (replaced_files Sample.old Sample.keys Sample.e1) s'.
Proof.
  apply (replacement_completes Sample.sha256 Sample.b64_encode Sample.b64_decode Sample.to_json
    Sample.from_json Sample.json_ok Sample.b64_ok Sample.old Sample.e1 Sample.keys Sample.old_key Sample.new_file
    Sample.inputs (Some Sample.e1) (Sample.start [])).
  - apply Sample.inputs_save.
  - reflexivity.
  - apply Sample.start_clean.
  - repeat split; discriminate.
Defined.

(** The process died before the new enrollment lasted: settling removes the
    recovery envelope the record names. *)
Lemma settle_removes_only_recorded_witness :
  let s := snd (Sample.save Sample.inputs (Some Sample.e1) (Sample.start (repeat Good 15 ++ [Dies]))) in
  let s' := snd (Sample.settle false s) in
  vis s Recovery = Some [Byte.x30] /\ vis s' Recovery = None /\
  allowed Sample.sha256 Sample.b64_decode (readable Sample.from_json s) s Recovery (vis s' Recovery).
Proof.
  split; [vm_compute; reflexivity|]. split; [vm_compute; reflexivity|].
  apply (settle_removes_only_recorded Sample.sha256 Sample.b64_encode Sample.b64_decode Sample.to_json Sample.from_json false _ (Done ())).
  vm_compute. reflexivity.
Defined.

(** ** A record that comes back

    [end] removes the record and syncs its directory.  When that sync fails
    the caller is told, but a later settling finds no record and returns
    without syncing, so the removal may never last.  A replacement was tried
    and put back, its record removed but the removal's sync failed; the
    account's files were settled again, which succeeded; the account enrolled
    again, durably, under the same key; then a power loss brought the record
    back.  Settling it takes the new enrollment for the replacement's and
    removes the recovery envelope of the key in use. *)
Module ComesBack.
Import Sample.
Definition sc : list fault := repeat Good 20 ++ [Fails].
Definition s1 : fs := snd (save inputs None (start sc)).
Definition s2 : fs := snd (settle false s1).
Definition s3 : fs := snd (write_atomic_reporting Enrollment [Byte.x12] s2).
Definition s4 : fs := MkFs (upd Replacing (Some (rb sha256 b64_encode to_json old keys)) (vis s3)) (fun _ => []) [].
End ComesBack.

(** An undone replacement whose record's removal did not last comes back
    after a power loss, although a settling in between succeeded, and removes
    the recovery envelope of the key that is in use. *)
Theorem undone_replacement_comes_back :
  fst (Sample.save Sample.inputs None (Sample.start ComesBack.sc)) = Failed /\
  fst (Sample.settle false ComesBack.s1) = Done () /\ vis ComesBack.s2 Replacing = None /\ holds Sample.old ComesBack.s2 /\
  fst (write_atomic_reporting Enrollment [Byte.x12] ComesBack.s2) = Done Durable /\ power_loss ComesBack.s3 ComesBack.s4 /\
  fst (Sample.settle false ComesBack.s4) = Done () /\
  vis (snd (Sample.settle false ComesBack.s4)) Enrollment = Some [Byte.x12] /\
  vis (snd (Sample.settle false ComesBack.s4)) Key = Sample.old Key /\
  vis ComesBack.s4 Recovery = Sample.old Recovery /\ vis (snd (Sample.settle false ComesBack.s4)) Recovery = None.
Proof.
  repeat split; try (vm_compute; reflexivity).
  - intros p v Hp. destruct p; try done; vm_compute; intros H; repeat (apply elem_of_cons in H as [H|H]; [exact H|]); by inversion H.
  - destruct p; vm_compute; repeat constructor.
Qed.
