(* ===== verification/Ordering.v ===== *)
(** * Ordering

    Rust's [Ord] as a class: the comparison a type derives (lexicographic over
    its fields, in declaration order), its laws, and [sort_by] with a
    comparison that is a total order. *)

From stdpp Require Import sorting.
From S2P Require Import Prelude.

Class Ord (A : Type) := cmp : A -> A -> comparison.
Class OrdLaws (A : Type) `{Ord A} : Prop := {
  cmp_eq x y : cmp x y = Eq <-> x = y;
  cmp_opp x y : cmp y x = CompOpp (cmp x y);
  cmp_trans x y z : cmp x y = Lt -> cmp y z = Lt -> cmp x z = Lt;
}.

(** [Ordering::then]. *)
Definition then_ (a b : comparison) : comparison := match a with Eq => b | c => c end.

#[export] Instance Z_ord : Ord Z := Z.compare.
#[export] Instance nat_ord : Ord nat := Nat.compare.
#[export] Instance prod_ord {A B} `{Ord A, Ord B} : Ord (A * B) :=
  fun x y => then_ (cmp x.1 y.1) (cmp x.2 y.2).
(** [Vec<T>] and the bytes of [String]: a proper prefix comes first. *)
Fixpoint list_cmp {A} `{Ord A} (l k : list A) : comparison :=
  match l, k with
  | [], [] => Eq
  | [], _ :: _ => Lt
  | _ :: _, [] => Gt
  | x :: l, y :: k => then_ (cmp x y) (list_cmp l k)
  end.
#[export] Instance list_ord {A} `{Ord A} : Ord (list A) := list_cmp.
(** An enum: the variant's position, then its fields. *)
#[export] Instance sum_ord {A B} `{Ord A, Ord B} : Ord (A + B) := fun x y =>
  match x, y with
  | inl a, inl b => cmp a b
  | inl _, inr _ => Lt
  | inr _, inl _ => Gt
  | inr a, inr b => cmp a b
  end.
(** A derived [Ord]: by a one-to-one view of the value as its fields. *)
Definition ord_by {A B} `{Ord B} (f : A -> B) : Ord A := fun x y => cmp (f x) (f y).

#[export] Instance Z_ord_laws : OrdLaws Z.
Proof.
  split; unfold cmp, Z_ord; intros.
  - apply Z.compare_eq_iff.
  - apply Z.compare_antisym.
  - rewrite Z.compare_lt_iff in *. lia.
Qed.
#[export] Instance nat_ord_laws : OrdLaws nat.
Proof.
  split; unfold cmp, nat_ord; intros.
  - apply Nat.compare_eq_iff.
  - apply Nat.compare_antisym.
  - rewrite Nat.compare_lt_iff in *. lia.
Qed.

Lemma then_Lt a b : then_ a b = Lt <-> a = Lt \/ (a = Eq /\ b = Lt).
Proof. destruct a; naive_solver. Qed.

Section Laws.
Context {A B : Type} `{OrdLaws A, OrdLaws B}.

Lemma cmp_refl (x : A) : cmp x x = Eq.
Proof. by apply cmp_eq. Qed.

#[export] Instance prod_ord_laws : OrdLaws (A * B).
Proof.
  split.
  - intros [x1 x2] [y1 y2]. unfold cmp, prod_ord, then_. simpl.
    destruct (cmp x1 y1) eqn:E; [rewrite cmp_eq in E; subst; rewrite cmp_eq; naive_solver|..];
      split; try done; intros [= -> ->]; by rewrite cmp_refl in E.
  - intros [x1 x2] [y1 y2]. unfold cmp, prod_ord, then_. simpl. rewrite (cmp_opp x1 y1), (cmp_opp x2 y2).
    by destruct (cmp x1 y1).
  - intros [x1 x2] [y1 y2] [z1 z2]. unfold cmp, prod_ord. simpl. rewrite !then_Lt, !cmp_eq.
    intros [Hx|[-> Hx]] [Hy|[-> Hy]]; eauto using cmp_trans.
Qed.

#[export] Instance list_ord_laws : OrdLaws (list A).
Proof.
  split.
  - intros x. induction x as [|a x IH]; intros [|b y]; unfold cmp, list_ord in *; simpl; try done.
    unfold then_. destruct (cmp a b) eqn:E; [rewrite cmp_eq in E; subst; rewrite IH; naive_solver|..];
      split; try done; intros [= -> ->]; by rewrite cmp_refl in E.
  - intros x. induction x as [|a x IH]; intros [|b y]; unfold cmp, list_ord in *; simpl; try done.
    rewrite IH, (cmp_opp a b). by destruct (cmp a b).
  - intros x. induction x as [|a x IH]; intros [|b y] [|c z]; unfold cmp, list_ord in *; simpl; try done.
    rewrite !then_Lt, !cmp_eq. intros [Hx|[-> Hx]] [Hy|[-> Hy]]; eauto using cmp_trans.
Qed.

#[export] Instance sum_ord_laws : OrdLaws (A + B).
Proof.
  split.
  - intros [x|x] [y|y]; unfold cmp, sum_ord; rewrite ?cmp_eq; naive_solver.
  - intros [x|x] [y|y]; unfold cmp, sum_ord; try done; apply cmp_opp.
  - intros [x|x] [y|y] [z|z]; unfold cmp, sum_ord; try done; apply cmp_trans.
Qed.

Lemma ord_by_laws (f : B -> A) : Inj (=) (=) f -> @OrdLaws B (ord_by f).
Proof.
  intros Hf. split; unfold cmp, ord_by.
  - intros x y. rewrite cmp_eq. split; [apply Hf|by intros ->].
  - intros x y. apply cmp_opp.
  - intros x y z. apply cmp_trans.
Qed.
End Laws.

(** ** Sorting *)

Definition ord_le {A} `{Ord A} (x y : A) : Prop := cmp x y <> Gt.
#[export] Instance ord_le_dec {A} `{Ord A} : RelDecision (@ord_le A _).
Proof. intros x y. unfold ord_le. apply _. Defined.

(** [sort_by] with a total order, where stability does not show. *)
Definition sort {A} `{Ord A} (l : list A) : list A := merge_sort ord_le l.

Section Sorting.
Context {A : Type} `{OrdLaws A}.

Lemma cmp_Gt (x y : A) : cmp x y = Gt <-> cmp y x = Lt.
Proof. rewrite (cmp_opp x y). destruct (cmp x y); naive_solver. Qed.

#[export] Instance ord_le_total : Total (@ord_le A _).
Proof.
  intros x y. unfold ord_le. destruct (cmp x y) eqn:E; [by left|by left|right].
  rewrite (cmp_opp x y), E. done.
Qed.
#[export] Instance ord_le_trans : Transitive (@ord_le A _).
Proof.
  intros x y z. unfold ord_le. intros Hxy Hyz Hxz.
  destruct (cmp x y) eqn:E; [|destruct (cmp y z) eqn:E'|done].
  - apply cmp_eq in E as ->. done.
  - apply cmp_eq in E' as ->. congruence.
  - rewrite (cmp_trans x y z E E') in Hxz. done.
  - done.
Qed.
#[export] Instance ord_le_anti : AntiSymm (=) (@ord_le A _).
Proof.
  intros x y. unfold ord_le. rewrite (cmp_opp x y). intros Hx Hy. apply cmp_eq.
  by destruct (cmp x y).
Qed.

Lemma sort_perm (l : list A) : sort l ≡ₚ l.
Proof. apply merge_sort_Permutation. Qed.

Lemma sort_sorted (l : list A) : StronglySorted ord_le (sort l).
Proof. apply StronglySorted_merge_sort; apply _. Qed.

(** The order the elements came in does not matter. *)
Lemma sort_unique (l k : list A) : l ≡ₚ k -> sort l = sort k.
Proof.
  intros Hp. apply (StronglySorted_unique ord_le); [apply sort_sorted..|].
  by rewrite !sort_perm.
Qed.
End Sorting.
