(* ===== verification/CameraKeys.v ===== *)
(** * Camera keys

    [irlume-common/src/split_key.rs], the canonical text and the order of a
    split pair's key, and [irlume-common/src/binding_key.rs], the bindings an
    account's enrollments carry.  A [String] is its bytes, [list Z]. *)

From S2P Require Import Prelude Text Ordering.

(** ** split_key.rs *)

Inductive SplitDomain := SuperSpeed | Usb2.
#[export] Instance SplitDomain_eq_dec : EqDecision SplitDomain.
Proof. solve_decision. Defined.

Record SplitUnitKey := MkUnit { identity : str; controller : str; domain : SplitDomain; ports : list Z }.
#[export] Instance SplitUnitKey_eq_dec : EqDecision SplitUnitKey.
Proof. solve_decision. Defined.

Record SplitPairKey := MkPair { sp_rgb : SplitUnitKey; sp_ir : SplitUnitKey }.
#[export] Instance SplitPairKey_eq_dec : EqDecision SplitPairKey.
Proof. solve_decision. Defined.

Inductive KeyError :=
  | BadClassTag | BadUnitShape | EmptyField | BadDomain | BadPorts | LowercaseHex | UnnecessaryEscape | BadEscape.

Definition is_safe_byte (b : Z) : bool :=
  is_ascii_alphanumeric b || bool_decide (b = 58) || bool_decide (b = 46) || bool_decide (b = 95) || bool_decide (b = 45).

Definition hex_digit_upper (n : Z) : Z := if bool_decide (n < 10) then 48 + n else 55 + n.

Fixpoint percent_encode (l : str) : str :=
  match l with
  | [] => []
  | b :: l =>
      if is_safe_byte b then b :: percent_encode l
      else 37 :: hex_digit_upper (Z.shiftr b 4) :: hex_digit_upper (Z.land b 15) :: percent_encode l
  end.

Definition hex (c : Z) : option Z :=
  if bool_decide (48 <= c <= 57) then Some (c - 48)
  else if bool_decide (65 <= c <= 70) then Some (c - 65 + 10)
  else if bool_decide (97 <= c <= 102) then Some (c - 97 + 10)
  else None.
Definition is_ascii_lowercase (c : Z) : bool := bool_decide (97 <= c <= 122).

(** The loop of [percent_decode]. *)
Fixpoint percent_bytes (l : str) : result KeyError str :=
  match l with
  | [] => Ok []
  | 37 :: l =>
      match l with
      | hi :: lo :: l =>
          match hex hi, hex lo with
          | Some h, Some n =>
              if is_ascii_lowercase hi || is_ascii_lowercase lo then Err LowercaseHex
              else
                let value := Z.lor (Z.shiftl h 4) n in
                if is_safe_byte value then Err UnnecessaryEscape
                else out ← percent_bytes l; Ok (value :: out)
          | _, _ => Err BadEscape
          end
      | _ => Err BadEscape
      end
  | b :: l => if is_safe_byte b then out ← percent_bytes l; Ok (b :: out) else Err BadEscape
  end.

Definition percent_decode (l : str) : result KeyError str :=
  out ← percent_bytes l; if is_utf8 out then Ok out else Err BadEscape.

Definition format_ports_text (ports : list Z) : str := join_with 46 (map decimal ports).

Definition parse_port (part : str) : result KeyError Z :=
  if bool_decide (part = []) || negb (forallb is_ascii_digit part)
     || (bool_decide (1 < length part)%nat && bool_decide (head part = Some 48))
  then Err BadPorts
  else match parse_uint_codes 16 part with
       | Some value => if bool_decide (1 <= value <= 255) then Ok value else Err BadPorts
       | None => Err BadPorts
       end.
Fixpoint parse_parts (parts : list str) : result KeyError (list Z) :=
  match parts with
  | [] => Ok []
  | part :: parts => p ← parse_port part; ps ← parse_parts parts; Ok (p :: ps)
  end.
Definition parse_ports_text (text : str) : result KeyError (list Z) := parse_parts (split_at 46 text).

Definition domain_as_str (d : SplitDomain) : str :=
  match d with SuperSpeed => str_codes "superspeed" | Usb2 => str_codes "usb2" end.
Definition parse_domain (text : str) : result KeyError SplitDomain :=
  if bool_decide (text = str_codes "superspeed") then Ok SuperSpeed
  else if bool_decide (text = str_codes "usb2") then Ok Usb2
  else Err BadDomain.

Definition format_unit (u : SplitUnitKey) : result KeyError str :=
  if bool_decide (identity u = []) || bool_decide (controller u = []) then Err EmptyField
  else if bool_decide (ports u = []) || bool_decide (0 ∈ ports u) then Err BadPorts
  else Ok (join_with 124 [percent_encode (identity u); percent_encode (controller u); domain_as_str (domain u);
                          format_ports_text (ports u)]).

Definition parse_unit (text : str) : result KeyError SplitUnitKey :=
  match split_at 124 text with
  | [f0; f1; f2; f3] =>
      identity ← percent_decode f0;
      controller ← percent_decode f1;
      if bool_decide (identity = []) || bool_decide (controller = []) then Err EmptyField
      else d ← parse_domain f2; p ← parse_ports_text f3; Ok (MkUnit identity controller d p)
  | _ => Err BadUnitShape
  end.

Definition split_tag : str := str_codes "split1;".

Definition format_canonical (k : SplitPairKey) : result KeyError str :=
  rgb ← format_unit (sp_rgb k); ir ← format_unit (sp_ir k); Ok (split_tag ++ rgb ++ 59 :: ir).

Definition parse_canonical (text : str) : result KeyError SplitPairKey :=
  rest ← ok_or BadClassTag (strip_prefix split_tag text);
  '(rgb, ir) ← ok_or BadUnitShape (split_once 59 rest);
  rgb ← parse_unit rgb; ir ← parse_unit ir; Ok (MkPair rgb ir).

(** The derived [Ord]. *)
#[export] Instance SplitDomain_ord : Ord SplitDomain :=
  ord_by (fun d => match d with SuperSpeed => 0%nat | Usb2 => 1%nat end).
#[export] Instance SplitUnitKey_ord : Ord SplitUnitKey :=
  ord_by (fun u => (identity u, (controller u, (domain u, ports u)))).
#[export] Instance SplitPairKey_ord : Ord SplitPairKey := ord_by (fun k => (sp_rgb k, sp_ir k)).

(** ** binding_key.rs *)

Inductive PairBinding :=
  | Ordinary (rgb ir : option str)
  | Split (key : SplitPairKey).
#[export] Instance PairBinding_eq_dec : EqDecision PairBinding.
Proof. solve_decision. Defined.

Inductive CompletePairKey :=
  | COrdinary (rgb ir : str)
  | CSplit (key : SplitPairKey).
#[export] Instance CompletePairKey_eq_dec : EqDecision CompletePairKey.
Proof. solve_decision. Defined.
#[export] Instance CompletePairKey_ord : Ord CompletePairKey :=
  ord_by (fun k => match k with COrdinary rgb ir => inl (rgb, ir) | CSplit key => inr key end).

Definition bounded (text : str) : bool := negb (bool_decide (text = [])) && bool_decide (length text <= 256)%nat.

Definition unit_bounded (u : SplitUnitKey) : bool :=
  bounded (identity u) && bounded (controller u) && bool_decide (length (ports u) <= 6)%nat.

(** [PairBinding::validate(..).is_ok()]. *)
Definition validate (b : PairBinding) : bool :=
  match b with
  | Split key => is_ok (format_canonical key) && unit_bounded (sp_rgb key) && unit_bounded (sp_ir key)
  | Ordinary _ _ => true
  end.

Definition complete_key (b : PairBinding) : option CompletePairKey :=
  if validate b then
    match b with
    | Ordinary (Some rgb) (Some ir) =>
        if bool_decide (rgb = []) || bool_decide (ir = []) then None else Some (COrdinary rgb ir)
    | Split key => Some (CSplit key)
    | Ordinary _ _ => None
    end
  else None.

Definition side_matches (want live : option str) : bool :=
  match want with None => true | Some w => bool_decide (live = Some w) end.

Definition matches_ (b : PairBinding) (live_rgb live_ir : option str) : bool :=
  match b with
  | Ordinary rgb ir => validate b && side_matches rgb live_rgb && side_matches ir live_ir
  | Split _ => false
  end.

Definition matches_binding (b live : PairBinding) : bool :=
  match b, live with
  | Ordinary _ _, Ordinary rgb ir => matches_ b rgb ir
  | Split want, Split now => validate b && validate live && bool_decide (want = now)
  | _, _ => false
  end.

Definition key_validate (k : CompletePairKey) : bool :=
  match k with
  | COrdinary rgb ir => negb (bool_decide (rgb = []) || bool_decide (ir = []))
  | CSplit key => validate (Split key)
  end.

Definition matches_key (b : PairBinding) (live : CompletePairKey) : bool :=
  key_validate live &&
  match live with
  | COrdinary rgb ir => matches_ b (Some rgb) (Some ir)
  | CSplit key => match b with Split want => validate b && bool_decide (want = key) | Ordinary _ _ => false end
  end.

Definition rgb_identity (b : PairBinding) : option str :=
  match b with Ordinary rgb _ => rgb | Split key => Some (identity (sp_rgb key)) end.
Definition ir_identity (b : PairBinding) : option str :=
  match b with Ordinary _ ir => ir | Split key => Some (identity (sp_ir key)) end.

Definition from_key (k : CompletePairKey) : PairBinding :=
  match k with COrdinary rgb ir => Ordinary (Some rgb) (Some ir) | CSplit key => Split key end.

(** The JSON a binding is stored as: an object with two optional strings, or a
    string. *)
Inductive BindingValue := OrdinaryValue (rgb ir : option str) | SplitValue (text : str).

Definition serialize_binding (b : PairBinding) : option BindingValue :=
  if validate b then
    match b with
    | Ordinary rgb ir => Some (OrdinaryValue rgb ir)
    | Split key => match format_canonical key with Ok text => Some (SplitValue text) | Err _ => None end
    end
  else None.
Definition deserialize_binding (v : BindingValue) : option PairBinding :=
  b ← match v with
      | OrdinaryValue rgb ir => Some (Ordinary rgb ir)
      | SplitValue text => match parse_canonical text with Ok key => Some (Split key) | Err _ => None end
      end;
  if validate b then Some b else None.
Definition serialize_key (k : CompletePairKey) : option BindingValue :=
  if key_validate k then serialize_binding (from_key k) else None.
Definition deserialize_key (v : BindingValue) : option CompletePairKey := deserialize_binding v ≫= complete_key.

(** ** The text of a key *)

(** What a [String] holds. *)
Definition is_str (l : str) : Prop := Forall (fun b => 0 <= b < 256) l /\ is_utf8 l = true.
Definition unit_ok (u : SplitUnitKey) : Prop :=
  is_str (identity u) /\ is_str (controller u) /\ Forall (fun p => 0 <= p < 256) (ports u).
Definition key_ok (k : SplitPairKey) : Prop := unit_ok (sp_rgb k) /\ unit_ok (sp_ir k).

Lemma safe_not_special b : is_safe_byte b = true -> b <> 37 /\ b <> 124 /\ b <> 59.
Proof.
  unfold is_safe_byte, is_ascii_alphanumeric, is_ascii_digit. intros H.
  repeat apply orb_prop in H as [H|H]; apply bool_decide_eq_true in H; lia.
Qed.

Lemma escape_nibbles b : 0 <= b < 256 ->
  0 <= Z.shiftr b 4 < 16 /\ 0 <= Z.land b 15 < 16 /\ Z.lor (Z.shiftl (Z.shiftr b 4) 4) (Z.land b 15) = b.
Proof.
  intros Hb. assert (Hc : forallb (fun b => let b := Z.of_nat b in
    bool_decide (0 <= Z.shiftr b 4 < 16) && bool_decide (0 <= Z.land b 15 < 16)
    && bool_decide (Z.lor (Z.shiftl (Z.shiftr b 4) 4) (Z.land b 15) = b)) (seq 0 256) = true) by (vm_compute; reflexivity).
  rewrite forallb_forall in Hc. specialize (Hc (Z.to_nat b)). rewrite in_seq, Z2Nat.id in Hc by lia.
  specialize (Hc ltac:(lia)). cbv zeta in Hc. reflect_bools. naive_solver.
Qed.

Lemma hex_upper n : 0 <= n < 16 ->
  hex (hex_digit_upper n) = Some n /\ is_ascii_lowercase (hex_digit_upper n) = false.
Proof.
  intros Hn. unfold hex_digit_upper, hex, is_ascii_lowercase. repeat case_bool_decide; try lia; split; try done; f_equal; lia.
Qed.

Lemma percent_bytes_escape hi lo l h n :
  hex hi = Some h -> hex lo = Some n -> is_ascii_lowercase hi = false -> is_ascii_lowercase lo = false ->
  percent_bytes (37 :: hi :: lo :: l) =
    if is_safe_byte (Z.lor (Z.shiftl h 4) n) then Err UnnecessaryEscape
    else out ← percent_bytes l; Ok (Z.lor (Z.shiftl h 4) n :: out).
Proof. intros Hh Hn Hl Hl'. simpl. by rewrite Hh, Hn, Hl, Hl'. Qed.

Lemma percent_bytes_plain b l :
  b <> 37 -> percent_bytes (b :: l) = if is_safe_byte b then out ← percent_bytes l; Ok (b :: out) else Err BadEscape.
Proof.
  intros H. simpl. destruct b as [|p|p]; try done. repeat (destruct p as [p|p|]; try done).
Qed.

Lemma percent_bytes_safe b l :
  is_safe_byte b = true -> percent_bytes (b :: l) = (out ← percent_bytes l; Ok (b :: out)).
Proof.
  intros Hb. destruct (safe_not_special b Hb) as [H _]. rewrite percent_bytes_plain by done. by rewrite Hb.
Qed.

Lemma decode_encode_bytes l : Forall (fun b => 0 <= b < 256) l -> percent_bytes (percent_encode l) = Ok l.
Proof.
  induction 1 as [|b l Hb _ IH]; [done|]. cbn [percent_encode]. destruct (is_safe_byte b) eqn:Es.
  - rewrite percent_bytes_safe, IH by done. done.
  - destruct (escape_nibbles b Hb) as (Hh & Hl & He). destruct (hex_upper _ Hh). destruct (hex_upper _ Hl).
    erewrite percent_bytes_escape by done. by rewrite He, Es, IH.
Qed.

Lemma percent_decode_encode l : is_str l -> percent_decode (percent_encode l) = Ok l.
Proof. intros [Hb Hu]. unfold percent_decode. rewrite decode_encode_bytes by done. simpl. by rewrite Hu. Qed.

Lemma hex_Some c n :
  hex c = Some n -> is_ascii_lowercase c = false -> 0 <= n < 16 /\ hex_digit_upper n = c.
Proof.
  unfold hex, is_ascii_lowercase, hex_digit_upper. repeat case_bool_decide; intros [= <-] ?; try lia; done.
Qed.

Lemma join_nibbles h n :
  0 <= h < 16 -> 0 <= n < 16 ->
  let v := Z.lor (Z.shiftl h 4) n in 0 <= v < 256 /\ Z.shiftr v 4 = h /\ Z.land v 15 = n.
Proof.
  intros Hh Hn. assert (Hc : forallb (fun h => forallb (fun n => let h := Z.of_nat h in let n := Z.of_nat n in
    let v := Z.lor (Z.shiftl h 4) n in
    bool_decide (0 <= v < 256) && bool_decide (Z.shiftr v 4 = h) && bool_decide (Z.land v 15 = n)) (seq 0 16)) (seq 0 16) = true)
    by (vm_compute; reflexivity).
  rewrite forallb_forall in Hc. specialize (Hc (Z.to_nat h)). rewrite in_seq in Hc. specialize (Hc ltac:(lia)).
  rewrite forallb_forall in Hc. specialize (Hc (Z.to_nat n)). rewrite in_seq, !Z2Nat.id in Hc by lia.
  specialize (Hc ltac:(lia)). cbv zeta in *. reflect_bools. naive_solver.
Qed.

Lemma encode_decode_bytes k t l :
  (length t <= k)%nat -> percent_bytes t = Ok l -> percent_encode l = t /\ Forall (fun b => 0 <= b < 256) l.
Proof.
  revert t l; induction k as [|k IH]; intros [|b t] l Hk; try (by intros [= <-]); [simpl in Hk; lia|].
  destruct (decide (b = 37)) as [->|Hb].
  - destruct t as [|hi [|lo t]]; [done|done|].
    destruct (hex hi) as [h|] eqn:Eh; [|simpl; by rewrite Eh].
    destruct (hex lo) as [n|] eqn:En; [|simpl; by rewrite Eh, En].
    destruct (is_ascii_lowercase hi) eqn:Lh; [simpl; by rewrite Eh, En, Lh|].
    destruct (is_ascii_lowercase lo) eqn:Ln; [simpl; by rewrite Eh, En, Lh, Ln|].
    erewrite percent_bytes_escape by done. destruct (is_safe_byte _) eqn:Es; [done|].
    destruct (percent_bytes t) as [out|] eqn:Et; [|done]. intros [= <-].
    destruct (IH t out) as [He Hf]; [simpl in Hk; lia|done|].
    destruct (hex_Some _ _ Eh Lh) as [Hh Hh']. destruct (hex_Some _ _ En Ln) as [Hn Hn'].
    destruct (join_nibbles h n Hh Hn) as (Hv & H1 & H2).
    split; [|by constructor]. cbn [percent_encode]. by rewrite Es, H1, H2, He, Hh', Hn'.
  - rewrite percent_bytes_plain by done. destruct (is_safe_byte b) eqn:Es; [|done].
    destruct (percent_bytes t) as [out|] eqn:Et; [|done]. intros [= <-].
    destruct (IH t out) as [He Hf]; [simpl in Hk; lia|done|]. split.
    + cbn [percent_encode]. by rewrite Es, He.
    + constructor; [|done]. unfold is_safe_byte, is_ascii_alphanumeric, is_ascii_digit in Es.
      repeat apply orb_prop in Es as [Es|Es]; apply bool_decide_eq_true in Es; lia.
Qed.

Lemma percent_encode_decode t l : percent_decode t = Ok l -> percent_encode l = t /\ is_str l.
Proof.
  unfold percent_decode. destruct (percent_bytes t) as [out|] eqn:E; simpl; [|done].
  destruct (is_utf8 out) eqn:Eu; [|done]. intros [= ->].
  destruct (encode_decode_bytes _ _ _ (Nat.le_refl _) E) as [He Hf]. by repeat split.
Qed.

(** The separators of a unit and of a pair never occur in encoded text. *)
Lemma encode_plain l c : c = 124 \/ c = 59 -> Forall (fun b => 0 <= b < 256) l -> c ∉ percent_encode l.
Proof.
  intros Hc. induction 1 as [|b l Hb _ IH]; cbn [percent_encode]; [by intros ?%elem_of_nil|].
  destruct (is_safe_byte b) eqn:Es.
  - rewrite not_elem_of_cons. split; [|done]. destruct (safe_not_special b Es). lia.
  - destruct (escape_nibbles b Hb) as (Hh & Hl & _).
    assert (Hx : forall n, 0 <= n < 16 -> hex_digit_upper n <> c).
    { intros n Hn. unfold hex_digit_upper. case_bool_decide; lia. }
    rewrite !not_elem_of_cons. repeat split; [lia|..|done]; apply not_eq_sym; by apply Hx.
Qed.

Lemma encode_nil l : percent_encode l = [] <-> l = [].
Proof. destruct l as [|b l]; cbn [percent_encode]; [done|]. by destruct (is_safe_byte b). Qed.

(** ** Ports *)

Definition port_ok (p : Z) : Prop := 1 <= p <= 255.

Lemma digits_all l : forallb is_ascii_digit l = true <-> Forall (fun d => 48 <= d <= 57) l.
Proof.
  rewrite forallb_forall, list.Forall_forall. unfold is_ascii_digit. setoid_rewrite bool_decide_eq_true.
  setoid_rewrite list_elem_of_In. done.
Qed.

Lemma parse_uint_digits w l :
  Forall (fun d => 48 <= d <= 57) l -> l <> [] -> parse_uint_codes w l = parse_digits w 0 l.
Proof.
  intros Hf Hn. destruct l as [|d l]; [done|]. inversion_clear Hf as [|? ? Hd _]. unfold parse_uint_codes.
  destruct d as [|p|p]; try lia. repeat (destruct p as [p|p|]; try done; try lia).
Qed.

Lemma parse_port_decimal p : port_ok p -> parse_port (decimal p) = Ok p.
Proof.
  intros Hp. destruct (decimal_spec p ltac:(unfold port_ok in Hp; lia)) as (Hv & Hf & d & r & He & Hd).
  unfold parse_port. rewrite bool_decide_eq_false_2 by (by rewrite He).
  rewrite (proj2 (digits_all _) Hf). rewrite (bool_decide_eq_false_2 (head _ = _)).
  2: { rewrite He. simpl. intros [= ->]. specialize (Hd eq_refl). unfold port_ok in Hp. lia. }
  rewrite andb_false_r. simpl. rewrite parse_uint_digits by (done || by rewrite He).
  rewrite parse_digits_fits; [|done|done|].
  - fold (digits_val (decimal p)). rewrite Hv. by rewrite bool_decide_eq_true_2.
  - fold (digits_val (decimal p)). rewrite Hv. unfold port_ok in Hp. lia.
Qed.

Lemma parse_port_Ok part p : parse_port part = Ok p -> port_ok p /\ decimal p = part.
Proof.
  unfold parse_port. destruct (bool_decide (part = [])) eqn:En; [done|]. destruct (forallb is_ascii_digit part) eqn:Ed; [|done].
  simpl. destruct (_ && _) eqn:Ez; [done|]. apply bool_decide_eq_false in En. apply digits_all in Ed.
  rewrite parse_uint_digits by done. destruct (parse_digits 16 0 part) as [v|] eqn:Ep; [|done].
  destruct (bool_decide (1 <= v <= 255)) eqn:Er; [|done]. apply bool_decide_eq_true in Er. intros [= <-]. split; [done|].
  apply parse_digits_Some in Ep as ->; [|done]. fold (digits_val part). apply decimal_val; [done|done|].
  intros r ->. rewrite andb_false_iff, !bool_decide_eq_false in Ez. simpl in Ez.
  destruct r; [done|]. destruct Ez as [Ez|Ez]; [simpl in Ez; lia|done].
Qed.

Lemma parse_parts_Ok parts ps : parse_parts parts = Ok ps <-> map decimal ps = parts /\ Forall port_ok ps.
Proof.
  revert ps; induction parts as [|part parts IH]; intros ps; cbn [parse_parts].
  - split; [by intros [= <-]|]. intros [H _]. by destruct ps.
  - split.
    + destruct (parse_port part) as [p|] eqn:Ep; [|done]. simpl. destruct (parse_parts parts) as [qs|] eqn:Eq; [|done].
      intros [= <-]. apply parse_port_Ok in Ep as [Hp <-]. destruct (proj1 (IH qs) eq_refl) as [<- Hf]. split; [done|by constructor].
    + intros [He Hf]. destruct ps as [|p ps]; [done|]. injection He as <- <-. inversion_clear Hf as [|? ? Hp Hps].
      rewrite parse_port_decimal by done. simpl. by rewrite (proj2 (IH ps)).
Qed.

Lemma decimal_no_dot p : 0 <= p -> Forall (fun c => c <> 46 /\ c <> 124 /\ c <> 59) (decimal p).
Proof.
  intros Hp. destruct (decimal_spec p Hp) as (_ & Hf & _). eapply list.Forall_impl; [exact Hf|]. simpl. lia.
Qed.

Lemma ports_roundtrip ps : ps <> [] -> Forall port_ok ps -> parse_ports_text (format_ports_text ps) = Ok ps.
Proof.
  intros Hn Hf. unfold parse_ports_text, format_ports_text. rewrite join_split.
  - by apply parse_parts_Ok.
  - by destruct ps.
  - rewrite List.Forall_map. eapply list.Forall_impl; [exact Hf|]. intros p Hp Hi. unfold port_ok in Hp.
    pose proof (decimal_no_dot p ltac:(lia)) as Hd. rewrite list.Forall_forall in Hd. by destruct (Hd _ Hi).
Qed.

Lemma ports_canonical t ps :
  parse_ports_text t = Ok ps -> format_ports_text ps = t /\ Forall port_ok ps /\ ps <> [].
Proof.
  unfold parse_ports_text, format_ports_text. intros [He Hf]%parse_parts_Ok. rewrite He, split_join.
  repeat split; [done|]. intros ->. by destruct (split_at_nonempty 46 t).
Qed.

(** ** Keys *)

Lemma domain_roundtrip d : parse_domain (domain_as_str d) = Ok d.
Proof. by destruct d. Qed.

Lemma domain_canonical t d : parse_domain t = Ok d -> domain_as_str d = t.
Proof. unfold parse_domain. repeat case_bool_decide; intros [= <-]; done. Qed.

Lemma join_plain c ls :
  Forall (fun l => c ∉ l) ls -> forall x, x <> c -> c ∉ join_with x ls.
Proof.
  intros Hf x Hx. induction ls as [|l [|m ls] IH]; simpl; [by intros ?%elem_of_nil|by inversion_clear Hf|].
  inversion_clear Hf as [|? ? Hl Hr]. rewrite not_elem_of_app, not_elem_of_cons. split; [done|].
  split; [congruence|by apply IH].
Qed.

Lemma domain_plain c d : c = 124 \/ c = 59 -> c ∉ domain_as_str d.
Proof. intros Hc. rewrite <- (bool_decide_eq_false (c ∈ domain_as_str d)). destruct Hc as [-> | ->], d; vm_compute; done. Qed.

Lemma ports_plain c ps : c = 124 \/ c = 59 -> Forall (fun p => 0 <= p < 256) ps -> c ∉ format_ports_text ps.
Proof.
  intros Hc Hf. unfold format_ports_text. apply join_plain; [|lia]. rewrite List.Forall_map.
  eapply list.Forall_impl; [exact Hf|]. intros p Hp Hi. simpl in Hp.
  pose proof (decimal_no_dot p ltac:(lia)) as Hd. rewrite list.Forall_forall in Hd. destruct (Hd _ Hi) as (_ & H1 & H2). lia.
Qed.

Definition unit_fields (u : SplitUnitKey) : list str :=
  [percent_encode (identity u); percent_encode (controller u); domain_as_str (domain u); format_ports_text (ports u)].

Lemma unit_fields_plain c u : c = 124 \/ c = 59 -> unit_ok u -> Forall (fun l => c ∉ l) (unit_fields u).
Proof.
  intros Hc ([Hi _] & [Hk _] & Hp). repeat constructor.
  - by apply encode_plain.
  - by apply encode_plain.
  - by apply domain_plain.
  - by apply ports_plain.
Qed.

Lemma format_unit_Ok u t :
  format_unit u = Ok t <->
  t = join_with 124 (unit_fields u) /\ identity u <> [] /\ controller u <> [] /\ ports u <> [] /\ 0 ∉ ports u.
Proof.
  unfold format_unit, unit_fields. repeat case_bool_decide; simpl; naive_solver.
Qed.

Lemma unit_roundtrip u t : unit_ok u -> format_unit u = Ok t -> parse_unit t = Ok u /\ 59 ∉ t.
Proof.
  intros Hu (-> & Hi & Hc & Hp & H0)%format_unit_Ok. unfold parse_unit. split.
  2: { apply join_plain; [|done]. apply unit_fields_plain; [by right|done]. }
  rewrite join_split by (done || (apply unit_fields_plain; [by left|done])).
  destruct Hu as (Hsi & Hsc & Hps). unfold unit_fields. rewrite !percent_decode_encode by done. simpl.
  rewrite !bool_decide_eq_false_2 by done. simpl. rewrite domain_roundtrip. simpl.
  rewrite ports_roundtrip; [by destruct u|done|].
  rewrite list.Forall_forall in Hps |- *. intros p Hin. specialize (Hps p Hin). unfold port_ok.
  assert (p <> 0) by (by intros ->). lia.
Qed.

Lemma unit_canonical t u : parse_unit t = Ok u -> format_unit u = Ok t /\ unit_ok u.
Proof.
  unfold parse_unit. destruct (split_at 124 t) as [|f0 [|f1 [|f2 [|f3 [|? ?]]]]] eqn:Es; try done.
  destruct (percent_decode f0) as [i|] eqn:E0; [simpl|done]. destruct (percent_decode f1) as [k|] eqn:E1; [simpl|done].
  case_bool_decide; [done|]. case_bool_decide; [done|]. simpl.
  destruct (parse_domain f2) as [d|] eqn:E2; [simpl|done]. destruct (parse_ports_text f3) as [p|] eqn:E3; [simpl|done].
  intros [= <-]. apply percent_encode_decode in E0 as [E0 Hi]. apply percent_encode_decode in E1 as [E1 Hk].
  apply domain_canonical in E2. apply ports_canonical in E3 as (E3 & Hf & Hn). split.
  - apply format_unit_Ok. unfold unit_fields. cbn [identity controller domain ports]. rewrite E0, E1, E2, E3, <- Es, split_join.
    repeat split; try done. intros Hin. rewrite list.Forall_forall in Hf. specialize (Hf 0 Hin). unfold port_ok in Hf. lia.
  - repeat split; try apply Hi; try apply Hk. eapply list.Forall_impl; [exact Hf|]. unfold port_ok. simpl. lia.
Qed.

Lemma format_canonical_Ok k t :
  format_canonical k = Ok t <->
  exists r i, format_unit (sp_rgb k) = Ok r /\ format_unit (sp_ir k) = Ok i /\ t = split_tag ++ r ++ 59 :: i.
Proof.
  unfold format_canonical. destruct (format_unit (sp_rgb k)) as [r|]; simpl; [|naive_solver].
  destruct (format_unit (sp_ir k)) as [i|]; simpl; naive_solver.
Qed.

Lemma parse_format k t : key_ok k -> format_canonical k = Ok t -> parse_canonical t = Ok k.
Proof.
  intros [Hr Hi] (r & i & Er & Ei & ->)%format_canonical_Ok. unfold parse_canonical. rewrite strip_prefix_app. simpl.
  destruct (unit_roundtrip _ _ Hr Er) as [Pr Nr]. destruct (unit_roundtrip _ _ Hi Ei) as [Pi _].
  rewrite split_once_app by done. simpl. rewrite Pr, Pi. by destruct k.
Qed.

Lemma format_parse t k : parse_canonical t = Ok k -> format_canonical k = Ok t /\ key_ok k.
Proof.
  unfold parse_canonical. destruct (strip_prefix split_tag t) as [rest|] eqn:Es; [simpl|done].
  destruct (split_once 59 rest) as [[r i]|] eqn:Eo; [simpl|done].
  destruct (parse_unit r) as [ur|] eqn:Er; [simpl|done]. destruct (parse_unit i) as [ui|] eqn:Ei; [simpl|done].
  intros [= <-]. apply strip_prefix_Some in Es as ->. apply split_once_Some in Eo as [-> _].
  apply unit_canonical in Er as [Er Hr]. apply unit_canonical in Ei as [Ei Hi]. split; [|by split].
  apply format_canonical_Ok. by exists r, i.
Qed.

(** The canonical text of a split pair's key and the key itself are the
    same thing: a key whose text is written parses back to it, and a text that
    parses is the one text of the key it gives. *)
Theorem key_text_canonical k t :
  (key_ok k -> format_canonical k = Ok t -> parse_canonical t = Ok k) /\
  (parse_canonical t = Ok k -> format_canonical k = Ok t /\ key_ok k).
Proof. split; [apply parse_format|apply format_parse]. Qed.

Definition sample_key : SplitPairKey :=
  MkPair (MkUnit (str_codes "5986:2113:a b") (str_codes "0000:00:14.0") Usb2 [8])
         (MkUnit (str_codes "5986:1141") (str_codes "0000:00:14.0") SuperSpeed [5; 255]).

Lemma sample_key_ok : key_ok sample_key.
Proof. repeat split; try (apply (bool_decide_unpack _); by vm_compute); by vm_compute. Qed.

Lemma key_text_canonical_witness :
  format_canonical sample_key = Ok (str_codes "split1;5986:2113:a%20b|0000:00:14.0|usb2|8;5986:1141|0000:00:14.0|superspeed|5.255").
Proof.
  apply (key_text_canonical sample_key). vm_compute. reflexivity.
Defined.

(** ** Bindings *)

Definition binding_ok (b : PairBinding) : Prop := match b with Split key => key_ok key | Ordinary _ _ => True end.

Lemma serialize_roundtrip b v : binding_ok b -> serialize_binding b = Some v -> deserialize_binding v = Some b.
Proof.
  unfold serialize_binding, deserialize_binding. intros Hb. destruct (validate b) eqn:Ev; [|done].
  destruct b as [rgb ir|key]; [by intros [= <-]|].
  destruct (format_canonical key) as [t|] eqn:Ef; [|done]. intros [= <-].
  rewrite (parse_format key t Hb Ef). cbn [mbind option_bind]. by rewrite Ev.
Qed.

Lemma deserialize_canonical b v : deserialize_binding v = Some b -> serialize_binding b = Some v /\ binding_ok b.
Proof.
  unfold serialize_binding, deserialize_binding. destruct v as [rgb ir|t]; [by intros [= <-]|].
  destruct (parse_canonical t) as [key|] eqn:Ep; cbn [mbind option_bind]; [|done].
  destruct (format_parse t key Ep) as [Ef Hk].
  destruct (validate (Split key)) eqn:Ev; [|done]. intros [= <-]. by rewrite Ev, Ef.
Qed.

Lemma complete_key_validate b k : complete_key b = Some k -> key_validate k = true /\ from_key k = b.
Proof.
  unfold complete_key. destruct (validate b) eqn:Ev; [|done].
  destruct b as [[rgb|] [ir|]|key]; try done.
  - destruct (_ || _) eqn:E; [done|]. intros [= <-]. simpl. by rewrite E.
  - by intros [= <-].
Qed.

Lemma complete_key_from k : key_validate k = true -> complete_key (from_key k) = Some k.
Proof.
  destruct k as [rgb ir|key]; unfold complete_key; simpl.
  - intros H. by destruct (_ || _).
  - by intros ->.
Qed.

(** A stored binding reads back as it was written and is written as it
    was read, and a complete key read back is the key of the stored binding:
    a partial or malformed binding is never read as a complete key. *)
Theorem binding_reads_back b v :
  (binding_ok b -> serialize_binding b = Some v -> deserialize_binding v = Some b) /\
  (deserialize_binding v = Some b -> serialize_binding b = Some v) /\
  (forall k, deserialize_key v = Some k <-> deserialize_binding v = Some (from_key k) /\ key_validate k = true).
Proof.
  split; [apply serialize_roundtrip|]. split; [intros H; by apply deserialize_canonical in H as [H _]|].
  intros k. unfold deserialize_key. split.
  - destruct (deserialize_binding v) as [b'|]; [|done]. simpl. intros H. apply complete_key_validate in H as [Hv <-]. done.
  - intros [-> Hv]. simpl. by apply complete_key_from.
Qed.

Lemma binding_reads_back_witness :
  exists v, serialize_binding (Split sample_key) = Some v /\ deserialize_binding v = Some (Split sample_key).
Proof.
  eexists. split; [vm_compute; reflexivity|].
  apply binding_reads_back; [apply sample_key_ok|vm_compute; reflexivity].
Defined.

(** ** The order of keys *)

#[export] Instance SplitDomain_ord_laws : OrdLaws SplitDomain.
Proof. apply ord_by_laws. by intros [] []. Qed.
#[export] Instance SplitUnitKey_ord_laws : OrdLaws SplitUnitKey.
Proof. apply ord_by_laws. intros [] []. simpl. naive_solver. Qed.
#[export] Instance SplitPairKey_ord_laws : OrdLaws SplitPairKey.
Proof. apply ord_by_laws. intros [] []. simpl. naive_solver. Qed.
#[export] Instance CompletePairKey_ord_laws : OrdLaws CompletePairKey.
Proof. apply ord_by_laws. intros [] []; simpl; naive_solver. Qed.
