(* ===== verification/CameraStore.v ===== *)
(** * The added-camera store

    [irlume-core/src/multi_camera.rs]: the store of an account's secondary
    camera groups, its validation, its activation against the primary
    enrollment's bytes, the lookup of a group for a pair of cameras, the names
    of new groups, and its plaintext and encrypted files.

    Face scans and calibrations are carried and counted, never looked into
    here: their types are parameters.  So are the JSON and base64 codecs,
    SHA-256 and the AEAD, as the class [Codec]. *)

From S2P Require Import Prelude Text Ordering CameraKeys.

Abbreviation bytes := (list byte).

Definition SECONDARY_STORE_VERSION : Z := 1.
Definition SECONDARY_ENC_ENVELOPE_VERSION : Z := 2.
Definition MAX_GROUPS : nat := 8.
Definition MAX_SCANS_PER_PROFILE_GROUP : nat := 30.
Definition MAX_TOTAL_SCANS : nat := 64.
Definition MAX_STORE_BYTES : Z := 8 * 1024 * 1024.
Definition MAX_ID_BYTES : nat := 256.
Definition MAX_CALIB_SPACES_PER_PROFILE_GROUP : nat := 4.

(** Why a store is invalid, in the order of the checks. *)
Inductive InvalidReason :=
  | OwnerBounds | NotHex | TooManyGroups | BadPair | NeitherSide | IdentityBounds | NoProfiles
  | ProfileBounds | ScanCount | CalibSpaces | RepeatedProfile | TotalScans | DuplicateGroup
  | KeyUnavailable | TooLarge | IdBounds | BindingDisagrees.
Inductive SecondaryStoreError := Corrupt | IncompatibleVersion (v : Z) | Invalid (why : InvalidReason) | Io.

(** [CameraGroupId::new]. *)
Definition new_id (value : str) : result SecondaryStoreError str :=
  if bool_decide (value = []) || bool_decide (MAX_ID_BYTES < length value)%nat then Err (Invalid IdBounds) else Ok value.

Section Store.
Context {FaceScan IrCalibration : Type}.

Record SecondaryProfileScans := MkScans {
  profile : str;
  scans : list FaceScan;
  ir_calibs : gmap str IrCalibration;
}.
Record SecondaryGroup := MkGroup { id : str; pair : PairBinding; profiles : list SecondaryProfileScans }.
Record SecondaryStore := MkStore {
  format_version : Z;
  owner : str;
  generation : Z;
  primary_snapshot_sha256 : str;
  groups : list SecondaryGroup;
}.

(** ** validate *)

Definition check {E} (ok : bool) (e : E) : result E () := if ok then Ok () else Err e.
Definition in_bounds (text : str) : bool :=
  negb (bool_decide (text = [])) && bool_decide (length text <= MAX_ID_BYTES)%nat.

Definition is_lower_hex (b : Z) : bool := is_ascii_digit b || bool_decide (97 <= b <= 102).

(** The loop over a group's profiles: the references seen and the scans
    counted so far. *)
Fixpoint check_profiles (seen : list str) (total : nat) (ps : list SecondaryProfileScans)
    : result SecondaryStoreError nat :=
  match ps with
  | [] => Ok total
  | p :: ps =>
      _ ← check (in_bounds (profile p)) (Invalid ProfileBounds);
      _ ← check (negb (bool_decide (scans p = [])) && bool_decide (length (scans p) <= MAX_SCANS_PER_PROFILE_GROUP)%nat)
            (Invalid ScanCount);
      _ ← check (bool_decide (size (ir_calibs p) <= MAX_CALIB_SPACES_PER_PROFILE_GROUP)%nat) (Invalid CalibSpaces);
      _ ← check (negb (bool_decide (profile p ∈ seen))) (Invalid RepeatedProfile);
      check_profiles (profile p :: seen) (total + length (scans p)) ps
  end.

Definition sides (b : PairBinding) : list str := omap (fun o => o) [rgb_identity b; ir_identity b].

Definition check_group (total : nat) (g : SecondaryGroup) : result SecondaryStoreError nat :=
  _ ← check (validate (pair g)) (Invalid BadPair);
  _ ← check (negb (bool_decide (rgb_identity (pair g) = None) && bool_decide (ir_identity (pair g) = None))) (Invalid NeitherSide);
  _ ← check (forallb in_bounds (sides (pair g))) (Invalid IdentityBounds);
  _ ← check (negb (bool_decide (length (profiles g) = 0)%nat)) (Invalid NoProfiles);
  check_profiles [] total (profiles g).

Fixpoint check_groups (total : nat) (gs : list SecondaryGroup) : result SecondaryStoreError nat :=
  match gs with
  | [] => Ok total
  | g :: gs => total ← check_group total g; check_groups total gs
  end.

Fixpoint check_ids (seen : list str) (gs : list SecondaryGroup) : result SecondaryStoreError () :=
  match gs with
  | [] => Ok ()
  | g :: gs => _ ← check (negb (bool_decide (id g ∈ seen))) (Invalid DuplicateGroup); check_ids (id g :: seen) gs
  end.

(** [SecondaryStore::validate]. *)
Definition validate_store (s : SecondaryStore) : result SecondaryStoreError () :=
  _ ← check (bool_decide (format_version s = SECONDARY_STORE_VERSION)) (IncompatibleVersion (format_version s));
  _ ← check (in_bounds (owner s)) (Invalid OwnerBounds);
  _ ← check (bool_decide (length (primary_snapshot_sha256 s) = 64%nat) && forallb is_lower_hex (primary_snapshot_sha256 s))
        (Invalid NotHex);
  _ ← check (bool_decide (length (groups s) <= MAX_GROUPS)%nat) (Invalid TooManyGroups);
  total_scans ← check_groups 0 (groups s);
  _ ← check (bool_decide (total_scans <= MAX_TOTAL_SCANS)%nat) (Invalid TotalScans);
  check_ids [] (groups s).

(** ** Activation and lookup *)

Inductive Activation := Active | InactivePrimaryChanged.
#[export] Instance Activation_eq_dec : EqDecision Activation.
Proof. solve_decision. Defined.

Definition activation_against (sha256_hex : bytes -> str) (s : SecondaryStore) (primary : option bytes) : Activation :=
  match primary with
  | None => InactivePrimaryChanged
  | Some b => if bool_decide (sha256_hex b = primary_snapshot_sha256 s) then Active else InactivePrimaryChanged
  end.

Definition group_for_pair (s : SecondaryStore) (live_rgb live_ir : option str) : option SecondaryGroup :=
  find (fun g => matches_ (pair g) live_rgb live_ir) (groups s).
Definition group_for_binding (s : SecondaryStore) (live : PairBinding) : option SecondaryGroup :=
  find (fun g => matches_binding (pair g) live) (groups s).

Inductive StrictPairMatch := NoMatch | One (index : nat) (group : SecondaryGroup) | Ambiguous.

(** The loop of [strict_group_for_key]. *)
Fixpoint strict_loop (key : CompletePairKey) (index : nat) (found : option (nat * SecondaryGroup))
    (gs : list SecondaryGroup) : StrictPairMatch :=
  match gs with
  | [] => match found with Some (index, group) => One index group | None => NoMatch end
  | g :: gs =>
      if bool_decide (complete_key (pair g) = Some key) then
        match found with Some _ => Ambiguous | None => strict_loop key (S index) (Some (index, g)) gs end
      else strict_loop key (S index) found gs
  end.
Definition strict_group_for_key (s : SecondaryStore) (key : CompletePairKey) : StrictPairMatch :=
  if key_validate key then strict_loop key 0 None (groups s) else NoMatch.
Definition strict_group_for_pair (s : SecondaryStore) (rgb ir : str) : StrictPairMatch :=
  strict_group_for_key s (COrdinary rgb ir).

(** ** derive_group_id *)

(** [str::chars], each as its bytes. *)
Fixpoint chars_from (fuel : nat) (l : str) : list str :=
  match fuel, l with
  | O, _ | _, [] => []
  | S fuel, _ :: _ => let n := Nat.max 1 (utf8_head l).1 in take n l :: chars_from fuel (drop n l)
  end.
Definition chars (l : str) : list str := chars_from (length l) l.

Definition sanitize_char (c : str) : Z :=
  match c with
  | [b] => if is_ascii_alphanumeric b then lower_code b else 45
  | _ => 45
  end.
Fixpoint trim_start (c : Z) (l : str) : str :=
  match l with [] => [] | x :: l' => if bool_decide (x = c) then trim_start c l' else l end.
Definition trim_matches (c : Z) (l : str) : str := reverse (trim_start c (reverse (trim_start c l))).

Definition group_stem (rgb ir : option str) : str :=
  let source := default (str_codes "camera") (match rgb with Some r => Some r | None => ir end) in
  let stem := take (MAX_ID_BYTES - 16) (map sanitize_char (chars source)) in
  let stem := trim_matches 45 stem in
  if bool_decide (stem = []) then str_codes "camera" else stem.

(** The candidates, in the order they are tried: without a suffix, then from
    2 on. *)
Definition first_candidate (stem : str) : str := str_codes "cam-" ++ stem.
Definition candidate (stem : str) (suffix : Z) : str := first_candidate stem ++ 45 :: decimal suffix.

Fixpoint next_free (fuel : nat) (taken : list str) (stem : str) (suffix : Z) (c : str) : option str :=
  if bool_decide (c ∈ taken) then
    match fuel with
    | O => None
    | S fuel => next_free fuel taken stem (suffix + 1) (candidate stem suffix)
    end
  else Some c.

(** [None] would be a loop that does not end, or the panic of [expect]. *)
Definition derive_group_id (existing : SecondaryStore) (rgb ir : option str) : option str :=
  let stem := group_stem rgb ir in
  c ← next_free (length (groups existing)) (map id (groups existing)) stem 2 (first_candidate stem);
  match new_id c with Ok i => Some i | Err _ => None end.
End Store.
Arguments SecondaryProfileScans : clear implicits.
Arguments SecondaryGroup : clear implicits.
Arguments SecondaryStore : clear implicits.

(** ** Files *)

(** What the code reads of a parsed JSON document: [format_version] as a [u64],
    [key_id] and [enc] as strings. *)
Record Doc := MkDoc { d_version : option Z; d_key_id : option str; d_enc : option str }.

(** [serde_json], [base64], [sha2] and [aes_gcm]. *)
Class Codec (FaceScan IrCalibration : Type) := {
  json_doc : bytes -> option Doc;
  json_store : bytes -> option (SecondaryStore FaceScan IrCalibration);
  print_store : SecondaryStore FaceScan IrCalibration -> option bytes;
  print_envelope : Z -> str -> str -> option bytes;
  b64_encode : bytes -> str;
  b64_decode : str -> option bytes;
  sha256_hex : bytes -> str;
  gcm_seal : bytes -> bytes -> bytes -> option bytes;
  gcm_open : bytes -> bytes -> bytes -> option bytes;
}.

(** What is relied on of them: printing and parsing agree, GCM appends a tag
    of 16 bytes and opens what it sealed, and a digest has 64 hex digits. *)
Class CodecLaws FaceScan IrCalibration `{Codec FaceScan IrCalibration} : Prop := {
  store_parses s b : print_store s = Some b -> json_store b = Some s;
  store_doc s b : print_store s = Some b -> exists k e, json_doc b = Some (MkDoc (Some (format_version s)) k e);
  store_nonempty s b : print_store s = Some b -> b <> [];
  envelope_doc v k e b : print_envelope v k e = Some b -> json_doc b = Some (MkDoc (Some v) (Some k) (Some e));
  b64_parses b : b64_decode (b64_encode b) = Some b;
  gcm_opens k n p c : gcm_seal k n p = Some c -> gcm_open k n c = Some p;
  gcm_length k n p c : gcm_seal k n p = Some c -> length c = (length p + 16)%nat;
  digest_length b : length (sha256_hex b) = 64%nat;
}.

Section Files.
Context {FaceScan IrCalibration : Type} `{Codec FaceScan IrCalibration}.

(** [crypto.rs]: [encrypt], with the nonce it draws, and [decrypt]. *)
Definition KEY_LEN : nat := 32.
Definition NONCE_LEN : nat := 12.
Definition TAG_LEN : nat := 16.
Definition encrypt (nonce key plaintext : bytes) : option bytes :=
  if bool_decide (length key = KEY_LEN) then
    ct ← gcm_seal key nonce plaintext; Some (nonce ++ ct)
  else None.
Definition decrypt (key blob : bytes) : option bytes :=
  if bool_decide (length key = KEY_LEN) then
    if bool_decide (length blob < NONCE_LEN + TAG_LEN)%nat then None
    else gcm_open key (take NONCE_LEN blob) (drop NONCE_LEN blob)
  else None.

(** A store's file: plaintext, or the envelope under [key]. *)
Definition envelope_of (nonce key json : bytes) : option bytes :=
  blob ← encrypt nonce key json;
  print_envelope SECONDARY_ENC_ENVELOPE_VERSION (sha256_hex key) (b64_encode blob).
Definition store_bytes (nonce : bytes) (key : option bytes) (s : SecondaryStore FaceScan IrCalibration)
    : result SecondaryStoreError bytes :=
  json ← ok_or Io (print_store s);
  match key with
  | Some key => ok_or Io (envelope_of nonce key json)
  | None => Ok json
  end.

(** [save_secondary_with_key] up to the write. *)
Definition save_bytes (nonce : bytes) (key : option bytes) (s : SecondaryStore FaceScan IrCalibration)
    : result SecondaryStoreError bytes :=
  _ ← validate_store s;
  b ← store_bytes nonce key s;
  if bool_decide (MAX_STORE_BYTES < Z.of_nat (length b)) then Err (Invalid TooLarge) else Ok b.

(** [parse_store_bytes]. *)
Definition open_envelope (doc : Doc) (key : option bytes) : result SecondaryStoreError bytes :=
  key ← ok_or (Invalid KeyUnavailable) key;
  claimed ← ok_or Corrupt (d_key_id doc);
  if bool_decide (claimed = sha256_hex key) then
    enc ← ok_or Corrupt (d_enc doc);
    blob ← ok_or Corrupt (b64_decode enc);
    ok_or Corrupt (decrypt key blob)
  else Err Corrupt.
Definition parse_store_bytes (b : bytes) (key : option bytes)
    : result SecondaryStoreError (SecondaryStore FaceScan IrCalibration) :=
  doc ← ok_or Corrupt (json_doc b);
  declared ← ok_or Corrupt (d_version doc);
  store_bytes ← (if bool_decide (declared = SECONDARY_STORE_VERSION) then Ok b
                 else if bool_decide (declared = SECONDARY_ENC_ENVELOPE_VERSION) then open_envelope doc key
                 else Err (IncompatibleVersion (Z.min declared (2 ^ 32 - 1))));
  s ← ok_or Corrupt (json_store store_bytes);
  _ ← validate_store s;
  Ok s.

(** The loaders, given what reading the file gave ([None]: there is none). *)
Definition bounded_file (b : bytes) : result SecondaryStoreError () :=
  check (bool_decide (Z.of_nat (length b) <= MAX_STORE_BYTES)) (Invalid TooLarge).

Definition load_secondary_with_key (file : result SecondaryStoreError (option bytes)) (key : option bytes)
    : result SecondaryStoreError (option (SecondaryStore FaceScan IrCalibration)) :=
  file ← file;
  match file with
  | None => Ok None
  | Some b => _ ← bounded_file b; s ← parse_store_bytes b key; Ok (Some s)
  end.

(** The store is encrypted. *)
Definition declared_version (b : bytes) : result SecondaryStoreError Z :=
  doc ← ok_or Corrupt (json_doc b); ok_or Corrupt (d_version doc).

(** [load_secondary_resolved] reads the file again to load it. *)
Definition load_secondary_resolved (file again : result SecondaryStoreError (option bytes))
    (key_for : result SecondaryStoreError (option bytes))
    : result SecondaryStoreError (option (SecondaryStore FaceScan IrCalibration)) :=
  file ← file;
  match file with
  | None => Ok None
  | Some b =>
      _ ← bounded_file b;
      declared ← declared_version b;
      if bool_decide (declared = SECONDARY_ENC_ENVELOPE_VERSION) then
        key ← key_for; load_secondary_with_key again key
      else load_secondary_with_key again None
  end.

Definition load_secondary_with_source (file : result SecondaryStoreError (option bytes))
    (template_key : result SecondaryStoreError (option bytes))
    : result SecondaryStoreError (option (SecondaryStore FaceScan IrCalibration)) :=
  file ← file;
  match file with
  | None => Ok None
  | Some b =>
      _ ← bounded_file b;
      declared ← declared_version b;
      if bool_decide (declared = SECONDARY_ENC_ENVELOPE_VERSION) then
        key ← template_key; s ← parse_store_bytes b key; Ok (Some s)
      else s ← parse_store_bytes b None; Ok (Some s)
  end.
End Files.
