(* ===== verification/CameraStoreTheory.v ===== *)
(** * The added-camera store is what it says

    Validation against a specification of a well-formed store, the exact lookup
    of a group, fresh names for new groups, and the store's files. *)

From S2P Require Import Prelude Text Ordering CameraKeys CameraStore.

Lemma check_Ok {E} (ok : bool) (e : E) u : check ok e = Ok u <-> ok = true.
Proof. destruct u, ok; naive_solver. Qed.

Lemma check_bind {E A} (ok : bool) (e : E) (f : () -> result E A) a :
  mbind f (check ok e) = Ok a <-> ok = true /\ f () = Ok a.
Proof. destruct ok; simpl; naive_solver. Qed.

Section Theory.
Context {FaceScan IrCalibration : Type}.
Implicit Types (s : SecondaryStore FaceScan IrCalibration) (g : SecondaryGroup FaceScan IrCalibration).
Implicit Types (p : SecondaryProfileScans FaceScan IrCalibration).

(** ** A well-formed store *)

Definition bounded_text (t : str) : Prop := t <> [] /\ (length t <= 256)%nat.

Record valid_profile p : Prop := {
  vp_name : bounded_text (profile p);
  vp_scans : (1 <= length (scans p) <= 30)%nat;
  vp_calibs : (size (ir_calibs p) <= 4)%nat;
}.
Record valid_group g : Prop := {
  vg_pair : validate (pair g) = true;
  vg_side : rgb_identity (pair g) <> None \/ ir_identity (pair g) <> None;
  vg_sides : forall t, rgb_identity (pair g) = Some t \/ ir_identity (pair g) = Some t -> bounded_text t;
  vg_some : profiles g <> [];
  vg_profiles : Forall valid_profile (profiles g);
  vg_distinct : NoDup (profile <$> profiles g);
}.
Definition scan_count (g : SecondaryGroup FaceScan IrCalibration) : nat :=
  sum_list (length ∘ scans <$> profiles g).
Record valid_store s : Prop := {
  vs_version : format_version s = 1;
  vs_owner : bounded_text (owner s);
  vs_digest : length (primary_snapshot_sha256 s) = 64%nat /\
    Forall (fun b => 48 <= b <= 57 \/ 97 <= b <= 102) (primary_snapshot_sha256 s);
  vs_few : (length (groups s) <= 8)%nat;
  vs_groups : Forall valid_group (groups s);
  vs_scans : (sum_list (scan_count <$> groups s) <= 64)%nat;
  vs_ids : NoDup (id <$> groups s);
}.

Lemma in_bounds_spec t : in_bounds t = true <-> bounded_text t.
Proof. unfold in_bounds, bounded_text, MAX_ID_BYTES. repeat case_bool_decide; naive_solver. Qed.

Lemma check_profiles_Ok seen total ps n :
  check_profiles seen total ps = Ok n <->
  Forall valid_profile ps /\ NoDup (profile <$> ps) /\ (forall q, q ∈ profile <$> ps -> q ∉ seen) /\
  n = (total + sum_list (length ∘ scans <$> ps))%nat.
Proof.
  revert seen total; induction ps as [|p ps IH]; intros seen total; cbn [check_profiles].
  - split; [intros [= <-]|intros (_ & _ & _ & ->)]; [|simpl; f_equal; lia].
    split; [constructor|]. split; [constructor|]. split; [by intros q ?%elem_of_nil|simpl; lia].
  - rewrite !check_bind, IH, in_bounds_spec, !fmap_cons, list.Forall_cons, list.NoDup_cons.
    rewrite negb_true_iff, bool_decide_eq_false, bool_decide_eq_true.
    rewrite andb_true_iff, negb_true_iff, bool_decide_eq_false, bool_decide_eq_true.
    unfold MAX_SCANS_PER_PROFILE_GROUP, MAX_CALIB_SPACES_PER_PROFILE_GROUP.
    setoid_rewrite not_elem_of_cons. setoid_rewrite elem_of_cons. cbn [sum_list].
    assert (Hl : scans p <> [] <-> (1 <= length (scans p))%nat) by (destruct (scans p); simpl; naive_solver lia).
    split.
    + intros (Hb & [Hs Hs'] & Hc & Hn & Hf & Hd & Hseen & ->). split.
      { split; [|done]. split; [done|split; [by apply Hl|done]|done]. }
      split; [split; [|done]|]; [intros Hi; by destruct (Hseen _ Hi)|].
      split; [|simpl; lia]. intros q [->|Hq]; [done|]. by destruct (Hseen q Hq).
    + intros ([[Hb [Hs Hs'] Hc] Hf] & [Hn Hd] & Hseen & ->).
      split; [done|]. split; [split; [by apply Hl|done]|]. split; [done|]. split; [apply Hseen; by left|].
      split; [done|]. split; [done|]. split; [|simpl; lia].
      intros q Hq. split; [by intros ->|]. apply Hseen. by right.
Qed.

Lemma sides_spec b t : t ∈ sides b <-> rgb_identity b = Some t \/ ir_identity b = Some t.
Proof.
  unfold sides. rewrite list_elem_of_omap. split.
  - intros (o & Ho & ->). rewrite !elem_of_cons in Ho. destruct Ho as [Ho|[Ho|Ho%elem_of_nil]]; naive_solver.
  - intros [Hr|Hi]; eexists; (split; [|done]); rewrite !elem_of_cons; naive_solver.
Qed.

Lemma check_group_Ok total g n :
  check_group total g = Ok n <-> valid_group g /\ n = (total + scan_count g)%nat.
Proof.
  unfold check_group. rewrite !check_bind, check_profiles_Ok.
  rewrite negb_true_iff, andb_false_iff, !bool_decide_eq_false, negb_true_iff, bool_decide_eq_false.
  rewrite forallb_forall. setoid_rewrite <- list_elem_of_In. setoid_rewrite sides_spec. setoid_rewrite in_bounds_spec.
  split.
  - intros (Hp & Hs & Hb & Hn & Hf & Hd & _ & ->). split; [|done]. split; try done. intros Hx. by rewrite Hx in Hn.
  - intros [[Hp Hs Hb Hn Hf Hd] ->]. split; [done|]. split; [done|]. split; [done|]. split; [by destruct (profiles g)|].
    split; [done|]. split; [done|]. split; [by intros q _ ?%elem_of_nil|done].
Qed.

Lemma check_groups_Ok total gs n :
  check_groups total gs = Ok n <-> Forall valid_group gs /\ n = (total + sum_list (scan_count <$> gs))%nat.
Proof.
  revert total; induction gs as [|g gs IH]; intros total; cbn [check_groups].
  - split; [intros [= <-]; split; [constructor|simpl; lia]|intros [_ ->]; simpl; f_equal; lia].
  - rewrite list.Forall_cons, fmap_cons. cbn [sum_list]. destruct (check_group total g) as [t|] eqn:Eg; simpl.
    + apply check_group_Ok in Eg as [Hg ->]. rewrite IH. naive_solver lia.
    + split; [done|]. intros [[Hg _] _]. pose proof (proj2 (check_group_Ok total g _) (conj Hg eq_refl)). congruence.
Qed.

Lemma check_ids_Ok seen (gs : list (SecondaryGroup FaceScan IrCalibration)) u :
  check_ids seen gs = Ok u <-> NoDup (id <$> gs) /\ forall i, i ∈ id <$> gs -> i ∉ seen.
Proof.
  revert seen; induction gs as [|g gs IH]; intros seen; cbn [check_ids].
  - destruct u. split; [|done]. intros _. split; [constructor|by intros i ?%elem_of_nil].
  - rewrite check_bind, IH, negb_true_iff, bool_decide_eq_false, fmap_cons, list.NoDup_cons.
    setoid_rewrite not_elem_of_cons. setoid_rewrite elem_of_cons. naive_solver.
Qed.

Lemma lower_hex_all l :
  forallb is_lower_hex l = true <-> Forall (fun b => 48 <= b <= 57 \/ 97 <= b <= 102) l.
Proof.
  rewrite forallb_forall, list.Forall_forall. setoid_rewrite <- list_elem_of_In.
  unfold is_lower_hex, is_ascii_digit. setoid_rewrite orb_true_iff. setoid_rewrite bool_decide_eq_true. done.
Qed.

(** [validate] accepts exactly the well-formed stores. *)
Lemma validate_store_spec s : validate_store s = Ok () <-> valid_store s.
Proof.
  unfold validate_store. rewrite !check_bind, bool_decide_eq_true, in_bounds_spec, andb_true_iff, !bool_decide_eq_true, lower_hex_all.
  split.
  - intros (Hv & Ho & Hd & Hg & H). destruct (check_groups 0 (groups s)) as [n|] eqn:Eg; [|done].
    apply check_groups_Ok in Eg as [Hgs ->]. simpl in H. rewrite check_bind, bool_decide_eq_true, check_ids_Ok in H.
    destruct H as (Hn & Hi & _). by split.
  - intros [Hv Ho Hd Hg Hgs Hn Hi]. do 4 (split; [done|]).
    rewrite (proj2 (check_groups_Ok 0 (groups s) _) (conj Hgs eq_refl)). simpl.
    rewrite check_bind, bool_decide_eq_true, check_ids_Ok. split; [done|]. split; [done|]. by intros i _ ?%elem_of_nil.
Qed.

(** C26. A store is accepted exactly when it is well formed: the supported
    version, a bounded owner, a lowercase SHA-256, at most 8 groups with
    distinct ids, each binding at least one side with bounded identities and
    holding scans of distinct, bounded profiles (1 to 30 each, at most 64 in
    all, at most 4 calibrations each). *)
Theorem store_validation_exact s : validate_store s = Ok () <-> valid_store s.
Proof. apply validate_store_spec. Qed.

(** ** The exact lookup *)

Definition holds_key (key : CompletePairKey) (g : SecondaryGroup FaceScan IrCalibration) : Prop :=
  complete_key (pair g) = Some key.

Lemma strict_loop_Some key index found gs :
  (exists i g, strict_loop key index (Some found) gs = One i g /\ (i, g) = found /\ Forall (fun g => ~ holds_key key g) gs) \/
  (strict_loop key index (Some found) gs = Ambiguous /\ Exists (holds_key key) gs).
Proof.
  revert index; induction gs as [|g gs IH]; intros index; cbn [strict_loop].
  - left. destruct found as [i g]. exists i, g. split; [done|]. split; [done|constructor].
  - case_bool_decide as Hk; [right; split; [done|by left]|].
    destruct (IH (S index)) as [(i & h & He & Hf & Ha)|[He Hx]].
    + left. exists i, h. split; [done|]. split; [done|]. by constructor.
    + right. split; [done|by right].
Qed.

Lemma strict_loop_None key index gs :
  match strict_loop key index None gs with
  | NoMatch => Forall (fun g => ~ holds_key key g) gs
  | One i g => exists n, i = (index + n)%nat /\ gs !! n = Some g /\ holds_key key g /\
      forall m h, gs !! m = Some h -> holds_key key h -> m = n
  | Ambiguous => exists n m g h, n <> m /\ gs !! n = Some g /\ gs !! m = Some h /\ holds_key key g /\ holds_key key h
  end.
Proof.
  revert index; induction gs as [|g gs IH]; intros index; cbn [strict_loop]; [constructor|].
  case_bool_decide as Hk.
  - destruct (strict_loop_Some key (S index) (index, g) gs) as [(i & h & -> & [= -> ->] & Ha)|[-> Hx]].
    + exists 0%nat. split; [lia|]. split; [done|]. split; [done|]. intros [|m] h Hm Hh; [done|].
      rewrite list.Forall_lookup in Ha. by destruct (Ha m h Hm).
    + apply list.Exists_exists in Hx as (h & Hi & Hh). apply list_elem_of_lookup in Hi as [m Hm].
      exists 0%nat, (S m), g, h. done.
  - specialize (IH (S index)). destruct (strict_loop key (S index) None gs) as [|i h|].
    + by constructor.
    + destruct IH as (n & -> & Hn & Hh & Hu). exists (S n). split; [lia|]. split; [done|]. split; [done|].
      intros [|m] h' Hm Hh'; [by simplify_eq/=|]. f_equal. by eapply Hu.
    + destruct IH as (n & m & h & h' & Hne & Hn & Hm & Hh & Hh'). exists (S n), (S m), h, h'. split; [lia|done].
Qed.

Lemma strict_spec s key :
  (forall i g, strict_group_for_key s key = One i g <->
     key_validate key = true /\ groups s !! i = Some g /\ holds_key key g /\
     forall j h, groups s !! j = Some h -> holds_key key h -> j = i) /\
  (strict_group_for_key s key = Ambiguous <->
     key_validate key = true /\
     exists i j g h, i <> j /\ groups s !! i = Some g /\ groups s !! j = Some h /\ holds_key key g /\ holds_key key h).
Proof.
  unfold strict_group_for_key. destruct (key_validate key); [|naive_solver].
  pose proof (strict_loop_None key 0 (groups s)) as L. destruct (strict_loop key 0 None (groups s)) as [|n g|].
  - rewrite list.Forall_lookup in L. split; [intros i g|]; split; try done.
    + intros (_ & Hi & Hh & _). by destruct (L i g Hi).
    + intros (_ & i & j & g & h & _ & Hi & _ & Hh & _). by destruct (L i g Hi).
  - destruct L as (m & -> & Hm & Hg & Hu). split; [intros i h|]; split; try done.
    + intros [= <- <-]. done.
    + intros (_ & Hi & Hh & _). simpl. rewrite (Hu i h Hi Hh) in Hi |- *. simplify_eq. done.
    + intros (_ & i & j & h & h' & Hne & Hi & Hj & Hh & Hh'). destruct Hne. by rewrite (Hu i h Hi Hh), (Hu j h' Hj Hh').
  - split; [intros i g|]; split; try done. intros (_ & Hi & Hh & Hu).
    destruct L as (n & m & h & h' & Hne & Hn & Hm & Hh1 & Hh2). destruct Hne. by rewrite (Hu n h Hn Hh1), (Hu m h' Hm Hh2).
Qed.

(** The exact lookup picks a group only when it alone holds exactly the
    complete key asked for, names its position in the store, and reports an
    ambiguity exactly when two groups hold it; a malformed key matches
    nothing. *)
Theorem strict_lookup_exact s key :
  (forall i g, strict_group_for_key s key = One i g <->
     key_validate key = true /\ groups s !! i = Some g /\ holds_key key g /\
     forall j h, groups s !! j = Some h -> holds_key key h -> j = i) /\
  (strict_group_for_key s key = Ambiguous <->
     key_validate key = true /\
     exists i j g h, i <> j /\ groups s !! i = Some g /\ groups s !! j = Some h /\ holds_key key g /\ holds_key key h).
Proof. apply strict_spec. Qed.

(** ** Names of new groups *)

Lemma candidate_inj stem j k : 0 <= j -> 0 <= k -> candidate stem j = candidate stem k -> j = k.
Proof.
  intros Hj Hk. unfold candidate. intros He. apply app_inv_head in He. injection He as He. by apply decimal_inj.
Qed.

Lemma candidate_not_first stem k : candidate stem k <> first_candidate stem.
Proof.
  unfold candidate. intros He%(f_equal length). rewrite length_app in He. simpl in He. lia.
Qed.

(** The names tried before the one with suffix [suffix]. *)
Definition tried_before (stem : str) (suffix : Z) (c : str) : Prop :=
  c = first_candidate stem \/ exists k, 2 <= k < suffix /\ c = candidate stem k.

Lemma next_free_finds fuel taken stem suffix c tried :
  2 <= suffix -> NoDup tried -> (forall x, x ∈ tried -> x ∈ taken) -> (length taken <= length tried + fuel)%nat ->
  (forall x, x ∈ tried -> tried_before stem suffix x) -> c ∉ tried -> tried_before stem suffix c ->
  exists i, next_free fuel taken stem suffix c = Some i /\ (i ∉ taken) /\ tried_before stem (suffix + Z.of_nat fuel) i.
Proof.
  revert suffix c tried; induction fuel as [|fuel IH]; intros suffix c tried Hs Hnd Hsub Hlen Htr Hc Hb; cbn [next_free];
    (case_bool_decide as Hin;
     [|exists c; split; [done|]; split; [done|];
       destruct Hb as [?|(k & ? & ?)]; [by left|right; exists k; split; [lia|done]]]).
  - exfalso. assert (Hle : (length (c :: tried) <= length taken)%nat); [|simpl in Hle; lia].
    apply submseteq_length, NoDup_submseteq; [by constructor|].
    intros x [->|Hx]%elem_of_cons; [done|by apply Hsub].
  - destruct (IH (suffix + 1) (candidate stem suffix) (c :: tried)) as (i & He & Hi & Ht).
    + lia.
    + by constructor.
    + intros x [->|Hx]%elem_of_cons; [done|by apply Hsub].
    + simpl. lia.
    + intros x [->|Hx]%elem_of_cons; [destruct Hb as [?|(k & ? & ?)]|destruct (Htr x Hx) as [?|(k & ? & ?)]];
        solve [by left|right; exists k; split; [lia|done]].
    + intros [He|Hx]%elem_of_cons.
      * destruct Hb as [->|(k & Hk & ->)]; [by apply candidate_not_first in He|]. apply candidate_inj in He; lia.
      * destruct (Htr _ Hx) as [He|(k & Hk & He)]; [by apply candidate_not_first in He|]. apply candidate_inj in He; lia.
    + right. exists suffix. split; [lia|done].
    + exists i. split; [done|]. split; [done|]. by replace (suffix + Z.of_nat (S fuel)) with (suffix + 1 + Z.of_nat fuel) by lia.
Qed.

Lemma trim_start_length c l : (length (trim_start c l) <= length l)%nat.
Proof. induction l as [|x l IH]; simpl; [done|]. case_bool_decide; simpl; lia. Qed.

Lemma group_stem_length rgb ir : (length (group_stem rgb ir) <= 240)%nat.
Proof.
  unfold group_stem. cbv zeta. case_bool_decide; [apply Nat.leb_le; by vm_compute|].
  unfold trim_matches. rewrite length_reverse. etransitivity; [apply trim_start_length|].
  rewrite length_reverse. etransitivity; [apply trim_start_length|]. rewrite length_take. unfold MAX_ID_BYTES. lia.
Qed.

Lemma tried_length stem c :
  (length stem <= 240)%nat -> tried_before stem 11 c -> bounded_text c.
Proof.
  intros Hl Hc. assert (Hf : length (first_candidate stem) = (4 + length stem)%nat) by (unfold first_candidate; by rewrite length_app).
  destruct Hc as [->|(k & Hk & ->)].
  - split; [|lia]. intros He. by rewrite He in Hf.
  - assert (Hd : (length (decimal k) <= 2)%nat).
    { destruct (decide (k < 10)); [by rewrite decimal_small by lia; simpl; lia|].
      assert (k = 10) as -> by lia. apply Nat.leb_le. by vm_compute. }
    unfold candidate. split; [by destruct (first_candidate stem)|]. rewrite length_app. simpl. lia.
Qed.

(** The search for a new group's name ends, without the panic it names as
    impossible: for a store within its bounds it gives an identifier that is
    not empty, within 256 bytes and no group of the store has, whatever the
    camera's identities are. *)
Theorem group_name_is_fresh s rgb ir :
  (length (groups s) <= 8)%nat ->
  exists i, derive_group_id s rgb ir = Some i /\ ~ (i ∈ id <$> groups s) /\ bounded_text i.
Proof.
  intros Hg. destruct (next_free_finds (length (groups s)) (map id (groups s)) (group_stem rgb ir) 2
    (first_candidate (group_stem rgb ir)) []) as (i & He & Hi & Ht).
  - lia.
  - constructor.
  - by intros x ?%elem_of_nil.
  - rewrite length_map. simpl. lia.
  - by intros x ?%elem_of_nil.
  - by intros ?%elem_of_nil.
  - by left.
  - assert (Hb : bounded_text i).
    { eapply tried_length; [apply (group_stem_length rgb ir)|]. destruct Ht as [?|(k & ? & ?)]; [by left|].
      right. exists k. split; [lia|done]. }
    exists i. unfold derive_group_id. rewrite He. simpl. split; [|done]. unfold new_id.
    destruct Hb as [Hn Hb]. rewrite bool_decide_eq_false_2 by done.
    rewrite bool_decide_eq_false_2 by (unfold MAX_ID_BYTES; lia). done.
Qed.

(** ** Files *)

Context `{CodecLaws FaceScan IrCalibration}.

Lemma decrypt_encrypt nonce key (p c : bytes) :
  length nonce = 12%nat -> encrypt nonce key p = Some c -> decrypt key c = Some p /\ length c = (28 + length p)%nat.
Proof.
  intros Hn. unfold encrypt, decrypt. case_bool_decide; [|done].
  destruct (gcm_seal key nonce p) as [ct|] eqn:Ec; simpl; [|done]. intros [= <-].
  pose proof (gcm_length _ _ _ _ Ec) as Hl. rewrite length_app, Hn, Hl. split; [|lia].
  rewrite bool_decide_eq_false_2 by (unfold NONCE_LEN, TAG_LEN; lia).
  rewrite take_app_length' by done. rewrite drop_app_length' by done. by apply gcm_opens.
Qed.

Lemma parse_envelope nonce key s json b k' :
  length nonce = 12%nat -> print_store s = Some json -> envelope_of nonce key json = Some b ->
  validate_store s = Ok () ->
  parse_store_bytes b k' =
    match k' with
    | None => Err (Invalid KeyUnavailable)
    | Some k' => if bool_decide (sha256_hex key = sha256_hex k') then
                   (if bool_decide (k' = key) then Ok s else parse_store_bytes b (Some k'))
                 else Err Corrupt
    end.
Proof.
  intros Hn Hj He Hv. unfold envelope_of in He.
  destruct (encrypt nonce key json) as [blob|] eqn:Ee; simpl in He; [|done].
  destruct (decrypt_encrypt _ _ _ _ Hn Ee) as [Hd _].
  destruct k' as [k'|]; [case_bool_decide as Hs; [case_bool_decide as Hk; [subst k'|done]|]|];
    unfold parse_store_bytes; rewrite (envelope_doc _ _ _ _ He); simpl.
  - unfold open_envelope. simpl. rewrite bool_decide_eq_true_2 by done. simpl. rewrite b64_parses. simpl.
    rewrite Hd. simpl. rewrite (store_parses _ _ Hj). simpl. by rewrite Hv.
  - unfold open_envelope. simpl. by rewrite bool_decide_eq_false_2.
  - done.
Qed.

Lemma parse_plain s json k :
  print_store s = Some json -> validate_store s = Ok () -> parse_store_bytes json k = Ok s.
Proof.
  intros Hj Hv. unfold parse_store_bytes. destruct (store_doc _ _ Hj) as (k0 & e0 & ->). simpl.
  assert (format_version s = 1) as -> by (by apply validate_store_spec in Hv as []).
  simpl. rewrite (store_parses _ _ Hj). simpl. by rewrite Hv.
Qed.

(** A store that was saved reads back as it was, plaintext or encrypted;
    an encrypted one is refused without the key and under any key with
    another identity. *)
Theorem saved_store_reads_back nonce key s b :
  length nonce = 12%nat -> save_bytes nonce key s = Ok b ->
  load_secondary_with_key (Ok (Some b)) key = Ok (Some s) /\
  (forall k, key = Some k ->
     parse_store_bytes b None = Err (Invalid KeyUnavailable) /\
     forall k', sha256_hex k <> sha256_hex k' -> parse_store_bytes b (Some k') = Err Corrupt).
Proof.
  intros Hn. unfold save_bytes. destruct (validate_store s) as [[]|] eqn:Ev; simpl; [|done].
  unfold store_bytes. destruct (print_store s) as [json|] eqn:Ej; simpl; [|done]. destruct key as [key|]; simpl.
  - destruct (envelope_of nonce key json) as [e|] eqn:Ee; simpl; [|done].
    case_bool_decide as Hl; [done|]. intros [= <-].
    pose proof (parse_envelope _ _ _ _ _ (Some key) Hn Ej Ee Ev) as Hp. cbn beta iota in Hp. rewrite !bool_decide_eq_true_2 in Hp by done.
    unfold load_secondary_with_key, bounded_file. simpl. rewrite (bool_decide_eq_true_2 (_ <= _)) by lia. simpl.
    rewrite Hp. split; [done|]. intros k [= <-]. split.
    + by rewrite (parse_envelope _ _ _ _ _ None Hn Ej Ee Ev).
    + intros k' Hk'. rewrite (parse_envelope _ _ _ _ _ (Some k') Hn Ej Ee Ev). cbn beta iota. by rewrite bool_decide_eq_false_2.
  - case_bool_decide as Hl; [done|]. intros [= <-].
    unfold load_secondary_with_key, bounded_file. simpl. rewrite (bool_decide_eq_true_2 (_ <= _)) by lia. simpl.
    by rewrite (parse_plain s json None Ej Ev).
Qed.

Lemma parsed_valid b key s : parse_store_bytes b key = Ok s -> valid_store s.
Proof.
  unfold parse_store_bytes. destruct (json_doc b) as [doc|]; simpl; [|done].
  destruct (d_version doc) as [v|]; simpl; [|done].
  destruct (if bool_decide (v = SECONDARY_STORE_VERSION) then _ else _) as [b'|]; simpl; [|done].
  destruct (json_store b') as [s'|]; simpl; [|done].
  destruct (validate_store s') as [[]|] eqn:Ev; simpl; [|done]. intros [= <-]. by apply validate_store_spec.
Qed.
End Theory.

(** ** One store and a codec for it *)

Module StoreSample.
Definition hex64 : str := repeat 48 64.
Definition group1 : SecondaryGroup () () :=
  MkGroup (str_codes "cam-1") (Ordinary (Some (str_codes "5986:2113")) None)
    [MkScans (str_codes "default") [(); ()] ∅].
Definition store1 : SecondaryStore () () := MkStore 1 (str_codes "alice") 3 hex64 [group1].
Definition key32 : bytes := repeat Byte.x07 32.
Definition nonce12 : bytes := repeat Byte.x00 12.

#[global] Instance scans_eq_dec : EqDecision (SecondaryProfileScans () ()).
Proof. solve_decision. Defined.
#[global] Instance group_eq_dec : EqDecision (SecondaryGroup () ()).
Proof. solve_decision. Defined.
#[global] Instance store_eq_dec : EqDecision (SecondaryStore () ()).
Proof. solve_decision. Defined.

#[global] Instance codec : Codec () () := {
  json_doc b :=
    match b with
    | Byte.x01 :: _ => Some (MkDoc (Some 1) None None)
    | Byte.x02 :: b => '(v, k, e) ← decode (to_positive b); Some (MkDoc (Some v) (Some k) (Some e))
    | _ => None
    end;
  json_store b := match b with [Byte.x01] => Some store1 | _ => None end;
  print_store s := if decide (s = store1) then Some [Byte.x01] else None;
  print_envelope v k e := Some (Byte.x02 :: of_positive (encode (v, k, e)));
  b64_encode := map byte_val;
  b64_decode t := Some (map byte_of t);
  sha256_hex b := take 64 (map byte_val b ++ repeat 48 64);
  gcm_seal k n p := Some (p ++ repeat Byte.x00 16);
  gcm_open k n c := Some (take (length c - 16) c);
}.
#[global] Instance codec_laws : CodecLaws () ().
Proof.
  split; cbn [json_doc json_store print_store print_envelope b64_encode b64_decode sha256_hex gcm_seal gcm_open codec].
  - intros s b. by case_decide as Hs; [intros [= <-]; subst|].
  - intros s b. case_decide as Hs; [intros [= <-]; subst; by exists None, None|done].
  - intros s b. by case_decide as Hs; [intros [= <-]|].
  - intros v k e b [= <-]. rewrite to_of_positive, decode_encode. done.
  - intros b. f_equal. induction b as [|x b IH]; [done|]. simpl. by rewrite byte_of_val, IH.
  - intros k n p c [= <-]. f_equal. rewrite length_app. simpl. rewrite Nat.add_sub. by apply take_app_length'.
  - intros k n p c [= <-]. by rewrite length_app.
  - intros b. rewrite length_take, length_app. change (length (repeat 48 64)) with 64%nat. lia.
Qed.
End StoreSample.

Lemma group_name_is_fresh_witness :
  exists i, derive_group_id StoreSample.store1 (Some (str_codes "1")) None = Some i /\
    ~ (i ∈ id <$> groups StoreSample.store1) /\ bounded_text i.
Proof. apply (group_name_is_fresh StoreSample.store1). vm_compute. lia. Defined.

Example group_name_suffix :
  derive_group_id StoreSample.store1 (Some (str_codes "1")) None = Some (str_codes "cam-1-2").
Proof. vm_compute. reflexivity. Qed.

Lemma saved_store_reads_back_witness :
  exists b, save_bytes StoreSample.nonce12 (Some StoreSample.key32) StoreSample.store1 = Ok b /\
    load_secondary_with_key (Ok (Some b)) (Some StoreSample.key32) = Ok (Some StoreSample.store1).
Proof.
  eexists. split; [vm_compute; reflexivity|].
  apply (saved_store_reads_back StoreSample.nonce12 (Some StoreSample.key32) StoreSample.store1).
  - reflexivity.
  - vm_compute. reflexivity.
Defined.
