(* ===== verification/CommitJournal.v ===== *)
(** * Publishing the added-camera store

    [irlume-core/src/multi_camera/commit.rs]: the intent journal, the
    publication of a new store through it, the recovery that completes an
    interrupted publication, and the check made before a grant.

    Files, power loss and failing calls are those of [Replacement]: the store
    and its journal share a directory, with a staging file each.  A staging
    file's name carries the process id, so a later process starts without
    them ([restart]). *)

From S2P Require Import Prelude Text Ordering CameraKeys CameraStore Replacement.

Inductive CommitError := CStore (e : SecondaryStoreError) | CIo.
Inductive CommitResolution := Clean | Completed.

Record CommitIntent := MkIntent {
  intent_version : Z;
  intent_generation : Z;
  intent_primary : str;
  new_secondary_b64 : str;
}.
Definition INTENT_FORMAT_VERSION : Z := 1.

Class IntentCodec := { print_intent : CommitIntent -> option bytes; json_intent : bytes -> option CommitIntent }.
Class IntentLaws `{IntentCodec} : Prop := {
  intent_parses i b : print_intent i = Some b -> json_intent b = Some i;
}.

Definition staging (p : path) : path :=
  match p with Store => StoreStaging | Journal => JournalStaging | p => p end.

Definition fsync_dir (d : dir) : M () := _ ← sys; _ ← sys; modify (synced d).

(** [durable_write]: [create_new] refuses a staging file that is there. *)
Definition durable_write (p : path) (b : bytes) : M () :=
  _ ← sys;
  old ← look (staging p);
  match old with
  | Some _ => error
  | None =>
      _ ← modify (set_file (staging p) (Some []));
      _ ← sys;
      _ ← modify (set_file (staging p) (Some b));
      _ ← sys;
      renamed ← try sys;
      match renamed with
      | None => _ ← try (remove_file (staging p)); error
      | Some _ =>
          _ ← modify (fun s => set_file p (Some b) (set_file (staging p) None s));
          fsync_dir (parent p)
      end
  end.

(** [fs::remove_file] and the sync of its directory; no file is an error. *)
Definition remove_synced (p : path) : M () :=
  removed ← remove_file p;
  if removed : bool then fsync_dir (parent p) else error.

(** A new process: its staging names are its own. *)
Definition restart (s : fs) : fs :=
  MkFs (upd StoreStaging None (upd JournalStaging None (vis s)))
       (upd StoreStaging [] (upd JournalStaging [] (maybe s))) (script s).

Section Commit.
Context {FaceScan IrCalibration : Type} `{Codec FaceScan IrCalibration} `{IntentCodec}.
Abbreviation StoreT := (SecondaryStore FaceScan IrCalibration).

Record PreparedSecondaryCommit := MkPrepared {
  p_owner : str;
  p_bytes : bytes;
  p_journal : bytes;
  p_key_context : option str;
}.

(** [prepare_with_intent_key]. *)
Definition prepare_with_intent_key (nonce : bytes) (new_store : StoreT) (primary : str) (key : option bytes)
    : result CommitError PreparedSecondaryCommit :=
  match validate_store new_store with
  | Err e => Err (CStore e)
  | Ok _ =>
      if negb (bool_decide (primary_snapshot_sha256 new_store = primary)) then Err (CStore (Invalid BindingDisagrees))
      else
        match store_bytes nonce key new_store with
        | Err _ => Err CIo
        | Ok b =>
            journal ← ok_or CIo (print_intent
              (MkIntent INTENT_FORMAT_VERSION (generation new_store) primary (b64_encode b)));
            Ok (MkPrepared (owner new_store) b journal None)
        end
  end.

Definition lift {E A} (r : result E A) : M A := match r with Ok a => mret a | Err _ => error end.

(** [prepare_with_key_context], under the account's lock: the sealed key's
    envelope is kept by its digest. *)
Definition prepare_with_key_context (nonce : bytes) (new_store : StoreT) (primary : str) (key : bytes)
    : M PreparedSecondaryCommit :=
  prepared ← lift (prepare_with_intent_key nonce new_store primary (Some key));
  envelope ← read_file Key;
  match envelope with
  | None => error
  | Some e => mret (MkPrepared (p_owner prepared) (p_bytes prepared) (p_journal prepared) (Some (sha256_hex e)))
  end.

(** [PreparedSecondaryCommit::publish]. *)
Definition publish (c : PreparedSecondaryCommit) : M () :=
  _ ← durable_write Journal (p_journal c);
  _ ← durable_write Store (p_bytes c);
  remove_synced Journal.

(** [with_account_publication] with the publisher run in it: the account's
    lock is taken, which settles an interrupted replacement, and the key's
    envelope must be the one the payload was prepared under. *)
Definition single_component (user : str) : bool :=
  negb (bool_decide (user = [])) && negb (bool_decide (user = [46])) && negb (bool_decide (user = [46; 46]))
  && negb (bool_decide (47 ∈ user)) && negb (bool_decide (0 ∈ user)).
Definition with_account_publication (settle : M ()) (c : PreparedSecondaryCommit) (user stem : str) : M () :=
  if negb (single_component user) || negb (bool_decide (p_owner c = user)) || negb (bool_decide (stem = user)) then error else
  _ ← settle;
  match p_key_context c with
  | None => publish c
  | Some digest =>
      envelope ← try (read_file Key);
      if bool_decide (sha256_hex <$> mjoin envelope = Some digest) then publish c else error
  end.

(** The structure [resolve_commit] asks of a journal's payload. *)
Definition payload_ok (i : CommitIntent) (b : bytes) : bool :=
  match json_doc b with
  | None => false
  | Some doc =>
      match d_version doc with
      | None => false
      | Some declared =>
          if bool_decide (declared = SECONDARY_ENC_ENVELOPE_VERSION) then
            match d_key_id doc, d_enc doc with
            | Some key_id, Some enc =>
                negb (bool_decide (key_id = [])) &&
                match b64_decode enc with Some blob => bool_decide (12 + 16 < length blob)%nat | None => false end
            | _, _ => false
            end
          else
            match json_store b with
            | None => false
            | Some store =>
                is_ok (validate_store store) && bool_decide (generation store = intent_generation i)
                && bool_decide (primary_snapshot_sha256 store = intent_primary i)
            end
      end
  end.

(** The payload a journal publishes, if recovery accepts it. *)
Definition journal_payload (journal : bytes) : option bytes :=
  i ← json_intent journal;
  if bool_decide (intent_version i = INTENT_FORMAT_VERSION) then
    b ← b64_decode (new_secondary_b64 i);
    if payload_ok i b then Some b else None
  else None.

(** [resolve_commit]. *)
Definition resolve_commit : M CommitResolution :=
  journal ← read_file Journal;
  match journal with
  | None => mret Clean
  | Some journal =>
      match journal_payload journal with
      | None => error
      | Some b =>
          _ ← durable_write Store b;
          _ ← remove_synced Journal;
          mret Completed
      end
  end.

(** ** The grant boundary *)

Record GrantContext := MkGrant { secondary_generation : Z; g_primary : str; group_id : str }.
Inductive RefuseReason :=
  | StoreAbsent | GenerationChanged | PrimaryMissing | PrimaryChanged | ActivationStale | GroupGone | PairChanged | SplitNeedsPair.
Inductive GrantDecision := Grant | Refuse (why : RefuseReason).

Definition is_split (b : PairBinding) : bool := match b with Split _ => true | Ordinary _ _ => false end.

(** [grant_boundary_check_impl]. *)
Definition grant_boundary_check (pinned : GrantContext) (pair_ : option PairBinding) (primary : option bytes)
    (secondary : option StoreT) : GrantDecision :=
  match secondary with
  | None => Refuse StoreAbsent
  | Some s =>
      if negb (bool_decide (generation s = secondary_generation pinned)) then Refuse GenerationChanged else
      match primary with
      | None => Refuse PrimaryMissing
      | Some b =>
          if negb (bool_decide (sha256_hex b = g_primary pinned)) then Refuse PrimaryChanged else
          match activation_against sha256_hex s (Some b) with
          | InactivePrimaryChanged => Refuse ActivationStale
          | Active =>
              match find (fun g => bool_decide (id g = group_id pinned)) (groups s) with
              | None => Refuse GroupGone
              | Some g =>
                  match pair_ with
                  | Some p => if negb (validate p) || negb (bool_decide (pair g = p)) then Refuse PairChanged else Grant
                  | None => if is_split (pair g) then Refuse SplitNeedsPair else Grant
                  end
              end
          end
      end
  end.

(** [grant_boundary_now_impl]: both stores are read at the boundary. *)
Definition grant_boundary_now (template_key : result SecondaryStoreError (option bytes)) (pinned : GrantContext)
    (pair_ : option PairBinding) : M GrantDecision :=
  _ ← resolve_commit;
  file ← read_file Store;
  secondary ← lift (load_secondary_with_source (Ok file) template_key);
  match secondary with
  | None => mret (grant_boundary_check pinned pair_ None None)
  | Some store =>
      primary ← try (read_file Enrollment);
      mret (grant_boundary_check pinned pair_ (mjoin primary) (Some store))
  end.
End Commit.
