(* ===== verification/CommitTheory.v ===== *)
(** * A publication is all or nothing

    The added-camera store and its journal through every failure, power loss
    and recovery of [CommitJournal], with the program logic of
    [ReplacementTheory]. *)

From S2P Require Import Prelude Text Ordering CameraKeys CameraStore CameraStoreTheory Replacement ReplacementTheory CommitJournal.

(** ** The durable write *)

Section Durable.
Context {c : Prop}.

Lemma t_fsync d (P F X : fs -> Prop) (Q : () -> fs -> Prop) :
  stable P -> (forall s, P s -> F s) -> (forall s, P s -> X s) -> (forall s, P s -> Q () (synced d s)) ->
  triple c P (fsync_dir d) Q F X.
Proof.
  intros HP HF HX HQ. unfold fsync_dir. do 2 (eapply t_bind; [by apply t_sys|intros ?]). by apply t_modify.
Qed.

(** Nothing seen ([P]), renamed in ([V]), or durable ([D]); the staging file is
    free when every call is to succeed. *)
Lemma t_durable p b (P V D F X : fs -> Prop) :
  stable P -> stable V -> (forall s, P s -> F s) -> (forall s, P s -> X s) -> (forall s, V s -> F s) -> (forall s, V s -> X s) ->
  (forall s v, P s -> P (set_file (staging p) v s)) ->
  (forall s, P s -> V (set_file p (Some b) (set_file (staging p) None s))) ->
  (forall s, V s -> D (synced (parent p) s)) ->
  triple c (fun s => P s /\ (c -> vis s (staging p) = None)) (durable_write p b) (fun _ => D) F X.
Proof.
  intros HP HV HPF HPX HVF HVX Hst Hset Hsync. unfold durable_write.
  eapply t_bind; [apply t_sys; [intros s sc [? ?]; split; [by apply HP|done]|naive_solver..]|]. intros ?.
  eapply t_bind; [apply t_look|]. intros [old|].
  { apply t_error. intros s [[Hs Hc] Hv]. split; [by apply HPF|]. intros Hcc. by rewrite Hc in Hv. }
  apply t_pre with (P' := P); [naive_solver|].
  eapply t_bind with (R := fun _ => P); [apply t_modify; [done|intros s Hs; by apply Hst]|]. intros ?.
  eapply t_bind; [by apply t_sys|]. intros ?.
  eapply t_bind with (R := fun _ => P); [apply t_modify; [done|intros s Hs; by apply Hst]|]. intros ?.
  eapply t_bind; [by apply t_sys|]. intros ?.
  eapply t_bind with (R := fun r s => P s /\ (r = None -> ~ c)).
  { apply (t_try _ _ _ _ P); [|naive_solver]. eapply t_post; [by apply t_sys|]. naive_solver. }
  intros [u|].
  - eapply t_bind with (R := fun _ => V); [apply t_modify; [done|]; intros s [Hs _]; by apply Hset|]. intros ?.
    by apply t_fsync.
  - eapply t_bind with (R := fun _ s => P s /\ ~ c); [|intros ?; apply t_error; naive_solver].
    apply (t_try _ _ _ _ P); [|naive_solver].
    apply t_remove; [intros s sc [? ?]; split; [by apply HP|done]|naive_solver..|].
    intros s [Hs Hn] _. split; [by apply Hst|by apply Hn].
Qed.

Lemma t_remove_synced p (P V D F X : fs -> Prop) :
  stable P -> stable V -> (forall s, P s -> F s) -> (forall s, P s -> X s) -> (forall s, V s -> F s) -> (forall s, V s -> X s) ->
  (forall s, P s -> vis s p <> None) ->
  (forall s, P s -> V (set_file p None s)) -> (forall s, V s -> D (synced (parent p) s)) ->
  triple c P (remove_synced p) (fun _ => D) F X.
Proof.
  intros HP HV HPF HPX HVF HVX Hsome Hset Hsync. unfold remove_synced.
  eapply t_bind with (R := fun r s => r = true /\ V s).
  - apply t_remove; [done|done|done| |].
    + intros s Hs Hn. by destruct (Hsome s Hs).
    + intros s Hs _. split; [done|by apply Hset].
  - intros [|]; [|by intros s [? _]]. eapply t_pre; [|by apply (t_fsync _ V)]. by intros s [_ ?].
Qed.
End Durable.

(** ** The situations of a publication *)

Section Publication.
Context {FaceScan IrCalibration : Type} `{Codec FaceScan IrCalibration} `{IntentCodec}.
(** The files before, the journal, and the new store's file, which recovery
    takes from the journal. *)
Context (old : path -> option bytes) (j b : bytes) (payload : journal_payload j = Some b).

Definition frame (p : path) (v : option bytes) (journal store : Prop) : Prop :=
  match p with
  | Journal => journal
  | Store => store
  | StoreStaging | JournalStaging => True
  | _ => v = old p
  end.
(** No store is written yet; the journal may be there. *)
Definition before (p : path) (v : option bytes) : Prop := frame p v (v = None \/ v = Some j) (v = old Store).
(** The journal is durable. *)
Definition intended (p : path) (v : option bytes) : Prop := frame p v (v = Some j) (v = old Store \/ v = Some b).
(** Either store, with or without the journal. *)
Definition mixed (p : path) (v : option bytes) : Prop :=
  frame p v (v = None \/ v = Some j) (v = old Store \/ v = Some b).
(** Both are durable. *)
Definition stored (p : path) (v : option bytes) : Prop := frame p v (v = Some j) (v = Some b).
(** The store is durable; the journal may come back. *)
Definition done_ (p : path) (v : option bytes) : Prop := frame p v (v = None \/ v = Some j) (v = Some b).

Definition midway (s : fs) : Prop := within mixed s /\ vis s Journal = Some j.
Definition pub_inv (s : fs) : Prop := within before s \/ midway s \/ within done_ s.
(** Once the journal is durable the publication goes forward. *)
Definition committed (s : fs) : Prop := within intended s \/ within done_ s.

Local Ltac by_path := apply within_mono; intros [] ?; simpl; unfold frame; tauto.

Lemma before_mixed s : within before s -> within mixed s.
Proof. by_path. Qed.
Lemma intended_mixed s : within intended s -> within mixed s.
Proof. by_path. Qed.
Lemma done_mixed s : within done_ s -> within mixed s.
Proof. by_path. Qed.
Lemma stored_intended s : within stored s -> within intended s.
Proof. by_path. Qed.
Lemma stored_done s : within stored s -> within done_ s.
Proof. by_path. Qed.

Lemma intended_midway s : within intended s -> midway s.
Proof. intros Hs. split; [by apply intended_mixed|]. apply (within_vis _ _ Journal Hs). Qed.

Lemma committed_inv s : committed s -> pub_inv s.
Proof. intros [Hs|Hs]; right; [left; by apply intended_midway|by right]. Qed.

Lemma inv_visible s : pub_inv s -> vis s Journal = Some j -> midway s.
Proof.
  intros [Hs|[Hs|Hs]] Hv; [split; [by apply before_mixed|done]|done|split; [by apply done_mixed|done]].
Qed.

Lemma inv_no_journal s : pub_inv s -> vis s Journal = None -> within before s \/ within done_ s.
Proof. intros [Hs|[[_ Hs]|Hs]] Hv; [by left|congruence|by right]. Qed.

Lemma inv_journal s : pub_inv s -> vis s Journal = None \/ vis s Journal = Some j.
Proof.
  intros [Hs|[[_ Hs]|Hs]]; [apply (within_vis _ _ Journal Hs)|by right|apply (within_vis _ _ Journal Hs)].
Qed.

(** After a power loss each file is one of what it could be. *)
Lemma loss_single A s s' p v : within A s -> power_loss s s' -> v ∈ poss s' p -> v = vis s' p /\ A p v.
Proof.
  intros Hs Hl Hv. destruct (Hl p) as [Hp Hm]. unfold poss in Hv. rewrite Hm in Hv.
  apply list_elem_of_singleton in Hv as ->. split; [done|by apply Hs].
Qed.

Lemma mixed_settles s :
  within mixed s -> (forall p v, v ∈ poss s p -> v = vis s p) -> pub_inv s.
Proof.
  intros Hs Hone. pose proof (within_vis _ _ Journal Hs) as HJ. pose proof (within_vis _ _ Store Hs) as HS. simpl in HJ, HS.
  destruct HJ as [HJ|HJ]; [|right; left; by split].
  destruct HS as [HS|HS].
  - left. intros p v Hv. pose proof (Hs p v Hv) as Hm. specialize (Hone p v Hv). subst v. destruct p; simpl in *; auto.
  - right. right. intros p v Hv. pose proof (Hs p v Hv) as Hm. specialize (Hone p v Hv). subst v. destruct p; simpl in *; auto.
Qed.

Lemma pub_inv_loss s s' : pub_inv s -> power_loss s s' -> pub_inv s'.
Proof.
  intros Hi Hl. assert (Hm : within mixed s).
  { destruct Hi as [Hs|[[Hs _]|Hs]]; [by apply before_mixed|done|by apply done_mixed]. }
  apply mixed_settles; [by eapply within_loss|]. intros p v Hv. by eapply loss_single in Hv as [-> _].
Qed.

Lemma committed_loss s s' : committed s -> power_loss s s' -> committed s'.
Proof. intros [Hs|Hs] Hl; [left|right]; by eapply within_loss. Qed.

Lemma restart_within A s : (forall v, A StoreStaging v) -> (forall v, A JournalStaging v) -> within A s -> within A (restart s).
Proof.
  intros H1 H2 Hs p v Hv. destruct p; try done; apply Hs; exact Hv.
Qed.

Lemma restart_inv s : pub_inv s -> pub_inv (restart s).
Proof.
  intros [Hs|[[Hs Hv]|Hs]]; [left|right; left; split; [|done]|right; right]; by apply restart_within.
Qed.

Lemma restart_committed s : committed s -> committed (restart s).
Proof. intros [Hs|Hs]; [left|right]; by apply restart_within. Qed.

Context {c : Prop}.

(** The store's directory is synced with the new store in it. *)
Lemma sync_stored s :
  within mixed s -> vis s Journal = Some j -> vis s Store = Some b -> within stored (synced Cameras s).
Proof.
  intros Hs HJ HS. eapply within_sync; [exact Hs|..].
  - intros p Hp. by destruct p.
  - intros p v Hp Hm. by destruct p.
Qed.

Lemma set_staging A q v s :
  q = StoreStaging \/ q = JournalStaging -> (forall v, A q v) -> within A s -> within A (set_file q v s).
Proof. intros _ HA Hs. by apply within_set. Qed.

Definition over (s : fs) : Prop := within done_ s /\ vis s Journal = None.

(** Removing the journal once both are durable. *)
Lemma t_drop_journal (I : fs -> Prop) :
  (forall s, within done_ s -> I s) ->
  triple c (within stored) (remove_synced Journal) (fun _ => over) I I.
Proof.
  intros HI. apply (t_remove_synced _ (within stored) over).
  - apply within_stable.
  - by intros s sc [? ?].
  - intros s Hs. by apply HI, stored_done.
  - intros s Hs. by apply HI, stored_done.
  - intros s [Hs _]. by apply HI.
  - intros s [Hs _]. by apply HI.
  - intros s Hs. by rewrite (within_vis _ _ Journal Hs).
  - intros s Hs. split; [|done]. apply within_set; [by left|by apply stored_done].
  - intros s [Hs Hv]. split; [by apply within_sync_same|done].
Qed.

(** Completing a publication whose journal is seen. *)
Lemma t_store (P0 I : fs -> Prop) :
  stable P0 -> (forall s, P0 s -> within mixed s) -> (forall s, P0 s -> vis s Journal = Some j) ->
  (forall s v, P0 s -> P0 (set_file StoreStaging v s)) -> (forall s, P0 s -> P0 (set_file Store (Some b) s)) ->
  (forall s, P0 s -> I s) ->
  triple c (fun s => P0 s /\ (c -> vis s StoreStaging = None)) (durable_write Store b) (fun _ => within stored) I I.
Proof.
  intros Hst Hm HJ Hset HS HI.
  apply (t_durable Store b P0 (fun s => P0 s /\ vis s Store = Some b)).
  - done.
  - intros s sc [? ?]. split; [by apply Hst|done].
  - done.
  - done.
  - naive_solver.
  - naive_solver.
  - done.
  - intros s Hs. split; [|done]. by apply HS, Hset.
  - intros s [Hs Hv]. apply sync_stored; [by apply Hm|by apply HJ|done].
Qed.

Lemma midway_staging s v : midway s -> midway (set_file StoreStaging v s).
Proof. intros [Hs Hv]. split; [by apply within_set|done]. Qed.
Lemma midway_store s : midway s -> midway (set_file Store (Some b) s).
Proof. intros [Hs Hv]. split; [apply within_set; [by right|done]|done]. Qed.

Definition forward (s : fs) : Prop := committed s /\ vis s Journal = Some j.
Lemma forward_staging s v : forward s -> forward (set_file StoreStaging v s).
Proof. intros [[Hs|Hs] Hv]; (split; [|done]); [left|right]; by apply within_set. Qed.
Lemma forward_store s : forward s -> forward (set_file Store (Some b) s).
Proof. intros [[Hs|Hs] Hv]; (split; [|done]); [left|right]; (apply within_set; [|done]); [by right|done]. Qed.

(** [resolve_commit], from the situations [I] a journal is seen in. *)
Lemma t_resolve (I P0 : fs -> Prop) :
  stable I -> (forall s, I s -> pub_inv s) -> (forall s, I s -> vis s Journal = Some j -> P0 s) ->
  stable P0 -> (forall s, P0 s -> within mixed s) -> (forall s, P0 s -> vis s Journal = Some j) ->
  (forall s v, P0 s -> P0 (set_file StoreStaging v s)) -> (forall s, P0 s -> P0 (set_file Store (Some b) s)) ->
  (forall s, P0 s -> I s) -> (forall s, within done_ s -> I s) ->
  triple c (fun s => I s /\ (c -> vis s StoreStaging = None)) resolve_commit
    (fun r s => (r = Clean /\ I s /\ vis s Journal = None) \/ (r = Completed /\ over s)) I I.
Proof.
  intros HI Hinv Hseen Hst Hm HJ Hset HS HPI Hdone. unfold resolve_commit.
  eapply t_bind.
  { apply (t_read Journal (fun s => I s /\ (c -> vis s StoreStaging = None)));
      [intros s sc [? ?]; split; [by apply HI|done]|by intros s [? _]..]. }
  intros [j'|].
  - apply t_pre with (P' := fun s => (P0 s /\ (c -> vis s StoreStaging = None)) /\ j' = j).
    { intros s [[Hs Hc] Hv]. destruct (inv_journal s (Hinv s Hs)) as [Hn|Hn]; [congruence|].
      split; [split; [by apply Hseen|done]|congruence]. }
    intros s [Hs ->]. revert s Hs. rewrite payload.
    apply (t_bind (c:=c)) with (R := fun _ => within stored); [by apply t_store|]. intros ?.
    eapply t_bind; [by apply t_drop_journal|]. intros ?. apply t_ret. by right.
  - apply t_ret. intros s [[Hs _] Hv]. left. done.
Qed.

Lemma t_resolve_inv :
  triple c (fun s => pub_inv s /\ (c -> vis s StoreStaging = None)) resolve_commit
    (fun _ s => (within before s \/ within done_ s) /\ vis s Journal = None) pub_inv pub_inv.
Proof.
  eapply t_post; [apply (t_resolve pub_inv midway)|].
  - by intros s sc Hs.
  - done.
  - apply inv_visible.
  - by intros s sc Hs.
  - by intros s [? _].
  - by intros s [_ ?].
  - apply midway_staging.
  - apply midway_store.
  - intros s Hs. by right; left.
  - intros s Hs. by right; right.
  - intros r s [(_ & Hs & Hv)|(_ & Hs & Hv)]; (split; [|done]); [by apply inv_no_journal|by right].
Qed.

Lemma t_resolve_committed :
  triple c (fun s => committed s /\ (c -> vis s StoreStaging = None)) resolve_commit (fun _ => over) committed committed.
Proof.
  eapply t_post; [apply (t_resolve committed forward)|].
  - by intros s sc Hs.
  - apply committed_inv.
  - by intros s Hs Hv.
  - by intros s sc Hs.
  - intros s [[Hs|Hs] _]; [by apply intended_mixed|by apply done_mixed].
  - by intros s [_ ?].
  - apply forward_staging.
  - apply forward_store.
  - by intros s [? _].
  - intros s Hs. by right.
  - intros r s [(_ & [Hs|Hs] & Hv)|(_ & Hs)]; [|by split|done].
    rewrite (within_vis _ _ Journal Hs) in Hv. done.
Qed.

(** ** The publication *)

Definition unpublished (p : path) (v : option bytes) : Prop := frame p v (v = None) (v = old Store).

Lemma unpublished_before s : within unpublished s -> within before s.
Proof. by_path. Qed.

Definition staging_free (s : fs) : Prop := vis s StoreStaging = None /\ vis s JournalStaging = None.

(** Writing the journal: from its sync on the publication goes forward. *)
Lemma t_journal :
  triple c (fun s => within unpublished s /\ (c -> staging_free s)) (durable_write Journal j)
    (fun _ s => within intended s /\ (c -> vis s StoreStaging = None)) (within before) (within before).
Proof.
  eapply t_pre; [|apply (t_durable Journal j (fun s => within before s /\ (c -> vis s StoreStaging = None))
    (fun s => (within before s /\ (c -> vis s StoreStaging = None)) /\ vis s Journal = Some j))].
  - intros s [Hs Hf]. unfold staging_free in Hf. split; [|naive_solver]. split; [by apply unpublished_before|naive_solver].
  - by intros s sc [? ?].
  - by intros s sc [[? ?] ?].
  - naive_solver.
  - naive_solver.
  - naive_solver.
  - naive_solver.
  - intros s v [Hs Hv]. split; [by apply within_set|done].
  - intros s [Hs Hv]. split; [split; [|done]|done]. apply within_set; [by right|]. by apply within_set.
  - intros s [[Hs Hc] Hv]. split; [|done]. eapply within_sync; [exact Hs|..].
    + intros p Hp. pose proof (within_vis _ _ p Hs) as Hw. destruct p; simpl in *; try done. by left.
    + intros p v Hp Hw. by destruct p.
Qed.

Lemma t_publish_rest :
  triple c (fun s => within intended s /\ (c -> vis s StoreStaging = None))
    (_ ← durable_write Store b; remove_synced Journal) (fun _ => over) committed committed.
Proof.
  eapply t_bind; [apply (t_store (within intended) committed)|].
  - apply within_stable.
  - apply intended_mixed.
  - intros s Hs. apply (within_vis _ _ Journal Hs).
  - intros s v Hs. by apply within_set.
  - intros s Hs. apply within_set; [by right|done].
  - intros s Hs. by left.
  - intros ?. apply t_drop_journal. intros s Hs. by right.
Qed.

Lemma t_publication o k :
  triple c (fun s => within unpublished s /\ (c -> staging_free s)) (publish (MkPrepared o b j k)) (fun _ => over) pub_inv pub_inv.
Proof.
  unfold publish. eapply t_bind; [eapply t_exn; [apply t_journal|intros s Hs; by left..]|]. intros ?.
  eapply t_exn; [apply t_publish_rest|apply committed_inv..].
Qed.
End Publication.
