(* ===== verification/CommitClaims.v ===== *)
(** * What the publication of the added-camera store promises

    The theorems on [commit.rs]: the store through every interruption of a
    publication, what recovery needs to complete one, and what a grant
    needs. *)

From S2P Require Import Prelude Text Ordering CameraKeys CameraStore CameraStoreTheory Replacement ReplacementTheory CommitJournal CommitTheory.

Section Claims.
Context {FaceScan IrCalibration : Type} `{Codec FaceScan IrCalibration} `{IntentCodec}.
Implicit Types (st : SecondaryStore FaceScan IrCalibration).

(** ** The journal of a prepared publication *)

Lemma payload_of_store nonce key st b i :
  CodecLaws FaceScan IrCalibration -> length nonce = 12%nat -> validate_store st = Ok () ->
  store_bytes nonce key st = Ok b -> intent_generation i = generation st ->
  intent_primary i = primary_snapshot_sha256 st -> payload_ok i b = true.
Proof.
  intros Hlaws Hn Hv Hb Hg Hp. unfold store_bytes in Hb.
  destruct (print_store st) as [json|] eqn:Ej; simpl in Hb; [|done]. unfold payload_ok. destruct key as [key|].
  - unfold envelope_of in Hb. destruct (encrypt nonce key json) as [blob|] eqn:Ee; simpl in Hb; [|done].
    destruct (print_envelope _ _ _) as [e|] eqn:Epe; simpl in Hb; [|done]. injection Hb as <-.
    rewrite (envelope_doc _ _ _ _ Epe). simpl. rewrite b64_parses.
    destruct (decrypt_encrypt _ _ _ _ Hn Ee) as [_ ->].
    pose proof (store_nonempty _ _ Ej). pose proof (digest_length key).
    rewrite bool_decide_eq_false_2 by (intros Hx; by rewrite Hx in *).
    rewrite bool_decide_eq_true_2; [done|]. destruct json; [done|simpl; lia].
  - injection Hb as <-. destruct (store_doc _ _ Ej) as (k0 & e0 & ->). simpl.
    assert (format_version st = 1) as -> by (by apply validate_store_spec in Hv as []).
    simpl. rewrite (store_parses _ _ Ej), Hv, Hg, Hp. simpl. by rewrite !bool_decide_eq_true_2.
Qed.

(** Recovery takes from the journal of a prepared publication exactly the
    bytes it was to publish. *)
Lemma prepared_payload nonce key st primary c :
  CodecLaws FaceScan IrCalibration -> IntentLaws -> length nonce = 12%nat ->
  prepare_with_intent_key nonce st primary key = Ok c -> journal_payload (p_journal c) = Some (p_bytes c).
Proof.
  intros Hlaws Hil Hn. unfold prepare_with_intent_key. destruct (validate_store st) as [[]|] eqn:Ev; [|done].
  case_bool_decide as Hp; simpl; [|done]. destruct (store_bytes nonce key st) as [b|] eqn:Eb; [|done].
  destruct (print_intent _) as [j|] eqn:Ej; simpl; [|done]. intros [= <-]. simpl.
  unfold journal_payload. rewrite (intent_parses _ _ Ej). simpl. rewrite b64_parses. simpl.
  rewrite (payload_of_store nonce key st b (MkIntent INTENT_FORMAT_VERSION (generation st) primary (b64_encode b))
    Hlaws Hn Ev Eb eq_refl (eq_sym Hp)). done.
Qed.

(** ** Every interruption *)

(** What may follow: faults still to come, power losses, new processes, and
    attempts to recover. *)
Inductive later : fs -> fs -> Prop :=
  | later_refl s : later s s
  | later_faults s s' sc : later s s' -> later s (MkFs (vis s') (maybe s') sc)
  | later_loss s s' s'' : later s s' -> power_loss s' s'' -> later s s''
  | later_restart s s' : later s s' -> later s (restart s')
  | later_resolve s s' : later s s' -> later s (snd (resolve_commit s')).

(** The store is [v], now and after a power loss, and nothing else changed. *)
Definition store_is (old : path -> option bytes) (v : option bytes) (s : fs) : Prop :=
  (forall w, w ∈ poss s Store -> w = v) /\
  forall p w, p = Enrollment \/ p = Key \/ p = Recovery \/ p = Replacing -> w ∈ poss s p -> w = old p.

Section OnePublication.
Context (old : path -> option bytes) (c : PreparedSecondaryCommit).
Context (payload : journal_payload (p_journal c) = Some (p_bytes c)).

Lemma later_pub_inv s s' : later s s' -> pub_inv old (p_journal c) (p_bytes c) s -> pub_inv old (p_journal c) (p_bytes c) s'.
Proof.
  induction 1 as [|s s' sc _ IH|s s' s'' _ IH Hl|s s' _ IH|s s' _ IH]; intros Hi; [done|by apply IH| | |].
  - eapply pub_inv_loss; [by apply IH|done].
  - by apply restart_inv, IH.
  - pose proof (t_resolve_inv old _ _ payload (c := False) s' (conj (IH Hi) (False_ind _)) ltac:(done)) as T.
    destruct (resolve_commit s') as [[r| |] s2]; simpl in *; [|naive_solver..].
    destruct T as [[[T|T] _] _]; [by left|by right; right].
Qed.

Lemma later_committed s s' : later s s' -> committed old (p_journal c) (p_bytes c) s -> committed old (p_journal c) (p_bytes c) s'.
Proof.
  induction 1 as [|s s' sc _ IH|s s' s'' _ IH Hl|s s' _ IH|s s' _ IH]; intros Hi; [done|by apply IH| | |].
  - eapply committed_loss; [by apply IH|done].
  - by apply restart_committed, IH.
  - pose proof (t_resolve_committed old _ _ payload (c := False) s' (conj (IH Hi) (False_ind _)) ltac:(done)) as T.
    destruct (resolve_commit s') as [[r| |] s2]; simpl in *; [|naive_solver..].
    destruct T as [[T _] _]. by right.
Qed.

Lemma before_store_is s : within (before old (p_journal c)) s -> store_is old (old Store) s.
Proof.
  intros Hs. split; [intros w Hw; by apply (Hs Store)|]. intros p w Hp Hw. apply Hs in Hw.
  by destruct Hp as [-> | [-> | [-> | ->]]].
Qed.

Lemma done_store_is s : within (done_ old (p_journal c) (p_bytes c)) s -> store_is old (Some (p_bytes c)) s.
Proof.
  intros Hs. split; [intros w Hw; by apply (Hs Store)|]. intros p w Hp Hw. apply Hs in Hw.
  by destruct Hp as [-> | [-> | [-> | ->]]].
Qed.

Lemma publish_inv s :
  within (unpublished old) s -> pub_inv old (p_journal c) (p_bytes c) (snd (publish c s)).
Proof.
  intros Hs. destruct c as [o b j k] eqn:Ec; simpl in *.
  pose proof (t_publication old j b (c := False) o k s (conj Hs (False_ind _)) ltac:(done)) as T.
  destruct (publish _ s) as [[u| |] s']; simpl in *; [|naive_solver..]. destruct T as [[T _] _]. by right; right.
Qed.
End OnePublication.

(** C21. Publishing a new added-camera store is all or nothing: whatever fails,
    wherever the process stops and whatever power losses, new processes and
    recoveries follow, once [resolve_commit] returns the journal is gone and
    the store is durably the old one or exactly the new one, with the
    enrollment, its key and its recovery envelope untouched. *)
Theorem publication_all_or_nothing nonce key st primary c old s0 s r s' :
  CodecLaws FaceScan IrCalibration -> IntentLaws -> length nonce = 12%nat ->
  prepare_with_intent_key nonce st primary key = Ok c ->
  within (unpublished old) s0 -> later (snd (publish c s0)) s -> resolve_commit s = (Done r, s') ->
  (store_is old (old Store) s' \/ store_is old (Some (p_bytes c)) s') /\ vis s' Journal = None.
Proof.
  intros Hlaws Hil Hn Hc Hs Hl Hr. pose proof (prepared_payload _ _ _ _ _ Hlaws Hil Hn Hc) as Hp.
  pose proof (later_pub_inv old c Hp _ _ Hl (publish_inv old c Hp s0 Hs)) as Hi.
  pose proof (t_resolve_inv old _ _ Hp (c := False) s (conj Hi (False_ind _)) ltac:(done)) as T. rewrite Hr in T.
  destruct T as [[[T|T] Hv] _]; (split; [|done]); [left; by eapply before_store_is|right; by apply done_store_is].
Qed.

(** Recovery goes forward, never back: once the journal's write has
    returned, and so also once the whole publication has, no power loss,
    failure or recovery brings the old store back; whenever [resolve_commit]
    returns the store is the new one. *)
Theorem publication_goes_forward nonce key st primary c old s0 s1 s r s' :
  CodecLaws FaceScan IrCalibration -> IntentLaws -> length nonce = 12%nat ->
  prepare_with_intent_key nonce st primary key = Ok c ->
  within (unpublished old) s0 -> durable_write Journal (p_journal c) s0 = (Done (), s1) ->
  later (snd ((_ ← durable_write Store (p_bytes c); remove_synced Journal) s1)) s ->
  resolve_commit s = (Done r, s') -> store_is old (Some (p_bytes c)) s' /\ vis s' Journal = None.
Proof.
  intros Hlaws Hil Hn Hc Hs Hj Hl Hr. pose proof (prepared_payload _ _ _ _ _ Hlaws Hil Hn Hc) as Hp.
  pose proof (t_journal old (p_journal c) (p_bytes c) (c := False) s0 (conj Hs (False_ind _)) ltac:(done)) as T.
  rewrite Hj in T. destruct T as [Hi _].
  pose proof (t_publish_rest old (p_journal c) (p_bytes c) (c := False) s1 Hi ltac:(done)) as T.
  assert (Hc1 : committed old (p_journal c) (p_bytes c)
    (snd ((_ ← durable_write Store (p_bytes c); remove_synced Journal) s1))).
  { destruct ((_ ← durable_write Store (p_bytes c); remove_synced Journal) s1) as [[u| |] s2]; simpl in *; [|naive_solver..].
    right. apply T. }
  pose proof (later_committed old c Hp _ _ Hl Hc1) as Hc2.
  pose proof (t_resolve_committed old _ _ Hp (c := False) s (conj Hc2 (False_ind _)) ltac:(done)) as T2.
  rewrite Hr in T2. destruct T2 as [[T2 Hv] _]. split; [by apply done_store_is|done].
Qed.

(** Recovery completes: a new process that meets no fault resolves
    whatever an interrupted publication left, whichever way the journal was
    written. *)
Theorem recovery_completes nonce key st primary c old s0 s :
  CodecLaws FaceScan IrCalibration -> IntentLaws -> length nonce = 12%nat ->
  prepare_with_intent_key nonce st primary key = Ok c ->
  within (unpublished old) s0 -> later (snd (publish c s0)) s -> script s = [] ->
  exists r s', resolve_commit (restart s) = (Done r, s') /\ vis s' Journal = None.
Proof.
  intros Hlaws Hil Hn Hc Hs Hl Hsc. pose proof (prepared_payload _ _ _ _ _ Hlaws Hil Hn Hc) as Hp.
  pose proof (restart_inv old _ _ s (later_pub_inv old c Hp _ _ Hl (publish_inv old c Hp s0 Hs))) as Hi.
  pose proof (t_resolve_inv old _ _ Hp (c := True) (restart s) (conj Hi (fun _ => eq_refl)) (fun _ => Hsc)) as T.
  destruct (resolve_commit (restart s)) as [[r| |] s']; [|by destruct T as [_ []]..].
  exists r, s'. split; [done|]. apply T.
Qed.

(** ** A staging file left behind *)

(** Attempts to recover in one process. *)
Inductive tries : fs -> fs -> Prop :=
  | tries_refl s : tries s s
  | tries_faults s s' sc : tries s s' -> tries s (MkFs (vis s') (maybe s') sc)
  | tries_resolve s s' : tries s s' -> tries s (snd (resolve_commit s')).

Lemma durable_write_blocked p b v :
  triple False (fun s => vis s = v /\ v (staging p) <> None) (durable_write p b) (fun _ _ => False)
    (fun s => vis s = v) (fun s => vis s = v).
Proof.
  unfold durable_write. eapply t_bind; [apply t_sys; [by intros s sc [? ?]|by intros s [? _]..]|]. intros ?.
  eapply t_bind; [apply t_look|]. intros [e|].
  - apply t_error. intros s [[Hs _] _]. split; [done|tauto].
  - intros s [[Hs Hn] Hv] _. rewrite Hs in Hv. by destruct Hn.
Qed.

Lemma resolve_blocked v :
  triple False (fun s => vis s = v /\ v StoreStaging <> None /\ v Journal <> None) resolve_commit (fun _ _ => False)
    (fun s => vis s = v) (fun s => vis s = v).
Proof.
  unfold resolve_commit. eapply t_bind; [apply t_read; [by intros s sc [? ?]|by intros s [? _]..]|]. intros [j|].
  - destruct (journal_payload j) as [b|]; [|apply t_error; intros s [[Hs _] _]; split; [done|tauto]].
    eapply t_bind with (R := fun _ _ => False); [|by intros ? s []].
    eapply t_pre; [|apply (durable_write_blocked Store b v)]. by intros s [[Hs [Hn _]] _].
  - intros s [[Hs [_ Hn]] Hv] _. rewrite Hs in Hv. by destruct Hn.
Qed.

Lemma tries_blocked s s' :
  tries s s' -> vis s StoreStaging <> None -> vis s Journal <> None -> vis s' = vis s.
Proof.
  induction 1 as [|s s' sc _ IH|s s' _ IH]; intros Hn Hj; [done|by apply IH|]. specialize (IH Hn Hj).
  pose proof (resolve_blocked (vis s) s' (conj IH (conj Hn Hj)) ltac:(done)) as T.
  destruct (resolve_commit s') as [[r| |] s2]; simpl in *; naive_solver.
Qed.

(** ** The grant boundary *)

Lemma boundary_spec pinned pair_ primary secondary :
  grant_boundary_check pinned pair_ primary secondary = Grant <->
  exists st b g, secondary = Some st /\ primary = Some b /\
    generation st = secondary_generation pinned /\
    sha256_hex b = g_primary pinned /\ primary_snapshot_sha256 st = g_primary pinned /\
    find (fun g => bool_decide (id g = group_id pinned)) (groups st) = Some g /\
    match pair_ with
    | Some p => pair g = p /\ validate p = true
    | None => forall k, pair g <> Split k
    end.
Proof.
  unfold grant_boundary_check, activation_against. split.
  - destruct secondary as [st|]; [|done]. case_bool_decide as Hg; [|done]. simpl.
    destruct primary as [b|]; [|done]. case_bool_decide as Hb; [|done]. simpl. case_bool_decide as Ha; [|done].
    destruct (find _ (groups st)) as [g|] eqn:Ef; [|done].
    intros Hpair. exists st, b, g. repeat split; try done; [congruence|]. destruct pair_ as [p|].
    + destruct (validate p); [|done]. simpl in Hpair. case_bool_decide; naive_solver.
    + destruct (pair g); [done|done].
  - intros (st & b & g & -> & -> & Hg & Hb & Ha & Hf & Hp). rewrite bool_decide_eq_true_2 by done. simpl.
    rewrite bool_decide_eq_true_2 by done. simpl. rewrite bool_decide_eq_true_2 by congruence. rewrite Hf.
    destruct pair_ as [p|].
    + destruct Hp as [-> ->]. simpl. by rewrite bool_decide_eq_true_2.
    + destruct (pair g) as [rgb ir|k]; [done|]. by destruct (Hp k).
Qed.

(** An added camera grants exactly when, at the boundary, the store has
    the pinned generation, the primary enrollment's bytes have the pinned
    digest, which is also the one the store was authorized against, the
    pinned group is the first of its name and holds exactly the pinned pair,
    which is well formed; a group of two separate units never grants without
    its whole pair. *)
Theorem grant_boundary_exact pinned pair_ primary secondary :
  grant_boundary_check pinned pair_ primary secondary = Grant <->
  exists st b g, secondary = Some st /\ primary = Some b /\
    generation st = secondary_generation pinned /\
    sha256_hex b = g_primary pinned /\ primary_snapshot_sha256 st = g_primary pinned /\
    find (fun g => bool_decide (id g = group_id pinned)) (groups st) = Some g /\
    match pair_ with
    | Some p => pair g = p /\ validate p = true
    | None => forall k, pair g <> Split k
    end.
Proof. apply boundary_spec. Qed.
End Claims.

(** ** One publication *)

Module CommitSample.
Import StoreSample.

#[global] Instance intent_codec : IntentCodec := {
  print_intent i :=
    Some (of_positive (encode (intent_version i, intent_generation i, intent_primary i, new_secondary_b64 i)));
  json_intent b := '(v, g, p, e) ← decode (to_positive b); Some (MkIntent v g p e);
}.
#[global] Instance intent_laws : IntentLaws.
Proof.
  split. intros i b [= <-]. cbn [json_intent intent_codec]. rewrite to_of_positive, decode_encode. by destruct i.
Qed.

Definition prepared1 : PreparedSecondaryCommit :=
  match prepare_with_intent_key nonce12 store1 hex64 (Some key32) with
  | Ok c => c
  | Err _ => MkPrepared [] [] [] None
  end.
Lemma prepared1_ok : prepare_with_intent_key nonce12 store1 hex64 (Some key32) = Ok prepared1.
Proof. vm_compute. reflexivity. Qed.

Definition none (_ : path) : option bytes := None.
Definition start (sc : list fault) : fs := MkFs none (fun _ => []) sc.
Lemma start_unpublished sc : within (unpublished none) (start sc).
Proof. intros p v ->%list_elem_of_singleton. by destruct p. Qed.

(** The process dies before the new store's rename is synced. *)
Definition cut : fs := snd (publish prepared1 (start (repeat Good 10 ++ [Dies]))).
(** The write of the new store's staging file fails. *)
Definition failed : fs := snd (publish prepared1 (start (repeat Good 7 ++ [Fails]))).
End CommitSample.

Lemma publication_all_or_nothing_witness :
  vis (snd (resolve_commit CommitSample.cut)) Journal = None.
Proof.
  apply (publication_all_or_nothing StoreSample.nonce12 (Some StoreSample.key32) StoreSample.store1 StoreSample.hex64
    CommitSample.prepared1 CommitSample.none (CommitSample.start (repeat Good 10 ++ [Dies])) CommitSample.cut Completed).
  - apply _.
  - apply _.
  - reflexivity.
  - vm_compute. reflexivity.
  - apply CommitSample.start_unpublished.
  - constructor.
  - vm_compute. reflexivity.
Defined.

Lemma publication_goes_forward_witness :
  store_is CommitSample.none (Some (p_bytes CommitSample.prepared1)) (snd (resolve_commit CommitSample.cut)).
Proof.
  apply (publication_goes_forward StoreSample.nonce12 (Some StoreSample.key32) StoreSample.store1 StoreSample.hex64
    CommitSample.prepared1 CommitSample.none (CommitSample.start (repeat Good 10 ++ [Dies]))
    (snd (durable_write Journal (p_journal CommitSample.prepared1) (CommitSample.start (repeat Good 10 ++ [Dies]))))
    CommitSample.cut Completed).
  - apply _.
  - apply _.
  - reflexivity.
  - vm_compute. reflexivity.
  - apply CommitSample.start_unpublished.
  - vm_compute. reflexivity.
  - assert (E : CommitSample.cut = snd ((_ ← durable_write Store (p_bytes CommitSample.prepared1); remove_synced Journal)
      (snd (durable_write Journal (p_journal CommitSample.prepared1) (CommitSample.start (repeat Good 10 ++ [Dies])))))).
    { vm_compute. reflexivity. }
    rewrite E. constructor.
  - vm_compute. reflexivity.
Defined.

Lemma recovery_completes_witness :
  exists r s', resolve_commit (restart CommitSample.cut) = (Done r, s') /\ vis s' Journal = None.
Proof.
  apply (recovery_completes StoreSample.nonce12 (Some StoreSample.key32) StoreSample.store1 StoreSample.hex64
    CommitSample.prepared1 CommitSample.none (CommitSample.start (repeat Good 10 ++ [Dies])) CommitSample.cut).
  - apply _.
  - apply _.
  - reflexivity.
  - vm_compute. reflexivity.
  - apply CommitSample.start_unpublished.
  - constructor.
  - vm_compute. reflexivity.
Defined.

(** A publication whose store could not be staged leaves its staging file,
    and the process that left it can never again complete the recovery it
    owes: every [resolve_commit] it makes fails, whatever else succeeds, so
    added cameras refuse until the daemon restarts. *)
Theorem failed_stage_blocks_recovery s' :
  fst (publish CommitSample.prepared1 (CommitSample.start (repeat Good 7 ++ [Fails]))) = Failed /\
  (tries CommitSample.failed s' -> forall r s2, resolve_commit s' <> (Done r, s2)).
Proof.
  split; [vm_compute; reflexivity|]. intros Ht r s2 Hr.
  assert (Hn : vis CommitSample.failed StoreStaging <> None) by (vm_compute; discriminate).
  assert (Hj : vis CommitSample.failed Journal <> None) by (vm_compute; discriminate).
  pose proof (tries_blocked _ _ Ht Hn Hj) as Hv.
  pose proof (resolve_blocked (vis CommitSample.failed) s' (conj Hv (conj Hn Hj)) ltac:(done)) as T.
  rewrite Hr in T. naive_solver.
Qed.

(** A recovery that meets no fault. *)
Lemma failed_stage_blocks_recovery_witness :
  let s := MkFs (vis CommitSample.failed) (maybe CommitSample.failed) [] in
  resolve_commit s <> (Done Clean, snd (resolve_commit s)) /\ fst (resolve_commit s) = Failed.
Proof.
  split; [|vm_compute; reflexivity].
  apply failed_stage_blocks_recovery. do 2 constructor.
Defined.
