(* ===== verification/CameraSelection.v ===== *)
(** * Which camera a request uses

    [irlume-core/src/multi_camera/selection.rs]: the choice among an account's
    enrolled, connected pairs, and the order of the pairs a first enrollment
    may use.  The question whether an enrollment can serve the request is a
    predicate; the loop keeps the order it is asked in. *)

From stdpp Require Import sorting.
From S2P Require Import Prelude Text Ordering CameraKeys CameraStore.

Record CandidatePair (K : Type) := MkCandidate { c_key : K; c_rgb : str; c_ir : str; c_fixed : bool }.
Record BoundCandidatePair (K : Type) := MkBound {
  b_key : K;
  b_pair : CompletePairKey;
  b_rgb_fixed : bool;
  b_ir_fixed : bool;
}.
Arguments MkCandidate {K}. Arguments c_key {K}. Arguments c_rgb {K}. Arguments c_ir {K}. Arguments c_fixed {K}.
Arguments MkBound {K}. Arguments b_key {K}. Arguments b_pair {K}. Arguments b_rgb_fixed {K}. Arguments b_ir_fixed {K}.

Record AccountCameras := MkAccount {
  primary : option PairBinding;
  secondary_active : bool;
  secondary_unreadable : bool;
  a_groups : list PairBinding;
}.

Inductive SecondaryFacts (FaceScan IrCalibration : Type) :=
  | Absent
  | Unreadable
  | Loaded (store : SecondaryStore FaceScan IrCalibration) (activation : Activation).
Arguments Absent {_ _}. Arguments Unreadable {_ _}. Arguments Loaded {_ _}.

(** [AccountCameras::from_stores]. *)
Definition from_stores {F I} (user : str) (binding : option PairBinding) (secondary : SecondaryFacts F I) : AccountCameras :=
  let '(active, unreadable, gs) :=
    match secondary with
    | Absent => (false, false, [])
    | Loaded store activation =>
        if bool_decide (owner store = user) then (bool_decide (activation = Active), false, map pair (groups store))
        else (false, true, [])
    | Unreadable => (false, true, [])
    end in
  MkAccount binding active unreadable gs.

Inductive CandidateScope := Primary | Secondary (index : nat).
#[export] Instance CandidateScope_eq_dec : EqDecision CandidateScope.
Proof. solve_decision. Defined.
Inductive SkipReason := AmbiguousGroups | SecondaryInactive | ExternalForbidden | Indistinguishable | NotEligible.
Record Skipped := MkSkipped { s_scope : CandidateScope; s_reason : SkipReason }.
Record Selection (K : Type) := MkSelection { sel_key : K; sel_scope : CandidateScope; sel_skipped : list Skipped }.
Arguments MkSelection {K}. Arguments sel_key {K}. Arguments sel_scope {K}. Arguments sel_skipped {K}.
Inductive RefusalCause := InvalidBinding | NoEnrolledCameraConnected | SecondaryUnreadable | SkippedFor (why : SkipReason).
Inductive SelectionOutcome (K : Type) :=
  | Selected (s : Selection K)
  | NotApplicable (skipped : list Skipped)
  | Refused (cause : RefusalCause) (skipped : list Skipped).
Arguments Selected {K}. Arguments NotApplicable {K}. Arguments Refused {K}.

Record ExternalCameraPolicy := MkPolicy { forbid_external : bool; split_built_in_only : bool }.

Definition is_csplit (k : CompletePairKey) : bool := match k with CSplit _ => true | COrdinary _ _ => false end.
Definition is_secondary (s : CandidateScope) : bool := match s with Secondary _ => true | Primary => false end.

Section Select.
Context {K : Type}.

(** [ExternalCameraPolicy::excludes]. *)
Definition excludes (p : ExternalCameraPolicy) (c : BoundCandidatePair K) : bool :=
  (forbid_external p || (split_built_in_only p && is_csplit (b_pair c))) && negb (b_rgb_fixed c && b_ir_fixed c).

(** The account's complete groups in canonical order, with their positions. *)
Definition complete_groups (gs : list PairBinding) : list (CompletePairKey * nat) :=
  omap (fun '(index, b) => (fun key => (key, index)) <$> complete_key b) (imap (fun i b => (i, b)) gs).
Definition ranked_groups (gs : list PairBinding) : list (CompletePairKey * nat) := sort (complete_groups gs).

Definition ranked_scopes (account : AccountCameras) : list (CandidateScope * CompletePairKey) :=
  match primary account ≫= complete_key with Some key => [(Primary, key)] | None => [] end
  ++ map (fun '(key, index) => (Secondary index, key)) (ranked_groups (a_groups account)).

Definition carrying (connected : list (BoundCandidatePair K)) (key : CompletePairKey) : list (BoundCandidatePair K) :=
  filter (fun c => b_pair c = key) connected.
Definition allowed (p : ExternalCameraPolicy) (connected : list (BoundCandidatePair K)) (key : CompletePairKey) :=
  filter (fun c => excludes p c = false) (carrying connected key).
Definition holders (gs : list (CompletePairKey * nat)) (key : CompletePairKey) : nat :=
  length (filter (fun g => g.1 = key) gs).

(** One turn of the loop: what is chosen, why the pair is skipped, and whether
    [eligible] was asked. *)
Definition turn (account : AccountCameras) (connected : list (BoundCandidatePair K)) (eligible : CandidateScope -> bool)
    (p : ExternalCameraPolicy) (chosen : option (K * CandidateScope)) (scope : CandidateScope) (key : CompletePairKey)
    : option (K * CandidateScope) * option SkipReason * bool :=
  if bool_decide (carrying connected key = []) then (chosen, None, false)
  else if is_secondary scope && bool_decide (1 < holders (ranked_groups (a_groups account)) key)%nat
  then (chosen, Some AmbiguousGroups, false)
  else if is_secondary scope && negb (secondary_active account) then (chosen, Some SecondaryInactive, false)
  else match allowed p connected key with
       | [] => (chosen, Some ExternalForbidden, false)
       | [c] =>
           match chosen with
           | None => if eligible scope then (Some (b_key c, scope), None, true) else (None, Some NotEligible, true)
           | Some _ => (chosen, None, false)
           end
       | _ => (chosen, Some Indistinguishable, false)
       end.

Fixpoint rank_loop account connected eligible p chosen (ranked : list (CandidateScope * CompletePairKey))
    : option (K * CandidateScope) * list Skipped * list CandidateScope :=
  match ranked with
  | [] => (chosen, [], [])
  | (scope, key) :: ranked =>
      let '(chosen, reason, asked) := turn account connected eligible p chosen scope key in
      let '(chosen, skipped, asks) := rank_loop account connected eligible p chosen ranked in
      (chosen, match reason with Some r => MkSkipped scope r :: skipped | None => skipped end,
       if asked : bool then scope :: asks else asks)
  end.

Definition malformed_primary (account : AccountCameras) : bool :=
  match primary account with Some (Split key) => negb (validate (Split key)) | _ => false end.

(** The choice, the skips and the questions asked. *)
Definition ranking (connected : list (BoundCandidatePair K)) (account : AccountCameras)
    (eligible : CandidateScope -> bool) (p : ExternalCameraPolicy) :=
  rank_loop account (filter (fun c => key_validate (b_pair c) = true) connected) eligible p None (ranked_scopes account).

(** [select_bound_for_account_with]. *)
Definition select_bound_for_account_with (connected : list (BoundCandidatePair K)) (account : AccountCameras)
    (eligible : CandidateScope -> bool) (p : ExternalCameraPolicy) : SelectionOutcome K :=
  if malformed_primary account then Refused InvalidBinding []
  else
    let '(chosen, skipped, _) := ranking connected account eligible p in
    match chosen, primary account ≫= complete_key with
    | Some (key, scope), _ => Selected (MkSelection key scope skipped)
    | None, None => NotApplicable skipped
    | None, Some _ =>
        Refused (match skipped with
                 | first :: _ => SkippedFor (s_reason first)
                 | [] => if secondary_unreadable account then SecondaryUnreadable else NoEnrolledCameraConnected
                 end) skipped
    end.

Definition select_bound_for_account connected account eligible (forbid : bool) : SelectionOutcome K :=
  select_bound_for_account_with connected account eligible (MkPolicy forbid forbid).

Definition as_bound (c : CandidatePair K) : BoundCandidatePair K :=
  MkBound (c_key c) (COrdinary (c_rgb c) (c_ir c)) (c_fixed c) (c_fixed c).
Definition select_for_account (connected : list (CandidatePair K)) account eligible (forbid : bool) : SelectionOutcome K :=
  select_bound_for_account (map as_bound connected) account eligible forbid.
End Select.

(** ** First enrollment *)

Inductive CandidateRank := Other | BuiltIn | Allowlisted.
#[export] Instance CandidateRank_eq_dec : EqDecision CandidateRank.
Proof. solve_decision. Defined.
Definition rank_pos (r : CandidateRank) : nat := match r with Other => 0 | BuiltIn => 1 | Allowlisted => 2 end%nat.
(** The highest rank first. *)
Definition rank_desc (r : CandidateRank) : nat := (2 - rank_pos r)%nat.

Record EnrollmentCandidate (K : Type) := MkEnroll { e_key : K; e_rank : CandidateRank; shares_identity : bool }.
Arguments MkEnroll {K}. Arguments e_key {K}. Arguments e_rank {K}. Arguments shares_identity {K}.

(** Everything before the second colon. *)
Fixpoint before_colons (n : nat) (l : str) : str :=
  match l with
  | [] => []
  | c :: l =>
      if bool_decide (c = 58) then match n with O => [] | S n => c :: before_colons n l end
      else c :: before_colons n l
  end.
Definition vid_pid (identity : str) : str := before_colons 1 identity.

Definition eq_ignore_ascii_case (a b : str) : bool := bool_decide (map lower_code a = map lower_code b).
Definition trim_codes (l : str) : str := str_codes (trim (codes_str l)).

Section Enroll.
Context {K : Type} `{Ord K}.

Definition listed (allowlist : list str) (identity : str) : bool :=
  existsb (fun entry => eq_ignore_ascii_case (trim_codes entry) (vid_pid identity)) allowlist.
Definition rank_of (allowlist : list str) (c : CandidatePair K) : CandidateRank :=
  if listed allowlist (c_rgb c) && listed allowlist (c_ir c) then Allowlisted
  else if c_fixed c then BuiltIn else Other.

(** The fields [sort_by] compares, in order; a tie is one and the same row. *)
Definition row (allowlist : list str) (c : CandidatePair K) : nat * (str * (str * K)) :=
  (rank_desc (rank_of allowlist c), (c_rgb c, (c_ir c, c_key c))).
Definition rank_at (n : nat) : CandidateRank := match n with 0 => Allowlisted | 1 => BuiltIn | _ => Other end%nat.

(** [rank_enrollment_candidates]. *)
Definition rank_enrollment_candidates (connected : list (CandidatePair K)) (allowlist : list str) (forbid : bool)
    : list (EnrollmentCandidate K) :=
  let allowed := filter (fun c => c_fixed c || negb forbid = true) connected in
  map (fun '(rank, (rgb, (ir, key))) =>
         MkEnroll key (rank_at rank)
           (bool_decide (1 < length (filter (fun c => c_rgb c = rgb /\ c_ir c = ir) allowed))%nat))
      (sort (map (row allowlist) allowed)).
End Enroll.
