(* ===== verification/SelectionTheory.v ===== *)
(** * The chosen camera is the best usable one

    The loop of [CameraSelection] against a specification that mentions no
    loop and no order of the store. *)

From stdpp Require Import sorting.
From S2P Require Import Prelude Text Ordering CameraKeys CameraStore CameraSelection.

Section Theory.
Context {K : Type}.
Implicit Types (eligible : CandidateScope -> bool) (account : AccountCameras) (connected : list (BoundCandidatePair K)) (c : BoundCandidatePair K).

(** The complete key a scope is enrolled under. *)
Definition scope_key account (scope : CandidateScope) : option CompletePairKey :=
  match scope with
  | Primary => primary account ≫= complete_key
  | Secondary i => (a_groups account !! i) ≫= complete_key
  end.

(** A scope that may be chosen, with the connected pair it is chosen for: one
    allowed pair carries its key, its enrollment can serve the request, and an
    added camera's store is active and has no second group with the key. *)
Record usable account connected (eligible : CandidateScope -> bool) (p : ExternalCameraPolicy)
    (scope : CandidateScope) (key : CompletePairKey) c : Prop := {
  u_key : scope_key account scope = Some key;
  u_one : filter (fun c => b_pair c = key /\ excludes p c = false) connected = [c];
  u_eligible : eligible scope = true;
  u_secondary : scope <> Primary ->
    secondary_active account = true /\ forall j, scope_key account (Secondary j) = Some key -> Secondary j = scope;
}.

(** The primary enrollment first, then the added cameras by key. *)
Definition ranks_before (s1 : CandidateScope) (k1 : CompletePairKey) (s2 : CandidateScope) (k2 : CompletePairKey) : Prop :=
  match s1, s2 with
  | Primary, Secondary _ => True
  | Secondary _, Secondary _ => cmp k1 k2 = Lt
  | _, Primary => False
  end.

(** ** The ranked scopes *)

Lemma complete_groups_spec gs key i :
  (key, i) ∈ complete_groups gs <-> (gs !! i) ≫= complete_key = Some key.
Proof.
  unfold complete_groups. rewrite list_elem_of_omap. split.
  - intros ([j b] & Hin & He). apply list_elem_of_lookup in Hin as [n Hn]. rewrite list_lookup_imap in Hn.
    destruct (gs !! n) as [b'|] eqn:En; [|done]. injection Hn as <- <-.
    destruct (complete_key b') as [k|] eqn:Ek; simpl in He; [|done]. injection He as <- <-. by rewrite En.
  - intros Hi. destruct (gs !! i) as [b|] eqn:Eb; simpl in Hi; [|done]. exists (i, b). rewrite Hi. split; [|done].
    apply list_elem_of_lookup. exists i. by rewrite list_lookup_imap, Eb.
Qed.

Lemma complete_groups_sorted gs : NoDup (complete_groups gs).*2.
Proof.
  unfold complete_groups. assert (Hn : NoDup (imap (fun i (b : PairBinding) => (i, b)) gs).*1).
  { replace ((imap (fun i (b : PairBinding) => (i, b)) gs).*1) with (seq 0 (length gs)); [apply NoDup_seq|].
    apply list_eq. intros i. rewrite list_lookup_fmap, list_lookup_imap. destruct (gs !! i) as [b|] eqn:E; simpl.
    - apply lookup_seq. split; [done|]. by apply lookup_lt_Some in E.
    - apply lookup_ge_None in E. by apply lookup_ge_None; rewrite length_seq. }
  revert Hn. generalize (imap (fun i (b : PairBinding) => (i, b)) gs) as l.
  induction l as [|[i b] l IH]; intros Hn; [constructor|]. simpl in *. apply list.NoDup_cons in Hn as [Hi Hn].
  destruct (complete_key b) as [k|]; simpl; [|by apply IH]. constructor; [|by apply IH].
  intros Hx. apply Hi. apply list_elem_of_fmap in Hx as ([k' i'] & -> & Hin).
  apply list_elem_of_omap in Hin as ([i2 b2] & Hin & He). destruct (complete_key b2); simpl in He; [|done].
  injection He as <- <-. apply list_elem_of_fmap. by exists (i2, b2).
Qed.

Lemma ranked_groups_spec gs key i : (key, i) ∈ ranked_groups gs <-> (gs !! i) ≫= complete_key = Some key.
Proof. unfold ranked_groups. rewrite sort_perm. apply complete_groups_spec. Qed.

Lemma ranked_scopes_spec account scope key :
  (scope, key) ∈ ranked_scopes account <-> scope_key account scope = Some key.
Proof.
  unfold ranked_scopes. rewrite elem_of_app, list_elem_of_fmap. destruct scope as [|i]; simpl.
  - split.
    + intros [Hp|([k i] & ? & _)]; [|done]. destruct (primary account ≫= complete_key); [|by apply elem_of_nil in Hp].
      apply list_elem_of_singleton in Hp. congruence.
    + intros ->. left. by left.
  - rewrite <- ranked_groups_spec. split.
    + intros [Hp|([k j] & [= -> ->] & Hin)]; [|done].
      destruct (primary account ≫= complete_key); [by apply list_elem_of_singleton in Hp|by apply elem_of_nil in Hp].
    + intros Hin. right. by exists (key, i).
Qed.

(** One group alone holds the key. *)
Lemma holders_one gs key i :
  (key, i) ∈ ranked_groups gs ->
  ((1 < holders (ranked_groups gs) key)%nat <-> exists j, j <> i /\ (key, j) ∈ ranked_groups gs).
Proof.
  intros Hi. unfold holders.
  assert (Hnd : NoDup (filter (fun g : CompletePairKey * nat => g.1 = key) (ranked_groups gs))).
  { apply list.NoDup_filter. unfold ranked_groups. rewrite sort_perm. eapply list.NoDup_fmap_1, complete_groups_sorted. }
  assert (Hin : (key, i) ∈ filter (fun g : CompletePairKey * nat => g.1 = key) (ranked_groups gs)).
  { by apply list_elem_of_filter. }
  split.
  - intros Hl. destruct (filter _ _) as [|x [|y l]] eqn:Ef; [by apply elem_of_nil in Hin|simpl in Hl; lia|].
    assert (Hall : forall z, z ∈ x :: y :: l -> z.1 = key /\ z ∈ ranked_groups gs).
    { intros z Hz. rewrite <- Ef in Hz. by apply list_elem_of_filter in Hz. }
    apply list.NoDup_cons in Hnd as [Hxy Hnd]. destruct (decide (x.2 = i)) as [Hx|Hx].
    + exists y.2. destruct (Hall x ltac:(by left)) as [Hx1 _]. destruct (Hall y ltac:(by right; left)) as [Hy Hin'].
      split; [|by rewrite <- Hy, <- surjective_pairing]. intros He. apply Hxy.
      assert (x = y) as -> by (destruct x, y; simpl in *; congruence). by left.
    + exists x.2. destruct (Hall x ltac:(by left)) as [Hx1 Hin']. split; [done|]. by rewrite <- Hx1, <- surjective_pairing.
  - intros (j & Hne & Hj).
    assert (Hj' : (key, j) ∈ filter (fun g : CompletePairKey * nat => g.1 = key) (ranked_groups gs)).
    { by apply list_elem_of_filter. }
    destruct (filter _ _) as [|x [|y l]]; [by apply elem_of_nil in Hin| |simpl; lia].
    apply list_elem_of_singleton in Hin, Hj'. congruence.
Qed.

(** ** The loop *)

(** The pair a scope is ready to be chosen for. *)
Definition ready account connected (p : ExternalCameraPolicy) (scope : CandidateScope) (key : CompletePairKey) : option K :=
  if bool_decide (carrying connected key = []) then None
  else if is_secondary scope && bool_decide (1 < holders (ranked_groups (a_groups account)) key)%nat then None
  else if is_secondary scope && negb (secondary_active account) then None
  else match allowed p connected key with [c] => Some (b_key c) | _ => None end.

Lemma turn_chosen account connected eligible p k scope key :
  exists r, turn account connected eligible p (Some k) scope key = (Some k, r, false).
Proof. unfold turn. repeat case_match; simplify_eq; eauto. Qed.

Lemma turn_open account connected eligible p scope key :
  match ready account connected p scope key with
  | Some k =>
      if eligible scope then turn account connected eligible p None scope key = (Some (k, scope), None, true)
      else turn account connected eligible p None scope key = (None, Some NotEligible, true)
  | None => exists r, turn account connected eligible p None scope key = (None, r, false)
  end.
Proof.
  unfold ready, turn. case_bool_decide; [by eexists|]. destruct (is_secondary scope && bool_decide _); [by eexists|].
  destruct (is_secondary scope && _); [by eexists|]. destruct (allowed p connected key) as [|c0 [|? ?]]; [by eexists| |by eexists].
  by destruct (eligible scope).
Qed.

Lemma loop_chosen account connected eligible p k ranked :
  exists sk, rank_loop account connected eligible p (Some k) ranked = (Some k, sk, []).
Proof.
  induction ranked as [|[scope key] ranked [sk IH]]; [by exists []|]. simpl.
  destruct (turn_chosen account connected eligible p k scope key) as [r ->]. rewrite IH. by eexists.
Qed.

(** The first scope that is ready and eligible. *)
Fixpoint first_good account connected eligible p (ranked : list (CandidateScope * CompletePairKey)) : option (K * CandidateScope) :=
  match ranked with
  | [] => None
  | (scope, key) :: ranked =>
      match ready account connected p scope key with
      | Some k => if eligible scope : bool then Some (k, scope) else first_good account connected eligible p ranked
      | None => first_good account connected eligible p ranked
      end
  end.
(** The scopes asked about: those that are ready, up to the first that is
    eligible. *)
Fixpoint asked_of account connected eligible p (ranked : list (CandidateScope * CompletePairKey)) : list CandidateScope :=
  match ranked with
  | [] => []
  | (scope, key) :: ranked =>
      match ready account connected p scope key with
      | Some _ => scope :: if eligible scope : bool then [] else asked_of account connected eligible p ranked
      | None => asked_of account connected eligible p ranked
      end
  end.

Lemma loop_spec account connected eligible p ranked :
  exists sk, rank_loop account connected eligible p None ranked =
    (first_good account connected eligible p ranked, sk, asked_of account connected eligible p ranked).
Proof.
  induction ranked as [|[scope key] ranked [sk IH]]; [by exists []|]. simpl.
  pose proof (turn_open account connected eligible p scope key) as T.
  destruct (ready account connected p scope key) as [k|]; [destruct (eligible scope); rewrite T|destruct T as [r ->]].
  - destruct (loop_chosen account connected eligible p (k, scope) ranked) as [sk' ->]. by eexists.
  - rewrite IH. by eexists.
  - rewrite IH. by eexists.
Qed.

Lemma carrying_valid connected key :
  key_validate key = true ->
  carrying (filter (fun c => key_validate (b_pair c) = true) connected) key = carrying connected key.
Proof.
  intros Hk. unfold carrying. rewrite list_filter_filter. apply list_filter_iff. intros c. naive_solver.
Qed.

Lemma allowed_filter p connected key :
  allowed p connected key = filter (fun c => b_pair c = key /\ excludes p c = false) connected.
Proof. unfold allowed, carrying. rewrite list_filter_filter. apply list_filter_iff. tauto. Qed.

Lemma scope_key_valid account scope key : scope_key account scope = Some key -> key_validate key = true.
Proof.
  destruct scope as [|i]; simpl; intros (b & _ & Hb)%bind_Some; by apply complete_key_validate in Hb as [? _].
Qed.

(** Ready and eligible is usable. *)
Lemma ready_usable account connected eligible p scope key k :
  scope_key account scope = Some key -> eligible scope = true ->
  (ready account (filter (fun c => key_validate (b_pair c) = true) connected) p scope key = Some k <->
   exists c, usable account connected eligible p scope key c /\ b_key c = k).
Proof.
  intros Hk He. pose proof (scope_key_valid _ _ _ Hk) as Hv. unfold ready, allowed. rewrite carrying_valid by done.
  fold (allowed p connected key). rewrite allowed_filter.
  assert (Hamb : is_secondary scope = true ->
    ((1 < holders (ranked_groups (a_groups account)) key)%nat <->
     exists j, Secondary j <> scope /\ scope_key account (Secondary j) = Some key)).
  { destruct scope as [|i]; [done|]. intros _. rewrite (holders_one _ _ i) by (by apply ranked_groups_spec).
    setoid_rewrite ranked_groups_spec. split; intros (j & Hne & Hj); exists j; (split; [congruence|done]). }
  split.
  - case_bool_decide as Hc; [done|]. destruct (is_secondary scope) eqn:Es; simpl.
    + case_bool_decide as Hh; [done|]. destruct (secondary_active account) eqn:Ea; simpl; [|done].
      destruct (filter _ connected) as [|c0 [|? ?]] eqn:Ef; try done. intros [= <-]. exists c0. split; [|done].
      split; [done|done|done|]. intros _. split; [done|]. intros j Hj.
      destruct (decide (Secondary j = scope)) as [|Hne]; [done|]. exfalso. apply Hh, Hamb; [done|]. by exists j.
    + destruct (filter _ connected) as [|c0 [|? ?]] eqn:Ef; try done. intros [= <-]. exists c0. split; [|done].
      split; [done|done|done|]. intros Hp. by destruct scope.
  - intros (c0 & [_ H1 _ Hs] & <-). rewrite bool_decide_eq_false_2.
    2: { intros Hc. assert (Hin : c0 ∈ filter (fun c => b_pair c = key /\ excludes p c = false) connected) by (rewrite H1; by left).
         apply list_elem_of_filter in Hin as [[Hb _] Hin].
         assert (Hin' : c0 ∈ carrying connected key) by (by apply list_elem_of_filter).
         rewrite Hc in Hin'. by apply elem_of_nil in Hin'. }
    destruct (is_secondary scope) eqn:Es; simpl; [|by rewrite H1].
    destruct Hs as [Ha Hu]; [by destruct scope|]. rewrite bool_decide_eq_false_2, Ha, H1; [done|].
    intros (j & Hne & Hj)%Hamb; [|done]. by destruct Hne; apply Hu.
Qed.

(** ** Rank order *)

Definition not_after (x y : CandidateScope * CompletePairKey) : Prop := ~ ranks_before y.1 y.2 x.1 x.2.

Lemma ranked_scopes_sorted account : StronglySorted not_after (ranked_scopes account).
Proof.
  unfold ranked_scopes. apply StronglySorted_app_2.
  - intros [s1 k1] [s2 k2] H1 H2. apply list_elem_of_fmap in H2 as ([k i] & [= -> ->] & _).
    destruct (primary account ≫= complete_key); [|by apply elem_of_nil in H1].
    apply list_elem_of_singleton in H1 as [= -> ->]. by intros [].
  - destruct (primary account ≫= complete_key); repeat constructor.
  - apply StronglySorted_fmap with (R1 := ord_le); [|apply sort_sorted].
    intros [k1 i1] [k2 i2] Hle Hb. simpl in Hb. unfold ord_le in Hle. apply Hle.
    apply cmp_Gt. unfold cmp, prod_ord. simpl. by rewrite Hb.
Qed.

Lemma first_good_Some account connected eligible p ranked k scope :
  first_good account connected eligible p ranked = Some (k, scope) ->
  exists l1 key l2, ranked = l1 ++ (scope, key) :: l2 /\ ready account connected p scope key = Some k /\
    eligible scope = true /\
    forall s' k', (s', k') ∈ l1 -> eligible s' = true -> ready account connected p s' k' = None.
Proof.
  induction ranked as [|[s0 k0] ranked IH]; [done|]. simpl. intros Hf.
  destruct (ready account connected p s0 k0) as [k1|] eqn:Er.
  - destruct (eligible s0) eqn:Ee.
    + injection Hf as -> ->. exists [], k0, ranked. repeat split; try done. by intros ? ? ?%elem_of_nil.
    + destruct (IH Hf) as (l1 & key & l2 & -> & Hr & He & Hn). exists ((s0, k0) :: l1), key, l2.
      repeat split; try done. intros s' k' [[= -> ->]|Hin]%elem_of_cons He'; [congruence|by apply Hn].
  - destruct (IH Hf) as (l1 & key & l2 & -> & Hr & He & Hn). exists ((s0, k0) :: l1), key, l2.
    repeat split; try done. intros s' k' [[= -> ->]|Hin]%elem_of_cons He'; [done|by apply Hn].
Qed.

Lemma first_good_None account connected eligible p ranked :
  first_good account connected eligible p ranked = None ->
  forall s' k', (s', k') ∈ ranked -> eligible s' = true -> ready account connected p s' k' = None.
Proof.
  induction ranked as [|[s0 k0] ranked IH]; simpl; [by intros _ ? ? ?%elem_of_nil|].
  intros Hf s' k' [[= -> ->]|Hin]%elem_of_cons He.
  - rewrite He in Hf. by destruct (ready account connected p s0 k0).
  - apply IH; [|done|done]. destruct (ready account connected p s0 k0); [|done]. by destruct (eligible s0).
Qed.

Lemma usable_ready account connected eligible p scope key c :
  usable account connected eligible p scope key c ->
  ready account (filter (fun c => key_validate (b_pair c) = true) connected) p scope key = Some (b_key c) /\
  (scope, key) ∈ ranked_scopes account /\ eligible scope = true.
Proof.
  intros Hu. pose proof (u_key _ _ _ _ _ _ _ Hu). pose proof (u_eligible _ _ _ _ _ _ _ Hu).
  split; [|split; [by apply ranked_scopes_spec|done]]. apply (ready_usable _ _ eligible); [done|done|]. by exists c.
Qed.

(** The best usable scope, if there is one. *)
Definition best account connected eligible p (scope : CandidateScope) (k : K) : Prop :=
  exists key c, usable account connected eligible p scope key c /\ b_key c = k /\
    forall s' k' c', usable account connected eligible p s' k' c' -> ~ ranks_before s' k' scope key.

Lemma select_best account connected eligible p :
  malformed_primary account = false ->
  match select_bound_for_account_with connected account eligible p with
  | Selected s => best account connected eligible p (sel_scope s) (sel_key s)
  | NotApplicable _ | Refused _ _ => forall scope key c, ~ usable account connected eligible p scope key c
  end.
Proof.
  intros Hm. unfold select_bound_for_account_with, ranking. rewrite Hm.
  set (valid := filter (fun c => key_validate (b_pair c) = true) connected).
  destruct (loop_spec account valid eligible p (ranked_scopes account)) as [sk ->].
  destruct (first_good account valid eligible p (ranked_scopes account)) as [[k scope]|] eqn:Ef; simpl.
  - destruct (first_good_Some _ _ _ _ _ _ _ Ef) as (l1 & key & l2 & Hl & Hr & He & Hn).
    assert (Hk : scope_key account scope = Some key).
    { apply ranked_scopes_spec. rewrite Hl. apply elem_of_app. right. by left. }
    destruct (proj1 (ready_usable _ connected eligible p _ _ _ Hk He) Hr) as (c & Hu & Hck).
    exists key, c. split; [done|]. split; [done|]. intros s' k' c' Hu' Hb.
    destruct (usable_ready _ _ _ _ _ _ _ Hu') as (Hr' & Hin & He'). fold valid in Hr'.
    pose proof (ranked_scopes_sorted account) as Hs. rewrite Hl in Hin, Hs.
    apply elem_of_app in Hin as [Hin|[[= -> ->]|Hin]%elem_of_cons].
    + rewrite (Hn s' k' Hin He') in Hr'. done.
    + destruct scope; simpl in Hb; [done|]. by rewrite cmp_refl in Hb.
    + apply StronglySorted_app_1_r in Hs. apply StronglySorted_inv in Hs as [_ Hs].
      rewrite list.Forall_forall in Hs. by apply (Hs _ Hin).
  - assert (Hno : forall scope key c, ~ usable account connected eligible p scope key c).
    { intros scope key c Hu. destruct (usable_ready _ _ _ _ _ _ _ Hu) as (Hr & Hin & He). fold valid in Hr.
      rewrite (first_good_None _ _ _ _ _ Ef scope key Hin He) in Hr. done. }
    by destruct (primary account ≫= complete_key).
Qed.

(** ** The order of the store *)

Record reordered account account' eligible eligible' : Prop := {
  ro_primary : primary account' = primary account;
  ro_active : secondary_active account' = secondary_active account;
  ro_groups : a_groups account' ≡ₚ a_groups account;
  ro_asked : eligible' Primary = eligible Primary /\
    forall i j b, a_groups account !! i = Some b -> a_groups account' !! j = Some b ->
      eligible' (Secondary j) = eligible (Secondary i);
}.

Lemma reordered_sym account account' eligible eligible' :
  reordered account account' eligible eligible' -> reordered account' account eligible' eligible.
Proof. intros [H1 H2 H3 [H4 H5]]. split; [done|done|done|]. split; [done|]. intros. symmetry. by eapply H5. Qed.

Definition same_place (s s' : CandidateScope) : Prop :=
  match s, s' with Primary, Primary | Secondary _, Secondary _ => True | _, _ => False end.

Lemma usable_reordered account account' eligible eligible' connected p scope key c :
  reordered account account' eligible eligible' -> usable account connected eligible p scope key c ->
  exists scope', usable account' connected eligible' p scope' key c /\ same_place scope scope'.
Proof.
  intros [Hp Ha Hg [He He']] [Hk H1 Hel Hs]. destruct scope as [|i].
  - exists Primary. split; [|done]. split; [simpl in *; by rewrite Hp|done|by rewrite He|done].
  - simpl in Hk. apply bind_Some in Hk as (b & Hb & Hkb).
    assert (Hin : b ∈ a_groups account') by (rewrite Hg; by eapply list_elem_of_lookup_2).
    apply Permutation_inj in Hg as [_ (g & Hinj & Hgi)].
    apply list_elem_of_lookup in Hin as [j Hj].
    exists (Secondary j). split; [|done]. destruct (Hs ltac:(done)) as [Hact Huniq]. split.
    + simpl. by rewrite Hj.
    + done.
    + rewrite (He' i j b Hb Hj). done.
    + intros _. split; [by rewrite Ha|]. intros j2 Hj2. f_equal. apply Hinj.
      assert (Hx : forall m, scope_key account' (Secondary m) = Some key -> g m = i).
      { intros m Hm. simpl in Hm. rewrite Hgi in Hm. specialize (Huniq (g m) Hm). congruence. }
      rewrite (Hx j2 Hj2). symmetry. apply Hx. simpl. by rewrite Hj.
Qed.

Lemma usable_unique account connected eligible p scope key c c' :
  usable account connected eligible p scope key c -> usable account connected eligible p scope key c' -> c = c'.
Proof. intros [_ H1 _ _] [_ H2 _ _]. congruence. Qed.

(** The best of one account is the best of the other. *)
Lemma best_reordered account account' eligible eligible' connected p scope k scope' k' :
  reordered account account' eligible eligible' ->
  best account connected eligible p scope k -> best account' connected eligible' p scope' k' -> k = k'.
Proof.
  intros Hro (key & c & Hu & <- & Hbest) (key' & c' & Hu' & <- & Hbest').
  destruct (usable_reordered _ _ _ _ _ _ _ _ _ Hro Hu) as (sc1 & Hu1 & Hp1).
  destruct (usable_reordered _ _ _ _ _ _ _ _ _ (reordered_sym _ _ _ _ Hro) Hu') as (sc2 & Hu2 & Hp2).
  specialize (Hbest' _ _ _ Hu1). specialize (Hbest _ _ _ Hu2).
  assert (key = key') as ->.
  { destruct scope, scope', sc1, sc2; simpl in *; try tauto.
    - destruct Hu as [Hk _ _ _], Hu2 as [Hk2 _ _ _]. simpl in *. congruence.
    - apply cmp_eq. destruct (cmp key key') eqn:E; [done|done|]. by apply cmp_Gt in E. }
  f_equal. destruct Hu as [_ H1 _ _], Hu' as [_ H2 _ _]. congruence.
Qed.

Definition chosen_key (o : SelectionOutcome K) : option K := match o with Selected s => Some (sel_key s) | _ => None end.

(** C22. The pair a request uses is the best usable one: when the primary
    binding is not malformed (which refuses before anything is ranked), a pair
    is selected exactly when some enrolled scope is usable, it is the one
    allowed connected pair with that scope's exact key, and no usable scope
    ranks before it, the primary enrollment first and the added cameras in the
    order of their keys. *)
Theorem selection_is_best account connected eligible p :
  (malformed_primary account = true ->
   select_bound_for_account_with connected account eligible p = Refused InvalidBinding []) /\
  (malformed_primary account = false ->
   match select_bound_for_account_with connected account eligible p with
   | Selected s => best account connected eligible p (sel_scope s) (sel_key s)
   | NotApplicable _ | Refused _ _ => forall scope key c, ~ usable account connected eligible p scope key c
   end).
Proof.
  split; [|apply select_best]. intros Hm. unfold select_bound_for_account_with. by rewrite Hm.
Qed.

(** The order of the store never decides: removing and adding groups again
    so that the store holds them in another order does not change which
    connected camera a request uses. *)
Theorem selection_ignores_store_order account account' eligible eligible' connected p :
  reordered account account' eligible eligible' ->
  chosen_key (select_bound_for_account_with connected account eligible p) =
  chosen_key (select_bound_for_account_with connected account' eligible' p).
Proof.
  intros Hro. assert (Hm : malformed_primary account' = malformed_primary account).
  { unfold malformed_primary. by rewrite (ro_primary _ _ _ _ Hro). }
  destruct (malformed_primary account) eqn:Em.
  { unfold select_bound_for_account_with. by rewrite Em, Hm. }
  pose proof (select_best account connected eligible p Em) as B.
  pose proof (select_best account' connected eligible' p Hm) as B'.
  destruct (select_bound_for_account_with connected account eligible p) as [s|?|? ?];
    destruct (select_bound_for_account_with connected account' eligible' p) as [s'|?|? ?]; simpl; try done.
  1: f_equal; by eapply best_reordered.
  1-2: destruct B as (key & c & Hu & _); destruct (usable_reordered _ _ _ _ _ _ _ _ _ Hro Hu) as (sc & Hu' & _); by destruct (B' _ _ _ Hu').
  1-2: destruct B' as (key & c & Hu & _); destruct (usable_reordered _ _ _ _ _ _ _ _ _ (reordered_sym _ _ _ _ Hro) Hu) as (sc & Hu' & _); by destruct (B _ _ _ Hu').
Qed.

(** Whether an enrollment can serve the request is asked at most once per
    enrolled pair, in rank order, only of pairs that are otherwise ready, and
    never after a pair was accepted. *)
Theorem eligibility_asked_in_rank_order account connected eligible p :
  let asked := (ranking connected account eligible p).2 in
  sublist asked (ranked_scopes account).*1 /\ NoDup asked /\
  (forall l s r, asked = l ++ s :: r -> r <> [] -> eligible s = false) /\
  forall s, s ∈ asked -> exists key k, scope_key account s = Some key /\
    ready account (filter (fun c => key_validate (b_pair c) = true) connected) p s key = Some k.
Proof.
  cbv zeta. unfold ranking. set (valid := filter _ _).
  destruct (loop_spec account valid eligible p (ranked_scopes account)) as [sk ->]. cbn [snd].
  assert (Hsub : forall ranked, sublist (asked_of account valid eligible p ranked) ranked.*1).
  { induction ranked as [|[s k] ranked IH]; [constructor|]. simpl. destruct (ready account valid p s k); [|by constructor].
    destruct (eligible s); constructor; [apply sublist_nil_l|done]. }
  split; [apply Hsub|]. split; [|split].
  - eapply sublist_NoDup; [|apply Hsub]. unfold ranked_scopes. rewrite fmap_app.
    apply list.NoDup_app. split; [|split].
    + destruct (primary account ≫= complete_key); simpl; [apply NoDup_singleton|constructor].
    + intros s Hs Hs'. apply list_elem_of_fmap in Hs' as ([s' k'] & -> & Hs'). apply list_elem_of_fmap in Hs' as ([k i] & [= -> ->] & _).
      destruct (primary account ≫= complete_key); simpl in Hs; [by apply list_elem_of_singleton in Hs|by apply elem_of_nil in Hs].
    + assert (Hm : forall l : list (CompletePairKey * nat),
        (map (fun '(key, index) => (Secondary index, key)) l).*1 = Secondary <$> l.*2).
      { induction l as [|[k i] l IHl]; [done|]. simpl. f_equal. exact IHl. }
      rewrite Hm. apply NoDup_fmap_2; [by intros ? ? [= ->]|].
      unfold ranked_groups. rewrite sort_perm. apply complete_groups_sorted.
  - generalize (ranked_scopes account). induction l as [|[s k] ranked IH]; intros l' s' r; simpl; [by destruct l'|].
    destruct (ready account valid p s k); [|apply IH]. destruct (eligible s) eqn:Ee.
    + destruct l' as [|x [|y l']]; [|done|done]. by intros [= <- <-].
    + destruct l' as [|x l']; [by intros [= <- <-]|]. intros [= <- He]. by eapply IH.
  - intros s. assert (Hin : forall ranked, s ∈ asked_of account valid eligible p ranked ->
      exists key k, (s, key) ∈ ranked /\ ready account valid p s key = Some k).
    { induction ranked as [|[s0 k0] ranked IH]; simpl; [by intros ?%elem_of_nil|].
      destruct (ready account valid p s0 k0) as [k|] eqn:Er.
      - intros [->|Hs]%elem_of_cons; [exists k0, k; split; [by left|done]|].
        destruct (eligible s0); [by apply elem_of_nil in Hs|]. destruct (IH Hs) as (key & k' & Hx & Hy).
        exists key, k'. split; [by right|done].
      - intros Hs. destruct (IH Hs) as (key & k' & Hx & Hy). exists key, k'. split; [by right|done]. }
    intros Hs. destruct (Hin _ Hs) as (key & k & Hx & Hy). exists key, k. split; [by apply ranked_scopes_spec|done].
Qed.
End Theory.

(** ** First enrollment *)

Section Enroll.
Context {K : Type} `{OrdLaws K}.

Lemma rank_at_desc r : rank_at (rank_desc r) = r.
Proof. by destruct r. Qed.

(** The pairs a first enrollment may use come best first, allowlisted,
    then built in, then the rest, none that is external where external cameras
    are forbidden, and in an order that does not depend on the order the
    cameras were found in. *)
Theorem enrollment_order_canonical (connected connected' : list (CandidatePair K)) allowlist forbid :
  connected ≡ₚ connected' ->
  rank_enrollment_candidates connected allowlist forbid = rank_enrollment_candidates connected' allowlist forbid /\
  StronglySorted (fun a b => (rank_pos (e_rank b) <= rank_pos (e_rank a))%nat)
    (rank_enrollment_candidates connected allowlist forbid) /\
  forall e, e ∈ rank_enrollment_candidates connected allowlist forbid ->
    exists c, c ∈ connected /\ c_key c = e_key e /\ rank_of allowlist c = e_rank e /\ (forbid = true -> c_fixed c = true).
Proof.
  intros Hp. unfold rank_enrollment_candidates. set (allowed := filter _ connected). set (allowed' := filter _ connected').
  assert (Ha : allowed ≡ₚ allowed') by (unfold allowed, allowed'; by rewrite Hp). split; [|split].
  - rewrite (sort_unique (map (row allowlist) allowed) (map (row allowlist) allowed')) by (by apply Permutation_map).
    apply map_ext. intros (rank & rgb & ir & key). f_equal. apply bool_decide_ext.
    assert (Hl : filter (fun c => c_rgb c = rgb /\ c_ir c = ir) allowed ≡ₚ filter (fun c => c_rgb c = rgb /\ c_ir c = ir) allowed')
      by (by apply filter_Permutation). by rewrite Hl.
  - apply StronglySorted_fmap with (R1 := ord_le); [|apply sort_sorted].
    intros (r1 & rgb1 & ir1 & k1) (r2 & rgb2 & ir2 & k2) Hle. simpl.
    assert (r1 <= r2)%nat.
    { unfold ord_le, cmp, prod_ord, cmp, nat_ord, then_ in Hle. simpl in Hle. destruct (Nat.compare_spec r1 r2); [lia|lia|done]. }
    destruct r1 as [|[|r1]], r2 as [|[|r2]]; simpl; lia.
  - intros e He. apply list_elem_of_fmap in He as ((rank & rgb & ir & key) & -> & Hin).
    rewrite sort_perm in Hin. apply list_elem_of_fmap in Hin as (c & [= -> -> -> ->] & Hin).
    apply list_elem_of_filter in Hin as [Hf Hin]. exists c. split; [done|]. split; [done|]. split; [by rewrite rank_at_desc|].
    intros ->. by destruct (c_fixed c).
Qed.
End Enroll.

(** ** Two cameras *)

Module SelectionSample.
Definition cam (a b : string) : PairBinding := Ordinary (Some (str_codes a)) (Some (str_codes b)).
Definition account1 : AccountCameras := MkAccount (Some (Ordinary None None)) true false [cam "b" "b"; cam "a" "a"; cam "c" "c"].
Definition account2 : AccountCameras := MkAccount (Some (Ordinary None None)) true false [cam "c" "c"; cam "b" "b"; cam "a" "a"].
Definition plugged (n : nat) (a : string) (fixed : bool) : BoundCandidatePair nat :=
  MkBound n (COrdinary (str_codes a) (str_codes a)) fixed fixed.
Definition connected1 : list (BoundCandidatePair nat) := [plugged 1 "c" true; plugged 2 "b" true; plugged 3 "a" false].
(** The enrollment on camera [c] cannot serve the request. *)
Definition eligible1 (s : CandidateScope) : bool := negb (bool_decide (s = Secondary 2)).
Definition eligible2 (s : CandidateScope) : bool := negb (bool_decide (s = Secondary 0)).
Definition built_in_only : ExternalCameraPolicy := MkPolicy true true.

Lemma reordered1 : reordered account1 account2 eligible1 eligible2.
Proof.
  split; [done|done| |split; [done|]].
  - apply (Permutation_cons_append [cam "b" "b"; cam "a" "a"] (cam "c" "c")).
  - intros i j b Hi Hj. destruct i as [|[|[|i]]], j as [|[|[|j]]]; try done; simpl in *; injection Hi as <-; discriminate Hj.
Qed.
End SelectionSample.

Lemma selection_ignores_store_order_witness :
  chosen_key (select_bound_for_account_with SelectionSample.connected1 SelectionSample.account1 SelectionSample.eligible1
    SelectionSample.built_in_only) = Some 2%nat /\
  chosen_key (select_bound_for_account_with SelectionSample.connected1 SelectionSample.account2 SelectionSample.eligible2
    SelectionSample.built_in_only) = Some 2%nat.
Proof.
  split; [vm_compute; reflexivity|].
  rewrite <- (selection_ignores_store_order SelectionSample.account1 SelectionSample.account2 SelectionSample.eligible1
    SelectionSample.eligible2 SelectionSample.connected1 SelectionSample.built_in_only).
  - vm_compute. reflexivity.
  - apply SelectionSample.reordered1.
Defined.

Lemma selection_is_best_witness :
  best SelectionSample.account1 SelectionSample.connected1 SelectionSample.eligible1 SelectionSample.built_in_only
    (Secondary 0) 2%nat.
Proof.
  apply (selection_is_best SelectionSample.account1 SelectionSample.connected1 SelectionSample.eligible1
    SelectionSample.built_in_only).
  vm_compute. reflexivity.
Defined.

Lemma enrollment_order_canonical_witness :
  let a := MkCandidate 1%nat (str_codes "aa:bb:1") (str_codes "aa:bb:1") false in
  let b := MkCandidate 2%nat (str_codes "cc:dd") (str_codes "cc:dd") true in
  rank_enrollment_candidates [a; b] [str_codes "AA:BB "] false = rank_enrollment_candidates [b; a] [str_codes "AA:BB "] false /\
  map e_key (rank_enrollment_candidates [a; b] [str_codes "AA:BB "] false) = [1; 2]%nat.
Proof.
  cbv zeta. split; [|vm_compute; reflexivity].
  apply enrollment_order_canonical. apply Permutation_swap.
Defined.
