(* ===== verification/PinnedGroup.v ===== *)
(** * One attempt on an added camera

    [irlume-core/src/multi_camera/views.rs], the views of an account's
    enrollment by camera group, and [multi_camera/coordinator.rs], which pins
    one group for an attempt and checks at the grant that nothing changed. *)

From S2P Require Import Prelude Text Ordering CameraKeys CameraStore CameraStoreTheory Replacement ReplacementTheory CommitJournal CommitTheory CommitClaims.

Section Pinned.
Context {FaceScan IrCalibration : Type} `{Codec FaceScan IrCalibration} `{IntentCodec}.
Abbreviation StoreT := (SecondaryStore FaceScan IrCalibration).

(** ** views.rs *)

Inductive GroupScope := PrimaryScope | SecondaryScope (gid : str).
#[export] Instance GroupScope_eq_dec : EqDecision GroupScope.
Proof. solve_decision. Defined.

Record ScopedProfileView := MkView { v_profile : str; v_scans : list FaceScan; v_calibs : gmap str IrCalibration }.
Record CameraGroupView := MkGroupView { scope : GroupScope; v_pair : PairBinding; v_profiles : list ScopedProfileView }.
Record CameraScopedViews := MkViews { group_views : list CameraGroupView; views_active : bool }.

(** What composition reads of the primary enrollment. *)
Record FaceProfile := MkProfile { p_name : str; p_scans : list FaceScan; p_calibs : gmap str IrCalibration }.
Record PrimaryEnrollment := MkEnrollment { camera_binding : option PairBinding; p_profiles : list FaceProfile }.

Definition default_binding : PairBinding := Ordinary None None.
Definition primary_view (e : PrimaryEnrollment) : CameraGroupView :=
  MkGroupView PrimaryScope (default default_binding (camera_binding e))
    (map (fun p => MkView (p_name p) (p_scans p) (p_calibs p)) (p_profiles e)).
Definition secondary_view_of (g : SecondaryGroup FaceScan IrCalibration) : CameraGroupView :=
  MkGroupView (SecondaryScope (id g)) (pair g) (map (fun p => MkView (profile p) (scans p) (ir_calibs p)) (profiles g)).

(** [CameraScopedViews::compose]. *)
Definition compose (e : PrimaryEnrollment) (primary_bytes : bytes) (secondary : option StoreT)
    : result SecondaryStoreError CameraScopedViews :=
  _ ← (match secondary with Some s => validate_store s | None => Ok () end);
  match secondary with
  | Some s =>
      if bool_decide (activation_against sha256_hex s (Some primary_bytes) = Active)
      then Ok (MkViews (primary_view e :: map secondary_view_of (groups s)) true)
      else Ok (MkViews [primary_view e] false)
  | None => Ok (MkViews [primary_view e] false)
  end.

(** [secondary_view]. *)
Definition secondary_view (v : CameraScopedViews) (gid : str) : option CameraGroupView :=
  find (fun g => bool_decide (scope g = SecondaryScope gid)) (group_views v).

(** ** coordinator.rs *)

Inductive PinError := SecondaryUnusable | GroupNotActive | GroupInactive (index : nat) | PinAmbiguous.

Record SecondaryAuthContext := MkContext {
  pinned : GrantContext;
  x_pair : PairBinding;
  x_views : CameraScopedViews;
  group_index : nat;
  store_index : nat;
}.

Definition view_position (v : CameraScopedViews) (gid : str) : option nat :=
  position (fun g => bool_decide (scope g = SecondaryScope gid)) (group_views v).

Definition context_of (s : StoreT) (gid : str) (p : PairBinding) (v : CameraScopedViews) (index store_index : nat) :=
  MkContext (MkGrant (generation s) (primary_snapshot_sha256 s) gid) p v index store_index.

(** [pin_loaded_ordinary]. *)
Definition pin_loaded_ordinary (e : PrimaryEnrollment) (primary_bytes : bytes) (s : StoreT) (live_rgb live_ir : option str)
    : result PinError SecondaryAuthContext :=
  match compose e primary_bytes (Some s) with
  | Err _ => Err SecondaryUnusable
  | Ok v =>
      g ← ok_or GroupNotActive (group_for_pair s live_rgb live_ir);
      let store_index := default O (position (fun g' => bool_decide (id g' = id g)) (groups s)) in
      index ← ok_or GroupNotActive (view_position v (id g));
      Ok (context_of s (id g) (pair g) v index store_index)
  end.

(** [pin_key_from_loaded]. *)
Definition pin_key_from_loaded (user : str) (e : PrimaryEnrollment) (primary_bytes : bytes) (key : CompletePairKey) (s : StoreT)
    : result PinError SecondaryAuthContext :=
  if negb (is_ok (validate_store s)) then Err SecondaryUnusable
  else if negb (bool_decide (owner s = user)) then Err SecondaryUnusable
  else
    match strict_group_for_key s key with
    | NoMatch => Err GroupNotActive
    | Ambiguous => Err PinAmbiguous
    | One index g =>
        if negb (bool_decide (activation_against sha256_hex s (Some primary_bytes) = Active)) then Err (GroupInactive index)
        else
          match compose e primary_bytes (Some s) with
          | Err _ => Err SecondaryUnusable
          | Ok v =>
              match view_position v (id g) with
              | None => Err (GroupInactive index)
              | Some i => Ok (context_of s (id g) (pair g) v i index)
              end
          end
    end.

(** The secondary store as a pin reads it: the journal resolved first, then the
    file; an absent store is an error. *)
Definition pin_store (template_key : result SecondaryStoreError (option bytes)) : M (result PinError StoreT) :=
  resolved ← try resolve_commit;
  match resolved with
  | None => mret (Err SecondaryUnusable)
  | Some _ =>
      file ← try (read_file Store);
      mret (match load_secondary_with_source (ok_or Io file) template_key with
            | Ok (Some s) => Ok s
            | Ok None | Err _ => Err SecondaryUnusable
            end)
  end.

(** [pin_key_with_source]. *)
Definition pin_key_with_source (template_key : result SecondaryStoreError (option bytes)) (user : str) (e : PrimaryEnrollment)
    (primary_bytes : bytes) (key : CompletePairKey) : M (result PinError SecondaryAuthContext) :=
  s ← pin_store template_key;
  mret (s ← s; pin_key_from_loaded user e primary_bytes key s).

(** [pin_with_primary_snapshot]. *)
Definition pin_with_primary_snapshot (template_key : result SecondaryStoreError (option bytes)) (user : str) (e : PrimaryEnrollment)
    (primary_bytes : bytes) (live : PairBinding) : M (result PinError SecondaryAuthContext) :=
  match complete_key live with
  | Some key => pin_key_with_source template_key user e primary_bytes key
  | None =>
      match live with
      | Split _ => mret (Err GroupNotActive)
      | Ordinary rgb ir =>
          s ← pin_store template_key;
          mret (s ← s;
                if bool_decide (owner s = user) then pin_loaded_ordinary e primary_bytes s rgb ir
                else Err SecondaryUnusable)
      end
  end.

(** [group_view], [boundary_check] and [boundary_check_now_with]. *)
Definition group_view (x : SecondaryAuthContext) : option CameraGroupView := group_views (x_views x) !! group_index x.
Definition boundary_check (x : SecondaryAuthContext) (primary : option bytes) (secondary : option StoreT) : GrantDecision :=
  grant_boundary_check (pinned x) (Some (x_pair x)) primary secondary.
Definition boundary_check_now (template_key : result SecondaryStoreError (option bytes)) (x : SecondaryAuthContext) : M GrantDecision :=
  grant_boundary_now template_key (pinned x) (Some (x_pair x)).

(** ** Pinning *)

Lemma position_lookup {A} (f : A -> bool) l i x :
  l !! i = Some x -> f x = true -> (forall j y, l !! j = Some y -> f y = true -> j = i) -> position f l = Some i.
Proof.
  revert i; induction l as [|y l IH]; intros [|i] Hl Hf Hu; try done; simpl in *.
  - injection Hl as ->. by rewrite Hf.
  - destruct (f y) eqn:Ey; [by specialize (Hu 0%nat y eq_refl Ey)|].
    rewrite (IH i Hl Hf); [done|]. intros j z Hj Hz. specialize (Hu (S j) z Hj Hz). lia.
Qed.

Lemma position_views gs i g :
  NoDup (id <$> gs) -> gs !! i = Some g ->
  position (fun v => bool_decide (scope v = SecondaryScope (id g))) (map secondary_view_of gs) = Some i.
Proof.
  intros Hnd Hi. apply (position_lookup _ _ i (secondary_view_of g)).
  - rewrite list_lookup_fmap, Hi. done.
  - by apply bool_decide_eq_true.
  - intros j y Hj Hy. rewrite list_lookup_fmap in Hj. destruct (gs !! j) as [h|] eqn:Eh; [|done].
    injection Hj as <-. apply bool_decide_eq_true in Hy. injection Hy as Hy.
    apply (NoDup_lookup (id <$> gs) j i (id g)); [done|rewrite list_lookup_fmap, Eh; simpl; by f_equal|by rewrite list_lookup_fmap, Hi].
Qed.

Lemma compose_active e pb s :
  valid_store s -> sha256_hex pb = primary_snapshot_sha256 s ->
  compose e pb (Some s) = Ok (MkViews (primary_view e :: map secondary_view_of (groups s)) true).
Proof.
  intros Hv Hd. unfold compose. rewrite (proj2 (validate_store_spec s) Hv). simpl.
  unfold activation_against. rewrite (bool_decide_eq_true_2 (sha256_hex pb = _)) by done. done.
Qed.

(** What a strict pin has established. *)
Record pinned_on (user : str) (pb : bytes) (key : CompletePairKey) (s : StoreT) (x : SecondaryAuthContext) (i : nat)
    (g : SecondaryGroup FaceScan IrCalibration) : Prop := {
  po_valid : valid_store s;
  po_owner : owner s = user;
  po_group : groups s !! i = Some g;
  po_key : complete_key (pair g) = Some key;
  po_only : forall j h, groups s !! j = Some h -> complete_key (pair h) = Some key -> j = i;
  po_primary : sha256_hex pb = primary_snapshot_sha256 s;
  po_pinned : pinned x = MkGrant (generation s) (primary_snapshot_sha256 s) (id g);
  po_pair : x_pair x = pair g;
  po_index : store_index x = i;
  po_view : group_view x = Some (secondary_view_of g);
}.

Lemma active_digest (s : StoreT) pb : activation_against sha256_hex s (Some pb) = Active <-> sha256_hex pb = primary_snapshot_sha256 s.
Proof. unfold activation_against. case_bool_decide; naive_solver. Qed.

Lemma pin_key_Ok user e pb key s x :
  pin_key_from_loaded user e pb key s = Ok x -> exists i g, pinned_on user pb key s x i g.
Proof.
  unfold pin_key_from_loaded. destruct (validate_store s) as [[]|] eqn:Ev; [|done]. apply validate_store_spec in Ev. simpl.
  case_bool_decide as Ho; simpl; [|done]. destruct (strict_group_for_key s key) as [|i g|] eqn:Es; [done| |done].
  apply strict_spec in Es as (_ & Hi & Hk & Hu). case_bool_decide as Ha; simpl; [|done]. apply active_digest in Ha.
  rewrite (compose_active e pb s Ev Ha). unfold view_position. simpl.
  rewrite (position_views (groups s) i g); [|by destruct Ev|done]. simpl. intros [= <-].
  exists i, g. split; try done. unfold group_view. simpl. by rewrite list_lookup_fmap, Hi.
Qed.

Lemma pin_key_total user e pb key s :
  match pin_key_from_loaded user e pb key s with
  | Ok x => exists i g, pinned_on user pb key s x i g
  | Err SecondaryUnusable => ~ valid_store s \/ owner s <> user
  | Err GroupNotActive => valid_store s /\ owner s = user /\ strict_group_for_key s key = NoMatch
  | Err PinAmbiguous => valid_store s /\ owner s = user /\ strict_group_for_key s key = Ambiguous
  | Err (GroupInactive i) => valid_store s /\ owner s = user /\ sha256_hex pb <> primary_snapshot_sha256 s /\
      exists g, strict_group_for_key s key = One i g
  end.
Proof.
  destruct (pin_key_from_loaded user e pb key s) as [x|err] eqn:Ep; [by eapply pin_key_Ok|].
  revert Ep. unfold pin_key_from_loaded. destruct (validate_store s) as [[]|ev] eqn:Ev; simpl.
  2: { intros [= <-]. left. intros Hv. apply validate_store_spec in Hv. congruence. }
  apply validate_store_spec in Ev. case_bool_decide as Ho; simpl; [|intros [= <-]; by right].
  destruct (strict_group_for_key s key) as [|i g|] eqn:Es; [by intros [= <-]| |by intros [= <-]].
  case_bool_decide as Ha; simpl.
  - apply active_digest in Ha. rewrite (compose_active e pb s Ev Ha). unfold view_position. simpl.
    apply strict_spec in Es as (_ & Hi & _). rewrite (position_views (groups s) i g); [done|by destruct Ev|done].
  - intros [= <-]. split; [done|]. split; [done|]. split; [|by exists g]. intros Hx. by apply Ha, active_digest.
Qed.

(** Pinning an attempt on an added camera succeeds exactly for a valid
    store of the account that is authorized against the enrollment's bytes
    and in which one group alone holds exactly the configured pair, and the
    attempt then sees that group's scans and no others; each refusal names the
    condition that failed. *)
Theorem pin_is_exact user e pb key s :
  match pin_key_from_loaded user e pb key s with
  | Ok x => exists i g, pinned_on user pb key s x i g
  | Err SecondaryUnusable => ~ valid_store s \/ owner s <> user
  | Err GroupNotActive => valid_store s /\ owner s = user /\ strict_group_for_key s key = NoMatch
  | Err PinAmbiguous => valid_store s /\ owner s = user /\ strict_group_for_key s key = Ambiguous
  | Err (GroupInactive i) => valid_store s /\ owner s = user /\ sha256_hex pb <> primary_snapshot_sha256 s /\
      exists g, strict_group_for_key s key = One i g
  end.
Proof. apply pin_key_total. Qed.

(** ** The grant *)

Lemma found_id (s : StoreT) i (g h : SecondaryGroup FaceScan IrCalibration) :
  valid_store s -> groups s !! i = Some g -> find (fun h => bool_decide (id h = id g)) (groups s) = Some h -> h = g.
Proof.
  intros Hv Hi Hf. apply find_some in Hf as [Hin Hid]. apply bool_decide_eq_true in Hid.
  apply list_elem_of_In in Hin. apply list_elem_of_lookup in Hin as [j Hj].
  assert (j = i) as ->; [|congruence].
  apply (NoDup_lookup (id <$> groups s) j i (id g)); [by destruct Hv|rewrite list_lookup_fmap, Hj; simpl; by f_equal|by rewrite list_lookup_fmap, Hi].
Qed.

Lemma find_own (s : StoreT) i g :
  valid_store s -> groups s !! i = Some g -> find (fun h => bool_decide (id h = id g)) (groups s) = Some g.
Proof.
  intros Hv Hi. destruct (find (fun h => bool_decide (id h = id g)) (groups s)) as [h|] eqn:Ef.
  - f_equal. by eapply found_id.
  - exfalso. assert (Hin : In g (groups s)) by (apply list_elem_of_In; by eapply list_elem_of_lookup_2).
    pose proof (find_none _ _ Ef g Hin) as Hn. cbn beta in Hn. by apply bool_decide_eq_false in Hn.
Qed.

(** C31. While nothing changes a pinned attempt grants; when it grants, then at
    the boundary the enrollment's bytes have the digest of those the attempt
    was pinned against, and the account's store has the same generation and
    still binds the pinned group's name to the whole pair it was pinned on. *)
Theorem pinned_attempt_grants_unchanged user e pb key s x :
  pin_key_from_loaded user e pb key s = Ok x ->
  boundary_check x (Some pb) (Some s) = Grant /\
  forall primary secondary, boundary_check x primary secondary = Grant ->
    exists b s' g, primary = Some b /\ secondary = Some s' /\ sha256_hex b = sha256_hex pb /\
      generation s' = generation s /\ g ∈ groups s' /\ id g = group_id (pinned x) /\ complete_key (pair g) = Some key.
Proof.
  intros Hp. destruct (pin_key_Ok _ _ _ _ _ _ Hp) as (i & g & [Hv Ho Hi Hk Hu Hd Hpin Hpair Hidx Hview]).
  unfold boundary_check. rewrite Hpin, Hpair. split.
  - apply boundary_spec. exists s, pb, g. simpl. repeat split; try done; [by eapply find_own|].
    unfold complete_key in Hk. by destruct (validate (pair g)).
  - intros primary secondary (s' & b & g' & -> & -> & Hg & Hb & Ha & Hf & Hpe & _)%boundary_spec. simpl in *.
    apply find_some in Hf as [Hin Hid]. apply bool_decide_eq_true in Hid. exists b, s', g'.
    split; [done|]. split; [done|]. split; [congruence|]. split; [done|].
    split; [by apply list_elem_of_In|]. split; [done|]. by rewrite Hpe.
Qed.

(** ** The boundary reads the current files *)

Definition anything (_ : fs) : Prop := True.

Lemma t_anything {A} (m : M A) : triple False anything m (fun _ => anything) anything anything.
Proof. intros s _ _. by destruct (m s) as [[a| |] s']; repeat split; tauto. Qed.

Lemma t_no_journal : triple False anything resolve_commit (fun _ s => vis s Journal = None) anything anything.
Proof.
  unfold resolve_commit. eapply t_bind; [by apply (t_read Journal anything)|]. intros [j|].
  - destruct (journal_payload j) as [b|]; [|apply t_error; intros; split; [done|tauto]].
    eapply t_bind with (R := fun _ => anything); [eapply t_pre; [|apply t_anything]; done|]. intros ?.
    eapply t_bind with (R := fun _ s => vis s Journal = None); [|intros ?; by apply t_ret].
    unfold remove_synced. eapply t_bind with (R := fun r s => r = true -> vis s Journal = None).
    + by apply t_remove.
    + intros [|]; [|apply t_error; intros; split; [done|tauto]].
      apply t_fsync; [by intros s sc Hs|done|done|]. intros s Hs. by apply Hs.
  - apply t_ret. by intros s [_ Hv].
Qed.

Lemma t_boundary_now tk pinned_ pair_ :
  triple False anything (grant_boundary_now tk pinned_ pair_)
    (fun d s => d = Grant -> vis s Journal = None /\
      exists f st b, vis s Store = Some f /\ load_secondary_with_source (Ok (Some f)) tk = Ok (Some st) /\
        vis s Enrollment = Some b /\ grant_boundary_check pinned_ pair_ (Some b) (Some st) = Grant) anything anything.
Proof.
  unfold grant_boundary_now. eapply t_bind; [apply t_no_journal|]. intros ?.
  eapply t_bind; [apply t_read; [by intros s sc Hs|done|done]|]. intros file.
  destruct (load_secondary_with_source (Ok file) tk) as [o|] eqn:El; simpl.
  2: { eapply t_bind with (R := fun _ _ => False); [apply t_error; intros; split; [done|tauto]|by intros ? s []]. }
  eapply t_bind with (R := fun o' s => o' = o /\ vis s Journal = None /\ file = vis s Store); [by apply t_ret|].
  intros o' s (-> & Hj & Hf). revert s Hj Hf.
  destruct o as [st|]; [|intros s Hj Hf _; by split].
  destruct file as [f|]; [|simpl in El; discriminate].
  assert (T : triple False (fun s => vis s Journal = None /\ Some f = vis s Store)
    (primary ← try (read_file Enrollment); mret (grant_boundary_check pinned_ pair_ (mjoin primary) (Some st)))
    (fun d s => d = Grant -> vis s Journal = None /\
      exists f st b, vis s Store = Some f /\ load_secondary_with_source (Ok (Some f)) tk = Ok (Some st) /\
        vis s Enrollment = Some b /\ grant_boundary_check pinned_ pair_ (Some b) (Some st) = Grant) anything anything).
  2: { intros s Hj Hf. by apply T. }
  eapply t_bind with (R := fun r s => (vis s Journal = None /\ Some f = vis s Store) /\ (forall v, r = Some v -> v = vis s Enrollment)).
  - apply (t_try _ _ _ _ (fun s => vis s Journal = None /\ Some f = vis s Store)); [|by intros _ s Hs].
    eapply t_post; [apply t_read; [by intros s sc Hs|done|done]|]. intros v s [Hs ->]. split; [done|]. by intros v [= <-].
  - intros r. apply t_ret. intros s [[Hj Hf] Hr] Hg. split; [done|].
    destruct r as [[b|]|]; simpl in Hg.
    + exists f, st, b. repeat split; try done. by rewrite <- (Hr (Some b) eq_refl).
    + by destruct (negb _).
    + by destruct (negb _).
Qed.

(** A grant is decided on the files as they are at the boundary: when it is
    given, the publication's journal is gone, and the store and the enrollment
    whose contents were checked are the files then in place. *)
Theorem grant_reads_current_files tk x s s' :
  boundary_check_now tk x s = (Done Grant, s') ->
  vis s' Journal = None /\
  exists f st b, vis s' Store = Some f /\ load_secondary_with_source (Ok (Some f)) tk = Ok (Some st) /\
    vis s' Enrollment = Some b /\ boundary_check x (Some b) (Some st) = Grant.
Proof.
  intros Hd. pose proof (t_boundary_now tk (pinned x) (Some (x_pair x)) s Logic.I ltac:(done)) as T.
  unfold boundary_check_now in Hd. rewrite Hd in T. destruct T as [T _]. by apply T.
Qed.
End Pinned.

(** ** One attempt *)

Module PinnedSample.
Import StoreSample CommitSample.
Definition rgb1 : str := str_codes "5986:2113".
Definition ir1 : str := str_codes "5986:1141".
Definition group2 : SecondaryGroup () () :=
  MkGroup (str_codes "cam-1") (Ordinary (Some rgb1) (Some ir1)) [MkScans (str_codes "default") [(); ()] ∅].
Definition store2 : SecondaryStore () () := MkStore 1 (str_codes "alice") 3 hex64 [group2].
Definition enrollment2 : @PrimaryEnrollment () () := MkEnrollment None [].
Definition key2 : CompletePairKey := COrdinary rgb1 ir1.
Definition context2 : @SecondaryAuthContext () () :=
  context_of store2 (str_codes "cam-1") (pair group2) (MkViews [primary_view enrollment2; secondary_view_of group2] true) 1 0.
Lemma pin2 : pin_key_from_loaded (str_codes "alice") enrollment2 [] key2 store2 = Ok context2.
Proof. vm_compute. reflexivity. Qed.
(** The plaintext store of [StoreSample], with a one-sided group. *)
Definition context1 : @SecondaryAuthContext () () :=
  context_of store1 (str_codes "cam-1") (pair group1) (MkViews [] true) 1 0.
Definition files1 : fs :=
  MkFs (fun p => match p with Store => Some [Byte.x01] | Enrollment => Some [] | _ => None end) (fun _ => []) [].
End PinnedSample.

Lemma pinned_attempt_grants_unchanged_witness :
  boundary_check PinnedSample.context2 (Some []) (Some PinnedSample.store2) = Grant.
Proof.
  apply (pinned_attempt_grants_unchanged (str_codes "alice") PinnedSample.enrollment2 [] PinnedSample.key2 PinnedSample.store2).
  vm_compute. reflexivity.
Defined.

Lemma grant_reads_current_files_witness :
  vis (snd (boundary_check_now (Ok None) PinnedSample.context1 PinnedSample.files1)) Journal = None.
Proof.
  apply (grant_reads_current_files (Ok None) PinnedSample.context1 PinnedSample.files1).
  vm_compute. reflexivity.
Defined.
