(* ===== verification/PamGrammar.v ===== *)
(** * Reading PAM stacks

    [irlume-cli/src/pamwire/grammar.rs], with the names of [stanzas.rs] it
    looks for: the fields of a line as libpam splits them, controls and their
    numeric jumps, the lines irlume does not read as libpam does, the password
    step and the anchor of irlume's lines, and the proof that every session
    path runs a reseal rule.  A line is its bytes; a slice of a line that the
    code compares by address carries its offset ([control_at]).

    The stack reader the code keeps in a thread-local is the [STACK_READER]
    argument of what uses it.  The messages of [Unread::describe] are left
    out. *)

From S2P Require Import Prelude Text Ordering.

(** ** stanzas.rs *)

Definition MODULE : str := str_codes "pam_irlume.so".
Definition KEYRING_CONSUMERS : list str :=
  map str_codes ["pam_kwallet5.so"; "pam_kwallet.so"; "pam_gnome_keyring.so"; "pam_oo7.so"].

(** ** Fields *)

(** What libpam does with one return value of a line. *)
Module Action.
Inductive t := Ignore | Ok | Done | Bad | Die | Reset | Jump (n : Z).
#[global] Instance t_eq_dec : EqDecision t.
Proof. solve_decision. Defined.
End Action.

Module grammar.

Definition word (s : string) : str := str_codes s.
Definition one_of (cs : list Z) (c : Z) : bool := bool_decide (c ∈ cs).

Definition TYPES : list str := map word ["auth"; "account"; "password"; "session"].
Definition FIELD_DELIMITERS : list Z := [32; 9; 10].

(** Up to the first [ ] ] not written [\]], and what follows it. *)
Fixpoint until_close (l : str) : str * str :=
  match l with
  | [] => ([], [])
  | 93 :: l' => ([], l')
  | 92 :: ((93 :: l'') as l') => let '(a, b) := until_close l'' in (92 :: 93 :: a, b)
  | x :: l' => let '(a, b) := until_close l' in (x :: a, b)
  end.

(** The next field and what is left after it. *)
Definition next_field (rest : str) : option (str * str) :=
  match trim_start_matches (one_of FIELD_DELIMITERS) rest with
  | [] => None
  | 91 :: inner => Some (until_close inner)
  | s => Some (span (fun c => negb (one_of FIELD_DELIMITERS c)) s)
  end.

Definition type_field (rest : str) : option (str * str) :=
  '(kind, rest) ← next_field rest;
  Some (default kind (strip_prefix (word "-") kind), rest).

Definition is_blank : Z -> bool := one_of [32; 9].

Definition directive (line : str) : str := before 35 (trim_start_matches is_blank line).

Record Head := MkHead { phase : str; control : str; rest : str; known_type : bool }.

Definition head (line : str) : option Head :=
  '(kind, r) ← type_field (directive line);
  if eq_ignore_ascii_case kind (word "@include") then None
  else
    let p := List.find (fun p => eq_ignore_ascii_case p kind) TYPES in
    let '(c, r) := default ([], []) (next_field r) in
    Some (MkHead (default (word "auth") p) c r (bool_decide (is_Some p))).

(** Where the control of the line starts in it: the slice [head] gives. *)
Definition control_at (line : str) : option nat :=
  let d := directive line in
  '(_, r) ← type_field d;
  let s := trim_start_matches (one_of FIELD_DELIMITERS) r in
  let opened := if s is 91 :: _ then 1%nat else 0%nat in
  Some (length line - length (trim_start_matches is_blank line) + (length d - length r) + (length r - length s) + opened)%nat.

Definition third_field (h : Head) : option str := fst <$> next_field (rest h).

Fixpoint fields_from (fuel : nat) (rest : str) : list str :=
  match fuel with
  | O => []
  | S fuel => match next_field rest with None => [] | Some (f, rest) => f :: fields_from fuel rest end
  end.
Definition fields_after_control (h : Head) : list str := fields_from (length (rest h)) (rest h).

Definition is_at_include (line : str) : bool :=
  match type_field (directive line) with
  | Some (kind, _) => eq_ignore_ascii_case kind (word "@include")
  | None => false
  end.

Definition at_include_target (line : str) : option str :=
  '(kind, r) ← type_field (directive line);
  if negb (eq_ignore_ascii_case kind (word "@include")) then None else fst <$> next_field r.

Definition names_stack (h : Head) : bool :=
  eq_ignore_ascii_case (control h) (word "include") || eq_ignore_ascii_case (control h) (word "substack").

Definition stack_name (h : Head) : option str := if names_stack h then third_field h else None.

(** ** Controls *)

Definition CONTROL_KEYWORDS : list str :=
  map word ["required"; "requisite"; "sufficient"; "optional"; "include"; "substack"].

Definition RETURN_VALUES : list str := map word [
  "success"; "open_err"; "symbol_err"; "service_err"; "system_err"; "buf_err"; "perm_denied"; "auth_err";
  "cred_insufficient"; "authinfo_unavail"; "user_unknown"; "maxtries"; "new_authtok_reqd"; "acct_expired";
  "session_err"; "cred_unavail"; "cred_expired"; "cred_err"; "no_module_data"; "conv_err"; "authtok_err";
  "authtok_recover_err"; "authtok_lock_busy"; "authtok_disable_aging"; "try_again"; "ignore"; "abort";
  "authtok_expired"; "module_unknown"; "bad_item"; "conv_again"; "incomplete"; "default"].
(** [RETURN_VALUES[..32]]. *)
Definition VALUES : list str := take 32 RETURN_VALUES.

Definition MAX_JUMP : Z := 2 ^ 31 - 1.

Definition control_blank : Z -> bool := one_of [32; 9; 10; 11; 12; 13].

Definition ACTION_NAMES : list (str * Action.t) :=
  [(word "ignore", Action.Ignore); (word "ok", Action.Ok); (word "done", Action.Done);
   (word "bad", Action.Bad); (word "die", Action.Die); (word "reset", Action.Reset)].

(** The blanks at the start of the bytes: the index after them, and what is
    left. *)
Definition skip (i : nat) (b : str) : nat * str :=
  let s := trim_start_matches control_blank b in ((i + (length b - length s))%nat, s).

(** The digits of a jump: its value, the index after them, and what is left. *)
Fixpoint jump_digits (i : nat) (n : Z) (b : str) : option (Z * nat * str) :=
  match b with
  | d :: b' =>
      if is_ascii_digit d then
        let n := n * 10 + (d - 48) in
        if MAX_JUMP <? n then None else jump_digits (S i) n b'
      else Some (n, i, b)
  | [] => Some (n, i, [])
  end.

Record Pair := MkPair { value : str; action : Action.t; span_start : nat; span_end : nat }.

(** The pair at index [i] of the control, where [b] is left and no blank
    leads: the pair, the index after it, and what is left. *)
Definition one_pair (i : nat) (b : str) : option (Pair * nat * str) :=
  v ← List.find (fun v => starts_with v b) RETURN_VALUES;
  let i := (i + length v)%nat in let b := drop (length v) b in
  if bool_decide (b = []) then None else
  let '(i, b) := skip i b in
  if negb (bool_decide (b !! 0%nat = Some 61)) then None else
  let '(i, b) := skip (S i) (drop 1 b) in
  if bool_decide (b = []) then None else
  match List.find (fun na => starts_with na.1 b) ACTION_NAMES with
  | Some (name, a) =>
      let i' := (i + length name)%nat in Some (MkPair v a i i', i', drop (length name) b)
  | None =>
      if negb (match b with d :: _ => is_ascii_digit d | [] => false end) then None else
      '(n, i', b) ← jump_digits i 0 b;
      if bool_decide (n = 0) then None else Some (MkPair v (Action.Jump n) i i', i', b)
  end.

(** The loop of [control_pairs_at]; each turn reads at least one byte. *)
Fixpoint pairs_from (fuel : nat) (i : nat) (b : str) : option (list Pair) :=
  match fuel with
  | O => None
  | S fuel =>
      let '(i, b) := skip i b in
      if bool_decide (b = []) then Some [] else
      '(p, i, b) ← one_pair i b;
      pairs ← pairs_from fuel i b;
      Some (p :: pairs)
  end.

Definition control_pairs_at (control : str) : option (list Pair) := pairs_from (S (length control)) 0 control.

Definition plain (pairs : list Pair) : list (str * Action.t) := map (fun p => (value p, action p)) pairs.
Definition control_pairs (control : str) : option (list (str * Action.t)) := plain <$> control_pairs_at control.

(** One turn of [set_by]: the pair at index [at_]. *)
Definition set_pair (slots : list (option nat)) (at_ : nat) (v : str) : list (option nat) :=
  match position (fun v' => bool_decide (v' = v)) VALUES with
  | Some r => <[r := Some at_]> slots
  | None => map (fun s => match s with None => Some at_ | Some _ => s end) slots
  end.
Fixpoint set_pairs (slots : list (option nat)) (at_ : nat) (pairs : list (str * Action.t)) : list (option nat) :=
  match pairs with
  | [] => slots
  | (v, _) :: pairs => set_pairs (set_pair slots at_ v) (S at_) pairs
  end.
Definition set_by (pairs : list (str * Action.t)) : list (option nat) := set_pairs (replicate 32 None) 0 pairs.

Definition value_at (v : str) : option nat := position (fun v' => bool_decide (v' = v)) RETURN_VALUES.
Definition put (v : str) (a : Action.t) (table : list Action.t) : list Action.t :=
  match value_at v with Some r => <[r := a]> table | None => table end.
Definition keyword (success : Action.t) (ignore : option Action.t) (others : Action.t) : list Action.t :=
  let table := put (word "new_authtok_reqd") success (put (word "success") success (replicate 32 others)) in
  match ignore with Some a => put (word "ignore") a table | None => table end.

Definition control_actions (control : str) : option (list Action.t) :=
  let is_word k := eq_ignore_ascii_case control (word k) in
  if bool_decide (control = []) || is_word "include" || is_word "substack" then None
  else if is_word "required" then Some (keyword Action.Ok (Some Action.Ignore) Action.Bad)
  else if is_word "requisite" then Some (keyword Action.Ok (Some Action.Ignore) Action.Die)
  else if is_word "optional" then Some (keyword Action.Ok None Action.Ignore)
  else if is_word "sufficient" then Some (keyword Action.Done None Action.Ignore)
  else match control_pairs control with
       | None => Some (replicate 32 Action.Bad)
       | Some pairs =>
           Some (map (fun by_ => default Action.Bad (snd <$> (by_ ≫= fun at_ => pairs !! at_))) (set_by pairs))
       end.

Definition control_ignores_module_ignore (control : str) : bool :=
  match control_actions control with
  | Some table =>
      match position (fun v => bool_decide (v = word "ignore")) VALUES with
      | Some at_ => bool_decide (table !! at_ = Some Action.Ignore)
      | None => false
      end
  | None => false
  end.

Definition is_keyword (control : str) : bool := existsb (eq_ignore_ascii_case control) CONTROL_KEYWORDS.

Definition control_is_rejected (control : str) : bool :=
  negb (is_keyword control) && bool_decide (control_pairs control = None).

(** The jumps among [pairs] that set a value in the end. *)
Fixpoint jumps_in (by_ : list (option nat)) (at_ : nat) (pairs : list (str * Action.t)) : list (str * Z) :=
  match pairs with
  | [] => []
  | (v, a) :: pairs =>
      match a with
      | Action.Jump n => if bool_decide (Some at_ ∈ by_) then [(v, n)] else []
      | _ => []
      end ++ jumps_in by_ (S at_) pairs
  end.
Definition numeric_actions (h : Head) : list (str * Z) :=
  if is_keyword (control h) then []
  else match control_pairs (control h) with
       | None => []
       | Some pairs => jumps_in (set_by pairs) 0 pairs
       end.

(** [String::replace_range]. *)
Definition replace_range (l : str) (from to : nat) (new : str) : str := take from l ++ new ++ drop to l.

(** One edit of [with_jump_values]: the span of the jump of the one pair that
    names the value, when that pair jumps [from] and is in effect. *)
Definition jump_span (pairs : list Pair) (v : str) (from : Z) : option (nat * nat) :=
  let by_ := set_by (plain pairs) in
  at_ ← position (fun p => bool_decide (value p = v)) pairs;
  p ← pairs !! at_;
  if existsb (fun q => bool_decide (value q = v)) (drop (S at_) pairs)
     || negb (bool_decide (action p = Action.Jump from)) || negb (bool_decide (Some at_ ∈ by_))
  then None else Some (span_start p, span_end p).

(** The spans of the edits, [seen] the values edited before. *)
Fixpoint edit_spans (pairs : list Pair) (seen : list str) (edits : list (str * Z * Z)) : option (list (nat * nat * Z)) :=
  match edits with
  | [] => Some []
  | (v, from, to) :: edits =>
      if bool_decide (v ∈ seen) || bool_decide (to = 0) || (MAX_JUMP <? to) then None else
      sp ← jump_span pairs v from;
      spans ← edit_spans pairs (v :: seen) edits;
      Some ((sp, to) :: spans)
  end.

(** [sort_by_key] by the start, last first; stable. *)
Fixpoint insert_span (x : nat * nat * Z) (l : list (nat * nat * Z)) : list (nat * nat * Z) :=
  match l with
  | [] => [x]
  | y :: l' => if (x.1.1 <? y.1.1)%nat then y :: insert_span x l' else x :: l
  end.
Definition last_first (l : list (nat * nat * Z)) : list (nat * nat * Z) := foldr insert_span [] l.

Definition with_jump_values (line : str) (edits : list (str * Z * Z)) : option str :=
  h ← head line;
  if bool_decide (control h = []) then None else
  start ← control_at line;
  let end_ := (start + length (control h))%nat in
  if negb (bool_decide (list.last (take start line) = Some 91) && bool_decide (line !! end_ = Some 93))
     || negb (bool_decide (take (length (control h)) (drop start line) = control h))
  then None else
  pairs ← control_pairs_at (control h);
  spans ← edit_spans pairs [] edits;
  Some (foldl (fun out '(s, e, to) => replace_range out (start + s) (start + e) (decimal to)) line (last_first spans)).

(** ** Rules *)

Record Rule := MkRule { r_phase : str; r_control : str; module : str; args : list str }.

Definition rule (line : str) : option Rule :=
  h ← head line;
  if negb (known_type h) || names_stack h then None else
  '(m, r) ← next_field (rest h);
  Some (MkRule (phase h) (control h) m (fields_from (length r) r)).

Definition module_file_name (path : str) : str := default path (after_last 47 path).

Definition rule_names_module (line m : str) : bool :=
  if rule line is Some r then bool_decide (module_file_name (module r) = m) else false.

Definition irlume_rule (line : str) : option Rule :=
  r ← rule line; if bool_decide (module_file_name (module r) = MODULE) then Some r else None.

Definition content_has_module (c : str) : bool := existsb (fun l => bool_decide (is_Some (irlume_rule l))) (lines c).

Definition irlume_auth_rule_beyond_reseal (line : str) : bool :=
  match irlume_rule line with
  | Some r =>
      let credential := existsb (fun a => bool_decide (a ∈ map word ["unseal"; "keyring"; "wait"])) (args r) in
      bool_decide (r_phase r = word "auth") && (credential || negb (bool_decide (word "reseal" ∈ args r)))
  | None => false
  end.

Definition irlume_rule_has_arg (line arg : str) : bool :=
  if irlume_rule line is Some r then bool_decide (arg ∈ args r) else false.

Definition typed_head (line ph : str) : option Head :=
  h ← head line; if known_type h && bool_decide (phase h = ph) then Some h else None.

Definition stack_named (line ph : str) : option str :=
  h ← typed_head line ph; if names_stack h then third_field h else None.

Definition auth_control (line : str) : option str := control <$> typed_head line (word "auth").

Definition auth_stack_target (line : str) : option str :=
  match at_include_target line with Some f => Some f | None => stack_named line (word "auth") end.

Definition auth_module (line : str) : option str :=
  r ← rule line; if bool_decide (r_phase r = word "auth") then Some (module r) else None.

Definition directive_has_auth_module (line m : str) : bool :=
  if auth_module line is Some path then bool_decide (module_file_name path = m) else false.

(** ** Lines irlume does not read as libpam does *)

Definition has_line_continuation (content : str) : bool :=
  existsb (fun l =>
    bool_decide (list.last (trim_end_matches is_blank l) = Some 92) && negb (bool_decide (35 ∈ before 0 l)))
    (split_at 10 content).

(** A [char] is its bytes. *)
Inductive Unread :=
  | Nul
  | Blank (c : str)
  | CrlfEnding
  | UnknownType (names_stack : bool)
  | IncludeWithoutFile
  | SubstackWithoutStack
  | NoModuleName.
#[export] Instance Unread_eq_dec : EqDecision Unread.
Proof. solve_decision. Defined.

Record UnreadLine := MkUnread { number : nat; text : str; why : Unread }.

Definition before_last (c : Z) (l : str) : str :=
  match after_last c l with Some r => take (length l - length r - 1) l | None => l end.

Definition libpam_names_module (path : str) : bool :=
  let name := before_last 46 (module_file_name path) in
  negb (bool_decide (name = [])) && negb (bool_decide (name = word "?")).

Definition bracketed_control (d : str) : nat * nat :=
  match type_field d with
  | None => (0, 0)%nat
  | Some (kind, r) =>
      if eq_ignore_ascii_case kind (word "@include") then (0, 0)%nat else
      match trim_start_matches (one_of FIELD_DELIMITERS) r with
      | 91 :: inner =>
          let c := default [] (fst <$> next_field r) in
          if bool_decide (length c = length inner) || bool_decide (control_pairs c = None) then (0, 0)%nat
          else (length d - length inner, length d - length inner + length c)%nat
      | _ => (0, 0)%nat
      end
  end.

(** [field_blanks] from the byte at index [i] on, where [l] is left and
    [range] is the control's. *)
Fixpoint blanks_from (range : nat * nat) (i : nat) (l : str) : list str :=
  match l with
  | [] => []
  | x :: l' =>
      match ws_prefix l with
      | Some n =>
          let skipped := bool_decide (range.1 <= i < range.2)%nat && bool_decide (n = 1%nat) && control_blank x in
          if is_blank x || skipped then [] else [take n l]
      | None => []
      end ++ blanks_from range (S i) l'
  end.
Definition field_blanks (read : str) (controls : bool) : list str :=
  blanks_from (if controls then bracketed_control read else (0, 0)%nat) 0 read.

Definition is_cr (c : Z) : bool := bool_decide (c = 13).

Definition unread (line : str) : option Unread :=
  if bool_decide (0 ∈ line) then Some Nul else
  let d := directive line in
  let before_cr := trim_end_matches is_cr d in
  match field_blanks before_cr true with
  | c :: _ => Some (Blank c)
  | [] =>
      if (length before_cr <? length d)%nat then Some CrlfEnding
      else if is_at_include line then
        (if at_include_target line is None then Some IncludeWithoutFile else None)
      else
        h ← head line;
        if negb (known_type h) then Some (UnknownType (names_stack h)) else
        let substack := eq_ignore_ascii_case (control h) (word "substack") in
        if substack && bool_decide (third_field h = None) then Some SubstackWithoutStack else
        if substack || negb (names_stack h) then
          match third_field h with
          | Some path => if libpam_names_module path then None else Some NoModuleName
          | None => None
          end
        else None
  end.

(** [enumerate] and [find_map], with lines numbered from [n]. *)
Fixpoint first_unread (f : str -> option Unread) (n : nat) (ls : list str) : option UnreadLine :=
  match ls with
  | [] => None
  | l :: ls => match f l with Some w => Some (MkUnread n l w) | None => first_unread f (S n) ls end
  end.

Definition unreadable_line (content : str) : option UnreadLine :=
  if has_line_continuation content then None else first_unread unread 1 (split_at 10 content).

Definition read_carriage_return (controls : bool) (l : str) : option Unread :=
  let read := directive l in
  let before_cr := trim_end_matches is_cr read in
  if bool_decide ([13] ∈ field_blanks before_cr controls) then Some (Blank [13])
  else if (length before_cr <? length read)%nat then Some CrlfEnding
  else None.

Definition carriage_return_line (content : str) : option UnreadLine :=
  first_unread (read_carriage_return (negb (has_line_continuation content))) 1 (split_at 10 content).

Definition has_read_carriage_return (content : str) : bool := bool_decide (carriage_return_line content <> None).

(** A text irlume reads line by line as libpam does. *)
Definition read_as_pam (content : str) : bool :=
  negb (has_line_continuation content) && (if unreadable_line content is Some _ then false else true).

(** ** The password step and the anchor *)

Definition is_include_auth_layout (line : str) : bool :=
  match at_include_target line with
  | Some file => starts_with (word "common-auth") file || starts_with (word "login") file
  | None =>
      match h ← typed_head line (word "auth");
            if eq_ignore_ascii_case (control h) (word "include") then third_field h else None with
      | Some stack =>
          bool_decide (stack ∈ map word ["system-login"; "system-local-login"; "system-auth"; "common-auth"])
      | None => false
      end
  end.

Definition is_passwd_substack (line kind : str) : bool :=
  let stacks :=
    if bool_decide (kind = word "auth") then map word ["password-auth"; "system-auth"; "common-auth"]
    else if bool_decide (kind = word "session") then map word ["password-auth"; "system-auth"; "common-session"]
    else map word ["password-auth"; "system-auth"] in
  if stack_named line kind is Some stack then bool_decide (stack ∈ stacks) else false.

Definition is_auth_directive (line : str) : bool := if typed_head line (word "auth") is Some _ then true else false.
Definition is_session_directive (line : str) : bool :=
  if typed_head line (word "session") is Some _ then true else false.
Definition is_session_include (line : str) : bool :=
  if at_include_target line is Some file then starts_with (word "common-session") file else false.

Definition is_auth_substack_anchor (line : str) : bool :=
  if typed_head line (word "auth") is Some h then eq_ignore_ascii_case (control h) (word "substack") else false.

Definition is_password_step (line : str) : bool :=
  is_include_auth_layout line || is_passwd_substack line (word "auth") || is_auth_substack_anchor line
  || (is_auth_directive line && rule_names_module line (word "pam_unix.so")).

Definition NON_AUTH_INCLUDES : list str :=
  map word ["common-account"; "common-password"; "common-session"; "common-session-noninteractive"].
Definition NO_PASSWORD_AUTH_MODULES : list str := map word [
  "pam_access.so"; "pam_deny.so"; "pam_env.so"; "pam_faildelay.so"; "pam_faillock.so"; "pam_group.so";
  "pam_listfile.so"; "pam_localuser.so"; "pam_nologin.so"; "pam_permit.so"; "pam_rootok.so"; "pam_securetty.so";
  "pam_selinux_permit.so"; "pam_shells.so"; "pam_succeed_if.so"; "pam_tally2.so"; "pam_warn.so"].
Definition PASSWORD_MODULES : list str := map word ["pam_sss.so"; "pam_unix.so"; "pam_unix2.so"].
Definition INCLUDE_DEPTH : nat := 4.

(** One value of the table of a password step. *)
Definition step_action (a : Action.t) (v : str) : bool :=
  match a with
  | Action.Jump _ => false
  | _ =>
      if bool_decide (v = word "success") then bool_decide (a ∈ [Action.Ok; Action.Done])
      else bool_decide (a ∈ [Action.Bad; Action.Die])
           || bool_decide (v ∈ map word ["new_authtok_reqd"; "ignore"])
  end.

Definition is_password_step_that_fails_the_stack (h : Head) : bool :=
  match fields_after_control h with
  | [] => false
  | m :: args =>
      bool_decide (module_file_name m ∈ PASSWORD_MODULES)
      && negb (existsb (starts_with (word "ignore_")) args)
      && match control_actions (control h) with
         | Some table => forallb (fun '(a, v) => step_action a v) (zip table RETURN_VALUES)
         | None => false
         end
  end.

Definition is_fingerprint_auth (line : str) : bool :=
  match typed_head line (word "auth") with
  | None => false
  | Some h =>
      if names_stack h then (if third_field h is Some stack then contains (word "fingerprint") stack else false)
      else rule_names_module line (word "pam_fprintd.so")
  end.

Definition consumer_active_for (line service : str) : option str :=
  r ← rule line;
  m ← List.find (fun m => bool_decide (module_file_name (module r) = m)) KEYRING_CONSUMERS;
  let gated_out := existsb (fun list => negb (bool_decide (service ∈ split_at 44 list)))
                     (omap (strip_prefix (word "only_if=")) (args r)) in
  if gated_out then None else Some m.

(** ** Stacks that other lines name *)

Section Reader.
(** The reader [with_stack_reader] sets, [None] outside such a call. *)
Context (STACK_READER : option (str -> option str)).

Definition read_stack (name : str) : option str := reader ← STACK_READER; reader name.

(** [included_lines]; [deeper] is the number of stacks it may still open,
    [INCLUDE_DEPTH + 1 - depth]. *)
Fixpoint included_lines (deeper : nat) (name ph : str) : option (list str) :=
  match deeper with
  | O => None
  | S deeper =>
      text ← read_stack name;
      if negb (read_as_pam text) then None else
      mjoin <$> mapM (fun line =>
        match at_include_target line with
        | Some file => included_lines deeper file ph
        | None =>
            match typed_head line ph with
            | None => Some []
            | Some h =>
                if eq_ignore_ascii_case (control h) (word "include")
                then third_field h ≫= fun stack => included_lines deeper stack ph
                else Some [line]
            end
        end) (lines text)
  end.

(** [quiet_below_anchor]; [deeper] counts as above. *)
Fixpoint quiet_below_anchor (deeper : nat) (l : str) : bool :=
  match at_include_target l with
  | Some file =>
      match deeper with
      | O => false
      | S deeper =>
          bool_decide (file ∈ NON_AUTH_INCLUDES)
          && match read_stack file with
             | Some text => read_as_pam text && forallb (quiet_below_anchor deeper) (lines text)
             | None => false
             end
      end
  | None =>
      match head l with
      | None => true
      | Some h =>
          if known_type h && negb (bool_decide (phase h = word "auth")) then true
          else if negb (known_type h) || names_stack h then false
          else match third_field h with
               | None => true
               | Some path =>
                   let file := module_file_name path in
                   bool_decide (file ∈ NO_PASSWORD_AUTH_MODULES) || bool_decide (file ∈ KEYRING_CONSUMERS)
               end
      end
  end.

Definition moves (l : str) : bool :=
  match head l ≫= fun h => control_actions (control h) with
  | Some table => existsb (fun a => match a with Action.Jump _ | Action.Reset => true | _ => false end) table
  | None => false
  end.

Definition included_stack_starts_with_the_step (name : str) : bool :=
  match included_lines INCLUDE_DEPTH name (word "auth") with
  | Some (first :: rest as ls) =>
      let step := is_passwd_substack first (word "auth")
        || match head first with
           | Some h => negb (names_stack h) && is_password_step_that_fails_the_stack h
           | None => false
           end in
      step && negb (existsb moves ls) && forallb (quiet_below_anchor INCLUDE_DEPTH) rest
  | _ => false
  end.

Definition first_auth_line_is_safe (ls : list str) (at_ : nat) : bool :=
  let decides :=
    match ls !! at_ ≫= head with
    | Some h =>
        if names_stack h
        then eq_ignore_ascii_case (control h) (word "include")
             && (if third_field h is Some stack then included_stack_starts_with_the_step stack else false)
        else is_password_step_that_fails_the_stack h
    | None => false
    end in
  decides && forallb (quiet_below_anchor INCLUDE_DEPTH) (drop (S at_) ls).

Definition find_auth_anchor (ls : list str) : option nat :=
  match position (fun l => is_passwd_substack l (word "auth")) ls with
  | Some at_ => Some at_
  | None =>
      match position is_auth_substack_anchor ls with
      | Some at_ => Some at_
      | None =>
          at_ ← position is_auth_directive ls;
          if first_auth_line_is_safe ls at_ then Some at_ else None
      end
  end.

(** [has_failing_auth_line_in]; [deeper] is [INCLUDE_DEPTH - depth]. *)
Fixpoint has_failing_auth_line_in (deeper : nat) (active : list str) (content : str) : bool :=
  negb (read_as_pam content)
  || existsb (fun l =>
       let failing_stack name :=
         match STACK_READER with
         | None => false
         | Some read =>
             match deeper with
             | O => true
             | S deeper =>
                 if bool_decide (name ∈ active) then true
                 else match read name with
                      | None => true
                      | Some nested => has_failing_auth_line_in deeper (active ++ [name]) nested
                      end
             end
         end in
       match at_include_target l with
       | Some name => failing_stack name
       | None =>
           match typed_head l (word "auth") with
           | None => false
           | Some h =>
               bool_decide (control h = []) || bool_decide (third_field h = None) || control_is_rejected (control h)
               || (names_stack h && match third_field h with Some name => failing_stack name | None => false end)
           end
       end) (lines content).
Definition has_failing_auth_line (content : str) : bool := has_failing_auth_line_in INCLUDE_DEPTH [] content.

(** ** Jumps out of an include *)

Definition included_jump_leaves (name ph : str) (to_end : bool) : bool :=
  match included_lines INCLUDE_DEPTH name ph with
  | None => true
  | Some ls =>
      existsb (fun '(at_, line) =>
        match head line with
        | None => false
        | Some h =>
            existsb (fun '(_, reach) =>
              Z.of_nat (length ls) <=? Z.of_nat at_ + reach + Z.b2z to_end) (numeric_actions h)
        end) (imap (fun i l => (i, l)) ls)
  end.

Definition include_could_jump_past (line : str) (later : str -> bool) (to_end : bool) : option bool :=
  if is_at_include line then
    Some (match at_include_target line with
          | None => true
          | Some file => existsb (fun ph => later ph && included_jump_leaves file ph to_end) TYPES
          end)
  else
    h ← head line;
    if negb (eq_ignore_ascii_case (control h) (word "include")) then None else
    Some (negb (known_type h)
          || (later (phase h)
              && match third_field h with
                 | None => true
                 | Some stack => included_jump_leaves stack (phase h) to_end
                 end)).

Definition expanded_include_lines (line ph : str) : option (list str) :=
  if is_at_include line then
    name ← at_include_target line; included_lines INCLUDE_DEPTH name ph
  else
    h ← head line;
    if negb (eq_ignore_ascii_case (control h) (word "include")) then None
    else if negb (bool_decide (phase h = ph)) then Some []
    else name ← third_field h; included_lines INCLUDE_DEPTH name ph.

Definition included_jump_offsets (line ph : str) (first_following : bool) : option (list Z) :=
  ls ← expanded_include_lines line ph;
  let len := Z.of_nat (length ls) in
  let offsets := mjoin (imap (fun at_ included =>
    match head included with
    | None => []
    | Some h =>
        mjoin (map (fun '(_, reach) =>
          let target := Z.of_nat at_ + reach + 1 in
          if (len <? target) || (first_following && (target =? len)) then [target - len] else []) (numeric_actions h))
    end) ls) in
  Some (remove_dups (sort offsets)).

Definition include_is_read (line : str) : bool :=
  if is_at_include line then
    match at_include_target line with
    | Some file => bool_decide (is_Some (included_lines INCLUDE_DEPTH file (word "auth")))
    | None => false
    end
  else
    match head line with
    | Some h =>
        known_type h && eq_ignore_ascii_case (control h) (word "include")
        && match third_field h with
           | Some stack => bool_decide (is_Some (included_lines INCLUDE_DEPTH stack (phase h)))
           | None => false
           end
    | None => false
    end.
End Reader.

(** ** Every session path runs a reseal rule *)

Definition SESSION_STACK_MAX_BYTES : Z := 64 * 1024.

Inductive Step :=
  | Reseal
  | Run (actions : list Action.t)
  | Substack (nested : list Step).

Record Budget := MkBudget { left_lines : nat; left_reads : nat }.

Definition checked_dec (n : nat) : option nat := match n with O => None | S n => Some n end.

(** The stack a line refers to, and whether as a substack: [None] when it
    names none it should, [Some None] when it is a rule. *)
Inductive reference := Skipped | Refers (name : str) (substack : bool) | Plain.
Definition reference_of (line : str) : option reference :=
  if is_at_include line then
    name ← at_include_target line; Some (Refers name false)
  else
    match head line with
    | None => Some Skipped
    | Some h =>
        if negb (bool_decide (phase h = word "session")) then Some Skipped
        else if names_stack h then
          name ← stack_name h; Some (Refers name (eq_ignore_ascii_case (control h) (word "substack")))
        else Some Plain
    end.

Definition step_of (line : str) : option Step :=
  r ← rule line;
  if control_is_rejected (r_control r) then None
  else if bool_decide (is_Some (irlume_rule line)) && bool_decide (word "reseal" ∈ args r) then Some Reseal
  else Run <$> control_actions (r_control r).

Section Session.
Context (read : str -> option str).

(** [parse]; [deeper] is [INCLUDE_DEPTH - depth], which never goes below zero:
    the code refuses a reference at the last depth before it recurses. *)
Fixpoint parse (deeper : nat) (text : str) (budget : Budget) : option (list Step * Budget) :=
  if (SESSION_STACK_MAX_BYTES <? Z.of_nat (length text)) || negb (read_as_pam text) then None
  else (fix go (ls : list str) (budget : Budget) : option (list Step * Budget) :=
    match ls with
    | [] => Some ([], budget)
    | line :: ls =>
        n ← checked_dec (left_lines budget);
        let budget := MkBudget n (left_reads budget) in
        ref ← reference_of line;
        match ref with
        | Skipped => go ls budget
        | Plain =>
            s ← step_of line;
            '(steps, budget) ← go ls budget;
            Some (s :: steps, budget)
        | Refers name substack =>
            match deeper with
            | O => None
            | S deeper =>
                if bool_decide (left_lines budget = 0%nat) then None else
                reads ← checked_dec (left_reads budget);
                text ← read name;
                '(nested, budget) ← parse deeper text (MkBudget (left_lines budget) reads);
                '(steps, budget) ← go ls budget;
                Some ((if substack : bool then [Substack nested] else nested) ++ steps, budget)
            end
        end
    end) (lines text) budget.

(** One cell of [suffix], given the cells after it. *)
Fixpoint cell (on_return : bool) (s : Step) (after : list bool) : bool :=
  let next := List.hd false after in
  match s with
  | Reseal => true
  | Substack nested =>
      List.hd false ((fix cells l := match l with [] => [next] | s :: l => let suf := cells l in cell next s suf :: suf end) nested)
  | Run actions =>
      forallb (fun a =>
        match a with
        | Action.Done | Action.Die => on_return
        | Action.Jump n => nth (Z.to_nat (Z.min n (Z.of_nat (length after) - 1))) after false
        | _ => next
        end) actions
  end.
Fixpoint suffix (on_return : bool) (steps : list Step) : list bool :=
  match steps with
  | [] => [on_return]
  | s :: steps => let after := suffix on_return steps in cell on_return s after :: after
  end.
Definition reaches (steps : list Step) (on_return : bool) : bool := List.hd false (suffix on_return steps).

Definition budget0 : Budget := MkBudget 4096 64.

Definition session_reaches_reseal (content : str) : bool :=
  match parse INCLUDE_DEPTH content budget0 with
  | Some (steps, _) => reaches steps false
  | None => false
  end.
End Session.
End grammar.
