(* ===== verification/PamLines.v ===== *)
(** * irlume's lines in a PAM stack

    [irlume-cli/src/pamwire/stanzas.rs], the lines irlume writes, and the part
    of [transform.rs] that tells them from others, takes them out, and says
    what a stack does with the password they release. *)

From S2P Require Import Prelude Text Ordering PamGrammar.
Import grammar.

(** ** stanzas.rs *)

Module stanzas.
Definition GREETER_UNSEAL_FACEFIRST_JUMP : str :=
  word "auth       [success=1 default=ignore]   pam_irlume.so unseal facefirst".
Definition include_greeter_line (mode : str) (kr : bool) : str :=
  word "auth       sufficient   pam_irlume.so unseal " ++ mode ++ (if kr then word " kr" else []).
Definition GREETER_UNSEAL_COSMIC_JUMP : str :=
  word "auth       [success=1 default=ignore]   pam_irlume.so unseal ondemand".
Definition PERMIT_LANDING : str :=
  word "auth       optional                     pam_permit.so   # irlume-landing".
Definition RESEAL_AUTH : str := word "auth       optional                     pam_irlume.so reseal".
Definition KEYRING_UNSEAL : str := word "auth       optional                     pam_irlume.so keyring".
Definition KEYRING_TAG : str := word "# irlume-keyring".
Definition FP_GKR_AUTH : str :=
  word "-auth      optional                     pam_gnome_keyring.so   # irlume-keyring".
Definition FP_GKR_SESSION : str :=
  word "-session   optional                     pam_gnome_keyring.so auto_start   # irlume-keyring".
Definition RESEAL_SESSION : str := word "session    optional                     pam_irlume.so reseal".
Definition INERT_TAG : str := word "# irlume-inert".
(** [{phase:<11}] pads with spaces. *)
Definition inert_line (ph role : str) : str :=
  let tag := match role with [] => INERT_TAG | _ => INERT_TAG ++ 32 :: role end in
  ph ++ repeat 32 (11 - length ph) ++ word "[default=ignore]             pam_permit.so   " ++ tag.
Definition VERIFY_STANZA : str := word "auth       sufficient                   pam_irlume.so".
Definition POLKIT_VERIFY_STANZA : str :=
  word "auth       [success=done new_authtok_reqd=done abort=die default=ignore]   pam_irlume.so".
Definition CREATED_PREFIX : str := word "# irlume: created from ".
End stanzas.
Export stanzas.

(** ** transform.rs: irlume's lines *)

Definition is_irlume_line (l : str) : bool :=
  let read := before 0 l in
  bool_decide (is_Some (irlume_rule read))
  || (rule_names_module read (word "pam_permit.so")
      && (contains (word "# irlume-landing") read || contains INERT_TAG read))
  || (rule_names_module read (word "pam_gnome_keyring.so") && contains KEYRING_TAG read).

(** A line with every carriage return at its end taken off. *)
Definition without_crs (l : str) : str := trim_end_matches is_cr l.

Definition holds_irlume_line (text : str) : bool := existsb (fun l => is_irlume_line (without_crs l)) (split_at 10 text).

Definition unwire_lines (content : str) : str * bool :=
  (unlines (List.filter (fun l => negb (is_irlume_line l)) (lines content)), existsb is_irlume_line (lines content)).

Definition without_irlume_lines (content : str) : str :=
  mjoin (List.filter (fun l => negb (is_irlume_line (without_crs (strip_suffix_of 10 l)))) (split_inclusive 10 content)).

(** The loop of [removal_preserves_continuations] from line [index] on. *)
Fixpoint preserves_from (last_ours : option nat) (index : nat) (previous_continues : bool) (ls : list str) : bool :=
  match ls with
  | [] => true
  | line :: ls =>
      let physical := strip_suffix_of 10 line in
      let ours := is_irlume_line (without_crs physical) in
      let continues := has_line_continuation physical in
      if (ours && (previous_continues || continues))
         || (continues && match last_ours with Some last => (index <? last)%nat | None => false end)
      then false
      else preserves_from last_ours (S index) continues ls
  end.
Definition removal_preserves_continuations (content : str) : bool :=
  let ls := split_inclusive 10 content in
  preserves_from (rposition (fun l => is_irlume_line (without_crs (strip_suffix_of 10 l))) ls) 0 false ls.

(** A readable line is kept; [None] one that is dropped, with whether it may
    hide an anchor. *)
Definition probe (line : str) : bool * bool :=
  if has_line_continuation line then (false, false)
  else match unreadable_line line with
       | None => (true, false)
       | Some u =>
           let pam_prefix := before 0 line in
           (false, is_at_include pam_prefix
                   || match head pam_prefix with
                      | Some h => bool_decide (phase h = word "auth") && negb (bool_decide (why u = UnknownType false))
                      | None => false
                      end)
       end.
Definition recipe_has_no_anchor (content : str) (wire : str -> str * bool) : bool :=
  let ls := split_inclusive 10 content in
  if existsb (fun line => has_line_continuation line
                && match head line with Some h => bool_decide (phase h = word "auth") | None => false end) ls
  then false
  else
    let may_hide_anchor := existsb (fun line => (probe line).2) ls in
    let readable := mjoin (List.filter (fun line => (probe line).1) ls) in
    negb may_hide_anchor && negb (wire readable).2.

Definition jump_could_count_irlume_lines (reader : option (str -> option str)) (content : str) : bool :=
  let irlume l := is_irlume_line (without_crs l) in
  let ls := split_at 10 content in
  match rposition irlume ls with
  | None => false
  | Some last =>
      let later_irlume at_ ph :=
        existsb (fun m => irlume m
          && match head (without_crs m) with Some h => bool_decide (phase h = ph) | None => false end) (drop (S at_) ls) in
      existsb (fun '(at_, l) =>
        let read := before 0 l in
        if irlume l then false
        else match include_could_jump_past reader read (later_irlume at_) false with
             | Some past => past
             | None => match head read with Some h => negb (bool_decide (numeric_actions h = [])) | None => false end
             end) (imap (fun i l => (i, l)) (take last ls))
  end.

(** ** The hand-over of the released password *)

Record KeyringHandoff := MkHandoff { complete : option str; auth_only : list str }.

(** One consumer below irlume's line. *)
Definition hand_over (has_session_line : str -> bool) (h : KeyringHandoff) (m : str) : KeyringHandoff :=
  if has_session_line m then MkHandoff (match complete h with Some c => Some c | None => Some m end) (auth_only h)
  else if bool_decide (m ∈ auth_only h) then h
  else MkHandoff (complete h) (auth_only h ++ [m]).

Definition session_consumer (ls : list str) (service m : str) : bool :=
  existsb (fun l => is_session_directive l && bool_decide (consumer_active_for l service = Some m)) ls.

Definition keyring_handoff (content service : str) : option KeyringHandoff :=
  if negb (read_as_pam content) then None else
  let ls := lines content in
  unseal_at ← position (fun l => irlume_rule_has_arg l (word "unseal") || irlume_rule_has_arg l (word "keyring")) ls;
  let consumers := omap (fun l => if is_auth_directive l then consumer_active_for l service else None)
                     (drop (S unseal_at) ls) in
  Some (foldl (hand_over (session_consumer ls service)) (MkHandoff None []) consumers).
