(* ===== verification/PamOverrides.v ===== *)
(** * Overrides of vendor stacks, and the numeric jumps in them

    The part of [irlume-cli/src/pamwire/overrides.rs] that decides by text
    alone: the header of an override and its class, the places of irlume's
    lines and the inactive lines that hold them, and where numeric jumps land.
    What a message says is left out: [JumpCheck] carries the shifts. *)

From S2P Require Import Prelude Text Ordering PamGrammar PamLines.
Import grammar.

(** ** The header and the class *)

Section Header.
(** [logintx::sha256_hex]. *)
Context (sha256 : str -> str).

Definition OVERRIDE_TRACK_PREFIX : str := word "# irlume: override ".

Definition created_line (vendor_path : str) : str :=
  CREATED_PREFIX ++ vendor_path ++ word "; delete this file to restore the vendor copy".

Definition tracking_line (vendor_sha body_sha : str) : str :=
  OVERRIDE_TRACK_PREFIX ++ word "v1 vendor-sha256=" ++ vendor_sha ++ word " body-sha256=" ++ body_sha.

Definition is_tracking_line (line : str) : bool :=
  match strip_prefix OVERRIDE_TRACK_PREFIX line ≫= strip_prefix (word "v") with
  | None => false
  | Some rest =>
      let '(digits, after) := span is_ascii_digit rest in
      negb (bool_decide (digits = [])) && match after with [] => true | c :: _ => bool_decide (c = 32) end
  end.

Definition is_sha256_hex (s : str) : bool :=
  bool_decide (length s = 64%nat) && forallb (fun b => is_ascii_digit b || bool_decide (97 <= b <= 102)) s.

Definition parse_v1 (line : str) : option (str * str) :=
  rest ← strip_prefix OVERRIDE_TRACK_PREFIX line;
  match split_at 32 rest with
  | version :: vendor :: body :: more =>
      if negb (bool_decide (version = word "v1")) then None else
      vendor ← strip_prefix (word "vendor-sha256=") vendor;
      body ← strip_prefix (word "body-sha256=") body;
      if bool_decide (more <> []) || negb (is_sha256_hex vendor) || negb (is_sha256_hex body) then None
      else Some (vendor, body)
  | _ => None
  end.

Record Parsed := MkParsed {
  first : str; track_line : option str; track_at : option nat; text : str;
  digests : option (str * str); body : str; crlf : bool }.

(** The line numbered [i] from [n] on that is in the comment block and a
    tracking line. *)
Fixpoint find_tracking (n : nat) (ls : list str) : option nat :=
  match ls with
  | [] => None
  | l :: ls =>
      if negb (bool_decide (directive l = [])) then None
      else if is_tracking_line l then Some n
      else find_tracking (S n) ls
  end.

Definition parse (content : str) : option Parsed :=
  if negb (starts_with CREATED_PREFIX content) then None else
  let ls := map without_crs (lines content) in
  first ← ls !! 0%nat;
  let track_at := find_tracking 1 (drop 1 ls) in
  let body_lines := mjoin (imap (fun i l => if bool_decide (Some (S i) = track_at) then [] else [l]) (drop 1 ls)) in
  let body := match body_lines with [] => [] | _ => unlines body_lines end in
  let track_line := track_at ≫= fun i => ls !! i in
  Some (MkParsed first track_line track_at content (track_line ≫= parse_v1) body
          (existsb (fun l => bool_decide (list.last l = Some 13)) (split_at 10 content))).

Definition line_number (p : Parsed) (at_ : nat) : nat :=
  let in_file := S at_ in
  match track_at p with
  | Some track => if (track <=? in_file)%nat then S (S in_file) else S in_file
  | None => S in_file
  end.

Definition base (text : str) : str := (unwire_lines text).1.
Definition body_digest (body : str) : str := sha256 (base body).

Definition render (vendor_path vendor wired : str) : str :=
  created_line vendor_path ++ 10 :: tracking_line (sha256 vendor) (body_digest wired) ++ 10 :: wired.

Definition keep_header (p : Parsed) (body : str) : str :=
  match track_line p with
  | Some track => first p ++ 10 :: track ++ 10 :: body
  | None => first p ++ 10 :: body
  end.

Definition normalize (text : str) : str := unlines (lines text).

Inductive Class := U1 | U2 | U3 | L1 | E1 | E2 | E3 | L2 | L3.
#[export] Instance Class_eq_dec : EqDecision Class.
Proof. solve_decision. Defined.

Definition edited (c : Class) : bool := match c with U1 | U2 | U3 | L1 => false | _ => true end.

Definition classify (p : Parsed) (vendor : option str) : Class :=
  let tracked :=
    match digests p with
    | Some (vendor_sha, body_sha) =>
        if bool_decide (body_digest (body p) = body_sha) then
          Some (match vendor with
                | None => U3
                | Some v => if bool_decide (sha256 v = vendor_sha) then U1 else U2
                end)
        else None
    | None => None
    end in
  match tracked with
  | Some c => c
  | None =>
      if match vendor with Some v => bool_decide (base (body p) = base v) | None => false end then L1
      else match digests p, vendor with
           | Some (vendor_sha, _), Some v => if bool_decide (sha256 v = vendor_sha) then E1 else E2
           | Some _, None => E3
           | None, Some _ => L2
           | None, None => L3
           end
  end.
End Header.

Definition has_irlume_line (text : str) : bool := holds_irlume_line text.

Definition only_inert_lines (text : str) : bool :=
  negb (content_has_module text) && existsb (fun l => is_irlume_line l && contains INERT_TAG l) (lines text).

Definition norm (line : str) : str := join_with 32 (split_whitespace line).

Definition irlume_lines (text : str) : list str := sort (map norm (List.filter is_irlume_line (lines text))).

(** ** irlume's lines by job *)

Definition PHASES : list str := map word ["auth"; "account"; "password"; "session"].

Definition phase (line : str) : option str := grammar.phase <$> head line.

(** What follows the first [p]: [str::split_once] at a string. *)
Fixpoint after_first (p l : str) : option str :=
  match strip_prefix p l with
  | Some r => Some r
  | None => match l with [] => None | _ :: l => after_first p l end
  end.

Definition job (line : str) : str :=
  match after_first INERT_TAG line with
  | Some rest => default [] (split_whitespace rest !! 0%nat)
  | None =>
      if contains (word "# irlume-landing") line then word "landing"
      else if contains KEYRING_TAG line then word "keyring-tag"
      else default [] (irlume_rule line ≫= fun r => args r !! 0%nat)
  end.
Definition kind (line : str) : str := default (word "auth") (phase line) ++ 32 :: job line.

(** The inactive line that holds the place of irlume's line of kind [k]. *)
Definition inert_of (k : str) : str := let '(ph, j) := default (k, []) (split_once 32 k) in inert_line ph j.

Definition neutralize (body : str) : str :=
  unlines (map (fun l => if bool_decide (is_Some (irlume_rule l)) then inert_of (kind l) else l) (lines body)).

(** The loop of [fill_slots]: what is written and what is still wanted. *)
Fixpoint fill (wanted : list (str * str)) (ls : list str) : list str * list (str * str) :=
  match ls with
  | [] => ([], wanted)
  | line :: ls =>
      if negb (is_irlume_line line) then let '(out, w) := fill wanted ls in (line :: out, w) else
      let k := kind line in
      match position (fun w => bool_decide (w.1 = k)) wanted with
      | Some at_ =>
          let '(out, w) := fill (delete at_ wanted) ls in
          (default line (snd <$> wanted !! at_) :: out, w)
      | None =>
          let '(out, w) := fill wanted ls in
          ((if bool_decide (is_Some (irlume_rule line)) then inert_of k else line) :: out, w)
      end
  end.
Definition fill_slots (body wired : str) : option str :=
  let wanted := map (fun l => (kind l, l)) (List.filter is_irlume_line (lines wired)) in
  let '(out, wanted) := fill wanted (lines body) in
  if bool_decide (wanted = []) then Some (unlines out) else None.

(** ** Where a jump lands *)

Inductive Landing :=
  | Line (key : str) (nth : nat)
  | End
  | PastEnd
  | Across (skipped : list str) (target : option (str * nat)).
#[export] Instance Landing_eq_dec : EqDecision Landing.
Proof. solve_decision. Defined.

Definition line_key (line : str) : str :=
  if is_irlume_line line then word "irlume " ++ kind line else norm line.

Definition in_chain (line ph : str) : bool := is_at_include line || bool_decide (phase line = Some ph).
Definition chain (text ph : str) : list str := List.filter (fun l => in_chain l ph) (lines text).
Definition is_include (line : str) : bool :=
  is_at_include line
  || match head line with Some h => eq_ignore_ascii_case (control h) (word "include") | None => false end.
Definition line_actions (line : str) : list (str * Z) :=
  match head line with Some h => numeric_actions h | None => [] end.

Definition occurrence (ch : list str) (at_ : nat) : str * nat :=
  let key := line_key (default [] (ch !! at_)) in
  (key, length (List.filter (fun l => bool_decide (line_key l = key)) (take (S at_) ch))).

(** The lines a jump of [n] from [at_] skips, as far as there are lines. *)
Definition skipped_lines (ch : list str) (at_ : nat) (n : Z) : list str :=
  take (Z.to_nat (Z.min n (Z.of_nat (length ch)))) (drop (S at_) ch).

Definition landing_of (ch : list str) (at_ : nat) (n : Z) : Landing :=
  let skipped := skipped_lines ch at_ n in
  let to := Z.of_nat at_ + n + 1 in
  let target := if to <? Z.of_nat (length ch) then Some (Z.to_nat to) else None in
  if existsb is_include skipped then Across (map line_key skipped) (occurrence ch <$> target)
  else if Z.of_nat (length ch) - 1 - Z.of_nat at_ <? n then PastEnd
  else match target with
       | Some to => let '(key, nth) := occurrence ch to in Line key nth
       | None => End
       end.

(** How many of the lines seen have this text, this one counted. *)
Definition ordinal_in (seen : list str) (t : str) : nat := S (length (List.filter (fun s => bool_decide (s = t)) seen)).

Record Jump := MkJump { j_phase : str; line : str; ordinal : nat; key : str; landing : Landing; skipped : list str }.

(** The lines of one chain from index [at_] on; [seen] holds the texts of the
    jumping lines before. *)
Fixpoint jump_rows (ph : str) (ch : list str) (at_ : nat) (seen : list str) (ls : list str) : list Jump :=
  match ls with
  | [] => []
  | l :: ls =>
      let actions := line_actions l in
      if is_irlume_line l || bool_decide (actions = []) then jump_rows ph ch (S at_) seen ls else
      let t := norm l in
      map (fun '(k, n) => MkJump ph t (ordinal_in seen t) k (landing_of ch at_ n) (map line_key (skipped_lines ch at_ n))) actions
      ++ jump_rows ph ch (S at_) (t :: seen) ls
  end.
Definition jumps (text : str) : list Jump := mjoin (map (fun ph => jump_rows ph (chain text ph) 0 [] (chain text ph)) PHASES).

Definition has_numeric_jump (text : str) : bool := negb (match jumps text with [] => true | _ => false end).

Definition find_landing (set : list Jump) (j : Jump) : option Landing :=
  landing <$> List.find (fun o => bool_decide (line o = line j) && bool_decide (ordinal o = ordinal j) && bool_decide (key o = key j)) set.

Record Shift := MkShift { s_phase : str; s_line : str; s_ordinal : nat; now : Landing; included : bool }.

Definition shift_of (j : Jump) : Shift := MkShift (j_phase j) (line j) (ordinal j) (landing j) false.

(** The jumps [moved] picks, one for each line. *)
Definition shifts_of (moved : Jump -> bool) (js : list Jump) : list Shift :=
  foldl (fun out j =>
    if moved j && negb (existsb (fun s => bool_decide (s_line s = line j)) out) then out ++ [shift_of j] else out) [] js.

(** Each of irlume's own jumps, by the kind of its line and its value. *)
Fixpoint own_rows (ch : list str) (at_ : nat) (ls : list str) : list (str * str * Landing) :=
  match ls with
  | [] => []
  | l :: ls =>
      (if bool_decide (is_Some (irlume_rule l))
       then map (fun '(k, n) => (kind l, k, landing_of ch at_ n)) (line_actions l) else [])
      ++ own_rows ch (S at_) ls
  end.
(** [sort_by], stable, by kind and value. *)
Definition row_le (a b : str * str * Landing) : bool := bool_decide (cmp a.1 b.1 <> Gt).
Fixpoint insert_row (x : str * str * Landing) (l : list (str * str * Landing)) : list (str * str * Landing) :=
  match l with [] => [x] | y :: l' => if row_le x y then x :: l else y :: insert_row x l' end.
Definition own_landings (text : str) : list (str * str * Landing) :=
  foldr insert_row [] (mjoin (map (fun ph => own_rows (chain text ph) 0 (chain text ph)) PHASES)).

(** ** Jumps out of included stacks *)

Section Included.
Context (reader : option (str -> option str)).

(** [expanded] until it is longer than [target]. *)
Fixpoint expand_until (ph : str) (target : Z) (expanded : list str) (ls : list str) : option (list str) :=
  match ls with
  | [] => Some expanded
  | l :: ls =>
      if target <? Z.of_nat (length expanded) then Some expanded
      else if is_include l then
        more ← expanded_include_lines reader l ph;
        expand_until ph target (expanded ++ more) ls
      else expand_until ph target (expanded ++ [l]) ls
  end.

(** The index of the [n]th line, from one, that satisfies [f]. *)
Fixpoint nth_index (f : str -> bool) (n : nat) (ls : list str) : option nat :=
  match ls with
  | [] => None
  | l :: ls =>
      if f l then match n with O => None | S O => Some O | S n => S <$> nth_index f n ls end
      else S <$> nth_index f n ls
  end.

Definition is_include_of (key : str) (l : str) : bool := is_include l && bool_decide (norm l = key).

Definition landing_chain (text ph include : str) (ordinal : nat) (offset : Z) : option (nat * list str) :=
  let ch := chain text ph in
  at_ ← nth_index (is_include_of include) ordinal ch;
  expanded ← expand_until ph (Z.of_nat at_ + offset + 1) (take (S at_) ch) (drop (S at_) ch);
  Some (at_, expanded).

Definition included_landing (text ph include : str) (ordinal : nat) (offset : Z) : option Landing :=
  '(at_, ls) ← landing_chain text ph include ordinal offset;
  Some (landing_of ls at_ (Z.min offset (Z.of_nat (length ls)))).

Definition transparent_irlume_session_line (l : str) : bool :=
  is_irlume_line l && bool_decide (phase l = Some (word "session"))
  && match head l with Some h => eq_ignore_ascii_case (control h) (word "optional") | None => false end.

(** The loop of [past_session_lines]; the outer [None] is a loop that has not
    ended yet. *)
Fixpoint past_session (fuel : nat) (text ph include : str) (ordinal : nat) (at_ : Z) : option (option Landing) :=
  match fuel with
  | O => None
  | S fuel =>
      match landing_chain text ph include ordinal at_ with
      | None => Some None
      | Some (jump_at, ls) =>
          let landing := landing_of ls jump_at (Z.min at_ (Z.of_nat (length ls))) in
          match landing with
          | Line _ _ =>
              if match ls !! Z.to_nat (Z.of_nat jump_at + at_ + 1) with
                 | Some l => transparent_irlume_session_line l
                 | None => false
                 end
              then past_session fuel text ph include ordinal (at_ + 1)
              else Some (Some landing)
          | _ => Some (Some landing)
          end
      end
  end.
(** The lines the loop can pass: those of the chain, with every include that
    can be read expanded. *)
Definition readable_lines (text ph : str) : list str :=
  mjoin (map (fun l => if is_include l then default [] (expanded_include_lines reader l ph) else [l]) (chain text ph)).
Definition past_session_lines (text ph include : str) (ordinal : nat) (offset : Z) : option Landing :=
  default None (past_session (length (chain text ph) + length (readable_lines text ph) + 2) text ph include ordinal offset).

(** Whether one offset of an include's jump has moved. *)
Definition included_moved (before after : str) (caused_by_irlume : bool) (ph key : str) (ordinal : nat) (offset : Z) : bool :=
  let prior := included_landing before ph key ordinal offset in
  let next := included_landing after ph key ordinal offset in
  if caused_by_irlume then
    let bare := included_landing (base after) ph key ordinal offset in
    let through := past_session_lines after ph key ordinal offset in
    let moved_by_irlume := match bare with Some b => negb (bool_decide (through = Some b)) | None => false end in
    let already := bool_decide (prior = next)
                   && bool_decide (included_landing (base before) ph key ordinal offset = bare) in
    moved_by_irlume && negb already
  else negb (bool_decide (prior = next)).

Definition included_shift (before after : str) (caused_by_irlume : bool) (ph key : str) (ordinal : nat) (offset : Z)
    : option Shift :=
  if included_moved before after caused_by_irlume ph key ordinal offset then
    now ← included_landing after ph key ordinal offset; Some (MkShift ph key ordinal now true)
  else None.

(** The lines of one chain of [after]; [seen] holds the includes before. *)
Fixpoint included_rows (before after : str) (caused first_following : bool) (ph : str) (seen : list str) (ls : list str)
    : list Shift :=
  match ls with
  | [] => []
  | l :: ls =>
      if negb (is_include l) then included_rows before after caused first_following ph seen ls else
      let key := norm l in
      let row :=
        match included_jump_offsets reader l ph first_following with
        | None => []
        | Some offsets => take 1 (omap (included_shift before after caused ph key (ordinal_in seen key)) offsets)
        end in
      row ++ included_rows before after caused first_following ph (key :: seen) ls
  end.
Definition included_shifts (before after : str) (caused first_following : bool) : list Shift :=
  mjoin (map (fun ph => included_rows before after caused first_following ph [] (chain after ph)) PHASES).

Definition jump_shifts (before after : str) : list Shift :=
  let old := jumps before in
  let unwired := jumps (base after) in
  let moved j :=
    match (match find_landing old j with Some r => Some r | None => find_landing unwired j end) with
    | Some r => negb (bool_decide (r = landing j))
    | None => false
    end in
  shifts_of moved (jumps after) ++ included_shifts before after false false.

Definition included_jumps_moved_by_irlume (before after : str) : list Shift := included_shifts before after true true.

Definition jumps_moved_by_irlume (before after : str) : list Shift :=
  let old := jumps before in
  let old_bare := jumps (base before) in
  let unwired := jumps (base after) in
  let moved j :=
    let bare := find_landing unwired j in
    let moved_by_irlume := match bare with Some b => negb (bool_decide (b = landing j)) | None => false end in
    let already := match find_landing old j with Some prior => bool_decide (prior = landing j) | None => false end
                   && bool_decide (find_landing old_bare j = bare) in
    moved_by_irlume && negb already in
  shifts_of moved (jumps after) ++ included_shifts before after true false.

Inductive JumpCheck := Clear | Warn (shifts : list Shift) | Refuse (shifts : list Shift).
Definition check_jumps (before after : str) (edited : bool) : JumpCheck :=
  match jumps_moved_by_irlume before after with
  | [] => Clear
  | shifts => if edited || has_irlume_line before then Refuse shifts else Warn shifts
  end.

Definition filled_in_place (body wired : str) (edited : bool) : option (str * JumpCheck) :=
  filled ← fill_slots body wired;
  if negb (bool_decide (own_landings filled = own_landings wired)) then None else
  match check_jumps body filled edited with
  | Refuse _ => None
  | check => Some (filled, check)
  end.

(** ** The order of irlume's lines among the others *)

Definition trim_line (l : str) : str := str_codes (trim (codes_str l)).

Definition same_side_of_the_password_step (filled wired : str) : bool :=
  let sides text :=
    let ls := lines text in
    step ← position (fun l => negb (is_irlume_line l) && is_password_step l) ls;
    Some (mjoin (imap (fun at_ l =>
      if is_irlume_line l && negb (contains INERT_TAG l) && bool_decide (phase l = Some (word "auth"))
      then [(trim_line l, bool_decide (at_ < step)%nat)] else []) ls)) in
  match sides filled, sides wired with
  | Some filled, Some wired => forallb (fun l => bool_decide (l ∈ filled)) wired
  | _, _ => true
  end.

Definition ordered (l : str) : bool :=
  negb (bool_decide (trim_line (directive l) = []))
  && (negb (is_irlume_line l)
      || (rule_names_module l (word "pam_gnome_keyring.so") && contains KEYRING_TAG l)).

Definition others_above (text l : str) : option (list str) :=
  let ls := lines text in
  at_ ← position (fun m => bool_decide (trim_line m = l)) ls;
  let own := phase l in
  let same m := match own, phase m with Some a, Some b => bool_decide (a = b) | _, _ => true end in
  Some (map trim_line (List.filter (fun m => ordered m && same m) (take at_ ls))).

(** Takes each of [needed] out of [have]: what is left, when all were there. *)
Fixpoint take_out (needed have : list str) : option (list str) :=
  match needed with
  | [] => Some have
  | n :: needed =>
      at_ ← position (fun h => bool_decide (h = n)) have;
      take_out needed (delete at_ have)
  end.

Definition recipe_lines_above_stay_above (filled wired : str) : bool :=
  forallb (fun l =>
    let l := trim_line l in
    match others_above wired l, others_above filled l with
    | Some needed, Some have =>
        match take_out needed have with
        | Some moved => forallb (fun m => negb (bool_decide (line_actions m = []))) moved
        | None => false
        end
    | _, _ => true
    end) (List.filter (fun l => is_irlume_line l && negb (contains INERT_TAG l)) (lines wired)).

Definition refill (current wired : str) : option str :=
  filled ← fill_slots current wired;
  if bool_decide (own_landings filled = own_landings wired)
     && (match jump_shifts current filled with [] => true | _ => false end)
     && same_side_of_the_password_step filled wired
     && recipe_lines_above_stay_above filled wired
  then Some filled else None.

(** ** Jumps that are as the vendor has them *)

Definition same_jump (j o : Jump) : bool :=
  bool_decide (line o = line j) && bool_decide (ordinal o = ordinal j) && bool_decide (key o = key j)
  && bool_decide (landing o = landing j) && bool_decide (skipped o = skipped j).

Definition as_the_vendor_has_them (stripped : str) (vendor : option str) : list (str * str * nat) :=
  match vendor with
  | None => []
  | Some v =>
      let vendor_jumps := jumps (base v) in
      let stripped_jumps := jumps stripped in
      let as_vendor j := existsb (fun o => bool_decide (j_phase o = j_phase j) && same_jump j o) vendor_jumps in
      let id j := (j_phase j, line j, ordinal j) in
      foldl (fun out j =>
        let every := forallb as_vendor (List.filter (fun o => bool_decide (id o = id j)) stripped_jumps) in
        if every && negb (bool_decide (id j ∈ out)) then out ++ [id j] else out) [] stripped_jumps
  end.

Definition strip_shifts (body stripped : str) (vendor : option str) : list Shift :=
  let shifts := jump_shifts body stripped in
  match vendor with
  | None => shifts
  | Some v =>
      let vendor_jumps := jumps (base v) in
      let stripped_jumps := jumps stripped in
      List.filter (fun s =>
        if included s then
          match (include ← nth_index (is_include_of (s_line s)) (s_ordinal s) (chain stripped (s_phase s));
                 l ← chain stripped (s_phase s) !! include;
                 included_jump_offsets reader l (s_phase s) false) with
          | None => true
          | Some offsets =>
              negb (forallb (fun offset =>
                let now := included_landing stripped (s_phase s) (s_line s) (s_ordinal s) offset in
                bool_decide (is_Some now)
                && bool_decide (now = included_landing (base v) (s_phase s) (s_line s) (s_ordinal s) offset)) offsets)
          end
        else
          negb (forallb (fun j => existsb (same_jump j) vendor_jumps)
                  (List.filter (fun j => bool_decide (line j = s_line s)) stripped_jumps))) shifts
  end.
End Included.
