(* ===== verification/PamWiring.v ===== *)
(** * Wiring a PAM stack

    The recipes of [irlume-cli/src/pamwire/transform.rs]: each returns the new
    text and whether it changed, and refuses text it cannot read as libpam
    does.  The stack reader is an argument, as in [PamGrammar]. *)

From S2P Require Import Prelude Text Ordering PamGrammar PamLines PamOverrides.
Import grammar.

Section Recipes.
Context (reader : option (str -> option str)).

(** The checks every recipe for a password stack starts with. *)
Definition refuses (content : str) : bool :=
  negb (read_as_pam content) || has_failing_auth_line reader content || content_has_module content.

(** Each line in its place, [around i l] being what stands for line [i]. *)
Definition rewrite (around : nat -> str -> list str) (ls : list str) : list str := mjoin (imap around ls).

Definition wire_greeter_impl (content : str) (face keyring ondemand : bool) : str * bool :=
  if refuses content then (content, false) else
  let ls := lines content in
  let opt (b : bool) (l : str) : list str := if b then [l] else [] in
  match position is_include_auth_layout ls with
  | Some inc_at =>
      let out := rewrite (fun i l =>
        if bool_decide (i = inc_at) then
          opt face (include_greeter_line (if ondemand then word "ondemand" else word "facefirst") true)
          ++ [l] ++ opt keyring KEYRING_UNSEAL ++ [RESEAL_AUTH]
        else if is_session_include l then [l; RESEAL_SESSION]
        else [l]) ls in
      (unlines (if bool_decide (RESEAL_SESSION ∈ out) then out else out ++ [RESEAL_SESSION]), true)
  | None =>
      let sess_at := position (fun l => is_passwd_substack l (word "session")) ls in
      match find_auth_anchor reader ls with
      | None => (content, false)
      | Some auth_at =>
          let out := rewrite (fun i l =>
            if bool_decide (i = auth_at) then
              (if face then [if ondemand then GREETER_UNSEAL_COSMIC_JUMP else GREETER_UNSEAL_FACEFIRST_JUMP; l; PERMIT_LANDING]
               else [l])
              ++ opt keyring KEYRING_UNSEAL ++ [RESEAL_AUTH]
            else if bool_decide (Some i = sess_at) then [l; RESEAL_SESSION]
            else [l]) ls in
          (unlines (if sess_at is None then out ++ [RESEAL_SESSION] else out), true)
      end
  end.

Definition wire_lock (content : str) : str * bool :=
  if refuses content then (content, false) else
  let ls := lines content in
  match position is_include_auth_layout ls with
  | Some inc_at =>
      (unlines (rewrite (fun i l =>
         if bool_decide (i = inc_at) then [include_greeter_line (word "ondemand") false; l] else [l]) ls), true)
  | None =>
      match find_auth_anchor reader ls with
      | None => (content, false)
      | Some auth_at =>
          (unlines (rewrite (fun i l =>
             if bool_decide (i = auth_at) then [GREETER_UNSEAL_COSMIC_JUMP; l; PERMIT_LANDING] else [l]) ls), true)
      end
  end.

Definition has_complete_consumer (ls : list str) (fp_at : nat) (service : str) : bool :=
  existsb (fun m =>
    existsb (fun l => is_auth_directive l && bool_decide (consumer_active_for l service = Some m)) (drop (S fp_at) ls)
    && session_consumer ls service m) KEYRING_CONSUMERS.

Definition wire_fp_keyring (content service : str) : str * bool :=
  if negb (read_as_pam content) then (content, false)
  else if existsb (fun l => irlume_rule_has_arg l (word "keyring")) (lines content) then (content, false)
  else
    let ls := lines content in
    match position is_fingerprint_auth ls with
    | None => (content, false)
    | Some fp_at =>
        let has := has_complete_consumer ls fp_at service in
        let out := rewrite (fun i l =>
          if bool_decide (i = fp_at) then [l; KEYRING_UNSEAL] ++ (if has then [] else [FP_GKR_AUTH]) else [l]) ls in
        let out := if has then out else out ++ [FP_GKR_SESSION] in
        let session l := match irlume_rule l with Some r => bool_decide (r_phase r = word "session") | None => false end in
        (unlines (if existsb session ls then out else out ++ [RESEAL_SESSION]), true)
    end.

Definition is_auth (l : str) : bool := is_auth_directive l || is_include_auth_layout l.

(** The text with [stanza] above line [at_]. *)
Definition with_stanza_at (stanza : str) (ls : list str) (at_ : nat) : str :=
  unlines (rewrite (fun i l => if bool_decide (i = at_) then [stanza; l] else [l]) ls).

(** The places the stanza is tried at, from the password step up: the first
    one, above [first], where no jump moves. *)
Definition stanza_place (content stanza : str) (ls : list str) (first password : nat) : option nat :=
  List.find (fun at_ =>
    match ls !! at_ with Some l => is_auth l | None => false end
    && match jumps_moved_by_irlume reader content (with_stanza_at stanza ls at_) with [] => true | _ => false end)
    (reverse (seq (S first) (password - first))).

Definition insert_verify_stanza (content stanza : str) : str * bool :=
  let ls := lines content in
  match position is_auth ls with
  | None => (content, false)
  | Some first =>
      let password := match position is_password_step ls with Some at_ => Nat.max at_ first | None => first end in
      (with_stanza_at stanza ls (default first (stanza_place content stanza ls first password)), true)
  end.

Definition wire_verify_service (content : str) : str * bool :=
  if refuses content then (content, false) else insert_verify_stanza content VERIFY_STANZA.

Definition wire_polkit_service (content : str) : str * bool :=
  if refuses content then (content, false) else insert_verify_stanza content POLKIT_VERIFY_STANZA.

Definition wire_omarchy_lock (content : str) : str * bool :=
  if refuses content then (content, false) else
  let ls := lines content in
  match position (fun l => is_include_auth_layout l || is_auth_directive l) ls with
  | None => (content, false)
  | Some anchor => (with_stanza_at POLKIT_VERIFY_STANZA ls anchor, true)
  end.
End Recipes.
