(* ===== verification/PamArrange.v ===== *)
(** * Where irlume's lines go in a file it keeps

    The part of [irlume-cli/src/pamwire/overrides.rs] that arranges irlume's
    lines in an override: the longest common subsequence that tells an
    administrator's lines from the vendor's, the slots between them, and the
    three ways an update keeps to them. *)

From S2P Require Import Prelude Text Ordering PamGrammar PamLines PamOverrides.
Import grammar.

(** ** The longest common subsequence *)

(** Row [i] of the table from row [i + 1], for the line [x] of the first list. *)
Fixpoint lcs_row (x : str) (b : list str) (below : list nat) : list nat :=
  match b with
  | [] => [0%nat]
  | y :: b =>
      let row := lcs_row x b (tail below) in
      (if bool_decide (x = y) then S (nth 1 below 0) else Nat.max (nth 0 below 0) (nth 0 row 0))%nat :: row
  end.
Fixpoint lcs_table (a b : list str) : list (list nat) :=
  match a with
  | [] => [repeat 0%nat (S (length b))]
  | x :: a => let t := lcs_table a b in lcs_row x b (List.hd [] t) :: t
  end.

(** The walk of [common_lines] from [a] and [b] on; [j] is the index [b]
    starts at and [t] holds the rows from that of [a] on. *)
Fixpoint walk (a : list str) : list str -> nat -> list (list nat) -> list bool :=
  match a with
  | [] => fun _ _ _ => []
  | x :: a' =>
      fix walk_b (b : list str) (j : nat) (t : list (list nat)) : list bool :=
        match b with
        | [] => repeat false (S (length a'))
        | y :: b' =>
            if bool_decide (x = y) then true :: walk a' b' (S j) (tail t)
            else if (nth (S j) (nth 0 t []) 0 <=? nth j (nth 1 t []) 0)%nat then false :: walk a' b j (tail t)
            else walk_b b' (S j) t
        end
  end.
Definition common_lines (ours theirs : list str) : list bool := walk ours theirs 0 (lcs_table ours theirs).

(** ** Whose line it is *)

Definition pam_key (line : str) : str := norm (directive line).

Definition count (set : list str) (key : str) : nat := length (List.filter (fun k => bool_decide (k = key)) set).

(** The flags of the lines that are read, put back among the ones that are not. *)
Fixpoint spread (own : str -> bool -> bool) (ours : list str) (common : list bool) : list bool :=
  match ours with
  | [] => []
  | k :: ours =>
      if bool_decide (k = []) then false :: spread own ours common
      else match common with
           | c :: common => own k c :: spread own ours common
           | [] => false :: spread own ours []
           end
  end.

Definition own_lines (bare : str) (vendor : option str) (edited : bool) : list bool :=
  let ours := map pam_key (lines bare) in
  let read k := negb (bool_decide (k = [])) in
  if negb edited then repeat false (length ours) else
  match vendor with
  | None => map read ours
  | Some v =>
      let a := List.filter read ours in
      let b := List.filter read (map pam_key (lines (base v))) in
      spread (fun k c => negb c || (count b k <? count a k)%nat) ours (common_lines a b)
  end.

(** ** Slots *)

(** The loop of [slots]: [own] from the line now seen on, [admin] the
    administrator's lines before. *)
Fixpoint slots_from (own : list bool) (admin : nat) (ls : list str) : list (str * nat) :=
  match ls with
  | [] => []
  | l :: ls =>
      if is_irlume_line l then (kind l, admin) :: slots_from own admin ls
      else slots_from (tail own) (if List.hd true own then S admin else admin) ls
  end.
Definition slots (text : str) (own : list bool) : list (str * nat) := slots_from own 0 (lines text).

(** The slots of the lines of one kind, in order. *)
Definition slots_of (k : str) (ss : list (str * nat)) : list nat := map snd (List.filter (fun s => bool_decide (s.1 = k)) ss).

(** [min_by_key] by the distance from [slot]: the first of the nearest. *)
Definition nearest (held : list nat) (slot : nat) : option nat :=
  let dist h := (h - slot + (slot - h))%nat in
  match held with
  | [] => None
  | h :: hs => Some (foldl (fun best h => if (dist h <? dist best)%nat then h else best) h hs)
  end.

(** The loop of [crossing] over the slots of the candidate; [paired] holds the
    kinds seen, and the answer is the number of the line crossed. *)
Fixpoint crossed_slot (before : list (str * nat)) (paired : list str) (ss : list (str * nat)) : option nat :=
  match ss with
  | [] => None
  | (k, slot) :: ss =>
      let held := map snd before in
      match slots_of k before !! count paired k with
      | Some o => if bool_decide (o = slot) then crossed_slot before (k :: paired) ss else Some (Nat.min slot o)
      | None =>
          if bool_decide (slot ∈ held) then crossed_slot before (k :: paired) ss
          else Some (Nat.min slot (default slot (nearest held slot)))
      end
  end.

(** The indices of the elements [f] holds of. *)
Definition indices {A} (f : A -> bool) (l : list A) : list nat :=
  mjoin (imap (fun i x => if f x then [i] else []) l).

(** The outer [None]: nothing is crossed. *)
Definition crossing (body candidate bare : str) (own : list bool) : option (option nat) :=
  let theirs := indices (fun l => negb (is_irlume_line l)) (lines body) in
  let admin_lines := indices snd (zip (lines bare) own) in
  crossed ← crossed_slot (slots body own) [] (slots candidate own);
  Some (at_ ← admin_lines !! crossed; theirs !! at_).

(** The loop of [substitute]: what is written and what has found no place. *)
Fixpoint take_places (want : list (str * str)) (ls : list str) : list str * list (str * str) :=
  match ls with
  | [] => ([], want)
  | line :: ls =>
      if is_irlume_line line then
        match position (fun w => bool_decide (w.1 = kind line)) want with
        | Some at_ =>
            let '(out, rest) := take_places (delete at_ want) ls in
            (default line (snd <$> want !! at_) :: out, rest)
        | None => take_places want ls
        end
      else let '(out, rest) := take_places want ls in (line :: out, rest)
  end.
Definition substitute (body candidate : str) : option str :=
  let want := map (fun l => (kind l, l)) (List.filter is_irlume_line (lines candidate)) in
  let '(out, rest) := take_places want (lines body) in
  if bool_decide (rest = []) then Some (unlines out) else None.

(** ** The password line *)

(** The index of the first line [named] or, failing that, that is an auth
    substack, among those [take] allows. *)
Definition first_password (ls : list str) (take : nat -> bool) : option nat :=
  let named l := is_include_auth_layout l || is_passwd_substack l (word "auth") in
  let first (f : str -> bool) := List.find (fun i => match ls !! i with Some l => f l | None => false end && take i) (seq 0 (length ls)) in
  match first named with Some i => Some i | None => first is_auth_substack_anchor end.

Definition password_line (bare : str) (own : list bool) (vendor_known : bool) : option nat :=
  let ls := lines bare in
  if vendor_known then first_password ls (fun i => negb (default true (own !! i)))
  else
    k ← first_password ls (fun _ => true);
    if bool_decide (count (map pam_key ls) (pam_key (default [] (ls !! k))) = 1%nat) then Some k else None.

Definition strip_loses_place (body : str) (vendor : option str) (edited : bool) : bool :=
  let bare := base body in
  edited && bool_decide (password_line bare (own_lines bare vendor true) (bool_decide (is_Some vendor)) = None).

Definition anchored (bare : str) (own : list bool) (vendor_known : bool) (wire : str -> str * bool) : option str :=
  let ls := lines bare in
  k ← password_line bare own vendor_known;
  let '(tail_, ok) := wire (unlines (drop k ls)) in
  if negb ok then None else
  let t := lines tail_ in
  at_ ← position (fun l => negb (is_irlume_line l)) t;
  let irlume_at (j : option nat) := match j ≫= (fun j => t !! j) with Some l => is_irlume_line l | None => false end in
  if negb (irlume_at (if (at_ =? 0)%nat then None else Some (at_ - 1)%nat)) && negb (irlume_at (Some (S at_))) then None
  else Some (if (k =? 0)%nat then tail_ else unlines (take k ls) ++ tail_).

(** ** The arrangement *)

Inductive Misplaced := Crossing (line : option nat) | NoPasswordAnchor.

Definition arrange (body bare wired : str) (vendor : option str) (edited : bool) (wire : str -> str * bool) : result Misplaced str :=
  let own := own_lines bare vendor edited in
  if negb (has_irlume_line body) then
    if negb edited then Ok wired
    else ok_or NoPasswordAnchor (anchored bare own (bool_decide (is_Some vendor)) wire)
  else
    match crossing body wired bare own with
    | None => Ok wired
    | Some line => ok_or (Crossing line) (substitute body wired)
    end.
