(* ===== verification/PamDecide.v ===== *)
(** * The decision for an override

    [decide] of [irlume-cli/src/pamwire/overrides.rs], the one decision for a
    file irlume created as an override, and [maintenance], what reconcile does
    to one.  The runs modelled are those without [--adjust-jumps]; what a
    decision prints (its message and the diff) and [adjustable], which only
    says what that flag would do, are left out.  The hash and the stack reader
    are arguments. *)

From S2P Require Import Prelude Text Ordering PamGrammar PamLines PamOverrides PamWiring PamArrange.
Import grammar.

Module PlannedChange.
Inductive t := MaterializeOverride | Wire | RemoveOverride | RewireOverride | KeepEditedOverride | RestoreBackup | StripInPlace
  | AlreadyCorrect | NotInstalled | NoAnchor | NotWired.
#[export] Instance eq_dec : EqDecision t.
Proof. solve_decision. Defined.

Definition writes (c : t) : bool :=
  match c with MaterializeOverride | Wire | RemoveOverride | RewireOverride | RestoreBackup | StripInPlace => true | _ => false end.
End PlannedChange.

Module Write.
Inductive t := Nothing | Replace (content : str) | Remove.
#[export] Instance eq_dec : EqDecision t.
Proof. solve_decision. Defined.
End Write.

Record Decision := MkDecision {
  change : PlannedChange.t; write : Write.t; keep_copy : bool; unmet : bool; header_only : bool }.

Definition keep (c : PlannedChange.t) : Decision := MkDecision c Write.Nothing false false false.
Definition replace (c : PlannedChange.t) (content : str) : Decision := MkDecision c (Write.Replace content) false false false.
Definition with_unmet (d : Decision) : Decision := MkDecision (change d) (write d) (keep_copy d) true (header_only d).

Record Input := MkInput {
  vendor_path : str; current : option str; vendor : option str; backup : option str; enable : bool; force : bool;
  wire : str -> str * bool }.

(** Why [decide] gives no decision. *)
Inductive Undecided := ChangedMeanwhile | OtherBackup | NoVendor.

Section Decide.
Context (sha256 : str -> str) (reader : option (str -> option str)).

Definition no_anchor : Decision := keep PlannedChange.NoAnchor.
(** [continued] and [unreadable]: the file is kept as it is. *)
Definition continued : Decision := with_unmet (keep PlannedChange.KeepEditedOverride).
Definition unreadable : Decision := with_unmet (keep PlannedChange.KeepEditedOverride).

(** [Parsed::unreadable]. *)
Definition p_unreadable (p : Parsed) : bool := bool_decide (is_Some (unreadable_line (PamOverrides.text p))).

Definition remove_or_strip (i : Input) (p : Parsed) (class : Class) (no_anchor : bool) : Decision :=
  if bool_decide (class ∈ [U1; U2; L1]) then MkDecision PlannedChange.RemoveOverride Write.Remove false false false else
  let '(stripped, had) := unwire_lines (body p) in
  if negb had then keep PlannedChange.NotWired else
  if has_line_continuation (PamOverrides.text p) && (negb no_anchor || negb (removal_preserves_continuations (PamOverrides.text p))) then continued else
  if p_unreadable p then
    if jump_could_count_irlume_lines reader (PamOverrides.text p) then unreadable
    else replace PlannedChange.StripInPlace (without_irlume_lines (PamOverrides.text p))
  else if has_line_continuation (PamOverrides.text p) then
    if jump_could_count_irlume_lines reader (PamOverrides.text p) then continued
    else replace PlannedChange.StripInPlace (without_irlume_lines (PamOverrides.text p))
  else
    let shifts := strip_shifts reader (body p) stripped (vendor i) in
    let held := negb (match shifts with [] => true | _ => false end) || strip_loses_place (body p) (vendor i) (edited class) in
    if negb held then replace PlannedChange.StripInPlace (keep_header p stripped) else
    let inert := neutralize (body p) in
    if bool_decide (inert = normalize (body p)) then keep (if no_anchor then PlannedChange.NoAnchor else PlannedChange.NotWired)
    else replace PlannedChange.StripInPlace (keep_header p inert).

(** [refuse]: nothing is written. *)
Definition refuse : Decision := with_unmet (keep PlannedChange.KeepEditedOverride).

(** What the update writes, whether it was filled in place; [None] is refused. *)
Definition chosen_text (body wired arranged : str) (edited : bool) : option (str * bool) :=
  match check_jumps reader body arranged edited with
  | Refuse _ => '(text, _) ← filled_in_place reader body wired edited; Some (text, true)
  | _ => Some (arranged, false)
  end.

Definition in_place (i : Input) (p : Parsed) (class : Class) (edited : bool) (unchanged : PlannedChange.t) : Decision :=
  let bare := base (body p) in
  let '(wired, ok) := wire i bare in
  if negb ok && recipe_has_no_anchor bare (wire i) then
    if has_irlume_line (body p) then remove_or_strip i p class true else no_anchor
  else if has_line_continuation (PamOverrides.text p) then continued
  else if p_unreadable p then unreadable
  else if bool_decide (irlume_lines (body p) = irlume_lines wired) then
    if crlf p then replace PlannedChange.RewireOverride (keep_header p (body p)) else keep unchanged
  else
    match arrange (body p) bare wired (vendor i) edited (wire i) with
    | Err (Crossing _) => refuse
    | Err NoPasswordAnchor => no_anchor
    | Ok arranged =>
        match chosen_text (body p) wired arranged edited with
        | None => refuse
        | Some (arranged, filled) =>
            if filled && bool_decide (normalize arranged = normalize (body p)) && negb (crlf p) then keep unchanged
            else replace PlannedChange.RewireOverride (keep_header p arranged)
        end
    end.

Definition rewire_edited (i : Input) (p : Parsed) (class : Class) : Decision :=
  in_place i p class true
    (if bool_decide (class = E2 \/ class = L2) then PlannedChange.KeepEditedOverride else PlannedChange.AlreadyCorrect).

Definition vendor_gone (i : Input) (p : Parsed) (class : Class) : Decision :=
  in_place i p class (edited class) PlannedChange.AlreadyCorrect.

Definition rebuild (i : Input) (cur : str) (p : Parsed) (class : Class) : Decision :=
  match vendor i with
  | None => vendor_gone i p class
  | Some v =>
      let '(wired, ok) := wire i (base v) in
      let as_it_is := in_place i p class false PlannedChange.AlreadyCorrect in
      if bool_decide (is_Some (unreadable_line v)) || negb ok then as_it_is else
      let fresh := render sha256 (vendor_path i) v wired in
      if bool_decide (normalize cur = fresh) && negb (crlf p) then keep PlannedChange.AlreadyCorrect else
      match check_jumps reader (body p) wired false with
      | Refuse _ => as_it_is
      | _ =>
          let same_lines := bool_decide (normalize (body p) = wired) in
          MkDecision PlannedChange.MaterializeOverride (Write.Replace fresh) false false
            (bool_decide (class = L1) && same_lines && negb (crlf p))
      end
  end.

Definition forced (i : Input) (cur : str) (p : Parsed) (class : Class) : result Undecided Decision :=
  v ← ok_or NoVendor (vendor i);
  if bool_decide (is_Some (unreadable_line v)) then Ok (with_unmet (keep PlannedChange.KeepEditedOverride)) else
  let '(wired, ok) := wire i (base v) in
  if negb ok then Ok (if has_irlume_line (body p) then remove_or_strip i p class true else no_anchor)
  else if match backup i with Some b => negb (bool_decide (b = cur)) | None => false end then Err OtherBackup
  else
    match check_jumps reader (body p) wired false with
    | Refuse _ => Ok (with_unmet (keep PlannedChange.KeepEditedOverride))
    | _ => Ok (MkDecision PlannedChange.MaterializeOverride (Write.Replace (render sha256 (vendor_path i) v wired)) true false false)
    end.

(** There is no file: [decide]'s first part. *)
Definition decide_absent (i : Input) : Decision :=
  if negb (enable i) then keep PlannedChange.NotWired else
  match vendor i with
  | None => keep PlannedChange.NotInstalled
  | Some v =>
      if bool_decide (is_Some (unreadable_line v)) then with_unmet (keep PlannedChange.KeepEditedOverride) else
      let '(wired, ok) := wire i (base v) in
      if negb ok then no_anchor
      else replace PlannedChange.MaterializeOverride (render sha256 (vendor_path i) v wired)
  end.

Definition decide (i : Input) : result Undecided Decision :=
  match current i with
  | None => Ok (decide_absent i)
  | Some cur =>
      p ← ok_or ChangedMeanwhile (PamOverrides.parse cur);
      let class := classify sha256 p (vendor i) in
      if negb (enable i) then Ok (remove_or_strip i p class false)
      else if bool_decide (class = U2) && match vendor i with Some v => (wire i (base v)).2 | None => false end
      then Ok (rebuild i cur p class)
      else if has_irlume_line (body p) && recipe_has_no_anchor (base (body p)) (wire i)
      then Ok (remove_or_strip i p class true)
      else if p_unreadable p then Ok unreadable
      else if force i && bool_decide (class ∈ [E1; E2; L2]) then forced i cur p class
      else Ok (match class with
               | U3 | E3 | L3 => vendor_gone i p class
               | U1 | U2 | L1 => rebuild i cur p class
               | E1 | E2 | L2 => rewire_edited i p class
               end)
  end.

(** ** Reconcile *)

Inductive Recipe := Greeter | Lock | Verify | Polkit.
#[export] Instance Recipe_eq_dec : EqDecision Recipe.
Proof. solve_decision. Defined.

Record Settings := MkSettings { face : bool; keyring : bool; ondemand : bool }.
#[export] Instance Settings_eq_dec : EqDecision Settings.
Proof. solve_decision. Defined.
Definition default_settings : Settings := MkSettings false false false.

Definition infer (recipe : Recipe) (body : str) : option Settings :=
  let rules := map args (omap irlume_rule (lines body)) in
  let has a (t : list str) := bool_decide (word a ∈ t) in
  match rules with
  | [] => None
  | _ =>
      if negb (bool_decide (recipe = Greeter)) then Some default_settings else
      let unseal := List.filter (has "unseal") rules in
      let face := negb (match unseal with [] => true | _ => false end) in
      let keyring := existsb (has "keyring") rules in
      let on := length (List.filter (has "ondemand") unseal) in
      let first := length (List.filter (has "facefirst") unseal) in
      let n := length unseal in
      ondemand ←
        (if face then
           if bool_decide (on = n) && bool_decide (first = 0%nat) then Some true
           else if bool_decide (first = n) && bool_decide (on = 0%nat) then Some false
           else None
         else Some false);
      if negb face && negb keyring then if forallb (has "reseal") rules then Some default_settings else None
      else Some (MkSettings face keyring ondemand)
  end.

Definition wire_with (recipe : Recipe) (settings : Settings) (content : str) : str * bool :=
  match recipe with
  | Greeter => wire_greeter_impl reader content (face settings) (keyring settings) (ondemand settings)
  | Lock => wire_lock reader content
  | Verify => wire_verify_service reader content
  | Polkit => wire_polkit_service reader content
  end.

Inductive Hold := UnknownSettings | HoldNoAnchor | SettingsChange | HoldJump | HoldUnreadable.
Inductive Maintenance := MNothing | Record_ (content : str) | Refresh (content : str) | Blocked (hold : Hold).

Definition maintenance (recipe : Recipe) (cur vendor_path : str) (vendor : option str) : Maintenance :=
  match PamOverrides.parse cur, vendor with
  | Some p, Some v =>
      let unread := p_unreadable p || has_read_carriage_return (PamOverrides.text p) in
      match classify sha256 p (Some v) with
      | L1 =>
          if unread then Blocked HoldUnreadable
          else Record_ (first p ++ 10 :: tracking_line (sha256 v) (body_digest sha256 (body p)) ++ 10 :: body p)
      | U2 =>
          if unread || bool_decide (is_Some (unreadable_line v)) then Blocked HoldUnreadable else
          match infer recipe (body p) with
          | None => Blocked UnknownSettings
          | Some settings =>
              let '(wired, ok) := wire_with recipe settings (base v) in
              if negb ok then Blocked HoldNoAnchor
              else if negb (bool_decide (infer recipe wired = Some settings)) then Blocked SettingsChange
              else match jumps_moved_by_irlume reader (body p) wired with
                   | [] => Refresh (render sha256 vendor_path v wired)
                   | _ => Blocked HoldJump
                   end
          end
      | _ => MNothing
      end
  | _, _ => MNothing
  end.
End Decide.
