(* ===== verification/PamSessionTheory.v ===== *)
(** * Every session path runs a reseal rule: what the check proves

    The paths a session stack can take, and that [session_reaches_reseal] says
    yes exactly when none of them leaves the stack without a reseal rule. *)

From S2P Require Import Prelude Text Ordering PamGrammar.
Import grammar.

(** A run from the first of the steps that ends the stack, or falls off its
    end, without a reseal rule.  What a module answers is not known, so each
    action of its rule may be the one taken; [done] and [die] leave the stack,
    a [done] that an earlier failure suppresses goes on, a jump past the last
    step reaches the end, and what leaves a substack goes on after it. *)
Inductive misses : list Step -> Prop :=
  | misses_end : misses []
  | misses_leave actions rest a :
      a ∈ actions -> a = Action.Done \/ a = Action.Die -> misses (Run actions :: rest)
  | misses_jump actions rest n :
      Action.Jump n ∈ actions -> misses (drop (Z.to_nat n) rest) -> misses (Run actions :: rest)
  | misses_on actions rest a :
      a ∈ actions -> a ∈ [Action.Ignore; Action.Ok; Action.Bad; Action.Reset; Action.Done] ->
      misses rest -> misses (Run actions :: rest)
  | misses_substack nested rest : misses nested -> misses rest -> misses (Substack nested :: rest).

(** Steps, by what they hold. *)
Fixpoint size (s : Step) : nat :=
  match s with
  | Substack nested => S (list_sum (map size nested))
  | _ => 1
  end.
Definition sizes (l : list Step) : nat := list_sum (map size l).

Lemma sizes_drop k l : (sizes (drop k l) <= sizes l)%nat.
Proof.
  revert k; induction l as [|s l IH]; intros [|k]; simpl; [done..|]. unfold sizes in *. simpl. specialize (IH k). lia.
Qed.

Lemma cells_suffix r nested :
  (fix cells l := match l with [] => [r] | s :: l => let suf := cells l in cell r s suf :: suf end) nested = suffix r nested.
Proof. induction nested as [|s l IH]; cbn [suffix]; [done|]. by rewrite <- IH. Qed.

Lemma cell_substack r nested after : cell r (Substack nested) after = reaches nested (List.hd false after).
Proof. unfold reaches. simpl. by rewrite cells_suffix. Qed.

Lemma suffix_length r steps : length (suffix r steps) = S (length steps).
Proof. induction steps; simpl; [done|]. by f_equal. Qed.

Lemma suffix_nth r steps k : (k <= length steps)%nat -> nth k (suffix r steps) false = reaches (drop k steps) r.
Proof.
  revert k; induction steps as [|s steps IH]; intros [|k] Hk; simpl in *; [done|lia|done|]. apply IH. lia.
Qed.

Lemma jump_cell r steps n :
  nth (Z.to_nat (Z.min n (Z.of_nat (length (suffix r steps)) - 1))) (suffix r steps) false = reaches (drop (Z.to_nat n) steps) r.
Proof.
  rewrite suffix_length. destruct (decide (Z.to_nat n <= length steps)%nat).
  - rewrite <- suffix_nth by done. f_equal. lia.
  - rewrite suffix_nth by lia. f_equal. rewrite !drop_ge by lia. done.
Qed.

Lemma reaches_run r actions rest :
  reaches (Run actions :: rest) r = false <->
  exists a, a ∈ actions /\ match a with
    | Action.Done | Action.Die => r = false
    | Action.Jump n => reaches (drop (Z.to_nat n) rest) r = false
    | _ => reaches rest r = false
    end.
Proof.
  unfold reaches at 1. cbn [suffix hd cell]. rewrite <- not_true_iff_false, forallb_forall.
  assert (Hd : List.hd false (suffix r rest) = reaches rest r) by done. rewrite Hd.
  split.
  - intros Hn. destruct (existsb (fun a => negb match a with
      | Action.Done | Action.Die => r | Action.Jump n => reaches (drop (Z.to_nat n) rest) r | _ => reaches rest r end) actions) eqn:E.
    + apply existsb_true in E as (a & Ha & Hr). exists a. split; [done|].
      destruct a; by apply negb_true_iff in Hr.
    + destruct Hn. intros a Ha%list_elem_of_In. rewrite existsb_false in E. specialize (E a Ha).
      apply negb_false_iff in E. destruct a; try done. by rewrite jump_cell.
  - intros (a & Ha & Hr) Hall. apply list_elem_of_In in Ha. specialize (Hall a Ha).
    destruct a; try congruence. rewrite jump_cell in Hall. congruence.
Qed.

Lemma reaches_returned n steps : (sizes steps <= n)%nat -> reaches steps true = true.
Proof.
  revert steps; induction n as [|n IH]; intros [|s rest] Hs; try done.
  - exfalso. unfold sizes in Hs. destruct s; simpl in Hs; lia.
  - assert (Hr : (sizes rest <= n)%nat) by (unfold sizes in *; destruct s; simpl in Hs; lia).
    destruct s as [|actions|nested]; [done|..].
    + apply not_false_iff_true. rewrite reaches_run. intros (a & _ & Ha).
      pose proof (sizes_drop) as Hd. destruct a; try (rewrite IH in Ha by done; done); try done.
      rewrite IH in Ha; [done|]. etrans; [apply sizes_drop|done].
    + unfold reaches. cbn [suffix hd]. rewrite cell_substack.
      change (List.hd false (suffix true rest)) with (reaches rest true). rewrite (IH rest Hr).
      apply IH. unfold sizes in *. simpl in Hs. lia.
Qed.

Lemma reaches_substack r nested rest :
  reaches (Substack nested :: rest) r = false <-> reaches nested false = false /\ reaches rest r = false.
Proof.
  unfold reaches at 1. cbn [suffix hd]. rewrite cell_substack.
  change (List.hd false (suffix r rest)) with (reaches rest r).
  destruct (reaches rest r); [|naive_solver]. rewrite (reaches_returned (sizes nested)) by done. naive_solver.
Qed.

Lemma misses_reaches steps : misses steps -> reaches steps false = false.
Proof.
  induction 1 as [|? ? a Ha [->| ->]|? ? n Ha ? IH|? ? a Ha Hin ? IH|? ? ? ? ? ?];
    [done|apply reaches_run; by eexists..| |by apply reaches_substack].
  apply reaches_run. exists a. split; [done|].
  repeat (apply elem_of_cons in Hin as [->|Hin]; [done|]). by apply elem_of_nil in Hin.
Qed.

Lemma reaches_misses n steps : (sizes steps <= n)%nat -> reaches steps false = false -> misses steps.
Proof.
  revert steps; induction n as [|n IH]; intros [|s rest] Hs Hr; try constructor.
  - exfalso. unfold sizes in Hs. destruct s; simpl in Hs; lia.
  - assert (Hrest : (sizes rest <= n)%nat) by (unfold sizes in *; destruct s; simpl in Hs; lia).
    destruct s as [|actions|nested]; [done|..].
    + apply reaches_run in Hr as (a & Ha & Hr).
      destruct a as [| | | | | |k];
        try (eapply misses_on; [exact Ha|by apply (bool_decide_eq_true_1 _)|by apply IH]); try (eapply misses_leave; [exact Ha|by auto]).
      eapply misses_jump; [exact Ha|]. apply IH; [|done]. etrans; [apply sizes_drop|done].
    + apply reaches_substack in Hr as [Hn Hr].
      constructor; apply IH; try done. unfold sizes in *. simpl in Hs. lia.
Qed.

Lemma reaches_exact steps : reaches steps false = true <-> ~ misses steps.
Proof.
  rewrite <- not_false_iff_true. split; intros Hn Hm; apply Hn.
  - by apply misses_reaches.
  - by eapply reaches_misses.
Qed.

(** C37. The check of a session stack is exact: it says yes when the stack, with
    every stack it refers to, was read, and no path through it, whatever its
    modules answer, leaves it without running one of irlume's reseal rules;
    and says no when the stack could not be read or there is such a path. *)
Theorem session_check_exact read content :
  session_reaches_reseal read content = true <->
  exists steps b, parse read INCLUDE_DEPTH content budget0 = Some (steps, b) /\ ~ misses steps.
Proof.
  unfold session_reaches_reseal. destruct (parse _ _ _ _) as [[steps b]|]; [rewrite reaches_exact|]; naive_solver.
Qed.
