(* ===== verification/PamJumpTheory.v ===== *)
(** * Editing the numeric jumps of a control

    The grammar of a control as segments, one for each pair, that
    [control_pairs_at] reads back; and [with_jump_values], which changes the
    digits of some of them and nothing else. *)

From stdpp Require Import sorting.
From S2P Require Import Prelude Text Ordering PamGrammar.
Import grammar.

(** ** Prefixes *)

Lemma span_app f a b : Forall (fun c => f c = true) a -> stops f b -> span f (a ++ b) = (a, b).
Proof.
  induction 1 as [|c a Hc _ IH]; intros Hb; simpl; [|by rewrite Hc, IH].
  destruct b as [|c b]; [done|]. simpl in *. by rewrite Hb.
Qed.

Lemma trim_start_spec f l : exists a, l = a ++ trim_start_matches f l /\ Forall (fun c => f c = true) a /\ stops f (trim_start_matches f l).
Proof.
  unfold trim_start_matches. destruct (span f l) as [a b] eqn:E. apply span_stops in E as (-> & ? & ?). by exists a.
Qed.

Lemma trim_start_app f a b : Forall (fun c => f c = true) a -> stops f b -> trim_start_matches f (a ++ b) = b.
Proof. intros. unfold trim_start_matches. by rewrite span_app. Qed.

Lemma starts_with_true p l : starts_with p l = true <-> exists r, l = p ++ r.
Proof.
  unfold starts_with. split.
  - destruct (strip_prefix p l) as [r|] eqn:E; [|done]. intros _. exists r. by apply strip_prefix_Some.
  - intros [r ->]. by rewrite strip_prefix_app.
Qed.

(** Of names no two of which start alike, at most one starts a text. *)
Definition prefix_free (ps : list str) : Prop :=
  forall p q, p ∈ ps -> q ∈ ps -> starts_with p q = true -> p = q.

Lemma prefix_free_dec ps :
  forallb (fun p => forallb (fun q => negb (starts_with p q) || bool_decide (p = q)) ps) ps = true -> prefix_free ps.
Proof.
  intros H p q Hp Hq Hs. rewrite forallb_forall in H. specialize (H p (proj1 (list_elem_of_In _ _) Hp)).
  rewrite forallb_forall in H. specialize (H q (proj1 (list_elem_of_In _ _) Hq)). rewrite Hs in H. simpl in H.
  by apply bool_decide_eq_true in H.
Qed.

Lemma comparable (p q a b : str) : p ++ a = q ++ b -> starts_with p q = true \/ starts_with q p = true.
Proof.
  revert q; induction p as [|x p IH]; intros [|y q]; try (by left); try (by right).
  intros [= -> H]. destruct (IH _ H) as [Hs|Hs]; apply starts_with_true in Hs as [r ->]; [left|right];
    apply starts_with_true; by exists r.
Qed.

Lemma find_starts {A} (f : A -> str) (xs : list A) x r :
  prefix_free (map f xs) -> (forall y, y ∈ xs -> f y = f x -> y = x) -> x ∈ xs ->
  List.find (fun y => starts_with (f y) (f x ++ r)) xs = Some x.
Proof.
  intros Hp Hi Hx. destruct (List.find _ xs) as [y|] eqn:E.
  - apply find_some in E as [Hy Hs]. apply list_elem_of_In in Hy. f_equal. apply Hi; [done|].
    apply starts_with_true in Hs as [r' Hs]. symmetry in Hs.
    assert (f y ∈ map f xs) by by apply list_elem_of_fmap_2. assert (f x ∈ map f xs) by by apply list_elem_of_fmap_2.
    destruct (comparable _ _ _ _ Hs) as [H'|H']; apply Hp in H'; congruence.
  - exfalso. apply list_elem_of_In in Hx. apply find_none with (x := x) in E; [|done].
    assert (starts_with (f x) (f x ++ r) = true) by (apply starts_with_true; by eexists). congruence.
Qed.

Lemma values_prefix_free : prefix_free RETURN_VALUES.
Proof. apply prefix_free_dec. vm_compute. reflexivity. Qed.
Lemma names_prefix_free : prefix_free (map fst ACTION_NAMES).
Proof. apply prefix_free_dec. vm_compute. reflexivity. Qed.

Lemma find_value v r : v ∈ RETURN_VALUES -> List.find (fun v' => starts_with v' (v ++ r)) RETURN_VALUES = Some v.
Proof. intros Hv. apply (find_starts (fun v => v)); [rewrite map_id; apply values_prefix_free|done|done]. Qed.

Lemma find_name t a r : (t, a) ∈ ACTION_NAMES -> List.find (fun na => starts_with na.1 (t ++ r)) ACTION_NAMES = Some (t, a).
Proof.
  intros Ht. apply (find_starts fst ACTION_NAMES (t, a)); [apply names_prefix_free| |done].
  intros [t1 a1] H1. simpl. intros ->.
  assert (Hnd : NoDup (map fst ACTION_NAMES)) by (apply (bool_decide_eq_true_1 _); vm_compute; reflexivity).
  apply list_elem_of_lookup in H1 as [i1 H1]. apply list_elem_of_lookup in Ht as [i2 H2].
  assert (i1 = i2) as ->; [|congruence].
  eapply NoDup_lookup; [exact Hnd|by rewrite list_lookup_fmap, H1|by rewrite list_lookup_fmap, H2].
Qed.

(** ** Segments *)

#[local] Opaque RETURN_VALUES ACTION_NAMES.

Record seg := MkSeg { g_before : str; g_value : str; g_eq : str; g_after : str; g_text : str; g_action : Action.t }.

Definition seg_text (g : seg) : str := g_before g ++ g_value g ++ g_eq g ++ 61 :: g_after g ++ g_text g.

Definition blanks (l : str) : Prop := Forall (fun c => control_blank c = true) l.
Definition digits (l : str) : Prop := Forall (fun c => is_ascii_digit c = true) l.

(** The text of an action. *)
Definition action_text (t : str) (a : Action.t) : Prop :=
  match a with
  | Action.Jump n => t <> [] /\ digits t /\ digits_val t = n /\ 0 < n <= MAX_JUMP
  | _ => (t, a) ∈ ACTION_NAMES
  end.
Definition is_jump (a : Action.t) : bool := match a with Action.Jump _ => true | _ => false end.

Definition seg_ok (g : seg) : Prop :=
  blanks (g_before g) /\ g_value g ∈ RETURN_VALUES /\ blanks (g_eq g) /\ blanks (g_after g) /\ action_text (g_text g) (g_action g).

Definition pair_of (i : nat) (g : seg) : Pair :=
  let e := (i + length (seg_text g))%nat in MkPair (g_value g) (g_action g) (e - length (g_text g)) e.

Definition bare_head (f : Z -> bool) (l : str) : bool := match l with c :: _ => negb (f c) | [] => false end.

Lemma bare_stops f l b : bare_head f l = true -> stops f (l ++ b) /\ l ++ b <> [].
Proof. destruct l; [done|]. simpl. by rewrite negb_true_iff. Qed.

Lemma values_bare v : v ∈ RETURN_VALUES -> bare_head control_blank v = true.
Proof.
  assert (H : forallb (bare_head control_blank) RETURN_VALUES = true) by (vm_compute; reflexivity).
  rewrite forallb_forall in H. intros Hv. apply H. by apply list_elem_of_In.
Qed.
Lemma names_bare t a : (t, a) ∈ ACTION_NAMES ->
  bare_head control_blank t = true /\ bare_head is_ascii_digit t = true /\ is_jump a = false.
Proof.
  assert (H : forallb (fun '(t, a) => bare_head control_blank t && bare_head is_ascii_digit t && negb (is_jump a)) ACTION_NAMES = true)
    by (vm_compute; reflexivity).
  rewrite forallb_forall in H. intros Hv%list_elem_of_In. specialize (H _ Hv). simpl in H.
  apply andb_true_iff in H as [[? ?]%andb_true_iff Hj%negb_true_iff]. done.
Qed.
Lemma digit_not_blank c : is_ascii_digit c = true -> control_blank c = false.
Proof.
  unfold is_ascii_digit, control_blank, one_of. rewrite bool_decide_eq_true, bool_decide_eq_false.
  intros ? H. repeat (apply elem_of_cons in H as [->|H]; [lia|]). by apply elem_of_nil in H.
Qed.
Lemma digits_bare t : t <> [] -> digits t -> bare_head control_blank t = true.
Proof. destruct 2 as [|c t Hc _]; [done|]. simpl. by rewrite digit_not_blank. Qed.

Lemma skip_app i a b : blanks a -> stops control_blank b -> skip i (a ++ b) = ((i + length a)%nat, b).
Proof. intros. unfold skip. rewrite trim_start_app by done. rewrite length_app. f_equal. lia. Qed.

Lemma skip_spec i b j r : skip i b = (j, r) -> exists a, b = a ++ r /\ j = (i + length a)%nat /\ blanks a /\ stops control_blank r.
Proof.
  unfold skip. destruct (trim_start_spec control_blank b) as (a & Hb & Ha & Hs). intros [= <- <-]. exists a.
  assert (length b = (length a + length (trim_start_matches control_blank b))%nat) as Hl by (rewrite Hb at 1; by rewrite length_app).
  split_and!; [done|lia|done|done].
Qed.

Lemma jump_digits_app ds : forall i acc b,
  digits ds -> stops is_ascii_digit b -> 0 <= acc -> foldl (fun acc d => acc * 10 + (d - 48)) acc ds <= MAX_JUMP ->
  jump_digits i acc (ds ++ b) = Some (foldl (fun acc d => acc * 10 + (d - 48)) acc ds, (i + length ds)%nat, b).
Proof.
  induction ds as [|d ds IH]; intros i acc b Hd Hb Ha Hm; simpl in *.
  - destruct b as [|c b]; simpl in *; rewrite ?Hb; by rewrite Nat.add_0_r.
  - inversion_clear Hd as [|? ? Hc Hds]. rewrite Hc. unfold is_ascii_digit in Hc. rewrite bool_decide_eq_true in Hc.
    assert (Hf : Forall (fun d => 48 <= d <= 57) ds).
    { eapply list.Forall_impl; [exact Hds|]. intros x Hx. unfold is_ascii_digit in Hx. by rewrite bool_decide_eq_true in Hx. }
    pose proof (digits_grow ds (acc * 10 + (d - 48)) ltac:(lia) Hf).
    destruct (Z.ltb_spec MAX_JUMP (acc * 10 + (d - 48))); [lia|].
    rewrite IH by (try done; lia). do 3 f_equal. lia.
Qed.

Lemma jump_digits_inv b : forall i acc n j r,
  jump_digits i acc b = Some (n, j, r) -> acc <= MAX_JUMP ->
  exists ds, b = ds ++ r /\ digits ds /\ stops is_ascii_digit r /\ n = foldl (fun acc d => acc * 10 + (d - 48)) acc ds
    /\ j = (i + length ds)%nat /\ n <= MAX_JUMP.
Proof.
  induction b as [|d b IH]; intros i acc n j r; simpl.
  - intros [= <- <- <-] ?. exists []. simpl. split_and!; first [done|lia|constructor].
  - destruct (is_ascii_digit d) eqn:Ed.
    + destruct (Z.ltb_spec MAX_JUMP (acc * 10 + (d - 48))); [done|]. intros Hj _.
      apply IH in Hj as (ds & -> & ? & ? & ? & -> & ?); [|lia]. exists (d :: ds). split_and!; first [done|by constructor|simpl; lia].
    + intros [= <- <- <-] ?. exists []. simpl. split_and!; first [done|lia|constructor].
Qed.

#[local] Opaque skip jump_digits.

Ltac same_pair :=
  match goal with
  | |- Some (MkPair _ _ ?a ?b, ?c, _) = Some (MkPair _ _ ?a' ?b', ?c', _) =>
      replace a' with a by lia; replace b' with b by lia; replace c' with c by lia; reflexivity
  end.

Lemma one_pair_make i g b :
  seg_ok g -> g_before g = [] -> (is_jump (g_action g) = true -> stops is_ascii_digit b) ->
  one_pair i (seg_text g ++ b) = Some (pair_of i g, (i + length (seg_text g))%nat, b).
Proof.
  destruct g as [bl v e a t act]. intros (_ & Hv & He & Ha & Ht). simpl in *. intros -> Hj.
  unfold one_pair, pair_of, seg_text. simpl. rewrite <- !app_assoc. simpl.
  rewrite find_value by done. simpl.
  rewrite drop_app_length, bool_decide_eq_false_2 by (by destruct e).
  rewrite skip_app by done. simpl.
  assert (Hs : stops control_blank (t ++ b) /\ t ++ b <> []).
  { apply bare_stops. destruct act as [| | | | | |n]; try (by apply names_bare in Ht as (? & _)).
    destruct Ht as (? & ? & _). by apply digits_bare. }
  destruct Hs as [Hs Hn]. rewrite ?drop_0, <- ?app_assoc, skip_app, bool_decide_eq_false_2 by done.
  assert (Hlen : length (v ++ e ++ 61 :: a ++ t) = (length v + length e + S (length a) + length t)%nat).
  { rewrite !length_app. simpl. rewrite length_app. lia. }
  rewrite Hlen. destruct (decide (is_jump act = true)) as [Hact|Hact].
  - destruct act as [| | | | | |n]; try done. destruct Ht as (Hne & Hd & Hn' & Hm).
    assert (List.find (fun na : str * Action.t => starts_with na.1 (t ++ b)) ACTION_NAMES = None) as ->.
    { destruct (List.find _ _) as [[t' a']|] eqn:E; [|done]. apply find_some in E as [E1 E2].
      apply list_elem_of_In, names_bare in E1 as (_ & E1 & _). apply starts_with_true in E2 as [r E2].
      destruct Hd as [|d t Hd _]; [done|]. destruct t'; [done|]. simpl in *. injection E2 as -> _. by rewrite Hd in E1. }
    assert (match t ++ b with [] => false | d :: _ => is_ascii_digit d end = true) as Hdig.
    { destruct Hd; [done|]. done. }
    destruct (t ++ b) as [|d r] eqn:Et; [done|]. rewrite Hdig. simpl negb. cbv iota. rewrite <- Et.
    rewrite jump_digits_app by first [done|by apply Hj|unfold digits_val in Hn'; lia].
    change (foldl _ 0 t) with (digits_val t). rewrite Hn'. simpl. rewrite bool_decide_eq_false_2 by lia.
    same_pair.
  - apply not_true_is_false in Hact.
    assert (Ht' : (t, act) ∈ ACTION_NAMES) by (by destruct act).
    rewrite (find_name t act b Ht'). simpl. rewrite drop_app_length. same_pair.
Qed.

Lemma one_pair_inv i b p j r :
  one_pair i b = Some (p, j, r) ->
  exists g, seg_ok g /\ g_before g = [] /\ b = seg_text g ++ r /\ p = pair_of i g /\ j = (i + length (seg_text g))%nat
    /\ (is_jump (g_action g) = true -> stops is_ascii_digit r).
Proof.
  unfold one_pair. destruct (List.find _ RETURN_VALUES) as [v|] eqn:Ev; [|done]. simpl.
  apply find_some in Ev as [Hv Hs]. apply list_elem_of_In in Hv. apply starts_with_true in Hs as [b1 ->].
  rewrite drop_app_length. case_bool_decide; [done|].
  destruct (skip _ b1) as [i2 b2] eqn:E1. apply skip_spec in E1 as (e & -> & -> & He & _).
  destruct b2 as [|c b2]; simpl; [done|]. case_bool_decide as Hc; simpl; [|done]. injection Hc as ->. rewrite drop_0.
  destruct (skip _ _) as [i3 b3] eqn:E2. apply skip_spec in E2 as (a & -> & -> & Ha & Hs3). case_bool_decide; [done|].
  destruct (List.find _ ACTION_NAMES) as [[t act]|] eqn:Et.
  - apply find_some in Et as [Ht Hs]. apply list_elem_of_In in Ht. simpl in Hs. apply starts_with_true in Hs as [b4 ->].
    rewrite drop_app_length. intros [= <- <- <-]. exists (MkSeg [] v e a t act).
    pose proof (names_bare t act Ht) as (_ & _ & Hj).
    unfold pair_of, seg_text, seg_ok. simpl. rewrite !length_app. simpl. rewrite length_app, <- !app_assoc. simpl. rewrite <- app_assoc.
    split_and!; try done; [constructor|by destruct act|f_equal; lia|lia|congruence].
  - destruct b3 as [|d b3]; [done|]. destruct (is_ascii_digit d) eqn:Ed; simpl; [|done].
    destruct (jump_digits _ 0 (d :: b3)) as [[[n i4] b4]|] eqn:Ej; [|done]. simpl. case_bool_decide as Hn; [done|].
    intros [= <- <- <-]. apply jump_digits_inv in Ej as (ds & Hds & Hd & Hst & Hn' & -> & Hm); [|unfold MAX_JUMP; lia].
    exists (MkSeg [] v e a ds (Action.Jump n)).
    assert (ds <> []) by (intros ->; simpl in Hds; rewrite <- Hds in Hst; simpl in Hst; congruence).
    assert (0 <= n).
    { rewrite Hn'. apply digits_grow; [lia|]. eapply list.Forall_impl; [exact Hd|]. intros x Hx.
      unfold is_ascii_digit in Hx. by rewrite bool_decide_eq_true in Hx. }
    unfold pair_of, seg_text, seg_ok. simpl. rewrite !length_app. simpl. rewrite length_app, <- !app_assoc. simpl. rewrite <- app_assoc, Hds.
    split_and!; try done; [constructor|lia|f_equal; lia|lia].
Qed.

Definition texts (gs : list seg) : str := mjoin (map seg_text gs).

Fixpoint pairs_of (i : nat) (gs : list seg) : list Pair :=
  match gs with [] => [] | g :: gs => pair_of i g :: pairs_of (i + length (seg_text g)) gs end.

Lemma seg_long g : seg_ok g -> (0 < length (seg_text g))%nat.
Proof. intros _. unfold seg_text. rewrite !length_app. simpl. lia. Qed.

(** The first byte of a segment is not a digit. *)
Lemma seg_stops g b : seg_ok g -> stops is_ascii_digit (seg_text g ++ b).
Proof.
  intros (Hb & Hv & _). unfold seg_text. destruct Hb as [|c l Hc _].
  - assert (H : forallb (bare_head is_ascii_digit) RETURN_VALUES = true) by (vm_compute; reflexivity).
    rewrite forallb_forall in H. apply list_elem_of_In, H in Hv. simpl.
    destruct (g_value g); [done|]. simpl in *. by apply negb_true_iff.
  - simpl. destruct (is_ascii_digit c) eqn:Ed; [|done]. apply digit_not_blank in Ed. congruence.
Qed.
Lemma texts_stops gs bl : Forall seg_ok gs -> blanks bl -> stops is_ascii_digit (texts gs ++ bl).
Proof.
  intros Hg Hb. destruct Hg as [|g gs Hg _].
  - destruct Hb as [|c l Hc _]; [done|]. simpl. destruct (is_ascii_digit c) eqn:Ed; [|done].
    apply digit_not_blank in Ed. congruence.
  - unfold texts. simpl. rewrite <- app_assoc. by apply seg_stops.
Qed.

Lemma strip_before i bl v e a t act b :
  blanks bl -> v ∈ RETURN_VALUES ->
  skip i (seg_text (MkSeg bl v e a t act) ++ b) = ((i + length bl)%nat, seg_text (MkSeg [] v e a t act) ++ b).
Proof.
  intros Hb Hv. unfold seg_text. simpl. rewrite <- app_assoc. apply skip_app; [done|]. rewrite <- app_assoc.
  by apply bare_stops, values_bare.
Qed.

Lemma pairs_from_make gs bl : forall fuel i,
  Forall seg_ok gs -> blanks bl -> (length (texts gs ++ bl) < fuel)%nat -> pairs_from fuel i (texts gs ++ bl) = Some (pairs_of i gs).
Proof.
  induction gs as [|[b v e a t act] gs IH]; intros [|fuel] i Hg Hb Hf; try lia.
  - unfold texts. simpl. rewrite <- (app_nil_r bl), skip_app by done. done.
  - inversion_clear Hg as [|? ? Hok Hgs]. unfold texts in *. simpl in *. rewrite <- app_assoc in *. set (g := MkSeg b v e a t act) in *.
    destruct Hok as (Hbl & Hv & He & Ha & Ht). simpl in *. unfold g. rewrite strip_before by done.
    assert (Hok : seg_ok (MkSeg [] v e a t act)) by (repeat split; try done; constructor).
    rewrite bool_decide_eq_false_2.
    2: { intros Hn. apply (f_equal length) in Hn. rewrite length_app in Hn. pose proof (seg_long _ Hok). simpl in Hn. lia. }
    rewrite one_pair_make; [|done|done|intros _; by apply texts_stops]. simpl.
    assert (Hlen : (length (seg_text g) = length b + length (seg_text (MkSeg [] v e a t act)))%nat).
    { unfold g, seg_text. simpl. by rewrite !length_app. }
    rewrite IH; [|done|done|]. 
    2: { rewrite length_app in Hf. pose proof (seg_long _ Hok). lia. }
    simpl. unfold pair_of. simpl. fold g. rewrite Hlen. do 2 f_equal; [f_equal; lia|f_equal; lia].
Qed.

Lemma pairs_from_inv fuel : forall i b ps, pairs_from fuel i b = Some ps ->
  exists gs bl, b = texts gs ++ bl /\ Forall seg_ok gs /\ blanks bl /\ ps = pairs_of i gs.
Proof.
  induction fuel as [|fuel IH]; intros i b ps; simpl; [done|].
  destruct (skip i b) as [i1 b1] eqn:E1. apply skip_spec in E1 as (bl & -> & -> & Hb & _). case_bool_decide as Hn.
  - intros [= <-]. exists [], bl. rewrite Hn, app_nil_r. split_and!; try done; constructor.
  - destruct (one_pair _ b1) as [[[p j] r]|] eqn:Ep; [|done]. simpl.
    apply one_pair_inv in Ep as ([b0 v e a t act] & (_ & Hv & He & Ha & Ht) & Hb0 & -> & -> & -> & _). simpl in Hb0. subst b0.
    destruct (pairs_from fuel _ r) as [ps'|] eqn:Er; [|done]. simpl. intros [= <-].
    apply IH in Er as (gs & bl' & -> & Hg & Hbl' & ->). simpl in *.
    exists (MkSeg bl v e a t act :: gs), bl'. unfold texts. simpl.
    assert (Hl : seg_text (MkSeg bl v e a t act) = bl ++ seg_text (MkSeg [] v e a t act)) by done.
    rewrite Hl, <- !app_assoc. split_and!; [done|constructor; [by repeat split|done]|done|].
    unfold pair_of. simpl. rewrite Hl, length_app. f_equal; [f_equal; lia|f_equal; lia].
Qed.

(** ** Edits *)

Definition set_jump (to : Z) (g : seg) : seg :=
  MkSeg (g_before g) (g_value g) (g_eq g) (g_after g) (decimal to) (Action.Jump to).

(** Where the text of the action of segment [k] is. *)
Definition span_of (gs : list seg) (k : nat) : nat * nat :=
  let e := length (texts (take (S k) gs)) in
  ((e - length (default [] (g_text <$> gs !! k)))%nat, e).

Lemma texts_app l r : texts (l ++ r) = texts l ++ texts r.
Proof. unfold texts. by rewrite fmap_app, join_app. Qed.
Lemma texts_cons g r : texts (g :: r) = seg_text g ++ texts r.
Proof. done. Qed.

Lemma pairs_of_lookup gs : forall i k g, gs !! k = Some g ->
  pairs_of i gs !! k = Some (MkPair (g_value g) (g_action g) (i + (span_of gs k).1) (i + (span_of gs k).2)).
Proof.
  induction gs as [|g0 gs IH]; intros i [|k] g Hk; simpl in *; [done|done|..].
  - injection Hk as <-. unfold pair_of, span_of. simpl. rewrite take_0, texts_cons.
    change (texts []) with (@nil Z). rewrite app_nil_r. do 2 f_equal. unfold seg_text. rewrite !length_app. simpl. rewrite length_app. lia.
  - rewrite (IH _ k g Hk). unfold span_of.
    change (take (S (S k)) (g0 :: gs)) with (g0 :: take (S k) gs). change ((g0 :: gs) !! S k) with (gs !! k).
    rewrite Hk, texts_cons, length_app. simpl.
    assert (length (g_text g) <= length (texts (take (S k) gs)))%nat; [|do 2 f_equal; lia].
    rewrite (take_S_r _ _ _ Hk), texts_app, length_app, texts_cons. unfold seg_text. rewrite !length_app. simpl. rewrite length_app. lia.
Qed.

Lemma replace_middle (a b c d e : str) (i j : nat) :
  i = length (a ++ b) -> j = length (a ++ b ++ c) -> replace_range (a ++ b ++ c ++ d) i j e = a ++ b ++ e ++ d.
Proof.
  intros -> ->. unfold replace_range. rewrite (app_assoc a b (c ++ d)), take_app_length.
  replace (drop (length (a ++ b ++ c)) ((a ++ b) ++ c ++ d)) with d.
  - by rewrite <- app_assoc.
  - rewrite (app_assoc a b c), (app_assoc (a ++ b) c d). by rewrite drop_app_length.
Qed.

Lemma seg_text_split g : exists hdr, seg_text g = hdr ++ g_text g /\ forall to, seg_text (set_jump to g) = hdr ++ decimal to.
Proof.
  exists (g_before g ++ g_value g ++ g_eq g ++ 61 :: g_after g). unfold seg_text, set_jump. simpl.
  split; intros; by rewrite <- !app_assoc.
Qed.

(** Replacing one span, in segments that agree with [gs] up to it. *)
Lemma replace_span pre gs cur post k to :
  (k < length gs)%nat -> take (S k) cur = take (S k) gs ->
  replace_range (pre ++ texts cur ++ post) (length pre + (span_of gs k).1) (length pre + (span_of gs k).2) (decimal to)
  = pre ++ texts (alter (set_jump to) k cur) ++ post.
Proof.
  intros Hk Ht. destruct (lookup_lt_is_Some_2 gs k Hk) as [g Hg].
  assert (Hc : cur !! k = Some g) by (rewrite <- (lookup_take_lt cur (S k) k) by lia; rewrite Ht; by rewrite lookup_take_lt by lia).
  destruct (seg_text_split g) as (hdr & H1 & H2).
  assert (Hcur : cur = take k cur ++ g :: drop (S k) cur) by (by rewrite take_drop_middle).
  assert (Htk : take k cur = take k gs).
  { replace k with (k `min` S k)%nat by lia. by rewrite <- !take_take, Ht. }
  assert (Halt : alter (set_jump to) k cur = take k cur ++ set_jump to g :: drop (S k) cur).
  { assert (Hlen : length (take k cur) = k) by (rewrite length_take; apply lookup_lt_Some in Hc; lia).
    rewrite Hcur at 1. rewrite <- Hlen at 1. rewrite <- (Nat.add_0_r (length (take k cur))), alter_app_r. done. }
  rewrite Halt. rewrite Hcur at 1. rewrite !texts_app, !texts_cons, H1, H2, <- !app_assoc.
  rewrite (app_assoc (texts (take k cur)) hdr (g_text g ++ _)), (app_assoc (texts (take k cur)) hdr (decimal to ++ _)).
  unfold span_of. rewrite Hg. simpl. rewrite (take_S_r _ _ _ Hg), texts_app, texts_cons, H1, Htk. simpl.
  rewrite app_nil_r.
  apply replace_middle; rewrite !length_app; lia.
Qed.

Lemma last_first_perm l : last_first l ≡ₚ l.
Proof.
  unfold last_first. induction l as [|x l IH]; simpl; [done|]. rewrite <- IH at 2. generalize (foldr insert_span [] l). clear.
  intros l. induction l as [|y l IH]; simpl; [done|]. case_match; [|done]. by rewrite IH, perm_swap.
Qed.

Definition starts_down (a b : nat * nat * Z) : Prop := (b.1.1 <= a.1.1)%nat.

Lemma last_first_sorted l : StronglySorted starts_down (last_first l).
Proof.
  unfold last_first. induction l as [|x l IH]; simpl; [constructor|]. revert IH. generalize (foldr insert_span [] l). clear l.
  intros l. induction l as [|y l IH]; simpl; intros Hs; [repeat constructor|]. inversion_clear Hs as [|? ? Hs' Hy].
  destruct (Nat.ltb_spec x.1.1 y.1.1).
  - constructor; [by apply IH|]. assert (Hp : insert_span x l ≡ₚ x :: l).
    { clear. induction l as [|z l IH]; simpl; [done|]. case_match; [|done]. by rewrite IH, perm_swap. }
    rewrite Hp. constructor; [unfold starts_down; lia|done].
  - constructor; [by constructor|]. constructor; [unfold starts_down; lia|].
    eapply list.Forall_impl; [exact Hy|]. unfold starts_down. lia.
Qed.

Lemma span_mono gs j k : Forall seg_ok gs -> (j < k < length gs)%nat -> ((span_of gs j).1 < (span_of gs k).1)%nat.
Proof.
  intros Hok [Hjk Hk]. unfold span_of. destruct (lookup_lt_is_Some_2 gs k Hk) as [g Hg].
  rewrite Hg, (take_S_r _ _ _ Hg), texts_app, length_app.
  assert (length (texts (take (S j) gs)) <= length (texts (take k gs)))%nat.
  { replace (take (S j) gs) with (take (S j) (take k gs)) by (rewrite take_take; f_equal; lia).
    rewrite <- (take_drop (S j) (take k gs)) at 2. rewrite texts_app, length_app. lia. }
  rewrite texts_cons. unfold seg_text. rewrite !length_app. simpl. rewrite length_app. lia.
Qed.

(** The edits by segment: each replaces one, last first. *)
Definition set_at (gs : list seg) (e : nat * Z) : list seg := alter (set_jump e.2) e.1 gs.
Definition edit_span (gs : list seg) (e : nat * Z) : nat * nat * Z := (span_of gs e.1, e.2).
Definition down (a b : nat * Z) : Prop := (b.1 < a.1)%nat.

Lemma set_at_take cur k j to : (j < k)%nat -> take (S j) (set_at cur (k, to)) = take (S j) cur.
Proof. intros Hj. unfold set_at. simpl. apply list_eq. intros i. rewrite !lookup_take.
  case_decide; [|done]. rewrite list_lookup_alter_ne; [done|lia]. Qed.

Lemma apply_edits pre gs post es : forall cur,
  StronglySorted down es -> Forall (fun e => (e.1 < length gs)%nat /\ take (S e.1) cur = take (S e.1) gs) es ->
  foldl (fun out '(s, e, to) => replace_range out (length pre + s) (length pre + e) (decimal to))
    (pre ++ texts cur ++ post) (map (edit_span gs) es)
  = pre ++ texts (foldl set_at cur es) ++ post.
Proof.
  induction es as [|[k to] es IH]; intros cur Hs Hf; simpl; [done|].
  inversion_clear Hs as [|? ? Hs' Hd]. inversion_clear Hf as [|? ? [Hk Ht] Hf']. simpl in Hk, Ht.
  pose proof (replace_span pre gs cur post k to Hk Ht) as Hr.
  unfold span_of in Hr. cbn [fst snd] in Hr. rewrite Hr. apply IH; [done|].
  rewrite !list.Forall_forall in *. intros y Hy. destruct (Hf' y Hy) as [? Hy']. split; [done|].
  change (alter (set_jump to) k cur) with (set_at cur (k, to)). rewrite set_at_take; [done|]. apply (Hd y Hy).
Qed.

Lemma edits_lookup es : forall gs j,
  NoDup es.*1 -> foldl set_at gs es !! j =
    (fun g => match List.find (fun e => bool_decide (e.1 = j)) es with Some (_, to) => set_jump to g | None => g end) <$> gs !! j.
Proof.
  induction es as [|[k to] es IH]; intros gs j Hn; simpl; [by destruct (gs !! j)|].
  apply list.NoDup_cons in Hn as [Hk Hn]. rewrite IH by done. unfold set_at. simpl. case_bool_decide as Hj; simpl.
  - subst k. rewrite list_lookup_alter_eq. destruct (List.find _ es) as [[j' to']|] eqn:E; [|by destruct (gs !! j)].
    apply find_some in E as [E1 E2]. simpl in E2. apply bool_decide_eq_true in E2 as ->. destruct Hk.
    apply list_elem_of_In in E1. by apply (list_elem_of_fmap_2 fst) in E1.
  - by rewrite list_lookup_alter_ne.
Qed.

Lemma down_nodup es : StronglySorted down es -> NoDup es.*1.
Proof.
  induction 1 as [|e es Hs IH Hd]; simpl; constructor; [|done].
  rewrite list_elem_of_fmap. intros (x & Hx & Hin). rewrite list.Forall_forall in Hd. specialize (Hd x Hin). unfold down in Hd. lia.
Qed.

(** The spans the code applies are those of the edited segments, in order of
    their places. *)
Lemma last_first_places gs K :
  Forall seg_ok gs -> NoDup K.*1 -> Forall (fun e => (e.1 < length gs)%nat) K ->
  exists K', K' ≡ₚ K /\ StronglySorted down K' /\ last_first (map (edit_span gs) K) = map (edit_span gs) K'.
Proof.
  intros Hok Hnd Hlt. pose proof (last_first_perm (map (edit_span gs) K)) as Hp.
  symmetry in Hp. destruct (Permutation_map_inv _ _ (symmetry Hp)) as (K' & HK' & HpK). exists K'.
  split; [by symmetry|]. split; [|done]. pose proof (last_first_sorted (map (edit_span gs) K)) as Hs. rewrite HK' in Hs.
  assert (Hlt' : Forall (fun e => (e.1 < length gs)%nat) K') by by rewrite <- HpK.
  assert (Hnd' : NoDup K'.*1) by by rewrite <- HpK.
  clear - Hs Hlt' Hnd' Hok. induction K' as [|[k to] K' IH]; [constructor|].
  inversion_clear Hs as [|? ? Hs' Hd]. inversion_clear Hlt' as [|? ? Hk Hlt]. apply list.NoDup_cons in Hnd' as [Hni Hnd].
  constructor; [by apply IH|]. rewrite list.Forall_forall. intros [j to'] Hj. unfold down. simpl.
  destruct (Nat.lt_trichotomy j k) as [|[->|Hkj]]; [done| |].
  - destruct Hni. by apply (list_elem_of_fmap_2 fst) in Hj.
  - exfalso. rewrite list.Forall_forall in Hd. rewrite list.Forall_forall in Hlt.
    assert (Hj' : edit_span gs (j, to') ∈ map (edit_span gs) K') by by apply list_elem_of_fmap_2.
    specialize (Hd _ Hj'). unfold starts_down, edit_span in Hd. cbn [fst snd] in Hd.
    pose proof (span_mono gs k j Hok (conj Hkj (Hlt _ Hj))). lia.
Qed.

(** ** The line around a control *)

Definition plain_char (c : Z) : Prop := c <> 35 /\ c <> 92 /\ c <> 93.
#[export] Instance plain_char_dec c : Decision (plain_char c).
Proof. unfold plain_char. apply _. Defined.

Lemma blanks_plain l : blanks l -> Forall plain_char l.
Proof.
  intros H. eapply list.Forall_impl; [exact H|]. intros c Hc. unfold control_blank, one_of in Hc.
  rewrite bool_decide_eq_true in Hc. unfold plain_char.
  repeat (apply elem_of_cons in Hc as [->|Hc]; [lia|]). by apply elem_of_nil in Hc.
Qed.
Lemma digits_plain l : digits l -> Forall plain_char l.
Proof.
  intros H. eapply list.Forall_impl; [exact H|]. intros c Hc. unfold is_ascii_digit in Hc.
  rewrite bool_decide_eq_true in Hc. unfold plain_char. lia.
Qed.
Lemma values_plain v : v ∈ RETURN_VALUES -> Forall plain_char v.
Proof.
  assert (H : forallb (fun v => bool_decide (Forall plain_char v)) RETURN_VALUES = true) by (vm_compute; reflexivity).
  rewrite forallb_forall in H. intros Hv%list_elem_of_In. by apply H, bool_decide_eq_true in Hv.
Qed.
Lemma names_plain t a : (t, a) ∈ ACTION_NAMES -> Forall plain_char t.
Proof.
  assert (H : forallb (fun na => bool_decide (Forall plain_char na.1)) ACTION_NAMES = true) by (vm_compute; reflexivity).
  rewrite forallb_forall in H. intros Hv%list_elem_of_In. by apply H, bool_decide_eq_true in Hv.
Qed.
Lemma seg_plain g : seg_ok g -> Forall plain_char (seg_text g).
Proof.
  intros (Hb & Hv & He & Ha & Ht). unfold seg_text. rewrite !list.Forall_app, list.Forall_cons, list.Forall_app.
  split_and!; auto using blanks_plain, values_plain; [unfold plain_char; lia|].
  destruct (g_action g); try (by eapply names_plain). destruct Ht as (_ & ? & _). by apply digits_plain.
Qed.
Lemma texts_plain gs bl : Forall seg_ok gs -> blanks bl -> Forall plain_char (texts gs ++ bl).
Proof.
  intros Hg Hb. apply list.Forall_app. split; [|by apply blanks_plain].
  induction Hg as [|g gs Hg _ IH]; [constructor|]. rewrite texts_cons. apply list.Forall_app. split; [by apply seg_plain|done].
Qed.

Lemma until_close_plain c r : Forall plain_char c -> until_close (c ++ 93 :: r) = (c, r).
Proof.
  induction 1 as [|x c (H1 & H2 & H3) _ IH]; simpl; [done|]. rewrite IH.
  destruct x as [|x|x]; try done. do 7 (destruct x as [x|x|]; try done).
Qed.

(** One byte of [until_close] that is neither a close nor an escape. *)
Lemma until_close_step x l : x <> 93 -> (x = 92 -> forall l', l <> 93 :: l') ->
  until_close (x :: l) = (let '(a, b) := until_close l in (x :: a, b)).
Proof.
  intros H1 H2. simpl. destruct x as [|x|x]; try done. do 7 (destruct x as [x|x|]; try done).
  destruct l as [|y l]; [done|]. specialize (H2 eq_refl). destruct y as [|y|y]; try done.
  do 7 (destruct y as [y|y|]; try done). by destruct (H2 l).
Qed.

Lemma until_close_inv n : forall inner a b, (length inner <= n)%nat -> until_close inner = (a, b) ->
  (inner = a ++ 93 :: b /\ forall r, until_close (a ++ 93 :: r) = (a, r)) \/ (inner = a /\ b = []).
Proof.
  induction n as [|n IH]; intros [|x l] a b Hl; simpl in Hl; try lia; try (intros [= <- <-]; by right).
  destruct (decide (x = 93)) as [->|Hx]; [intros [= <- <-]; by left|].
  destruct (decide (x = 92 /\ l !! 0%nat = Some 93)) as [[-> Hl0]|Hn].
  - destruct l as [|y l']; [done|]. injection Hl0 as ->.
    simpl. destruct (until_close l') as [a' b'] eqn:E. intros [= <- <-]. simpl in Hl.
    destruct (IH l' a' b' ltac:(lia) E) as [[-> Hr]|[-> ->]]; [left|by right]. split; [done|]. intros r. simpl. by rewrite Hr.
  - assert (Hs : x = 92 -> forall l', l <> 93 :: l') by (intros -> l' ->; by apply Hn).
    rewrite until_close_step by done. destruct (until_close l) as [a' b'] eqn:E. intros [= <- <-].
    destruct (IH l a' b' ltac:(lia) E) as [[-> Hr]|[-> ->]]; [left|by right]. split; [done|]. intros r.
    change ((x :: a') ++ 93 :: r) with (x :: (a' ++ 93 :: r)). rewrite until_close_step, Hr; [done..|].
    intros -> l' Hl'. destruct a' as [|y a']; simpl in Hl'; [by apply (Hs eq_refl b')|]. injection Hl' as -> _.
    by apply (Hs eq_refl (a' ++ 93 :: b')).
Qed.

Definition delimiter (c : Z) : bool := one_of FIELD_DELIMITERS c.
Definition same_start (r r' : str) : Prop := r !! 0%nat = r' !! 0%nat.

Lemma stops_same f r r' : same_start r r' -> stops f r -> stops f r'.
Proof. destruct r, r'; unfold same_start; simpl; intros [=]; by subst. Qed.

Lemma next_field_bracket ds inner : Forall (fun c => delimiter c = true) ds -> next_field (ds ++ 91 :: inner) = Some (until_close inner).
Proof. intros Hd. unfold next_field. by rewrite trim_start_app. Qed.

(** A field with something after it, and what may follow it instead. *)
Lemma next_field_frame l f r : next_field l = Some (f, r) -> r <> [] ->
  exists d, l = d ++ r /\ d <> [] /\ (list.last d = Some 93 \/ exists c r0, r = c :: r0 /\ delimiter c = true)
    /\ forall r', same_start r r' -> next_field (d ++ r') = Some (f, r').
Proof.
  unfold next_field. destruct (trim_start_spec delimiter l) as (ds & Hl & Hds & Hst).
  change (one_of FIELD_DELIMITERS) with delimiter. destruct (trim_start_matches delimiter l) as [|x s] eqn:Es; [done|]. intros H Hr. destruct (decide (x = 91)) as [->|Hx].
  - injection H as H. destruct (until_close_inv (length s) s f r ltac:(lia) H) as [[-> Hc]|[_ ->]]; [|done].
    exists (ds ++ 91 :: f ++ [93]). rewrite Hl, <- !app_assoc. simpl. rewrite <- app_assoc. split_and!; [done|by destruct ds| |].
    + left. rewrite app_comm_cons, app_assoc, last_snoc. done.
    + intros r' _. rewrite <- app_assoc. simpl. rewrite <- app_assoc. simpl. rewrite trim_start_app by done. f_equal. apply Hc.
  - assert (Hsp : span (fun c => negb (delimiter c)) (x :: s) = (f, r)).
    { revert H Hx. clear. destruct x as [|x|x]; [by intros [= H]| |by intros [= H]].
      do 7 (destruct x as [x|x|]; try (by intros [= H])). }
    apply span_stops in Hsp as (Hf & Hall & Hstop). destruct f as [|y f].
    { destruct r; [done|]. simpl in Hf, Hstop. injection Hf as <- ->. simpl in Hst. by rewrite Hst in Hstop. }
    injection Hf as <- Hf. exists (ds ++ x :: f). rewrite Hl, Hf, <- app_assoc. split_and!; [done|by destruct ds| |].
    + right. destruct r as [|c r]; [done|]. exists c, r. split; [done|]. simpl in Hstop. by apply negb_false_iff.
    + intros r' Hs. rewrite <- app_assoc. rewrite trim_start_app by done. pose proof (stops_same _ _ _ Hs Hstop) as Hs'.
      change ((x :: f) ++ r') with (x :: (f ++ r')).
      assert (Hsp' : span (fun c => negb (delimiter c)) (x :: (f ++ r')) = (x :: f, r')) by by apply (span_app _ (x :: f)).
      revert Hx Hsp'. clear. intros Hx <-. destruct x as [|x|x]; [done| |done]. do 7 (destruct x as [x|x|]; try done).
Qed.

Lemma type_field_frame l f r : type_field l = Some (f, r) -> r <> [] ->
  exists d, l = d ++ r /\ d <> [] /\ (list.last d = Some 93 \/ exists c r0, r = c :: r0 /\ delimiter c = true)
    /\ forall r', same_start r r' -> type_field (d ++ r') = Some (f, r').
Proof.
  unfold type_field. destruct (next_field l) as [[k r0]|] eqn:E; [|done]. simpl. intros [= <- <-] Hr.
  destruct (next_field_frame l k r0 E Hr) as (d & ? & ? & ? & Hf). exists d. split_and!; try done. intros r' Hs. by rewrite Hf.
Qed.

Lemma last_app_some {A} (a b : list A) x : list.last b = Some x -> list.last (a ++ b) = Some x.
Proof. intros H. by rewrite last_app, H. Qed.

Lemma not_delimiter_91 c : delimiter c = true -> c <> 91.
Proof.
  unfold delimiter, one_of, FIELD_DELIMITERS. rewrite bool_decide_eq_true. intros H ->.
  by repeat (apply elem_of_cons in H as [?|H]; [lia|]); apply elem_of_nil in H.
Qed.

#[local] Opaque word TYPES.

(** A control in brackets closed on the line, and what another one in its
    place reads as. *)
Lemma bracketed_head line h start :
  head line = Some h -> control h <> [] -> control_at line = Some start ->
  list.last (take start line) = Some 91 -> line !! (start + length (control h))%nat = Some 93 ->
  exists pre post, line = (pre ++ [91]) ++ control h ++ 93 :: post /\ start = length (pre ++ [91]) /\
    forall c, Forall plain_char c -> head ((pre ++ [91]) ++ c ++ 93 :: post) = Some (MkHead (phase h) c (rest h) (known_type h)).
Proof.
  intros Hh Hc Hat Hopen Hclose. unfold control_at in Hat. unfold head in Hh.
  destruct (trim_start_spec is_blank line) as (bl & Hline & Hbl & Hst). unfold directive in *.
  set (t := trim_start_matches is_blank line) in *. destruct (before_spec 35 t) as (tail & Ht & Hd & Htl & Htail).
  set (d := before 35 t) in *. destruct (type_field d) as [[kind r]|] eqn:Ek; [|done]. simpl in Hh, Hat.
  destruct (eq_ignore_ascii_case kind (word "@include")) eqn:Ei; [done|].
  destruct (next_field r) as [[c0 rst]|] eqn:Er; simpl in Hh; [|injection Hh as <-; by destruct Hc].
  injection Hh as <-. simpl in *.
  assert (Hr : r <> []) by (intros ->; done).
  destruct (type_field_frame d kind r Ek Hr) as (d0 & Hd0 & Hdn & Hlast & Hframe).
  destruct (trim_start_spec delimiter r) as (ds & Hrs & Hds & Hsr). change (one_of FIELD_DELIMITERS) with delimiter in *.
  set (s := trim_start_matches delimiter r) in *.
  assert (Hlens : length r = (length ds + length s)%nat) by (rewrite Hrs at 1; by rewrite length_app).
  assert (Hlend : length d = (length d0 + length r)%nat) by (rewrite Hd0 at 1; by rewrite length_app).
  assert (Hlenl : length line = (length bl + length t)%nat) by (rewrite Hline at 1; by rewrite length_app).
  injection Hat as Hat.
  assert (Hpre : line = (bl ++ d0 ++ ds) ++ s ++ tail).
  { rewrite Hline at 1. rewrite Ht at 1. rewrite Hd0 at 1. rewrite Hrs at 1. by rewrite <- !app_assoc. }
  destruct (decide (s !! 0%nat = Some 91)) as [Hs|Hs].
  - destruct s as [|x inner] eqn:Es; [done|]. injection Hs as ->.
    assert (Hopened : start = length ((bl ++ d0 ++ ds) ++ [91])) by (subst start; rewrite !length_app; simpl in *; lia).
    assert (Hcl : until_close inner = (c0, rst)) by (rewrite Hrs, next_field_bracket in Er by done; congruence).
    destruct (until_close_inv (length inner) inner c0 rst ltac:(lia) Hcl) as [[Hin _]|[Hin ->]].
    + exists (bl ++ d0 ++ ds), (rst ++ tail).
      split; [rewrite Hpre, Hin, <- !app_assoc; simpl; by rewrite <- app_assoc|]. split; [done|]. intros c Hplain.
      set (r' := ds ++ 91 :: c ++ 93 :: rst).
      assert (Hline' : ((bl ++ d0 ++ ds) ++ [91]) ++ c ++ 93 :: rst ++ tail = bl ++ (d0 ++ r') ++ tail).
      { unfold r'. rewrite <- !app_assoc. simpl. by rewrite <- app_assoc. }
      assert (Hdir : directive (bl ++ (d0 ++ r') ++ tail) = d0 ++ r').
      { unfold directive. rewrite trim_start_app; [|done|].
        2: { destruct d0 as [|y d0]; [done|]. rewrite Ht, Hd0 in Hst. done. }
        rewrite before_app, Htl, app_nil_r; [done|]. rewrite Hd0, Hrs, Hin in Hd. unfold r'.
        rewrite !list.Forall_app, !list.Forall_cons, !list.Forall_app, ?list.Forall_cons in Hd |- *.
        destruct Hd as (? & ? & ? & ? & ? & ?). split_and!; try done.
        eapply list.Forall_impl; [exact Hplain|]. by intros ? []. }
      unfold head. rewrite Hline', Hdir, (Hframe r').
      * simpl. rewrite Ei. unfold r'. rewrite next_field_bracket, until_close_plain by done. done.
      * unfold same_start, r'. rewrite Hrs. by destruct ds.
    + exfalso. rewrite Hpre, Hin in Hclose.
      set (pre := (bl ++ d0 ++ ds) ++ 91 :: c0).
      assert (Hp : (start + length c0 = length pre)%nat) by (unfold pre; rewrite Hopened, !length_app; simpl; lia).
      rewrite Hp, app_assoc in Hclose. change ((bl ++ d0 ++ ds) ++ 91 :: c0) with pre in Hclose.
      rewrite lookup_app_r, Nat.sub_diag in Hclose by lia. destruct Htail as [->|[t' ->]]; done.
  - exfalso. assert (Hstart : start = length (bl ++ d0 ++ ds)).
    { subst start. rewrite !length_app. destruct s as [|x s]; [simpl in *; lia|].
      destruct x as [|x|x]; simpl in *; [lia| |lia]. do 7 (destruct x as [x|x|]; simpl in *; try lia). done. }
    rewrite Hpre, Hstart, take_app_length in Hopen.
    destruct (decide (ds = [])) as [->|Hdsn].
    + rewrite app_nil_r, last_app in Hopen. simpl in Hrs. destruct Hlast as [Hl|(c & r0 & Hc0 & Hdel)].
      * by rewrite Hl in Hopen.
      * rewrite <- Hrs, Hc0 in Hsr. simpl in Hsr. congruence.
    + destruct (list.last ds) as [y|] eqn:El; [|by apply last_None in El].
      rewrite (last_app_some bl (d0 ++ ds) y) in Hopen by by apply last_app_some. injection Hopen as ->.
      apply last_Some_elem_of in El. rewrite list.Forall_forall in Hds. by apply (not_delimiter_91 91 (Hds _ El)).
Qed.

(** ** with_jump_values *)

(** What an edit makes of a pair and of a jump. *)
Definition edited_to (edits : list (str * Z * Z)) (v : str) : option Z :=
  snd <$> List.find (fun e => bool_decide (e.1.1 = v)) edits.
Definition edited_action (edits : list (str * Z * Z)) (va : str * Action.t) : str * Action.t :=
  (va.1, match edited_to edits va.1 with Some to => Action.Jump to | None => va.2 end).
Definition edited_jump (edits : list (str * Z * Z)) (vn : str * Z) : str * Z := (vn.1, default vn.2 (edited_to edits vn.1)).

Definition seg_pair (g : seg) : str * Action.t := (g_value g, g_action g).

Lemma plain_pairs gs : forall i, plain (pairs_of i gs) = map seg_pair gs.
Proof. unfold plain. induction gs as [|g gs IH]; intros i; simpl; [done|]. by rewrite IH. Qed.

(** The segment an edit changes. *)
Definition edits_seg (gs : list seg) (ed : str * Z * Z) (e : nat * Z) : Prop :=
  e.2 = ed.2 /\ 0 < ed.2 <= MAX_JUMP /\ Some e.1 ∈ set_by (map seg_pair gs) /\
  exists g, gs !! e.1 = Some g /\ seg_pair g = (ed.1.1, Action.Jump ed.1.2)
    /\ forall j g', gs !! j = Some g' -> g_value g' = ed.1.1 -> j = e.1.

Lemma jump_span_inv gs v from sp :
  jump_span (pairs_of 0 gs) v from = Some sp ->
  exists k g, sp = span_of gs k /\ gs !! k = Some g /\ seg_pair g = (v, Action.Jump from)
    /\ Some k ∈ set_by (map seg_pair gs) /\ forall j g', gs !! j = Some g' -> g_value g' = v -> j = k.
Proof.
  unfold jump_span. destruct (position _ _) as [k|] eqn:Ek; [|done]. simpl.
  apply position_Some in Ek as [(p & Hp & Hv) Hfirst]. apply bool_decide_eq_true in Hv. rewrite Hp. simpl.
  destruct (gs !! k) as [g|] eqn:Eg.
  2: { assert (Hn : pairs_of 0 gs !! k = None); [|congruence]. apply lookup_ge_None. apply lookup_ge_None in Eg.
       transitivity (length (plain (pairs_of 0 gs))); [by unfold plain; rewrite length_map|]. by rewrite plain_pairs, length_map. }
  rewrite (pairs_of_lookup gs 0 k g Eg) in Hp. injection Hp as <-. simpl in *. subst v.
  destruct (existsb _ _) eqn:Ex; simpl; [done|]. rewrite existsb_false in Ex.
  case_bool_decide as Ha; simpl; [|done]. rewrite plain_pairs. case_bool_decide as Hb; simpl; [|done]. intros [= <-].
  exists k, g. unfold seg_pair. rewrite Ha. split_and!; try done. intros j g' Hj Hv.
  pose proof (pairs_of_lookup gs 0 j g' Hj) as Hpj. set (q := MkPair _ _ _ _) in Hpj.
  destruct (Nat.lt_trichotomy j k) as [Hjk|[?|Hjk]]; [|done|]; exfalso.
  - specialize (Hfirst j q Hjk Hpj). simpl in Hfirst. by rewrite bool_decide_eq_true_2 in Hfirst.
  - assert (Hq : q ∈ drop (S k) (pairs_of 0 gs)).
    { apply list_elem_of_lookup. exists (j - S k)%nat. rewrite lookup_drop. by replace (S k + (j - S k))%nat with j by lia. }
    specialize (Ex q Hq). simpl in Ex. by rewrite bool_decide_eq_true_2 in Ex.
Qed.

Lemma edit_spans_inv gs edits : forall seen spans,
  Forall (fun ed => 0 <= ed.2) edits -> edit_spans (pairs_of 0 gs) seen edits = Some spans ->
  exists K, spans = map (edit_span gs) K /\ Forall2 (edits_seg gs) edits K
    /\ NoDup (map (fun ed => ed.1.1) edits) /\ forall ed, ed ∈ edits -> ed.1.1 ∉ seen.
Proof.
  induction edits as [|[[v from] to] edits IH]; intros seen spans Hpos; simpl.
  - intros [= <-]. exists []. split_and!; [done|constructor|constructor|]. by intros ed ?%elem_of_nil.
  - inversion_clear Hpos as [|? ? Hto Hpos']. simpl in Hto. case_bool_decide as Hseen; [done|]. case_bool_decide as Hz; [done|].
    destruct (Z.ltb_spec MAX_JUMP to); [done|]. simpl.
    destruct (jump_span _ v from) as [sp|] eqn:Esp; [|done]. simpl.
    destruct (edit_spans _ (v :: seen) edits) as [spans'|] eqn:Ee; [|done]. simpl. intros [= <-].
    apply jump_span_inv in Esp as (k & g & -> & Hg & Hp & Hby & Hu).
    destruct (IH _ _ Hpos' Ee) as (K & -> & HK & Hnd & Hns). exists ((k, to) :: K). split_and!; [done| | |].
    + constructor; [|done]. split; [done|]. split; [simpl; lia|]. split; [done|]. by exists g.
    + simpl. constructor; [|done]. rewrite list_elem_of_fmap. intros (ed & Hed & Hin). apply (Hns ed Hin). rewrite <- Hed. by left.
    + intros ed [->|Hin]%elem_of_cons; [done|]. specialize (Hns ed Hin). rewrite not_elem_of_cons in Hns. naive_solver.
Qed.

Lemma set_jump_ok to g : 0 < to <= MAX_JUMP -> seg_ok g -> seg_ok (set_jump to g).
Proof.
  intros Hto (? & ? & ? & ? & _). destruct (decimal_spec to ltac:(lia)) as (Hv & Hd & d & r & He & _).
  split_and!; try done. simpl. split_and!; [by rewrite He| |done|lia|lia].
  eapply list.Forall_impl; [exact Hd|]. intros c Hc. unfold is_ascii_digit. by rewrite bool_decide_eq_true.
Qed.

Lemma set_pairs_values (f : str * Action.t -> str * Action.t) ps : (forall va, (f va).1 = va.1) ->
  forall slots at_, set_pairs slots at_ (map f ps) = set_pairs slots at_ ps.
Proof.
  intros Hf. induction ps as [|[v a] ps IH]; intros slots at_; simpl; [done|].
  specialize (Hf (v, a)). destruct (f (v, a)) as [v' a']. simpl in Hf. subst v'. apply IH.
Qed.

Lemma jumps_in_edited edits by_ ps : forall at_,
  (forall va, va ∈ ps -> edited_to edits va.1 <> None -> is_jump va.2 = true) ->
  jumps_in by_ at_ (map (edited_action edits) ps) = map (edited_jump edits) (jumps_in by_ at_ ps).
Proof.
  induction ps as [|[v a] ps IH]; intros at_ Hj; simpl; [done|].
  rewrite map_app, IH by (intros va Hva; apply Hj; by right). f_equal. specialize (Hj (v, a) ltac:(by left)). simpl in Hj.
  unfold edited_jump. destruct (edited_to edits v) as [to|] eqn:Et.
  - destruct a as [| | | | | |n]; try (by specialize (Hj ltac:(done))). case_bool_decide; simpl; [by rewrite Et|done].
  - destruct a; try done. case_bool_decide; simpl; [by rewrite Et|done].
Qed.

(** The segments after the edits. *)
Lemma edited_segs gs edits K K' :
  Forall2 (edits_seg gs) edits K -> NoDup (map (fun ed => ed.1.1) edits) -> K' ≡ₚ K -> NoDup K'.*1 ->
  map seg_pair (foldl set_at gs K') = map (edited_action edits) (map seg_pair gs).
Proof.
  intros HK Hnd Hp HndK. rewrite map_map. apply list_eq. intros j. rewrite !list_lookup_fmap, edits_lookup by done.
  destruct (gs !! j) as [g|] eqn:Eg; simpl; [|done]. f_equal.
  destruct (List.find (fun e : nat * Z => bool_decide (e.1 = j)) K') as [[k to]|] eqn:Ef.
  - apply (find_key fst) in Ef as [Hin Hk]; [|done]. simpl in Hk. subst k. rewrite Hp in Hin.
    apply list_elem_of_lookup in Hin as [i Hi]. destruct (Forall2_lookup_r _ _ _ _ _ HK Hi) as (ed & Hed & Hto & _ & _ & g' & Hg & Hv & _).
    simpl in Hto, Hg. rewrite Eg in Hg. injection Hg as <-. unfold seg_pair in Hv. injection Hv as Hv _.
    unfold edited_action, edited_to, seg_pair. simpl.
    rewrite (proj2 (find_key (fun e => e.1.1) edits ed (g_value g) Hnd)); [by rewrite Hto|].
    split; [apply list_elem_of_lookup; by exists i|done].
  - unfold edited_action, edited_to, seg_pair. simpl.
    destruct (List.find (fun e : str * Z * Z => bool_decide (e.1.1 = g_value g)) edits) as [ed|] eqn:Ed; [|done]. exfalso.
    apply (find_key (fun e => e.1.1)) in Ed as [Hin Hv]; [|done]. apply list_elem_of_lookup in Hin as [i Hi].
    destruct (Forall2_lookup_l _ _ _ _ _ HK Hi) as ([k to] & Hk & _ & _ & _ & _ & _ & _ & Hu).
    assert (j = k) as -> by by apply (Hu j g).
    assert (Hin : (k, to) ∈ K') by (rewrite Hp; apply list_elem_of_lookup; by exists i).
    apply list_elem_of_In, (find_none _ _ Ef) in Hin. simpl in Hin. by rewrite bool_decide_eq_true_2 in Hin.
Qed.

Lemma edited_ok gs K' : Forall seg_ok gs -> Forall (fun e : nat * Z => 0 < e.2 <= MAX_JUMP) K' -> Forall seg_ok (foldl set_at gs K').
Proof.
  revert gs; induction K' as [|e K' IH]; intros gs Hg HK; simpl; [done|]. inversion_clear HK. apply IH; [|done].
  unfold set_at. apply Forall_alter; [done|]. intros. by apply set_jump_ok.
Qed.

(** A control that reads as pairs is no keyword. *)
Lemma pairs_no_keyword c ps : control_pairs_at c = Some ps -> is_keyword c = false.
Proof.
  intros H. apply pairs_from_inv in H as (gs & bl & -> & Hg & Hb & _). unfold is_keyword. apply existsb_false. intros k Hk.
  unfold eq_ignore_ascii_case. apply bool_decide_eq_false. intros Heq.
  assert (Hall : forallb (fun k => bool_decide (k <> [] /\ (61 ∉ map lower_code k) /\ Forall (fun c => control_blank c = false) (map lower_code k)))
                   CONTROL_KEYWORDS = true) by (vm_compute; reflexivity).
  rewrite forallb_forall in Hall. apply list_elem_of_In, Hall, bool_decide_eq_true in Hk as (Hn & H61 & Hnb). rewrite <- Heq in H61, Hnb.
  destruct gs as [|g gs].
  - destruct Hb as [|b bl Hbb _]; [by destruct k|]. simpl in Hnb. inversion_clear Hnb as [|? ? Hb' _].
    assert (Hlow : lower_code b = b); [|rewrite Hlow in Hb'; congruence]. unfold lower_code. rewrite bool_decide_eq_false_2; [done|].
    unfold control_blank, one_of in Hbb. rewrite bool_decide_eq_true in Hbb. intros ?.
    repeat (apply elem_of_cons in Hbb as [->|Hbb]; [lia|]). by apply elem_of_nil in Hbb.
  - apply H61. rewrite list_elem_of_fmap. exists 61. split; [done|]. rewrite texts_cons. unfold seg_text. set_solver.
Qed.

Lemma value_in_jumps by_ ps k v n : forall at_, Some (at_ + k)%nat ∈ by_ -> ps !! k = Some (v, Action.Jump n) -> (v, n) ∈ jumps_in by_ at_ ps.
Proof.
  revert ps; induction k as [|k IH]; intros [|[v0 a0] ps] at_ Hby; simpl; try done.
  - intros [= -> ->]. rewrite Nat.add_0_r in Hby. rewrite bool_decide_eq_true_2 by done. by left.
  - intros Hk. apply elem_of_app. right. apply (IH ps (S at_)); [|done]. by replace (S at_ + k)%nat with (at_ + S k)%nat by lia.
Qed.

Lemma edits_places gs edits K :
  Forall2 (edits_seg gs) edits K -> NoDup (map (fun ed => ed.1.1) edits) -> NoDup K.*1.
Proof.
  induction 1 as [|ed e edits K He HK IH]; simpl; [constructor|]. intros [Hn Hnd]%list.NoDup_cons.
  constructor; [|by apply IH]. rewrite list_elem_of_fmap. intros (e' & Heq & Hin). apply Hn.
  apply list_elem_of_lookup in Hin as [i Hi]. destruct (Forall2_lookup_r _ _ _ _ _ HK Hi) as (ed' & Hed' & _ & _ & _ & g' & Hg' & Hv' & _).
  destruct He as (_ & _ & _ & g & Hg & Hv & _). rewrite Heq, Hg' in Hg. injection Hg as ->.
  rewrite list_elem_of_fmap. exists ed'. split; [|apply list_elem_of_lookup; by exists i]. congruence.
Qed.

Lemma edited_were_jumps gs edits K va :
  Forall2 (edits_seg gs) edits K -> va ∈ map seg_pair gs -> edited_to edits va.1 <> None -> is_jump va.2 = true.
Proof.
  intros HK Hva Hed. unfold edited_to in Hed.
  destruct (List.find _ edits) as [ed|] eqn:Ef; [|done]. apply find_some in Ef as [Hin Hv]. apply bool_decide_eq_true in Hv.
  apply list_elem_of_In, list_elem_of_lookup in Hin as [i Hi].
  destruct (Forall2_lookup_l _ _ _ _ _ HK Hi) as (e & _ & _ & _ & _ & g & Hg & Hp & Hu).
  apply list_elem_of_fmap in Hva as (g' & -> & Hg'). apply list_elem_of_lookup in Hg' as [j Hj]. simpl in *.
  assert (j = e.1) as -> by by apply (Hu j g'). rewrite Hg in Hj. injection Hj as <-. unfold seg_pair in Hp. by injection Hp as _ ->.
Qed.

(** Changing the numeric jumps of a line changes those jumps and nothing
    else that libpam reads: each edited jump was one of the line's, the new
    line has the same type, fields and pairs in the same order, the edited
    pairs jump the new distance, and so its numeric jumps are the old ones
    with the edits made. *)
Theorem jump_edit_exact l edits l' :
  Forall (fun ed => 0 <= ed.2) edits -> with_jump_values l edits = Some l' ->
  exists h h', head l = Some h /\ head l' = Some h'
    /\ phase h' = phase h /\ rest h' = rest h /\ known_type h' = known_type h
    /\ control_pairs (control h') = (map (edited_action edits) <$> control_pairs (control h))
    /\ numeric_actions h' = map (edited_jump edits) (numeric_actions h)
    /\ Forall (fun ed => ed.1 ∈ numeric_actions h) edits.
Proof.
  intros Hpos. unfold with_jump_values. destruct (head l) as [h|] eqn:Eh; [|done]. simpl. case_bool_decide as Hc; [done|].
  destruct (control_at l) as [start|] eqn:Eat; [|done]. simpl.
  case_bool_decide as Hopen; simpl; [|done]. case_bool_decide as Hclose; simpl; [|done]. case_bool_decide; simpl; [|done].
  destruct (bracketed_head l h start Eh Hc Eat Hopen Hclose) as (pre & post & Hl & Hstart & Hhead).
  destruct (control_pairs_at (control h)) as [ps|] eqn:Ep; [|done]. simpl.
  assert (Hinv := Ep). apply pairs_from_inv in Hinv as (gs & bl & Hgs & Hok & Hbl & ->).
  destruct (edit_spans _ [] edits) as [spans|] eqn:Es; [|done]. simpl. intros [= <-].
  apply edit_spans_inv in Es as (K & -> & HK & Hnd & _); [|done].
  assert (HKlt : Forall (fun e => (e.1 < length gs)%nat) K).
  { apply list.Forall_forall. intros e He. apply list_elem_of_lookup in He as [i Hi].
    destruct (Forall2_lookup_r _ _ _ _ _ HK Hi) as (ed & _ & _ & _ & _ & g & Hg & _). by apply lookup_lt_Some in Hg. }
  assert (HKnd : NoDup K.*1) by (eapply edits_places; done).
  destruct (last_first_places gs K Hok HKnd HKlt) as (K' & HpK & Hdown & ->).
  assert (HKlt' : Forall (fun e => (e.1 < length gs)%nat) K') by by rewrite HpK.
  pose proof (down_nodup K' Hdown) as HKnd'.
  assert (Hl' : l = (pre ++ [91]) ++ texts gs ++ (bl ++ 93 :: post)) by (rewrite Hl, Hgs; by rewrite <- (app_assoc (texts gs))).
  rewrite Hl', Hstart, apply_edits.
  2: done.
  2: { eapply list.Forall_impl; [exact HKlt'|]. done. }
  set (gs' := foldl set_at gs K').
  assert (HKto : Forall (fun e : nat * Z => 0 < e.2 <= MAX_JUMP) K').
  { rewrite HpK. apply list.Forall_forall. intros e He. apply list_elem_of_lookup in He as [i Hi].
    destruct (Forall2_lookup_r _ _ _ _ _ HK Hi) as (ed & _ & -> & ? & _). done. }
  assert (Hok' : Forall seg_ok gs') by by apply edited_ok.
  assert (Hpairs' : map seg_pair gs' = map (edited_action edits) (map seg_pair gs)) by by eapply edited_segs.
  assert (Ep' : control_pairs_at (texts gs' ++ bl) = Some (pairs_of 0 gs')) by (apply pairs_from_make; (done || lia)).
  rewrite (app_assoc (texts gs') bl), Hhead by by apply texts_plain.
  exists h, (MkHead (phase h) (texts gs' ++ bl) (rest h) (known_type h)). simpl.
  unfold numeric_actions, control_pairs. simpl. rewrite Ep', Ep, (pairs_no_keyword _ _ Ep'), (pairs_no_keyword _ _ Ep). simpl.
  rewrite !plain_pairs, Hpairs'. split_and!; try done.
  - rewrite (jumps_in_edited edits _ (map seg_pair gs) 0).
    + unfold set_by. by rewrite set_pairs_values.
    + intros va Hva Hed. eapply edited_were_jumps; done.
  - apply list.Forall_forall. intros ed He. apply list_elem_of_lookup in He as [i Hi].
    destruct (Forall2_lookup_l _ _ _ _ _ HK Hi) as (e & _ & _ & _ & Hby & g & Hg & Hv & _).
    rewrite (surjective_pairing ed.1). apply (value_in_jumps _ _ e.1); [done|]. by rewrite list_lookup_fmap, Hg, <- Hv.
Qed.

Definition faillock_line : str :=
  word "auth	[success=2 default=1]	pam_localuser.so # local users" .
Definition faillock_edits : list (str * Z * Z) := [(word "default", 1, 12); (word "success", 2, 3)].

Lemma jump_edit_exact_witness :
  exists h', head (word "auth	[success=3 default=12]	pam_localuser.so # local users") = Some h'
    /\ numeric_actions h' = [(word "success", 3); (word "default", 12)].
Proof.
  destruct (jump_edit_exact faillock_line faillock_edits (word "auth	[success=3 default=12]	pam_localuser.so # local users"))
    as (h & h' & Hh & Hh' & _ & _ & _ & _ & Hn & _).
  - unfold faillock_edits. repeat constructor; vm_compute; discriminate.
  - vm_compute. reflexivity.
  - exists h'. split; [done|]. rewrite Hn. vm_compute in Hh. injection Hh as <-. vm_compute. reflexivity.
Defined.
