(* ===== verification/PamWiringTheory.v ===== *)
(** * Wiring a stack and taking irlume's lines out again

    What the recipes do to the lines of a stack: they insert irlume's lines and
    change no other, so that taking irlume's lines out gives the stack back;
    and where the verify stanza goes. *)

From S2P Require Import Prelude Text Ordering PamGrammar PamLines PamOverrides PamWiring.
Import grammar.

(** ** Lines *)

(** A line as a text holds it: without a line feed, and without a carriage
    return at its end, which [lines] takes off. *)
Definition clean (l : str) : Prop := (10 ∉ l) /\ list.last l <> Some 13.
#[export] Instance clean_dec l : Decision (clean l).
Proof. unfold clean. apply _. Defined.

Lemma lines_from_app cur l r : 10 ∉ l -> lines_from cur (l ++ 10 :: r) = strip_cr (reverse l ++ cur) :: lines r.
Proof.
  revert cur; induction l as [|x l IH]; intros cur; simpl; [done|]. rewrite not_elem_of_cons. intros [Hx Hl].
  rewrite bool_decide_eq_false_2 by congruence. rewrite IH by done. by rewrite reverse_cons, <- app_assoc.
Qed.

Lemma strip_cr_clean l : list.last l <> Some 13 -> strip_cr (reverse l) = l.
Proof.
  intros Hl. unfold strip_cr. rewrite <- (reverse_involutive l) at 2. f_equal. rewrite <- head_reverse in Hl.
  destruct (reverse l) as [|x k]; [done|]. simpl in Hl. destruct x as [|x|x]; try done.
  do 4 (destruct x as [x|x|]; try done).
Qed.

Lemma lines_cons l r : clean l -> lines (l ++ 10 :: r) = l :: lines r.
Proof. intros [H1 H2]. unfold lines. rewrite lines_from_app, app_nil_r, strip_cr_clean by done. done. Qed.

Lemma unlines_cons l m ls : unlines (l :: m :: ls) = l ++ 10 :: unlines (m :: ls).
Proof. unfold unlines. change (join_with 10 (l :: m :: ls)) with (l ++ 10 :: join_with 10 (m :: ls)). by rewrite <- app_assoc. Qed.

Lemma lines_unlines ls : ls <> [] -> Forall clean ls -> lines (unlines ls) = ls.
Proof.
  induction ls as [|l [|m ls] IH]; intros Hn Hf; [done| |].
  - inversion_clear Hf. unfold unlines. simpl. by rewrite lines_cons.
  - inversion_clear Hf. rewrite unlines_cons, lines_cons by done. f_equal. by apply IH.
Qed.

Lemma lines_from_no_lf l : forall cur, 10 ∉ cur -> Forall (fun l => 10 ∉ l) (lines_from cur l).
Proof.
  induction l as [|x l IH]; intros cur Hc; simpl.
  - destruct cur as [|y cur]; [constructor|]. constructor; [|constructor]. by rewrite elem_of_reverse.
  - case_bool_decide as Hx.
    + constructor; [|apply IH; by intros ?%elem_of_nil]. unfold strip_cr. rewrite elem_of_reverse. destruct cur as [|y cur]; [done|].
      intros Hin. apply Hc. revert Hin. destruct y as [|y|y]; try done. do 4 (destruct y as [y|y|]; try done). by right.
    + apply IH. rewrite not_elem_of_cons. split; [congruence|done].
Qed.

Lemma lines_from_incl l x : forall cur m, m ∈ lines_from cur l -> x ∈ m -> x ∈ cur \/ x ∈ l.
Proof.
  induction l as [|y l IH]; intros cur m; simpl.
  - destruct cur as [|z cur]; [by intros ?%elem_of_nil|]. intros ->%list_elem_of_singleton. rewrite elem_of_reverse. by left.
  - case_bool_decide as Hy.
    + intros [->|Hm]%elem_of_cons Hx.
      * left. unfold strip_cr in Hx. rewrite elem_of_reverse in Hx. destruct cur as [|z cur]; [done|].
        revert Hx. destruct z as [|z|z]; try done. do 4 (destruct z as [z|z|]; try done). by right.
      * destruct (IH [] m Hm Hx) as [H|H]; [by apply elem_of_nil in H|]. right. by right.
    + intros Hm Hx. destruct (IH _ m Hm Hx) as [[->|H]%elem_of_cons|H]; [right; by left|by left|right; by right].
Qed.

Lemma lines_clean c : 13 ∉ c -> Forall clean (lines c).
Proof.
  intros Hc. apply list.Forall_forall. intros l Hl. split.
  - pose proof (lines_from_no_lf c [] (not_elem_of_nil 10)) as Hf. rewrite list.Forall_forall in Hf. by apply Hf.
  - intros Hlast. apply last_Some_elem_of in Hlast. destruct (lines_from_incl c 13 [] l Hl Hlast) as [H|H]; [|done].
    by apply elem_of_nil in H.
Qed.

(** A text without carriage returns that ends in a line feed is its lines. *)
Lemma unlines_lines c : 13 ∉ c -> list.last c = Some 10 -> unlines (lines c) = c.
Proof.
  intros Hc Hl. assert (He : forall n c, (length c <= n)%nat -> 13 ∉ c -> list.last c = Some 10 -> unlines (lines c) = c /\ lines c <> []).
  { clear. induction n as [|n IH]; intros c Hn Hc Hl; [by destruct c; simpl in Hn; try lia|].
    destruct (decide (10 ∈ c)) as [Hin|Hin]; [|by apply last_Some_elem_of in Hl].
    apply list_elem_of_split_l in Hin as (l & r & -> & Hlf). rewrite elem_of_app, elem_of_cons in Hc.
    rewrite lines_cons; [|split; [done|intros H%last_Some_elem_of; tauto]]. split; [|done].
    destruct r as [|y r]; [done|]. rewrite last_app in Hl. change (list.last (10 :: y :: r)) with (list.last (y :: r)) in Hl.
    rewrite length_app in Hn. simpl in Hn.
    destruct (IH (y :: r)) as [IH1 IH2]; [simpl; lia|tauto|by destruct (list.last (y :: r)) eqn:E; [|apply last_None in E]|].
    destruct (lines (y :: r)) as [|m ls] eqn:E; [done|]. by rewrite unlines_cons, IH1. }
  by destruct (He (length c) c).
Qed.

Lemma split_inclusive_cons l r : 10 ∉ l -> split_inclusive 10 (l ++ 10 :: r) = (l ++ [10]) :: split_inclusive 10 r.
Proof.
  induction l as [|x l IH]; simpl; [done|]. rewrite not_elem_of_cons. intros [Hx Hl].
  rewrite bool_decide_eq_false_2 by congruence. by rewrite IH.
Qed.

Lemma split_inclusive_unlines ls : ls <> [] -> Forall clean ls -> split_inclusive 10 (unlines ls) = map (fun l => l ++ [10]) ls.
Proof.
  induction ls as [|l [|m ls] IH]; intros Hn Hf; [done| |]; inversion_clear Hf as [|? ? [Hl _] Hf'].
  - unfold unlines. simpl. by rewrite split_inclusive_cons.
  - rewrite unlines_cons, split_inclusive_cons by done. simpl. f_equal. by apply IH.
Qed.

Lemma unlines_join ls : ls <> [] -> mjoin (map (fun l => l ++ [10]) ls) = unlines ls.
Proof.
  induction ls as [|l [|m ls] IH]; intros Hn; [done|unfold unlines; simpl; by rewrite app_nil_r|].
  rewrite unlines_cons. simpl. rewrite <- app_assoc. simpl. do 2 f_equal. by apply IH.
Qed.

Lemma without_crs_clean l : list.last l <> Some 13 -> without_crs l = l.
Proof.
  intros Hl. unfold without_crs, trim_end_matches, trim_start_matches. rewrite <- head_reverse in Hl.
  rewrite <- (reverse_involutive l) at 2. f_equal. destruct (reverse l) as [|x k]; [done|]. simpl in *.
  unfold is_cr. by rewrite bool_decide_eq_false_2 by congruence.
Qed.

Lemma strip_suffix_line l : strip_suffix_of 10 (l ++ [10]) = l.
Proof.
  unfold strip_suffix_of. rewrite last_snoc, bool_decide_eq_true_2, length_app, Nat.add_sub by done. apply take_app_length.
Qed.

(** ** irlume's lines in, irlume's lines out *)

Definition foreign (l : str) : bool := negb (is_irlume_line l).

(** The lines irlume's recipes write. *)
Definition stanza_list : list str :=
  [GREETER_UNSEAL_FACEFIRST_JUMP; GREETER_UNSEAL_COSMIC_JUMP; PERMIT_LANDING; RESEAL_AUTH; KEYRING_UNSEAL; FP_GKR_AUTH;
   FP_GKR_SESSION; RESEAL_SESSION; VERIFY_STANZA; POLKIT_VERIFY_STANZA;
   include_greeter_line (word "ondemand") true; include_greeter_line (word "facefirst") true;
   include_greeter_line (word "ondemand") false].

(** A clean line, and one of those when it is irlume's. *)
Definition wrote (l : str) : Prop := clean l /\ (is_irlume_line l = true -> l ∈ stanza_list).

(** [out] holds the lines [ls] in their order, and lines irlume's recipes write. *)
Definition adds (ls out : list str) : Prop := List.filter foreign out = ls /\ Forall wrote out.

Lemma filter_mjoin {A} (f : A -> bool) ls : List.filter f (mjoin ls) = mjoin (map (List.filter f) ls).
Proof. induction ls as [|l ls IH]; simpl; [done|]. by rewrite filter_app, IH. Qed.

Lemma filter_all {A} (f : A -> bool) l : Forall (fun x => f x = true) l -> List.filter f l = l.
Proof. induction 1 as [|x l Hx _ IH]; simpl; [done|]. by rewrite Hx, IH. Qed.

Lemma rewrite_from f ls : forall n,
  (forall i l, ls !! i = Some l -> adds [l] (f (n + i)%nat l)) -> adds ls (mjoin (imap (fun i => f (n + i)%nat) ls)).
Proof.
  induction ls as [|l ls IH]; intros n Hf; simpl; [by split|].
  destruct (Hf O l eq_refl) as [H1 H2].
  destruct (IH (S n)) as [H3 H4]. { intros i m Hm. specialize (Hf (S i) m Hm). by rewrite Nat.add_succ_r in Hf. }
  assert (He : imap ((fun i => f (n + i)%nat) ∘ S) ls = imap (fun i => f (S n + i)%nat) ls).
  { apply imap_ext. intros i x _. simpl. by rewrite Nat.add_succ_r. }
  rewrite He. split.
  - by rewrite filter_app, H1, H3.
  - by apply list.Forall_app.
Qed.

Lemma rewrite_adds f ls : (forall i l, ls !! i = Some l -> adds [l] (f i l)) -> adds ls (rewrite f ls).
Proof. intros Hf. apply (rewrite_from f ls 0). intros i l. by apply Hf. Qed.

Definition ours (l : str) : Prop := is_irlume_line l = true /\ wrote l.

Lemma wrote_clean out : Forall wrote out -> Forall clean out.
Proof. intros H. eapply list.Forall_impl; [exact H|]. by intros l []. Qed.

Lemma adds_one l : foreign l = true -> clean l -> adds [l] [l].
Proof.
  intros Hf Hc. split; [simpl; by rewrite Hf|]. constructor; [|constructor]. split; [done|]. unfold foreign in Hf. by intros Ho; rewrite Ho in Hf.
Qed.
Lemma adds_before ls out o : ours o -> adds ls out -> adds ls (o :: out).
Proof. intros [Ho Hc] [H1 H2]. split; [|by constructor]. simpl. unfold foreign at 1. by rewrite Ho. Qed.
Lemma adds_after ls out o : ours o -> adds ls out -> adds ls (out ++ [o]).
Proof.
  intros [Ho Hc] [H1 H2]. split; [|apply list.Forall_app; split; [done|by constructor]].
  rewrite filter_app. simpl. unfold foreign at 2. by rewrite Ho, app_nil_r.
Qed.
Lemma adds_tail ls out os : Forall ours os -> adds ls out -> adds ls (out ++ os).
Proof.
  intros Hos [H1 H2]. split.
  - rewrite filter_app, H1. induction Hos as [|o os [Ho _] _ IH]; simpl; [by rewrite app_nil_r|]. unfold foreign at 1. by rewrite Ho.
  - apply list.Forall_app. split; [done|]. eapply list.Forall_impl; [exact Hos|]. by intros ? [].
Qed.

Lemma stanza_ours o : o ∈ stanza_list -> ours o.
Proof.
  assert (H : forallb (fun o => is_irlume_line o && bool_decide (clean o)) stanza_list = true) by (vm_compute; reflexivity).
  rewrite forallb_forall in H. intros Hin. pose proof Hin as Ho%list_elem_of_In. apply H, andb_true_iff in Ho as [? Hc].
  split; [done|]. by apply bool_decide_eq_true in Hc.
Qed.

#[local] Opaque GREETER_UNSEAL_FACEFIRST_JUMP GREETER_UNSEAL_COSMIC_JUMP PERMIT_LANDING RESEAL_AUTH KEYRING_UNSEAL FP_GKR_AUTH
  FP_GKR_SESSION RESEAL_SESSION VERIFY_STANZA POLKIT_VERIFY_STANZA include_greeter_line is_irlume_line word.

Lemma greeter_ours (b : bool) : ours (include_greeter_line (if b then word "ondemand" else word "facefirst") true).
Proof. apply stanza_ours. destruct b; set_solver. Qed.
Lemma jump_ours (b : bool) : ours (if b then GREETER_UNSEAL_COSMIC_JUMP else GREETER_UNSEAL_FACEFIRST_JUMP).
Proof. apply stanza_ours. destruct b; set_solver. Qed.

(** The recipes by name. *)
Inductive Recipe :=
  | Greeter (face keyring ondemand : bool)
  | Lock
  | FpKeyring (service : str)
  | Verify
  | Polkit
  | OmarchyLock.

Definition wire_by (reader : option (str -> option str)) (r : Recipe) (content : str) : str * bool :=
  match r with
  | Greeter face keyring ondemand => wire_greeter_impl reader content face keyring ondemand
  | Lock => wire_lock reader content
  | FpKeyring service => wire_fp_keyring content service
  | Verify => wire_verify_service reader content
  | Polkit => wire_polkit_service reader content
  | OmarchyLock => wire_omarchy_lock reader content
  end.

Section Wired.
#[local] Opaque refuses.
Context (content : str) (all_clean : Forall clean (lines content)) (all_foreign : Forall (fun l => foreign l = true) (lines content)).

Lemma line_adds i l : lines content !! i = Some l -> adds [l] [l].
Proof.
  intros Hl. apply list_elem_of_lookup_2 in Hl. apply adds_one.
  - rewrite list.Forall_forall in all_foreign. by apply all_foreign.
  - rewrite list.Forall_forall in all_clean. by apply all_clean.
Qed.

Lemma in_rewrite f ls i l o : ls !! i = Some l -> o ∈ f i l -> o ∈ rewrite f ls.
Proof.
  intros Hl Ho. unfold rewrite. apply list_elem_of_join. exists (f i l). split; [done|].
  apply list_elem_of_lookup_2 with i. by rewrite list_lookup_imap, Hl.
Qed.

Lemma position_lookup_Some (f : str -> bool) ls i : position f ls = Some i -> exists l, ls !! i = Some l.
Proof. intros H%position_Some. destruct H as [(l & Hl & _) _]. by exists l. Qed.

Lemma anchor_is_line reader ls at_ : find_auth_anchor reader ls = Some at_ -> exists l, ls !! at_ = Some l.
Proof.
  unfold find_auth_anchor. destruct (position _ ls) as [i|] eqn:E1; [intros [= <-]; by eapply position_lookup_Some|].
  destruct (position is_auth_substack_anchor ls) as [i|] eqn:E2; [intros [= <-]; by eapply position_lookup_Some|].
  destruct (position is_auth_directive ls) as [i|] eqn:E3; [|done]. simpl. case_match; [|done]. intros [= <-]. by eapply position_lookup_Some.
Qed.

(** What a recipe that wires makes of the text. *)
Definition wired_as (marks : list str) (w : str) : Prop :=
  exists out, w = unlines out /\ adds (lines content) out /\ exists o, o ∈ out /\ o ∈ marks.

Lemma greeter_wired reader face keyring ondemand w :
  wire_greeter_impl reader content face keyring ondemand = (w, true) -> wired_as [RESEAL_AUTH] w.
Proof.
  unfold wire_greeter_impl. destruct (refuses reader content); [by intros [=]|].
  assert (Hopt : forall b o, ours o -> Forall ours (if b : bool then [o] else [])) by (intros [] o Ho; [by constructor|constructor]).
  assert (HR : ours RESEAL_SESSION) by (apply stanza_ours; set_solver).
  assert (HK : forall l, adds [l] [l] -> adds [l] ([l] ++ (if keyring then [KEYRING_UNSEAL] else []) ++ [RESEAL_AUTH])).
  { intros l Hl. apply adds_tail; [|done]. apply list.Forall_app.
    split; [apply Hopt; apply stanza_ours; set_solver|]. constructor; [apply stanza_ours; set_solver|constructor]. }
  destruct (position is_include_auth_layout (lines content)) as [inc_at|] eqn:Einc.
  - intros [= <-]. set (out := rewrite _ _).
    assert (Hout : adds (lines content) out).
    { apply rewrite_adds. intros i l Hl. pose proof (line_adds i l Hl) as Hone. case_bool_decide.
      - destruct face; simpl; [apply adds_before; [apply greeter_ours|]|]; by apply HK.
      - destruct (is_session_include l); [|done]. by apply (adds_after [l] [l]). }
    assert (Hm : RESEAL_AUTH ∈ out).
    { destruct (position_lookup_Some _ _ _ Einc) as [l Hl]. eapply in_rewrite; [exact Hl|]. rewrite bool_decide_eq_true_2 by done. set_solver. }
    clearbody out. eexists. split; [done|]. split; [case_bool_decide; [done|by apply adds_after]|]. exists RESEAL_AUTH. case_bool_decide; set_solver.
  - destruct (find_auth_anchor reader (lines content)) as [auth_at|] eqn:Ean; [|by intros [=]].
    set (out := rewrite _ _). intros Hw.
    assert (Hout : adds (lines content) out).
    { apply rewrite_adds. intros i l Hl. pose proof (line_adds i l Hl) as Hone. case_bool_decide.
      - destruct face; [|by apply HK].
        assert (adds [l] ([if ondemand then GREETER_UNSEAL_COSMIC_JUMP else GREETER_UNSEAL_FACEFIRST_JUMP; l; PERMIT_LANDING])).
        { apply adds_before; [apply jump_ours|]. apply (adds_after [l] [l]); [apply stanza_ours; set_solver|done]. }
        apply adds_tail; [|done]. apply list.Forall_app. split; [apply Hopt; apply stanza_ours; set_solver|].
        constructor; [apply stanza_ours; set_solver|constructor].
      - case_bool_decide; [|done]. by apply (adds_after [l] [l]). }
    assert (Hm : RESEAL_AUTH ∈ out).
    { destruct (anchor_is_line _ _ _ Ean) as [l Hl]. eapply in_rewrite; [exact Hl|]. rewrite bool_decide_eq_true_2 by done. set_solver. }
    clearbody out. injection Hw as <-. eexists. split; [done|].
    destruct (position (fun l => is_passwd_substack l (word "session")) (lines content));
      (split; [by try apply adds_after|exists RESEAL_AUTH; set_solver]).
Qed.

Lemma lock_wired reader w :
  wire_lock reader content = (w, true) -> wired_as [include_greeter_line (word "ondemand") false; GREETER_UNSEAL_COSMIC_JUMP] w.
Proof.
  unfold wire_lock. destruct (refuses reader content); [by intros [=]|].
  destruct (position is_include_auth_layout (lines content)) as [inc_at|] eqn:Einc.
  - intros [= <-]. eexists. split; [done|]. split.
    + apply rewrite_adds. intros i l Hl. pose proof (line_adds i l Hl). case_bool_decide; [|done].
      apply adds_before; [apply stanza_ours; set_solver|done].
    + exists (include_greeter_line (word "ondemand") false). split; [|set_solver].
      destruct (position_lookup_Some _ _ _ Einc) as [l Hl]. eapply in_rewrite; [exact Hl|]. rewrite bool_decide_eq_true_2 by done. set_solver.
  - destruct (find_auth_anchor reader (lines content)) as [auth_at|] eqn:Ean; [|by intros [=]].
    intros [= <-]. eexists. split; [done|]. split.
    + apply rewrite_adds. intros i l Hl. pose proof (line_adds i l Hl). case_bool_decide; [|done].
      apply adds_before; [apply stanza_ours; set_solver|]. apply (adds_after [l] [l]); [apply stanza_ours; set_solver|done].
    + exists GREETER_UNSEAL_COSMIC_JUMP. split; [|set_solver].
      destruct (anchor_is_line _ _ _ Ean) as [l Hl]. eapply in_rewrite; [exact Hl|]. rewrite bool_decide_eq_true_2 by done. set_solver.
Qed.

Lemma fp_wired service w : wire_fp_keyring content service = (w, true) -> wired_as [KEYRING_UNSEAL] w.
Proof.
  unfold wire_fp_keyring. destruct (negb (read_as_pam content)); [by intros [=]|].
  destruct (existsb _ (lines content)); [by intros [=]|].
  destruct (position is_fingerprint_auth (lines content)) as [fp_at|] eqn:Efp; [|by intros [=]].
  set (has := has_complete_consumer _ _ _). set (out := rewrite _ _). intros Hw.
  assert (Hout : adds (lines content) out).
  { apply rewrite_adds. intros i l Hl. pose proof (line_adds i l Hl) as Hone. case_bool_decide; [|done].
    assert (adds [l] ([l] ++ [KEYRING_UNSEAL])) by (apply adds_after; [apply stanza_ours; set_solver|done]).
    destruct has; [done|]. change ([l; KEYRING_UNSEAL] ++ [FP_GKR_AUTH]) with (([l] ++ [KEYRING_UNSEAL]) ++ [FP_GKR_AUTH]).
    apply adds_after; [apply stanza_ours; set_solver|done]. }
  assert (Hm : KEYRING_UNSEAL ∈ out).
  { destruct (position_lookup_Some _ _ _ Efp) as [l Hl]. eapply in_rewrite; [exact Hl|]. rewrite bool_decide_eq_true_2 by done. set_solver. }
  clearbody out.
  assert (Hout' : adds (lines content) (if has then out else out ++ [FP_GKR_SESSION])).
  { destruct has; [done|]. apply adds_after; [apply stanza_ours; set_solver|done]. }
  assert (Hm' : KEYRING_UNSEAL ∈ (if has then out else out ++ [FP_GKR_SESSION])) by (destruct has; set_solver).
  revert Hw Hout' Hm'. generalize (if has then out else out ++ [FP_GKR_SESSION]). intros out' [= <-] Hout' Hm'.
  eexists. split; [done|]. split.
  - case_match; [done|]. apply adds_after; [apply stanza_ours; set_solver|done].
  - exists KEYRING_UNSEAL. case_match; set_solver.
Qed.

Lemma stanza_wired stanza at_ : stanza ∈ [VERIFY_STANZA; POLKIT_VERIFY_STANZA] -> (exists l, lines content !! at_ = Some l) ->
  wired_as [VERIFY_STANZA; POLKIT_VERIFY_STANZA] (with_stanza_at stanza (lines content) at_).
Proof.
  intros Hs [l Hl]. eexists. split; [done|]. split.
  - apply rewrite_adds. intros i m Hm. pose proof (line_adds i m Hm). case_bool_decide; [|done].
    apply adds_before; [apply stanza_ours; set_solver|done].
  - exists stanza. split; [|done]. eapply in_rewrite; [exact Hl|]. rewrite bool_decide_eq_true_2 by done. set_solver.
Qed.

Lemma place_is_line reader stanza ls first password at_ :
  stanza_place reader content stanza ls first password = Some at_ ->
  (first < at_ <= password)%nat /\ (exists l, ls !! at_ = Some l /\ is_auth l = true)
  /\ jumps_moved_by_irlume reader content (with_stanza_at stanza ls at_) = [].
Proof.
  unfold stanza_place. intros [Hin Hp]%find_some. apply list_elem_of_In in Hin. rewrite elem_of_reverse, elem_of_seq in Hin.
  apply andb_true_iff in Hp as [Hp1 Hp2]. split; [lia|]. destruct (ls !! at_) as [l|]; [|done].
  split; [by exists l|]. by destruct (jumps_moved_by_irlume _ _ _).
Qed.

Lemma inserted reader stanza w : stanza ∈ [VERIFY_STANZA; POLKIT_VERIFY_STANZA] ->
  insert_verify_stanza reader content stanza = (w, true) -> wired_as [VERIFY_STANZA; POLKIT_VERIFY_STANZA] w.
Proof.
  intros Hs. unfold insert_verify_stanza. destruct (position is_auth (lines content)) as [first|] eqn:Ef; [|by intros [=]].
  intros [= <-]. apply stanza_wired; [done|]. destruct (stanza_place _ _ _ _ _ _) as [at_|] eqn:Ep; simpl.
  - apply place_is_line in Ep as (_ & (l & Hl & _) & _). by exists l.
  - by eapply position_lookup_Some.
Qed.

Definition marks : list str :=
  [RESEAL_AUTH; include_greeter_line (word "ondemand") false; GREETER_UNSEAL_COSMIC_JUMP; KEYRING_UNSEAL; VERIFY_STANZA; POLKIT_VERIFY_STANZA].

Lemma wired_weaken ms w : (forall o, o ∈ ms -> o ∈ marks) -> wired_as ms w -> wired_as marks w.
Proof. intros H (out & ? & ? & o & ? & ?). exists out. split_and!; try done. exists o. auto. Qed.

Lemma recipe_wired reader r w : wire_by reader r content = (w, true) -> wired_as marks w.
Proof.
  destruct r as [face keyring ondemand| |service| | |]; simpl; intros H.
  - eapply wired_weaken; [|by eapply greeter_wired]. set_solver.
  - eapply wired_weaken; [|by eapply lock_wired]. set_solver.
  - eapply wired_weaken; [|by eapply fp_wired]. set_solver.
  - unfold wire_verify_service in H. destruct (refuses reader content); [by injection H|].
    eapply wired_weaken; [|eapply inserted; [|exact H]; set_solver]. set_solver.
  - unfold wire_polkit_service in H. destruct (refuses reader content); [by injection H|].
    eapply wired_weaken; [|eapply inserted; [|exact H]; set_solver]. set_solver.
  - unfold wire_omarchy_lock in H. destruct (refuses reader content); [by injection H|].
    destruct (position _ (lines content)) as [anchor|] eqn:Ea; [|by injection H]. injection H as <-.
    eapply wired_weaken; [|apply stanza_wired; [set_solver|by eapply position_lookup_Some]]. set_solver.
Qed.
#[local] Transparent refuses.
End Wired.

Definition marks_of (r : Recipe) : list str := match r with FpKeyring _ => [KEYRING_UNSEAL] | _ => marks end.

Lemma recipe_marks content reader r w :
  Forall clean (lines content) -> Forall (fun l => foreign l = true) (lines content) ->
  wire_by reader r content = (w, true) -> wired_as content (marks_of r) w.
Proof.
  intros Hc Hf. destruct r; try (by apply recipe_wired). by apply fp_wired.
Qed.

Lemma marks_are_rules o : o ∈ marks -> bool_decide (is_Some (irlume_rule o)) = true.
Proof.
  assert (H : forallb (fun o => bool_decide (is_Some (irlume_rule o))) marks = true) by (vm_compute; reflexivity).
  rewrite forallb_forall in H. intros Hin. by apply H, list_elem_of_In.
Qed.
Lemma marks_are_ours o : o ∈ marks -> is_irlume_line o = true.
Proof.
  assert (H : forallb is_irlume_line marks = true) by (vm_compute; reflexivity).
  rewrite forallb_forall in H. intros Hin. by apply H, list_elem_of_In.
Qed.

(** A marked text is not wired again. *)
Lemma marked_stands_down reader r out o :
  out <> [] -> Forall clean out -> o ∈ out -> o ∈ marks_of r -> wire_by reader r (unlines out) = (unlines out, false).
Proof.
  intros Hn Hcl Ho Hm.
  assert (Hmod : o ∈ marks -> refuses reader (unlines out) = true).
  { intros Hin. apply orb_true_iff. right. apply existsb_true. exists o. rewrite lines_unlines by done.
    split; [done|]. by apply marks_are_rules. }
  destruct r; simpl in Hm; try (unfold wire_by, wire_greeter_impl, wire_lock, wire_verify_service, wire_polkit_service, wire_omarchy_lock; by rewrite Hmod).
  simpl. unfold wire_fp_keyring. case_match; [done|]. rewrite lines_unlines by done.
  rewrite (proj2 (existsb_true _ _)); [done|]. exists o. split; [done|]. apply list_elem_of_singleton in Hm as ->. vm_compute. reflexivity.
Qed.

(** C38. Wiring is undone exactly: when a recipe wires a text that holds none of
    irlume's lines, has no carriage return and ends its last line, taking
    irlume's lines out gives back that text byte for byte, with either of the
    two ways there are; the wired text holds the module, and the same recipe
    leaves it alone. *)
Theorem wiring_undone reader r content w :
  13 ∉ content -> list.last content = Some 10 -> Forall (fun l => is_irlume_line l = false) (lines content) ->
  wire_by reader r content = (w, true) ->
  unwire_lines w = (content, true) /\ without_irlume_lines w = content
  /\ content_has_module w = true /\ wire_by reader r w = (w, false).
Proof.
  intros Hcr Hlast Hf Hw.
  assert (Hf' : Forall (fun l => foreign l = true) (lines content)).
  { eapply list.Forall_impl; [exact Hf|]. unfold foreign. by intros ? ->. }
  destruct (recipe_marks content reader r w (lines_clean content Hcr) Hf' Hw) as (out & -> & [Hadd Hcl%wrote_clean] & o & Ho & Hm).
  assert (Hn : out <> []) by (intros ->; by apply elem_of_nil in Ho).
  assert (Hbase : unlines (lines content) = content) by by apply unlines_lines.
  assert (Hlines : lines content <> []) by (intros E; rewrite E in Hbase; rewrite <- Hbase in Hcr, Hlast; rewrite <- Hbase in E; done).
  assert (Hin : o ∈ marks) by (destruct r; simpl in Hm; [done..| |done|done|done]; unfold marks; set_solver).
  split_and!.
  - unfold unwire_lines. rewrite lines_unlines by done. change (fun l => negb (is_irlume_line l)) with foreign. rewrite Hadd, Hbase.
    f_equal. apply existsb_true. exists o. split; [done|]. by apply marks_are_ours.
  - unfold without_irlume_lines. rewrite split_inclusive_unlines by done. rewrite <- Hbase at 1. rewrite <- unlines_join by done.
    f_equal. rewrite <- Hadd. clear - Hcl. induction Hcl as [|l out [_ Hl] _ IH]; simpl; [done|].
    rewrite strip_suffix_line, without_crs_clean by done. unfold foreign at 1. destruct (negb (is_irlume_line l)); simpl; by rewrite IH.
  - apply existsb_true. exists o. rewrite lines_unlines by done. split; [done|]. by apply marks_are_rules.
  - by eapply marked_stands_down.
Qed.

(** A greeter in the manner of Fedora's. *)
Definition sample_stack : str := mjoin (map (fun l => word l ++ [10]) [
  "#%PAM-1.0"; "auth     [success=done ignore=ignore default=bad] pam_selinux_permit.so";
  "auth     requisite    pam_nologin.so"; "auth     substack     password-auth";
  "account  include      password-auth"; "session  include      password-auth"]).
Definition sample_wired : str := (wire_by None (Greeter true true false) sample_stack).1.

Lemma wiring_undone_witness :
  (length (lines sample_wired) = 11)%nat /\ unwire_lines sample_wired = (sample_stack, true)
  /\ wire_by None (Greeter true true false) sample_wired = (sample_wired, false).
Proof.
  destruct (wiring_undone None (Greeter true true false) sample_stack sample_wired) as (H1 & _ & _ & H2).
  - apply (bool_decide_eq_true_1 _). vm_compute. reflexivity.
  - vm_compute. reflexivity.
  - apply (bool_decide_eq_true_1 _). vm_compute. reflexivity.
  - vm_compute. reflexivity.
  - split; [vm_compute; reflexivity|by split].
Defined.

(** ** Where the verify stanza goes *)

(** The places at or above the password step, from it up, that the stanza may
    take: the first auth line, or an auth line where no jump of another line
    then lands elsewhere. *)
Definition place_ok reader content stanza (ls : list str) (first at_ : nat) : Prop :=
  at_ = first \/ jumps_moved_by_irlume reader content (with_stanza_at stanza ls at_) = [].

Lemma find_reverse_seq (f : nat -> bool) a n k i :
  List.find f (reverse (seq a n)) = Some k -> (k < i < a + n)%nat -> f i = false.
Proof.
  revert a; induction n as [|n IH]; intros a; [done|]. rewrite seq_S, reverse_snoc. simpl.
  destruct (f (a + n)%nat) eqn:Ef; [intros [= <-]; lia|]. intros H Hi.
  destruct (decide (i = a + n)%nat) as [->|]; [done|]. apply (IH a H). lia.
Qed.

Lemma stanza_place_lowest reader content stanza ls first password at_ i l :
  stanza_place reader content stanza ls first password = Some at_ -> (at_ < i <= password)%nat -> (first < i)%nat ->
  ls !! i = Some l -> is_auth l = true -> jumps_moved_by_irlume reader content (with_stanza_at stanza ls i) <> [].
Proof.
  intros Hp Hi Hf Hl Ha Hn. unfold stanza_place in Hp. eapply (find_reverse_seq _ _ _ _ i) in Hp; [|lia].
  cbv beta in Hp. rewrite Hl, Ha, Hn in Hp. done.
Qed.

(** The verify stanza goes as low as it can: a text without an auth line is
    left alone; otherwise the stanza goes above an auth line, no lower than
    the password step and no higher than the first auth line, so that every
    line above its place keeps running first; below the first auth line only
    where no jump of another line then lands elsewhere, and there is no such
    place between it and the password step. *)
Theorem verify_stanza_placed reader content stanza :
  let ls := lines content in
  match position is_auth ls with
  | None => insert_verify_stanza reader content stanza = (content, false)
  | Some first =>
      let password := match position is_password_step ls with Some at_ => Nat.max at_ first | None => first end in
      exists at_, insert_verify_stanza reader content stanza = (with_stanza_at stanza ls at_, true)
        /\ (first <= at_ <= password)%nat /\ (exists l, ls !! at_ = Some l /\ is_auth l = true)
        /\ place_ok reader content stanza ls first at_
        /\ forall i l, (at_ < i <= password)%nat -> ls !! i = Some l -> is_auth l = true ->
             jumps_moved_by_irlume reader content (with_stanza_at stanza ls i) <> []
  end.
Proof.
  cbv zeta. unfold insert_verify_stanza. destruct (position is_auth (lines content)) as [first|] eqn:Ef; [|done].
  set (password := match position is_password_step (lines content) with Some at_ => Nat.max at_ first | None => first end).
  assert (Hfp : (first <= password)%nat) by (unfold password; destruct (position is_password_step _); lia).
  apply position_Some in Ef as [(l0 & Hl0 & Ha0) _].
  destruct (stanza_place reader content stanza (lines content) first password) as [at_|] eqn:Ep; simpl.
  - pose proof (place_is_line _ _ _ _ _ _ _ Ep) as (Hb & Hl & Hj). exists at_. split_and!; [done|lia|lia|done|by right|].
    intros i l Hi Hli Ha Hn. eapply stanza_place_lowest; try done. lia.
  - exists first. split_and!; [done|lia|lia|by exists l0|by left|].
    intros i l Hi Hli Ha Hn. unfold stanza_place in Ep. eapply find_none in Ep; [|].
    { revert Ep. rewrite Hli, Ha, Hn. done. }
    apply list_elem_of_In. rewrite elem_of_reverse, elem_of_seq. lia.
Qed.
