(* ===== verification/PamOverrideTheory.v ===== *)
(** * Overrides: the places of irlume's lines, and the header

    Holding the place of irlume's lines with inactive ones, and filling the
    places again, moves no numeric jump of any other line; and the header of an
    override says whether anybody but irlume changed it. *)

From S2P Require Import Prelude Text Ordering PamGrammar PamLines PamOverrides PamWiring PamJumpTheory PamWiringTheory.
Import grammar.

#[local] Opaque word TYPES.



(** ** Places *)

(** Two lines that take the same place: the same line, or two of irlume's for
    the same job, each of which loads a module. *)
Definition of_ours (l : str) : Prop := is_irlume_line l = true /\ is_Some (rule l).
Definition same_place (l l' : str) : Prop := l = l' \/ (of_ours l /\ of_ours l' /\ kind l = kind l').

Lemma rule_head l : is_Some (rule l) -> exists h, head l = Some h /\ known_type h = true /\ names_stack h = false.
Proof.
  unfold rule. intros [r Hr]. destruct (head l) as [h|]; [|done]. simpl in Hr. exists h.
  destruct (known_type h); [|done]. by destruct (names_stack h).
Qed.

Lemma head_not_include l h : head l = Some h -> is_at_include l = false.
Proof.
  unfold head, is_at_include. destruct (type_field (directive l)) as [[k r]|]; [|done]. simpl.
  by destruct (eq_ignore_ascii_case k (word "@include")).
Qed.

Lemma phase_known l ph : PamOverrides.phase l = Some ph -> ph ∈ PHASES.
Proof.
  unfold PamOverrides.phase, head. destruct (type_field (directive l)) as [[k r]|]; [|done]. simpl.
  destruct (eq_ignore_ascii_case k (word "@include")); [done|]. destruct (default _ (next_field r)) as [c r'].
  intros [= <-]. simpl. destruct (List.find _ TYPES) as [p|] eqn:E; simpl.
  - apply find_some in E as [E _]. by apply list_elem_of_In in E.
  - set_solver.
Qed.

Lemma phases_no_space ph : ph ∈ PHASES -> 32 ∉ ph.
Proof.
  assert (H : forallb (fun p => bool_decide (32 ∉ p)) PHASES = true) by (vm_compute; reflexivity).
  rewrite forallb_forall in H. intros Hp%list_elem_of_In. by apply H, bool_decide_eq_true in Hp.
Qed.

Lemma same_kind_phase l l' : is_Some (rule l) -> is_Some (rule l') -> kind l = kind l' -> PamOverrides.phase l = PamOverrides.phase l' /\ job l = job l'.
Proof.
  intros (h & Hh & _)%rule_head (h' & Hh' & _)%rule_head. unfold kind, PamOverrides.phase in *. rewrite Hh, Hh'. simpl. intros Hk.
  assert (Hs : forall m x, head m = Some x -> 32 ∉ grammar.phase x).
  { intros m x Hx. apply phases_no_space, (phase_known m). unfold PamOverrides.phase. by rewrite Hx. }
  pose proof (split_once_app 32 (grammar.phase h) (job l) (Hs l h Hh)) as E1.
  pose proof (split_once_app 32 (grammar.phase h') (job l') (Hs l' h' Hh')) as E2. rewrite Hk, E2 in E1. by injection E1 as -> ->.
Qed.

(** A line of irlume's is no include. *)
Lemma ours_no_include l : is_Some (rule l) -> is_include l = false.
Proof.
  intros (h & Hh & _ & Hn)%rule_head. unfold is_include. rewrite (head_not_include l h Hh), Hh. simpl.
  unfold names_stack in Hn. by apply orb_false_iff in Hn as [-> _].
Qed.

Lemma same_place_key l l' : same_place l l' -> line_key l = line_key l'.
Proof. intros [->|([Hl _] & [Hl' _] & Hk)]; [done|]. unfold line_key. by rewrite Hl, Hl', Hk. Qed.
Lemma same_place_include l l' : same_place l l' -> is_include l = is_include l'.
Proof. intros [->|([_ Hl] & [_ Hl'] & _)]; [done|]. by rewrite !ours_no_include. Qed.
Lemma same_place_chain l l' ph : same_place l l' -> in_chain l ph = in_chain l' ph.
Proof.
  intros [->|([_ Hl] & [_ Hl'] & Hk)]; [done|]. destruct (same_kind_phase l l' Hl Hl' Hk) as [Hp _].
  unfold in_chain. rewrite Hp. destruct (rule_head l Hl) as (h & Hh & _), (rule_head l' Hl') as (h' & Hh' & _).
  by rewrite (head_not_include l h Hh), (head_not_include l' h' Hh').
Qed.

(** Jumps are counted from one. *)
Lemma jumps_in_lookup by_ ps k n : forall at_, (k, n) ∈ jumps_in by_ at_ ps -> (k, Action.Jump n) ∈ ps.
Proof.
  induction ps as [|[v a] ps IH]; intros at_; simpl; [by intros ?%elem_of_nil|]. rewrite elem_of_app, elem_of_cons. intros [H|H].
  - left. destruct a; try by apply elem_of_nil in H. case_bool_decide; [|by apply elem_of_nil in H].
    apply list_elem_of_singleton in H. congruence.
  - right. by eapply IH.
Qed.
Lemma actions_positive l k n : (k, n) ∈ line_actions l -> 0 <= n.
Proof.
  unfold line_actions, numeric_actions. destruct (head l) as [h|]; [|by intros ?%elem_of_nil].
  case_match; [by intros ?%elem_of_nil|]. unfold control_pairs, control_pairs_at.
  destruct (pairs_from _ _ _) as [ps|] eqn:E; simpl; [|by intros ?%elem_of_nil].
  apply pairs_from_inv in E as (gs & bl & _ & Hgs & _ & ->). intros Hin%jumps_in_lookup. rewrite plain_pairs in Hin.
  apply list_elem_of_fmap in Hin as (g & Hg & Hin). rewrite list.Forall_forall in Hgs. apply Hgs in Hin as (_ & _ & _ & _ & Ha).
  unfold seg_pair in Hg. injection Hg as _ Hg. rewrite <- Hg in Ha. simpl in Ha. lia.
Qed.

Section Chains.
Context (ch ch' : list str) (same : Forall2 same_place ch ch').

Lemma same_keys ls ls' : Forall2 same_place ls ls' -> map line_key ls = map line_key ls'.
Proof. induction 1 as [|l l' ls ls' H _ IH]; simpl; [done|]. by rewrite (same_place_key l l' H), IH. Qed.

Lemma same_skipped at_ n : Forall2 same_place (skipped_lines ch at_ n) (skipped_lines ch' at_ n).
Proof. unfold skipped_lines. rewrite (list.Forall2_length _ _ _ same). by apply list.Forall2_take, list.Forall2_drop. Qed.

Lemma same_occurrence at_ : (at_ < length ch)%nat -> occurrence ch at_ = occurrence ch' at_.
Proof.
  intros Hlt. unfold occurrence. destruct (lookup_lt_is_Some_2 ch at_ Hlt) as [l Hl].
  destruct (list.Forall2_lookup_l _ _ _ _ _ same Hl) as (l' & Hl' & Hs). rewrite Hl, Hl'. simpl.
  rewrite (same_place_key l l' Hs). f_equal.
  pose proof (list.Forall2_take _ _ _ (S at_) same) as Ht. revert Ht. generalize (take (S at_) ch) (take (S at_) ch'). intros a b.
  induction 1 as [|x y a b Hx _ IH]; simpl; [done|]. rewrite (same_place_key x y Hx). case_bool_decide; simpl; by rewrite IH.
Qed.

Lemma same_landing at_ n : 0 <= n -> landing_of ch at_ n = landing_of ch' at_ n.
Proof.
  intros Hn. unfold landing_of. rewrite <- (list.Forall2_length _ _ _ same), (same_keys _ _ (same_skipped at_ n)).
  assert (Hex : existsb is_include (skipped_lines ch at_ n) = existsb is_include (skipped_lines ch' at_ n)).
  { generalize (same_skipped at_ n). generalize (skipped_lines ch at_ n) (skipped_lines ch' at_ n). intros a b.
    induction 1 as [|x y a b Hx _ IH]; simpl; [done|]. by rewrite (same_place_include x y Hx), IH. }
  rewrite Hex. destruct (Z.ltb_spec (Z.of_nat at_ + n + 1) (Z.of_nat (length ch))); cbn [option_map fmap option_fmap]; [|done].
  unfold fmap, option_fmap, option_map. by rewrite same_occurrence by lia.
Qed.

Lemma same_rows ph ls ls' : Forall2 same_place ls ls' -> forall at_ seen, jump_rows ph ch at_ seen ls = jump_rows ph ch' at_ seen ls'.
Proof.
  induction 1 as [|l l' ls ls' H _ IH]; intros at_ seen; simpl; [done|]. destruct H as [<-|([Hl _] & [Hl' _] & _)].
  - case_match; [apply IH|]. rewrite IH. f_equal. apply map_ext_in. intros [k n] Hin.
    assert (0 <= n) by (apply (actions_positive l k), list_elem_of_In, Hin).
    by rewrite (same_landing at_ n), (same_keys _ _ (same_skipped at_ n)) by done.
  - rewrite Hl, Hl'. simpl. apply IH.
Qed.
End Chains.

(** Texts whose lines take the same places have the same jumps. *)
Lemma same_jumps a b : Forall2 same_place (lines a) (lines b) -> jumps a = jumps b.
Proof.
  intros H. unfold jumps. f_equal. apply map_ext. intros ph.
  assert (Hc : Forall2 same_place (chain a ph) (chain b ph)).
  { unfold chain. clear - H. induction H as [|x y la lb Hx _ IH]; simpl; [constructor|]. rewrite (same_place_chain x y ph Hx).
    case_match; [by constructor|done]. }
  by apply same_rows.
Qed.

(** ** The lines that hold places *)

(** A job that is one word of visible ASCII, or none. *)
Definition plain_job (j : str) : Prop := Forall (fun c => 33 <= c <= 126) j.
#[export] Instance plain_job_dec j : Decision (plain_job j).
Proof. unfold plain_job. apply _. Defined.

Lemma split_ws_word j : forall fuel cur, (length j < fuel)%nat -> plain_job j -> reverse cur ++ j <> [] -> split_ws fuel cur j = [reverse cur ++ j].
Proof.
  induction j as [|c j IH]; intros [|fuel] cur Hf Hj Hn; cbn [length] in Hf; try lia.
  - rewrite app_nil_r in *. cbn [split_ws]. destruct cur as [|x cur]; [done|done].
  - apply list.Forall_cons in Hj as [Hc Hj]. cbn [split_ws]. rewrite ws_prefix_graphic by done. rewrite IH by (lia || done || (rewrite reverse_cons, <- app_assoc; by destruct (reverse cur))).
    by rewrite reverse_cons, <- app_assoc.
Qed.
Lemma first_word j : j <> [] -> plain_job j -> split_whitespace (32 :: j) !! 0%nat = Some j.
Proof.
  intros Hn Hj. unfold split_whitespace. change (split_ws (S (length (32 :: j))) [] (32 :: j)) with (split_ws (S (length j)) [] j).
  by rewrite (split_ws_word j (S (length j)) []) by (lia || done).
Qed.

(** What an inactive line is before its job is written. *)
Definition bare_inert (ph : str) : str := inert_line ph [] ++ [32].

#[local] Transparent word TYPES.
Lemma inert_head ph j : ph ∈ PHASES -> j <> [] ->
  inert_of (ph ++ 32 :: j) = bare_inert ph ++ j /\ directive (bare_inert ph ++ j) = directive (bare_inert ph)
  /\ contains INERT_TAG (bare_inert ph ++ j) = true /\ after_first INERT_TAG (bare_inert ph ++ j) = Some (32 :: j).
Proof.
  intros Hp Hj. destruct j as [|c j]; [done|]. unfold PHASES in Hp. cbn [map] in Hp.
  repeat (apply elem_of_cons in Hp as [->|Hp]; [split_and!; vm_compute; reflexivity|]). by apply elem_of_nil in Hp.
Qed.

Definition bare_good (ph l : str) : bool :=
  rule_names_module l (word "pam_permit.so") && bool_decide (irlume_rule l = None) && bool_decide (clean l) && bool_decide (0 ∉ l)
  && bool_decide (PamOverrides.phase l = Some ph)
  && bool_decide ((head l ≫= fun h => control_actions (control h)) = Some (replicate 32 Action.Ignore)).
Lemma bare_all : forallb (fun ph => bare_good ph (bare_inert ph) && bare_good ph (inert_of (ph ++ [32])) && contains INERT_TAG (inert_of (ph ++ [32])) && bool_decide (kind (inert_of (ph ++ [32])) = ph ++ [32])) PHASES = true.
Proof. vm_compute. reflexivity. Qed.
#[local] Opaque word TYPES.

Definition is_rule (l : str) : bool := bool_decide (is_Some (irlume_rule l)).
(** The jobs of the rules of a text for irlume's module are plain words, as
    those its recipes write are. *)
Definition known_jobs (ls : list str) : Prop := Forall (fun l => is_rule l = true -> plain_job (job l)) ls.
#[export] Instance known_jobs_dec ls : Decision (known_jobs ls).
Proof. unfold known_jobs. apply _. Defined.
(** A text of whole lines, none of which holds a NUL or ends in a carriage
    return. *)
Definition readable (c : str) : Prop :=
  unlines (lines c) = c /\ lines c <> [] /\ Forall clean (lines c) /\ Forall (fun l => 0 ∉ l) (lines c).
#[export] Instance readable_dec c : Decision (readable c).
Proof. unfold readable. apply _. Defined.

Lemma before_absent c l : c ∉ l -> before c l = l.
Proof. intros H. rewrite <- (app_nil_r l) at 1. rewrite before_app; [apply app_nil_r|]. apply list.Forall_forall. by intros x Hx ->. Qed.

Lemma rule_of_ours l : 0 ∉ l -> is_irlume_line l = true -> is_Some (rule l).
Proof.
  intros H0. unfold is_irlume_line, irlume_rule, rule_names_module. rewrite before_absent by done.
  destruct (rule l); [by eexists|]. simpl. done.
Qed.
Lemma ours_of_rule l : 0 ∉ l -> is_rule l = true -> is_irlume_line l = true.
Proof. intros H0 Hr. unfold is_irlume_line. rewrite before_absent by done. unfold is_rule in Hr. by rewrite Hr. Qed.

Lemma same_directive l m : directive l = directive m -> head l = head m /\ rule l = rule m /\ irlume_rule l = irlume_rule m.
Proof. intros H. assert (Hh : head l = head m) by (unfold head; by rewrite H). unfold irlume_rule, rule. by rewrite Hh. Qed.

Lemma permit_ours l : 0 ∉ l -> rule_names_module l (word "pam_permit.so") = true -> contains INERT_TAG l = true -> is_irlume_line l = true.
Proof. intros H0 H1 H2. unfold is_irlume_line. rewrite before_absent, H1, H2 by done. by rewrite !orb_true_r. Qed.
Lemma named_rule l m : rule_names_module l m = true -> is_Some (rule l).
Proof. unfold rule_names_module. by destruct (rule l). Qed.

(** The inactive line of a phase and a job. *)
Lemma inert_line_good ph j : ph ∈ PHASES -> plain_job j ->
  let i := inert_of (ph ++ 32 :: j) in
  of_ours i /\ is_rule i = false /\ kind i = ph ++ 32 :: j /\ clean i /\ (0 ∉ i)
  /\ (head i ≫= fun h => control_actions (control h)) = Some (replicate 32 Action.Ignore).
Proof.
  intros Hp Hj i. pose proof bare_all as Ha. rewrite forallb_forall in Ha. pose proof Hp as Hb%list_elem_of_In%Ha.
  unfold bare_good in Hb. rewrite !andb_true_iff, !bool_decide_eq_true in Hb.
  destruct Hb as ((((((((R1 & I1) & C1) & Z1) & P1) & A1) & (((((R2 & I2) & C2) & Z2) & P2) & A2)) & T2) & K2).
  unfold is_rule. destruct (decide (j = [])) as [->|Hn].
  - subst i. split_and!; [split; [by apply permit_ours|by eapply named_rule]|by rewrite I2|done|done|done|done].
  - destruct (inert_head ph j Hp Hn) as (E & D & T & F). subst i. rewrite E. destruct (same_directive _ _ D) as (Dh & Dr & Di).
    assert (R : rule_names_module (bare_inert ph ++ j) (word "pam_permit.so") = true) by (unfold rule_names_module in *; by rewrite Dr).
    assert (Habs : forall c, c < 33 -> c ∉ j). { intros c Hc Hin. unfold plain_job in Hj. rewrite list.Forall_forall in Hj. apply Hj in Hin. lia. }
    assert (Z : 0 ∉ bare_inert ph ++ j) by (rewrite elem_of_app; intros [?|Hin]; [done|revert Hin; by apply Habs]).
    split_and!; [split; [by apply permit_ours|by eapply named_rule]|by rewrite Di, I1| | |done|by rewrite Dh].
    + unfold kind, job. rewrite F. cbv iota beta. rewrite first_word by done. unfold PamOverrides.phase in *. rewrite Dh, P1. done.
    + split; [destruct C1 as [C1 _]; rewrite elem_of_app; intros [?|Hin]; [done|revert Hin; by apply Habs]|].
      intros Hl. assert (Hin : 13 ∈ j); [|by apply (Habs 13)]. destruct j as [|c j] using rev_ind; [done|]. rewrite app_assoc, last_snoc in Hl.
      injection Hl as ->. rewrite elem_of_app. right. by left.
Qed.

Lemma inert_for l : is_Some (rule l) -> plain_job (job l) ->
  let i := inert_of (kind l) in
  of_ours i /\ is_rule i = false /\ kind i = kind l /\ clean i /\ 0 ∉ i.
Proof.
  intros (h & Hh & _)%rule_head Hj i. assert (Hp : grammar.phase h ∈ PHASES).
  { apply (phase_known l). unfold PamOverrides.phase. by rewrite Hh. }
  assert (Hk : kind l = grammar.phase h ++ 32 :: job l) by (unfold kind, PamOverrides.phase; by rewrite Hh).
  destruct (inert_line_good (grammar.phase h) (job l) Hp Hj) as (? & ? & ? & ? & ? & _). subst i. rewrite Hk. by split_and!.
Qed.

Lemma inert_same l : is_irlume_line l = true -> is_Some (rule l) -> plain_job (job l) -> same_place l (inert_of (kind l)).
Proof. intros Ho Hr Hj. destruct (inert_for l Hr Hj) as (J1 & _ & J3 & _). right. split; [by split|]. split; [exact J1|by symmetry]. Qed.
#[local] Opaque inert_of kind.

Lemma lines_readable c : readable c -> lines c <> [] /\ Forall clean (lines c) /\ Forall (fun l => 0 ∉ l) (lines c).
Proof. by intros (_ & ?). Qed.
Lemma unlines_readable ls : ls <> [] -> Forall clean ls -> Forall (fun l => 0 ∉ l) ls -> readable (unlines ls).
Proof. intros Hn Hc H0. unfold readable. by rewrite lines_unlines. Qed.

(** Two texts whose lines take the same places. *)
Lemma same_place_foreign ls ls' : Forall2 same_place ls ls' -> List.filter foreign ls = List.filter foreign ls'.
Proof.
  induction 1 as [|l l' ls ls' H _ IH]; simpl; [done|]. destruct H as [<-|([Hl _] & [Hl' _] & _)]; [by rewrite IH|].
  unfold foreign in *. by rewrite Hl, Hl', IH.
Qed.

Lemma same_text a ls : Forall2 same_place (lines a) ls -> lines a <> [] -> Forall clean ls ->
  lines (unlines ls) = ls /\ jumps (unlines ls) = jumps a /\ base (unlines ls) = base a
  /\ map line_key (lines (unlines ls)) = map line_key (lines a).
Proof.
  intros H Hn Hc. assert (Hl : lines (unlines ls) = ls). { apply lines_unlines; [|done]. intros ->. by inversion H as [E|]. }
  split_and!; [done| | |].
  - symmetry. apply same_jumps. by rewrite Hl.
  - unfold base, unwire_lines. simpl. rewrite Hl. f_equal. symmetry. by apply same_place_foreign.
  - rewrite Hl. symmetry. by apply same_keys.
Qed.

Definition hold (l : str) : str := if is_rule l then inert_of (kind l) else l.

Lemma hold_places ls : Forall (fun l => 0 ∉ l) ls -> Forall clean ls -> known_jobs ls ->
  Forall2 same_place ls (map hold ls) /\ Forall clean (map hold ls) /\ Forall (fun l => is_rule l = false) (map hold ls)
  /\ Forall (fun l => 0 ∉ l) (map hold ls).
Proof.
  unfold known_jobs. induction ls as [|l ls IH]; simpl; [by repeat constructor|]. intros [H0 H0']%list.Forall_cons [Hc Hc']%list.Forall_cons [Hj Hj']%list.Forall_cons.
  destruct (IH H0' Hc' Hj') as (I1 & I2 & I3 & I4). unfold hold at 1 3 5 7. destruct (is_rule l) eqn:Er.
  - pose proof (ours_of_rule l H0 Er) as Ho. pose proof (rule_of_ours l H0 Ho) as Hr.
    pose proof (inert_same l Ho Hr (Hj eq_refl)). destruct (inert_for l Hr (Hj eq_refl)) as (_ & J2 & _ & J4 & J5). split_and!; by constructor.
  - split_and!; constructor; try done. by left.
Qed.

(** ** Filling *)

#[export] Instance filter_perm {A} (f : A -> bool) : Proper ((≡ₚ) ==> (≡ₚ)) (List.filter f).
Proof. intros a b. induction 1; simpl; repeat case_match; try done; by econstructor. Qed.
#[export] Instance map_perm {A B} (f : A -> B) : Proper ((≡ₚ) ==> (≡ₚ)) (map f).
Proof. intros a b. apply Permutation_map. Qed.

Lemma fill_places ls : forall wanted out rest,
  Forall (fun l => 0 ∉ l) ls -> Forall clean ls -> known_jobs ls ->
  Forall (fun w : str * str => of_ours w.2 /\ w.1 = kind w.2 /\ clean w.2 /\ 0 ∉ w.2) wanted ->
  fill wanted ls = (out, rest) ->
  Forall2 same_place ls out /\ Forall clean out
  /\ (List.filter is_rule out ++ List.filter is_rule (map snd rest) ≡ₚ List.filter is_rule (map snd wanted)).
Proof.
  unfold known_jobs. induction ls as [|l ls IH]; simpl; intros wanted out rest.
  - intros _ _ _ _ [= <- <-]. split_and!; [constructor|constructor|done].
  - intros [H0 H0']%list.Forall_cons [Hc Hc']%list.Forall_cons [Hj Hj']%list.Forall_cons Hw.
    destruct (is_irlume_line l) eqn:Eo; simpl.
    + pose proof (rule_of_ours l H0 Eo) as Hr. destruct (position _ wanted) as [at_|] eqn:Ep.
      * apply position_Some in Ep as [(w & Hat & Hk) _]. apply bool_decide_eq_true in Hk. rewrite Hat. simpl.
        destruct (fill (delete at_ wanted) ls) as [out' rest'] eqn:Ef. intros [= <- <-].
        pose proof (delete_Permutation _ _ _ Hat) as Hp. rewrite Hp in Hw. apply list.Forall_cons in Hw as [(W1 & W2 & W3 & W4) Hw].
        destruct (IH _ _ _ H0' Hc' Hj' Hw Ef) as (I1 & I2 & I3).
        assert (Hs : same_place l w.2) by (right; split; [by split|split; [done|by rewrite <- W2]]).
        split_and!; [by constructor|by constructor|].
        rewrite Hp. simpl. destruct (is_rule w.2); simpl; by rewrite I3.
      * destruct (fill wanted ls) as [out' rest'] eqn:Ef. intros [= <- <-]. destruct (IH _ _ _ H0' Hc' Hj' Hw Ef) as (I1 & I2 & I3).
        change (bool_decide (is_Some (irlume_rule l))) with (is_rule l). destruct (is_rule l) eqn:Er.
        -- pose proof (inert_same l Eo Hr (Hj eq_refl)). destruct (inert_for l Hr (Hj eq_refl)) as (_ & J2 & _ & J4 & _). simpl. rewrite J2.
           split_and!; [by constructor|by constructor|done].
        -- simpl. rewrite Er. split_and!; [constructor; [by left|done]|by constructor|done].
    + destruct (fill wanted ls) as [out' rest'] eqn:Ef. intros [= <- <-]. destruct (IH _ _ _ H0' Hc' Hj' Hw Ef) as (I1 & I2 & I3).
      assert (Er : is_rule l = false) by (destruct (is_rule l) eqn:Er; [apply ours_of_rule in Er; congruence|done]).
      simpl. rewrite Er. split_and!; [constructor; [by left|done]|by constructor|done].
Qed.

Definition wanted_of (ls : list str) : list (str * str) := map (fun l => (kind l, l)) (List.filter is_irlume_line ls).

Lemma wanted_good ls : Forall (fun l => 0 ∉ l) ls -> Forall clean ls ->
  Forall (fun w : str * str => of_ours w.2 /\ w.1 = kind w.2 /\ clean w.2 /\ 0 ∉ w.2) (wanted_of ls).
Proof.
  unfold wanted_of. induction ls as [|l ls IH]; simpl; [by constructor|].
  intros [H0 H0']%list.Forall_cons [Hc Hc']%list.Forall_cons. destruct (is_irlume_line l) eqn:E; simpl; [|by apply IH].
  constructor; [|by apply IH]. simpl. split; [split; [done|by apply rule_of_ours]|done].
Qed.
Lemma wanted_rules ls : Forall (fun l => 0 ∉ l) ls -> List.filter is_rule (map snd (wanted_of ls)) = List.filter is_rule ls.
Proof.
  unfold wanted_of. induction 1 as [|l ls H0 _ IH]; simpl; [done|]. destruct (is_irlume_line l) eqn:E; simpl; [by rewrite IH|].
  destruct (is_rule l) eqn:Er; [|done]. apply ours_of_rule in Er; [congruence|done].
Qed.

(** Filling held places with the lines that were there. *)
Lemma held_line l : 0 ∉ l -> (is_rule l = true -> plain_job (job l)) ->
  is_irlume_line (hold l) = is_irlume_line l /\ (is_irlume_line l = true -> kind (hold l) = kind l).
Proof.
  intros H0 Hj. unfold hold. destruct (is_rule l) eqn:Er; [|done]. pose proof (ours_of_rule l H0 Er) as Ho.
  destruct (inert_for l (rule_of_ours l H0 Ho) (Hj eq_refl)) as ([J1 _] & _ & J3 & _). by rewrite J1, Ho.
Qed.
Lemma hold_foreign l : 0 ∉ l -> is_irlume_line l = false -> hold l = l.
Proof. intros H0 Ho. unfold hold. destruct (is_rule l) eqn:Er; [|done]. apply ours_of_rule in Er; congruence. Qed.
#[local] Opaque hold.

Lemma fill_held ls : Forall (fun l => 0 ∉ l) ls -> known_jobs ls -> fill (wanted_of ls) (map hold ls) = (ls, []).
Proof.
  unfold known_jobs, wanted_of. intros H0 Hj. induction ls as [|l ls IH]; [done|].
  apply list.Forall_cons in H0 as [H0 H0'], Hj as [Hj Hj']. destruct (held_line l H0 Hj) as [Ho Hk].
  cbn [map fill List.filter]. rewrite Ho. destruct (is_irlume_line l) eqn:Eo; cbn [negb].
  - rewrite (Hk eq_refl). cbn [map position fst]. rewrite bool_decide_eq_true_2 by done.
    cbn. by rewrite IH.
  - rewrite IH by done. by rewrite hold_foreign.
Qed.

(** [fill_slots] as a whole. *)
Lemma fill_spec body wired filled :
  readable body -> readable wired -> known_jobs (lines body) ->
  fill_slots body wired = Some filled ->
  (List.filter is_rule (lines filled) ≡ₚ List.filter is_rule (lines wired))
  /\ map line_key (lines filled) = map line_key (lines body)
  /\ jumps filled = jumps body
  /\ base filled = base body.
Proof.
  intros Hb Hw Hj. destruct (lines_readable body Hb) as (Hn & Hc & H0), (lines_readable wired Hw) as (_ & Hcw & H0w).
  unfold fill_slots. change (map (fun l => (kind l, l)) (List.filter is_irlume_line (lines wired))) with (wanted_of (lines wired)).
  destruct (fill (wanted_of (lines wired)) (lines body)) as [out rest] eqn:Ef. case_bool_decide as Hr; [|done]. subst rest. intros [= <-].
  destruct (fill_places _ _ _ _ H0 Hc Hj (wanted_good _ H0w Hcw) Ef) as (P1 & P2 & P3).
  destruct (same_text body out P1 Hn P2) as (T1 & T2 & T3 & T4). split_and!; try done.
  rewrite T1, <- (wanted_rules (lines wired) H0w), <- P3. simpl. by rewrite app_nil_r.
Qed.
