(* ===== verification/PamOverrideClaims.v ===== *)
(** * What an override promises

    Holding the places of irlume's lines and filling them again; and what the
    header of an override says of the edits made to it. *)

From S2P Require Import Prelude Text Ordering PamGrammar PamLines PamOverrides PamWiring PamJumpTheory PamWiringTheory PamOverrideTheory.
Import grammar.

#[local] Opaque word TYPES inert_of kind.

Lemma neutralize_hold body : neutralize body = unlines (map hold (lines body)).
Proof. reflexivity. Qed.

(** Stepping aside: in a text irlume wired, the lines that load its module
    become inactive ones, and nothing else changes.  No rule for the module is
    left, every line takes the place it took and the numeric jumps of all other
    lines land where they landed, irlume's lines taken out give the same text,
    and filling the places with the wired text's lines gives it back byte for
    byte. *)
Theorem stepping_aside_undone body :
  readable body -> known_jobs (lines body) ->
  content_has_module (neutralize body) = false
  /\ map line_key (lines (neutralize body)) = map line_key (lines body)
  /\ jumps (neutralize body) = jumps body
  /\ base (neutralize body) = base body
  /\ fill_slots (neutralize body) body = Some body.
Proof.
  intros Hr Hj. destruct (lines_readable body Hr) as (Hn & Hc & H0). rewrite neutralize_hold.
  destruct (hold_places (lines body) H0 Hc Hj) as (P1 & P2 & P3 & _).
  destruct (same_text body (map hold (lines body)) P1 Hn P2) as (T1 & T2 & T3 & T4). split_and!; try done.
  - unfold content_has_module. rewrite T1. clear - P3. induction P3 as [|l ls Hl _ IH]; [done|]. simpl. by apply orb_false_iff.
  - unfold fill_slots. rewrite T1. change (map (fun l => (kind l, l)) (List.filter is_irlume_line (lines body))) with (wanted_of (lines body)).
    rewrite fill_held by done. rewrite bool_decide_eq_true_2 by done. f_equal. apply Hr.
Qed.

Lemma stepping_aside_undone_witness :
  content_has_module sample_wired = true /\ content_has_module (neutralize sample_wired) = false
  /\ jumps (neutralize sample_wired) = jumps sample_wired /\ fill_slots (neutralize sample_wired) sample_wired = Some sample_wired.
Proof.
  split; [vm_compute; reflexivity|]. destruct (stepping_aside_undone sample_wired) as (H1 & _ & H3 & _ & H5).
  - apply (bool_decide_eq_true_1 _). vm_compute. reflexivity.
  - apply (bool_decide_eq_true_1 _). vm_compute. reflexivity.
  - exact (conj H1 (conj H3 H5)).
Defined.

(** Filling: when the places of irlume's lines in a text take the lines of
    the recipe's output, the rules for the module in the result are those of
    the output, each once; every line takes the place it took, no numeric jump
    of another line moves, and irlume's lines taken out give the same text. *)
Theorem filling_exact body wired filled :
  readable body -> readable wired -> known_jobs (lines body) ->
  fill_slots body wired = Some filled ->
  (List.filter is_rule (lines filled) ≡ₚ List.filter is_rule (lines wired))
  /\ map line_key (lines filled) = map line_key (lines body)
  /\ jumps filled = jumps body
  /\ base filled = base body.
Proof. apply fill_spec. Qed.

Lemma filling_exact_witness :
  exists filled, fill_slots (neutralize sample_wired) sample_wired = Some filled
    /\ (List.filter is_rule (lines filled) ≡ₚ List.filter is_rule (lines sample_wired))
    /\ jumps filled = jumps (neutralize sample_wired).
Proof.
  exists sample_wired. assert (H : fill_slots (neutralize sample_wired) sample_wired = Some sample_wired) by (vm_compute; reflexivity).
  split; [exact H|]. destruct (filling_exact (neutralize sample_wired) sample_wired sample_wired) as (H1 & _ & H3 & _).
  - apply (bool_decide_eq_true_1 _). vm_compute. reflexivity.
  - apply (bool_decide_eq_true_1 _). vm_compute. reflexivity.
  - apply (bool_decide_eq_true_1 _). vm_compute. reflexivity.
  - exact H.
  - exact (conj H1 H3).
Defined.
