(* ===== verification/PamHeaderTheory.v ===== *)
(** * The header of an override

    [parse] reads back what [render] and [keep_header] write, and [classify]
    tells from the two digests who changed what. *)

From S2P Require Import Prelude Text Ordering PamGrammar PamLines PamOverrides PamWiring PamWiringTheory PamOverrideTheory.
Import grammar.

Lemma existsb_none {A} (f : A -> bool) l : Forall (fun x => f x = false) l -> existsb f l = false.
Proof. induction 1 as [|x l Hx _ IH]; simpl; [done|]. by rewrite Hx. Qed.

(** ** The tracking line *)

Definition V1 : str := word "v1".
Definition VENDOR_KEY : str := word "vendor-sha256=".
Definition BODY_KEY : str := word "body-sha256=".

Lemma tracking_fields vs bs :
  tracking_line vs bs = OVERRIDE_TRACK_PREFIX ++ V1 ++ 32 :: (VENDOR_KEY ++ vs) ++ 32 :: (BODY_KEY ++ bs).
Proof.
  unfold tracking_line. rewrite <- !app_assoc. reflexivity.
Qed.

Lemma hex_plain s : is_sha256_hex s = true -> Forall (fun c => 48 <= c) s.
Proof.
  intros [_ H]%andb_true_iff. rewrite forallb_forall in H. apply list.Forall_forall. intros c Hc%list_elem_of_In%H.
  apply orb_true_iff in Hc as [Hc|Hc]; [|apply bool_decide_eq_true in Hc; lia]. unfold is_ascii_digit in Hc.
  apply bool_decide_eq_true in Hc. lia.
Qed.
Lemma hex_absent s c : is_sha256_hex s = true -> c < 48 -> c ∉ s.
Proof. intros H%hex_plain Hc Hin. rewrite list.Forall_forall in H. apply H in Hin. lia. Qed.

Lemma absent_app (c : Z) (a b : str) : c ∉ a -> c ∉ b -> c ∉ a ++ b.
Proof. rewrite elem_of_app. tauto. Qed.
(** [c] is in none of the constants of the header. *)
Definition absent (c : Z) : bool := forallb (fun w => bool_decide (c ∉ w)) [OVERRIDE_TRACK_PREFIX; 32 :: V1; VENDOR_KEY; BODY_KEY].

Lemma tracking_absent c vs bs : absent c = true -> c < 48 -> c <> 32 -> is_sha256_hex vs = true -> is_sha256_hex bs = true ->
  c ∉ tracking_line vs bs.
Proof.
  unfold absent. intros Ha Hc H32 Hv Hb. simpl in Ha. rewrite !andb_true_iff, !bool_decide_eq_true in Ha.
  destruct Ha as (A1 & A2 & A3 & A4 & _). rewrite tracking_fields. pose proof (hex_absent vs c Hv Hc). pose proof (hex_absent bs c Hb Hc).
  rewrite not_elem_of_cons in A2. destruct A2 as [_ A2].
  repeat (assumption || apply absent_app || (apply not_elem_of_cons; split)).
Qed.

Lemma tracking_clean vs bs : is_sha256_hex vs = true -> is_sha256_hex bs = true -> clean (tracking_line vs bs).
Proof.
  intros Hv Hb. split; [|intros Hl%last_Some_elem_of; revert Hl]; by apply tracking_absent.
Qed.

Lemma tracking_comment vs bs : directive (tracking_line vs bs) = [].
Proof. rewrite tracking_fields. generalize (V1 ++ 32 :: (VENDOR_KEY ++ vs) ++ 32 :: BODY_KEY ++ bs). reflexivity. Qed.

Lemma tracking_is vs bs : is_tracking_line (tracking_line vs bs) = true.
Proof.
  rewrite tracking_fields. unfold is_tracking_line. rewrite strip_prefix_app.
  generalize ((VENDOR_KEY ++ vs) ++ 32 :: BODY_KEY ++ bs). reflexivity.
Qed.

Lemma tracking_read vs bs : is_sha256_hex vs = true -> is_sha256_hex bs = true -> parse_v1 (tracking_line vs bs) = Some (vs, bs).
Proof.
  intros Hv Hb. rewrite tracking_fields. unfold parse_v1. rewrite strip_prefix_app. cbn [mbind option_bind].
  assert (S1 : 32 ∉ VENDOR_KEY) by (apply (bool_decide_eq_true_1 _); vm_compute; reflexivity).
  assert (S2 : 32 ∉ BODY_KEY) by (apply (bool_decide_eq_true_1 _); vm_compute; reflexivity).
  assert (S0 : 32 ∉ V1) by (apply (bool_decide_eq_true_1 _); vm_compute; reflexivity).
  rewrite (split_at_app 32 V1 _ S0), (split_at_app 32 (VENDOR_KEY ++ vs)), (split_at_none 32 (BODY_KEY ++ bs)).
  2, 3: apply absent_app; [assumption|by apply hex_absent].
  change (word "v1") with V1. rewrite (bool_decide_eq_true_2 (V1 = V1)) by done. simpl negb. cbv iota.
  change (word "vendor-sha256=") with VENDOR_KEY. change (word "body-sha256=") with BODY_KEY.
  rewrite !strip_prefix_app. cbn [mbind option_bind]. by rewrite Hv, Hb.
Qed.

(** ** The file *)

(** [str::split] at a line feed of a text of whole lines. *)
Lemma split_unlines ls : ls <> [] -> Forall clean ls -> split_at 10 (unlines ls) = ls ++ [[]].
Proof.
  induction ls as [|l [|m ls] IH]; intros Hn Hf; [done| |]; inversion_clear Hf as [|? ? [Hl _] Hf'].
  - unfold unlines. cbn [join_with]. by rewrite split_at_app.
  - rewrite unlines_cons, split_at_app by done. cbn [app]. f_equal. by apply IH.
Qed.

Lemma keep_all (ls : list str) : mjoin (imap ((fun i l => if bool_decide (Some (S i) = Some 1%nat) then [] else [l]) ∘ S) ls) = ls.
Proof.
  rewrite (imap_ext _ (fun _ l => [l])).
  - induction ls as [|l ls IH]; [done|]. cbn [imap mjoin list_join app]. by rewrite IH at 1.
  - intros i x _. unfold compose. cbv beta. by rewrite bool_decide_eq_false_2 by (intros [=]; lia).
Qed.

(** A text of the lines [bl]; an empty one has none. *)
Definition text_of (bl : list str) (c : str) : Prop := Forall clean bl /\ ((c = [] /\ bl = []) \/ (unlines bl = c /\ bl <> [])).

Lemma text_of_lines bl c : text_of bl c -> lines c = bl /\ split_at 10 c = bl ++ [[]].
Proof.
  intros [Hc [[-> ->]|[<- Hn]]]; [done|]. by rewrite lines_unlines, split_unlines.
Qed.

Lemma parse_file fst vs bs body :
  is_sha256_hex vs = true -> is_sha256_hex bs = true -> clean fst -> (forall r, starts_with CREATED_PREFIX (fst ++ r) = true) ->
  (exists bl, text_of bl body) ->
  PamOverrides.parse (fst ++ 10 :: tracking_line vs bs ++ 10 :: body)
  = Some (MkParsed fst (Some (tracking_line vs bs)) (Some 1%nat) (fst ++ 10 :: tracking_line vs bs ++ 10 :: body) (Some (vs, bs)) body false).
Proof.
  intros Hv Hb Hfst Hst (bl & Ht). destruct (text_of_lines bl body Ht) as [Hl Hsp]. destruct Ht as [Hc Ht]. set (text := fst ++ _).
  assert (Hls : map without_crs (lines text) = fst :: tracking_line vs bs :: bl).
  { unfold text. rewrite !lines_cons by (done || by apply tracking_clean). simpl. rewrite Hl.
    rewrite !without_crs_clean by (apply Hfst || by apply tracking_clean). do 2 f_equal.
    rewrite <- (map_id bl) at 2. apply map_ext_in. intros l Hin%list_elem_of_In. apply without_crs_clean. rewrite list.Forall_forall in Hc. by apply Hc. }
  unfold PamOverrides.parse. rewrite Hls. rewrite (Hst (10 :: tracking_line vs bs ++ 10 :: body) : starts_with CREATED_PREFIX text = true).
  cbn [negb lookup list_lookup mbind option_bind drop].
  assert (Hf : find_tracking 1 (tracking_line vs bs :: bl) = Some 1%nat).
  { cbn [find_tracking]. rewrite tracking_comment, tracking_is. reflexivity. }
  rewrite Hf. cbn [mbind option_bind lookup list_lookup]. rewrite tracking_read by done. f_equal. f_equal.
  - cbn [imap]. rewrite bool_decide_eq_true_2 by done. simpl. rewrite keep_all.
    destruct Ht as [[-> ->]|[<- Hn]]; [done|]. by destruct bl.
  - apply existsb_none. unfold text. rewrite split_at_app by apply Hfst. rewrite split_at_app, Hsp by by apply tracking_clean.
    repeat constructor; try (apply bool_decide_eq_false).
    + apply Hfst.
    + by apply tracking_clean.
    + apply list.Forall_app. split; [|by repeat constructor]. eapply list.Forall_impl; [exact Hc|]. intros l [_ Hlast]. by apply bool_decide_eq_false.
Qed.

Section Header.
Context (vendor_path : str) (path_ok : (10 ∉ vendor_path) /\ (13 ∉ vendor_path)).

Lemma created_comment : directive (created_line vendor_path) = [].
Proof. unfold created_line. generalize (vendor_path ++ word "; delete this file to restore the vendor copy"). reflexivity. Qed.

Definition TAIL : str := word "; delete this file to restore the vendor copy".
Lemma created_absent c : bool_decide (c ∉ CREATED_PREFIX) && bool_decide (c ∉ TAIL) = true -> c ∉ vendor_path -> c ∉ created_line vendor_path.
Proof.
  rewrite andb_true_iff, !bool_decide_eq_true. intros [H1 H2] Hp. unfold created_line. change (word _) with TAIL.
  by repeat apply absent_app.
Qed.
Lemma created_clean : clean (created_line vendor_path).
Proof. split; [|intros Hl%last_Some_elem_of; revert Hl]; apply created_absent; try apply path_ok; vm_compute; reflexivity. Qed.
Lemma created_starts r : starts_with CREATED_PREFIX (created_line vendor_path ++ r) = true.
Proof. unfold created_line. rewrite <- !app_assoc. generalize (vendor_path ++ word "; delete this file to restore the vendor copy" ++ r). reflexivity. Qed.

(** A file with a header reads as it was written. *)
Lemma parse_written vs bs body :
  is_sha256_hex vs = true -> is_sha256_hex bs = true -> readable body ->
  PamOverrides.parse (created_line vendor_path ++ 10 :: tracking_line vs bs ++ 10 :: body)
  = Some (MkParsed (created_line vendor_path) (Some (tracking_line vs bs)) (Some 1%nat)
            (created_line vendor_path ++ 10 :: tracking_line vs bs ++ 10 :: body) (Some (vs, bs)) body false).
Proof.
  intros Hv Hb (Hu & Hn & Hc & _). apply parse_file; [done|done|apply created_clean|apply created_starts|].
  exists (lines body). split; [done|]. by right.
Qed.
End Header.

(** ** Whose edit it was *)

(** Which text of the file the digests were made of, the one in it now, and the
    vendor's copies then and now: the class by their equality. *)
Definition class_of (then_base now_base : str) (vendor_then : str) (vendor : option str) : Class :=
  if bool_decide (now_base = then_base) then
    match vendor with None => U3 | Some v => if bool_decide (v = vendor_then) then U1 else U2 end
  else
    match vendor with
    | None => E3
    | Some v => if bool_decide (now_base = base v) then L1 else if bool_decide (v = vendor_then) then E1 else E2
    end.

(** The header of an override tells whose change a file holds.  A file that
    [render] wrote from the vendor's copy [v0], of which somebody has replaced
    the body since, is read with its body; its class depends on what irlume's
    lines leave alone only, the text without them then and now and the vendor's
    copy then and now; it is the class of an unedited file exactly when that
    text is what irlume wrote or is the vendor's, provided the hash collides on
    none of the texts at hand. *)
Theorem header_tells_edits (sha256 : str -> str) (vendor_path v0 wired body_now : str) (vendor : option str) :
  (10 ∉ vendor_path) /\ (13 ∉ vendor_path) ->
  (forall x, is_sha256_hex (sha256 x) = true) ->
  readable wired -> readable body_now ->
  (sha256 (base body_now) = sha256 (base wired) -> base body_now = base wired) ->
  (forall v, vendor = Some v -> sha256 v = sha256 v0 -> v = v0) ->
  exists q p,
    PamOverrides.parse (render sha256 vendor_path v0 wired) = Some q /\ body q = wired
    /\ PamOverrides.parse (keep_header q body_now) = Some p /\ body p = body_now
    /\ classify sha256 p vendor = class_of (base wired) (base body_now) v0 vendor
    /\ edited (classify sha256 p vendor) = bool_decide (base body_now <> base wired /\ base <$> vendor <> Some (base body_now)).
Proof.
  intros Hp Hsha Hw Hb Hcol Hvcol. unfold render, body_digest. do 2 eexists.
  split; [by apply parse_written|]. split; [done|]. unfold keep_header. cbn [track_line first]. split; [by apply parse_written|]. split; [done|].
  match goal with |- classify _ ?p _ = _ /\ _ => set (file := p) end.
  assert (Hc : classify sha256 file vendor = class_of (base wired) (base body_now) v0 vendor).
  { unfold classify, class_of, body_digest, file. cbn [digests body]. case_bool_decide as H1.
    - rewrite bool_decide_eq_true_2 by auto. destruct vendor as [v|]; [|done]. case_bool_decide as H2; [by rewrite bool_decide_eq_true_2 by auto|].
      by rewrite bool_decide_eq_false_2 by congruence.
    - rewrite bool_decide_eq_false_2 by congruence. destruct vendor as [v|]; [|done]. case_bool_decide; [done|].
      case_bool_decide as H2; [by rewrite bool_decide_eq_true_2 by auto|]. by rewrite bool_decide_eq_false_2 by congruence. }
  split; [exact Hc|]. rewrite Hc. unfold class_of. destruct (decide (base body_now = base wired)) as [E|E].
  - rewrite (bool_decide_eq_true_2 _ E), bool_decide_eq_false_2 by tauto. destruct vendor; [by case_bool_decide|done].
  - rewrite (bool_decide_eq_false_2 _ E). destruct vendor as [v|]; simpl.
    + destruct (decide (base body_now = base v)) as [E'|E'].
      * rewrite (bool_decide_eq_true_2 _ E'), bool_decide_eq_false_2 by (rewrite E'; tauto). done.
      * rewrite (bool_decide_eq_false_2 _ E'), (bool_decide_eq_true_2 (_ /\ _)) by (split; congruence). by case_bool_decide.
    + by rewrite bool_decide_eq_true_2.
Qed.

(** A digest that tells texts apart by their length, in hexadecimal. *)
Definition length_digest (l : str) : str :=
  map (fun i => let d := Z.land (Z.shiftr (Z.of_nat (length l)) (4 * Z.of_nat i)) 15 in if d <? 10 then 48 + d else 87 + d) (seq 0 64).

Lemma length_digest_hex l : is_sha256_hex (length_digest l) = true.
Proof.
  unfold is_sha256_hex, length_digest. apply andb_true_iff. rewrite bool_decide_eq_true, length_map, length_seq. split; [reflexivity|].
  rewrite forallb_forall. intros c (i & <- & _)%in_map_iff. cbv zeta.
  assert (H : 0 <= Z.land (Z.shiftr (Z.of_nat (length l)) (4 * Z.of_nat i)) 15 < 16).
  { change 15 with (Z.ones 4). rewrite Z.land_ones by lia. apply Z.mod_pos_bound. lia. }
  destruct (Z.ltb_spec (Z.land (Z.shiftr (Z.of_nat (length l)) (4 * Z.of_nat i)) 15) 10) as [Hd|Hd]; apply orb_true_iff.
  - left. unfold is_ascii_digit. apply bool_decide_eq_true. lia.
  - right. apply bool_decide_eq_true. lia.
Qed.

(** A stack whose body somebody has added a rule to. *)
Definition edited_wired : str := sample_wired ++ word "auth required pam_shells.so" ++ [10].

Lemma header_tells_edits_witness :
  exists q p, PamOverrides.parse (render length_digest (word "/usr/lib/pam.d/gdm-password") sample_stack sample_wired) = Some q
    /\ PamOverrides.parse (keep_header q edited_wired) = Some p /\ classify length_digest p (Some sample_stack) = E1.
Proof.
  destruct (header_tells_edits length_digest (word "/usr/lib/pam.d/gdm-password") sample_stack sample_wired edited_wired (Some sample_stack))
    as (q & p & H1 & _ & H2 & _ & H3 & _).
  - apply (bool_decide_eq_true_1 _). vm_compute. reflexivity.
  - exact length_digest_hex.
  - apply (bool_decide_eq_true_1 _). vm_compute. reflexivity.
  - apply (bool_decide_eq_true_1 _). vm_compute. reflexivity.
  - vm_compute. discriminate.
  - intros v [= <-] _. reflexivity.
  - exists q, p. split; [exact H1|split; [exact H2|]]. rewrite H3. vm_compute. reflexivity.
Defined.
