(* ===== verification/PamArrangeTheory.v ===== *)
(** * Where irlume's lines go: the proofs

    The lines the comparison keeps are a longest common subsequence; an update
    of a file with irlume's lines keeps each of them on its side of every line
    an administrator may have written. *)

From S2P Require Import Prelude Text Ordering PamGrammar PamLines PamOverrides PamWiring PamJumpTheory PamWiringTheory PamOverrideTheory PamArrange.
Import grammar.

(** ** The longest common subsequence *)

(** Its length, by the same recurrence as the table. *)
Fixpoint lcs (a : list str) : list str -> nat :=
  match a with
  | [] => fun _ => 0%nat
  | x :: a' =>
      fix lcs_b (b : list str) : nat :=
        match b with
        | [] => 0%nat
        | y :: b' => if bool_decide (x = y) then S (lcs a' b') else Nat.max (lcs a' b) (lcs_b b')
        end
  end.

Lemma lcs_nil_r a : lcs a [] = 0%nat.
Proof. by destruct a. Qed.
Lemma lcs_cons x a y b : lcs (x :: a) (y :: b) = if bool_decide (x = y) then S (lcs a b) else Nat.max (lcs a (y :: b)) (lcs (x :: a) b).
Proof. reflexivity. Qed.

(** The row of the table for [a]: the lengths for every rest of [b]. *)
Fixpoint row_of (a b : list str) : list nat := lcs a b :: match b with [] => [] | _ :: b => row_of a b end.

Lemma row_of_hd a b : nth 0 (row_of a b) 0%nat = lcs a b.
Proof. by destruct b. Qed.
Lemma row_of_nth a b : forall j, (j <= length b)%nat -> nth j (row_of a b) 0%nat = lcs a (drop j b).
Proof.
  induction b as [|y b IH]; intros [|j] Hj; simpl in *; try done; try lia. by apply IH; lia.
Qed.
Lemma row_of_nil b : row_of [] b = repeat 0%nat (S (length b)).
Proof. induction b as [|y b IH]; simpl; [done|]. by rewrite IH. Qed.

Lemma lcs_row_spec x a b : lcs_row x b (row_of a b) = row_of (x :: a) b.
Proof.
  induction b as [|y b IH]; [done|]. cbn [lcs_row]. change (tail (row_of a (y :: b))) with (row_of a b). rewrite IH.
  change (row_of (x :: a) (y :: b)) with (lcs (x :: a) (y :: b) :: row_of (x :: a) b). rewrite lcs_cons. f_equal.
  change (row_of a (y :: b)) with (lcs a (y :: b) :: row_of a b). cbn [nth]. by rewrite !row_of_hd.
Qed.

Fixpoint rows_of (a b : list str) : list (list nat) := row_of a b :: match a with [] => [] | _ :: a => rows_of a b end.

Lemma lcs_table_spec a b : lcs_table a b = rows_of a b.
Proof.
  induction a as [|x a IH]; cbn [lcs_table rows_of]; [by rewrite row_of_nil|]. rewrite IH.
  assert (Hh : List.hd [] (rows_of a b) = row_of a b) by by destruct a. by rewrite Hh, lcs_row_spec.
Qed.

(** No common subsequence is longer. *)
Lemma lcs_steps n : forall a b, (length a + length b <= n)%nat -> forall x,
  (lcs a b <= lcs (x :: a) b <= S (lcs a b) /\ lcs a b <= lcs a (x :: b) <= S (lcs a b))%nat.
Proof.
  induction n as [|n IH]; intros a b Hn x; [destruct a, b; simpl in Hn; lia || (simpl; case_bool_decide; lia) || (simpl; lia)|].
  split.
  - destruct b as [|y b]; [rewrite !lcs_nil_r; lia|]. rewrite lcs_cons. simpl in Hn.
    destruct (IH a b) with (x := y) as [_ C]; [lia|]. destruct (IH a b) with (x := x) as [B _]; [lia|]. case_bool_decide; lia.
  - destruct a as [|z a]; [simpl; lia|]. rewrite lcs_cons. simpl in Hn.
    destruct (IH a b) with (x := z) as [A _]; [lia|]. destruct (IH a b) with (x := x) as [_ D]; [lia|]. case_bool_decide; lia.
Qed.
Lemma lcs_drop_l a x b : (lcs a b <= lcs (x :: a) b)%nat.
Proof. by apply (lcs_steps (length a + length b)). Qed.
Lemma lcs_drop_r a y b : (lcs a b <= lcs a (y :: b))%nat.
Proof. by apply (lcs_steps (length a + length b)). Qed.

Lemma lcs_bound l a b : l `sublist_of` a -> l `sublist_of` b -> (length l <= lcs a b)%nat.
Proof.
  revert l b. induction a as [|x a IHa]; intros l b Ha Hb.
  - apply sublist_nil_r in Ha as ->. simpl. lia.
  - induction b as [|y b IHb] in l, Ha, Hb |- *; [apply sublist_nil_r in Hb as ->; simpl; lia|].
    apply sublist_cons_r in Hb as [Hb|(l1 & -> & Hb)].
    + etrans; [by apply IHb|apply lcs_drop_r].
    + apply sublist_cons_r in Ha as [Ha|(l2 & [= <- <-] & Ha)].
      * etrans; [apply (IHa (y :: l1) (y :: b)); [done|by constructor]|apply lcs_drop_l].
      * rewrite lcs_cons, bool_decide_eq_true_2 by done. simpl. apply le_n_S. by apply IHa.
Qed.

(** The lines flagged. *)
Definition flagged {A} (ls : list A) (fs : list bool) : list A := map fst (List.filter snd (zip ls fs)).

Lemma flagged_none {A} (ls : list A) n : flagged ls (repeat false n) = [].
Proof. revert n. induction ls as [|l ls IH]; intros [|n]; try done. apply IH. Qed.

Lemma walk_spec a : forall b b0 j, b = drop j b0 -> (j <= length b0)%nat ->
  let fs := walk a b j (rows_of a b0) in
  length fs = length a /\ flagged a fs `sublist_of` a /\ flagged a fs `sublist_of` b /\ length (flagged a fs) = lcs a b.
Proof.
  induction a as [|x a IHa]; intros b b0 j Hb Hj; [simpl; split_and!; [done|constructor|apply sublist_nil_l|done]|].
  induction b as [|y b IHb] in j, Hb, Hj |- *.
  - cbn [walk]. rewrite flagged_none, repeat_length. split_and!; [done|apply sublist_nil_l..|by rewrite lcs_nil_r].
  - assert (Hlt : (j < length b0)%nat). { destruct (Nat.lt_ge_cases j (length b0)) as [|Hge]; [done|]. by rewrite drop_ge in Hb. }
    assert (Hb' : b = drop (S j) b0). { change b with (tail (y :: b)). rewrite Hb. clear. revert j. induction b0 as [|z b0 IH]; intros [|j]; try done. apply IH. }
    cbn [walk]. rewrite lcs_cons. case_bool_decide as Hx.
    + subst y. change (tail (rows_of (x :: a) b0)) with (rows_of a b0). destruct (IHa b b0 (S j) Hb' Hlt) as (L & S1 & S2 & E).
      unfold flagged in *. cbn [zip_with zip List.filter snd map fst length]. split_and!; [by rewrite L|by constructor|by constructor|by rewrite E].
    + assert (R0 : nth (S j) (nth 0 (rows_of (x :: a) b0) []) 0%nat = lcs (x :: a) b).
      { change (nth 0 (rows_of (x :: a) b0) []) with (row_of (x :: a) b0). by rewrite row_of_nth, <- Hb' by lia. }
      assert (R1 : nth j (nth 1 (rows_of (x :: a) b0) []) 0%nat = lcs a (y :: b)).
      { assert (E : nth 1 (rows_of (x :: a) b0) [] = row_of a b0) by by destruct a. by rewrite E, row_of_nth, <- Hb by done. }
      rewrite R0, R1. destruct (Nat.leb_spec (lcs (x :: a) b) (lcs a (y :: b))) as [Hle|Hgt].
      * change (tail (rows_of (x :: a) b0)) with (rows_of a b0). destruct (IHa (y :: b) b0 j Hb Hj) as (L & S1 & S2 & E).
        unfold flagged in *. cbn [zip_with zip List.filter snd map fst length]. split_and!; [by rewrite L|by apply sublist_cons|done|]. rewrite E. lia.
      * destruct (IHb (S j) Hb' Hlt) as (L & S1 & S2 & E). cbn [walk] in L, S1, S2, E. split_and!; [done|done|by apply sublist_cons|]. rewrite E. lia.
Qed.

(** The comparison with the vendor copy is a longest one: the lines of the
    file it says both have are a common subsequence of the two, in order, and no
    common subsequence has more lines. *)
Theorem common_lines_longest ours theirs :
  length (common_lines ours theirs) = length ours
  /\ flagged ours (common_lines ours theirs) `sublist_of` ours
  /\ flagged ours (common_lines ours theirs) `sublist_of` theirs
  /\ forall l, l `sublist_of` ours -> l `sublist_of` theirs -> (length l <= length (flagged ours (common_lines ours theirs)))%nat.
Proof.
  unfold common_lines. rewrite lcs_table_spec. destruct (walk_spec ours theirs theirs 0 eq_refl (Nat.le_0_l _)) as (L & S1 & S2 & E).
  split_and!; [done..|]. intros l Ha Hb. rewrite E. by apply lcs_bound.
Qed.

(** ** Slots *)

#[local] Opaque is_irlume_line kind.

Definition kind_is (k : str) (s : str * nat) : bool := bool_decide (s.1 = k).

Lemma slots_of_cons k s ss : slots_of k (s :: ss) = if kind_is k s then s.2 :: slots_of k ss else slots_of k ss.
Proof. unfold slots_of, kind_is. simpl. by case_bool_decide. Qed.
Lemma count_cons set k k' : count (k' :: set) k = ((if bool_decide (k' = k) then 1 else 0) + count set k)%nat.
Proof. unfold count. simpl. by case_bool_decide. Qed.

(** Where each line of the candidate may be: its old slot, or for a line of a
    new kind a slot that holds one of irlume's lines. *)
Definition slot_kept (before : list (str * nat)) (k : str) (n s : nat) : Prop :=
  slots_of k before !! n = Some s \/ (slots_of k before !! n = None /\ s ∈ map snd before).

Lemma crossed_none before ss : forall paired,
  crossed_slot before paired ss = None ->
  forall k n s, slots_of k ss !! n = Some s -> slot_kept before k (count paired k + n) s.
Proof.
  induction ss as [|[k0 s0] ss IH]; intros paired; cbn [crossed_slot]; intros Hc k n s; [intros He; by destruct n|].
  assert (Hc' : slot_kept before k0 (count paired k0) s0 /\ crossed_slot before (k0 :: paired) ss = None).
  { unfold slot_kept. destruct (slots_of k0 before !! count paired k0) as [o|].
    - case_bool_decide; [|done]. subst o. split; [by left|done].
    - case_bool_decide; [|done]. split; [by right|done]. }
  destruct Hc' as [Hs Hc']. rewrite slots_of_cons. unfold kind_is. cbn [fst snd]. intros Hn. specialize (IH (k0 :: paired) Hc' k). rewrite count_cons in IH. case_bool_decide as Hk; [subst k0|by apply IH].
  destruct n as [|n]; [injection Hn as <-; by rewrite Nat.add_0_r|]. rewrite Nat.add_succ_r. by apply (IH n s).
Qed.

(** ** The old places *)

Lemma foreign_ours l : is_irlume_line l = true -> foreign l = false.
Proof. unfold foreign. by intros ->. Qed.
Lemma foreign_other l : is_irlume_line l = false -> foreign l = true.
Proof. unfold foreign. by intros ->. Qed.

Lemma position_None {A} (f : A -> bool) l : position f l = None -> List.filter f l = [].
Proof.
  induction l as [|x l IH]; simpl; [done|]. destruct (f x); [done|]. destruct (position f l); [done|]. by intros _; apply IH.
Qed.

Lemma take_places_spec ls : forall want out rest own admin,
  take_places want ls = (out, rest) -> Forall (fun w : str * str => is_irlume_line w.2 = true /\ w.1 = kind w.2) want ->
  List.filter foreign out = List.filter foreign ls
  /\ forall k, slots_of k (slots_from own admin out)
               = take (length (List.filter (fun w : str * str => bool_decide (w.1 = k)) want)) (slots_of k (slots_from own admin ls)).
Proof.
  induction ls as [|l ls IH]; intros want out rest own admin; cbn [take_places].
  - intros [= <- <-] _. split; [done|]. intros k. change (slots_of k (slots_from own admin [])) with (@nil nat). by rewrite take_nil.
  - destruct (is_irlume_line l) eqn:Eo.
    + destruct (position _ want) as [at_|] eqn:Ep.
      * apply position_Some in Ep as [(w & Hat & Hk) _]. apply bool_decide_eq_true in Hk. rewrite Hat.
        destruct (take_places (delete at_ want) ls) as [out' rest'] eqn:Et. intros [= <- <-] Hw.
        pose proof (delete_Permutation _ _ _ Hat) as Hp. rewrite Hp in Hw. apply list.Forall_cons in Hw as [[W1 W2] Hw].
        destruct (IH _ _ _ own admin Et Hw) as [I1 I2]. cbn [fmap option_fmap option_map default from_option snd].
        split; [cbn [List.filter]; by rewrite (foreign_ours _ W1), (foreign_ours _ Eo)|]. intros k. cbn [slots_from]. rewrite W1, Eo, !slots_of_cons.
        unfold kind_is. cbn [fst snd]. rewrite Hp. cbn [List.filter]. rewrite I2, <- W2, Hk. by case_bool_decide.
      * intros Ht Hw. destruct (IH _ _ _ own admin Ht Hw) as [I1 I2]. split; [cbn [List.filter]; by rewrite (foreign_ours _ Eo)|].
        intros k. cbn [slots_from]. rewrite Eo, slots_of_cons, I2. unfold kind_is. cbn [fst snd]. case_bool_decide as Hk; [|done]. subst k.
        assert (Hz : List.filter (fun w : str * str => bool_decide (w.1 = kind l)) want = []); [|by rewrite Hz].
        by apply position_None in Ep.
    + destruct (take_places want ls) as [out' rest'] eqn:Et. intros [= <- <-] Hw. destruct (IH _ _ _ (tail own) (if List.hd true own then S admin else admin) Et Hw) as [I1 I2].
      split; [cbn [List.filter]; by rewrite (foreign_other _ Eo), I1|]. intros k. cbn [slots_from]. by rewrite Eo, I2.
Qed.

Lemma take_places_lines ls : forall want out rest,
  take_places want ls = (out, rest) -> Forall (fun w : str * str => is_irlume_line w.2 = true /\ clean w.2) want -> Forall clean ls ->
  Forall clean out /\ (List.filter is_irlume_line out ++ map snd rest ≡ₚ map snd want).
Proof.
  induction ls as [|l ls IH]; intros want out rest; cbn [take_places].
  - intros [= <- <-] _ _. split; [constructor|done].
  - intros Ht Hw [Hc Hcs]%list.Forall_cons. destruct (is_irlume_line l) eqn:Eo.
    + destruct (position _ want) as [at_|] eqn:Ep; [|by eapply IH].
      apply position_Some in Ep as [(w & Hat & _) _]. rewrite Hat in Ht.
      destruct (take_places (delete at_ want) ls) as [out' rest'] eqn:Et. injection Ht as <- <-.
      pose proof (delete_Permutation _ _ _ Hat) as Hp. rewrite Hp in Hw. apply list.Forall_cons in Hw as [[W1 W2] Hw].
      destruct (IH _ _ _ Et Hw Hcs) as [I1 I2]. cbn [fmap option_fmap option_map default from_option snd]. split; [by constructor|].
      cbn [List.filter]. rewrite W1, Hp. cbn [map app]. by rewrite I2.
    + destruct (take_places want ls) as [out' rest'] eqn:Et. injection Ht as <- <-. destruct (IH _ _ _ Et Hw Hcs) as [I1 I2].
      split; [by constructor|]. cbn [List.filter]. by rewrite Eo.
Qed.

Lemma slots_kinds ls : forall own admin k,
  length (slots_of k (slots_from own admin ls)) = length (List.filter (fun w : str * str => bool_decide (w.1 = k)) (wanted_of ls)).
Proof.
  unfold wanted_of. induction ls as [|l ls IH]; intros own admin k; [done|]. cbn [slots_from List.filter].
  destruct (is_irlume_line l); [|apply IH]. rewrite slots_of_cons. cbn [map List.filter]. unfold kind_is. cbn [fst snd].
  case_bool_decide; cbn [length]; by rewrite IH.
Qed.

Lemma wanted_ours ls : Forall clean ls ->
  Forall (fun w : str * str => is_irlume_line w.2 = true /\ w.1 = kind w.2) (wanted_of ls)
  /\ Forall (fun w : str * str => is_irlume_line w.2 = true /\ clean w.2) (wanted_of ls)
  /\ map snd (wanted_of ls) = List.filter is_irlume_line ls.
Proof.
  unfold wanted_of. induction 1 as [|l ls Hc _ (I1 & I2 & I3)]; [split_and!; constructor|]. cbn [List.filter].
  destruct (is_irlume_line l) eqn:Eo; [|done]. cbn [map snd]. rewrite I3. split_and!; [by constructor..|done].
Qed.

(** What the tests of a text see of the lines it was joined from. *)
Lemma unlines_view out : Forall clean out ->
  base (unlines out) = unlines (List.filter foreign out)
  /\ List.filter is_irlume_line (lines (unlines out)) = List.filter is_irlume_line out
  /\ forall own, slots (unlines out) own = slots_from own 0 out.
Proof.
  intros Hc. destruct (decide (out = [])) as [->|Hne]; [split_and!; [vm_compute; reflexivity..|intros [|[] ?]; vm_compute; reflexivity]|].
  unfold base, unwire_lines, slots. rewrite lines_unlines by done. by split_and!.
Qed.

(** [substitute]: the lines of the candidate, each in the place of the old one
    of its kind. *)
Lemma substitute_spec body candidate r own :
  readable body -> readable candidate -> substitute body candidate = Some r ->
  base r = base body /\ (List.filter is_irlume_line (lines r) ≡ₚ List.filter is_irlume_line (lines candidate))
  /\ forall k, slots_of k (slots r own) = take (length (slots_of k (slots candidate own))) (slots_of k (slots body own)).
Proof.
  intros Hb Hcd. destruct (lines_readable body Hb) as (Hn & Hc & _), (lines_readable candidate Hcd) as (_ & Hcc & _).
  unfold substitute. change (map (fun l => (kind l, l)) (List.filter is_irlume_line (lines candidate))) with (wanted_of (lines candidate)).
  destruct (take_places (wanted_of (lines candidate)) (lines body)) as [out rest] eqn:Et. case_bool_decide as Hr; [|done]. subst rest.
  intros [= <-]. destruct (wanted_ours (lines candidate) Hcc) as (W1 & W2 & W3).
  destruct (take_places_spec _ _ _ _ own 0 Et W1) as [S1 S2]. destruct (take_places_lines _ _ _ _ Et W2 Hc) as [L1 L2].
  destruct (unlines_view out L1) as (V1 & V2 & V3). split_and!.
  - rewrite V1, S1. done.
  - rewrite V2, <- W3, <- L2. cbn [map]. by rewrite app_nil_r.
  - intros k. rewrite V3. unfold slots. rewrite slots_kinds. apply S2.
Qed.

(** ** The text without irlume's lines *)

Lemma filter_sub {A} (f : A -> bool) (P : A -> Prop) l : Forall P l -> Forall P (List.filter f l).
Proof. induction 1 as [|x l Hx _ IH]; cbn [List.filter]; [constructor|]. destruct (f x); [by constructor|done]. Qed.

Lemma base_readable body : readable body -> readable (base body) /\ Forall (fun l => foreign l = true) (lines (base body)).
Proof.
  intros (_ & _ & Hc & H0). unfold base, unwire_lines. cbn [fst].
  change (fun l => negb (is_irlume_line l)) with foreign. set (fs := List.filter foreign (lines body)).
  assert (Hf : Forall (fun l => foreign l = true) fs).
  { apply list.Forall_forall. intros l Hl%list_elem_of_In%filter_In. apply Hl. }
  destruct (decide (fs = [])) as [->|Hne].
  - split; [apply (bool_decide_eq_true_1 _); vm_compute; reflexivity|by repeat constructor].
  - split; [apply unlines_readable; [done|by apply filter_sub..]|]. rewrite lines_unlines; [done|done|by apply filter_sub].
Qed.

(** ** Next to the password line *)

Lemma unlines_app a b : a <> [] -> b <> [] -> unlines a ++ unlines b = unlines (a ++ b).
Proof.
  intros Ha Hb. induction a as [|l [|m a] IH]; [done| |].
  - destruct b as [|k b]; [done|]. cbn [app]. rewrite unlines_cons. unfold unlines at 1. cbn [join_with]. by rewrite <- app_assoc.
  - cbn [app]. rewrite !unlines_cons, <- app_assoc. cbn [app]. by rewrite IH.
Qed.

Lemma first_password_line ls take_ k : first_password ls take_ = Some k -> (k < length ls)%nat.
Proof.
  unfold first_password. destruct (List.find _ _) as [i|] eqn:E1; [intros [= <-]; apply find_some in E1 as [E1%in_seq _]; lia|].
  intros E2. apply find_some in E2 as [E2%in_seq _]. lia.
Qed.
Lemma password_line_in bare own vk k : password_line bare own vk = Some k -> (k < length (lines bare))%nat.
Proof.
  unfold password_line. destruct vk; [apply first_password_line|]. destruct (first_password _ _) as [i|] eqn:E; [|done].
  cbn [mbind option_bind]. case_bool_decide; [|done]. intros [= <-]. by eapply first_password_line.
Qed.

Lemma anchored_spec reader rc bare own vk r :
  readable bare -> Forall (fun l => foreign l = true) (lines bare) ->
  anchored bare own vk (wire_by reader rc) = Some r ->
  base r = bare /\ exists k, password_line bare own vk = Some k /\ take k (lines r) = take k (lines bare).
Proof.
  intros (Hu & Hn & Hc & _) Hf. unfold anchored.
  destruct (password_line bare own vk) as [k|] eqn:Ek; [|done]. pose proof (password_line_in _ _ _ _ Ek) as Hk. cbn [mbind option_bind].
  set (ls := lines bare) in *. assert (Hd : drop k ls <> []) by (intros E; apply (f_equal length) in E; rewrite length_drop in E; simpl in E; lia).
  assert (Hcd : Forall clean (drop k ls)) by by apply list.Forall_drop. assert (Hct : Forall clean (take k ls)) by by apply list.Forall_take.
  destruct (wire_by reader rc (unlines (drop k ls))) as [tail_ ok] eqn:Ew. destruct ok; [|done]. cbn [negb].
  assert (Hls : lines (unlines (drop k ls)) = drop k ls) by by apply lines_unlines.
  destruct (recipe_marks (unlines (drop k ls)) reader rc tail_) as (out & -> & [Hadd Hco%wrote_clean] & o & Ho & _); [by rewrite Hls|by rewrite Hls; apply list.Forall_drop|done|].
  rewrite Hls in Hadd. assert (Hno : out <> []) by (intros ->; by apply elem_of_nil in Ho).
  destruct (position _ _) as [at_|]; [|done]. cbn [mbind option_bind]. destruct (negb _ && negb _); [done|]. intros [= <-].
  assert (Hr : (if (k =? 0)%nat then unlines out else unlines (take k ls) ++ unlines out) = unlines (take k ls ++ out)).
  { destruct (Nat.eqb_spec k 0) as [->|Hk0]; [done|]. apply unlines_app; [|done]. intros E. apply (f_equal length) in E. rewrite length_take in E. simpl in E. lia. }
  rewrite Hr. assert (Hca : Forall clean (take k ls ++ out)) by by apply list.Forall_app. destruct (unlines_view _ Hca) as (V1 & _ & _). split.
  - rewrite V1, filter_app, Hadd, filter_all by by apply list.Forall_take. by rewrite take_drop.
  - exists k. split; [done|]. rewrite lines_unlines; [|by destruct (take k ls)|done].
    by rewrite take_app_le, take_take, Nat.min_id by (rewrite length_take; lia).
Qed.

(** ** The recipe's output *)

#[local] Transparent is_irlume_line kind.
Lemma stanza_plain l : l ∈ stanza_list -> 0 ∉ l.
Proof.
  assert (H : forallb (fun o => bool_decide (0 ∉ o)) stanza_list = true) by (vm_compute; reflexivity).
  rewrite forallb_forall in H. intros Ho%list_elem_of_In. by apply H, bool_decide_eq_true in Ho.
Qed.
#[local] Opaque is_irlume_line kind.

Lemma adds_readable ls out : out <> [] -> adds ls out -> Forall (fun l => 0 ∉ l) ls -> readable (unlines out).
Proof.
  intros Hn [Hadd Hw] Hp. apply unlines_readable; [done|by apply wrote_clean|]. apply list.Forall_forall. intros l Hl.
  rewrite list.Forall_forall in Hw. destruct (is_irlume_line l) eqn:Eo; [apply stanza_plain; by apply Hw|].
  rewrite list.Forall_forall in Hp. apply Hp. rewrite <- Hadd. apply list_elem_of_In, filter_In. split; [by apply list_elem_of_In|by apply foreign_other].
Qed.

Lemma wired_base reader rc content w :
  readable content -> Forall (fun l => foreign l = true) (lines content) ->
  wire_by reader rc content = (w, true) -> base w = content /\ readable w.
Proof.
  intros (Hu & Hn & Hcl & H0) Hf Hw.
  destruct (recipe_marks content reader rc w Hcl Hf Hw) as (out & -> & Ha & o & Ho & _). pose proof Ha as [Hadd Hc%wrote_clean].
  destruct (unlines_view out Hc) as (V1 & _ & _). split; [by rewrite V1, Hadd|].
  eapply adds_readable; [|exact Ha|done]. intros ->. by apply elem_of_nil in Ho.
Qed.

Lemma arrange_spec reader rc body wired vendor edited r :
  readable body -> base wired = base body -> readable wired ->
  arrange body (base body) wired vendor edited (wire_by reader rc) = Ok r ->
  let own := own_lines (base body) vendor edited in
  base r = base body
  /\ (has_irlume_line body = true -> forall k n s, slots_of k (slots r own) !! n = Some s -> slot_kept (slots body own) k n s)
  /\ (has_irlume_line body = false -> edited = true ->
      exists k, password_line (base body) own (bool_decide (is_Some vendor)) = Some k
        /\ take k (lines r) = take k (lines (base body))).
Proof.
  intros Hb Hwb Hwr Ha own. destruct (base_readable body Hb) as (Hbb & Hbf). unfold arrange in Ha. fold own in Ha.
  destruct (has_irlume_line body) eqn:Eh; cbn [negb] in Ha.
  - unfold crossing in Ha. destruct (crossed_slot (slots body own) [] (slots wired own)) as [c|] eqn:Ec; cbn [mbind option_bind] in Ha.
    + destruct (substitute body wired) as [r'|] eqn:Es; [|done]. injection Ha as ->.
      destruct (substitute_spec body wired r own Hb Hwr Es) as (S1 & _ & S3). split_and!; [done| |done].
      intros _ k n s Hn. left. rewrite S3 in Hn. by apply lookup_take_Some in Hn as [? _].
    + injection Ha as ->. split_and!; [done| |done]. intros _ k n s Hn. by apply (crossed_none _ _ [] Ec).
  - destruct edited; cbn [negb] in Ha.
    + destruct (anchored _ _ _ _) as [r'|] eqn:Ea; [|done]. injection Ha as ->.
      destruct (anchored_spec _ _ _ _ _ _ Hbb Hbf Ea) as (A1 & A2). split_and!; done.
    + injection Ha as ->. by split_and!.
Qed.

(** C36. An update of irlume's lines keeps to their places: in what [arrange]
    gives, the lines irlume did not write are those of the file; when the file
    has lines of irlume's, the [n]th line of a kind is in the slot between the
    administrator's lines it was in, or, for a line of a new kind, in one that
    holds a line of irlume's; and when an edited file has none, every line
    above its password line stays first. *)
Theorem arrange_keeps_places reader rc body wired vendor edited r :
  readable body -> wire_by reader rc (base body) = (wired, true) ->
  arrange body (base body) wired vendor edited (wire_by reader rc) = Ok r ->
  let own := own_lines (base body) vendor edited in
  base r = base body
  /\ (has_irlume_line body = true -> forall k n s, slots_of k (slots r own) !! n = Some s -> slot_kept (slots body own) k n s)
  /\ (has_irlume_line body = false -> edited = true ->
      exists k, password_line (base body) own (bool_decide (is_Some vendor)) = Some k
        /\ take k (lines r) = take k (lines (base body))).
Proof.
  intros Hb Hw Ha. destruct (base_readable body Hb) as (Hbb & Hbf). destruct (wired_base reader rc (base body) wired Hbb Hbf Hw) as [Hwb Hwr].
  exact (arrange_spec reader rc body wired vendor edited r Hb Hwb Hwr Ha).
Qed.

(** Fedora's stack with an administrator's gate above the password line, and
    irlume's lines around it. *)
Definition gated_stack : str := mjoin (map (fun l => word l ++ [10]) [
  "auth required pam_faillock.so preauth"; "auth       [success=1 default=ignore]   pam_irlume.so unseal ondemand";
  "auth substack password-auth"; "auth       optional                     pam_permit.so   # irlume-landing";
  "account include password-auth"; "session include password-auth"]).
Definition gated_vendor : str := mjoin (map (fun l => word l ++ [10]) [
  "auth substack password-auth"; "account include password-auth"; "session include password-auth"]).

Lemma arrange_keeps_places_witness :
  exists r, arrange gated_stack (base gated_stack) (wire_by None Lock (base gated_stack)).1 (Some gated_vendor) true (wire_by None Lock) = Ok r
    /\ base r = base gated_stack /\ slots r (own_lines (base gated_stack) (Some gated_vendor) true) <> [].
Proof.
  exists gated_stack. assert (H : arrange gated_stack (base gated_stack) (wire_by None Lock (base gated_stack)).1 (Some gated_vendor) true (wire_by None Lock) = Ok gated_stack)
    by (vm_compute; reflexivity).
  split; [exact H|]. destruct (arrange_keeps_places None Lock gated_stack (wire_by None Lock (base gated_stack)).1 (Some gated_vendor) true gated_stack) as (H1 & _).
  - apply (bool_decide_eq_true_1 _). vm_compute. reflexivity.
  - vm_compute. reflexivity.
  - exact H.
  - split; [exact H1|]. vm_compute. discriminate.
Defined.
