(* ===== verification/PamDecideTheory.v ===== *)
(** * The decision for an override: the proofs

    What [decide] may do to a file somebody else has written in. *)

From S2P Require Import Prelude Text Ordering PamGrammar PamLines PamOverrides PamWiring PamJumpTheory PamWiringTheory PamOverrideTheory PamArrange PamArrangeTheory PamHeaderTheory PamDecide.
Import grammar.

#[local] Opaque is_irlume_line kind word TYPES inert_of.

(** ** The file as it is read *)

Lemma mjoin_singletons {A} (g : nat -> A -> bool) (ls : list A) l : l ∈ mjoin (imap (fun i x => if g i x then [] else [x]) ls) -> l ∈ ls.
Proof.
  rewrite list_elem_of_join. intros (m & Hm & Hin). apply list_elem_of_lookup in Hin as [n Hn]. rewrite list_lookup_imap in Hn.
  destruct (ls !! n) as [x|] eqn:E; [|done]. simpl in Hn. injection Hn as <-. destruct (g n x); [by apply elem_of_nil in Hm|].
  apply list_elem_of_singleton in Hm as ->. by apply list_elem_of_lookup_2 in E.
Qed.

Lemma without_crs_last l : list.last (without_crs l) <> Some 13.
Proof.
  unfold without_crs, trim_end_matches. rewrite <- head_reverse, reverse_involutive.
  destruct (trim_start_spec is_cr (reverse l)) as (a & _ & _ & Hs). destruct (trim_start_matches is_cr (reverse l)) as [|x k]; [done|].
  intros [= ->]. done.
Qed.
Lemma without_crs_incl l x : x ∈ without_crs l -> x ∈ l.
Proof.
  unfold without_crs, trim_end_matches. rewrite elem_of_reverse. intros H. rewrite <- elem_of_reverse.
  destruct (trim_start_spec is_cr (reverse l)) as (a & E & _). rewrite E, elem_of_app. by right.
Qed.

(** What [parse] gives: the body is a text of the file's lines. *)
Lemma parse_body cur p : PamOverrides.parse cur = Some p ->
  PamOverrides.text p = cur /\ exists bl, (body p = [] /\ bl = [] \/ bl <> [] /\ body p = unlines bl)
    /\ Forall clean bl /\ (0 ∉ cur -> Forall (fun l => 0 ∉ l) bl).
Proof.
  unfold PamOverrides.parse. destruct (negb _); [done|]. destruct (map without_crs (lines cur) !! 0%nat) as [fst|]; [|done]. cbn [mbind option_bind].
  intros [= <-]. cbn [PamOverrides.text body]. split; [done|].
  set (bl := mjoin _). exists bl. assert (Hin : forall l, l ∈ bl -> exists m, m ∈ lines cur /\ l = without_crs m).
  { intros l Hl. apply (mjoin_singletons (fun i _ => bool_decide (Some (S i) = find_tracking 1 (drop 1 (map without_crs (lines cur)))))) in Hl.
    assert (Hl' : l ∈ map without_crs (lines cur)). { rewrite <- (take_drop 1 (map without_crs (lines cur))), elem_of_app. by right. }
    apply list_elem_of_fmap in Hl' as (m & -> & Hm). by exists m. }
  split_and!.
  - destruct bl; [by left|by right].
  - apply list.Forall_forall. intros l Hl. destruct (Hin l Hl) as (m & Hm & ->). split; [|apply without_crs_last].
    intros H%without_crs_incl. pose proof (lines_from_no_lf cur [] (not_elem_of_nil 10)) as Hf. rewrite list.Forall_forall in Hf. by apply (Hf m).
  - intros H0. apply list.Forall_forall. intros l Hl. destruct (Hin l Hl) as (m & Hm & ->). intros H%without_crs_incl.
    destruct (lines_from_incl cur 0 [] m Hm H) as [?%elem_of_nil|?]; done.
Qed.

(** A file irlume reads as libpam does holds no NUL. *)
Lemma first_unread_none f n ls : first_unread f n ls = None -> Forall (fun l => f l = None) ls.
Proof.
  revert n. induction ls as [|l ls IH]; intros n; cbn [first_unread]; [by constructor|]. destruct (f l) eqn:E; [done|]. intros H. constructor; [done|by eapply IH].
Qed.
Lemma readable_no_nul c : has_line_continuation c = false -> unreadable_line c = None -> 0 ∉ c.
Proof.
  unfold unreadable_line. intros -> H%first_unread_none. rewrite <- (split_join 10 c). revert H.
  generalize (split_at 10 c). intros ls. induction ls as [|l [|m ls] IH]; intros Hf; [by intros ?%elem_of_nil| |].
  - apply list.Forall_cons in Hf as [Hl _]. unfold unread in Hl. by case_bool_decide.
  - apply list.Forall_cons in Hf as [Hl Hf]. change (join_with 10 (l :: m :: ls)) with (l ++ 10 :: join_with 10 (m :: ls)).
    rewrite elem_of_app, elem_of_cons. unfold unread in Hl. case_bool_decide; [done|]. intros [?|[?|?]]; [done|done|by apply IH].
Qed.

Lemma body_readable cur p : PamOverrides.parse cur = Some p -> body p <> [] ->
  has_line_continuation (PamOverrides.text p) = false -> p_unreadable p = false -> readable (body p).
Proof.
  intros Hp Hn Hc Hu. destruct (parse_body cur p Hp) as (Ht & bl & Hbl & Hcl & H0). destruct Hbl as [[? _]|[Hne ->]]; [done|].
  apply unlines_readable; [done|done|]. apply H0. rewrite <- Ht. apply readable_no_nul; [done|]. unfold p_unreadable in Hu.
  apply bool_decide_eq_false in Hu. by destruct (unreadable_line _); [destruct Hu|].
Qed.

(** ** What stays in a file *)

Lemma base_idem body : readable body -> base (base body) = base body.
Proof.
  intros Hb. destruct (base_readable body Hb) as [(Hu & _) Hf]. unfold base at 1, unwire_lines. cbn [fst].
  change (fun l => negb (is_irlume_line l)) with foreign. by rewrite filter_all.
Qed.

Lemma neutralize_spec body : readable body -> known_jobs (lines body) ->
  base (neutralize body) = base body /\ jumps (neutralize body) = jumps body.
Proof.
  intros Hr Hj. destruct (lines_readable body Hr) as (Hn & Hc & H0). change (neutralize body) with (unlines (map hold (lines body))).
  destruct (hold_places (lines body) H0 Hc Hj) as (P1 & P2 & _). destruct (same_text body (map hold (lines body)) P1 Hn P2) as (_ & T2 & T3 & _). done.
Qed.

(** A recipe that does not wire changes nothing. *)
Lemma unwired_as_is reader rc c w : wire_by reader rc c = (w, false) -> w = c.
Proof.
  destruct rc; cbn [wire_by]; unfold wire_greeter_impl, wire_lock, wire_fp_keyring, wire_verify_service, wire_polkit_service, wire_omarchy_lock, insert_verify_stanza;
    repeat case_match; by intros [= <-].
Qed.

(** A line feed alone is no stack to wire. *)
Lemma nothing_to_wire reader rc : (wire_by reader rc [10]).2 = false /\ recipe_has_no_anchor [10] (wire_by reader rc) = true.
Proof. destruct rc; split; vm_compute; reflexivity. Qed.

Section Kept.
Context (sha256 : str -> str) (reader : option (str -> option str)) (rc : PamWiringTheory.Recipe).
Context (i : Input) (recipe : wire i = wire_by reader rc).
Context (p : Parsed) (cur : str) (parsed : PamOverrides.parse cur = Some p) (jobs : known_jobs (lines (body p))).
Context (class : Class) (somebodys : class ∉ [U1; U2; L1]).

(** The jumps of the lines irlume did not write, before and after a write. *)
Definition jumps_stay (b : str) : Prop :=
  jumps b = jumps (body p) \/ jumps_moved_by_irlume reader (body p) b = []
  \/ (b = base (body p) /\ strip_shifts reader (body p) b (vendor i) = []).

(** A file whose jumps a run may not move: an edited one, or one that is wired. *)
Definition jumps_held : Prop := edited class = true \/ has_irlume_line (body p) = true.

(** The text [t] keeps what irlume did not write. *)
Definition kept (t : str) : Prop :=
  (t = without_irlume_lines cur /\ jump_could_count_irlume_lines reader cur = false)
  \/ exists b, t = keep_header p b /\ base b = base (body p) /\ (jumps_held -> jumps_stay b).

Definition keeps (d : Decision) : Prop := write d <> Write.Remove /\ forall t, write d = Write.Replace t -> kept t.

Lemma keeps_nothing d : write d = Write.Nothing -> keeps d.
Proof. intros H. split; rewrite H; done. Qed.
Lemma keeps_text d b : write d = Write.Replace (keep_header p b) -> base b = base (body p) -> (jumps_held -> jumps_stay b) -> keeps d.
Proof. intros H Hb Hj. split; rewrite H; [done|]. intros t [= <-]. right. by exists b. Qed.

Lemma strip_keeps na : keeps (remove_or_strip reader i p class na).
Proof.
  unfold remove_or_strip. rewrite bool_decide_eq_false_2 by done. destruct (unwire_lines (body p)) as [stripped had] eqn:Es.
  assert (Hs : stripped = base (body p)) by (unfold base; by rewrite Es).
  destruct had; cbn [negb]; [|by apply keeps_nothing]. destruct (parse_body cur p parsed) as [Ht _].
  assert (Hn : body p <> []) by (intros E; rewrite E in Es; by vm_compute in Es).
  destruct (has_line_continuation (PamOverrides.text p) && _); [by apply keeps_nothing|].
  assert (Hw : forall c, keeps (if jump_could_count_irlume_lines reader (PamOverrides.text p) then with_unmet (keep c)
                     else replace PlannedChange.StripInPlace (without_irlume_lines (PamOverrides.text p)))).
  { intros c. destruct (jump_could_count_irlume_lines _ _) eqn:Ej; [by apply keeps_nothing|]. split; [done|]. intros t [= <-]. left. by rewrite <- Ht. }
  destruct (p_unreadable p) eqn:Eu; [apply Hw|]. destruct (has_line_continuation (PamOverrides.text p)) eqn:Ec; [apply Hw|].
  pose proof (body_readable cur p parsed Hn Ec Eu) as Hr. destruct (neutralize_spec (body p) Hr jobs) as [Nb Nj].
  destruct (strip_shifts reader (body p) stripped (vendor i)) eqn:Esh.
  - cbn [negb orb]. destruct (strip_loses_place _ _ _); cbn [negb].
    + case_bool_decide; [by apply keeps_nothing|]. eapply keeps_text; [done|exact Nb|by left].
    + eapply keeps_text; [done|by rewrite Hs, base_idem|]. intros _. right. right. by rewrite <- Hs.
  - cbn [negb orb]. case_bool_decide; [by apply keeps_nothing|]. eapply keeps_text; [done|exact Nb|by left].
Qed.

Lemma check_cases b e : (exists ss, check_jumps reader (body p) b e = Refuse ss)
  \/ ((forall ss, check_jumps reader (body p) b e <> Refuse ss) /\ (e = true \/ has_irlume_line (body p) = true -> jumps_moved_by_irlume reader (body p) b = [])).
Proof.
  unfold check_jumps. destruct (jumps_moved_by_irlume reader (body p) b) as [|s ss]; [by right|]. destruct e; cbn [orb]; [left; by eexists|].
  destruct (has_irlume_line _); [left; by eexists|right]. split; [done|]. by intros [].
Qed.

Lemma in_place_keeps e unchanged : (edited class = true -> e = true) -> keeps (in_place reader i p class e unchanged).
Proof.
  intros He. unfold in_place. rewrite recipe. destruct (wire_by reader rc (base (body p))) as [wired ok] eqn:Ew.
  destruct (negb ok && recipe_has_no_anchor (base (body p)) (wire_by reader rc)) eqn:Ea.
  { destruct (has_irlume_line (body p)); [apply strip_keeps|by apply keeps_nothing]. }
  destruct (has_line_continuation (PamOverrides.text p)) eqn:Ec; [by apply keeps_nothing|].
  destruct (p_unreadable p) eqn:Eu; [by apply keeps_nothing|].
  assert (Hn : body p <> []).
  { intros E. rewrite E in Ew, Ea. change (base []) with ([10] : str) in *. destruct (nothing_to_wire reader rc) as [N1 N2].
    rewrite Ew in N1. cbn [snd] in N1. subst ok. by rewrite N2 in Ea. }
  pose proof (body_readable cur p parsed Hn Ec Eu) as Hr. destruct (base_readable (body p) Hr) as [Hbr Hbf].
  case_bool_decide. { destruct (crlf p); [|by apply keeps_nothing]. eapply keeps_text; [done|done|by left]. }
  assert (Hw : base wired = base (body p) /\ readable wired).
  { destruct ok; [by eapply wired_base|]. apply unwired_as_is in Ew as ->. split; [by apply base_idem|done]. }
  destruct Hw as [Hwb Hwr]. destruct (arrange _ _ _ _ _ _) as [arranged|[]] eqn:Ear; [|by apply keeps_nothing..].
  destruct (arrange_spec reader rc (body p) wired (vendor i) e arranged Hr Hwb Hwr Ear) as [Hab _].
  unfold chosen_text. destruct (check_cases arranged e) as [[ss Hck]|[Hck Hmv]].
  - rewrite Hck. destruct (filled_in_place reader (body p) wired e) as [[filled ck]|] eqn:Ef; [|by apply keeps_nothing]. cbn [mbind option_bind].
    unfold filled_in_place in Ef. destruct (fill_slots (body p) wired) as [f'|] eqn:Efs; [|done]. cbn [mbind option_bind] in Ef.
    destruct (fill_spec (body p) wired f' Hr Hwr jobs Efs) as (_ & _ & Fj & Fb).
    assert (f' = filled) as -> by (repeat case_match; by simplify_eq).
    destruct (_ && _ && _); [by apply keeps_nothing|]. eapply keeps_text; [done|done|by left].
  - destruct (check_jumps reader (body p) arranged e) eqn:E; [| |by destruct (Hck shifts)]; cbn [andb];
      (eapply keeps_text; [done|done|]; intros Hc; right; left; apply Hmv; destruct Hc; auto).
Qed.
End Kept.

(** ** Lines irlume reads as libpam does *)

(** One line that is read, and is not continued. *)
Definition continues (l : str) : bool :=
  bool_decide (list.last (trim_end_matches is_blank l) = Some 92) && negb (bool_decide (35 ∈ before 0 l)).
Definition line_read (l : str) : Prop := continues l = false /\ unread l = None.
#[export] Instance line_read_dec l : stdpp.base.Decision (line_read l).
Proof. unfold line_read. apply _. Defined.

Lemma first_unread_all f n ls : Forall (fun l => f l = None) ls -> first_unread f n ls = None.
Proof. intros H. revert n. induction H as [|l ls Hl _ IH]; intros n; cbn [first_unread]; [done|]. by rewrite Hl. Qed.

Lemma existsb_Forall {A} (f : A -> bool) l : existsb f l = false <-> Forall (fun x => f x = false) l.
Proof.
  split; [|apply existsb_none]. induction l as [|x l IH]; cbn [existsb]; [by constructor|].
  intros [Hx Hl]%orb_false_iff. constructor; [done|by apply IH].
Qed.

Lemma read_as_pam_lines c : read_as_pam c = true <-> Forall line_read (split_at 10 c).
Proof.
  unfold read_as_pam, unreadable_line. change (has_line_continuation c) with (existsb continues (split_at 10 c)). split.
  - destruct (existsb continues (split_at 10 c)) eqn:Ec; [done|]. cbn [negb andb]. apply existsb_Forall in Ec.
    destruct (first_unread unread 1 (split_at 10 c)) eqn:Eu; [done|]. intros _. apply first_unread_none in Eu. apply list.Forall_and. by split.
  - intros [H1 H2]%list.Forall_and. rewrite (existsb_none _ _ H1), first_unread_all by done. done.
Qed.

Lemma unread_comment l : 0 ∉ l -> directive l = [] -> unread l = None.
Proof.
  intros H0 Hd. unfold unread. rewrite bool_decide_eq_false_2 by done. rewrite Hd. unfold is_at_include, head. rewrite Hd. reflexivity.
Qed.

#[local] Transparent is_irlume_line kind word TYPES inert_of.
Lemma stanza_read l : l ∈ stanza_list -> line_read l.
Proof.
  assert (H : forallb (fun o => bool_decide (line_read o)) stanza_list = true) by (vm_compute; reflexivity).
  rewrite forallb_forall in H. intros Ho%list_elem_of_In. by apply H, bool_decide_eq_true in Ho.
Qed.
#[local] Opaque is_irlume_line kind word TYPES inert_of.

Lemma wired_was_read reader rc c w : wire_by reader rc c = (w, true) -> read_as_pam c = true.
Proof.
  destruct rc; cbn [wire_by]; unfold wire_greeter_impl, wire_lock, wire_fp_keyring, wire_verify_service, wire_polkit_service, wire_omarchy_lock, refuses;
    destruct (read_as_pam c); done.
Qed.

(** The lines of a text the recipe wired. *)
Lemma wired_lines_read reader rc c w : readable c -> Forall (fun l => foreign l = true) (lines c) ->
  wire_by reader rc c = (w, true) -> Forall line_read (lines w).
Proof.
  intros Hr Hf Hw. pose proof Hr as (Hu & Hn & Hcl & H0). pose proof (wired_was_read _ _ _ _ Hw) as Hread%read_as_pam_lines.
  rewrite <- Hu, split_unlines in Hread by done. apply list.Forall_app in Hread as [Hread _].
  destruct (recipe_marks c reader rc w Hcl Hf Hw) as (out & -> & [Hadd Hwr] & o & Ho & _).
  assert (Hno : out <> []) by (intros ->; by apply elem_of_nil in Ho). rewrite lines_unlines by (done || by apply wrote_clean).
  apply list.Forall_forall. intros l Hl. rewrite list.Forall_forall in Hwr, Hread. destruct (is_irlume_line l) eqn:Eo; [by apply stanza_read, Hwr|].
  apply Hread. rewrite <- Hadd. apply list_elem_of_In, filter_In. split; [by apply list_elem_of_In|by apply foreign_other].
Qed.

(** A text a recipe wires has an anchor. *)
Lemma wired_has_anchor reader rc c w : readable c -> wire_by reader rc c = (w, true) -> recipe_has_no_anchor c (wire_by reader rc) = false.
Proof.
  intros (Hu & Hn & Hcl & H0) Hw. pose proof (wired_was_read _ _ _ _ Hw) as Hread%read_as_pam_lines.
  rewrite <- Hu, split_unlines in Hread by done. apply list.Forall_app in Hread as [Hread _].
  assert (Hone : Forall (fun l => has_line_continuation l = false /\ unreadable_line l = None) (split_inclusive 10 c)).
  { rewrite <- Hu, split_inclusive_unlines by done. apply Forall_map. apply list.Forall_forall. intros l Hl.
    rewrite list.Forall_forall in Hread, Hcl. destruct (Hread l Hl) as [Hc Hun], (Hcl l Hl) as [Hlf _].
    assert (Hs : split_at 10 (l ++ [10]) = [l; []]) by by rewrite split_at_app.
    assert (Hcont : has_line_continuation (l ++ [10]) = false).
    { unfold has_line_continuation. rewrite Hs. cbn [existsb]. unfold continues in Hc. rewrite Hc. reflexivity. }
    split; [done|]. unfold unreadable_line. rewrite Hcont, Hs. cbn [first_unread]. rewrite Hun. reflexivity. }
  unfold recipe_has_no_anchor. rewrite existsb_none.
  2: { eapply list.Forall_impl; [exact Hone|]. by intros l [-> _]. }
  rewrite existsb_none.
  2: { eapply list.Forall_impl; [exact Hone|]. intros l [H1 H2]. unfold probe. by rewrite H1, H2. }
  rewrite filter_all.
  2: { eapply list.Forall_impl; [exact Hone|]. intros l [H1 H2]. unfold probe. by rewrite H1, H2. }
  rewrite <- Hu at 1. rewrite split_inclusive_unlines, unlines_join, Hu, Hw by done. done.
Qed.

(** A fresh override, with the header over what a recipe wired, is read. *)
Lemma fresh_read vp vs bs w :
  (10 ∉ vp) /\ (13 ∉ vp) -> 0 ∉ vp -> is_sha256_hex vs = true -> is_sha256_hex bs = true -> readable w -> Forall line_read (lines w) ->
  unreadable_line (created_line vp ++ 10 :: tracking_line vs bs ++ 10 :: w) = None.
Proof.
  intros Hp Hp0 Hv Hb (Hu & Hn & Hcl & H0) Hread. unfold unreadable_line. case_match; [done|].
  rewrite split_at_app by by apply created_clean. rewrite split_at_app by by apply tracking_clean.
  apply first_unread_all. constructor; [|constructor].
  - apply unread_comment; [by apply created_absent|apply created_comment].
  - apply unread_comment; [by apply tracking_absent|apply tracking_comment].
  - rewrite <- Hu, split_unlines by done. apply list.Forall_app. split; [|by repeat constructor].
    eapply list.Forall_impl; [exact Hread|]. by intros l [].
Qed.

Lemma normalize_fresh vp vs bs w :
  (10 ∉ vp) /\ (13 ∉ vp) -> is_sha256_hex vs = true -> is_sha256_hex bs = true -> readable w ->
  normalize (created_line vp ++ 10 :: tracking_line vs bs ++ 10 :: w) = created_line vp ++ 10 :: tracking_line vs bs ++ 10 :: w.
Proof.
  intros Hp Hv Hb (Hu & Hn & _). unfold normalize. rewrite lines_cons by by apply created_clean. rewrite lines_cons by by apply tracking_clean.
  destruct (lines w) as [|l ls]; [done|]. by rewrite !unlines_cons, Hu.
Qed.

(** What [render] wrote, as [parse] and [classify] read it. *)
Definition rendered (sha256 : str -> str) (vp v w : str) : Parsed :=
  MkParsed (created_line vp) (Some (tracking_line (sha256 v) (sha256 (base w)))) (Some 1%nat) (render sha256 vp v w)
    (Some (sha256 v, sha256 (base w))) w false.

Lemma parse_rendered sha256 vp v w :
  (10 ∉ vp) /\ (13 ∉ vp) -> (forall x, is_sha256_hex (sha256 x) = true) -> readable w ->
  PamOverrides.parse (render sha256 vp v w) = Some (rendered sha256 vp v w).
Proof. intros Hp Hs Hw. exact (parse_written vp Hp (sha256 v) (sha256 (base w)) w (Hs _) (Hs _) Hw). Qed.
Lemma rendered_unedited sha256 vp v w : classify sha256 (rendered sha256 vp v w) (Some v) = U1.
Proof. unfold classify, rendered, body_digest. cbn [digests body]. by rewrite !bool_decide_eq_true_2. Qed.
Lemma normalize_rendered sha256 vp v w :
  (10 ∉ vp) /\ (13 ∉ vp) -> (forall x, is_sha256_hex (sha256 x) = true) -> readable w ->
  normalize (render sha256 vp v w) = render sha256 vp v w.
Proof. intros Hp Hs Hw. exact (normalize_fresh vp (sha256 v) (sha256 (base w)) w Hp (Hs _) (Hs _) Hw). Qed.

(** ** Reconcile *)

Lemma trim_start_stop f b y : stops f y -> trim_start_matches f (b ++ y) = trim_start_matches f b ++ y.
Proof.
  intros Hy. unfold trim_start_matches. induction b as [|c b IH]; cbn [app span].
  - destruct y as [|c y]; [done|]. cbn in Hy. cbn [span]. by rewrite Hy.
  - destruct (f c); [|done]. destruct (span f (b ++ y)) as [u v]. destruct (span f b) as [u' v']. done.
Qed.
Lemma without_crs_app a b : list.last a <> Some 13 -> a <> [] -> without_crs (a ++ b) = a ++ without_crs b.
Proof.
  intros Hl Hn. unfold without_crs, trim_end_matches. rewrite reverse_app, trim_start_stop, reverse_app, reverse_involutive; [done|].
  rewrite <- head_reverse in Hl. destruct (reverse a) as [|c r] eqn:E; [done|]. cbn. unfold is_cr. apply bool_decide_eq_false. intros ->. by apply Hl.
Qed.

Lemma lines_from_first r : forall cur l, cur <> [] -> lines_from cur r !! 0%nat = Some l -> exists a, without_crs l = without_crs (reverse cur ++ a).
Proof.
  induction r as [|x r IH]; intros cur l Hn; cbn [lines_from].
  - destruct cur as [|y cur]; [done|]. intros [= <-]. exists []. by rewrite app_nil_r.
  - case_bool_decide as Hx.
    + intros [= <-]. destruct (stdpp.base.decide (cur !! 0%nat = Some 13)) as [H13|H13].
      * destruct cur as [|y cur]; [done|]. injection H13 as ->. exists []. rewrite app_nil_r, reverse_cons. unfold without_crs, trim_end_matches.
        rewrite reverse_app. change (strip_cr (13 :: cur)) with (reverse cur). change (reverse [13]) with ([13] : str). unfold trim_start_matches. cbn [app span is_cr].
        change (is_cr 13) with true. cbv iota. by destruct (span is_cr (reverse (reverse cur))). 
      * exists []. rewrite app_nil_r. f_equal. unfold strip_cr. f_equal. destruct cur as [|y cur]; [done|]. destruct y as [|y|y]; try done.
        do 4 (destruct y as [y|y|]; try done).
    + intros Hl. destruct (IH (x :: cur) l) as (a & Ha); [done|done|]. exists (x :: a). rewrite Ha, reverse_cons, <- app_assoc. done.
Qed.

#[local] Transparent word.
Lemma parse_first cur p : PamOverrides.parse cur = Some p ->
  clean (first p) /\ forall r, starts_with CREATED_PREFIX (first p ++ r) = true.
Proof.
  unfold PamOverrides.parse. destruct (starts_with CREATED_PREFIX cur) eqn:Es; [|done]. cbn [negb].
  destruct (map without_crs (lines cur) !! 0%nat) as [fst|] eqn:Ef; [|done]. cbn [mbind option_bind]. intros [= <-]. cbn [first].
  apply starts_with_true in Es as (r0 & ->). assert (Hl : lines (CREATED_PREFIX ++ r0) = lines_from (reverse CREATED_PREFIX) r0) by reflexivity.
  rewrite Hl in Ef. rewrite list_lookup_fmap in Ef. destruct (lines_from (reverse CREATED_PREFIX) r0 !! 0%nat) as [l|] eqn:E; [|done].
  injection Ef as <-. assert (Hin : l ∈ lines (CREATED_PREFIX ++ r0)) by (rewrite Hl; by apply list_elem_of_lookup_2 in E).
  split.
  - split; [|apply without_crs_last]. intros H%without_crs_incl. pose proof (lines_from_no_lf (CREATED_PREFIX ++ r0) [] (not_elem_of_nil 10)) as Hf.
    rewrite list.Forall_forall in Hf. by apply (Hf l).
  - apply lines_from_first in E as (a & ->); [|done]. rewrite reverse_involutive, without_crs_app by done. intros r. rewrite <- app_assoc.
    apply starts_with_true. by eexists.
Qed.
#[local] Opaque word.

(** The recipe and settings of [wire_with], by name. *)
Definition recipe_of (r : PamDecide.Recipe) (s : Settings) : PamWiringTheory.Recipe :=
  match r with
  | PamDecide.Greeter => PamWiringTheory.Greeter (face s) (keyring s) (ondemand s)
  | PamDecide.Lock => PamWiringTheory.Lock
  | PamDecide.Verify => PamWiringTheory.Verify
  | PamDecide.Polkit => PamWiringTheory.Polkit
  end.
Lemma wire_with_by reader r s c : wire_with reader r s c = wire_by reader (recipe_of r s) c.
Proof. by destruct r. Qed.
