(* ===== verification/PamDecideClaims.v ===== *)
(** * What the decision for an override promises

    Nothing an administrator wrote is lost, and only a file nobody edited is
    deleted. *)

From S2P Require Import Prelude Text Ordering PamGrammar PamLines PamOverrides PamWiring PamJumpTheory PamWiringTheory PamOverrideTheory PamArrange PamArrangeTheory PamHeaderTheory PamDecide PamDecideTheory.
Import grammar.

#[local] Opaque is_irlume_line kind word TYPES inert_of.

(** C33. Nothing an administrator wrote is lost.  Of a file whose irlume rules name
    plain jobs, and which may hold lines irlume did not write or whose vendor
    copy is gone, no run without [--adjust-jumps] is a deletion, and what a run
    writes keeps what irlume did not write.  Either it is the file without
    irlume's lines, every other byte as it was, written only when no numeric
    jump could count the lines that go; or it keeps the header and every line
    irlume did not write, in order, and, where the file is edited or holds a
    line of irlume, either no numeric jump changes, or none is newly moved by
    irlume's lines, or these are all gone and every jump lands as it did or as
    it does in the vendor's copy.  In an
    unedited file that irlume's lines had left, a run may move a jump.  The one
    exception is a forced rebuild, which first keeps a copy and never in place
    of another one. *)
Theorem edits_survive (sha256 : str -> str) reader rc (i : Input) (cur : str) (p : Parsed) d :
  wire i = wire_by reader rc -> current i = Some cur -> PamOverrides.parse cur = Some p -> known_jobs (lines (body p)) ->
  let class := classify sha256 p (vendor i) in
  class ∉ [U1; U2; L1] ->
  decide sha256 reader i = Ok d ->
  write d <> Write.Remove
  /\ forall t, write d = Write.Replace t ->
       kept reader i p cur class t
       \/ (enable i = true /\ force i = true /\ keep_copy d = true /\ (backup i = None \/ backup i = Some cur)).
Proof.
  intros Hw Hcur Hp Hj class Hcl. unfold decide. rewrite Hcur, Hp. cbn [ok_or mbind result_bind]. fold class.
  assert (K : forall d', keeps reader i p cur class d' -> @Ok Undecided _ d' = Ok d ->
            write d <> Write.Remove /\ forall t, write d = Write.Replace t -> kept reader i p cur class t
              \/ (enable i = true /\ force i = true /\ keep_copy d = true /\ (backup i = None \/ backup i = Some cur))).
  { intros d' [K1 K2] [= <-]. split; [done|]. intros t Ht. left. by apply K2. }
  destruct (enable i) eqn:Ee; cbn [negb]; [|apply K; by eapply strip_keeps].
  rewrite (bool_decide_eq_false_2 (class = U2)) by (intros E; rewrite E in Hcl; set_solver). cbn [andb].
  destruct (has_irlume_line (body p) && _); [apply K; by eapply strip_keeps|].
  destruct (p_unreadable p); [apply K; by apply keeps_nothing|].
  destruct (force i && bool_decide (class ∈ [E1; E2; L2])) eqn:Ef.
  - apply andb_true_iff in Ef as [Ef _]. unfold forced. destruct (vendor i) as [v|] eqn:Ev; [|done]. cbn [ok_or mbind result_bind].
    case_bool_decide; [apply K; by apply keeps_nothing|]. destruct (wire i (base v)) as [wired ok]. destruct ok; cbn [negb].
    + destruct (match backup i with Some b => negb (bool_decide (b = cur)) | None => false end) eqn:Eb; [done|].
      assert (Hb : backup i = None \/ backup i = Some cur).
      { destruct (backup i) as [b|]; [|by left]. right. apply negb_false_iff, bool_decide_eq_true in Eb. by rewrite Eb. }
      destruct (check_jumps _ _ _ _); try (apply K; by apply keeps_nothing); (intros [= <-]; split; [done|]; intros t _; right; by split_and!).
    + apply K. destruct (has_irlume_line (body p)); [by eapply strip_keeps|by apply keeps_nothing].
  - assert (Hg : keeps reader i p cur class (vendor_gone reader i p class)) by (by eapply in_place_keeps).
    assert (Hr : keeps reader i p cur class (rewire_edited reader i p class)) by (by eapply in_place_keeps).
    destruct class; try (by apply K); set_solver.
Qed.

(** ** Deletion *)

Lemma strip_removes reader i p class na : write (remove_or_strip reader i p class na) = Write.Remove -> class ∈ [U1; U2; L1].
Proof. unfold remove_or_strip. case_bool_decide; [done|]. repeat case_match; done. Qed.

Lemma in_place_removes reader i p class e unchanged : write (in_place reader i p class e unchanged) = Write.Remove -> class ∈ [U1; U2; L1].
Proof.
  unfold in_place. destruct (wire i _) as [wired ok]. case_match; [destruct (has_irlume_line _); [apply strip_removes|done]|].
  repeat case_match; done.
Qed.
Lemma rebuild_removes sha256 reader i cur p class : write (rebuild sha256 reader i cur p class) = Write.Remove -> class ∈ [U1; U2; L1].
Proof.
  unfold rebuild, vendor_gone. destruct (vendor i); [|apply in_place_removes]. destruct (wire i _) as [wired ok].
  destruct (_ || _); [apply in_place_removes|]. case_match; [done|]. destruct (check_jumps _ _ _ _); [done|done|apply in_place_removes].
Qed.
Lemma forced_removes sha256 reader i cur p class d :
  forced sha256 reader i cur p class = Ok d -> write d = Write.Remove -> class ∈ [U1; U2; L1].
Proof.
  unfold forced. destruct (vendor i); [|done]. cbn [ok_or mbind result_bind]. case_bool_decide; [by intros [= <-]|].
  destruct (wire i _) as [wired []]; cbn [negb].
  - case_match; [done|]. destruct (check_jumps _ _ _ _); by intros [= <-].
  - intros [= <-]. destruct (has_irlume_line _); [apply strip_removes|done].
Qed.

Lemma removable_class sha256 p vendor : classify sha256 p vendor ∈ [U1; U2; L1] ->
  exists v, vendor = Some v /\ (base (body p) = base v \/ exists vendor_sha, digests p = Some (vendor_sha, body_digest sha256 (body p))).
Proof.
  unfold classify. destruct vendor as [v|].
  - intros H. exists v. split; [done|]. destruct (digests p) as [[vs bs]|].
    + case_bool_decide as Hb; [right; exists vs; by rewrite Hb|]. case_bool_decide; [by left|]. case_match; set_solver.
    + case_bool_decide; [by left|]. set_solver.
  - destruct (digests p) as [[vs bs]|]; [case_bool_decide|]; set_solver.
Qed.

(** Only a file nobody edited is deleted: a run that deletes an override
    does so when its vendor copy is there, and the file without irlume's lines
    is what irlume wrote or is the vendor's copy without them. *)
Theorem only_unedited_removed (sha256 : str -> str) reader (i : Input) d :
  decide sha256 reader i = Ok d -> write d = Write.Remove ->
  exists cur p v, current i = Some cur /\ PamOverrides.parse cur = Some p /\ vendor i = Some v
    /\ (base (body p) = base v \/ exists vendor_sha, digests p = Some (vendor_sha, body_digest sha256 (body p))).
Proof.
  unfold decide. destruct (current i) as [cur|] eqn:Ec.
  - destruct (PamOverrides.parse cur) as [p|] eqn:Ep; [|done]. cbn [ok_or mbind result_bind]. set (class := classify sha256 p (vendor i)).
    intros Hd Hw. assert (Hc : class ∈ [U1; U2; L1]).
    { revert Hd. destruct (negb (enable i)); [intros [= <-]; by eapply strip_removes|].
      destruct (bool_decide (class = U2) && _); [intros [= <-]; by eapply rebuild_removes|].
      destruct (has_irlume_line _ && _); [intros [= <-]; by eapply strip_removes|]. destruct (p_unreadable p); [by intros [= <-]|].
      destruct (force i && _); [intros Hd; by eapply forced_removes|]. intros [= <-].
      destruct class; try (by eapply rebuild_removes); unfold rewire_edited, vendor_gone in Hw; by apply in_place_removes in Hw. }
    destruct (removable_class sha256 p (vendor i) Hc) as (v & Hv & H). by exists cur, p, v.
  - intros [= <-]. unfold decide_absent. destruct (enable i); [|done]. cbn [negb]. destruct (vendor i); [|done]. case_bool_decide; [done|].
    destruct (wire i _) as [? []]; done.
Qed.

(** C34. Enabling settles, and disabling undoes it: the file an enable creates
    from a vendor copy is one the next enable finds correctly wired and leaves
    alone, forced or not, and one a disable deletes, whatever else the runs
    differ in. *)
Theorem fresh_override_settles (sha256 : str -> str) reader rc (i0 i : Input) (v t : str) d0 :
  (10 ∉ vendor_path i0) /\ (13 ∉ vendor_path i0) -> 0 ∉ vendor_path i0 -> (forall x, is_sha256_hex (sha256 x) = true) ->
  readable v -> current i0 = None -> vendor i0 = Some v -> wire i0 = wire_by reader rc ->
  decide sha256 reader i0 = Ok d0 -> write d0 = Write.Replace t ->
  current i = Some t -> vendor i = Some v -> vendor_path i = vendor_path i0 -> wire i = wire_by reader rc ->
  decide sha256 reader i
  = Ok (if enable i then keep PlannedChange.AlreadyCorrect
        else MkDecision PlannedChange.RemoveOverride Write.Remove false false false).
Proof.
  intros Hp Hp0 Hs Hv Hc0 Hv0 Hw0 Hd0 Ht Hc Hvi Hvp Hw. destruct (base_readable v Hv) as [Hb Hf].
  unfold decide in Hd0. rewrite Hc0 in Hd0. injection Hd0 as <-. unfold decide_absent in Ht. rewrite Hv0, Hw0 in Ht.
  destruct (enable i0); [|done]. cbn [negb] in Ht. case_bool_decide as Hun; [done|].
  destruct (wire_by reader rc (base v)) as [w ok] eqn:Ew. destruct ok; [|done]. cbn [negb] in Ht. injection Ht as <-.
  destruct (wired_base reader rc (base v) w Hb Hf Ew) as [Hbw Hrw]. pose proof (wired_lines_read reader rc (base v) w Hb Hf Ew) as Hlr.
  unfold decide. rewrite Hc, Hvi, (parse_rendered sha256 _ v w) by done. cbn [ok_or mbind result_bind]. rewrite rendered_unedited.
  destruct (enable i); cbn [negb]; [|done]. rewrite (bool_decide_eq_false_2 (U1 = U2)) by done. cbn [andb].
  change (body (rendered sha256 (vendor_path i0) v w)) with w. rewrite Hbw, Hw, (wired_has_anchor _ _ _ _ Hb Ew), andb_false_r.
  assert (Hu : p_unreadable (rendered sha256 (vendor_path i0) v w) = false).
  { unfold p_unreadable, rendered, render. cbn [PamOverrides.text]. unfold body_digest. rewrite fresh_read by (done || apply Hs). by apply bool_decide_eq_false. }
  rewrite Hu. rewrite (bool_decide_eq_false_2 (U1 ∈ [E1; E2; L2])), andb_false_r by set_solver.
  unfold rebuild. rewrite Hvi, Hw, Ew. rewrite (bool_decide_eq_false_2 _ Hun). cbn [negb orb]. rewrite Hvp.
  rewrite (normalize_rendered sha256 (vendor_path i0) v w Hp Hs Hrw). by rewrite bool_decide_eq_true_2.
Qed.

(** ** Reconcile *)

Lemma unedited_done sha256 p v : digests p = Some (sha256 v, body_digest sha256 (body p)) -> classify sha256 p (Some v) = U1.
Proof. intros Hd. unfold classify. rewrite Hd. rewrite (bool_decide_eq_true_2 (body_digest _ _ = _)) by done. by rewrite bool_decide_eq_true_2. Qed.

Lemma maintained sha256 reader recipe cur vp v p : PamOverrides.parse cur = Some p -> classify sha256 p (Some v) = U1 ->
  maintenance sha256 reader recipe cur vp (Some v) = MNothing.
Proof. intros Hp Hc. unfold maintenance. by rewrite Hp, Hc. Qed.

(** The file is as irlume wrote it. *)
Definition vouched_for (sha256 : str -> str) (p : Parsed) (vendor_sha : str) : Prop :=
  digests p = Some (vendor_sha, body_digest sha256 (body p)).
(** As irlume wrote it, from another copy than [v]. *)
Definition outdated (sha256 : str -> str) (p : Parsed) (v : str) : Prop :=
  exists vendor_sha, vouched_for sha256 p vendor_sha /\ vendor_sha <> sha256 v.
(** Not vouched for, and the vendor's copy [v] but for irlume's lines. *)
Definition matching (sha256 : str -> str) (p : Parsed) (v : str) : Prop :=
  base (body p) = base v /\ forall vendor_sha, ~ vouched_for sha256 p vendor_sha.

Lemma classify_outdated sha256 p v : classify sha256 p (Some v) = U2 -> outdated sha256 p v.
Proof.
  unfold classify, outdated, vouched_for. destruct (digests p) as [[vs bs]|].
  - case_bool_decide as Hb; [|by repeat case_bool_decide]. subst bs. case_bool_decide as Hs; [done|]. intros _. exists vs. split; [done|congruence].
  - by case_bool_decide.
Qed.
Lemma classify_matching sha256 p v : classify sha256 p (Some v) = L1 -> matching sha256 p v.
Proof.
  unfold classify, matching, vouched_for. destruct (digests p) as [[vs bs]|].
  - case_bool_decide as Hb; [by case_bool_decide|]. case_bool_decide; [|by case_bool_decide]. intros _. split; [done|]. intros ? [= -> ?]. congruence.
  - case_bool_decide; [|done]. intros _. by split.
Qed.

(** C35. Reconcile settles and keeps what is wired: what it writes to an override
    it leaves alone from then on, as an unedited one of its vendor copy.  It
    records the copy only in a file whose body without irlume's lines is that
    copy's and whose header does not already vouch for it, and keeps the first
    line and every line of the body; it rebuilds only a file whose body is the
    one its header vouches for, as written from another vendor copy, and only
    for the login methods its lines show, from the vendor's copy with irlume's
    lines only added, and only when these move no numeric jump.  A file with an
    edit is neither: its body is not vouched for and is not the copy's. *)
Theorem reconcile_settles (sha256 : str -> str) reader recipe (cur vp v t : str) :
  (10 ∉ vp) /\ (13 ∉ vp) -> (forall x, is_sha256_hex (sha256 x) = true) -> readable v ->
  let m := maintenance sha256 reader recipe cur vp (Some v) in
  m = Record_ t \/ m = Refresh t ->
  maintenance sha256 reader recipe t vp (Some v) = MNothing
  /\ exists p q, PamOverrides.parse cur = Some p /\ PamOverrides.parse t = Some q /\ classify sha256 q (Some v) = U1
     /\ (m = Record_ t -> matching sha256 p v /\ first q = first p /\ body q = body p)
     /\ (m = Refresh t -> outdated sha256 p v /\ base (body q) = base v /\ infer recipe (body q) = infer recipe (body p)
                         /\ is_Some (infer recipe (body p)) /\ jumps_moved_by_irlume reader (body p) (body q) = []).
Proof.
  intros Hvp Hs Hv m Hm. destruct (PamOverrides.parse cur) as [p|] eqn:Hp; [|unfold m, maintenance in Hm; rewrite Hp in Hm; by destruct Hm].
  destruct (parse_first cur p Hp) as [Hf1 Hf2]. destruct (parse_body cur p Hp) as (_ & bl & Hbl & Hcl & _).
  assert (Ht : text_of bl (body p)) by (split; [done|]; destruct Hbl as [?|[? ->]]; [by left|by right]).
  assert (Hq : exists q, PamOverrides.parse t = Some q /\ digests q = Some (sha256 v, body_digest sha256 (body q))
     /\ (m = Record_ t -> matching sha256 p v /\ first q = first p /\ body q = body p)
     /\ (m = Refresh t -> outdated sha256 p v /\ base (body q) = base v /\ infer recipe (body q) = infer recipe (body p)
                         /\ is_Some (infer recipe (body p)) /\ jumps_moved_by_irlume reader (body p) (body q) = [])).
  { unfold m, maintenance in *. rewrite Hp in *. destruct (classify sha256 p (Some v)) eqn:Ecl; try (by destruct Hm).
    - destruct (_ || bool_decide (is_Some (unreadable_line v))); [by destruct Hm|].
      destruct (infer recipe (body p)) as [s|] eqn:Ei; [|by destruct Hm]. rewrite wire_with_by in *.
      destruct (wire_by reader (recipe_of recipe s) (base v)) as [w ok] eqn:Ew. destruct ok; cbn [negb] in *; [|by destruct Hm].
      destruct (bool_decide (infer recipe w = Some s)) eqn:Ew2; cbn [negb] in *; [|by destruct Hm]. apply bool_decide_eq_true in Ew2.
      destruct (jumps_moved_by_irlume reader (body p) w) eqn:Ej; [|by destruct Hm]. destruct Hm as [Hm|Hm]; [done|]. injection Hm as <-.
      destruct (base_readable v Hv) as [Hb Hf]. destruct (wired_base reader (recipe_of recipe s) (base v) w Hb Hf Ew) as [Hbw Hrw].
      exists (rendered sha256 vp v w). split; [by apply parse_rendered|]. cbn [digests body rendered]. split_and!; [done|done|].
      intros _. split_and!; [by apply classify_outdated|done|by rewrite Ew2|done|done].
    - destruct (_ || has_read_carriage_return _); [by destruct Hm|]. destruct Hm as [Hm|Hm]; [|done]. injection Hm as <-.
      eexists. split; [apply parse_file; [apply Hs|apply Hs|done|done|by exists bl]|]. cbn [digests body first]. apply classify_matching in Ecl. by split_and!. }
  destruct Hq as (q & Hq & Hd & H1 & H2). pose proof (unedited_done sha256 q v Hd) as Hc. split; [by eapply maintained|]. exists p, q. by split_and!.
Qed.

(** ** A greeter's override *)

#[local] Transparent is_irlume_line kind word TYPES inert_of.

Definition sample_path : str := word "/usr/lib/pam.d/gdm-password".
Definition greeter : PamWiringTheory.Recipe := PamWiringTheory.Greeter true true false.
Definition run (cur : option str) (on : bool) : Input :=
  MkInput sample_path cur (Some sample_stack) None on false (wire_by None greeter).
Definition sample_override : str := render length_digest sample_path sample_stack sample_wired.
(** With a rule an administrator added. *)
Definition edited_override : str := sample_override ++ word "auth required pam_shells.so" ++ [10].
Definition edited_parsed : Parsed := default (rendered length_digest [] [] []) (PamOverrides.parse edited_override).
Definition disabled : Decision :=
  match decide length_digest None (run (Some edited_override) false) with Ok d => d | Err _ => no_anchor end.

Lemma edits_survive_witness :
  exists t, write disabled = Write.Replace t /\ content_has_module t = false /\ write disabled <> Write.Remove.
Proof.
  destruct (edits_survive length_digest None greeter (run (Some edited_override) false) edited_override edited_parsed disabled) as [H1 _].
  - reflexivity.
  - reflexivity.
  - vm_compute. reflexivity.
  - apply (bool_decide_eq_true_1 _). vm_compute. reflexivity.
  - apply (bool_decide_eq_true_1 _). vm_compute. reflexivity.
  - vm_compute. reflexivity.
  - exists (match write disabled with Write.Replace t => t | _ => [] end). split; [vm_compute; reflexivity|]. split; [vm_compute; reflexivity|exact H1].
Defined.

Definition removed : Decision := MkDecision PlannedChange.RemoveOverride Write.Remove false false false.

Lemma only_unedited_removed_witness :
  decide length_digest None (run (Some sample_override) false) = Ok removed /\ exists p, PamOverrides.parse sample_override = Some p.
Proof.
  assert (H : decide length_digest None (run (Some sample_override) false) = Ok removed) by (vm_compute; reflexivity).
  split; [exact H|]. destruct (only_unedited_removed length_digest None (run (Some sample_override) false) removed H eq_refl) as (cur & p & v & H1 & H2 & _).
  exists p. injection H1 as H1. rewrite H1. exact H2.
Defined.

Lemma fresh_override_settles_witness :
  decide length_digest None (run (Some sample_override) true) = Ok (keep PlannedChange.AlreadyCorrect).
Proof.
  apply (fresh_override_settles length_digest None greeter (run None true) (run (Some sample_override) true) sample_stack sample_override
           (replace PlannedChange.MaterializeOverride sample_override)).
  - apply (bool_decide_eq_true_1 _). vm_compute. reflexivity.
  - apply (bool_decide_eq_true_1 _). vm_compute. reflexivity.
  - exact length_digest_hex.
  - apply (bool_decide_eq_true_1 _). vm_compute. reflexivity.
  - reflexivity.
  - reflexivity.
  - reflexivity.
  - vm_compute. reflexivity.
  - reflexivity.
  - reflexivity.
  - reflexivity.
  - reflexivity.
  - reflexivity.
Defined.

(** The vendor's next copy, with one more rule. *)
Definition next_stack : str := sample_stack ++ word "session  required     pam_loginuid.so" ++ [10].
Definition next_override : str :=
  match maintenance length_digest None PamDecide.Greeter sample_override sample_path (Some next_stack) with Refresh t => t | _ => [] end.

Lemma reconcile_settles_witness :
  maintenance length_digest None PamDecide.Greeter sample_override sample_path (Some next_stack) = Refresh next_override
  /\ maintenance length_digest None PamDecide.Greeter next_override sample_path (Some next_stack) = MNothing.
Proof.
  assert (H : maintenance length_digest None PamDecide.Greeter sample_override sample_path (Some next_stack) = Refresh next_override)
    by (vm_compute; reflexivity).
  split; [exact H|]. destruct (reconcile_settles length_digest None PamDecide.Greeter sample_override sample_path next_stack next_override) as [H1 _].
  - apply (bool_decide_eq_true_1 _). vm_compute. reflexivity.
  - exact length_digest_hex.
  - apply (bool_decide_eq_true_1 _). vm_compute. reflexivity.
  - right. exact H.
  - exact H1.
Defined.
