(* ===== verification/PamSeat.v ===== *)
(** * Where a PAM transaction comes from

    The parts of [irlume-pam/src/lib.rs] that tell a remote transaction from a
    local one by its PAM items and by the login session of a process, and the
    warm-session test of [irlume-common/src/platform.rs].

    A lookup reads each file at most once, so a [Files] is what the reads of
    one lookup return, whatever happens to the files meanwhile: [None] is any
    error, bytes that are not UTF-8 among them. *)

From S2P Require Import Prelude Text Services.

(** [names_remote_x_display]. *)
Definition is_display_number (number : str) : bool :=
  let n := before 46 number in negb (bool_decide (n = [])) && forallb is_ascii_digit n.

Definition names_remote_x_display (display : str) : bool :=
  let display := trim_str display in
  if starts_with (str_codes "/") display then false
  else match rsplit_once 58 display with
  | None => false
  | Some (host, number) =>
      if negb (is_display_number number) then false
      else match split_once 47 host with
      | Some (protocol, _) =>
          negb (eq_ignore_ascii_case protocol (str_codes "unix")
                || eq_ignore_ascii_case protocol (str_codes "local"))
      | None => negb (bool_decide (host = [])) && negb (eq_ignore_ascii_case host (str_codes "unix"))
      end
  end.

(** [is_remote_desktop_service]. *)
Definition is_remote_desktop_service (service : string) : bool :=
  if bool_decide (pam_service.classify service = Some pam_service.Remote) then true
  else let s := str_codes (to_ascii_lowercase (trim service)) in
  starts_with (str_codes "xrdp") s
  || contains (str_codes "vnc") s
  || starts_with (str_codes "xpra") s
  || bool_decide (s = str_codes "nx")
  || starts_with (str_codes "nxagent") s
  || starts_with (str_codes "nxnode") s
  || starts_with (str_codes "nxserver") s
  || bool_decide (s = str_codes "sshd").

(** The test of [PAM_RHOST] in [is_remote_session]. *)
Definition rhost_is_local (rhost : str) : bool :=
  let h := trim_str rhost in
  bool_decide (h = [])
  || eq_ignore_ascii_case h (str_codes "localhost")
  || eq_ignore_ascii_case h (str_codes "localhost.localdomain")
  || bool_decide (h = str_codes "127.0.0.1")
  || bool_decide (h = str_codes "::1").

(** ** A process's login session *)

Inductive CgroupOwner :=
| Session (id : str) (uid : Z)
| UserManager (uid : Z).

Definition logind_id (id : str) : bool :=
  negb (bool_decide (id = [])) && forallb is_ascii_alphanumeric id.

(** [Iterator::next] over what a list still holds. *)
Definition next {A} (l : list A) : option (A * list A) :=
  match l with [] => None | a :: l => Some (a, l) end.

(** The components of a path. *)
Definition components (path : str) : list str :=
  List.filter (fun part => negb (bool_decide (part = []))) (split_at 47 path).

Definition between (pre post part : str) : option str := strip_prefix pre part ≫= strip_suffix post.

Definition owner_of_path (path : str) : option CgroupOwner :=
  '(top, parts) ← next (components path);
  if negb (bool_decide (top = str_codes "user.slice")) then None else
  '(slice, parts) ← next parts;
  uid ← between (str_codes "user-") (str_codes ".slice") slice ≫= parse_uint_codes 32;
  '(unit, parts) ← next parts;
  match between (str_codes "session-") (str_codes ".scope") unit with
  | Some id =>
      if bool_decide (parts = []) && logind_id id then Some (Session id uid) else None
  | None =>
      manager ← between (str_codes "user@") (str_codes ".service") unit ≫= parse_uint_codes 32;
      if bool_decide (manager = uid) then Some (UserManager uid) else None
  end.

(** The path of a cgroup line of the two hierarchies that are read. *)
Definition cgroup_line (line : str) : option str :=
  '(_, fields) ← split_once 58 line;
  '(controllers, path) ← split_once 58 fields;
  if bool_decide (controllers = []) || bool_decide (controllers = str_codes "name=systemd")
  then Some path else None.

Definition cgroup_owner (text : str) : option CgroupOwner :=
  find_map owner_of_path (omap cgroup_line (lines text)).

Definition logind_value (text key : str) : option str :=
  find_map (fun line =>
    rest ← strip_prefix key line;
    value ← strip_prefix (str_codes "=") rest;
    Some (trim_str value)) (lines text).

(** [Process]. *)
Inductive Process := Current | Pid (pid : Z).

Definition proc_entry (process : Process) : str :=
  match process with Current => str_codes "self" | Pid pid => decimal pid end.

(** The trees a lookup reads: [/proc] and logind's state directory. *)
Record Files := MkFiles {
  f_proc : list str -> option str;
  f_logind : list str -> option str;
}.

(** The session that speaks for a process, of the user whose slice holds it. *)
Definition session_of_owner (fs : Files) (owner : CgroupOwner) : option (str * Z) :=
  match owner with
  | Session id uid => Some (id, uid)
  | UserManager uid =>
      user ← f_logind fs [str_codes "users"; decimal uid];
      id ← logind_value user (str_codes "DISPLAY");
      if logind_id id then Some (id, uid) else None
  end.

Definition session_is_local (fs : Files) (process : Process) : bool :=
  match f_proc fs [proc_entry process; str_codes "cgroup"] with
  | None => false
  | Some cgroup =>
      match cgroup_owner cgroup ≫= session_of_owner fs with
      | None => false
      | Some (session, uid) =>
          match f_logind fs [str_codes "sessions"; session] with
          | None => false
          | Some text =>
              bool_decide (logind_value text (str_codes "UID") = Some (decimal uid))
              && bool_decide (logind_value text (str_codes "REMOTE") = Some (str_codes "0"))
          end
      end
  end.

(** ** Whether the user has a live session ([platform.rs]) *)

Module platform.

(** What [loginctl] prints, [None] when it is missing or cannot be run, or,
    for the list, fails; the name service; and whether [/run/user/<uid>]
    exists. *)
Record Login := MkLogin {
  list_sessions : option str;
  show_session : str -> option str;
  uid_for_name : str -> option Z;
  runtime_dir : Z -> bool;
}.

Definition property (properties key : str) : str :=
  trim_str (default [] (find_map (strip_prefix key) (lines properties))).

Definition is_local_graphical_user (properties : str) : bool :=
  let val k := property properties (str_codes k) in
  bool_decide (val "Class=" = str_codes "user")
  && bool_decide (val "State=" ∈ map str_codes ["active"; "online"])
  && bool_decide (val "Type=" ∈ map str_codes ["x11"; "wayland"; "mir"])
  && bool_decide (val "Remote=" = str_codes "no").

Definition session_is_local_graphical_user (l : Login) (session : str) : bool :=
  match show_session l session with
  | None => false
  | Some out => is_local_graphical_user (lossy out)
  end.

Definition active_graphical_session (l : Login) (user : str) : option bool :=
  out ← list_sessions l;
  Some (existsb (fun line =>
    match split_whitespace line with
    | session :: _ :: name :: _ =>
        bool_decide (name = user) && session_is_local_graphical_user l session
    | _ => false
    end) (lines (lossy out))).

Definition user_has_live_session (l : Login) (user : str) : bool :=
  match active_graphical_session l user with
  | Some active => active
  | None => match uid_for_name l user with Some uid => runtime_dir l uid | None => false end
  end.
End platform.
