(* ===== verification/PamModule.v ===== *)
(** * The PAM module

    [irlume-pam/src/lib.rs]: the entry points libpam calls, what they ask of
    the user, of irlumed and of the two keyring helpers, and the code they
    return.

    libpam (through the [pamsm] crate), irlumed at the other end of its
    socket, the helper programs and the clock are not code of the module.  The
    module reaches them by a [Call], answered by [step] from a state [W] of
    the outside world that the call may change; a call whose answer is [None]
    panicked.  What only reads is a function of [W].  The run keeps a log of
    its calls and their answers, so a statement about all hosts is one about
    every behaviour of libpam, irlumed and the helpers.

    Times are milliseconds.  Zeroizing and the journal's own handling of a
    message are not modelled. *)

From S2P Require Import Prelude Text Services Protocol PamSeat.
From S2P Require FaceGate.

(** [PamError]: the codes the module returns. *)
Inductive PamError := SUCCESS | IGNORE | ABORT.

#[export] Instance PamError_eq_dec : EqDecision PamError.
Proof. solve_decision. Defined.

(** [FaceSensorPolicyObservation] and its [resolve]. *)
Inductive FaceSensorPolicyObservation :=
| DefaultDual | Explicit (p : FaceGate.FaceSensorPolicy) | Invalid | Unreadable.

Definition resolve (o : FaceSensorPolicyObservation) : result Error.t FaceGate.FaceSensorPolicy :=
  match o with
  | DefaultDual => Ok FaceGate.Dual
  | Explicit p => Ok p
  | Invalid | Unreadable =>
      Err (Error.Policy "face sensor policy is invalid or unreadable; use your password")
  end.

(** The replies of irlumed the module tells apart: those of the face path, and
    the others it asks for. *)
Inductive Reply :=
| Face (r : Response.t)
| Health (tier : string) (split_trust : option bool)
| SensorStatus (policy : FaceSensorPolicyObservation)
| PasswordResealed
| KeyringUnlockNotNeeded
| OtherReply.

(** A helper process, and how one ended. *)
Abbreviation Child := nat.
Record ExitStatus := MkExit { code : option Z; signal : option Z }.
Definition success (s : ExitStatus) : bool := bool_decide (code s = Some 0).

(** One [read] of a non-blocking pipe: the bytes it got, none at its end. *)
Inductive ReadResult := Got (chunk : str) | Interrupted | WouldBlock | ReadFailed.

(** What the module asks of the outside, and the answers.  A [pamsm] or
    [std::io] error is [None]: no caller looks at which one. *)
Inductive Call :=
| GetUser
| GetAuthtok (prompt : option string)
| ClearAuthtok
| SetAuthtok (tok : str)
| Info (msg : string)
| SendSecret (key : string) (value : str)
| PutEnv (entry : str)
| Syslog (msg : string)
| Exchange (req : Request)                    (** [request]: 25 s to answer *)
| ExchangeUntil (req : Request) (deadline : Z)  (** [client::request_until] *)
| ReadWalletSalt (user : string)              (** [client::read_wallet_salt] *)
| ConsultLogin                                (** the lookups of [platform] *)
| Sleep (ms : Z)
| Spawn (program : string) (user : string)
| WriteAll (child : Child) (input : str)
| TryWait (child : Child)
| Kill (child : Child)
| SetNonblocking (child : Child)              (** of its standard output *)
| ReadStdout (child : Child).

Definition Answer (c : Call) : Type :=
  match c with
  | GetUser | GetAuthtok _ => option (option str)
  | ClearAuthtok | SetAuthtok _ | Info _ | SendSecret _ _ | PutEnv _ | WriteAll _ _
  | SetNonblocking _ => option ()
  | Exchange _ | ExchangeUntil _ _ => option Reply
  | ReadWalletSalt _ => option (option str)
  | ConsultLogin => platform.Login
  | Spawn _ _ => option Child
  | TryWait _ => option (option ExitStatus)
  | ReadStdout _ => ReadResult
  | Syslog _ | Sleep _ | Kill _ => ()
  end.

(** The outside world.  [pam_get_item] and its like read the handle; the
    configuration, the environment and the trees of files are read too. *)
Class Host (W : Type) := {
  step (c : Call) : W -> option (Answer c) * W;
  clock : W -> Z;
  get_rhost : W -> option (option str);
  get_xdisplay : W -> option (option str);
  get_tty : W -> option (option str);
  get_service : W -> option (option str);
  get_cached_authtok : W -> option (option str);
  get_secret : string -> W -> option str;
  getenv : string -> W -> option (option str);
  env_is_set : string -> W -> bool;            (** [std::env::var_os] *)
  secure_env : string -> W -> option str;      (** [client::secure_env] *)
  peer_cred : W -> option Z;                   (** the peer of standard input, when a socket *)
  parent_id : W -> Z;
  files_under : str -> W -> list str -> option str;
  is_file : str -> W -> bool;
  consent_required : W -> bool;                (** [config::privileged_face_consent_required] *)
}.

(** ** Runs *)

Inductive Event := Did (c : Call) (answer : option (Answer c)).

Record St (W : Type) := MkSt { world : W; log : list Event }.
Arguments MkSt {_} _ _.
Arguments world {_} _.
Arguments log {_} _.

(** How a run ends: with a value, by unwinding, or with more turns of a loop
    still to take than the fuel allows. *)
Inductive outcome (A : Type) := Done (a : A) | Panics | Spins.
Arguments Done {_} _.
Arguments Panics {_}.
Arguments Spins {_}.

Definition M (W A : Type) : Type := St W -> outcome A * St W.

#[export] Instance M_ret {W} : MRet (M W) := fun A a s => (Done a, s).
#[export] Instance M_bind {W} : MBind (M W) := fun A B f m s =>
  match m s with
  | (Done a, s) => f a s
  | (Panics, s) => (Panics, s)
  | (Spins, s) => (Spins, s)
  end.
Definition spin {W A} : M W A := fun s => (Spins, s).

Section Module.
Context {W : Type} `{Host W}.

(** Reads, and calls. *)
Definition reads {A} (f : W -> A) : M W A := fun s => (Done (f (world s)), s).
Definition call (c : Call) : M W (Answer c) := fun s =>
  let '(a, w) := step c (world s) in
  (match a with Some a => Done a | None => Panics end, MkSt w (log s ++ [Did c a])).
Definition now : M W Z := reads clock.

(** [firewall]. *)
Definition firewall (body : M W PamError) : M W PamError := fun s =>
  match body s with (Panics, s) => (Done IGNORE, s) | r => r end.

(** ** Consent *)

Definition WAIT_BUDGET : Z := 20000.
Definition WAIT_RETRY_GAP : Z := 400.
Definition FACE_INTENT_INFO : string := "Type yes to use face authentication".
Definition COSMIC_FACE_PROMPT : string := "Password or yes for face: ".

Inductive IntentInput := InputConfirmed | InputEmpty | InputPassword.
Inductive IntentConfirmation := Confirmed | Fallback | Abort.

Definition classify_intent_input (response : option str) : IntentInput :=
  match response with
  | None => InputEmpty
  | Some response =>
      if bool_decide (response = []) then InputEmpty
      else if bool_decide (length response <= 16)%nat
           && forallb (fun b => bool_decide (b < 128)) response
           && eq_ignore_ascii_case (trim_str response) (str_codes "yes")
      then InputConfirmed else InputPassword
  end.

Definition resolve_intent_input (input : IntentInput) : M W IntentConfirmation :=
  match input with
  | InputPassword => mret Fallback
  | InputEmpty => r ← call ClearAuthtok; mret (if r is Some _ then Fallback else Abort)
  | InputConfirmed => r ← call ClearAuthtok; mret (if r is Some _ then Confirmed else Abort)
  end.

(** [confirm_face_intent_with] on the handle's own calls. *)
Definition confirm_face_intent (service : pam_service.ServiceKind) : M W IntentConfirmation :=
  if negb (pam_service.requires_face_intent_confirmation service) then mret Fallback else
  shown ← call (Info FACE_INTENT_INFO);
  match shown with
  | None => mret Fallback
  | Some _ =>
      token ← call (GetAuthtok None);
      match token with
      | Some (Some token) => resolve_intent_input (classify_intent_input (Some token))
      | _ => mret Fallback
      end
  end.

Definition privileged_face_is_rgb_only : M W bool :=
  start ← now;
  let deadline := start + 1500 in
  health ← call (ExchangeUntil Protocol.Health deadline);
  let convenience :=
    match health with
    | Some (Health tier split_trust) =>
        bool_decide (tier = "convenience") && negb (bool_decide (split_trust = Some true))
    | _ => false
    end in
  if negb convenience then mret false else
  status ← call (ExchangeUntil (FaceSensorStatus None) deadline);
  mret (negb match status with
             | Some (SensorStatus policy) =>
                 match resolve policy with Ok FaceGate.IrOnlyExperimental => true | _ => false end
             | _ => false
             end).

Definition confirm_cosmic_face : M W IntentConfirmation :=
  let ask :=
    token ← call (GetAuthtok (Some COSMIC_FACE_PROMPT));
    match token with
    | Some (Some token) => resolve_intent_input (classify_intent_input (Some token))
    | _ => mret Fallback
    end in
  cached ← reads get_cached_authtok;
  match cached with
  | Some (Some token) =>
      if negb (bool_decide (token = [])) then mret Fallback
      else r ← call ClearAuthtok; if r is Some _ then ask else mret Abort
  | Some None => ask
  | None => mret Fallback
  end.

(** ** Remote transactions *)

Definition item_text (value : option (option str)) : option str := lossy <$> mjoin value.

(** [process_session_is_local], over the trees the environment names. *)
Definition process_session_is_local (w : W) (process : Process) : bool :=
  session_is_local
    (MkFiles (files_under (default (str_codes "/proc") (secure_env "IRLUME_PROC_DIR" w)) w)
             (files_under (default (str_codes "/run/systemd") (secure_env "IRLUME_LOGIND_DIR" w)) w))
    process.

(** [requesting_agent_pid]: a socket's peer, else the parent. *)
Definition requesting_agent_pid (w : W) : option Z :=
  pid ← match peer_cred w with
        | Some pid => if bool_decide (0 <= pid) then Some pid else None
        | None => Some (parent_id w)
        end;
  if bool_decide (1 < pid) then Some pid else None.

Definition consent_requester_is_local (w : W) : bool :=
  match requesting_agent_pid w with
  | Some pid => process_session_is_local w (Pid pid)
  | None => false
  end.

Definition elevation_caller_is_local (w : W) : bool := process_session_is_local w Current.

Definition service_is_remote (w : W) (svc : string) : bool :=
  is_remote_desktop_service svc
  || match pam_service.classify svc with
     | Some pam_service.AppConsent => negb (consent_requester_is_local w)
     | Some pam_service.Elevation => negb (elevation_caller_is_local w)
     | _ => false
     end.

Definition is_remote_session (w : W) : bool :=
  if match item_text (get_rhost w) with Some h => negb (rhost_is_local h) | None => false end
  then true
  else let item value := match item_text value with Some v => names_remote_x_display v | None => false end in
  if item (get_xdisplay w) || item (get_tty w) then true
  else if match item_text (get_service w) with
          | Some svc => service_is_remote w (codes_str svc)
          | None => false
          end then true
  else env_is_set "SSH_CONNECTION" w || env_is_set "SSH_TTY" w.

(** The service name when it is UTF-8 ([CStr::to_str]), and as text. *)
Definition service_str (w : W) : option string :=
  s ← mjoin (get_service w); if is_utf8 s then Some (codes_str s) else None.
Definition service_text (w : W) : option string := codes_str <$> item_text (get_service w).

(** ** One attempt *)

Definition situation_prompt (situation : string) : option string :=
  if bool_decide (situation = "timed out") then Some "authentication timed out; use your password"
  else if bool_decide (situation = "unavailable")
  then Some "face authentication unavailable; use your password"
  else if bool_decide (situation = "no face") then Some "look at the camera"
  else if bool_decide (situation = "too far") then Some "come closer"
  else if bool_decide (situation = "off-center") then Some "center your face in the frame"
  else if bool_decide (situation = "looking away") then Some "look directly at the camera"
  else if bool_decide (situation = "too dark")
  then Some "it is too dark to see your face; add light"
  else if bool_decide (situation = "IR source")
  then Some "an IR-bright source is overwhelming the camera; reposition or use your password"
  else None.

Definition try_verify (user : string) (intent : option IntentAttestation) : M W PamError :=
  service ← reads service_text;
  let is_polkit_consent :=
    match service ≫= pam_service.classify with
    | Some k => pam_service.wants_consent_instruction k
    | None => false
    end in
  reply ← call (Exchange (Authenticate false user service intent));
  match reply with
  | Some (Face (Response.AuthResult granted _ live _ _ declined_by_gesture situation _)) =>
      if granted && live then mret SUCCESS
      else if negb granted && declined_by_gesture && is_polkit_consent then mret ABORT
      else if negb granted then
        match situation_prompt situation with
        | Some action => _ ← call (Info ("irlume: " +:+ action)); mret IGNORE
        | None => mret IGNORE
        end
      else mret IGNORE
  | _ => mret IGNORE
  end.

Inductive Released := AuthtokSet | WalletStarted | TokenStashed | ReleaseFailed.

#[global] Instance Released_eq_dec : EqDecision Released.
Proof. solve_decision. Defined.

Inductive UnsealAttempt := Delivered (r : Released) | Unavailable | Failed.

Definition code_for (delivered : Released) : PamError :=
  match delivered with
  | AuthtokSet | WalletStarted | TokenStashed => SUCCESS
  | ReleaseFailed => IGNORE
  end.

Definition RESEAL_STASH_KEY : string := "pam_irlume_reseal_authtok".
Definition GKR_TOKEN_STASH_KEY : string := "pam_irlume_gkr_token".
Definition LOGIN_ENV : string := "PAM_KWALLET5_LOGIN".
Definition SESSION_NOT_READY_EXIT : Z := 4.
Definition KWALLET_INIT_PATH : string := "/usr/libexec/irlume/irlume-kwallet-init".
Definition GKR_UNLOCK_PATH : string := "/usr/libexec/irlume/irlume-gkr-unlock".
Definition HELPER_BUDGET : Z := 15000.
Definition HELPER_STDOUT_MAX : nat := 4096.

(** [secret_cstring]: a C string holds no zero byte. *)
Definition secret_cstring (secret : str) : option str :=
  if bool_decide (0 ∈ secret) then None else Some secret.

(** ** The helper processes *)

Section Helpers.
Variable fuel : nat.

(** The loops of [kill_bounded] and [reap_by]. *)
Fixpoint poll_dead (n : nat) (child : Child) (reap_deadline : Z) : M W () :=
  match n with
  | O => spin
  | S n =>
      status ← call (TryWait child);
      match status with
      | Some (Some _) | None => mret tt
      | Some None =>
          t ← now;
          if bool_decide (reap_deadline <= t) then mret tt
          else _ ← call (Sleep 10); poll_dead n child reap_deadline
      end
  end.
Definition kill_bounded (child : Child) : M W () :=
  _ ← call (Kill child); t ← now; poll_dead fuel child (t + 200).

Fixpoint reap_from (n : nat) (child : Child) (deadline : Z) : M W (option ExitStatus) :=
  match n with
  | O => spin
  | S n =>
      status ← call (TryWait child);
      match status with
      | Some (Some status) => mret (Some status)
      | Some None =>
          t ← now;
          if bool_decide (deadline <= t) then _ ← kill_bounded child; mret None
          else _ ← call (Sleep 25); reap_from n child deadline
      | None => _ ← kill_bounded child; mret None
      end
  end.
Definition reap_by (child : Child) (deadline : Z) : M W (option ExitStatus) := reap_from fuel child deadline.

(** [read_stdout_bounded]; a piped child always has its standard output. *)
Definition kill_and_fail {A} (child : Child) : M W (option A) := _ ← kill_bounded child; mret None.

Definition read_finished (child : Child) (deadline : Z) (exited : option ExitStatus) (out : str)
    : M W (option (ExitStatus * str)) :=
  match exited with
  | Some status => mret (Some (status, out))
  | None => status ← reap_by child deadline; mret ((fun status => (status, out)) <$> status)
  end.

Fixpoint read_from (n : nat) (child : Child) (deadline : Z) (exited : option ExitStatus) (out : str)
    : M W (option (ExitStatus * str)) :=
  match n with
  | O => spin
  | S n =>
      r ← call (ReadStdout child);
      match r with
      | Got [] => read_finished child deadline exited out
      | Got chunk =>
          let out := out ++ chunk in
          if bool_decide (HELPER_STDOUT_MAX < length out)%nat then kill_and_fail child
          else read_from n child deadline exited out
      | Interrupted => read_from n child deadline exited out
      | WouldBlock =>
          match exited with
          | Some _ => read_finished child deadline exited out
          | None =>
              status ← call (TryWait child);
              match status with
              | Some (Some status) => read_from n child deadline (Some status) out
              | Some None =>
                  t ← now;
                  if bool_decide (deadline <= t) then kill_and_fail child
                  else _ ← call (Sleep 25); read_from n child deadline exited out
              | None => kill_and_fail child
              end
          end
      | ReadFailed => kill_and_fail child
      end
  end.

Definition read_stdout_bounded (child : Child) (budget : Z) : M W (option (ExitStatus * str)) :=
  r ← call (SetNonblocking child);
  match r with
  | None => kill_and_fail child
  | Some _ => t ← now; read_from fuel child (t + budget) None []
  end.

(** [secure_helper_path]. *)
Definition secure_helper_path (var compiled : string) (w : W) : string :=
  match secure_env var w with
  | Some v =>
      if is_utf8 v && negb (bool_decide (trim_str v = [])) then codes_str v else compiled
  | None => compiled
  end.

Definition kwallet_login_set (w : W) : bool :=
  match getenv LOGIN_ENV w with Some (Some sock) => negb (bool_decide (sock = [])) | _ => false end.

(** The entry that names the wallet daemon's socket. *)
Definition login_entry (sock : str) : str := str_codes LOGIN_ENV ++ str_codes "=" ++ sock.

Inductive WalletHandoff := Started | NotReady | HandoffFailed.

Definition hand_key_to_wallet_daemon (user : string) (key : str) : M W WalletHandoff :=
  running ← reads kwallet_login_set;
  if (running : bool) then mret HandoffFailed else
  helper ← reads (secure_helper_path "IRLUME_KWALLET_INIT" KWALLET_INIT_PATH);
  present ← reads (is_file (str_codes helper));
  if negb present then mret HandoffFailed else
  spawned ← call (Spawn helper user);
  match spawned with
  | None => mret HandoffFailed
  | Some child =>
      written ← call (WriteAll child key);
      match written with
      | None => _ ← kill_bounded child; mret HandoffFailed
      | Some _ =>
          r ← read_stdout_bounded child HELPER_BUDGET;
          match r with
          | None => mret HandoffFailed
          | Some (status, stdout) =>
              if negb (success status) then
                mret (if bool_decide (code status = Some SESSION_NOT_READY_EXIT)
                      then NotReady else HandoffFailed)
              else let sock := trim_str (lossy stdout) in
              if bool_decide (sock = []) then mret HandoffFailed
              else r ← call (PutEnv (login_entry sock));
              mret (if r is Some _ then Started else HandoffFailed)
          end
      end
  end.

Inductive HandOffFailure :=
| Missing | SpawnFailed | Input | Exit (code : Z) | Signal (signal : Z) | TimedOut | UnknownStatus.

(** A number as [{}] prints it. *)
Definition number (z : Z) : string :=
  if bool_decide (z < 0) then "-" +:+ codes_str (decimal (- z)) else codes_str (decimal z).

Definition message (f : HandOffFailure) : string :=
  let HELPER := "irlume-gkr-unlock" in
  "GNOME keyring token hand-off failed: " +:+
  match f with
  | Missing => HELPER +:+ " not found"
  | SpawnFailed => HELPER +:+ " could not be started"
  | Input => HELPER +:+ " closed its input early"
  | Exit code => HELPER +:+ " exited with code " +:+ number code
  | Signal signal => HELPER +:+ " was ended by signal " +:+ number signal
  | TimedOut => HELPER +:+ " was still running after " +:+ number (HELPER_BUDGET / 1000) +:+ " s and was killed"
  | UnknownStatus => HELPER +:+ " could not be waited for"
  end.

Definition log_hand_off_failure (f : HandOffFailure) : M W () := call (Syslog (message f)).

(** How the helper ended, when not with success. *)
Definition hand_off_failure (status : option ExitStatus) (late : bool) : HandOffFailure :=
  match status with
  | Some status =>
      match code status, signal status with
      | Some code, _ => Exit code
      | None, Some signal => Signal signal
      | None, None => UnknownStatus
      end
  | None => if late then TimedOut else UnknownStatus
  end.

Definition hand_token_to_keyring_daemon (user : string) (secret : str) : M W bool :=
  helper ← reads (secure_helper_path "IRLUME_GKR_UNLOCK" GKR_UNLOCK_PATH);
  present ← reads (is_file (str_codes helper));
  if negb present then _ ← log_hand_off_failure Missing; mret false else
  spawned ← call (Spawn helper user);
  match spawned with
  | None => _ ← log_hand_off_failure SpawnFailed; mret false
  | Some child =>
      written ← call (WriteAll child secret);
      match written with
      | None => _ ← kill_bounded child; _ ← log_hand_off_failure Input; mret false
      | Some _ =>
          start ← now;
          let deadline := start + HELPER_BUDGET in
          status ← reap_by child deadline;
          if match status with Some status => success status | None => false end then mret true
          else t ← now;
          _ ← log_hand_off_failure (hand_off_failure status (bool_decide (deadline <= t)));
          mret false
      end
  end.

(** ** Releasing a secret *)

Definition release_secret (user : string) (secret : str) (kind : SecretKind.t) : M W Released :=
  match kind with
  | SecretKind.LoginPassword =>
      match secret_cstring secret with
      | None => mret ReleaseFailed
      | Some tok => r ← call (SetAuthtok tok); mret (if r is Some _ then AuthtokSet else ReleaseFailed)
      end
  | SecretKind.KdeWalletKey =>
      r ← hand_key_to_wallet_daemon user secret;
      mret match r with Started => WalletStarted | NotReady | HandoffFailed => ReleaseFailed end
  | SecretKind.GnomeKeyringToken =>
      r ← call (SendSecret GKR_TOKEN_STASH_KEY secret);
      mret (if r is Some _ then TokenStashed else ReleaseFailed)
  end.

(** The bytes of a secret on the wire. *)
Definition expose (secret : list byte) : str := map byte_val secret.

Definition try_unseal (user : string) : M W UnsealAttempt :=
  service ← reads service_str;
  reply ← call (Exchange (UnsealPassword user service));
  match reply with
  | Some (Face (Response.PasswordUnsealed secret kind)) =>
      r ← release_secret user (expose secret) kind; mret (Delivered r)
  | Some (Face (Response.UnsealUnavailable _)) => mret Unavailable
  | _ => mret Failed
  end.

(** ** [authenticate] *)

(** The arguments of the module's line. *)
Record Args := MkArgs {
  unseal : bool; wait : bool; reseal : bool; keyring : bool;
  kr : bool; facefirst : bool; ondemand : bool;
}.

Definition parse_args (args : list string) : Args :=
  let has a := bool_decide (a ∈ args) in
  MkArgs (has "unseal") (has "wait") (has "reseal") (has "keyring") (has "kr") (has "facefirst")
    (has "ondemand").

Definition stash_authtok : M W () :=
  tok ← reads get_cached_authtok;
  match tok with
  | Some (Some bytes) =>
      if negb (bool_decide (bytes = []))
      then _ ← call (SendSecret RESEAL_STASH_KEY bytes); mret tt else mret tt
  | _ => mret tt
  end.

(** One turn of the loop: the code it earned and how a secret was delivered. *)
Definition attempt_once (a : Args) (user : string) (intent : option IntentAttestation)
    : M W (PamError * Released) :=
  if unseal a then
    r ← try_unseal user;
    match r with
    | Delivered delivered => mret (code_for delivered, delivered)
    | Unavailable =>
        if facefirst a || ondemand a
        then c ← try_verify user None; mret (c, ReleaseFailed)
        else mret (IGNORE, ReleaseFailed)
    | Failed => mret (IGNORE, ReleaseFailed)
    end
  else c ← try_verify user intent; mret (c, ReleaseFailed).

(** What the stack is told of a success. *)
Definition settle_success (a : Args) (user : string) (delivered : Released) : M W PamError :=
  if kr a && bool_decide (delivered = AuthtokSet)
  then l ← call ConsultLogin;
       mret (if negb (platform.user_has_live_session l (str_codes user)) then IGNORE else SUCCESS)
  else mret SUCCESS.

Fixpoint attempts (n : nat) (a : Args) (user : string) (intent : option IntentAttestation)
    (deadline : Z) : M W PamError :=
  match n with
  | O => spin
  | S n =>
      '(attempt, delivered) ← attempt_once a user intent;
      match attempt with
      | ABORT => mret ABORT
      | SUCCESS => settle_success a user delivered
      | IGNORE =>
          t ← now;
          if negb (wait a) || bool_decide (deadline <= t) then mret IGNORE
          else _ ← call (Sleep WAIT_RETRY_GAP); attempts n a user intent deadline
      end
  end.

(** An early return is [inl]. *)
Definition or_return {A} (m : M W (PamError + A)) (k : A -> M W PamError) : M W PamError :=
  r ← m; match r with inl c => mret c | inr x => k x end.

(** Whether the user typed a password, which wins over the face. *)
Definition password_first (a : Args) (cosmic_choice : bool) : M W (PamError + ()) :=
  let probing := unseal a && negb (wait a) && negb (facefirst a) in
  let typed (tok : str) : M W (PamError + ()) :=
    if negb (bool_decide (tok = [])) then mret (inl IGNORE)
    else if probing then r ← call ClearAuthtok; mret (if r is Some _ then inr tt else inl IGNORE)
    else mret (inr tt) in
  if cosmic_choice then mret (inr tt)
  else if probing then
    r ← call (GetAuthtok (Some "Password: "));
    match r with Some (Some token) => typed token | _ => mret (inl IGNORE) end
  else
    r ← reads get_cached_authtok;
    match r with Some (Some token) => typed token | _ => mret (inr tt) end.

(** The consent a privileged service needs before its one face attempt. *)
Definition privileged_intent (a : Args) (service : option string)
    : M W (PamError + option IntentAttestation) :=
  match service ≫= pam_service.classify with
  | Some kind =>
      if negb (pam_service.requires_face_intent_confirmation kind) then mret (inr None)
      else if wait a || unseal a then mret (inl IGNORE)
      else
        rgb_only ← privileged_face_is_rgb_only;
        if (rgb_only : bool) then mret (inl IGNORE) else
        required ← reads consent_required;
        if negb required then mret (inr (Some PolicyWaived)) else
        c ← confirm_face_intent kind;
        mret match c with
             | Confirmed => inr (Some PamConversation)
             | Fallback => inl IGNORE
             | Abort => inl ABORT
             end
  | None => mret (inr None)
  end.

Definition cosmic_consent (cosmic_choice : bool) : M W (PamError + ()) :=
  if cosmic_choice then
    c ← confirm_cosmic_face;
    mret match c with Confirmed => inr tt | Fallback => inl IGNORE | Abort => inl ABORT end
  else mret (inr tt).

Definition authenticate (args : list string) : M W PamError := firewall (
  u ← call GetUser;
  match u with
  | Some (Some u) =>
      let user := codes_str (lossy u) in
      remote ← reads is_remote_session;
      if (remote : bool) then mret IGNORE else
      let a := parse_args args in
      if keyring a then mret IGNORE
      else if reseal a then _ ← stash_authtok; mret IGNORE
      else
      service ← reads service_str;
      let cosmic_choice :=
        unseal a && ondemand a && negb (wait a) && negb (facefirst a)
        && bool_decide (service = Some "cosmic-greeter") in
      or_return (cosmic_consent cosmic_choice) (fun _ =>
      or_return (password_first a cosmic_choice) (fun _ =>
      or_return (privileged_intent a service) (fun intent =>
      start ← now;
      attempts fuel a user intent (start + WAIT_BUDGET))))
  | _ => mret IGNORE
  end).

(** ** The session phase *)

Definition try_reseal_session (user : string) : M W bool :=
  stash ← reads (get_secret RESEAL_STASH_KEY);
  match stash with
  | None | Some [] => mret false
  | Some pw =>
      salt ← call (ReadWalletSalt user);
      match salt with
      | None => mret false
      | Some wallet_salt =>
          r ← call (Exchange (ResealPassword user pw wallet_salt true));
          mret match r with Some PasswordResealed => true | _ => false end
      end
  end.

Definition hand_over (user : string) (secret : str) (kind : SecretKind.t) : M W () :=
  match kind with
  | SecretKind.GnomeKeyringToken | SecretKind.LoginPassword =>
      _ ← hand_token_to_keyring_daemon user secret; mret tt
  | SecretKind.KdeWalletKey => _ ← hand_key_to_wallet_daemon user secret; mret tt
  end.

Definition deliver_keyring_secret (user : string) (have_password : bool) : M W () :=
  stash ← reads (get_secret GKR_TOKEN_STASH_KEY);
  let empty_stash := call (SendSecret GKR_TOKEN_STASH_KEY []) in
  match stash with
  | Some [] => mret tt
  | Some token => _ ← empty_stash; hand_over user token SecretKind.GnomeKeyringToken
  | None =>
      _ ← empty_stash;
      service ← reads service_str;
      r ← call (Exchange (UnsealKeyring user service have_password false));
      match r with
      | Some (Face (Response.PasswordUnsealed secret kind)) => hand_over user (expose secret) kind
      | _ => mret tt
      end
  end.

Definition open_session (args : list string) : M W PamError := firewall (
  if bool_decide ("reseal" ∈ args) then
    u ← call GetUser;
    match u with
    | Some (Some u) =>
        let user := codes_str (lossy u) in
        accepted_password ← try_reseal_session user;
        have_password ← (if (accepted_password : bool) then mret true else reads kwallet_login_set);
        _ ← deliver_keyring_secret user have_password;
        mret IGNORE
    | _ => mret IGNORE
    end
  else mret IGNORE).
End Helpers.

Definition setcred : M W PamError := firewall (mret SUCCESS).
Definition close_session : M W PamError := firewall (mret IGNORE).
End Module.
