(* ===== verification/PamModuleTheory.v ===== *)
(** * Reasoning about runs of the PAM module

    A weakest-precondition calculus for the module's runs: [wp m w T] says that
    [m], started in the world [w], ends with new calls, an outcome and a world
    that [T] holds of, whatever the log held before.  On it, what each
    operation of the module asks of the outside and what its outcome tells. *)

From S2P Require Import Prelude Text Services Protocol PamSeat PamModule.

#[local] Arguments str_codes : simpl never.
#[local] Arguments login_entry : simpl never.

Definition did (e : Event) : Call := match e with Did c _ => c end.

(** The new events of a run follow the world from call to call. *)
Fixpoint trace {W} `{Host W} (w : W) (new : list Event) (w' : W) : Prop :=
  match new with
  | [] => w = w'
  | Did c a :: new => exists w1, step c w = (a, w1) /\ trace w1 new w'
  end.

Section Wp.
Context {W : Type} `{Host W}.

Lemma trace_nil w : trace w [] w.
Proof. done. Qed.
Lemma trace_cons w c a w1 new w2 : step c w = (a, w1) -> trace w1 new w2 -> trace w (Did c a :: new) w2.
Proof. simpl. eauto. Qed.

Lemma trace_app w new new' w2 : trace w (new ++ new') w2 <-> exists w1, trace w new w1 /\ trace w1 new' w2.
Proof.
  revert w. induction new as [|[c a] new IH]; intros w; simpl; [naive_solver|].
  setoid_rewrite IH. naive_solver.
Qed.
Lemma trace_trans w new w1 new' w2 : trace w new w1 -> trace w1 new' w2 -> trace w (new ++ new') w2.
Proof. rewrite trace_app. eauto. Qed.

(** What no call of the run changes, the run does not change. *)
Lemma trace_keeps {A} (f : W -> A) w new w' :
  Forall (fun e => forall w, f (step (did e) w).2 = f w) new -> trace w new w' -> f w' = f w.
Proof.
  revert w. induction new as [|[c a] new IH]; intros w Hf; simpl; [by intros ->|].
  inversion_clear Hf as [|? ? Hc Hn]. intros (w1 & E & Ht). rewrite (IH w1 Hn Ht).
  specialize (Hc w). simpl in Hc. by rewrite E in Hc.
Qed.
Lemma trace_steady {A} (f : W -> A) w new w' :
  (forall c w, f (step c w).2 = f w) -> trace w new w' -> f w' = f w.
Proof. intros Hf. apply trace_keeps. apply list.Forall_true. auto. Qed.

Definition wp {A} (m : M W A) (w : W) (T : list Event -> outcome A -> W -> Prop) : Prop :=
  forall l, exists new, log (m (MkSt w l)).2 = l ++ new
    /\ trace w new (world (m (MkSt w l)).2)
    /\ T new (m (MkSt w l)).1 (world (m (MkSt w l)).2).

(** What a step of [m] leaves [k] to establish. *)
Definition then_ {A B} (k : A -> M W B) (T : list Event -> outcome B -> W -> Prop)
    : list Event -> outcome A -> W -> Prop := fun new o w =>
  match o with
  | Done a => wp (k a) w (fun new' o' w' => T (new ++ new') o' w')
  | Panics => T new Panics w
  | Spins => T new Spins w
  end.

Lemma wp_mono {A} (m : M W A) w (T T' : list Event -> outcome A -> W -> Prop) :
  wp m w T -> (forall new o w', trace w new w' -> T new o w' -> T' new o w') -> wp m w T'.
Proof. intros Hm HT l. destruct (Hm l) as (new & Hl & Hr & Ht). eauto 6. Qed.

Lemma wp_ret {A} (a : A) w T : T [] (Done a) w -> wp (mret a) w T.
Proof. intros HT l. exists []. rewrite app_nil_r. eauto using trace_nil. Qed.

Lemma wp_spin {A} w (T : list Event -> outcome A -> W -> Prop) : T [] Spins w -> wp spin w T.
Proof. intros HT l. exists []. rewrite app_nil_r. eauto using trace_nil. Qed.

Lemma wp_reads {A} (f : W -> A) w T : T [] (Done (f w)) w -> wp (reads f) w T.
Proof. intros HT l. exists []. rewrite app_nil_r. eauto using trace_nil. Qed.

Lemma wp_call c w T :
  (forall a w', step c w = (a, w') ->
     T [Did c a] (match a with Some a => Done a | None => Panics end) w') ->
  wp (call c) w T.
Proof.
  intros HT l. unfold call. simpl. destruct (step c w) as [a w'] eqn:E. exists [Did c a].
  split; [done|]. split; [by eapply trace_cons, trace_nil|by apply HT].
Qed.

Lemma wp_bind {A B} (m : M W A) (k : A -> M W B) w T :
  wp m w (then_ k T) -> wp (mbind k m) w T.
Proof.
  intros Hm l. destruct (Hm l) as (new & Hl & Hr & Ht). unfold mbind, M_bind.
  destruct (m (MkSt w l)) as [[a| |] [w' l']]; simpl in *; [|by eauto..].
  destruct (Ht (l ++ new)) as (new' & Hl' & Hr' & Ht'). subst l'. exists (new ++ new').
  split; [by rewrite Hl', app_assoc|]. eauto using trace_trans.
Qed.

Lemma wp_firewall m w T :
  wp m w (fun new o w' => T new (match o with Panics => Done IGNORE | o => o end) w') ->
  wp (firewall m) w T.
Proof.
  intros Hm l. destruct (Hm l) as (new & Hl & Hr & Ht). exists new. unfold firewall.
  by destruct (m (MkSt w l)) as [[a| |] s].
Qed.

(** What [wp] says of a run. *)
Lemma wp_run {A} (m : M W A) T s o s' :
  wp m (world s) T -> m s = (o, s') ->
  exists new, log s' = log s ++ new /\ trace (world s) new (world s') /\ T new o (world s').
Proof.
  intros Hm E. destruct s as [w l]. simpl in Hm. destruct (Hm l) as (new & Hl & Hr & Ht).
  rewrite E in Hl, Hr, Ht. eauto.
Qed.

(** Two facts of one run. *)
Lemma wp_and {A} (m : M W A) w (T T' : list Event -> outcome A -> W -> Prop) :
  wp m w T -> wp m w T' -> wp m w (fun new o w' => T new o w' /\ T' new o w').
Proof.
  intros H1 H2 l. destruct (H1 l) as (new & Hl & Hr & Ht), (H2 l) as (new' & Hl' & _ & Ht').
  rewrite Hl in Hl'. simplify_eq. eauto.
Qed.
End Wp.

(** One step of a run. *)
Ltac wp_step :=
  lazymatch goal with
  | |- wp (mbind _ _) _ _ => apply wp_bind
  | |- wp (mret _) _ _ => apply wp_ret
  | |- wp (reads _) _ _ => apply wp_reads
  | |- wp now _ _ => apply wp_reads
  | |- wp spin _ _ => apply wp_spin
  | |- wp (call ?c) _ _ => apply (wp_call c); intros [?|] ? ?
  | |- wp (if ?c then _ else _) _ _ => destruct c eqn:?
  | |- wp (match ?x with _ => _ end) _ _ => destruct x eqn:?
  | |- then_ _ _ _ _ _ => unfold then_; cbv beta iota
  end.
Ltac wp_steps := repeat (wp_step; simpl).

(** ** The helper processes ask nothing else of the outside *)

Definition quiet (c : Call) : bool :=
  match c with TryWait _ | Kill _ | SetNonblocking _ | ReadStdout _ | Sleep _ => true | _ => false end.
Definition all (P : Call -> Prop) (new : list Event) : Prop := Forall (fun e => P (did e)) new.

Lemma all_app P new new' : all P (new ++ new') <-> all P new /\ all P new'.
Proof. apply list.Forall_app. Qed.
Lemma all_one P c a : P c -> all P [Did c a].
Proof. by constructor. Qed.
Lemma all_nil P : all P [].
Proof. constructor. Qed.
Lemma all_cons (P : Call -> Prop) c a new : all P (Did c a :: new) <-> P c /\ all P new.
Proof. unfold all. by rewrite list.Forall_cons. Qed.
Lemma all_mono P Q new : (forall c, P c -> Q c) -> all P new -> all Q new.
Proof. intros HPQ Hp. eapply list.Forall_impl; [exact Hp|]. auto. Qed.
#[export] Hint Resolve all_one all_nil : irlume.

Lemma all_in P new c a : all P new -> Did c a ∈ new -> P c.
Proof. unfold all. rewrite list.Forall_forall. intros Hp Hi. by apply (Hp _ Hi). Qed.

Section Quiet.
Context {W : Type} `{Host W}.
Context (fuel : nat).

Definition silent {A} : list Event -> outcome A -> W -> Prop := fun new _ _ => all (fun c => quiet c) new.

Lemma silent_then {A B} (m : M W A) (k : A -> M W B) w :
  wp m w silent -> (forall a w', wp (k a) w' silent) -> wp (mbind k m) w silent.
Proof.
  intros Hm Hk. apply wp_bind. eapply wp_mono; [exact Hm|]. intros new [a| |] w' _ Hs; simpl; [|done..].
  eapply wp_mono; [apply Hk|]. intros new' o w2 _ Hs'. apply all_app. by split.
Qed.

Lemma silent_ret {A} (a : A) w : wp (mret a) w silent.
Proof. apply wp_ret, all_nil. Qed.
Lemma silent_reads {A} (f : W -> A) w : wp (reads f) w silent.
Proof. apply wp_reads, all_nil. Qed.
Lemma silent_spin {A} w : wp (A := A) spin w silent.
Proof. apply wp_spin, all_nil. Qed.
Lemma silent_call c w : quiet c -> wp (call c) w silent.
Proof. intros Hq. apply wp_call. intros a w' _. by apply all_one. Qed.
#[local] Hint Resolve silent_ret silent_reads silent_spin : irlume.
#[local] Hint Extern 0 (wp (call ?c) _ silent) => (apply (silent_call c); exact I) : irlume.

Ltac silent := repeat first
  [ progress auto with irlume
  | apply silent_then; [|intros]
  | match goal with |- wp (match ?x with _ => _ end) _ _ => destruct x end ].

Lemma silent_poll n child d w : wp (poll_dead n child d) w silent.
Proof. revert w. induction n as [|n IH]; intros w; simpl; unfold now; silent. Qed.
#[local] Hint Resolve silent_poll : irlume.

Lemma silent_kill child w : wp (kill_bounded fuel child) w silent.
Proof. unfold kill_bounded, now. silent. Qed.
#[local] Hint Resolve silent_kill : irlume.

Lemma silent_reap n child d w : wp (reap_from fuel n child d) w silent.
Proof. revert w. induction n as [|n IH]; intros w; simpl; unfold now; silent. Qed.
#[local] Hint Resolve silent_reap : irlume.

Lemma silent_finished child d exited out w : wp (read_finished fuel child d exited out) w silent.
Proof. unfold read_finished, reap_by. silent. Qed.
#[local] Hint Resolve silent_finished : irlume.

Lemma silent_read n child d exited out w : wp (read_from fuel n child d exited out) w silent.
Proof.
  revert exited out w. induction n as [|n IH]; intros exited out w; simpl; unfold kill_and_fail, now; silent.
Qed.
#[local] Hint Resolve silent_read : irlume.

Lemma silent_read_bounded child b w : wp (read_stdout_bounded fuel child b) w silent.
Proof. unfold read_stdout_bounded, kill_and_fail, now. silent. Qed.
Lemma silent_reap_by child d w : wp (reap_by fuel child d) w silent.
Proof. apply silent_reap. Qed.
End Quiet.

(** ** What each operation asks of the outside *)

Ltac wp_use lem := eapply wp_mono; [apply lem|]; intros ? [?| |] ? _ ?; simpl.
Ltac calls := repeat (rewrite all_app || rewrite all_cons); split_and?; try done; auto with irlume;
  try (eapply all_mono; [|eassumption]; intros []; simpl; done).

(** A call of the hand-over of the wallet key, and what a started wallet
    daemon was given. *)
Definition wallet_call (key : str) (c : Call) : Prop :=
  match c with Spawn _ _ | PutEnv _ => True | WriteAll _ input => input = key | c => quiet c end.
Definition wallet_started (user : string) (key : str) (new : list Event) : Prop :=
  exists p child entry, Did (Spawn p user) (Some (Some child)) ∈ new
    /\ Did (WriteAll child key) (Some (Some tt)) ∈ new
    /\ Did (PutEnv entry) (Some (Some tt)) ∈ new.

(** Calls of the delivery of a released secret, and what a delivery was. *)
Definition release_call (secret : str) (kind : SecretKind.t) (c : Call) : Prop :=
  match kind with
  | SecretKind.LoginPassword => c = SetAuthtok secret /\ 0 ∉ secret
  | SecretKind.KdeWalletKey => wallet_call secret c
  | SecretKind.GnomeKeyringToken => c = SendSecret GKR_TOKEN_STASH_KEY secret
  end.
Definition released (user : string) (secret : str) (kind : SecretKind.t) (r : Released)
    (new : list Event) : Prop :=
  match kind, r with
  | SecretKind.LoginPassword, AuthtokSet => Did (SetAuthtok secret) (Some (Some tt)) ∈ new
  | SecretKind.KdeWalletKey, WalletStarted => wallet_started user secret new
  | SecretKind.GnomeKeyringToken, TokenStashed =>
      Did (SendSecret GKR_TOKEN_STASH_KEY secret) (Some (Some tt)) ∈ new
  | _, _ => r = ReleaseFailed
  end.

Section Ops.
Context {W : Type} `{Host W}.
Context (fuel : nat).

Lemma wp_hand_key user key w :
  wp (hand_key_to_wallet_daemon fuel user key) w (fun new o _ =>
    all (wallet_call key) new /\ (o = Done Started -> wallet_started user key new)).
Proof.
  unfold hand_key_to_wallet_daemon. wp_steps; try (split; [by calls|done]).
  - wp_use silent_read_bounded; [|split; [by calls|done]..]. wp_steps; try (split; [by calls|done]).
    all: split; [by calls|]. { by case_bool_decide. } intros Hs. destruct a2 as [[]|]; [|done].
    destruct u. do 3 eexists. split_and!; [by left|right; by left|].
    do 2 right. apply elem_of_app. right. by left.
  - wp_use silent_kill; [|split; [by calls|done]..]. wp_steps. split; [by calls|done].
Qed.

Lemma wp_release user secret kind w :
  wp (release_secret fuel user secret kind) w (fun new o _ =>
    all (release_call secret kind) new /\ (forall r, o = Done r -> released user secret kind r new)).
Proof.
  unfold release_secret, secret_cstring. destruct kind; simpl.
  - case_bool_decide as H0; [wp_steps; split; [by calls|by intros r [= <-]]|]. wp_steps.
    all: split; [by calls|]; try done. intros r [= <-]. destruct a as [[]|]; [by left|done].
  - apply wp_bind. wp_use wp_hand_key; [|by destruct H0; split..]. destruct H0 as [Hc Hs]. wp_steps.
    rewrite app_nil_r. split; [done|]. intros r [= <-]. destruct a; simpl; auto.
  - wp_steps. all: split; [by calls|]; try done. intros r [= <-]. destruct a as [[]|]; [by left|done].
Qed.
End Ops.
