(* ===== verification/PamAttemptTheory.v ===== *)
(** * What a face attempt of the PAM module does

    The calls of [try_verify], [try_unseal] and the loop of [authenticate]: to
    whom each secret goes, what a success or a decline rests on, and how long
    the loop runs. *)

From S2P Require Import Prelude Text Services Protocol PamSeat PamModule PamModuleTheory.

#[local] Arguments str_codes : simpl never.

(** irlumed released a secret of this kind to the user. *)
Definition was_released (user : string) (secret : str) (kind : SecretKind.t) (new : list Event) : Prop :=
  exists service wire, secret = expose wire
    /\ Did (Exchange (UnsealPassword user service))
         (Some (Some (Face (Response.PasswordUnsealed wire kind)))) ∈ new.

(** What a face grant rests on: irlumed's word that a live face matched, or a
    secret it released that reached the consumer of its kind. *)
Inductive earned (user : string) (new : list Event) : Released -> Prop :=
| by_face intent service score reason policy declined situation cause :
    Did (Exchange (Authenticate false user service intent))
      (Some (Some (Face (Response.AuthResult true score true reason policy declined situation cause)))) ∈ new ->
    earned user new ReleaseFailed
| by_secret secret kind r :
    was_released user secret kind new -> r <> ReleaseFailed -> released user secret kind r new ->
    earned user new r.

(** What an abort rests on: at a consent dialog, irlumed's word that the user
    declined. *)
Definition declined (user : string) (new : list Event) : Prop :=
  exists service intent score live reason policy situation cause,
    service ≫= pam_service.classify = Some pam_service.AppConsent
    /\ Did (Exchange (Authenticate false user service intent))
         (Some (Some (Face (Response.AuthResult false score live reason policy true situation cause)))) ∈ new.

(** Every secret a call hands on, irlumed released for its consumer: only a
    login password becomes the token of the stack. *)
Definition accounted (user : string) (new : list Event) (c : Call) : Prop :=
  match c with
  | SetAuthtok tok => was_released user tok SecretKind.LoginPassword new /\ 0 ∉ tok
  | SendSecret key value =>
      key = GKR_TOKEN_STASH_KEY /\ was_released user value SecretKind.GnomeKeyringToken new
  | WriteAll _ input => was_released user input SecretKind.KdeWalletKey new
  | _ => True
  end.

(** The calls the loop makes, with the intent it carries. *)
Definition attempt_call (user : string) (intent : option IntentAttestation) (texts : option string -> Prop)
    (c : Call) : Prop :=
  match c with
  | Exchange (Authenticate structured u service i) =>
      structured = false /\ u = user /\ i = intent /\ texts service
  | Exchange (UnsealPassword u _) => u = user
  | Info _ | SetAuthtok _ | SendSecret _ _ | Spawn _ _ | WriteAll _ _ | PutEnv _ | ConsultLogin => True
  | c => quiet c
  end.

(** The calls that ask irlumed for something. *)
Definition sends (c : Call) : bool := match c with Exchange _ | ExchangeUntil _ _ => true | _ => false end.
Definition is_request (e : Event) : bool := sends (did e).
Definition requests (new : list Event) : nat := length (List.filter is_request new).

Lemma requests_app new new' : requests (new ++ new') = (requests new + requests new')%nat.
Proof. unfold requests. by rewrite List.filter_app, length_app. Qed.

Lemma no_requests (P : Call -> Prop) new :
  (forall c, P c -> sends c = false) -> all P new -> requests new = O.
Proof.
  intros HP Ha. unfold requests. induction Ha as [|[c a] new Hc _ IH]; [done|].
  simpl. unfold is_request at 1. simpl in *. by rewrite HP.
Qed.

(** ** Facts that more of the run keeps *)

Section Grow.
Context (user : string) (new new' : list Event).
Hypothesis Hin : new ⊆ new'.

Lemma was_released_grow secret kind : was_released user secret kind new -> was_released user secret kind new'.
Proof. intros (service & wire & -> & Hd). exists service, wire. auto. Qed.

Lemma released_grow secret kind r : released user secret kind r new -> released user secret kind r new'.
Proof.
  unfold released, wallet_started. destruct kind, r; auto; naive_solver.
Qed.

Lemma earned_grow r : earned user new r -> earned user new' r.
Proof.
  intros [intent service score reason policy d situation cause Hd|secret kind r' Hw Hr Hd].
  - eapply by_face, Hin, Hd.
  - eapply by_secret; eauto using was_released_grow, released_grow.
Qed.

Lemma declined_grow : declined user new -> declined user new'.
Proof.
  intros (service & intent & score & live & reason & policy & situation & cause & Hc & Hd).
  do 8 eexists. eauto.
Qed.

Lemma accounted_grow c : accounted user new c -> accounted user new' c.
Proof.
  pose proof was_released_grow as Hg. destruct c; simpl; auto; intros []; eauto.
Qed.
End Grow.

(** A release accounts for the calls of its delivery. *)
Lemma release_call_accounted user secret kind new c :
  was_released user secret kind new -> release_call secret kind c -> accounted user new c.
Proof.
  intros Hw. destruct kind; simpl.
  - by intros [-> H0].
  - destruct c; simpl; try done. by intros ->.
  - by intros ->.
Qed.

Lemma release_call_allowed user intent texts secret kind c :
  release_call secret kind c -> attempt_call user intent texts c /\ sends c = false.
Proof. destruct kind; simpl; [by intros [-> _]|by destruct c|by intros ->]. Qed.

Section Attempt.
Context {W : Type} `{Host W}.
Context (fuel : nat).

(** One turn of the loop, and the whole loop: what its calls are, and what its
    outcome tells. *)
Record turn (a : Args) (user : string) (intent : option IntentAttestation) (w : W)
    (new : list Event) (most : nat) : Prop := MkTurn {
  turn_calls : all (attempt_call user intent (fun text => exists pre w1,
    trace w pre w1 /\ text = service_text w1)) new;
  turn_accounted : all (accounted user new) new;
  turn_count : (requests new <= most)%nat;
}.

Lemma wp_verify user intent w :
  wp (try_verify user intent) w (fun new o _ => exists reply rest,
    new = Did (Exchange (Authenticate false user (service_text w) intent)) reply :: rest
    /\ all (fun c => exists msg, c = Info msg) rest
    /\ (o = Done SUCCESS -> earned user new ReleaseFailed)
    /\ (o = Done ABORT -> declined user new)).
Proof.
  unfold try_verify. wp_steps.
  all: do 2 eexists; (split; [reflexivity|]); split; [by eauto using all_nil, all_one|].
  all: try (split; done).
  - apply andb_true_iff in Heqb as [-> ->]. split; [intros _|done]. eapply by_face. by left.
  - apply andb_true_iff in Heqb0 as [Hg Hc]. apply andb_true_iff in Hg as [Hg ->]. destruct granted; [done|].
    split; [done|intros _]. do 8 eexists. split; [|by left].
    destruct (service_text w ≫= pam_service.classify) as [[]|]; done.
Qed.

Definition unsealed (reply : option (option Reply)) : option (list byte * SecretKind.t) :=
  match reply with
  | Some (Some (Face (Response.PasswordUnsealed secret kind))) => Some (secret, kind)
  | _ => None
  end.

Lemma wp_unseal user w :
  wp (try_unseal fuel user) w (fun new o _ => exists service reply rest,
    new = Did (Exchange (UnsealPassword user service)) reply :: rest
    /\ match unsealed reply with
       | Some (secret, kind) =>
           all (release_call (expose secret) kind) rest
           /\ (forall r, o = Done r -> exists d, r = Delivered d /\ released user (expose secret) kind d rest)
       | None => rest = [] /\ (forall d, o <> Done (Delivered d))
       end).
Proof.
  unfold try_unseal. wp_steps.
  all: try (do 3 eexists; split; [reflexivity|]; simpl; split; [done|]; by intros ?).
  wp_use wp_release; try apply wp_ret; rewrite ?app_nil_r; do 3 eexists; (split; [reflexivity|]); simpl; naive_solver.
Qed.

(** Turns compose. *)
Lemma turn_app a user intent w new n w1 new' n' :
  trace w new w1 -> turn a user intent w new n -> turn a user intent w1 new' n' ->
  turn a user intent w (new ++ new') (n + n').
Proof.
  intros Ht [Hc Ha Hn] [Hc' Ha' Hn']. split.
  - apply all_app. split; [done|]. eapply all_mono; [|exact Hc']. intros [] Hd; simpl in *; try done.
    destruct req; try done. destruct Hd as (? & ? & ? & pre & w2 & Hw & ?). split_and!; [done..|].
    exists (new ++ pre), w2. eauto using trace_trans.
  - apply all_app. split; (eapply all_mono; [|done]); intros c; apply accounted_grow; set_solver.
  - rewrite requests_app. lia.
Qed.

Lemma turn_mono a user intent w new n n' : (n <= n')%nat -> turn a user intent w new n -> turn a user intent w new n'.
Proof. intros ? [? ? ?]. split; [done..|lia]. Qed.

Lemma wp_verify_turn a user intent w :
  wp (try_verify user intent) w (fun new o _ => turn a user intent w new 1
    /\ (o = Done SUCCESS -> earned user new ReleaseFailed) /\ (o = Done ABORT -> declined user new)).
Proof.
  eapply wp_mono; [apply wp_verify|]. intros new o w' _ (reply & rest & -> & Hr & Hs). split; [|done]. split.
  - apply all_cons. split.
    + simpl. split_and!; [done..|]. exists [], w. auto using trace_nil.
    + eapply all_mono; [|exact Hr]. by intros ? [? ->].
  - apply all_cons. split; [done|]. eapply all_mono; [|exact Hr]. by intros ? [? ->].
  - change (Did ?c ?r :: rest) with ([Did c r] ++ rest). rewrite requests_app.
    rewrite (no_requests (fun c => exists msg, c = Info msg) rest); [done|by intros ? [? ->]|done].
Qed.

Lemma wp_unseal_turn a user intent w :
  wp (try_unseal fuel user) w (fun new o _ => turn a user intent w new 1
    /\ (forall d, o = Done (Delivered d) -> d <> ReleaseFailed -> earned user new d)).
Proof.
  eapply wp_mono; [apply wp_unseal|]. intros new o w' _ (service & reply & rest & -> & Hr).
  destruct (unsealed reply) as [[secret kind]|] eqn:Eu.
  - assert (reply = Some (Some (Face (Response.PasswordUnsealed secret kind)))) as ->.
    { unfold unsealed in Eu. repeat case_match; by simplify_eq. }
    destruct Hr as [Hr Hd].
    assert (was_released user (expose secret) kind
      (Did (Exchange (UnsealPassword user service)) (Some (Some (Face (Response.PasswordUnsealed secret kind)))) :: rest))
      as Hw by (exists service, secret; split; [done|by left]).
    split.
    + split.
      * apply all_cons. split; [done|]. eapply all_mono; [|exact Hr]. intros c Hc. by eapply release_call_allowed.
      * apply all_cons. split; [done|]. eapply all_mono; [|exact Hr]. intros c. by apply release_call_accounted.
      * change (Did ?c ?r :: rest) with ([Did c r] ++ rest). rewrite requests_app, (no_requests (release_call (expose secret) kind) rest); [done| |done].
        intros c Hc. by destruct (release_call_allowed user intent (fun _ => True) _ _ _ Hc).
    + intros d Ho Hn. destruct (Hd _ Ho) as (d' & [= <-] & Hrel). eapply by_secret; [done..|].
      eapply released_grow; [|exact Hrel]. set_solver.
  - destruct Hr as [-> Hn]. split; [|intros d Ho; by destruct (Hn d)]. split; [by apply all_one..|done].
Qed.

Lemma wp_attempt_once a user intent w :
  (unseal a -> intent = None) ->
  wp (attempt_once fuel a user intent) w (fun new o _ => turn a user intent w new 2
    /\ (forall d, o = Done (SUCCESS, d) -> earned user new d)
    /\ (forall d, o = Done (ABORT, d) -> declined user new)).
Proof.
  intros Hi. unfold attempt_once. destruct (unseal a).
  - rewrite Hi by done. apply wp_bind. eapply wp_mono; [apply (wp_unseal_turn a user None)|].
    intros new [r| |] w' Ht [Hturn Hr]; simpl; [|split; [by eapply turn_mono; [|done]; lia|done]..].
    destruct r as [d| |].
    + apply wp_ret. rewrite app_nil_r. split; [by eapply turn_mono; [|done]; lia|]. split; intros d' [= Hc <-].
      * apply Hr; [done|by intros ->].
      * by destruct d.
    + destruct (facefirst a || ondemand a).
      * apply wp_bind. eapply wp_mono; [apply (wp_verify_turn a user None)|].
        intros new' [c| |] w2 Ht' (Hturn' & Hs & Hd); simpl.
        2,3: split; [by eapply (turn_app _ _ _ _ _ 1 _ _ 1)|done].
        apply wp_ret. rewrite app_nil_r. split; [by eapply (turn_app _ _ _ _ _ 1 _ _ 1)|].
        split; intros d [= -> <-].
        -- eapply earned_grow; [|by apply Hs]. set_solver.
        -- eapply declined_grow; [|by apply Hd]. set_solver.
      * apply wp_ret. rewrite app_nil_r. split; [by eapply turn_mono; [|done]; lia|done].
    + apply wp_ret. rewrite app_nil_r. split; [by eapply turn_mono; [|done]; lia|done].
  - apply wp_bind. eapply wp_mono; [apply (wp_verify_turn a user intent)|].
    intros new [c| |] w' Ht (Hturn & Hs & Hd); simpl; [|split; [by eapply turn_mono; [|done]; lia|done]..].
    apply wp_ret. rewrite app_nil_r. split; [by eapply turn_mono; [|done]; lia|].
    split; intros d [= -> <-]; auto.
Qed.

(** A cold login that [kr] continues is not a success yet. *)
Definition settled (a : Args) (user : string) (d : Released) (new : list Event) : Prop :=
  kr a -> d = AuthtokSet -> exists l, Did ConsultLogin (Some l) ∈ new
    /\ platform.user_has_live_session l (str_codes user) = true.

Lemma wp_settle a user d w :
  wp (settle_success a user d) w (fun new o _ =>
    all (fun c => c = ConsultLogin) new /\ o <> Spins /\ o <> Done ABORT /\ (o = Done SUCCESS -> settled a user d new)).
Proof.
  unfold settle_success. destruct (kr a && _) eqn:Ek.
  - wp_steps; split_and!; auto using all_one; try by case_match. 2: done.
    intros Hs _ _. eexists. split; [by left|]. by destruct (platform.user_has_live_session _ _).
  - wp_steps. split_and!; auto using all_nil. intros _ Hk Hd. exfalso. revert Hk Ek. subst d.
    rewrite bool_decide_eq_true_2 by done. by destruct (kr a).
Qed.

Lemma turn_quiet a user intent w c ans : quiet c \/ c = ConsultLogin -> turn a user intent w [Did c ans] 0.
Proof. intros [Hc| ->]; (split; [apply all_one|apply all_one|]); by try destruct c. Qed.

Lemma wp_attempts n a user intent deadline w :
  (unseal a -> intent = None) ->
  wp (attempts fuel n a user intent deadline) w (fun new o _ => turn a user intent w new (2 * n)
    /\ (o = Done SUCCESS -> exists d, earned user new d /\ settled a user d new)
    /\ (o = Done ABORT -> declined user new)).
Proof.
  intros Hi. revert w. induction n as [|n IH]; intros w; simpl.
  { apply wp_spin. split; [|done]. split; [apply all_nil|apply all_nil|done]. }
  apply wp_bind. eapply wp_mono; [by apply wp_attempt_once|].
  intros new [[c d]| |] w1 Ht (Hturn & Hs & Hd); simpl.
  2,3: split; [by eapply turn_mono; [|done]; lia|done].
  destruct c; simpl.
  - eapply wp_mono; [apply wp_settle|]. intros new' o w2 Ht' (Hc & Hns & Hna & Hok). split_and!.
    + eapply (turn_mono _ _ _ _ _ (2 + 0)); [lia|]. eapply turn_app; [done..|]. split.
      * by eapply all_mono; [|done]; intros ? ->.
      * by eapply all_mono; [|done]; intros ? ->.
      * rewrite (no_requests (fun c => c = ConsultLogin)); [done|by intros ? ->|done].
    + intros ->. exists d. split; [eapply earned_grow; [|by apply Hs]; set_solver|].
      intros Hk Hda. destruct (Hok eq_refl Hk Hda) as (l & Hl & ?). exists l. split; [set_solver|done].
    + done.
  - apply wp_bind, wp_reads. simpl. destruct (negb (wait a) || _).
    { apply wp_ret. rewrite !app_nil_r. split; [by eapply turn_mono; [|done]; lia|done]. }
    apply wp_bind, (wp_call (Sleep WAIT_RETRY_GAP)). intros [u|] w2 E; simpl.
    + eapply wp_mono; [apply IH|]. intros new' o w3 Ht' (Hturn' & Hs' & Hd').
      assert (turn a user intent w1 (Did (Sleep WAIT_RETRY_GAP) (Some u) :: new') (0 + 2 * n)) as Hrest.
      { eapply (turn_app _ _ _ _ [_]); [by eapply trace_cons, trace_nil|apply turn_quiet; by left|done]. }
      split_and!.
      * eapply (turn_mono _ _ _ _ _ (2 + (0 + 2 * n))); [lia|]. by eapply turn_app.
      * intros ->. destruct (Hs' eq_refl) as (d' & He & Hset). exists d'. split.
        -- eapply earned_grow; [|exact He]. set_solver.
        -- intros Hk Hda. destruct (Hset Hk Hda) as (l & Hl & ?). exists l. split; [set_solver|done].
      * intros ->. eapply declined_grow; [|by apply Hd']. set_solver.
    + split; [|done]. eapply (turn_mono _ _ _ _ _ (2 + 0)); [lia|]. eapply turn_app; [done..|]. apply turn_quiet. by left.
  - apply wp_ret. rewrite app_nil_r. split; [by eapply turn_mono; [|done]; lia|]. split; [done|]. intros _. by eapply Hd.
Qed.
End Attempt.
