(* ===== verification/PamEntryTheory.v ===== *)
(** * How the PAM module comes to a face attempt

    What [authenticate] asks before its loop: every way it stops there, and
    what holds when it goes on. *)

From S2P Require Import Prelude Text Services Protocol PamSeat PamModule PamModuleTheory PamAttemptTheory.

#[local] Arguments str_codes : simpl never.

(** The user answered a prompt with a password: anything at the password
    prompt, anything but an empty answer or [yes] at the others. *)
Definition is_password (prompt : option string) (tok : str) : Prop :=
  if bool_decide (prompt = Some "Password: ") then tok <> []
  else classify_intent_input (Some tok) = InputPassword.

Definition typed (e : Event) : Prop :=
  match e with
  | Did c a =>
      match c return option (Answer c) -> Prop with
      | GetAuthtok prompt => fun a =>
          match a with Some (Some (Some tok)) => is_password prompt tok | _ => False end
      | _ => fun _ => False
      end a
  end.

Definition untyped (new : list Event) : Prop := Forall (fun e => ~ typed e) new.

(** The questions asked before the loop. *)
Definition asking (c : Call) : Prop :=
  match c with
  | GetUser | GetAuthtok _ | ClearAuthtok | ExchangeUntil _ _ => True
  | Info msg => msg = FACE_INTENT_INFO
  | _ => False
  end.

(** The user chose the face at the consent prompt, and the answer was taken
    back. *)
Definition confirmed (new : list Event) : Prop :=
  Did (Info FACE_INTENT_INFO) (Some (Some tt)) ∈ new
  /\ Did ClearAuthtok (Some (Some tt)) ∈ new
  /\ exists tok, Did (GetAuthtok None) (Some (Some (Some tok))) ∈ new
       /\ classify_intent_input (Some tok) = InputConfirmed.

(** A call failed that should have taken back an answer that is no password. *)
Definition not_taken_back (new : list Event) : Prop := untyped new /\ Did ClearAuthtok (Some None) ∈ new.

Lemma untyped_app new new' : untyped (new ++ new') <-> untyped new /\ untyped new'.
Proof. apply list.Forall_app. Qed.

Section Entry.
Context {W : Type} `{Host W}.
Context (fuel : nat).

(** What an early part of [authenticate] leaves: an early return, or a value
    that [good] holds of. *)
Definition asks {A} (good : list Event -> A -> W -> Prop) : list Event -> outcome (PamError + A) -> W -> Prop :=
  fun new o w =>
    all asking new
    /\ match o with
       | Done (inr x) => untyped new /\ good new x w
       | Done (inl IGNORE) | Panics => True
       | Done (inl ABORT) => not_taken_back new
       | Done (inl SUCCESS) | Spins => False
       end.

(** What a way to ask for consent leaves. *)
Definition consents (good : list Event -> Prop) : list Event -> outcome IntentConfirmation -> W -> Prop :=
  fun new o _ =>
    all asking new
    /\ match o with
       | Done Confirmed => untyped new /\ good new
       | Done Fallback | Panics => True
       | Done Abort => not_taken_back new
       | Spins => False
       end.

Ltac asked := repeat (apply list.Forall_cons; split); try apply list.Forall_nil; try done; simpl; auto.

Lemma wp_resolve p tok (pre : list Event) w (good : list Event -> Prop) :
  p <> Some "Password: " -> all asking pre -> untyped pre ->
  (classify_intent_input (Some tok) = InputConfirmed ->
   good (pre ++ [Did (GetAuthtok p) (Some (Some (Some tok))); Did ClearAuthtok (Some (Some tt))])) ->
  wp (resolve_intent_input (classify_intent_input (Some tok))) w (fun new o w' =>
    consents good (pre ++ Did (GetAuthtok p) (Some (Some (Some tok))) :: new) o w').
Proof.
  intros Hp Hc Hu Hg.
  assert (classify_intent_input (Some tok) <> InputPassword -> ~ is_password p tok) as Hn.
  { unfold is_password. by rewrite bool_decide_eq_false_2. }
  unfold resolve_intent_input. destruct (classify_intent_input (Some tok)) eqn:Ei; [wp_steps..|].
  - destruct a as [[]|]; (split; [calls|]); (split; [apply untyped_app; split; [done|]; asked; by apply Hn|]).
    + by apply Hg.
    + set_solver.
  - split; [calls|done].
  - destruct a as [[]|]; (split; [calls|]); [done|]. split; [apply untyped_app; split; [done|]; asked; by apply Hn|set_solver].
  - split; [calls|done].
  - wp_steps. split; [calls|done].
Qed.

Lemma wp_ask_token p (pre : list Event) w (good : list Event -> Prop) :
  p <> Some "Password: " -> all asking pre -> untyped pre ->
  (forall tok, classify_intent_input (Some tok) = InputConfirmed ->
   good (pre ++ [Did (GetAuthtok p) (Some (Some (Some tok))); Did ClearAuthtok (Some (Some tt))])) ->
  wp (token ← call (GetAuthtok p);
      match token with
      | Some (Some token) => resolve_intent_input (classify_intent_input (Some token))
      | _ => mret Fallback
      end) w (fun new o w' => consents good (pre ++ new) o w').
Proof.
  intros Hp Hc Hu Hg. apply wp_bind, (wp_call (GetAuthtok p)). intros [[[tok|]|]|] w' _; simpl.
  - apply (wp_resolve p); auto.
  - wp_steps. split; [calls|done].
  - wp_steps. split; [calls|done].
  - split; [calls|done].
Qed.

Lemma wp_confirm_cosmic w : wp confirm_cosmic_face w (consents (fun _ => True)).
Proof.
  unfold confirm_cosmic_face. apply wp_bind, wp_reads. simpl.
  destruct (get_cached_authtok w) as [[tok|]|].
  - case_bool_decide; simpl; [|wp_steps; split; [apply all_nil|done]].
    apply wp_bind, (wp_call ClearAuthtok). intros [[[]|]|] w' _; simpl.
    + eapply wp_mono; [apply (wp_ask_token _ [Did ClearAuthtok (Some (Some tt))] w' (fun _ => True)); [done|calls|asked|done]|done].
    + wp_steps. split; [calls|]. split; [asked|set_solver].
    + split; [calls|done].
  - by apply (wp_ask_token _ [] w (fun _ => True)); [|apply all_nil|asked|].
  - wp_steps. split; [apply all_nil|done].
Qed.

Lemma wp_confirm_intent k w :
  wp (confirm_face_intent k) w (consents confirmed).
Proof.
  unfold confirm_face_intent. destruct (negb _); [wp_steps; split; [apply all_nil|done]|].
  apply wp_bind, (wp_call (Info FACE_INTENT_INFO)). intros [[[]|]|] w' _; simpl.
  - eapply wp_mono; [apply (wp_ask_token None [Did (Info FACE_INTENT_INFO) (Some (Some tt))] w' confirmed); [done|calls|asked|]|done].
    intros tok Ht. unfold confirmed. split_and!; [set_solver..|]. exists tok. set_solver.
  - wp_steps. split; [calls|done].
  - split; [calls|done].
Qed.

Lemma wp_cosmic_consent c w : wp (cosmic_consent c) w (asks (fun _ _ _ => True)).
Proof.
  unfold cosmic_consent. destruct c; [|wp_steps; split; [apply all_nil|split; [asked|done]]].
  apply wp_bind. eapply wp_mono; [apply wp_confirm_cosmic|].
  intros new [[]| |] w' _ [Hc Ho]; simpl; try apply wp_ret; rewrite ?app_nil_r; by split.
Qed.

Lemma wp_password_first a c w : wp (password_first a c) w (asks (fun _ _ _ => True)).
Proof.
  unfold password_first. destruct c; [wp_steps; split; [apply all_nil|split; [asked|done]]|].
  destruct (unseal a && _ && _) eqn:Ep.
  - apply wp_bind, (wp_call (GetAuthtok (Some "Password: "))). intros [[[tok|]|]|] w' _; simpl.
    + case_bool_decide as Ht; simpl; [|wp_steps; split; [calls|done]]. subst tok.
      apply wp_bind, (wp_call ClearAuthtok). intros [[[]|]|] w2 _; simpl; try wp_steps.
      all: split; [calls|]; try done. split; [|done]. asked.
    + wp_steps. split; [calls|done].
    + wp_steps. split; [calls|done].
    + split; [calls|done].
  - apply wp_bind, wp_reads. simpl. destruct (get_cached_authtok w) as [[tok|]|]; wp_steps.
    all: split; [apply all_nil|]; try done; by split; [asked|].
Qed.

(** The intent the loop carries, from the service's kind. *)
Definition consented (a : Args) (service : option string) (w : W) (new : list Event)
    (intent : option IntentAttestation) : Prop :=
  match service ≫= pam_service.classify with
  | Some kind =>
      if pam_service.requires_face_intent_confirmation kind
      then unseal a = false /\ wait a = false
           /\ match intent with
              | Some PolicyWaived => exists pre w', trace w pre w' /\ consent_required w' = false
              | Some PamConversation => confirmed new
              | None => False
              end
      else intent = None
  | None => intent = None
  end.

Lemma wp_rgb_only w :
  wp privileged_face_is_rgb_only w (fun new o _ => all asking new /\ untyped new /\ o <> Spins).
Proof.
  unfold privileged_face_is_rgb_only, now. wp_steps.
  all: split_and!; [calls|asked|done].
Qed.

Lemma wp_privileged a service w :
  wp (privileged_intent a service) w (asks (fun new intent _ => consented a service w new intent)).
Proof.
  unfold privileged_intent, consented. destruct (service ≫= pam_service.classify) as [kind|].
  2: by wp_steps; split; [apply all_nil|split; [asked|]].
  destruct (pam_service.requires_face_intent_confirmation kind); simpl.
  2: by wp_steps; split; [apply all_nil|split; [asked|]].
  destruct (wait a); simpl; [by wp_steps; split; [apply all_nil|]|].
  destruct (unseal a); simpl; [by wp_steps; split; [apply all_nil|]|].
  apply wp_bind. eapply wp_mono; [apply wp_rgb_only|].
  intros new [b| |] w1 Ht (Hc & Hu & Hn); simpl; [|by split|done].
  destruct b; [wp_steps; rewrite app_nil_r; by split|].
  apply wp_bind, wp_reads. simpl. destruct (consent_required w1) eqn:Er; simpl.
  2: { wp_steps. rewrite !app_nil_r. split; [done|]. split; [done|]. split_and!; eauto. }
  apply wp_bind. eapply wp_mono; [apply wp_confirm_intent|].
  intros new' [c| |] w2 Ht' [Hc' Ho]; simpl; [|split; [calls|done]..].
  destruct c; apply wp_ret; rewrite ?app_nil_r; (split; [calls|]).
  - destruct Ho as [Hu' Hg]. split; [by apply untyped_app|]. split_and!; [done..|].
    unfold confirmed in *. destruct Hg as (? & ? & tok & ? & ?). split_and!; [set_solver..|].
    exists tok. set_solver.
  - done.
  - destruct Ho as [Hu' Hg]. split; [by apply untyped_app|]. set_solver.
Qed.

Lemma wp_or_return {A} (good : list Event -> A -> W -> Prop) (m : M W (PamError + A)) k w T :
  wp m w (asks good) ->
  (forall new c w', all asking new -> c <> SUCCESS -> (c = ABORT -> not_taken_back new) -> T new (Done c) w') ->
  (forall new w', all asking new -> T new Panics w') ->
  (forall new x w', trace w new w' -> all asking new -> untyped new -> good new x w' ->
     wp (k x) w' (fun new' o w2 => T (new ++ new') o w2)) ->
  wp (or_return m k) w T.
Proof.
  intros Hm Hd Hp Hk. unfold or_return. apply wp_bind. eapply wp_mono; [exact Hm|].
  intros new [[c|x]| |] w' Ht [Hc Ho]; simpl; [..|done].
  - apply wp_ret. rewrite app_nil_r. destruct c; [done|by apply Hd..].
  - destruct Ho as [Hu Hg]. by apply Hk.
  - auto.
Qed.

(** ** The ways of [authenticate] *)

(** The copy of the token the stack holds once libpam has named the user. *)
Definition stashes_held (w : W) (c : Call) : Prop :=
  exists value w0 a, c = SendSecret RESEAL_STASH_KEY value
    /\ step GetUser w = (a, w0) /\ get_cached_authtok w0 = Some (Some value).

(** It ended before the loop; the [reseal] line only copies the token. *)
Definition stopped (args : list string) (w : W) (new : list Event) (c : PamError) : Prop :=
  c <> SUCCESS /\ (c = ABORT -> not_taken_back new)
  /\ (all asking new
      \/ reseal (parse_args args) /\ untyped new
         /\ all (fun c => c = GetUser \/ stashes_held w c) new).

(** It came to the loop. *)
Record entered (args : list string) (w : W) (pre : list Event) (user : string)
    (intent : option IntentAttestation) : Prop := MkEntered {
  en_user : exists u w0 rest, pre = Did GetUser (Some (Some (Some u))) :: rest
    /\ step GetUser w = (Some (Some (Some u)), w0) /\ is_remote_session w0 = false
    /\ user = codes_str (lossy u);
  en_line : keyring (parse_args args) = false /\ reseal (parse_args args) = false;
  en_calls : all asking pre;
  en_untyped : untyped pre;
  en_consent : exists w2 asked before, trace w before w2 /\ pre = before ++ asked
    /\ consented (parse_args args) (service_str w2) w pre intent;
}.

Lemma entered_unseal args w pre user intent :
  entered args w pre user intent -> unseal (parse_args args) -> intent = None.
Proof.
  intros [_ _ _ _ (w2 & asked & before & _ & _ & Hc)] Hu. unfold consented in Hc.
  destruct (service_str w2 ≫= pam_service.classify) as [k|]; [|done].
  destruct (pam_service.requires_face_intent_confirmation k); [|done].
  destruct Hc as [Hn _]. by rewrite Hn in Hu.
Qed.

Lemma wp_stash w : wp stash_authtok w (fun new o _ =>
  untyped new
  /\ all (fun c => exists value, c = SendSecret RESEAL_STASH_KEY value /\ get_cached_authtok w = Some (Some value)) new
  /\ o <> Spins).
Proof.
  unfold stash_authtok. wp_steps; split_and!; try done; eauto using all_nil, all_one; asked.
Qed.

Lemma consented_grow a service w w' pre new intent :
  trace w pre w' -> consented a service w' new intent -> consented a service w (pre ++ new) intent.
Proof.
  intros Ht. unfold consented. destruct (service ≫= pam_service.classify) as [k|]; [|done].
  destruct (pam_service.requires_face_intent_confirmation k); [|done].
  intros (? & ? & Hi). split_and!; [done..|]. destruct intent as [[]|]; [| |done].
  - destruct Hi as (? & ? & tok & ? & ?). split; [set_solver|]. split; [set_solver|]. exists tok. set_solver.
  - destruct Hi as (p & w2 & ? & ?). exists (pre ++ p), w2. eauto using trace_trans.
Qed.

Lemma wp_authenticate args w (T : list Event -> outcome PamError -> W -> Prop) :
  (forall new c w', stopped args w new c -> T new (Done c) w') ->
  (forall pre w1 user intent, trace w pre w1 -> entered args w pre user intent ->
     wp (attempts fuel fuel (parse_args args) user intent (clock w1 + WAIT_BUDGET)) w1
       (fun new o w' => T (pre ++ new) (match o with Panics => Done IGNORE | o => o end) w')) ->
  wp (authenticate fuel args) w T.
Proof.
  intros Hstop Hgo. unfold authenticate. apply wp_firewall.
  assert (forall new w', all asking new -> T new (Done IGNORE) w') as Hquit.
  { intros new w' Ha. apply Hstop. split_and!; [done..|by left]. }
  assert (forall new c w', all asking new -> c <> SUCCESS -> (c = ABORT -> not_taken_back new) -> T new (Done c) w') as Hret.
  { intros new c w' Ha Hs Hb. apply Hstop. split_and!; [done..|by left]. }
  apply wp_bind, (wp_call GetUser). intros [[[u|]|]|] w0 E0; simpl.
  2,3: wp_steps; apply Hquit; calls.
  2: apply Hquit; calls.
  apply wp_bind, wp_reads. simpl. destruct (is_remote_session w0) eqn:Er; [wp_steps; apply Hquit; calls|].
  destruct (bool_decide ("keyring" ∈ args)) eqn:Ek; [wp_steps; apply Hquit; calls|].
  destruct (bool_decide ("reseal" ∈ args)) eqn:Es.
  { apply wp_bind. eapply wp_mono; [apply wp_stash|]. intros new o w1 _ (Hu & Hc & Hn).
    destruct o; simpl; [apply wp_ret|..|done]; rewrite ?app_nil_r; apply Hstop; (split_and!; [done..|]); right;
      (split; [by simpl; rewrite Es|]); (split; [asked|]); apply all_cons; (split; [by left|]);
      (eapply all_mono; [|exact Hc]); intros c (value & -> & Hv); right; by exists value, w0, (Some (Some (Some u))). }
  apply wp_bind, wp_reads. simpl.
  assert (trace w [Did GetUser (Some (Some (Some u)))] w0) as Ht0 by (by eapply trace_cons, trace_nil).
  eapply wp_or_return; [apply wp_cosmic_consent|..].
  - intros new c w' Hc Hs Hb. apply Hret; [calls|done|].
    intros Ha. destruct (Hb Ha). split; [asked|set_solver].
  - intros new w' Hc. apply Hquit. calls.
  - intros n1 [] w1 Ht1 Hc1 Hu1 _. eapply wp_or_return; [apply wp_password_first|..].
    + intros new c w' Hc Hs Hb. apply Hret; [calls|done|].
      intros Ha. destruct (Hb Ha). split; [|set_solver]. asked. by apply untyped_app.
    + intros new w' Hc. apply Hquit. calls.
    + intros n2 [] w2 Ht2 Hc2 Hu2 _. eapply wp_or_return; [apply wp_privileged|..].
      * intros new c w' Hc Hs Hb. apply Hret; [calls|done|].
        intros Ha. destruct (Hb Ha). split; [|set_solver]. asked. rewrite !untyped_app. auto.
      * intros new w' Hc. apply Hquit. calls.
      * intros n3 intent w3 Ht3 Hc3 Hu3 Hg. apply wp_bind, wp_reads. simpl.
        eapply wp_mono; [apply (Hgo (Did GetUser (Some (Some (Some u))) :: n1 ++ n2 ++ n3) w3 (codes_str (lossy u)) intent)|].
        -- eapply (trace_trans _ [Did GetUser (Some (Some (Some u)))]); [done|]. eauto using trace_trans.
        -- split.
           ++ exists u, w0, (n1 ++ n2 ++ n3). done.
           ++ by simpl; rewrite Ek, Es.
           ++ apply all_cons. split; [done|]. rewrite !all_app. auto.
           ++ asked. rewrite !untyped_app. auto.
           ++ exists w0, (n1 ++ n2 ++ n3), [Did GetUser (Some (Some (Some u)))]. split_and!; [done..|].
              change (Did GetUser (Some (Some (Some u))) :: n1 ++ n2 ++ n3) with (([Did GetUser (Some (Some (Some u)))] ++ n1) ++ n2 ++ n3). rewrite <- app_assoc.
              eapply consented_grow; [exact Ht0|]. eapply consented_grow; [exact Ht1|]. by eapply consented_grow.
        -- intros new o w' _. simpl. by rewrite <- !app_assoc.
Qed.
End Entry.
