(* ===== verification/PamTimeTheory.v ===== *)
(** * The PAM module always returns

    Every loop of the module is under a deadline: with a clock that does not
    run backwards, [HELPER_TURNS] turns are enough for each of them, and the
    attempts of one [authenticate] are bounded. *)

From S2P Require Import Prelude Text Services Protocol PamSeat PamModule PamModuleTheory PamAttemptTheory PamEntryTheory.

(** What the loops rely on: a monotonic clock, a [sleep] that lasts, and that a
    read that does not block is not interrupted (signal(7)). *)
Class Timely (W : Type) `{Host W} : Prop := {
  step_clock c w : clock w <= clock (step c w).2;
  sleep_clock ms w : clock w + ms <= clock (step (Sleep ms) w).2;
  read_completes child w : (step (ReadStdout child) w).1 <> Some Interrupted;
}.

(** Turns that are enough for every loop: reading takes the most, one turn for
    each byte of the longest output, one for each wait within the budget. *)
Definition HELPER_TURNS : nat := 4699.

Section Time.
Context {W : Type} `{Timely W}.

Lemma called_clock c w a w' : step c w = (a, w') -> clock w <= clock w'.
Proof. intros E. pose proof (step_clock c w) as Hc. by rewrite E in Hc. Qed.

Lemma slept_clock ms w a w' : step (Sleep ms) w = (a, w') -> clock w + ms <= clock w'.
Proof. intros E. pose proof (sleep_clock ms w) as Hc. by rewrite E in Hc. Qed.

Lemma trace_clock w new w' : trace w new w' -> clock w <= clock w'.
Proof.
  revert w. induction new as [|[c a] new IH]; intros w; simpl; [intros ->; lia|].
  intros (w1 & E%called_clock & Ht%IH). lia.
Qed.

Definition returns {A} : list Event -> outcome A -> W -> Prop := fun _ o _ => o <> Spins.

Lemma returns_bind {A B} (m : M W A) (k : A -> M W B) w :
  wp m w returns -> (forall new a w', trace w new w' -> wp (k a) w' returns) -> wp (mbind k m) w returns.
Proof.
  intros Hm Hk. apply wp_bind. eapply wp_mono; [exact Hm|].
  intros new [a| |] w' Ht Hr; simpl; [|done..]. eapply wp_mono; [by eapply Hk|]. done.
Qed.

Lemma returns_ret {A} (a : A) w : wp (mret a) w returns.
Proof. by apply wp_ret. Qed.
Lemma returns_reads {A} (f : W -> A) w : wp (reads f) w returns.
Proof. by apply wp_reads. Qed.
Lemma returns_call c w : wp (call c) w returns.
Proof. apply wp_call. by intros [a|] w' _. Qed.

Lemma returns_call_bind {B} c (k : Answer c -> M W B) w :
  (forall a w', step c w = (Some a, w') -> wp (k a) w' returns) -> wp (mbind k (call c)) w returns.
Proof.
  intros Hk. apply wp_bind, wp_call. intros [a|] w' E; simpl; [|done].
  eapply wp_mono; [by apply Hk|done].
Qed.
Lemma returns_reads_bind {A B} (f : W -> A) (k : A -> M W B) w :
  wp (k (f w)) w returns -> wp (mbind k (reads f)) w returns.
Proof. intros Hk. apply wp_bind, wp_reads. simpl. eapply wp_mono; [exact Hk|done]. Qed.
End Time.

#[export] Hint Resolve returns_ret returns_reads : irlume.
#[export] Hint Extern 0 (wp (call ?c) _ returns) => apply (returns_call c) : irlume.

(** The steps of a run that has to return. *)
Ltac returning := repeat first
  [ progress auto with irlume
  | lazymatch goal with
    | |- wp (mbind _ (call ?c)) _ _ => apply (returns_call_bind c); intros ? ? ?
    | |- wp (mbind _ (reads _)) _ _ => apply returns_reads_bind
    | |- wp (mbind _ now) _ _ => apply returns_reads_bind
    | |- wp (mbind _ _) _ _ => apply returns_bind; [|intros ? ? ? ?]
    | |- wp (match ?x with _ => _ end) _ _ => destruct x eqn:?
    end ].

(** Inequalities of clock readings. *)
Ltac clocks := repeat match goal with
  | E : step (Sleep _) _ = _ |- _ => apply slept_clock in E
  | E : step _ _ = _ |- _ => apply called_clock in E
  | E : trace _ _ _ |- _ => apply trace_clock in E
  end; lia.

(** ** How often irlumed is asked *)

Section Requests.
Context {W : Type} `{Host W}.
Context (fuel : nat).

(** At most [n] requests, however the run ends. *)
Definition few {A} (n : nat) : list Event -> outcome A -> W -> Prop := fun new _ _ => (requests new <= n)%nat.

Lemma few_mono {A} (m : M W A) w n n' : (n <= n')%nat -> wp m w (few n) -> wp m w (few n').
Proof. intros Hn Hm. eapply wp_mono; [exact Hm|]. unfold few. intros. lia. Qed.

Lemma few_bind {A B} n n' (m : M W A) (k : A -> M W B) w :
  wp m w (few n) -> (forall a w', wp (k a) w' (few n')) -> wp (mbind k m) w (few (n + n')).
Proof.
  intros Hm Hk. apply wp_bind. eapply wp_mono; [exact Hm|]. unfold few. intros new [a| |] w' _ Hn; simpl; [|lia..].
  eapply wp_mono; [apply Hk|]. unfold few. intros. rewrite requests_app. lia.
Qed.
Lemma few_ret {A} n (a : A) w : wp (mret a) w (few n).
Proof. apply wp_ret, Nat.le_0_l. Qed.
Lemma few_spin {A} n w : wp (spin : M W A) w (few n).
Proof. apply wp_spin, Nat.le_0_l. Qed.
Lemma few_reads {A} (f : W -> A) w : wp (reads f) w (few 0).
Proof. apply wp_reads, Nat.le_0_l. Qed.
Lemma few_silent c w : sends c = false -> wp (call c) w (few 0).
Proof. intros Hc. apply wp_call. intros a w' _. unfold few. rewrite (no_requests (fun c => sends c = false)); [lia|done|by apply all_one]. Qed.
Lemma few_call c w : wp (call c) w (few 1).
Proof. apply wp_call. intros a w' _. unfold few. destruct c; cbn; lia. Qed.

Lemma few_or_return {A} n n' (m : M W (PamError + A)) k w :
  wp m w (few n) -> (forall a w', wp (k a) w' (few n')) -> wp (or_return m k) w (few (n + n')).
Proof. intros Hm Hk. apply few_bind; [done|]. intros [c|a] w'; [apply few_ret|apply Hk]. Qed.
Lemma few_firewall n m w : wp m w (few n) -> wp (firewall m) w (few n).
Proof. intros Hm. by apply (wp_firewall m w (few n)). Qed.

(** Steps none of which is a request. *)
Ltac silent := repeat first
  [ apply few_ret
  | lazymatch goal with
    | |- wp (mbind _ _) _ (few 0) => apply (few_bind 0 0); [|intros ? ?]
    | |- wp (or_return _ _) _ (few 0) => apply (few_or_return 0 0); [|intros ? ?]
    | |- wp (reads _) _ _ => apply few_reads
    | |- wp now _ _ => apply few_reads
    | |- wp (call ?c) _ _ => apply (few_silent c); reflexivity
    | |- wp (match ?x with _ => _ end) _ _ => destruct x
    end ].

Lemma few_resolve i w : wp (resolve_intent_input i) w (few 0).
Proof. unfold resolve_intent_input. silent. Qed.
Lemma few_confirm_intent k w : wp (confirm_face_intent k) w (few 0).
Proof. unfold confirm_face_intent. silent; apply few_resolve. Qed.
Lemma few_confirm_cosmic w : wp confirm_cosmic_face w (few 0).
Proof. unfold confirm_cosmic_face. silent; apply few_resolve. Qed.
Lemma few_cosmic c w : wp (cosmic_consent c) w (few 0).
Proof. unfold cosmic_consent. silent; apply few_confirm_cosmic. Qed.
Lemma few_password a c w : wp (password_first a c) w (few 0).
Proof. unfold password_first. silent. Qed.
Lemma few_rgb_only w : wp privileged_face_is_rgb_only w (few 2).
Proof.
  unfold privileged_face_is_rgb_only. apply (few_bind 0 2); [apply few_reads|]. intros t w1.
  apply (few_bind 1 1); [apply (few_call (ExchangeUntil _ _))|]. intros h w2. destruct (negb _); [apply few_ret|].
  apply (few_bind 1 0); [apply (few_call (ExchangeUntil _ _))|]. intros s w3. apply few_ret.
Qed.

(** Only a line that neither waits nor unseals asks about the cameras. *)
Definition status_requests (a : Args) : nat := if wait a || unseal a then 0 else 2.
Lemma few_privileged a s w : wp (privileged_intent a s) w (few (status_requests a)).
Proof.
  unfold privileged_intent, status_requests. destruct (s ≫= _) as [k|]; [|apply few_ret].
  destruct (negb _); [apply few_ret|]. destruct (wait a || unseal a); [apply few_ret|].
  apply (few_bind 2 0); [apply few_rgb_only|]. intros b w1. silent; apply few_confirm_intent.
Qed.

(** A turn without [unseal] asks once, one with it again when nothing is sealed. *)
Definition turn_requests (a : Args) : nat := if unseal a then 2 else 1.
Lemma few_attempt_once a user intent w : wp (attempt_once fuel a user intent) w (few (turn_requests a)).
Proof.
  assert (Hv : forall i w, wp (try_verify user i) w (few 1)).
  { intros i w1. eapply wp_mono; [apply (wp_verify_turn a)|]. by intros new o w2 _ [[_ _ Hn] _]. }
  unfold attempt_once, turn_requests. destruct (unseal a).
  - apply (few_bind 1 1).
    + eapply wp_mono; [apply (wp_unseal_turn fuel a)|]. by intros new o w2 _ [[_ _ Hn] _].
    + intros r w1. destruct r; [apply few_ret| |apply few_ret].
      destruct (facefirst a || ondemand a); [|apply few_ret]. apply (few_bind 1 0); [apply Hv|]. intros. apply few_ret.
  - apply (few_bind 1 0); [apply Hv|]. intros. apply few_ret.
Unshelve. all: exact None.
Qed.

(** Without [wait] there is one turn. *)
Lemma few_attempts n a user intent d w :
  wait a = false -> wp (attempts fuel n a user intent d) w (few (turn_requests a)).
Proof.
  intros Hw. destruct n as [|n]; simpl; [apply few_spin|]. rewrite Hw. cbn [negb orb].
  apply (few_mono _ _ (turn_requests a + 0)); [lia|]. apply few_bind; [apply few_attempt_once|]. intros [c r] w1. cbn beta iota.
  destruct c; [|silent|silent].
  eapply wp_mono; [apply wp_settle|]. intros new o w2 _ (Ha & _). unfold few.
  rewrite (no_requests (fun c => c = ConsultLogin)); [lia|by intros ? ->|done].
Qed.

Lemma few_stash w : wp stash_authtok w (few 0).
Proof. unfold stash_authtok. silent. Qed.

(** The loop's requests, and those before it. *)
Lemma few_authenticate args n w :
  let a := parse_args args in
  (forall user intent w1, wp (attempts fuel fuel a user intent (clock w1 + WAIT_BUDGET)) w1 (few n)) ->
  wp (authenticate fuel args) w (few (status_requests a + n)).
Proof.
  intros a Hn. unfold authenticate. apply few_firewall.
  apply (few_bind 0 (status_requests a + n)); [by apply (few_silent GetUser)|]. intros [[u|]|] w0; [|apply few_ret..].
  apply (few_bind 0 (status_requests a + n)); [apply few_reads|]. intros [] w1; [apply few_ret|].
  cbv zeta. fold a. destruct (keyring a); [apply few_ret|].
  destruct (reseal a); [apply (few_mono _ _ 0); [lia|]; apply (few_bind 0 0); [apply few_stash|intros; apply few_ret]|].
  apply (few_bind 0 (status_requests a + n)); [apply few_reads|]. intros s w2.
  apply (few_or_return 0 (status_requests a + n)); [apply few_cosmic|]. intros _ w3.
  apply (few_or_return 0 (status_requests a + n)); [apply few_password|]. intros _ w4.
  apply few_or_return; [apply few_privileged|]. intros i w5.
  apply wp_bind, wp_reads. simpl. eapply wp_mono; [apply Hn|]. by intros.
Qed.
End Requests.

(** ** The loops *)

Section Loops.
Context {W : Type} `{Timely W}.
Context (fuel : nat).

Lemma returns_poll n child d w :
  (1 <= n)%nat -> d - clock w <= 10 * (Z.of_nat n - 1) -> wp (poll_dead n child d) w returns.
Proof.
  revert w. induction n as [|n IH]; intros w Hn Hd; [lia|]. simpl. returning.
  all: reflect_bools; apply IH; clocks.
Qed.

Context (Hfuel : (HELPER_TURNS <= fuel)%nat).

Lemma returns_kill child w : wp (kill_bounded fuel child) w returns.
Proof.
  unfold kill_bounded. returning. apply returns_poll; unfold HELPER_TURNS in Hfuel; lia.
Qed.
#[local] Hint Resolve returns_kill : irlume.

Lemma returns_reap n child d w :
  (1 <= n)%nat -> d - clock w <= 25 * (Z.of_nat n - 1) -> wp (reap_from fuel n child d) w returns.
Proof.
  revert w. induction n as [|n IH]; intros w Hn Hd; [lia|]. simpl. returning.
  all: reflect_bools; apply IH; clocks.
Qed.

Lemma returns_reap_by child d w : d - clock w <= HELPER_BUDGET -> wp (reap_by fuel child d) w returns.
Proof.
  intros Hd. unfold HELPER_BUDGET in Hd. apply returns_reap; unfold HELPER_TURNS in Hfuel; lia.
Qed.

(** The turns a read can still take: one a byte, one a wait, one to see the
    exit, and the last. *)
Definition turns_left (out : str) (exited : option ExitStatus) (waits : nat) : nat :=
  S HELPER_STDOUT_MAX - length out + waits + (if exited is Some _ then 1 else 2).

Lemma returns_read n child d exited out waits w :
  d - clock w <= 25 * Z.of_nat waits -> d - clock w <= HELPER_BUDGET ->
  (turns_left out exited waits <= n)%nat -> wp (read_from fuel n child d exited out) w returns.
Proof.
  unfold turns_left. revert exited out waits w. induction n as [|n IH]; intros exited out waits w Hw Hb Hn.
  { destruct exited; lia. }
  assert (forall exited w', clock w <= clock w' -> wp (read_finished fuel child d exited out) w' returns) as Hfin.
  { intros e w' Hc. unfold read_finished. returning. apply returns_reap_by. lia. }
  simpl. unfold kill_and_fail. apply (returns_call_bind (ReadStdout child)). intros r w1 E.
  pose proof (called_clock _ _ _ _ E) as Hc1. destruct r as [[|b chunk]| | |].
  - by apply Hfin.
  - returning. reflect_bools. rewrite length_app in *. simpl in *.
    apply (IH _ _ waits); [lia..|]. rewrite length_app. simpl. unfold HELPER_STDOUT_MAX in *. lia.
  - pose proof (read_completes child w) as Hr. by rewrite E in Hr.
  - destruct exited as [status|]; [by apply Hfin|].
    apply (returns_call_bind (TryWait child)). intros st w2 E2. pose proof (called_clock _ _ _ _ E2) as Hc2.
    destruct st as [[status|]|]; [|returning|returning].
    + apply (IH _ _ waits); [lia..|]. lia.
    + reflect_bools. destruct waits as [|waits]; [lia|]. apply (IH _ _ waits); [..|lia].
      * clocks.
      * clocks.
  - returning.
Qed.

Lemma returns_read_bounded child w : wp (read_stdout_bounded fuel child HELPER_BUDGET) w returns.
Proof.
  unfold read_stdout_bounded, kill_and_fail. returning.
  apply (returns_read _ _ _ _ _ 600); unfold turns_left, HELPER_TURNS, HELPER_STDOUT_MAX, HELPER_BUDGET in *; simpl; lia.
Qed.
#[local] Hint Resolve returns_read_bounded : irlume.

Lemma returns_hand_key user key w : wp (hand_key_to_wallet_daemon fuel user key) w returns.
Proof. unfold hand_key_to_wallet_daemon. returning. Qed.
#[local] Hint Resolve returns_hand_key : irlume.

Lemma returns_hand_token user key w : wp (hand_token_to_keyring_daemon fuel user key) w returns.
Proof.
  unfold hand_token_to_keyring_daemon, log_hand_off_failure. returning. apply returns_reap_by. lia.
Qed.
#[local] Hint Resolve returns_hand_token : irlume.

Lemma returns_release user secret kind w : wp (release_secret fuel user secret kind) w returns.
Proof. unfold release_secret. returning. Qed.
#[local] Hint Resolve returns_release : irlume.

Lemma returns_attempt_once a user intent w : wp (attempt_once fuel a user intent) w returns.
Proof. unfold attempt_once, try_unseal, try_verify. returning. Qed.

(** The loop returns, after at most two requests a turn. *)
Lemma returns_attempts n a user intent d more w :
  d - clock w <= WAIT_RETRY_GAP * Z.of_nat more -> (more < n)%nat ->
  wp (attempts fuel n a user intent d) w (fun new o _ => o <> Spins /\ (requests new <= 2 * S more)%nat).
Proof.
  revert more w. induction n as [|n IH]; intros more w Hd Hn; [lia|]. simpl.
  assert (Hturn : (turn_requests a <= 2)%nat) by (unfold turn_requests; destruct (unseal a); lia).
  apply wp_bind. eapply wp_mono; [apply wp_and; [apply few_attempt_once|apply returns_attempt_once]|]. unfold few.
  intros new [[c r]| |] w1 Ht [Hc Hr]; simpl; [|split; [done|lia]|done].
  destruct c.
  - eapply wp_mono; [apply wp_settle|]. intros new' o w2 _ (Ha & Hs & _).
    rewrite requests_app, (no_requests (fun c => c = ConsultLogin) new') by (done || by intros ? ->). split; [done|lia].
  - apply wp_bind, wp_reads. simpl. destruct (negb (wait a) || _) eqn:Ew.
    { apply wp_ret. rewrite !app_nil_r. split; [done|lia]. }
    apply orb_false_iff in Ew as [Ew Hlate]. apply bool_decide_eq_false in Hlate.
    apply wp_bind, (wp_call (Sleep WAIT_RETRY_GAP)). intros [u|] w2 E; simpl.
    + destruct more as [|more]; [unfold WAIT_RETRY_GAP in *; clocks|].
      eapply wp_mono; [apply (IH more); [unfold WAIT_RETRY_GAP in *; clocks|lia]|].
      intros new' o w3 _ (Ho & Hc'). change (Did ?c ?x :: new') with ([Did c x] ++ new').
      rewrite !requests_app. change (requests [_]) with O. split; [done|lia].
    + rewrite requests_app. change (requests [_]) with O. split; [done|lia].
  - apply wp_ret. rewrite app_nil_r. split; [done|lia].
Qed.

(** A run that returns, and returns this code if it does not panic. *)
Definition returns_code (c : PamError) : list Event -> outcome PamError -> W -> Prop :=
  fun _ o _ => o <> Spins /\ forall c', o = Done c' -> c' = c.

Lemma returns_code_bind {A} c (m : M W A) (k : A -> M W PamError) w :
  wp m w returns -> (forall a w', wp (k a) w' (returns_code c)) -> wp (mbind k m) w (returns_code c).
Proof.
  intros Hm Hk. apply wp_bind. eapply wp_mono; [exact Hm|]. intros new [a| |] w' _ Hr; simpl; [|done..].
  eapply wp_mono; [apply Hk|]. done.
Qed.

Lemma returns_code_ret c w : wp (mret c) w (returns_code c).
Proof. apply wp_ret. split; [done|]. by intros c' [= <-]. Qed.

Lemma returns_reseal user w : wp (try_reseal_session user) w returns.
Proof. unfold try_reseal_session. returning. Qed.

Lemma returns_deliver user b w : wp (deliver_keyring_secret fuel user b) w returns.
Proof. unfold deliver_keyring_secret, hand_over. returning. Qed.

Lemma returns_open_session args w :
  wp (open_session fuel args) w (fun _ o _ => o = Done IGNORE).
Proof.
  unfold open_session. apply wp_firewall.
  apply (wp_mono _ _ (returns_code IGNORE)).
  2: { intros new [c| |] w' _ [Hs Hc]; [by rewrite (Hc c)|done..]. }
  destruct (bool_decide _); [|apply returns_code_ret].
  apply returns_code_bind; [apply (returns_call GetUser)|]. intros [[u|]|] w1; [|apply returns_code_ret..].
  apply returns_code_bind; [apply returns_reseal|]. intros accepted w2.
  apply returns_code_bind; [destruct accepted; returning|]. intros have w3.
  apply returns_code_bind; [apply returns_deliver|]. intros _ w4. apply returns_code_ret.
Qed.
End Loops.
