(* ===== verification/PamSeatTheory.v ===== *)
(** * Which sessions are local

    What a lookup of a process's login session needs to find, stated over the
    files, and the transactions the module treats as remote. *)

From S2P Require Import Prelude Text Services Protocol PamSeat PamModule PamModuleTheory PamAttemptTheory PamEntryTheory.

#[local] Arguments str_codes : simpl never.

(** ** The specification *)

(** [path] places a process: in the scope of a login session directly under
    the user's slice, or anywhere under the service manager of the slice's
    user. *)
Inductive owns (path : str) : CgroupOwner -> Prop :=
| owns_session digits id uid :
    components path = [str_codes "user.slice"; str_codes "user-" ++ digits ++ str_codes ".slice";
                       str_codes "session-" ++ id ++ str_codes ".scope"] ->
    parse_uint_codes 32 digits = Some uid -> logind_id id = true -> owns path (Session id uid)
| owns_manager digits digits' uid rest :
    components path = str_codes "user.slice" :: (str_codes "user-" ++ digits ++ str_codes ".slice")
                      :: (str_codes "user@" ++ digits' ++ str_codes ".service") :: rest ->
    parse_uint_codes 32 digits = Some uid -> parse_uint_codes 32 digits' = Some uid ->
    owns path (UserManager uid).

(** A line of the unified hierarchy or of systemd's own. *)
Definition hierarchy (line path : str) : Prop :=
  exists number controllers, line = number ++ [58] ++ controllers ++ [58] ++ path
    /\ (58 ∉ number) /\ (58 ∉ controllers)
    /\ (controllers = [] \/ controllers = str_codes "name=systemd").

(** The first line that places the process. *)
Definition placed (cgroup : str) (owner : CgroupOwner) : Prop :=
  exists before line after path, lines cgroup = before ++ line :: after
    /\ hierarchy line path /\ owns path owner
    /\ Forall (fun l => forall p o, hierarchy l p -> ~ owns p o) before.

(** The first [KEY=value] line of that key. *)
Definition says (text key value : str) : Prop :=
  exists before rest after, lines text = before ++ (key ++ str_codes "=" ++ rest) :: after
    /\ value = trim_str rest
    /\ Forall (fun l => forall r, l <> key ++ str_codes "=" ++ r) before.

(** The session that answers for an owner: its own, or the display session
    logind names for the user. *)
Definition answers (fs : Files) (owner : CgroupOwner) (session : str) (uid : Z) : Prop :=
  match owner with
  | Session id u => session = id /\ uid = u
  | UserManager u => uid = u /\ logind_id session = true
      /\ exists user, f_logind fs [str_codes "users"; decimal u] = Some user
           /\ says user (str_codes "DISPLAY") session
  end.

(** The process is in a session of the user whose slice holds it, and logind
    says that session is not remote. *)
Definition local_session (fs : Files) (process : Process) : Prop :=
  exists cgroup owner session uid text,
    f_proc fs [proc_entry process; str_codes "cgroup"] = Some cgroup
    /\ placed cgroup owner /\ answers fs owner session uid
    /\ f_logind fs [str_codes "sessions"; session] = Some text
    /\ says text (str_codes "UID") (decimal uid) /\ says text (str_codes "REMOTE") (str_codes "0").

(** ** The lookup finds exactly that *)

Lemma between_spec pre post part x : between pre post part = Some x <-> part = pre ++ x ++ post.
Proof.
  unfold between. rewrite bind_Some. split.
  - intros (r & Hp%strip_prefix_spec & Hs%strip_suffix_spec). by rewrite Hp, Hs.
  - intros ->. exists (x ++ post). rewrite strip_prefix_spec, strip_suffix_spec. done.
Qed.

Lemma next_Some {A} (l : list A) a l' : next l = Some (a, l') <-> l = a :: l'.
Proof. destruct l; naive_solver. Qed.

Lemma manager_is_no_session digits id :
  str_codes "user@" ++ digits ++ str_codes ".service" <> str_codes "session-" ++ id ++ str_codes ".scope".
Proof. by intros ?. Qed.

Ltac step_in := cbn [next mbind option_bind negb andb].

Lemma owner_of_path_spec path o : owner_of_path path = Some o <-> owns path o.
Proof.
  unfold owner_of_path. split.
  - intros Ho. apply bind_Some in Ho as ([top parts] & Hp%next_Some & Ho).
    case_bool_decide as Ht; simpl in Ho; [|done]. subst top.
    apply bind_Some in Ho as ([slice parts'] & ->%next_Some & Ho).
    apply bind_Some in Ho as (uid & Hu & Ho). apply bind_Some in Hu as (digits & ->%between_spec & Hu).
    apply bind_Some in Ho as ([unit parts''] & ->%next_Some & Ho).
    destruct (between (str_codes "session-") _ unit) as [id|] eqn:Eb.
    + apply between_spec in Eb as ->. case_bool_decide as Hn; simpl in Ho; [|done]. subst parts''.
      destruct (logind_id id) eqn:Ei; [|done]. simplify_eq. by eapply owns_session.
    + apply bind_Some in Ho as (m & Hm & Ho). apply bind_Some in Hm as (digits' & ->%between_spec & Hm).
      case_bool_decide; simplify_eq. by eapply owns_manager.
  - intros [digits id uid Hp Hu Hi|digits digits' uid rest Hp Hu Hm]; rewrite Hp; step_in;
      rewrite bool_decide_eq_true_2 by done; step_in; rewrite (proj2 (between_spec _ _ _ digits) eq_refl);
      step_in; rewrite Hu; step_in.
    + rewrite (proj2 (between_spec _ _ _ id) eq_refl), bool_decide_eq_true_2 by done. step_in. by rewrite Hi.
    + destruct (between (str_codes "session-") _ _) as [id|] eqn:Eb.
      { apply between_spec in Eb. by apply manager_is_no_session in Eb. }
      rewrite (proj2 (between_spec _ _ _ digits') eq_refl). step_in. rewrite Hm. step_in.
      by rewrite bool_decide_eq_true_2.
Qed.

Lemma cgroup_line_spec line path : cgroup_line line = Some path <-> hierarchy line path.
Proof.
  unfold cgroup_line, hierarchy. split.
  - intros Hl. apply bind_Some in Hl as ([number fields] & [-> Hn]%split_once_Some & Hl).
    apply bind_Some in Hl as ([controllers p] & [-> Hc]%split_once_Some & Hl).
    exists number, controllers. destruct (_ || _) eqn:E; simplify_eq. split_and!; [done..|].
    apply orb_true_iff in E as [?%bool_decide_eq_true|?%bool_decide_eq_true]; auto.
  - intros (number & controllers & -> & Hn & Hc & Hk). simpl. rewrite split_once_app by done. simpl.
    rewrite split_once_app by done. simpl. destruct Hk as [-> | ->]; [done|].
    by rewrite (bool_decide_eq_true_2 (str_codes "name=systemd" = str_codes "name=systemd")), orb_true_r.
Qed.

Lemma cgroup_owner_spec cgroup o : cgroup_owner cgroup = Some o <-> placed cgroup o.
Proof.
  assert (cgroup_owner cgroup = find_map (fun line => cgroup_line line ≫= owner_of_path) (lines cgroup)) as ->.
  { unfold cgroup_owner. induction (lines cgroup) as [|l ls IH]; simpl; [done|].
    destruct (cgroup_line l) as [p|]; simpl; [destruct (owner_of_path p); [done|apply IH]|apply IH]. }
  rewrite find_map_Some. unfold placed. split.
  - intros (before & line & after & -> & Ho & Hb). apply bind_Some in Ho as (path & Hl & Ho).
    exists before, line, after, path. rewrite <- cgroup_line_spec, <- owner_of_path_spec. split_and!; [done..|].
    eapply list.Forall_impl; [exact Hb|]. intros l Hn p o' Hp Ho'.
    rewrite <- cgroup_line_spec in Hp. rewrite <- owner_of_path_spec in Ho'. cbv beta in Hn. rewrite Hp in Hn. simpl in Hn. congruence.
  - intros (before & line & after & path & Hl & Hh & Ho & Hb). exists before, line, after.
    rewrite <- cgroup_line_spec in Hh. rewrite Hh. simpl. rewrite owner_of_path_spec. split_and!; [done..|].
    eapply list.Forall_impl; [exact Hb|]. intros l Hn. destruct (cgroup_line l) as [p|] eqn:E; [simpl|done].
    destruct (owner_of_path p) as [o'|] eqn:Eo; [|done]. apply owner_of_path_spec in Eo.
    apply cgroup_line_spec in E. by destruct (Hn p o').
Qed.

Lemma logind_value_spec text key value : logind_value text key = Some value <-> says text key value.
Proof.
  assert (forall line, (rest ← strip_prefix key line; v ← strip_prefix (str_codes "=") rest; Some (trim_str v)) =
    trim_str <$> strip_prefix (key ++ str_codes "=") line) as Hline.
  { intros line. generalize (str_codes "="). intros eq. destruct (strip_prefix (key ++ _) line) as [r|] eqn:E; simpl.
    - apply strip_prefix_spec in E as ->. rewrite <- app_assoc, strip_prefix_app. step_in. by rewrite strip_prefix_app.
    - destruct (strip_prefix key line) as [r|] eqn:E1; simpl; [|done].
      destruct (strip_prefix eq r) as [v|] eqn:E2; simpl; [|done].
      apply strip_prefix_spec in E1 as ->. apply strip_prefix_spec in E2 as ->.
      by rewrite app_assoc, strip_prefix_app in E. }
  unfold logind_value. rewrite find_map_Some. unfold says. split.
  - intros (before & line & after & -> & Hv & Hb). rewrite Hline in Hv. apply fmap_Some in Hv as (rest & Hs & ->).
    apply strip_prefix_spec in Hs as ->. exists before, rest, after. rewrite app_assoc. split_and!; [done..|].
    eapply list.Forall_impl; [exact Hb|]. intros l Hn r ->. by rewrite Hline, app_assoc, strip_prefix_app in Hn.
  - intros (before & rest & after & -> & -> & Hb). do 3 eexists. split; [done|]. split.
    + by rewrite Hline, app_assoc, strip_prefix_app.
    + eapply list.Forall_impl; [exact Hb|]. intros l Hn. rewrite Hline.
      destruct (strip_prefix _ l) as [r|] eqn:E; [|done]. apply strip_prefix_spec in E. rewrite <- app_assoc in E.
      by destruct (Hn r).
Qed.

Lemma session_of_owner_spec fs owner session uid :
  session_of_owner fs owner = Some (session, uid) <-> answers fs owner session uid.
Proof.
  destruct owner as [id u|u]; simpl; [naive_solver|]. split.
  - intros Hs. apply bind_Some in Hs as (user & Hf & Hs). apply bind_Some in Hs as (id & Hv & Hs).
    destruct (logind_id id) eqn:Ei; simplify_eq. apply logind_value_spec in Hv. eauto.
  - intros (-> & Hi & user & Hf & Hv). rewrite Hf. simpl. apply logind_value_spec in Hv. rewrite Hv. simpl.
    by rewrite Hi.
Qed.

Lemma session_is_local_spec fs p : session_is_local fs p = true <-> local_session fs p.
Proof.
  unfold session_is_local, local_session. split.
  - destruct (f_proc fs _) as [cgroup|] eqn:Ec; [|done].
    destruct (cgroup_owner cgroup) as [owner|] eqn:Eo; simpl; [|done].
    destruct (session_of_owner fs owner) as [[session uid]|] eqn:Es; [|done].
    destruct (f_logind fs _) as [text|] eqn:Et; [|done]. intros [Hu Hr]%andb_true_iff.
    exists cgroup, owner, session, uid, text. apply bool_decide_eq_true in Hu, Hr.
    rewrite <- cgroup_owner_spec, <- session_of_owner_spec, <- !logind_value_spec. split_and!; done.
  - intros (cgroup & owner & session & uid & text & Hc & Ho & Hs & Ht & Hu & Hr).
    apply cgroup_owner_spec in Ho. apply session_of_owner_spec in Hs. apply logind_value_spec in Hu, Hr.
    rewrite Hc, Ho. simpl. rewrite Hs, Ht. by rewrite !bool_decide_eq_true_2.
Qed.

(** ** Remote transactions *)

(** An X display on another host: [[protocol/][host]:N[.S]] with a host, or a
    protocol that is not the local socket's. *)
Definition display_elsewhere (display : str) : Prop :=
  exists host number tail,
    trim_str display = host ++ [58] ++ number ++ tail
    /\ starts_with (str_codes "/") (trim_str display) = false
    /\ number <> [] /\ Forall (fun c => is_ascii_digit c = true) number
    /\ (tail = [] \/ exists t, tail = 46 :: t) /\ (58 ∉ tail)
    /\ ((exists protocol rest, host = protocol ++ [47] ++ rest /\ (47 ∉ protocol)
          /\ eq_ignore_ascii_case protocol (str_codes "unix") = false
          /\ eq_ignore_ascii_case protocol (str_codes "local") = false)
        \/ (47 ∉ host) /\ host <> [] /\ eq_ignore_ascii_case host (str_codes "unix") = false).

Lemma digits_no_dot n c : ~ 48 <= c <= 57 -> Forall (fun x => is_ascii_digit x = true) n -> c ∉ n.
Proof.
  rewrite list.Forall_forall. intros Hc Hn Hi. apply Hn in Hi. unfold is_ascii_digit in Hi.
  apply bool_decide_eq_true in Hi. lia.
Qed.

Lemma display_number_spec number :
  is_display_number number = true <-> exists n tail, number = n ++ tail /\ n <> []
    /\ Forall (fun c => is_ascii_digit c = true) n /\ (tail = [] \/ exists t, tail = 46 :: t).
Proof.
  unfold is_display_number. rewrite andb_true_iff, forallb_Forall, negb_true_iff, bool_decide_eq_false. split.
  - intros [Hn Hd]. destruct (before_spec 46 number) as (tail & Hl & _ & _ & Ht). exists (before 46 number), tail. auto.
  - intros (n & tail & -> & Hn & Hd & Ht). rewrite before_app.
    + assert (before 46 tail = []) as -> by by destruct Ht as [-> | [t ->]]. by rewrite app_nil_r.
    + apply list.Forall_forall. intros c Hc ->. revert Hc. by apply digits_no_dot; [lia|].
Qed.

Lemma names_remote_x_display_spec d : names_remote_x_display d = true <-> display_elsewhere d.
Proof.
  unfold names_remote_x_display, display_elsewhere. split.
  - destruct (starts_with _ _) eqn:Es; [done|]. destruct (rsplit_once 58 _) as [[host number]|] eqn:Er; [|done].
    apply rsplit_once_Some in Er as [Ht Hn]. destruct (is_display_number number) eqn:Ed; simpl; [|done].
    apply display_number_spec in Ed as (n & tail & -> & Hne & Hd & Htail). intros Hp.
    exists host, n, tail. split_and!; [by rewrite Ht|done..|set_solver|].
    destruct (split_once 47 host) as [[protocol rest]|] eqn:E.
    + left. apply split_once_Some in E as [-> ?]. apply negb_true_iff, orb_false_iff in Hp as [? ?].
      by exists protocol, rest.
    + right. apply split_once_None in E. apply andb_true_iff in Hp as [Hh Hu].
      apply negb_true_iff in Hh, Hu. apply bool_decide_eq_false in Hh. done.
  - intros (host & n & tail & Ht & -> & Hne & Hd & Htail & Hc & Hp).
    assert (rsplit_once 58 (trim_str d) = Some (host, n ++ tail)) as ->.
    { apply rsplit_once_Some. split; [done|]. rewrite elem_of_app. intros [Hi|Hi]; [|done].
      revert Hi. by apply digits_no_dot; [lia|]. }
    rewrite (proj2 (display_number_spec (n ++ tail))) by (exists n, tail; auto). simpl.
    destruct Hp as [(protocol & rest & -> & Hpr & Hu & Hl)|(Hs & Hne' & Hu)].
    + simpl. rewrite split_once_app by done. by rewrite Hu, Hl.
    + apply split_once_None in Hs. rewrite Hs, Hu. by rewrite bool_decide_eq_false_2.
Qed.

Section Remote.
Context {W : Type} `{Host W}.

(** The trees the environment names, where a caller may name any. *)
Definition trees (w : W) : Files :=
  MkFiles (files_under (default (str_codes "/proc") (secure_env "IRLUME_PROC_DIR" w)) w)
          (files_under (default (str_codes "/run/systemd") (secure_env "IRLUME_LOGIND_DIR" w)) w).

Definition service_class (w : W) : option pam_service.ServiceKind :=
  item_text (get_service w) ≫= fun svc => pam_service.classify (codes_str svc).

(** The signs of a transaction that does not come from the machine's seat. *)
Inductive remote_transaction (w : W) : Prop :=
| remote_host h :
    item_text (get_rhost w) = Some h -> rhost_is_local h = false -> remote_transaction w
| remote_display v :
    item_text (get_xdisplay w) = Some v \/ item_text (get_tty w) = Some v -> display_elsewhere v ->
    remote_transaction w
| remote_desktop svc :
    item_text (get_service w) = Some svc -> is_remote_desktop_service (codes_str svc) = true ->
    remote_transaction w
| consent_elsewhere :
    service_class w = Some pam_service.AppConsent ->
    (forall pid, requesting_agent_pid w = Some pid -> ~ local_session (trees w) (Pid pid)) ->
    remote_transaction w
| elevation_elsewhere :
    service_class w = Some pam_service.Elevation -> ~ local_session (trees w) Current ->
    remote_transaction w
| ssh_environment :
    env_is_set "SSH_CONNECTION" w = true \/ env_is_set "SSH_TTY" w = true -> remote_transaction w.

Lemma process_local_spec w p : process_session_is_local w p = true <-> local_session (trees w) p.
Proof. apply session_is_local_spec. Qed.

Lemma process_not_local w p : negb (process_session_is_local w p) = true <-> ~ local_session (trees w) p.
Proof.
  rewrite negb_true_iff, <- process_local_spec. destruct (process_session_is_local w p); naive_solver.
Qed.

Lemma service_is_remote_spec w svc :
  item_text (get_service w) = Some svc -> service_is_remote w (codes_str svc) = true -> remote_transaction w.
Proof.
  intros Hs. unfold service_is_remote. rewrite orb_true_iff. intros [Hr|Hr]; [by eapply remote_desktop|].
  assert (service_class w = pam_service.classify (codes_str svc)) as Hk by (unfold service_class; by rewrite Hs).
  destruct (pam_service.classify _) as [[]|]; try done.
  - apply elevation_elsewhere; [done|]. by apply process_not_local.
  - apply consent_elsewhere; [done|]. intros pid Hp. apply process_not_local.
    unfold consent_requester_is_local in Hr. by rewrite Hp in Hr.
Qed.

Lemma is_remote_session_spec w : is_remote_session w = true <-> remote_transaction w.
Proof.
  unfold is_remote_session. split.
  - destruct (match item_text (get_rhost w) with Some h => _ | None => _ end) eqn:E1.
    { destruct (item_text (get_rhost w)) as [h|] eqn:Eh; [|done]. intros _.
      apply (remote_host w h Eh). by apply negb_true_iff. }
    destruct (_ || _) eqn:E2 at 1.
    { intros _. apply orb_true_iff in E2 as [E2|E2].
      - destruct (item_text (get_xdisplay w)) as [v|] eqn:Ev; [|done].
        apply (remote_display w v); [by left|]. by apply names_remote_x_display_spec.
      - destruct (item_text (get_tty w)) as [v|] eqn:Ev; [|done].
        apply (remote_display w v); [by right|]. by apply names_remote_x_display_spec. }
    destruct (item_text (get_service w)) as [svc|] eqn:Es.
    + destruct (service_is_remote w _) eqn:Er; [intros _; by eapply service_is_remote_spec|].
      rewrite orb_true_iff. apply ssh_environment.
    + rewrite orb_true_iff. apply ssh_environment.
  - intros Hr. destruct (match item_text (get_rhost w) with Some h => _ | None => _ end) eqn:E1; [done|].
    destruct (_ || _) eqn:E2 at 1; [done|]. apply orb_false_iff in E2 as [E2 E3].
    destruct (match item_text (get_service w) with Some svc => _ | None => _ end) eqn:E4; [done|].
    destruct Hr as [h Hh Hl|v [Hv|Hv] Hd|svc Hs Hd|Hk Hn|Hk Hn|Hssh].
    + by rewrite Hh, Hl in E1.
    + rewrite Hv in E2. apply names_remote_x_display_spec in Hd. congruence.
    + rewrite Hv in E3. apply names_remote_x_display_spec in Hd. congruence.
    + rewrite Hs in E4. unfold service_is_remote in E4. by rewrite Hd in E4.
    + unfold service_class in Hk. destruct (item_text (get_service w)) as [svc|]; simpl in *; [|done].
      unfold service_is_remote in E4. apply orb_false_iff in E4 as [_ E4]. rewrite Hk in E4.
      apply negb_false_iff in E4. unfold consent_requester_is_local in E4.
      destruct (requesting_agent_pid w) as [pid|]; [|done]. by apply process_local_spec, Hn in E4.
    + unfold service_class in Hk. destruct (item_text (get_service w)) as [svc|]; simpl in *; [|done].
      unfold service_is_remote in E4. apply orb_false_iff in E4 as [_ E4]. rewrite Hk in E4.
      apply negb_false_iff in E4. by apply process_local_spec, Hn in E4.
    + by apply orb_true_iff.
Qed.
End Remote.
