(* ===== verification/PamStashTheory.v ===== *)
(** * The stashed keyring secret

    What [open_session] does with the token the authentication phase left on
    the handle, and the once-guard the empty stash is. *)

From S2P Require Import Prelude Text Services Protocol PamSeat PamModule PamModuleTheory PamAttemptTheory.

#[local] Arguments str_codes : simpl never.

(** PAM data: what was sent last under a key is read back, and no other call
    of the module changes it. *)
Class Stashes (W : Type) `{Host W} : Prop := {
  stash_sent key value w w' :
    step (SendSecret key value) w = (Some (Some tt), w') -> get_secret key w' = Some value;
  stash_kept c key w :
    (forall value, c <> SendSecret key value) -> get_secret key (step c w).2 = get_secret key w;
}.

(** A call that hands a keyring secret on, or asks irlumed for one. *)
Definition delivers (c : Call) : bool :=
  match c with
  | Spawn _ _ | WriteAll _ _ | PutEnv _ | Exchange (UnsealKeyring _ _ _ _) => true
  | _ => false
  end.

(** A call of the delivery of this token. *)
Definition token_call (tok : str) (c : Call) : Prop :=
  match c with
  | WriteAll _ input => input = tok
  | Exchange _ | PutEnv _ | SendSecret _ _ => False
  | _ => True
  end.

Definition stashes (c : Call) : bool := match c with SendSecret _ _ => true | _ => false end.
Definition idle (c : Call) : Prop := delivers c = false /\ stashes c = false.

(** The calls that follow the emptied stash. *)
Definition session_call (stash : option str) (c : Call) : Prop :=
  match stash with Some tok => token_call tok c | None => stashes c = false end.

(** What a session phase does: nothing of the kind, or it empties the stash
    and only then delivers. *)
Definition session_phase (stash : option str) (new : list Event) : Prop :=
  exists pre rest, new = pre ++ rest /\ all idle pre
    /\ (rest = [] \/ stash <> Some [] /\ exists ans r,
          rest = Did (SendSecret GKR_TOKEN_STASH_KEY []) ans :: r /\ all (session_call stash) r).

Lemma idle_phase stash new : all idle new -> session_phase stash new.
Proof. intros Hi. exists new, []. rewrite app_nil_r. auto. Qed.

Lemma phase_after stash pre new : all idle pre -> session_phase stash new -> session_phase stash (pre ++ new).
Proof.
  intros Hp (p & rest & -> & Hi & Hr). exists (pre ++ p), rest. rewrite app_assoc, all_app. auto.
Qed.

Section Stash.
Context {W : Type} `{Stashes W}.
Context (fuel : nat).

Lemma idle_kept key w new w' : all idle new -> trace w new w' -> get_secret key w' = get_secret key w.
Proof.
  intros Hi. apply trace_keeps. eapply list.Forall_impl; [exact Hi|]. intros [c a] [_ Hs] w0. simpl in *.
  apply stash_kept. intros value ->. done.
Qed.

(** An emptied stash reads as emptied while nothing is stashed. *)
Lemma emptied_stays value w new w' key :
  all (fun c => stashes c = false) new ->
  trace w (Did (SendSecret key value) (Some (Some tt)) :: new) w' -> get_secret key w' = Some value.
Proof.
  intros Hi (w1 & E & Ht). rewrite <- (stash_sent _ _ _ _ E). revert Ht. apply trace_keeps.
  eapply list.Forall_impl; [exact Hi|]. intros [c a] Hs w0. simpl in *. apply stash_kept. intros v ->. done.
Qed.

Lemma wp_hand_token user secret w :
  wp (hand_token_to_keyring_daemon fuel user secret) w (fun new _ _ => all (token_call secret) new).
Proof.
  unfold hand_token_to_keyring_daemon, log_hand_off_failure, now. wp_steps; try by calls.
  - wp_use silent_reap_by; try by calls. wp_steps; by calls.
  - wp_use silent_kill; try by calls. wp_steps; by calls.
Qed.

Lemma wp_hand_over user secret kind w :
  wp (hand_over fuel user secret kind) w (fun new _ _ =>
    all (fun c => stashes c = false) new
    /\ (kind = SecretKind.GnomeKeyringToken -> all (token_call secret) new)).
Proof.
  assert (forall c, token_call secret c -> stashes c = false) as Ht by by intros [].
  assert (forall c, wallet_call secret c -> stashes c = false) as Hk by by intros [].
  unfold hand_over. destruct kind; apply wp_bind.
  - wp_use wp_hand_token; try apply wp_ret; rewrite ?app_nil_r; eauto using all_mono.
  - wp_use wp_hand_key; try apply wp_ret; rewrite ?app_nil_r; (split; [eapply all_mono; [exact Hk|tauto]|done]).
  - wp_use wp_hand_token; try apply wp_ret; rewrite ?app_nil_r; eauto using all_mono.
Qed.

Lemma wp_deliver user b w :
  wp (deliver_keyring_secret fuel user b) w (fun new _ _ => session_phase (get_secret GKR_TOKEN_STASH_KEY w) new).
Proof.
  unfold deliver_keyring_secret. apply wp_bind, wp_reads. simpl.
  destruct (get_secret GKR_TOKEN_STASH_KEY w) as [[|x tok]|] eqn:Eg.
  - apply wp_ret. by apply idle_phase, all_nil.
  - apply wp_bind, (wp_call (SendSecret GKR_TOKEN_STASH_KEY [])). intros [a|] w' _; simpl.
    + eapply wp_mono; [apply (wp_hand_over user (x :: tok) SecretKind.GnomeKeyringToken)|]. intros new o w2 _ [_ Ht].
      exists [], (Did (SendSecret GKR_TOKEN_STASH_KEY []) (Some a) :: new). split_and!; [done|apply all_nil|].
      right. split; [done|]. exists (Some a), new. auto.
    + exists [], [Did (SendSecret GKR_TOKEN_STASH_KEY []) None]. split_and!; [done|apply all_nil|].
      right. split; [done|]. exists None, []. split; [done|apply all_nil].
  - apply wp_bind, (wp_call (SendSecret GKR_TOKEN_STASH_KEY [])).
    assert (forall a new, all (fun c => stashes c = false) new ->
      session_phase None (Did (SendSecret GKR_TOKEN_STASH_KEY []) a :: new)) as Hphase.
    { intros a new Hn. exists [], (Did (SendSecret GKR_TOKEN_STASH_KEY []) a :: new).
      split_and!; [done|apply all_nil|]. right. split; [done|]. exists a, new. auto. }
    intros [a|] w' _; simpl; [|by apply (Hphase None []), all_nil].
    wp_steps; try (apply Hphase; by calls).
    eapply wp_mono; [apply wp_hand_over|]. intros new o w3 _ [Hn _]. simpl. apply Hphase. by calls.
Qed.

Lemma wp_reseal user w : wp (try_reseal_session user) w (fun new _ _ => all idle new).
Proof. unfold try_reseal_session. wp_steps; by calls. Qed.

Lemma wp_open_session args w :
  wp (open_session fuel args) w (fun new _ _ => session_phase (get_secret GKR_TOKEN_STASH_KEY w) new).
Proof.
  unfold open_session. apply wp_firewall. destruct (bool_decide _); [|by apply wp_ret, idle_phase, all_nil].
  apply wp_bind, (wp_call GetUser). intros a w1 E.
  assert (all idle [Did GetUser a]) as H1 by by apply all_one.
  assert (trace w [Did GetUser a] w1) as Ht1 by by eapply trace_cons, trace_nil.
  destruct a as [[[u|]|]|]; simpl; try (wp_steps; by apply idle_phase).
  apply wp_bind. eapply wp_mono; [apply wp_reseal|]. intros n2 [acc| |] w2 Ht2 H2; simpl.
  2,3: apply idle_phase, (all_app _ [_]); by split.
  assert (wp (if acc then mret true else reads kwallet_login_set) w2 (fun new _ w3 => new = [] /\ w3 = w2)) as Hhave
    by by destruct acc; [apply wp_ret|apply wp_reads].
  apply wp_bind. eapply wp_mono; [exact Hhave|]. intros n3 o3 w3 _ [-> ->].
  assert (get_secret GKR_TOKEN_STASH_KEY w2 = get_secret GKR_TOKEN_STASH_KEY w) as Eg.
  { rewrite (idle_kept _ _ _ _ H2 Ht2). exact (idle_kept _ _ _ _ H1 Ht1). }
  destruct o3 as [have| |]; simpl; rewrite ?app_nil_r; [|by apply idle_phase, (all_app _ [_])..].
  apply wp_bind. eapply wp_mono; [apply wp_deliver|]. rewrite Eg. intros n4 o4 w4 _ Hp.
  assert (session_phase (get_secret GKR_TOKEN_STASH_KEY w) ([Did GetUser (Some (Some (Some u)))] ++ n2 ++ n4)) as Hall
    by by apply phase_after, phase_after.
  destruct o4; simpl; [apply wp_ret|..]; rewrite ?app_nil_r; exact Hall.
Qed.
End Stash.
