(* ===== verification/PamHostModel.v ===== *)
(** * A machine to try the PAM module on

    A host whose user types one answer, whose irlumed grants and releases, and
    whose clock moves only while the module sleeps.  It satisfies what the
    theorems on time, on the handle and on PAM data ask of a host. *)

From S2P Require Import Prelude Text Services Protocol PamSeat PamModule PamTimeTheory PamStashTheory.

(** The service, the user's answer to every prompt, the tokens libpam already
    holds, the client host, and what irlumed answers with. *)
Record Setup := MkSetup {
  su_service : string;
  su_typed : string;
  su_cached : option string;
  su_rhost : option string;
  su_grants : bool;
  su_kind : SecretKind.t;
}.

Record Toy := MkToy { t_clock : Z; t_stash : list (string * str) }.

Definition read_stash (key : string) (l : list (string * str)) : option str :=
  snd <$> List.find (fun e => bool_decide (fst e = key)) l.

Definition toy_secret : list byte := [Byte.x61; Byte.x62].

Section Host.
Context (p : Setup).

Definition toy_reply (req : Request) : Reply :=
  match req with
  | Authenticate _ _ _ _ => Face (Response.AuthResult (su_grants p) 0 (su_grants p) "" false false "no face" None)
  | UnsealPassword _ _ | UnsealKeyring _ _ _ _ => Face (Response.PasswordUnsealed toy_secret (su_kind p))
  | Protocol.Health => Health "secure" None
  | ResealPassword _ _ _ _ => PasswordResealed
  | _ => OtherReply
  end.

Definition toy_step (c : Call) : Toy -> option (Answer c) * Toy :=
  match c return Toy -> option (Answer c) * Toy with
  | GetUser => fun w => (Some (Some (Some (str_codes "ann"))), w)
  | GetAuthtok _ => fun w => (Some (Some (Some (str_codes (su_typed p)))), w)
  | SendSecret key value => fun w => (Some (Some tt), MkToy (t_clock w) ((key, value) :: t_stash w))
  | ClearAuthtok | SetAuthtok _ | Info _ | PutEnv _ | WriteAll _ _ | SetNonblocking _ => fun w => (Some (Some tt), w)
  | Exchange req | ExchangeUntil req _ => fun w => (Some (Some (toy_reply req)), w)
  | ReadWalletSalt _ => fun w => (Some (Some None), w)
  | ConsultLogin => fun w =>
      (Some (platform.MkLogin None (fun _ => None) (fun _ => Some 1000) (fun _ => true)), w)
  | Spawn _ _ => fun w => (Some (Some 7%nat), w)
  | TryWait _ => fun w => (Some (Some (Some (MkExit (Some 0) None))), w)
  | ReadStdout _ => fun w => (Some (Got []), w)
  | Sleep ms => fun w => (Some tt, MkToy (t_clock w + Z.max 0 ms) (t_stash w))
  | Syslog _ | Kill _ => fun w => (Some tt, w)
  end.

(** A session scope, and logind's word on the session. *)
Definition toy_tree (dir : str) (path : list str) : option str :=
  if bool_decide (dir = str_codes "/proc")
  then Some (str_codes "0::/user.slice/user-1000.slice/session-c2.scope" ++ [10])
  else Some (str_codes "UID=1000" ++ [10] ++ str_codes "REMOTE=0" ++ [10]).

Definition toy : Host Toy := {|
  step := toy_step;
  clock := t_clock;
  get_rhost _ := Some (str_codes <$> su_rhost p);
  get_xdisplay _ := Some None;
  get_tty _ := Some (Some (str_codes "/dev/tty1"));
  get_service _ := Some (Some (str_codes (su_service p)));
  get_cached_authtok _ := Some (str_codes <$> su_cached p);
  get_secret key w := read_stash key (t_stash w);
  getenv _ _ := Some None;
  env_is_set _ _ := false;
  secure_env _ _ := None;
  peer_cred _ := None;
  parent_id _ := 42;
  files_under dir _ := toy_tree dir;
  is_file _ _ := true;
  consent_required _ := true;
|}.

#[export] Instance toy_timely : @Timely Toy toy.
Proof.
  split.
  - intros [] w; simpl; try lia.
  - intros ms w. simpl. lia.
  - intros child w. done.
Qed.

#[export] Instance toy_stashes : @Stashes Toy toy.
Proof.
  split.
  - intros key value w w' [= <-].
    change (read_stash key ((key, value) :: t_stash w) = Some value). unfold read_stash. cbn [List.find fst].
    by rewrite bool_decide_eq_true_2.
  - intros c key w Hc. destruct c as [| | | | |key' value| | | | | | | | | | | | |]; try done.
    change (read_stash key ((key', value) :: t_stash w) = read_stash key (t_stash w)).
    unfold read_stash. cbn [List.find fst]. rewrite bool_decide_eq_false_2; [done|].
    intros ->. by destruct (Hc value).
Qed.
End Host.

(** The stash of this handle is empty and its clock at zero. *)
Definition start : St Toy := MkSt (MkToy 0 []) [].

(** A login screen, and [sudo]. *)
Definition greeter : Setup := MkSetup "sddm" "" None None true SecretKind.LoginPassword.
Definition gnome : Setup := MkSetup "gdm-password" "" None None true SecretKind.GnomeKeyringToken.
Definition sudo : Setup := MkSetup "sudo" "yes" None None true SecretKind.LoginPassword.
Definition over_ssh : Setup := MkSetup "sudo" "yes" None (Some "10.0.0.9") true SecretKind.LoginPassword.
