(* ===== verification/PamModuleClaims.v ===== *)
(** * What the PAM module guarantees

    The code it returns, the passwords and secrets it handles, the consent it
    asks for, the sessions it stands down for, and that it always returns. *)

From S2P Require Import Prelude Text Services Protocol PamSeat PamModule PamModuleTheory PamAttemptTheory PamEntryTheory PamTimeTheory PamSeatTheory PamStashTheory PamHostModel.

#[local] Arguments str_codes : simpl never.
#[local] Arguments utf8_head : simpl never.

Section Guarantees.
Context {W : Type} `{Host W}.
Context (fuel : nat).

(** A whole [authenticate], from the two ways it can go. *)
Lemma authenticate_ways args s o s' (T : list Event -> outcome PamError -> Prop) :
  authenticate fuel args s = (o, s') ->
  (forall new c, stopped args (world s) new c -> T new (Done c)) ->
  (forall pre new user intent o, entered args (world s) pre user intent ->
     (exists w1, trace (world s) pre w1 /\ turn (parse_args args) user intent w1 new (2 * fuel)) ->
     (o = Done SUCCESS -> exists d, earned user new d /\ settled (parse_args args) user d new) ->
     (o = Done ABORT -> declined user new) ->
     T (pre ++ new) (match o with Panics => Done IGNORE | o => o end)) ->
  exists new, log s' = log s ++ new /\ T new o.
Proof.
  intros Hr Hs Hg.
  destruct (wp_run (authenticate fuel args) (fun new o _ => T new o) s o s') as (new & Hl & _ & Ht); [|done|eauto].
  apply wp_authenticate; [auto|]. intros pre w1 user intent Ht He.
  eapply wp_mono; [apply wp_attempts; by eapply entered_unseal|].
  intros new o' w2 _ (Hturn & Hsuc & Hab). apply (Hg _ _ user intent); eauto.
Qed.

(** The user a run asked libpam for. *)
Definition for_user (user : string) (new : list Event) : Prop :=
  exists u, Did GetUser (Some (Some (Some u))) ∈ new /\ user = codes_str (lossy u).

Lemma entered_for_user args w pre user intent new :
  entered args w pre user intent -> for_user user (pre ++ new).
Proof. intros [(u & w0 & rest & -> & _ & _ & ->) _ _ _ _]. exists u. set_solver. Qed.

(** C12. [authenticate] succeeds only when irlumed granted the user's live face
    or released a secret that reached the consumer of its kind.  With [kr] a
    released login password that became the token of the stack succeeds only
    when the user has a live session; a wallet key or a keyring token succeeds
    without one.  It aborts only when the user declined at a consent dialog or an answer that is not a
    password could not be taken back. *)
Theorem codes_earned args s c s' :
  authenticate fuel args s = (Done c, s') ->
  exists new, log s' = log s ++ new
    /\ (c = SUCCESS -> exists user d, for_user user new /\ earned user new d
          /\ settled (parse_args args) user d new
          /\ keyring (parse_args args) = false /\ reseal (parse_args args) = false)
    /\ (c = ABORT -> not_taken_back new \/ exists user, for_user user new /\ declined user new).
Proof.
  intros Hr.
  destruct (authenticate_ways args s (Done c) s' (fun new o =>
    (o = Done SUCCESS -> exists user d, for_user user new /\ earned user new d
       /\ settled (parse_args args) user d new
       /\ keyring (parse_args args) = false /\ reseal (parse_args args) = false)
    /\ (o = Done ABORT -> not_taken_back new \/ exists user, for_user user new /\ declined user new)) Hr)
    as (new & Hl & Hs & Ha).
  - intros new c' (Hn & Hb & _). split; [by intros [= ->]|]. intros [= ->]. left. auto.
  - intros pre new user intent o He _ Hs Hd. split.
    + destruct o; [|done..]. intros Ho. destruct (Hs Ho) as (d & Hg & Hset). exists user, d.
      split_and!; [by eapply entered_for_user|eapply earned_grow; [|exact Hg]; set_solver| |apply He..].
      intros Hk Hda. destruct (Hset Hk Hda) as (l & Hi & Hw). exists l. split; [set_solver|done].
    + destruct o; [|done..]. intros Ho. right. exists user. split; [by eapply entered_for_user|].
      eapply declined_grow; [|by apply Hd]. set_solver.
  - exists new. split_and!; [done|intros ->; by apply Hs|intros ->; by apply Ha].
Qed.

(** What a run that reaches no attempt may stash: the token the stack held, on
    the [reseal] line, whoever had put it there. *)
Definition held_stash (args : list string) (w : W) (c : Call) : Prop :=
  match c with
  | SetAuthtok _ | WriteAll _ _ => False
  | SendSecret _ _ => reseal (parse_args args) /\ stashes_held w c
  | _ => True
  end.

(** C16. Every secret [authenticate] hands on is PAM_AUTHTOK as the stack held it
    when libpam had named the user, whoever had set it, stashed for the reseal
    by the [reseal] line, which hands on nothing else; or irlumed released it to
    the user for that consumer: only a login password becomes the token of the
    stack, only a keyring token is stashed for the session, only a wallet key is
    written to a helper. *)
Theorem secrets_reach_their_consumer args s o s' :
  authenticate fuel args s = (o, s') ->
  exists new, log s' = log s ++ new
    /\ (all (held_stash args (world s)) new
        \/ exists user, for_user user new /\ all (accounted user new) new).
Proof.
  intros Hr.
  destruct (authenticate_ways args s o s' (fun new _ => all (held_stash args (world s)) new
    \/ exists user, for_user user new /\ all (accounted user new) new) Hr) as (new & Hl & Ht); [| |eauto].
  - intros new c (_ & _ & [Ha|(Hl & _ & Ha)]); left; (eapply all_mono; [|exact Ha]); [by intros []|].
    intros c' [-> |Hs]; [done|]. unfold held_stash. destruct Hs as (value & w0 & a & -> & Hs).
    split; [done|]. by exists value, w0, a.
  - intros pre new user intent _ He (w1 & _ & [_ Ha _]) _ _. right. exists user.
    split; [by eapply entered_for_user|]. apply all_app. split.
    + eapply all_mono; [|apply He]. by intros [].
    + eapply all_mono; [|exact Ha]. intros c. apply accounted_grow. set_solver.
Qed.

(** C15. Once the user has typed a password at a prompt, the module asks irlumed
    for no face attempt and leaves the stack to the password. *)
Theorem typed_password_wins args s o s' prompt tok :
  authenticate fuel args s = (o, s') ->
  exists new, log s' = log s ++ new
    /\ (Did (GetAuthtok prompt) (Some (Some (Some tok))) ∈ new -> is_password prompt tok ->
        o = Done IGNORE /\ forall req answer, Did (Exchange req) answer ∉ new).
Proof.
  intros Hr.
  assert (forall new, untyped new -> Did (GetAuthtok prompt) (Some (Some (Some tok))) ∈ new -> ~ is_password prompt tok) as Hno.
  { intros new Hu Hi Hp. unfold untyped in Hu. rewrite list.Forall_forall in Hu. by apply (Hu _ Hi). }
  destruct (authenticate_ways args s o s' (fun new o =>
    Did (GetAuthtok prompt) (Some (Some (Some tok))) ∈ new -> is_password prompt tok ->
    o = Done IGNORE /\ forall req answer, Did (Exchange req) answer ∉ new) Hr) as (new & Hl & Ht); [| |eauto].
  - intros new c (Hs & Hb & Ha) Hi Hp. split.
    + destruct c; [done|done|]. destruct (Hb eq_refl) as [Hu _]. by destruct (Hno new Hu Hi).
    + intros req answer Hx. destruct Ha as [Ha|(_ & _ & Ha)]; apply (all_in _ _ _ _ Ha) in Hx; simpl in Hx; [done|].
      by destruct Hx as [|(? & ? & ? & ? & _)].
  - intros pre new user intent o' He (w1 & _ & [Hc _ _]) _ _ Hi Hp. exfalso.
    apply elem_of_app in Hi as [Hi|Hi]; [by destruct (Hno pre (en_untyped _ _ _ _ _ He) Hi)|].
    by apply (all_in _ _ _ _ Hc) in Hi.
Qed.

(** C14. A transaction counts as remote exactly when one of the signs is there,
    and then the module does nothing but ask whose transaction it is. *)
Theorem remote_stands_down args s u w :
  step GetUser (world s) = (Some (Some (Some u)), w) ->
  (is_remote_session w = true <-> remote_transaction w)
  /\ (remote_transaction w ->
      authenticate fuel args s = (Done IGNORE, MkSt w (log s ++ [Did GetUser (Some (Some (Some u)))]))).
Proof.
  intros E. split; [apply is_remote_session_spec|]. intros Hr. apply is_remote_session_spec in Hr.
  destruct s as [w0 l]. simpl in *. unfold authenticate, firewall, mbind, M_bind, call, reads. simpl.
  by rewrite E; simpl; rewrite Hr.
Qed.
End Guarantees.

(** The lookup of a process's login session says local exactly when the
    process is in a session of the user whose slice holds it, or under that
    user's service manager with such a display session, and logind says that
    session belongs to the user and is not remote. *)
Theorem local_session_exact fs process :
  session_is_local fs process = true <-> local_session fs process.
Proof. apply session_is_local_spec. Qed.

(** ** The module and irlumed's own gate *)

(** The service name of the handle and the machine's configuration stay as
    they are while the module runs. *)
Class Steady (W : Type) `{Host W} : Prop := {
  steady_service c w : get_service (step c w).2 = get_service w;
  steady_consent c w : consent_required (step c w).2 = consent_required w;
}.

Lemma utf8_from_lossy n l : utf8_from n l = true -> utf8_lossy n l = l.
Proof.
  revert l. induction n as [|n IH]; intros [|b l]; simpl; [done..|].
  destruct (utf8_head (b :: l)) as [k good]. intros [-> Hu]%andb_true_iff.
  rewrite IH by done. apply take_drop.
Qed.

Section Gate.
Context {W : Type} `{Steady W} `{Protocol.System}.
Context (fuel : nat).

Lemma service_text_str w :
  (forall svc, mjoin (get_service w) = Some svc -> is_utf8 svc = true) -> service_text w = service_str w.
Proof.
  intros Hu. unfold service_text, service_str, item_text. destruct (mjoin (get_service w)) as [svc|]; [|done].
  simpl. specialize (Hu svc eq_refl). rewrite Hu. unfold lossy. by rewrite utf8_from_lossy.
Qed.

(** C13. Where the program that loads the module runs as root, irlumed reads the
    same consent setting as the module, and the service name is UTF-8 and, like
    the setting, stays as it is during the run, every face attempt the module
    asks for passes irlumed's check of the intent it carries; an intent of the
    conversation is one the user gave and that was taken back. *)
Theorem requests_pass_intent_gate args s o s' peer :
  authenticate fuel args s = (o, s') ->
  (forall svc, mjoin (get_service (world s)) = Some svc -> is_utf8 svc = true) ->
  privileged_face_consent_required = consent_required (world s) ->
  peer_uid peer = 0 ->
  exists new, log s' = log s ++ new
    /\ forall req answer, Did (Exchange req) answer ∈ new ->
         intent_confirmation_gate req peer = None
         /\ (forall structured user service,
               req = Authenticate structured user service (Some PamConversation) -> confirmed new).
Proof.
  intros Hr Hutf Hcfg Hroot.
  destruct (authenticate_ways fuel args s o s' (fun new _ =>
    forall req answer, Did (Exchange req) answer ∈ new ->
      intent_confirmation_gate req peer = None
      /\ (forall structured user service,
            req = Authenticate structured user service (Some PamConversation) -> confirmed new)) Hr)
    as (new & Hl & Ht); [| |eauto].
  { intros new c (_ & _ & [Ha|(_ & _ & Ha)]) req answer Hi; apply (all_in _ _ _ _ Ha) in Hi; [done|].
    by destruct Hi as [|(? & ? & ? & ? & _)]. }
  intros pre new user intent _ He (w1 & Htr & [Hc _ _]) _ _ req answer Hi.
  apply elem_of_app in Hi as [Hi|Hi]; [by apply (all_in _ _ _ _ (en_calls _ _ _ _ _ He)) in Hi|].
  apply (all_in _ _ _ _ Hc) in Hi. destruct req; try done. destruct Hi as (-> & -> & -> & p & w2 & Hw & ->).
  destruct (en_consent _ _ _ _ _ He) as (w3 & asked & before & Hw3 & _ & Hcons).
  assert (service_text w2 = service_str w3) as ->.
  { pose proof (trace_steady get_service _ _ _ steady_service Hw3) as E3.
    pose proof (trace_steady get_service _ _ _ steady_service (trace_trans _ _ _ _ _ Htr Hw)) as E2.
    rewrite <- service_text_str by (by rewrite E3). unfold service_text. by rewrite E2, E3. }
  unfold intent_confirmation_gate, requires_confirmation. unfold consented in Hcons.
  rewrite bool_decide_eq_true_2 by done.
  destruct (service_str w3 ≫= pam_service.classify) as [k|]; [|by rewrite Hcons].
  destruct (pam_service.requires_face_intent_confirmation k); [|by rewrite Hcons].
  destruct Hcons as (_ & _ & Hint). destruct intent as [[]|]; [| |done]; simpl.
  - split; [done|]. intros _ _ _ _. unfold confirmed in *.
    destruct Hint as (? & ? & tok & ? & ?). split_and!; [set_solver..|]. exists tok. set_solver.
  - destruct Hint as (p' & w' & Hw' & Hno). rewrite (trace_steady consent_required _ _ _ steady_consent Hw') in Hno.
    rewrite Hcfg, Hno. done.
Qed.
End Gate.

(** ** Time *)

Section Returns.
Context {W : Type} `{Timely W}.
Context (fuel : nat).

(** C18. [authenticate] and [open_session] return, whatever libpam, irlumed and the
    helpers answer, where the clock does not run backwards, a sleep lasts its
    time, every call returns and a read that does not block is not interrupted;
    and one [authenticate] sends irlumed at most 102 requests, the questions
    about the cameras among them, at most two when the line does not wait and
    unseals, at most three when it does neither. *)
Theorem module_returns args s :
  (HELPER_TURNS <= fuel)%nat ->
  (exists c new s', authenticate fuel args s = (Done c, s') /\ log s' = log s ++ new
     /\ (requests new <= 102)%nat
     /\ (wait (parse_args args) = false -> requests new <= if unseal (parse_args args) then 2 else 3)%nat)
  /\ exists s', open_session fuel args s = (Done IGNORE, s').
Proof.
  intros Hf. split.
  - destruct (authenticate fuel args s) as [o s'] eqn:Hr. set (a := parse_args args).
    assert (Hloop : forall user intent w1, wp (attempts fuel fuel a user intent (clock w1 + WAIT_BUDGET)) w1
              (fun new o _ => o <> Spins /\ (requests new <= 102)%nat)).
    { intros user intent w1. apply (returns_attempts fuel Hf fuel a user intent (clock w1 + WAIT_BUDGET) 50);
        [unfold WAIT_BUDGET, WAIT_RETRY_GAP; lia|unfold HELPER_TURNS in Hf; lia]. }
    set (most := if wait a then 102%nat else turn_requests a).
    assert (Hmost : forall user intent w1, wp (attempts fuel fuel a user intent (clock w1 + WAIT_BUDGET)) w1 (few most)).
    { intros user intent w1. unfold most. destruct (wait a) eqn:Ew; [|by apply few_attempts].
      eapply wp_mono; [apply Hloop|]. by intros new o' w' _ []. }
    assert (Hends : wp (authenticate fuel args) (world s) (fun new o _ => exists c, o = Done c)).
    { apply wp_authenticate; [by eauto|]. intros pre w1 user intent _ _.
      eapply wp_mono; [apply Hloop|]. intros new [] w2 _ [Ho _]; [eauto..|done]. }
    destruct (wp_run _ _ _ _ _ (wp_and _ _ _ _ Hends (few_authenticate fuel args most _ Hmost)) Hr)
      as (new & Hl & _ & (c & ->) & Hn). exists c, new, s'. unfold few, most, status_requests, turn_requests in Hn. fold a in Hn.
    split_and!; [done|done|destruct (wait a), (unseal a); cbn [orb] in Hn; lia|].
    intros Ew. rewrite Ew in Hn. destruct (unseal a); cbn [orb] in Hn; lia.
  - destruct (open_session fuel args s) as [o s'] eqn:Hr. exists s'. f_equal.
    by destruct (wp_run _ _ _ _ _ (returns_open_session fuel Hf args (world s)) Hr) as (new & _ & _ & ->).
Qed.
End Returns.

(** ** The session phase *)

Section Once.
Context {W : Type} `{Stashes W}.
Context (fuel : nat).

(** An event that emptied the stash. *)
Definition emptied (e : Event) : bool :=
  match e with
  | Did c a =>
      match c return option (Answer c) -> bool with
      | SendSecret key value => fun a =>
          bool_decide (key = GKR_TOKEN_STASH_KEY) && bool_decide (value = [])
          && (if a is Some (Some _) then true else false)
      | _ => fun _ => false
      end a
  end.

Lemma phase_empties stash w new w' :
  session_phase stash new -> trace w new w' -> Exists (fun e => emptied e = true) new ->
  get_secret GKR_TOKEN_STASH_KEY w' = Some [].
Proof.
  intros (pre & rest & -> & Hi & Hr) (w1 & _ & Ht)%trace_app He.
  assert (forall new, all (fun c => stashes c = false) new -> ~ Exists (fun e => emptied e = true) new) as Hno.
  { intros l Ha Hx. apply list.Exists_exists in Hx as ([c a] & Hin & Hx). apply (all_in _ _ _ _ Ha) in Hin.
    by destruct c. }
  apply list.Exists_app in He as [He|He].
  { exfalso. revert He. apply Hno. by eapply all_mono; [|exact Hi]; intros c []. }
  destruct Hr as [-> | (_ & ans & r & -> & Hr)]; [by apply List.Exists_nil in He|].
  assert (all (fun c => stashes c = false) r) as Hs.
  { eapply all_mono; [|exact Hr]. unfold session_call. destruct stash; [by intros []|done]. }
  apply List.Exists_cons in He as [He|He]; [|by destruct (Hno r Hs)].
  destruct ans as [[[]|]|]; [|done..]. by eapply emptied_stays.
Qed.

Lemma phase_emptied new : session_phase (Some []) new -> all (fun c => delivers c = false) new.
Proof.
  intros (pre & rest & -> & Hi & [-> | [Hn _]]); [|done]. rewrite app_nil_r.
  eapply all_mono; [|exact Hi]. by intros c [].
Qed.

(** C17. A keyring token stashed in the authentication phase is handed on as it
    is, without another request, and once: after a session phase that emptied
    the stash, the next one on the handle delivers nothing and asks irlumed
    for nothing to deliver. *)
Theorem keyring_secret_delivered_once args args' s o1 s1 o2 s2 :
  open_session fuel args s = (o1, s1) -> open_session fuel args' s1 = (o2, s2) ->
  exists new1 new2, log s1 = log s ++ new1 /\ log s2 = log s1 ++ new2
    /\ (forall tok, get_secret GKR_TOKEN_STASH_KEY (world s) = Some tok ->
          (forall child input answer, Did (WriteAll child input) answer ∈ new1 -> input = tok)
          /\ forall user service have auth answer,
               Did (Exchange (UnsealKeyring user service have auth)) answer ∉ new1)
    /\ (Exists (fun e => emptied e = true) new1 ->
          forall c answer, Did c answer ∈ new2 -> delivers c = false).
Proof.
  intros H1 H2.
  destruct (wp_run _ _ _ _ _ (wp_open_session fuel args (world s)) H1) as (new1 & Hl1 & Ht1 & Hp1).
  destruct (wp_run _ _ _ _ _ (wp_open_session fuel args' (world s1)) H2) as (new2 & Hl2 & _ & Hp2).
  exists new1, new2. split_and!; [done..| |].
  - intros tok Htok. rewrite Htok in Hp1. destruct Hp1 as (pre & rest & -> & Hi & Hr).
    assert (forall c a, Did c a ∈ pre ++ rest -> delivers c = false \/ token_call tok c) as Hall.
    { intros c a [Hin|Hin]%elem_of_app; [left; by apply (all_in _ _ _ _ Hi) in Hin as []|].
      destruct Hr as [-> | (_ & ans & r & -> & Hr)]; [by apply elem_of_nil in Hin|].
      apply elem_of_cons in Hin as [Hin|Hin]; [left; by apply (f_equal did) in Hin; simpl in Hin; subst c|].
      right. by apply (all_in _ _ _ _ Hr) in Hin. }
    split; [intros child input a Hin|intros user service have auth a Hin]; by destruct (Hall _ _ Hin).
  - intros He c a Hin. rewrite (phase_empties _ _ _ _ Hp1 Ht1 He) in Hp2.
    by apply (all_in _ _ _ _ (phase_emptied _ Hp2)) in Hin.
Qed.
End Once.

(** ** The theorems on a concrete machine *)

Definition greeter_login := @authenticate Toy (toy greeter) 10 ["unseal"; "kr"] start.
Definition sudo_run := @authenticate Toy (toy sudo) 10 [] start.

Lemma codes_earned_witness :
  greeter_login.1 = Done SUCCESS
  /\ exists new, log greeter_login.2 = log start ++ new
    /\ (SUCCESS = SUCCESS -> exists user d, for_user user new /\ earned user new d
          /\ @settled (parse_args ["unseal"; "kr"]) user d new
          /\ keyring (parse_args ["unseal"; "kr"]) = false /\ reseal (parse_args ["unseal"; "kr"]) = false)
    /\ (SUCCESS = ABORT -> not_taken_back new \/ exists user, for_user user new /\ declined user new).
Proof.
  split; [vm_compute; reflexivity|].
  apply (@codes_earned Toy (toy greeter) 10 ["unseal"; "kr"] start SUCCESS greeter_login.2).
  vm_compute. reflexivity.
Defined.

Definition gnome_login := @authenticate Toy (toy gnome) 10 ["unseal"] start.

Lemma secrets_reach_their_consumer_witness :
  gnome_login.1 = Done SUCCESS
  /\ exists new, log gnome_login.2 = log start ++ new
    /\ (all (@held_stash Toy (toy gnome) ["unseal"] (world start)) new
        \/ exists user, for_user user new /\ all (accounted user new) new).
Proof.
  split; [vm_compute; reflexivity|].
  apply (@secrets_reach_their_consumer Toy (toy gnome) 10 ["unseal"] start gnome_login.1 gnome_login.2).
  apply surjective_pairing.
Defined.

(** [sudo], where the user typed a password. *)
Definition typing : Setup := MkSetup "sudo" "hunter2" None None true SecretKind.LoginPassword.
Definition typing_run := @authenticate Toy (toy typing) 10 [] start.

Lemma typed_password_wins_witness :
  Did (GetAuthtok None) (Some (Some (Some (str_codes "hunter2")))) ∈ log typing_run.2
  /\ is_password None (str_codes "hunter2")
  /\ exists new, log typing_run.2 = log start ++ new
    /\ (Did (GetAuthtok None) (Some (Some (Some (str_codes "hunter2")))) ∈ new ->
        is_password None (str_codes "hunter2") ->
        typing_run.1 = Done IGNORE /\ forall req answer, Did (Exchange req) answer ∉ new).
Proof.
  split; [apply list_elem_of_In; vm_compute; tauto|]. split; [vm_compute; reflexivity|].
  apply (@typed_password_wins Toy (toy typing) 10 [] start typing_run.1 typing_run.2 None (str_codes "hunter2")).
  apply surjective_pairing.
Defined.

Lemma remote_stands_down_witness :
  (@is_remote_session Toy (toy over_ssh) (world start) = true <-> @remote_transaction Toy (toy over_ssh) (world start))
  /\ (@remote_transaction Toy (toy over_ssh) (world start) ->
      @authenticate Toy (toy over_ssh) 10 [] start
      = (Done IGNORE, MkSt (world start) (log start ++ [Did GetUser (Some (Some (Some (str_codes "ann"))))]))).
Proof.
  apply (@remote_stands_down Toy (toy over_ssh) 10 [] start (str_codes "ann") (world start)). reflexivity.
Defined.

#[export] Instance toy_steady p : @Steady Toy (toy p).
Proof. split; by intros. Qed.

(** The machine irlumed runs on, and the module as its peer. *)
Definition sudo_system : Protocol.System := {|
  Protocol.uid_of _ := Some 1000;
  Protocol.holds_an_active_seat _ := Some true;
  Protocol.privileged_face_consent_required := true;
|}.

Lemma requests_pass_intent_gate_witness :
  sudo_run.1 = Done SUCCESS
  /\ exists new, log sudo_run.2 = log start ++ new
    /\ forall req answer, Did (Exchange req) answer ∈ new ->
         @intent_confirmation_gate sudo_system req (MkPeer 0 0 42) = None
         /\ (forall structured user service,
               req = Authenticate structured user service (Some PamConversation) -> confirmed new).
Proof.
  split; [vm_compute; reflexivity|].
  apply (@requests_pass_intent_gate Toy (toy sudo) (toy_steady sudo) sudo_system 10 [] start sudo_run.1 sudo_run.2
    (MkPeer 0 0 42)); [apply surjective_pairing| |reflexivity|reflexivity].
  intros svc [= <-]. vm_compute. reflexivity.
Defined.

Lemma module_returns_witness :
  (exists c new s', @authenticate Toy (toy sudo) HELPER_TURNS ["wait"] start = (Done c, s') /\ log s' = log start ++ new
     /\ (requests new <= 102)%nat /\ (wait (parse_args ["wait"]) = false -> requests new <= if unseal (parse_args ["wait"]) then 2 else 3)%nat)
  /\ exists s', @open_session Toy (toy sudo) HELPER_TURNS ["wait"] start = (Done IGNORE, s').
Proof. apply (@module_returns Toy (toy sudo) (toy_timely sudo) HELPER_TURNS ["wait"] start). apply Nat.le_refl. Defined.

(** The handle after a face login that released a keyring token. *)
Definition stashed : St Toy := MkSt (MkToy 0 [(GKR_TOKEN_STASH_KEY, [97; 98])]) [].
Definition opened := @open_session Toy (toy gnome) 10 ["reseal"] stashed.
Definition reopened := @open_session Toy (toy gnome) 10 ["reseal"] opened.2.

Lemma keyring_secret_delivered_once_witness :
  existsb (fun e => delivers (did e)) (log opened.2) = true
  /\ exists new1 new2, log opened.2 = log stashed ++ new1 /\ log reopened.2 = log opened.2 ++ new2
    /\ (forall tok, @get_secret Toy (toy gnome) GKR_TOKEN_STASH_KEY (world stashed) = Some tok ->
          (forall child input answer, Did (WriteAll child input) answer ∈ new1 -> input = tok)
          /\ forall user service have auth answer,
               Did (Exchange (UnsealKeyring user service have auth)) answer ∉ new1)
    /\ (Exists (fun e => emptied e = true) new1 ->
          forall c answer, Did c answer ∈ new2 -> delivers c = false).
Proof.
  split; [vm_compute; reflexivity|].
  apply (@keyring_secret_delivered_once Toy (toy gnome) (toy_stashes gnome) 10 ["reseal"] ["reseal"] stashed
    opened.1 opened.2 reopened.1 reopened.2); apply surjective_pairing.
Defined.
