(* ===== verification/Float.v ===== *)
(** * Floating-point numbers

    [f32] and [f64] as the standard's IEEE 754 model ([SpecFloat]) at the two
    widths, with the operations the face engine uses: arithmetic rounded to
    nearest even, the comparisons (all false on a NaN), [min], [max], [clamp]
    and the conversions.  Below, the order of the comparisons: a number has a
    [key], a NaN has none, and the comparisons are those of the keys. *)

From Stdlib Require Export Floats.SpecFloat.
From S2P Require Import Prelude.

Definition F32 : Type := spec_float.
Definition F64 : Type := spec_float.

#[export] Instance spec_float_eq_dec : EqDecision spec_float.
Proof. solve_decision. Defined.

(** ** Operations *)

Definition f32_of_Z (n : Z) : F32 := binary_normalize 24 128 n 0 false.
Definition f64_of_Z (n : Z) : F64 := binary_normalize 53 1024 n 0 false.

Definition add32 : F32 -> F32 -> F32 := SFadd 24 128.
Definition sub32 : F32 -> F32 -> F32 := SFsub 24 128.
Definition mul32 : F32 -> F32 -> F32 := SFmul 24 128.
Definition div32 : F32 -> F32 -> F32 := SFdiv 24 128.
Definition sqrt32 : F32 -> F32 := SFsqrt 24 128.
Definition add64 : F64 -> F64 -> F64 := SFadd 53 1024.
Definition mul64 : F64 -> F64 -> F64 := SFmul 53 1024.
Definition div64 : F64 -> F64 -> F64 := SFdiv 53 1024.
Definition sqrt64 : F64 -> F64 := SFsqrt 53 1024.

(** A decimal literal [n / 10^k]: both sides are exact, so the division rounds
    the literal once. *)
Definition lit32 (n k : Z) : F32 := div32 (f32_of_Z n) (f32_of_Z (10 ^ k)).
Definition lit64 (n k : Z) : F64 := div64 (f64_of_Z n) (f64_of_Z (10 ^ k)).

(** [f64::from] and [as f32]. *)
Definition convert (prec emax : Z) (x : spec_float) : spec_float :=
  match x with
  | S754_finite s m e => binary_normalize prec emax (if s then Z.neg m else Z.pos m) e s
  | _ => x
  end.
Definition to_f64 (x : F32) : F64 := convert 53 1024 x.
Definition to_f32 (x : F64) : F32 := convert 24 128 x.

Definition NEG_INFINITY : F32 := S754_infinity true.
Definition INFINITY : F32 := S754_infinity false.
Definition NEG_ZERO : spec_float := S754_zero true.
Definition ZERO : spec_float := S754_zero false.

Definition is_finite (x : spec_float) : bool :=
  match x with S754_zero _ | S754_finite _ _ _ => true | _ => false end.
Definition is_nan (x : spec_float) : bool := match x with S754_nan => true | _ => false end.

(** [a >= b], [a > b] and [a <= b]. *)
Definition fge (a b : spec_float) : bool := SFleb b a.
Definition fgt (a b : spec_float) : bool := SFltb b a.
Definition fle (a b : spec_float) : bool := SFleb a b.
Definition flt (a b : spec_float) : bool := SFltb a b.

(** [f32::min] and [f32::max]: a NaN loses to a number. *)
Definition fmin (a b : spec_float) : spec_float :=
  if is_nan a then b else if is_nan b then a else if flt b a then b else a.
Definition fmax (a b : spec_float) : spec_float :=
  if is_nan a then b else if is_nan b then a else if flt a b then b else a.
(** [f32::clamp], for bounds in order. *)
Definition fclamp (lo hi x : spec_float) : spec_float :=
  let x := if flt x lo then lo else x in if fgt x hi then hi else x.
(** [(lo..=hi).contains(&x)]. *)
Definition within (lo hi x : spec_float) : bool := fle lo x && fle x hi.

(** [Iterator::sum] starts from the negative zero. *)
Definition sum32 (l : list F32) : F32 := fold_left add32 l NEG_ZERO.
Definition sum64 (l : list F64) : F64 := fold_left add64 l NEG_ZERO.

(** [f32::total_cmp], as far as [max_by] over scores needs it: the order of the
    keys, with the zeros apart and the NaNs at the ends by their sign.  The
    model has one NaN, the positive one. *)
Definition total_key (x : spec_float) : Z * Z * Z :=
  match x with
  | S754_infinity true => (-3, 0, 0)
  | S754_finite true m e => (-2, - e, - Z.pos m)
  | S754_zero true => (-1, 0, 0)
  | S754_zero false => (0, 0, 0)
  | S754_finite false m e => (1, e, Z.pos m)
  | S754_infinity false => (2, 0, 0)
  | S754_nan => (3, 0, 0)
  end.

(** ** The order *)

Definition key (x : spec_float) : option (Z * Z * Z) :=
  match x with
  | S754_nan => None
  | S754_infinity true => Some (-2, 0, 0)
  | S754_finite true m e => Some (-1, - e, - Z.pos m)
  | S754_zero _ => Some (0, 0, 0)
  | S754_finite false m e => Some (1, e, Z.pos m)
  | S754_infinity false => Some (2, 0, 0)
  end.

Definition lex_lt (a b : Z * Z * Z) : Prop :=
  let '(a1, a2, a3) := a in
  let '(b1, b2, b3) := b in
  a1 < b1 \/ a1 = b1 /\ (a2 < b2 \/ a2 = b2 /\ a3 < b3).

Lemma lex_lt_irrefl a : ~ lex_lt a a.
Proof. destruct a as [[??]?]. simpl. lia. Qed.

Lemma lex_lt_trans a b c : lex_lt a b -> lex_lt b c -> lex_lt a c.
Proof. destruct a as [[??]?], b as [[??]?], c as [[??]?]. simpl. lia. Qed.

Lemma lex_total a b : lex_lt a b \/ a = b \/ lex_lt b a.
Proof.
  destruct a as [[a1 a2] a3], b as [[b1 b2] b3]. simpl.
  destruct (Z.lt_trichotomy a1 b1) as [|[->|]]; [lia| |lia].
  destruct (Z.lt_trichotomy a2 b2) as [|[->|]]; [lia| |lia].
  destruct (Z.lt_trichotomy a3 b3) as [|[->|]]; [lia|auto|lia].
Qed.

Definition lex_compare (a b : Z * Z * Z) : comparison :=
  let '(a1, a2, a3) := a in
  let '(b1, b2, b3) := b in
  match a1 ?= b1 with
  | Eq => match a2 ?= b2 with Eq => a3 ?= b3 | c => c end
  | c => c
  end.

Lemma SFcompare_key x y :
  SFcompare x y = (a ← key x; b ← key y; Some (lex_compare a b)).
Proof.
  destruct x as [[]|[]| |[] m e], y as [[]|[]| |[] n f]; try done; cbn.
  change (Pos.compare_cont Eq m n) with (Z.pos m ?= Z.pos n).
  destruct (Z.compare_spec e f), (Z.compare_spec (- e) (- f)); try lia; done.
Qed.

Lemma lex_compare_spec a b :
  match lex_compare a b with
  | Lt => lex_lt a b
  | Eq => a = b
  | Gt => lex_lt b a
  end.
Proof.
  destruct a as [[a1 a2] a3], b as [[b1 b2] b3]. unfold lex_compare, lex_lt.
  destruct (Z.compare_spec a1 b1); [subst| |]; try lia.
  destruct (Z.compare_spec a2 b2); [subst| |]; try lia.
  destruct (Z.compare_spec a3 b3); subst; try lia; done.
Qed.

Lemma key_nan x : key x = None <-> is_nan x = true.
Proof. by destruct x as [|[]| |[]]. Qed.

Lemma flt_key x y : flt x y = true <-> exists a b, key x = Some a /\ key y = Some b /\ lex_lt a b.
Proof.
  unfold flt, SFltb. rewrite SFcompare_key.
  destruct (key x) as [a|], (key y) as [b|]; cbn; try (split; [done|naive_solver]).
  pose proof (lex_compare_spec a b). destruct (lex_compare a b); cbn.
  - subst. split; [done|]. intros (?&?&?&?&Hl); simplify_eq. by apply lex_lt_irrefl in Hl.
  - naive_solver.
  - split; [done|]. intros (?&?&?&?&Hl); simplify_eq.
    by pose proof (lex_lt_irrefl _ (lex_lt_trans _ _ _ Hl H)).
Qed.

Lemma fle_key x y : fle x y = true <-> exists a b, key x = Some a /\ key y = Some b /\ ~ lex_lt b a.
Proof.
  unfold fle, SFleb. rewrite SFcompare_key.
  destruct (key x) as [a|], (key y) as [b|]; cbn; try (split; [done|naive_solver]).
  pose proof (lex_compare_spec a b). destruct (lex_compare a b); cbn.
  - subst. split; [|done]. intros _. eexists _, _. split_and!; [done..|]. apply lex_lt_irrefl.
  - split; [|done]. intros _. eexists _, _. split_and!; [done..|].
    intros Hl. by pose proof (lex_lt_irrefl _ (lex_lt_trans _ _ _ Hl H)).
  - naive_solver.
Qed.

Lemma fle_refl x : is_nan x = false -> fle x x = true.
Proof.
  intros Hn. apply fle_key. destruct (key x) eqn:E; [|apply key_nan in E; congruence].
  eexists _, _. split_and!; eauto using lex_lt_irrefl.
Qed.

Lemma fle_trans x y z : fle x y = true -> fle y z = true -> fle x z = true.
Proof.
  rewrite !fle_key. intros (a & b & Ha & Hb & H1) (b' & c & Hb' & Hc & H2). assert (b' = b) as -> by congruence.
  eexists _, _. split_and!; [done..|]. intros Hl.
  destruct (lex_total b a) as [?|[->|?]]; [done|done|eauto using lex_lt_trans].
Qed.

Lemma flt_le x y : flt x y = true -> fle x y = true.
Proof.
  rewrite flt_key, fle_key. intros (a & b & Ha & Hb & H1). eexists _, _. split_and!; [done..|].
  intros H2. by pose proof (lex_lt_irrefl _ (lex_lt_trans _ _ _ H1 H2)).
Qed.

Lemma flt_trans x y z : flt x y = true -> flt y z = true -> flt x z = true.
Proof.
  rewrite !flt_key. intros (a & b & Ha & Hb & H1) (b' & c & Hb' & Hc & H2). assert (b' = b) as -> by congruence.
  eexists _, _. split_and!; [done..|]. eauto using lex_lt_trans.
Qed.

Lemma fle_lt_trans x y z : fle x y = true -> flt y z = true -> flt x z = true.
Proof.
  rewrite fle_key, !flt_key. intros (a & b & Ha & Hb & H1) (b' & c & Hb' & Hc & H2). assert (b' = b) as -> by congruence.
  eexists _, _. split_and!; [done..|].
  destruct (lex_total a b) as [?|[->|?]]; [eauto using lex_lt_trans|done|done].
Qed.

Lemma flt_not_le x y : flt x y = true -> fle y x = false.
Proof.
  intros Hl. destruct (fle y x) eqn:E; [|done].
  pose proof (fle_lt_trans _ _ _ E Hl) as H. apply flt_key in H as (?&?&?&?&H). simplify_eq.
  by apply lex_lt_irrefl in H.
Qed.

(** Two numbers are comparable; the comparison fails only on a NaN. *)
Lemma not_flt_le x y : is_nan x = false -> is_nan y = false -> flt x y = false -> fle y x = true.
Proof.
  intros Hx Hy Hl. apply fle_key.
  destruct (key x) as [a|] eqn:Ea; [|apply key_nan in Ea; congruence].
  destruct (key y) as [b|] eqn:Eb; [|apply key_nan in Eb; congruence].
  eexists _, _. split_and!; [done..|]. intros H.
  assert (flt x y = true) by (apply flt_key; eauto). congruence.
Qed.

Lemma fle_numbers x y : fle x y = true -> is_nan x = false /\ is_nan y = false.
Proof.
  rewrite fle_key. intros (a & b & Ha & Hb & _).
  split; [destruct (is_nan x) eqn:E|destruct (is_nan y) eqn:E]; try done; apply key_nan in E; congruence.
Qed.

Lemma flt_numbers x y : flt x y = true -> is_nan x = false /\ is_nan y = false.
Proof. intros. by apply fle_numbers, flt_le. Qed.

Lemma fge_nan_l x y : is_nan x = true -> fge x y = false.
Proof. intros Hn. destruct (fge x y) eqn:E; [|done]. apply fle_numbers in E. naive_solver congruence. Qed.

Lemma fle_infinity x : is_nan x = false -> fle NEG_INFINITY x = true.
Proof.
  intros Hn. apply fle_key. destruct (key x) as [[[a b] c]|] eqn:E; [|apply key_nan in E; congruence].
  eexists _, _. split_and!; [done..|]. destruct x as [|[]| |[]]; simplify_eq/=; lia.
Qed.
