(* ===== verification/Liveness.v ===== *)
(** * The liveness gate

    [irlume-liveness/src/lib.rs]: the cues, the three evaluators, the reason
    each refusal gives and the override of one threshold.  A reason is a
    constructor with the measurements its text prints. *)

From S2P Require Import Prelude Float.

Inductive Verdict := Live | Spoof | Uncertain.
#[export] Instance Verdict_eq_dec : EqDecision Verdict.
Proof. solve_decision. Defined.

Record FaceBox := MkFaceBox { cx : F32; cy : F32; score : F32 }.

Record Signals := MkSignals {
  rgb_face : option FaceBox;
  ir_face : option FaceBox;
  ir_face_brightness : F32;
  ir_center_edge_ratio : F32;
  ir_eye_glint : option F32;
  head_yaw_asym : F32;
  head_pitch_frac : F32;
  rgb_face_brightness : F32;
  rgb_specular_frac : F32;
  rgb_moire_score : F32;
  ir_ambient : F32;
  ir_ceiling_known : bool;
  face_frac : F32;
  ir_saturated_frac : option F32;
  ir_persistent_saturated_frac : option F32;
}.

(** [Signals::default]. *)
Definition default_signals : Signals := {|
  rgb_face := None; ir_face := None; ir_face_brightness := ZERO; ir_center_edge_ratio := ZERO;
  ir_eye_glint := None; head_yaw_asym := ZERO; head_pitch_frac := lit32 5 1;
  rgb_face_brightness := ZERO; rgb_specular_frac := ZERO; rgb_moire_score := ZERO;
  ir_ambient := ZERO; ir_ceiling_known := false; face_frac := ZERO;
  ir_saturated_frac := None; ir_persistent_saturated_frac := None |}.

Definition RGB_FACE_MIN_BRIGHTNESS : F32 := lit32 60 0.
Definition RGB_FACE_MAX_BRIGHTNESS : F32 := lit32 245 0.
Definition RGB_SPECULAR_MAX : F32 := lit32 18 2.
Definition RGB_MOIRE_MAX : F32 := lit32 28 0.
Definition IR_FACE_MIN_BRIGHTNESS : F32 := lit32 35 0.
Definition CROSS_SPECTRUM_TOLERANCE : F32 := lit32 30 2.
Definition MIN_FACE_SCORE : F32 := lit32 6 1.
Definition MIN_CENTER_EDGE_RATIO : F32 := lit32 103 2.
Definition IR_SATURATED_FRAC_MAX : F32 := lit32 10 2.
Definition IR_PERSISTENT_SATURATED_FRAC_MIN : F32 := lit32 10 2.
Definition IR_AMBIENT_FLOOD : F32 := lit32 170 0.
Definition GLINT_MIN : F32 := lit32 180 0.
Definition YAW_ASYM_MAX : F32 := lit32 40 2.
Definition PITCH_FRAC_MIN : F32 := lit32 20 2.
Definition PITCH_FRAC_MAX : F32 := lit32 80 2.

Inductive DenyCause := OtherCause | NoIrFace | ExposureUnmeasurable.
#[export] Instance DenyCause_eq_dec : EqDecision DenyCause.
Proof. solve_decision. Defined.

Record Cues := MkCues {
  face_in_rgb : bool;
  face_in_ir : bool;
  cross_spectrum_aligned : bool;
  ir_reflectance_ok : bool;
  center_edge_ratio_ok : bool;
  glint_present : bool;
  glint_readable : bool;
  frontal_ok : bool;
  ir_exposure_ok : bool;
  ir_exposure_measured : bool;
  deny_cause : DenyCause;
}.
Definition default_cues : Cues := MkCues false false false false false false false false false false OtherCause.

(** The texts of the refusals, with the numbers they print. *)
Inductive Why :=
| NoRgbFace | NoFaceInIr | FaceMismatch (dist : F32) | NotFacing (yaw pitch : F32)
| Unmeasurable | BlownOut (clipped : F32)
| PersistentSource | Flood (ambient : F32) | TooDark (brightness : F32)
| OffAxis (ratio : F32) (glint : option F32) | TooFlat (ratio : F32)
| RgbTooDark | RgbOverexposed | RgbGlare | RgbMoire (peak : F32)
| IsLive.

Definition persistent_ir_source_overwhelms (s : Signals) : bool :=
  match ir_persistent_saturated_frac s with
  | Some fraction => fgt fraction IR_PERSISTENT_SATURATED_FRAC_MIN
  | None => false
  end
  && (flt (ir_face_brightness s) IR_FACE_MIN_BRIGHTNESS || flt (ir_center_edge_ratio s) MIN_CENTER_EDGE_RATIO).

Definition eyes_off_lens (glint : option F32) : bool :=
  match glint with Some g => flt g GLINT_MIN | None => false end.

(** ** One threshold may be overridden

    [resolve_override]: the value in force, and whether the text was refused.
    [parse] is the standard library's reading of the text. *)

Inductive Refusal := NotFinite | OutOfRange | NotANumber.

Definition resolve_override {T} (parse : string -> option T) (is_comparable : T -> bool) (raw : option string)
    (default : T) (accepts : T -> bool) : T * option Refusal :=
  match raw with
  | None => (default, None)
  | Some raw =>
      match parse (trim raw) with
      | Some v =>
          if negb (is_comparable v) then (default, Some NotFinite)
          else if negb (accepts v) then (default, Some OutOfRange)
          else (v, None)
      | None => (default, Some NotANumber)
      end
  end.

(** [rgb_moire_max]: [IRLUME_RGB_MOIRE_MAX], or the default. *)
Definition rgb_moire_max (parse : string -> option F32) (raw : option string) : F32 :=
  (resolve_override parse is_finite raw RGB_MOIRE_MAX (fun v => fgt v ZERO)).1.

(** ** The evaluators *)

Definition trusted_face (f : option FaceBox) : option FaceBox :=
  match f with Some b => if fge (score b) MIN_FACE_SCORE then Some b else None | None => None end.

(** [powi(2)]: one multiplication. *)
Definition square32 (x : F32) : F32 := mul32 x x.

Definition face_distance (a b : FaceBox) : F32 :=
  sqrt32 (add32 (square32 (sub32 (cx a) (cx b))) (square32 (sub32 (cy a) (cy b)))).

Definition is_frontal (s : Signals) : bool :=
  fle (head_yaw_asym s) YAW_ASYM_MAX && within PITCH_FRAC_MIN PITCH_FRAC_MAX (head_pitch_frac s).

Definition exposure_refusal (s : Signals) (c : Cues) : option (Verdict * Why) * Cues :=
  if negb (ir_ceiling_known s) then
    (Some (Uncertain, Unmeasurable),
     MkCues (face_in_rgb c) (face_in_ir c) (cross_spectrum_aligned c) (ir_reflectance_ok c) (center_edge_ratio_ok c)
       (glint_present c) (glint_readable c) (frontal_ok c) false false ExposureUnmeasurable)
  else
    let ok := match ir_saturated_frac s with Some f => fle f IR_SATURATED_FRAC_MAX | None => false end in
    let c := MkCues (face_in_rgb c) (face_in_ir c) (cross_spectrum_aligned c) (ir_reflectance_ok c)
               (center_edge_ratio_ok c) (glint_present c) (glint_readable c) (frontal_ok c) ok true (deny_cause c) in
    if ok then (None, c)
    else (Some (Uncertain, BlownOut (mul32 (default (lit32 1 0) (ir_saturated_frac s)) (lit32 100 0))), c).

(** What the two IR evaluators share after the exposure: reflectance, the
    centre/edge falloff and the glint. *)
Definition ir_cues (s : Signals) (c : Cues) : Verdict * Cues * Why :=
  let why flat :=
    if persistent_ir_source_overwhelms s then PersistentSource
    else if fge (ir_ambient s) IR_AMBIENT_FLOOD then Flood (ir_ambient s)
    else flat in
  let bright := fge (ir_face_brightness s) IR_FACE_MIN_BRIGHTNESS in
  let falls_off := fge (ir_center_edge_ratio s) MIN_CENTER_EDGE_RATIO in
  let readable := bool_decide (is_Some (ir_eye_glint s)) in
  let glint := match ir_eye_glint s with Some g => fge g GLINT_MIN | None => false end in
  let cues reflect ratio present readable :=
    MkCues (face_in_rgb c) (face_in_ir c) (cross_spectrum_aligned c) reflect ratio present readable (frontal_ok c)
      (ir_exposure_ok c) (ir_exposure_measured c) (deny_cause c) in
  if negb bright then (Spoof, cues false (center_edge_ratio_ok c) false false, why (TooDark (ir_face_brightness s)))
  else if negb falls_off then
    (Spoof, cues true false false false,
     why (if eyes_off_lens (ir_eye_glint s) then OffAxis (ir_center_edge_ratio s) (ir_eye_glint s)
          else TooFlat (ir_center_edge_ratio s)))
  else (Live, cues true true glint readable, IsLive).

(** [LivenessGate::evaluate]. *)
Definition evaluate (s : Signals) : Verdict * Cues * Why :=
  match trusted_face (rgb_face s) with
  | None => (Uncertain, default_cues, NoRgbFace)
  | Some rgb =>
      match trusted_face (ir_face s) with
      | None => (Spoof, MkCues true false false false false false false false false false NoIrFace, NoFaceInIr)
      | Some ir =>
          let dist := face_distance rgb ir in
          let aligned := fle dist CROSS_SPECTRUM_TOLERANCE in
          if negb aligned then
            (Uncertain, MkCues true true false false false false false false false false OtherCause, FaceMismatch dist)
          else if negb (is_frontal s) then
            (Uncertain, MkCues true true true false false false false false false false OtherCause,
             NotFacing (head_yaw_asym s) (head_pitch_frac s))
          else
            match exposure_refusal s (MkCues true true true false false false false true false false OtherCause) with
            | (Some (verdict, why), cues) => (verdict, cues, why)
            | (None, cues) => ir_cues s cues
            end
      end
  end.

(** [LivenessGate::evaluate_rgb_only], under the moiré ceiling in force. *)
Definition evaluate_rgb_only (moire_max : F32) (s : Signals) : Verdict * Cues * Why :=
  let cues frontal := MkCues true false false false false false false frontal false false OtherCause in
  match trusted_face (rgb_face s) with
  | None => (Uncertain, default_cues, NoRgbFace)
  | Some _ =>
      if negb (is_frontal s) then (Uncertain, cues false, NotFacing (head_yaw_asym s) (head_pitch_frac s))
      else if flt (rgb_face_brightness s) RGB_FACE_MIN_BRIGHTNESS then (Uncertain, cues true, RgbTooDark)
      else if fgt (rgb_face_brightness s) RGB_FACE_MAX_BRIGHTNESS then (Uncertain, cues true, RgbOverexposed)
      else if fgt (rgb_specular_frac s) RGB_SPECULAR_MAX then (Spoof, cues true, RgbGlare)
      else if fgt (rgb_moire_score s) moire_max then (Spoof, cues true, RgbMoire (rgb_moire_score s))
      else (Live, cues true, IsLive)
  end.

(** [LivenessGate::evaluate_ir_only]. *)
Definition evaluate_ir_only (s : Signals) : Verdict * Cues * Why :=
  match trusted_face (ir_face s) with
  | None => (Uncertain, MkCues false false false false false false false false false false NoIrFace, NoFaceInIr)
  | Some _ =>
      match exposure_refusal s (MkCues false true false false false false false false false false OtherCause) with
      | (Some (verdict, why), cues) => (verdict, cues, why)
      | (None, cues) => ir_cues s cues
      end
  end.

(** ** What a Live verdict rests on *)

(** The conditions both IR evaluators put on the frame. *)
Definition ir_readable (s : Signals) : bool :=
  ir_ceiling_known s
  && match ir_saturated_frac s with Some f => fle f IR_SATURATED_FRAC_MAX | None => false end
  && fge (ir_face_brightness s) IR_FACE_MIN_BRIGHTNESS
  && fge (ir_center_edge_ratio s) MIN_CENTER_EDGE_RATIO.

Lemma ir_only_live s :
  (evaluate_ir_only s).1.1 = Live <-> is_Some (trusted_face (ir_face s)) /\ ir_readable s = true.
Proof.
  unfold evaluate_ir_only, exposure_refusal, ir_cues, ir_readable.
  destruct (trusted_face (ir_face s)); [|split; [done|intros [[]%is_Some_None]]].
  destruct (ir_ceiling_known s); [|naive_solver].
  destruct (ir_saturated_frac s) as [sat|]; [|naive_solver].
  destruct (fle sat _); [|naive_solver].
  destruct (fge (ir_face_brightness s) _); [|naive_solver].
  destruct (fge (ir_center_edge_ratio s) _); naive_solver.
Qed.

Lemma pair_live s :
  (evaluate s).1.1 = Live <->
  exists rgb ir, trusted_face (rgb_face s) = Some rgb /\ trusted_face (ir_face s) = Some ir
    /\ fle (face_distance rgb ir) CROSS_SPECTRUM_TOLERANCE = true /\ is_frontal s = true /\ ir_readable s = true.
Proof.
  unfold evaluate, exposure_refusal, ir_cues, ir_readable.
  destruct (trusted_face (rgb_face s)) as [rgb|]; [|naive_solver].
  destruct (trusted_face (ir_face s)) as [ir|]; [|naive_solver].
  destruct (fle (face_distance rgb ir) _) eqn:Ed; [|naive_solver congruence].
  destruct (is_frontal s); [|naive_solver].
  destruct (ir_ceiling_known s); [|naive_solver].
  destruct (ir_saturated_frac s) as [sat|]; [|naive_solver].
  destruct (fle sat _); [|naive_solver].
  destruct (fge (ir_face_brightness s) _); [|naive_solver].
  destruct (fge (ir_center_edge_ratio s) _); naive_solver.
Qed.

(** A frame the full gate calls live, the dark gate calls live too. *)
Lemma pair_live_dark_live s : (evaluate s).1.1 = Live -> (evaluate_ir_only s).1.1 = Live.
Proof. rewrite pair_live, ir_only_live. naive_solver. Qed.

Lemma rgb_only_live moire s :
  (evaluate_rgb_only moire s).1.1 = Live ->
  is_Some (trusted_face (rgb_face s)) /\ is_frontal s = true
  /\ fgt (rgb_specular_frac s) RGB_SPECULAR_MAX = false /\ fgt (rgb_moire_score s) moire = false.
Proof.
  unfold evaluate_rgb_only. destruct (trusted_face (rgb_face s)); [|done].
  destruct (is_frontal s); [|done]. repeat case_match; naive_solver.
Qed.

(** The override can never disable the moiré cue: the ceiling in force is a
    positive number. *)
Lemma moire_max_positive parse raw :
  is_finite (rgb_moire_max parse raw) = true /\ fgt (rgb_moire_max parse raw) ZERO = true.
Proof.
  unfold rgb_moire_max, resolve_override.
  destruct raw as [raw|]; [|done]. destruct (parse (trim raw)) as [v|]; [|done].
  destruct (is_finite v) eqn:E; [|done]. destruct (fgt v ZERO) eqn:G; done.
Qed.
