(* ===== verification/Templates.v ===== *)
(** * Embeddings and enrolled templates

    [cosine] and [normalize_embedding] of [irlume-vision/src/align.rs], the
    calibration of [irlume-core/src/calib.rs] as it is applied, and the face
    data of [irlume-core/src/storage.rs] with the accessors that decide which
    templates a recognizer may compare. *)

From S2P Require Import Prelude Text Float CameraKeys.

Definition Embedding : Type := list F32.
Definition EMBED_DIM : nat := 512.

(** ** align.rs *)

(** The eight accumulators of one full chunk. *)
Fixpoint add_lanes (acc a b : list F32) : list F32 :=
  match acc, a, b with
  | x :: acc, u :: a, v :: b => add32 x (mul32 u v) :: add_lanes acc a b
  | _, _, _ => acc
  end.
Fixpoint add_chunks (chunks : nat) (acc : list F32) (a b : Embedding) : list F32 * Embedding * Embedding :=
  match chunks with
  | O => (acc, a, b)
  | S chunks => add_chunks chunks (add_lanes acc a b) (drop 8 a) (drop 8 b)
  end.

Definition cosine (a b : Embedding) : F32 :=
  if negb (bool_decide (length a = length b)) then lit32 (-1) 0
  else
    let '(acc, a, b) := add_chunks (length a / 8) (replicate 8 ZERO) a b in
    let dot := fold_left (fun dot p => add32 dot (mul32 p.1 p.2)) (zip a b) (sum32 acc) in
    fclamp (lit32 (-1) 0) (lit32 1 0) dot.

Definition normalize_embedding (values : Embedding) : option Embedding :=
  if forallb is_finite values then
    let squared_norm := fold_left (fun n v => add64 n (mul64 (to_f64 v) (to_f64 v))) values ZERO in
    if SFeqb squared_norm ZERO then None
    else let norm := sqrt64 squared_norm in Some (map (fun v => to_f32 (div64 (to_f64 v) norm)) values)
  else None.

(** ** calib.rs *)

Record IrCalibration := MkCalib { m : list (list F32); n_rows : list (list F32); lambda : F32; fitted_pairs : nat }.

Definition normalize (v : Embedding) : Embedding :=
  let n := add64 (sqrt64 (sum64 (map (fun x => mul64 (to_f64 x) (to_f64 x)) v))) (lit64 1 9) in
  map (fun x => to_f32 (div64 (to_f64 x) n)) v.

(** One row of [x·M]: [t += x_i * m_i]. *)
Definition add_row (t : list F64) (xi : F32) (mi : list F32) : list F64 :=
  if SFeqb xi ZERO then t
  else zip_with (fun tk mk => add64 tk (mul64 (to_f64 xi) (to_f64 mk))) t mi.
(** One row of [t·N]: [y += t_k * n_k]. *)
Definition add_correction (y : Embedding) (tk : F64) (row : list F32) : Embedding :=
  if SFeqb tk ZERO then y
  else zip_with (fun yi nv => to_f32 (add64 (to_f64 yi) (mul64 tk (to_f64 nv)))) y row.

(** [IrCalibration::apply]. *)
Definition apply_calib (c : IrCalibration) (x : Embedding) : option Embedding :=
  let d := length (m c) in
  let r := length (n_rows c) in
  if negb (bool_decide (length x = d)) || existsb (fun row => negb (bool_decide (length row = d))) (n_rows c) then None
  else if existsb (fun row => negb (bool_decide (length row = r))) (m c) then None
  else
    let t := fold_left (fun t p => add_row t p.1 p.2) (zip x (m c)) (replicate r ZERO) in
    Some (normalize (fold_left (fun y p => add_correction y p.1 p.2) (zip t (n_rows c)) x)).

(** ** storage.rs *)

Record FaceScan := MkScan {
  scan_name : str;
  rgb : Embedding;
  ir : option Embedding;
  ir_space : option str;
  embed_space : option str;
  scan_ratio : F32;               (** [ir_center_edge_ratio] *)
  scan_brightness : F32;          (** [ir_brightness] *)
  pitch : F32;
  captured_at : option Z;
}.

Record FaceProfile := MkProfile {
  profile_name : str;
  scans : list FaceScan;
  ir_calib : option IrCalibration;
  ir_calibs : gmap str IrCalibration;
}.

(** [Enrollment], but for the account it was written and loaded for. *)
Record Enrollment := MkEnrollment {
  user : str;
  profiles : list FaceProfile;
  require_eyes_open : bool;
  camera_binding : option PairBinding;
}.

Definition MAX_PROFILES : nat := 3.
Definition MAX_SCANS_PER_PROFILE : nat := 30.

Definition LEGACY_RECOGNIZER_SPACE : str :=
  str_codes "embed:a7933ea5330113b01c9b60351d8f4c33003f145d8470ac5f0e52ee2effe25c60".

Definition recognizer_space_matches (have : option str) (want : str) : bool :=
  match have with
  | Some have => bool_decide (have = want)
  | None => bool_decide (want = LEGACY_RECOGNIZER_SPACE)
  end.

Definition comparable (space : str) (s : FaceScan) : bool := recognizer_space_matches (embed_space s) space.

Definition scans_in (space : str) (p : FaceProfile) : nat := length (List.filter (comparable space) (scans p)).

(** An IR template whose pipeline is unknown withholds the calibration. *)
Definition untagged_ir (space : str) (s : FaceScan) : bool :=
  bool_decide (is_Some (ir s)) && bool_decide (ir_space s = None) && comparable space s.

Definition calib_for (space : str) (p : FaceProfile) : option IrCalibration :=
  if existsb (untagged_ir space) (scans p) then None
  else
    match ir_calibs p !! space with
    | Some c => Some c
    | None => if bool_decide (space = LEGACY_RECOGNIZER_SPACE) then ir_calib p else None
    end.

Definition set_calib_for (space : str) (c : option IrCalibration) (p : FaceProfile) : FaceProfile :=
  MkProfile (profile_name p) (scans p)
    (if bool_decide (space = LEGACY_RECOGNIZER_SPACE) then c else ir_calib p)
    (match c with Some c => <[space := c]> (ir_calibs p) | None => delete space (ir_calibs p) end).

Definition total_scans (e : Enrollment) : nat := sum_list (map (fun p => length (scans p)) (profiles e)).

(** The templates of an enrollment with their profile and scan names. *)
Definition rgb_scans_in (space : str) (e : Enrollment) : list (str * str * Embedding) :=
  p ← profiles e;
  map (fun s => (profile_name p, scan_name s, rgb s)) (List.filter (comparable space) (scans p)).

Definition ir_scans (e : Enrollment) : list (str * str * Embedding) :=
  p ← profiles e;
  omap (fun s => v ← ir s; Some (profile_name p, scan_name s, v)) (scans p).

Definition ir_scans_for (space : str) (dim : nat) (e : Enrollment) : list (str * str * Embedding) :=
  p ← profiles e;
  omap (fun s => v ← ir s;
          if bool_decide (length v = dim) && bool_decide (ir_space s = Some space)
          then Some (profile_name p, scan_name s, v) else None) (scans p).

Definition scan_ratios (e : Enrollment) : list F32 :=
  p ← profiles e;
  map scan_ratio (List.filter (fun s => bool_decide (is_Some (ir s)) && fgt (scan_ratio s) ZERO) (scans p)).

Definition ir_center_edge_ratio_floor (e : Enrollment) : option F32 :=
  let ratios := scan_ratios e in
  if bool_decide (length ratios < 2)%nat then None
  else Some (mul32 (fold_left fmin ratios INFINITY) (lit32 75 2)).

(** ** Which profile a captured face belongs to

    [colliding_profile], [foreign_owner_in_capture] and [enroll_merge_target]
    of [irlume-auth/src/lib.rs]. *)

Definition collide_scan (space : str) (threshold : F32) (probe : Embedding) (who : str) (best : option (str * F32))
    (s : FaceScan) : option (str * F32) :=
  if comparable space s then
    let c := cosine probe (rgb s) in
    if fge c threshold && match best with None => true | Some b => fgt c b.2 end then Some (who, c) else best
  else best.

Definition colliding_profile (e : Enrollment) (probe : Embedding) (exclude : option str) (space : str)
    (threshold : F32) : option (str * F32) :=
  fold_left (fun best p =>
    if bool_decide (Some (profile_name p) = exclude) then best
    else fold_left (collide_scan space threshold probe (profile_name p)) (scans p) best) (profiles e) None.

Definition foreign_owner_in_capture (e : Enrollment) (captured : list Embedding) (exclude space : str)
    (threshold : F32) : option (str * F32) :=
  find_map (fun rgb => colliding_profile e rgb (Some exclude) space threshold) captured.

(** [Err]: the capture matched two profiles. *)
Fixpoint merge_from (e : Enrollment) (space : str) (threshold : F32) (captured : list Embedding) (hit : option str)
    : result (str * str) (option str) :=
  match captured with
  | [] => Ok hit
  | rgb :: captured =>
      match colliding_profile e rgb None space threshold, hit with
      | None, _ => merge_from e space threshold captured hit
      | Some (other, _), Some first =>
          if bool_decide (first = other) then merge_from e space threshold captured hit else Err (first, other)
      | Some (other, _), None => merge_from e space threshold captured (Some other)
      end
  end.
Definition enroll_merge_target (e : Enrollment) (captured : list Embedding) (space : str) (threshold : F32)
    : result (str * str) (option str) := merge_from e space threshold captured None.

Definition scan_room_in (p : FaceProfile) (space : str) : nat := (MAX_SCANS_PER_PROFILE - scans_in space p)%nat.
