(* ===== verification/IdentityArms.v ===== *)
(** * The identity arms

    [irlume-auth/src/identity_arms.rs], [scaled_threshold] of
    [irlume-core/src/lib.rs] and [irlume-core/src/fusion.rs]: how match scores
    become a grant.  [log2] and [exp] are the platform's: the standard library
    leaves their precision open. *)

From S2P Require Import Prelude Text Float Templates.

Class Libm := { log2 : F32 -> F32; exp : F32 -> F32 }.

Definition RGB_MATCH_THRESHOLD : F32 := lit32 55 2.
Definition IR_MATCH_THRESHOLD : F32 := lit32 55 2.
Definition IR_DARK_MATCH_THRESHOLD : F32 := lit32 635 3.
Definition IR_ADAPTED_MATCH_THRESHOLD : F32 := lit32 40 2.
Definition IR_FALLBACK_MARGIN : F32 := lit32 5 2.
Definition TEMPLATE_SCALE_STEP : F32 := lit32 15 3.
Definition TEMPLATE_SCALE_MAX_BUMP : F32 := lit32 10 2.

Definition scaled_threshold `{Libm} (base : F32) (n_templates : nat) : F32 :=
  if bool_decide (n_templates <= 1)%nat then base
  else
    let bump := fmin (mul32 TEMPLATE_SCALE_STEP (log2 (f32_of_Z (Z.of_nat n_templates)))) TEMPLATE_SCALE_MAX_BUMP in
    add32 base bump.

(** ** fusion.rs *)

Definition RGB_PLATT_A : F32 := lit32 244708 4.
Definition RGB_PLATT_B : F32 := lit32 (-81873) 4.
Definition IR_PLATT_A : F32 := lit32 400120 4.
Definition IR_PLATT_B : F32 := lit32 (-162221) 4.
Definition FUSION_PROB_THRESHOLD : F32 := lit32 50 2.
Definition FUSION_MIN_PER_MODALITY_PROB : F32 := lit32 10 2.
Definition RGB_QUALITY_LO : F32 := lit32 60 0.
Definition RGB_QUALITY_HI : F32 := lit32 130 0.
Definition IR_QUALITY_LO : F32 := lit32 35 0.
Definition IR_QUALITY_HI : F32 := lit32 110 0.
Definition QUALITY_FLOOR : F32 := lit32 2 1.

Definition sigmoid `{Libm} (x : F32) : F32 := div32 (lit32 1 0) (add32 (lit32 1 0) (exp (SFopp x))).
Definition rgb_genuine_prob `{Libm} (cos : F32) : F32 := sigmoid (add32 (mul32 RGB_PLATT_A cos) RGB_PLATT_B).
Definition ir_genuine_prob `{Libm} (cos : F32) : F32 := sigmoid (add32 (mul32 IR_PLATT_A cos) IR_PLATT_B).

Definition ramp (x lo hi floor : F32) : F32 :=
  let t := fclamp ZERO (lit32 1 0) (div32 (sub32 x lo) (sub32 hi lo)) in
  add32 floor (mul32 (sub32 (lit32 1 0) floor) t).
Definition rgb_quality_weight (face_brightness : F32) : F32 :=
  ramp face_brightness RGB_QUALITY_LO RGB_QUALITY_HI QUALITY_FLOOR.
Definition ir_quality_weight (ir_present : bool) (ir_brightness : F32) : F32 :=
  if negb ir_present then ZERO else ramp ir_brightness IR_QUALITY_LO IR_QUALITY_HI QUALITY_FLOOR.

Record Fusion := MkFusion { prob : F32; p_rgb : F32; p_ir : F32; fusion_grant : bool }.

Definition fuse (p_rgb w_rgb p_ir w_ir : F32) : Fusion :=
  let wsum := fmax (add32 w_rgb w_ir) (lit32 1 6) in
  let prob := div32 (add32 (mul32 w_rgb p_rgb) (mul32 w_ir p_ir)) wsum in
  MkFusion prob p_rgb p_ir
    (fge prob FUSION_PROB_THRESHOLD && fge p_rgb FUSION_MIN_PER_MODALITY_PROB
     && fge p_ir FUSION_MIN_PER_MODALITY_PROB && fgt w_ir ZERO).

(** ** Thresholds *)

Inductive ThresholdArm :=
| RgbArm (base : F32) | LitFallback (adapter : bool) | LitCentroid (adapter : bool)
| DarkBest (adapter : bool) | DarkCentroid (adapter : bool).

Definition arm_threshold `{Libm} (arm : ThresholdArm) (count : nat) : F32 :=
  match arm with
  | RgbArm base => scaled_threshold base count
  | LitFallback adapter | LitCentroid adapter =>
      add32 (scaled_threshold (if adapter then IR_ADAPTED_MATCH_THRESHOLD else IR_MATCH_THRESHOLD) count)
        IR_FALLBACK_MARGIN
  | DarkBest adapter | DarkCentroid adapter =>
      scaled_threshold (if adapter then IR_ADAPTED_MATCH_THRESHOLD else IR_DARK_MATCH_THRESHOLD) count
  end.

(** ** Matching *)

Record IrMatch := MkIrMatch { best : F32; best_who : str; n_templates : nat; centroid : option (F32 * str) }.

(** The IR template of a scan this pipeline may compare with a probe of width [dim]. *)
Definition ir_template (space embed : str) (adapter : bool) (dim : nat) (s : FaceScan) : option Embedding :=
  if negb (comparable embed s) then None
  else
    v ← ir s;
    if negb (bool_decide (length v = dim)) then None
    else if negb (bool_decide (ir_space s = Some space)) then None
    else if adapter then normalize_embedding v else Some v.

(** [if s > m.best { .. }]. *)
Definition offer (who : str) (b : F32 * str) (s : F32) : F32 * str := if fgt s b.1 then (s, who) else b.
Definition offer_centroid (who : str) (b : option (F32 * str)) (s : F32) : option (F32 * str) :=
  match b with Some (x, _) => if fgt s x then Some (s, who) else b | None => Some (s, who) end.

(** [for (a, b) in acc.iter_mut().zip(v)]. *)
Fixpoint add_into (acc v : list F32) : list F32 :=
  match acc, v with
  | a :: acc, b :: v => add32 a b :: add_into acc v
  | _, _ => acc
  end.

(** The centroid of the calibrated templates, scaled to unit length. *)
Definition centroid_of (dim : nat) (templates : list Embedding) : Embedding :=
  let sum := fold_left add_into templates (replicate dim ZERO) in
  let norm := add32 (sqrt32 (sum32 (map (fun v => mul32 v v) sum))) (lit32 1 9) in
  map (fun v => div32 v norm) sum.

(** The scores of one profile: those its best match is taken from, and that
    of its centroid. *)
Definition profile_scores (embed : str) (adapter : bool) (p : FaceProfile) (probe : Embedding) (tmpls : list Embedding)
    : list F32 * option F32 :=
  let calib := if adapter then None else calib_for embed p in
  match calib, (c ← calib; apply_calib c probe) with
  | Some c, Some cprobe =>
      let cts := omap (apply_calib c) tmpls in
      (map (cosine cprobe) cts,
       if bool_decide (0 < length cts)%nat then Some (cosine cprobe (centroid_of (length probe) cts)) else None)
  | _, _ => (map (cosine probe) tmpls, None)
  end.

(** One turn of the loop over the profiles. *)
Definition match_profile (space embed : str) (adapter : bool) (dim : nat) (scoring_probe : option Embedding)
    (m : IrMatch) (p : FaceProfile) : IrMatch :=
  let tmpls := omap (ir_template space embed adapter dim) (scans p) in
  if bool_decide (length tmpls = 0)%nat then m
  else
    let n := (n_templates m + length tmpls)%nat in
    match scoring_probe with
    | None => MkIrMatch (best m) (best_who m) n (centroid m)
    | Some probe =>
        let '(scores, cs) := profile_scores embed adapter p probe tmpls in
        let b := fold_left (offer (profile_name p)) scores (best m, best_who m) in
        MkIrMatch b.1 b.2 n
          (match cs with Some cs => offer_centroid (profile_name p) (centroid m) cs | None => centroid m end)
    end.

Definition ir_match_in (space embed : str) (adapter : bool) (e : Enrollment) (probe : Embedding) : IrMatch :=
  let scoring_probe := if adapter then normalize_embedding probe else Some probe in
  fold_left (match_profile space embed adapter (length probe) scoring_probe) (profiles e)
    (MkIrMatch NEG_INFINITY [] 0 None).

Definition best_rgb (probe : Embedding) (scans : list (str * str * Embedding)) : F32 * str :=
  fold_left (fun b s => offer s.1.1 b (cosine probe s.2)) scans (NEG_INFINITY, []).

(** ** The dark arms *)

Record IdentityThresholds := MkThresholds { t_best : F32; t_centroid : F32 }.
Definition identity_thresholds `{Libm} (templates profiles : nat) (adapter : bool) : IdentityThresholds :=
  MkThresholds (arm_threshold (DarkBest adapter) templates) (arm_threshold (DarkCentroid adapter) profiles).

Definition dark_arms (t : IdentityThresholds) (m : IrMatch) : bool * bool :=
  if bool_decide (n_templates m = 0)%nat then (false, false)
  else
    (is_finite (best m) && fge (best m) (t_best t),
     match centroid m with Some (s, _) => is_finite s && fge s (t_centroid t) | None => false end).

Inductive DarkGrant := GrantBest (score : F32) (who : str) | GrantCentroid (score : F32) (who : str).
Record DarkVerdict := MkDark { thresholds : IdentityThresholds; d_best : bool; d_centroid : bool; d_grant : option DarkGrant }.

Definition dark_verdict `{Libm} (m : IrMatch) (profiles : nat) (adapter : bool) : DarkVerdict :=
  let t := identity_thresholds (n_templates m) profiles adapter in
  let '(b, c) := dark_arms t m in
  MkDark t b c
    (if b then Some (GrantBest (best m) (best_who m))
     else if c then match centroid m with Some (s, who) => Some (GrantCentroid s who) | None => None end
     else None).

(** ** The lit arms *)

Definition rgb_primary_grant_admissible (score threshold : F32) (sequential_pair : bool) : bool :=
  fge score threshold && negb sequential_pair.

Definition rgb_arm `{Libm} (score base : F32) (templates : nat) (sequential : bool) : F32 * bool :=
  let threshold := arm_threshold (RgbArm base) templates in
  (threshold, rgb_primary_grant_admissible score threshold sequential).

Inductive IrArm := ArmFusion | ArmFallback | ArmCentroid.
Record IrArms := MkArms {
  fusion : Fusion; fallback_threshold : F32; centroid_threshold : option F32; arm_grant : option IrArm }.

Definition lit_ir_arms `{Libm} (rgb_score rgb_brightness : F32) (m : IrMatch) (ir_brightness : F32)
    (sequential adapter : bool) (profiles : nat) : IrArms :=
  let ir_score := best m in
  let fusion := fuse (rgb_genuine_prob rgb_score) (rgb_quality_weight rgb_brightness)
                  (ir_genuine_prob ir_score) (ir_quality_weight true ir_brightness) in
  let fallback := arm_threshold (LitFallback adapter) (n_templates m) in
  let cthr := match centroid m with Some _ => Some (arm_threshold (LitCentroid adapter) profiles) | None => None end in
  MkArms fusion fallback cthr
    (if fusion_grant fusion && negb sequential then Some ArmFusion
     else if fge ir_score fallback then Some ArmFallback
     else match centroid m, cthr with
          | Some (s, _), Some t => if fge s t then Some ArmCentroid else None
          | _, _ => None
          end).

Record DecisionContext := MkContext { dc_embed_space : str; dc_ir_space : str; dc_adapter : bool; dc_rgb_base : F32 }.
Record LitProbe := MkProbe {
  lp_rgb : Embedding; lp_ir : option Embedding; lp_rgb_brightness : F32; lp_ir_brightness : F32; lp_sequential : bool }.
Record RgbDecision := MkRgb {
  r_score : F32; r_who : str; r_templates : nat; r_threshold : F32; r_grants : bool; r_deferred : bool }.
Record LitIrDecision := MkLitIr { matched : IrMatch; arms : IrArms; fusion_deferred : bool }.
Record LitVerdict := MkLit { v_rgb : RgbDecision; v_ir : option LitIrDecision }.

Inductive LitGrant :=
| LitRgb (score : F32) (who : str) | LitFusion (score : F32) (who : str)
| LitFallbackGrant (score : F32) (who : str) | LitCentroidGrant (score : F32) (who : str).

(** [LitVerdict::grant]. *)
Definition lit_grant (v : LitVerdict) : option LitGrant :=
  if r_grants (v_rgb v) then Some (LitRgb (r_score (v_rgb v)) (r_who (v_rgb v)))
  else
    ir ← v_ir v;
    arm ← arm_grant (arms ir);
    match arm with
    | ArmFusion =>
        Some (LitFusion (prob (fusion (arms ir)))
                (if fge (best (matched ir)) (r_score (v_rgb v)) then best_who (matched ir) else r_who (v_rgb v)))
    | ArmFallback => Some (LitFallbackGrant (best (matched ir)) (best_who (matched ir)))
    | ArmCentroid => c ← centroid (matched ir); Some (LitCentroidGrant c.1 c.2)
    end.

Definition lit_verdict `{Libm} (x : DecisionContext) (e : Enrollment) (probe : LitProbe) : LitVerdict :=
  let scans := rgb_scans_in (dc_embed_space x) e in
  let '(score, who) := best_rgb (lp_rgb probe) scans in
  let '(threshold, grants) := rgb_arm score (dc_rgb_base x) (length scans) (lp_sequential probe) in
  let rgb := MkRgb score who (length scans) threshold grants (lp_sequential probe && fge score threshold) in
  if grants then MkLit rgb None
  else
    MkLit rgb
      (ir_probe ← lp_ir probe;
       let matched := ir_match_in (dc_ir_space x) (dc_embed_space x) (dc_adapter x) e ir_probe in
       if bool_decide (n_templates matched = 0)%nat then None
       else
         let arms := lit_ir_arms score (lp_rgb_brightness probe) matched (lp_ir_brightness probe) (lp_sequential probe)
                       (dc_adapter x) (length (profiles e)) in
         Some (MkLitIr matched arms (fusion_grant (fusion arms) && lp_sequential probe))).
