(* ===== verification/EngineDecision.v ===== *)
(** * From one assessment to an outcome

    The decision part of [irlume-auth/src/lib.rs]: the outcome and its kind,
    the PAD evidence and votes, the refusals at the grant boundary and
    [authenticate_qualified_assessment]; the same of
    [irlume-auth/src/ir_assessment.rs] and [split_runtime.rs].  What the
    cameras and the models measured is an [Assessment]; what the stores and
    the machine say at the boundary is a [Boundary].  Trace events and journal
    lines are left out, and a reason is a constructor with the numbers its
    text prints. *)

From S2P Require Import Prelude Text Float CameraKeys Liveness Templates IdentityArms.
From S2P Require Protocol RetryThrottle CommitJournal.

Abbreviation OutcomeKind := RetryThrottle.OutcomeKind.
Abbreviation OutcomeCause := Protocol.Cause.t.

(** ** Texts *)

(** The reason an assessment carries: the gate's, or that of what replaced its verdict. *)
Inductive AssessReason :=
| GateSays (why : Why)
| StalePair (skew limit : Z)
| RgbPadFlags | IrPadFlags.

Inductive PadModality := PadRgb | PadIr.
Inductive PadProblem := PadCollecting | PadAbsent | PadBroken | PadNotRun.

Inductive IrFailure :=
| FailNoFace | FailLiveness | FailPadUnavailable | FailPadInvalid | FailPadRefused | FailIncompatible
| FailInvalidFrame | FailInference | FailCameraBusy | FailRate | FailLeaseTimeout | FailLeaseRefused | FailIo | FailHardware
| FailShutter | FailAuthorization | FailPolicy | FailCapture | FailCancelled | FailDeadline.

Inductive Reason :=
| EnrollmentChanged | EnrollmentRemoved | EnrollmentUnreadable
| SecondaryRefused (clause : CommitJournal.RefuseReason) | SecondaryUnreadable
| SplitAuthority | SplitSides | SplitScope | SplitBinding | SplitEvidence
| LivenessSays (v : Verdict) (why : AssessReason)
| PadSays (m : PadModality) (p : PadProblem)
| BelowFloor (live floor : F32)
| MatchRgb (who : str)
| MatchFusion (who : str) (p rgb ir : F32)
| MatchFallback (who : str) (rgb thr : F32)
| MatchCentroid (who : str) (rgb thr : F32)
| NeedsIrMatch (rgb : F32) | BelowLit (rgb : F32)
| RoomIsLit | NoIrScans | NoCompatibleIr
| DarkLiveness (v : Verdict) (why : Why)
| DarkPad
| MatchDark (who : str) | MatchDarkCentroid (who : str)
| BelowDark
| NoFaceSays (why : AssessReason) | NoFaceDetected
| WindowExpired
| MatchIrOnly (who : str) | MatchIrOnlyCentroid (who : str) | BelowIrOnly
| IrOnlyRefused (f : IrFailure).

(** ** Outcomes *)

Record Outcome := MkOutcome {
  granted : bool;
  live : bool;
  o_score : F32;
  reason : Reason;
  kind : OutcomeKind;
  cause : option OutcomeCause;
}.

(** [OutcomeKind::default_cause]. *)
Definition default_cause (k : OutcomeKind) : option OutcomeCause :=
  match k with
  | RetryThrottle.Granted => None
  | RetryThrottle.NoFace => Some Protocol.Cause.NoFace
  | RetryThrottle.Uncertain | RetryThrottle.RgbPadPending | RetryThrottle.SpoofNoIrFace | RetryThrottle.Spoof =>
      Some Protocol.Cause.LivenessRefused
  | RetryThrottle.BelowThreshold => Some Protocol.Cause.BelowThreshold
  | RetryThrottle.SetupUnavailable => Some Protocol.Cause.SetupUnavailable
  | RetryThrottle.DeadlineExpired => Some Protocol.Cause.TimedOut
  | RetryThrottle.RuntimeUnavailable | RetryThrottle.OtherDeny => Some Protocol.Cause.Other
  end.

Definition deny (k : OutcomeKind) (r : Reason) : Outcome := MkOutcome false false ZERO r k (default_cause k).
Definition deny_because (k : OutcomeKind) (c : OutcomeCause) (r : Reason) : Outcome :=
  MkOutcome false false ZERO r k (Some c).
Definition deny_live (k : OutcomeKind) (score : F32) (r : Reason) : Outcome :=
  MkOutcome false true score r k (default_cause k).
Definition grant (score : F32) (r : Reason) : Outcome := MkOutcome true true score r RetryThrottle.Granted None.

Definition presence_retryable (o : Outcome) : bool :=
  match kind o with
  | RetryThrottle.NoFace | RetryThrottle.Uncertain | RetryThrottle.RgbPadPending | RetryThrottle.SpoofNoIrFace => true
  | _ => false
  end.

Definition liveness_deny_kind (v : Verdict) (c : DenyCause) : OutcomeKind :=
  match v, c with
  | Uncertain, ExposureUnmeasurable => RetryThrottle.RuntimeUnavailable
  | Uncertain, _ => RetryThrottle.Uncertain
  | Spoof, NoIrFace => RetryThrottle.SpoofNoIrFace
  | Spoof, _ => RetryThrottle.Spoof
  | Live, _ => RetryThrottle.OtherDeny
  end.

(** ** PAD evidence *)

Inductive PadEvidence := NotApplicable | Unavailable | InferenceFailed | Pending | Score (p : F32).

Definition VIT_PAD_THRESHOLD : F32 := lit32 55 2.
Definition VIT_PAD_VOTE_N : nat := 5.
Definition IR_PAD_THRESHOLD : F32 := lit32 9 1.

Inductive PadRequirements := RgbOnly | RgbAndIr | IrOnly.

Definition pad_evidence_refusal (m : PadModality) (e : PadEvidence) : option Outcome :=
  match e with
  | Pending =>
      Some (deny (match m with PadRgb => RetryThrottle.RgbPadPending | PadIr => RetryThrottle.Uncertain end)
              (PadSays m PadCollecting))
  | Unavailable => Some (deny RetryThrottle.RuntimeUnavailable (PadSays m PadAbsent))
  | InferenceFailed => Some (deny RetryThrottle.RuntimeUnavailable (PadSays m PadBroken))
  | NotApplicable => Some (deny RetryThrottle.RuntimeUnavailable (PadSays m PadNotRun))
  | Score _ => None
  end.

(** [Option::or_else]. *)
Definition or_else {A} (a b : option A) : option A := match a with Some _ => a | None => b end.

Definition pad_policy_refusal (req : PadRequirements) (rgb ir : PadEvidence) : option Outcome :=
  match req with
  | RgbOnly => pad_evidence_refusal PadRgb rgb
  | RgbAndIr =>
      match rgb with
      | Pending => or_else (pad_evidence_refusal PadIr ir) (pad_evidence_refusal PadRgb rgb)
      | _ => or_else (pad_evidence_refusal PadRgb rgb) (pad_evidence_refusal PadIr ir)
      end
  | IrOnly => pad_evidence_refusal PadIr ir
  end.

Definition pad_downgrades (v : Verdict) (p_fake : option F32) (threshold : F32) : bool :=
  bool_decide (v = Live) && match p_fake with Some p => fge p threshold | None => false end.

Definition settle_ir_pad (x : Verdict * AssessReason * DenyCause) (shipped_ir_fake : option F32)
    : Verdict * AssessReason * DenyCause :=
  if pad_downgrades x.1.1 shipped_ir_fake IR_PAD_THRESHOLD then (Spoof, IrPadFlags, OtherCause) else x.

(** [sort_by] with [partial_cmp]: stable, by insertion. *)
Fixpoint insert_score (x : F32) (l : list F32) : list F32 :=
  match l with
  | [] => [x]
  | y :: l => if flt y x then y :: insert_score x l else x :: y :: l
  end.
Definition sort_scores (l : list F32) : list F32 := foldr insert_score [] l.

Definition vit_vote_denies (scores : list F32) : bool :=
  let window := drop (length scores - VIT_PAD_VOTE_N) scores in
  if bool_decide (length window < VIT_PAD_VOTE_N)%nat then false
  else match sort_scores window !! (VIT_PAD_VOTE_N / 2)%nat with
       | Some median => fge median VIT_PAD_THRESHOLD
       | None => false
       end.

(** [Engine::vit_pad_votes_deny], on the ring of this request. *)
Definition vit_pad_votes_deny (ring : list F32) (score : F32) : bool * list F32 :=
  if negb (is_finite score) then (false, ring)
  else let ring := ring ++ [score] in (vit_vote_denies ring, ring).

Definition settle_rgb_pad (ring : list F32) (x : Verdict * AssessReason * DenyCause) (e : PadEvidence)
    : (Verdict * AssessReason * DenyCause) * list F32 :=
  match e with
  | Score p =>
      let '(denies, ring) := vit_pad_votes_deny ring p in
      (if denies then (Spoof, RgbPadFlags, OtherCause) else x, ring)
  | _ => (x, ring)
  end.

(** ** The assessment *)

(** [ir_ambient_share], which only diagnostics read, is left out. *)
Record Assessment := MkAssessment {
  verdict : Verdict;
  a_reason : AssessReason;
  a_cause : DenyCause;
  embedding : option Embedding;
  ir_embedding : option Embedding;
  signals : Signals;
  a_ratio : F32;                   (** [ir_center_edge_ratio] *)
  a_ir_brightness : F32;
  rgb_frame_mean : F32;
  shipped_ir_fake : option F32;
  rgb_pad : PadEvidence;
  ir_pad : PadEvidence;
  sequential_pair : bool;
  split_pair : bool;
}.

Definition sequential_posture (a : Assessment) : bool := sequential_pair a || split_pair a.

Definition set_rgb_pad (e : PadEvidence) (a : Assessment) : Assessment :=
  MkAssessment (verdict a) (a_reason a) (a_cause a) (embedding a) (ir_embedding a) (signals a) (a_ratio a)
    (a_ir_brightness a) (rgb_frame_mean a) (shipped_ir_fake a) e (ir_pad a) (sequential_pair a) (split_pair a).

(** [qualify_rgb_pad_evidence]. *)
Definition qualify_rgb_pad_evidence (ring : list F32) (a : Assessment) : Assessment * list F32 :=
  match rgb_pad a with
  | Score p =>
      if is_finite p && bool_decide (verdict a = Live) then
        (if bool_decide (length ring < VIT_PAD_VOTE_N)%nat then set_rgb_pad Pending a else a, ring)
      else (if is_finite p then a else set_rgb_pad InferenceFailed a, [])
  | _ => (a, [])
  end.

Definition CONCLUSIVE_SCENE_BRIGHTNESS : F32 := lit32 100 0.
Definition scene_conclusively_lit (rgb_frame_mean : F32) : bool := fge rgb_frame_mean CONCLUSIVE_SCENE_BRIGHTNESS.

Definition uncertain_short_circuits (v : Verdict) (has_rgb has_ir : bool) : bool :=
  bool_decide (v = Uncertain) && negb (has_ir && negb has_rgb).

(** ** The grant boundary *)

(** What reading a file says now. *)
Inductive FileRead := ReadBytes (b : list byte) | ReadMissing | ReadFailed.

(** [IrOnlyScope], with what its boundary finds: the pinned digest and the
    primary file, or the serialized check of the secondary store. *)
Inductive AttemptScope :=
| ScopePrimary (digest : str) (now : FileRead)
| ScopeSecondary (now : option CommitJournal.GrantDecision).

(** The installed split of a request: its key, whether its late authority
    still holds, and whether both original sides are the engine's. *)
Record InstalledSplit := MkInstalled { split_key : SplitPairKey; authority_holds : bool; sides_match : bool; ir_forced_off : bool }.

Record Boundary := MkBoundary {
  primary_attempt : option AttemptScope;
  secondary_attempt : option (option CommitJournal.GrantDecision);
  installed_split : option InstalledSplit;
}.

(** The engine's fixed configuration. *)
Record Setup := MkSetup { su_context : DecisionContext; ir_available : bool }.

Section Decision.
Context (sha256_hex : list byte -> str).

Definition secondary_refusal (now : option CommitJournal.GrantDecision) : option Outcome :=
  match now with
  | Some CommitJournal.Grant => None
  | Some (CommitJournal.Refuse clause) =>
      Some (deny_because RetryThrottle.OtherDeny Protocol.Cause.SetupUnavailable (SecondaryRefused clause))
  | None => Some (deny RetryThrottle.SetupUnavailable SecondaryUnreadable)
  end.

(** [IrOnlyScope::boundary_refusal]. *)
Definition boundary_refusal (s : AttemptScope) : option Outcome :=
  match s with
  | ScopePrimary digest (ReadBytes b) =>
      if bool_decide (sha256_hex b = digest) then None
      else Some (deny_because RetryThrottle.OtherDeny Protocol.Cause.SetupUnavailable EnrollmentChanged)
  | ScopePrimary _ ReadMissing =>
      Some (deny_because RetryThrottle.OtherDeny Protocol.Cause.SetupUnavailable EnrollmentRemoved)
  | ScopePrimary _ ReadFailed => Some (deny RetryThrottle.SetupUnavailable EnrollmentUnreadable)
  | ScopeSecondary now => secondary_refusal now
  end.

Definition split_evidence_refusal (bd : Boundary) (a : Assessment) : option Outcome :=
  match installed_split bd with
  | None => None
  | Some _ =>
      if split_pair a then None
      else Some (deny_because RetryThrottle.OtherDeny Protocol.Cause.SetupUnavailable SplitEvidence)
  end.

Definition split_grant_refusal (su : Setup) (bd : Boundary) (e : Enrollment) (a : Assessment) : option Outcome :=
  match installed_split bd with
  | None => None
  | Some s =>
      if negb (authority_holds s) then
        Some (deny_because RetryThrottle.OtherDeny Protocol.Cause.SetupUnavailable SplitAuthority)
      else if ir_forced_off s || negb (ir_available su) || negb (sides_match s) then
        Some (deny_because RetryThrottle.OtherDeny Protocol.Cause.CameraUnavailable SplitSides)
      else if bool_decide (primary_attempt bd = None) && bool_decide (secondary_attempt bd = None) then
        Some (deny_because RetryThrottle.OtherDeny Protocol.Cause.SetupUnavailable SplitScope)
      else if negb (bool_decide ((camera_binding e ≫= complete_key) = Some (CSplit (split_key s)))) then
        Some (deny_because RetryThrottle.OtherDeny Protocol.Cause.NotEnrolledOnThisCamera SplitBinding)
      else if negb (split_pair a) then
        Some (deny_because RetryThrottle.OtherDeny Protocol.Cause.SetupUnavailable SplitEvidence)
      else None
  end.

(** The per-user floor, where an IR camera is in use. *)
Definition below_floor (su : Setup) (e : Enrollment) (a : Assessment) : option Outcome :=
  match ir_center_edge_ratio_floor e with
  | Some floor =>
      if ir_available su && flt (a_ratio a) floor then Some (deny RetryThrottle.Spoof (BelowFloor (a_ratio a) floor)) else None
  | None => None
  end.

(** ** The arms *)

(** The visible path, for a face with an RGB embedding. *)
Definition decide_lit `{Libm} (su : Setup) (e : Enrollment) (a : Assessment) (probe : Embedding) : Outcome :=
  if negb (bool_decide (verdict a = Live)) then
    deny (liveness_deny_kind (verdict a) (a_cause a)) (LivenessSays (verdict a) (a_reason a))
  else
    match pad_policy_refusal (if ir_available su then RgbAndIr else RgbOnly) (rgb_pad a) (ir_pad a) with
    | Some refusal => refusal
    | None =>
        match below_floor su e a with
        | Some refusal => refusal
        | None =>
            let v := lit_verdict (su_context su) e
              (MkProbe probe (ir_embedding a) (rgb_face_brightness (signals a)) (a_ir_brightness a) (sequential_posture a)) in
            let rgb := r_score (v_rgb v) in
            let thr := r_threshold (v_rgb v) in
            match lit_grant v with
            | Some (LitRgb score who) => grant score (MatchRgb who)
            | Some (LitFusion score who) =>
                grant score (MatchFusion who score rgb (match v_ir v with Some x => best (matched x) | None => NEG_INFINITY end))
            | Some (LitFallbackGrant score who) => grant score (MatchFallback who rgb thr)
            | Some (LitCentroidGrant score who) => grant score (MatchCentroid who rgb thr)
            | None =>
                deny_live RetryThrottle.BelowThreshold rgb
                  (if r_deferred (v_rgb v) then NeedsIrMatch rgb else BelowLit rgb)
            end
        end
    end.

(** The dark path, for a face only the IR camera sees. *)
Definition decide_dark `{Libm} (su : Setup) (e : Enrollment) (a : Assessment) (probe : Embedding) : Outcome :=
  if scene_conclusively_lit (rgb_frame_mean a) then deny RetryThrottle.Uncertain RoomIsLit
  else
    let x := su_context su in
    let m := ir_match_in (dc_ir_space x) (dc_embed_space x) (dc_adapter x) e probe in
    if bool_decide (n_templates m = 0)%nat then
      deny_because RetryThrottle.OtherDeny Protocol.Cause.SetupUnavailable
        (if bool_decide (length (ir_scans e) = 0)%nat then NoIrScans else NoCompatibleIr)
    else
      let '(v, cues, why) := evaluate_ir_only (signals a) in
      if negb (bool_decide (v = Live)) then
        deny (liveness_deny_kind v (deny_cause cues)) (DarkLiveness v why)
      else
        match pad_policy_refusal IrOnly (rgb_pad a) (ir_pad a) with
        | Some refusal => refusal
        | None =>
            match below_floor su e a with
            | Some refusal => refusal
            | None =>
                if pad_downgrades v (shipped_ir_fake a) IR_PAD_THRESHOLD then deny RetryThrottle.Spoof DarkPad
                else
                  match d_grant (dark_verdict m (length (profiles e)) (dc_adapter x)) with
                  | Some (GrantBest score who) => grant score (MatchDark who)
                  | Some (GrantCentroid score who) => grant score (MatchDarkCentroid who)
                  | None => deny_live RetryThrottle.BelowThreshold (best m) BelowDark
                  end
            end
        end.

(** [authenticate_qualified_assessment]. *)
Definition authenticate_qualified_assessment `{Libm} (su : Setup) (bd : Boundary) (e : Enrollment) (a : Assessment) : Outcome :=
  match or_else (primary_attempt bd ≫= boundary_refusal)
          (or_else (secondary_attempt bd ≫= secondary_refusal) (split_grant_refusal su bd e a)) with
  | Some refusal => refusal
  | None =>
      if uncertain_short_circuits (verdict a) (bool_decide (is_Some (embedding a))) (bool_decide (is_Some (ir_embedding a)))
      then deny (liveness_deny_kind (verdict a) (a_cause a)) (LivenessSays (verdict a) (a_reason a))
      else
        match embedding a, ir_embedding a with
        | Some probe, _ => decide_lit su e a probe
        | None, Some probe => decide_dark su e a probe
        | None, None => deny RetryThrottle.NoFace (NoFaceSays (a_reason a))
        end
  end.

(** [authenticate_assessment]: the vote of the request is settled first. *)
Definition authenticate_assessment `{Libm} (su : Setup) (bd : Boundary) (e : Enrollment) (ring : list F32) (a : Assessment)
    : Outcome * list F32 :=
  let '(a, ring) := qualify_rgb_pad_evidence ring a in
  (authenticate_qualified_assessment su bd e a, ring).

(** ** The experimental IR-only route *)

(** [gate_policy]; the PAD answer is [None] when no model ran and [Some None]
    when it failed. *)
Definition gate_policy (s : Signals) (pad : option (option F32)) (e : Enrollment) : result IrFailure () :=
  match ir_face s with
  | None => Err FailNoFace
  | Some face =>
      if negb (is_finite (score face)) || negb (within ZERO (lit32 1 0) (score face))
         || negb (is_finite (ir_face_brightness s)) || negb (within ZERO (lit32 255 0) (ir_face_brightness s))
         || negb (is_finite (ir_center_edge_ratio s)) || negb (is_finite (ir_ambient s))
         || match ir_saturated_frac s with
            | Some v => negb (is_finite v) || negb (within ZERO (lit32 1 0) v)
            | None => false
            end
      then Err FailInvalidFrame
      else if negb (bool_decide ((evaluate_ir_only s).1.1 = Live)) then Err FailLiveness
      else
        _ ← match pad with
            | None => Err FailPadUnavailable
            | Some (Some p) =>
                if is_finite p && within ZERO (lit32 1 0) p then
                  if fge p IR_PAD_THRESHOLD then Err FailPadRefused else Ok ()
                else Err FailPadInvalid
            | Some None => Err FailPadInvalid
            end;
        match ir_center_edge_ratio_floor e with
        | Some floor => if negb (is_finite floor) || flt (ir_center_edge_ratio s) floor then Err FailLiveness else Ok ()
        | None => Ok ()
        end
  end.

(** [error_failure]. *)
Definition error_failure (e : Protocol.Error.t) : IrFailure :=
  match e with
  | Protocol.Error.Preempted _ => FailCancelled
  | Protocol.Error.DeadlineExpired => FailDeadline
  | Protocol.Error.CameraBusy _ => FailCameraBusy
  | Protocol.Error.DeliveredRate => FailRate
  | Protocol.Error.Io _ => FailIo
  | Protocol.Error.Hardware _ | Protocol.Error.CameraUnavailable _ | Protocol.Error.IrIlluminationUnreported _ => FailHardware
  | Protocol.Error.PrivacyShutter _ => FailShutter
  | Protocol.Error.Enrollment _ => FailIncompatible
  | Protocol.Error.NotAuthorized _ => FailAuthorization
  | Protocol.Error.Policy _ => FailPolicy
  | Protocol.Error.Protocol _ | Protocol.Error.Tpm _ => FailCapture
  end.

Definition refusal_outcome (f : IrFailure) : Outcome :=
  let '(k, c) :=
    match f with
    | FailNoFace => (RetryThrottle.NoFace, Protocol.Cause.NoFace)
    | FailPadRefused => (RetryThrottle.Spoof, Protocol.Cause.LivenessRefused)
    | FailLiveness => (RetryThrottle.OtherDeny, Protocol.Cause.LivenessRefused)
    | FailIncompatible => (RetryThrottle.SetupUnavailable, Protocol.Cause.SetupUnavailable)
    | FailPadUnavailable | FailPadInvalid => (RetryThrottle.RuntimeUnavailable, Protocol.Cause.Other)
    | FailDeadline => (RetryThrottle.DeadlineExpired, Protocol.Cause.TimedOut)
    | FailCancelled => (RetryThrottle.RuntimeUnavailable, Protocol.Cause.Cancelled)
    | FailCameraBusy | FailRate | FailLeaseTimeout | FailLeaseRefused | FailIo | FailHardware | FailCapture =>
        (RetryThrottle.RuntimeUnavailable, Protocol.Cause.CameraUnavailable)
    | FailShutter => (RetryThrottle.RuntimeUnavailable, Protocol.Cause.PrivacyShutter)
    | FailAuthorization | FailPolicy => (RetryThrottle.RuntimeUnavailable, Protocol.Cause.Policy)
    | FailInvalidFrame | FailInference => (RetryThrottle.RuntimeUnavailable, Protocol.Cause.Other)
    end in
  deny_because k c (IrOnlyRefused f).

(** What the IR-only route assessed. *)
Record IrAssessment := MkIrAssessment { ia_signals : Signals; ia_pad : PadEvidence; ia_matched : IrMatch }.

(** [assessed_outcome]. *)
Definition assessed_outcome `{Libm} (x : IrAssessment) (e : Enrollment) (adapter : bool) : Outcome :=
  let pad := match ia_pad x with Score p => Some (Some p) | InferenceFailed => Some None | _ => None end in
  match gate_policy (ia_signals x) pad e with
  | Err failure => refusal_outcome failure
  | Ok _ =>
      let m := ia_matched x in
      if bool_decide (n_templates m = 0)%nat then refusal_outcome FailIncompatible
      else
        match d_grant (dark_verdict m (length (profiles e)) adapter) with
        | Some (GrantBest score who) => grant score (MatchIrOnly who)
        | Some (GrantCentroid score who) => grant score (MatchIrOnlyCentroid who)
        | None => deny_live RetryThrottle.BelowThreshold (best m) BelowIrOnly
        end
  end.
End Decision.
