(* ===== verification/Engine.v ===== *)
(** * The face engine's attempts

    The rest of the attempt path of [irlume-auth/src/lib.rs], with
    [grouped_auth.rs] and [managed_pad.rs]: what the engine makes of a
    captured pair or a visible frame, the single attempt, the two bounded
    collections of PAD votes and the retry loop of the presence window.

    The engine's mutable state is an [Engine]; the clock and the request's
    cancellation are read from the [World], one reading after another.  What a
    capture and the models measured is a [PairCapture] or an [RgbCapture]; a
    capture, detection or inference that failed is an error in its place. *)

From S2P Require Import Prelude Text Float CameraKeys Liveness Templates IdentityArms EngineDecision.
From S2P Require Protocol RetryThrottle.

Abbreviation Error := Protocol.Error.t.

(** ** Measurements *)

Record RgbFace := MkRgbFace { rf_box : FaceBox; rf_yaw : F32; rf_pitch : F32; rf_brightness : F32 }.
Record IrFace := MkIrFace {
  if_box : FaceBox; if_brightness : F32; if_ratio : F32; if_glint : option F32; if_frac : F32; if_saturated : option F32 }.

(** A captured pair: the top faces after the self-heal, the time between the
    frames, the schedule it was captured under, the IR burst's statistics, the
    answers of the two PAD models ([None]: not loaded), the embeddings the
    faces would give, and what a split pair's lease says afterwards. *)
Record PairCapture := MkCapture {
  pc_rgb : option RgbFace;
  pc_ir : option IrFace;
  pc_skew : Z;
  pc_sequential : bool;
  pc_retried : bool;
  pc_split : bool;
  pc_rgb_mean : F32;
  pc_ambient : F32;
  pc_white_known : bool;
  pc_persistent : option F32;
  pc_ir_pad : option (result () F32);
  pc_vit : option (result () F32);
  pc_rgb_embedding : result Error Embedding;
  pc_ir_embedding : result Error Embedding;
  pc_lease : result Error ();
}.

(** A frame of the RGB-only tier. *)
Record RgbCapture := MkRgbCapture {
  rc_face : option RgbFace;
  rc_specular : F32;
  rc_moire : F32;
  rc_frac : F32;
  rc_mean : F32;
  rc_vit : option (result () F32);
  rc_embedding : result Error Embedding;
}.

(** ** The attempt's situation, for the journal and the prompt *)

Inductive AttemptSituation :=
| TimedOut | SituationUnavailable | SituationNoFace | TooFar | OffCenter | LookingAway | IrSource | TooDarkSituation
| GlintBelow | BelowScore | SpoofSituation | OtherSituation.

Record AttemptFacts := MkFacts {
  f_rgb_face : option (F32 * F32); f_face_frac : F32; f_yaw_asym : F32; f_rgb_brightness : F32; f_glint : option F32;
  f_ir_bright : F32; f_persistent : bool; f_ir_only : bool }.
Definition default_facts : AttemptFacts := MkFacts None ZERO ZERO ZERO None ZERO false false.

Definition facts_of (a : Assessment) : AttemptFacts :=
  let s := signals a in
  MkFacts (match rgb_face s with Some f => Some (cx f, cy f) | None => None end) (face_frac s) (head_yaw_asym s)
    (rgb_face_brightness s) (ir_eye_glint s) (a_ir_brightness a) (persistent_ir_source_overwhelms s) false.

Definition FRAME_YAW_ASYM_MAX : F32 := lit32 36 2.
Definition MIN_FRAC : F32 := lit32 12 2.
Definition CENTER_TOL : F32 := lit32 18 2.
Definition DIM : F32 := lit32 55 0.

Definition auth_attempt_situation (k : OutcomeKind) (f : AttemptFacts) : AttemptSituation :=
  let off x := fgt (SFabs (sub32 x (lit32 5 1))) CENTER_TOL in
  match k with
  | RetryThrottle.DeadlineExpired => TimedOut
  | RetryThrottle.RuntimeUnavailable => SituationUnavailable
  | RetryThrottle.NoFace => SituationNoFace
  | _ =>
      if bool_decide (f_rgb_face f = None) && fle (f_face_frac f) ZERO then SituationNoFace
      else if fgt (f_face_frac f) ZERO && flt (f_face_frac f) MIN_FRAC then TooFar
      else if match f_rgb_face f with Some (x, y) => off x || off y | None => false end then OffCenter
      else if fgt (f_yaw_asym f) FRAME_YAW_ASYM_MAX then LookingAway
      else if f_persistent f then IrSource
      else if bool_decide (is_Some (f_rgb_face f)) && flt (f_rgb_brightness f) DIM then TooDarkSituation
      else if match f_glint f with Some g => flt g GLINT_MIN | None => false end then GlintBelow
      else
        match k with
        | RetryThrottle.BelowThreshold => BelowScore
        | RetryThrottle.Spoof | RetryThrottle.SpoofNoIrFace => SpoofSituation
        | _ => OtherSituation
        end
  end.

(** ** The engine and its world *)

Record Engine := MkEngine {
  vit_scores : list F32;
  last_attempt_facts : AttemptFacts;
  last_attempt_situation : option AttemptSituation;
  last_release_cost : option Z;
  ticks : nat;                     (** readings of the clock so far *)
  polls : nat;                     (** readings of the cancellation so far *)
}.

Class World := { clock : nat -> Z; request_cancelled : nat -> bool }.

(** A step of the engine: a result, and the engine after it. *)
Definition M (A : Type) : Type := Engine -> result Error A * Engine.
#[export] Instance M_ret : MRet M := fun A a s => (Ok a, s).
#[export] Instance M_bind : MBind M := fun A B f m s =>
  match m s with (Ok a, s) => f a s | (Err e, s) => (Err e, s) end.

Definition throw {A} (e : Error) : M A := fun s => (Err e, s).
Definition lift {A} (r : result Error A) : M A := fun s => (r, s).
Definition set_scores (l : list F32) : M () := fun s =>
  (Ok (), MkEngine l (last_attempt_facts s) (last_attempt_situation s) (last_release_cost s) (ticks s) (polls s)).
Definition set_facts (f : AttemptFacts) : M () := fun s =>
  (Ok (), MkEngine (vit_scores s) f (last_attempt_situation s) (last_release_cost s) (ticks s) (polls s)).
Definition set_situation (x : option AttemptSituation) : M () := fun s =>
  (Ok (), MkEngine (vit_scores s) (last_attempt_facts s) x (last_release_cost s) (ticks s) (polls s)).
Definition note_release (cost : Z) : M () := fun s =>
  (Ok (), MkEngine (vit_scores s) (last_attempt_facts s) (last_attempt_situation s)
            (Some (match last_release_cost s with Some c => Z.max c cost | None => cost end)) (ticks s) (polls s)).
Definition get_release_cost : M (option Z) := fun s => (Ok (last_release_cost s), s).
Definition get_scores : M (list F32) := fun s => (Ok (vit_scores s), s).

(** [m], and [fin] whenever it failed. *)
Definition on_error {A} (m : M A) (fin : M ()) : M A := fun s =>
  match m s with (Ok a, s) => (Ok a, s) | (Err e, s) => (Err e, (fin s).2) end.

(** The result of [m] as a value. *)
Definition catch {A} (m : M A) : M (result Error A) := fun s => let '(r, s) := m s in (Ok r, s).

(** The texts of the errors raised here are left empty. *)
Definition PREEMPTED : Error := Protocol.Error.Preempted "".
Definition HARDWARE : Error := Protocol.Error.Hardware "".

Section Engine.
Context `{World, Libm} (sha256_hex : list byte -> str).
Context (su : Setup) (bd : Boundary) (enr : Enrollment).
(** [authentication_deadline], and the moiré ceiling in force. *)
Context (auth_deadline : option Z) (moire_max : F32).

Definition now : M Z := fun s =>
  (Ok (clock (ticks s)),
   MkEngine (vit_scores s) (last_attempt_facts s) (last_attempt_situation s) (last_release_cost s) (S (ticks s)) (polls s)).
Definition poll : M bool := fun s =>
  (Ok (request_cancelled (polls s)),
   MkEngine (vit_scores s) (last_attempt_facts s) (last_attempt_situation s) (last_release_cost s) (ticks s) (S (polls s))).

Definition check_request_cancelled : M () :=
  c ← poll;
  if (c : bool) then _ ← set_scores []; _ ← set_situation None; throw PREEMPTED else mret ().

(** The deadline is read only where there is one. *)
Definition past_deadline (d : option Z) : M bool :=
  match d with Some d => t ← now; mret (bool_decide (d <= t)) | None => mret false end.

Definition expire {A} : M A :=
  _ ← set_scores []; _ ← set_situation (Some TimedOut); throw Protocol.Error.DeadlineExpired.

Definition check_request_active : M () :=
  _ ← check_request_cancelled;
  past ← past_deadline auth_deadline;
  if (past : bool) then expire else mret ().

Definition check_completed_attempt (r : result Error Outcome) : M () :=
  match r with
  | Ok o =>
      if granted o then check_request_active
      else
        _ ← check_request_cancelled;
        past ← past_deadline auth_deadline;
        if (past : bool) then set_scores [] else mret ()
  | Err _ => check_request_active
  end.

(** [release_deferred]; a held pair is dropped. *)
Definition release_deferred (deferred : bool) : M () :=
  if deferred then
    started ← now;
    ended ← now;
    note_release (sat_sub ended started)
  else mret ().

(** ** What is made of a capture *)

Definition SECOND : Z := 1000000000.
Definition MAX_CROSS_SPECTRUM_SKEW : Z := 3 * SECOND.
Definition SEQUENTIAL_MAX_CROSS_SPECTRUM_SKEW : Z := 8 * SECOND.

Inductive EligiblePairEvidence := Paired (rgb : option RgbFace) | IrOnlyEvidence | Reject.
Definition eligible_pair_evidence (skew limit : Z) (rgb : option RgbFace) (has_ir_face : bool) : EligiblePairEvidence :=
  if bool_decide (skew <= limit) then Paired rgb else if has_ir_face then IrOnlyEvidence else Reject.
Definition pair_admitted_sequentially (skew : Z) (paired : bool) : bool :=
  paired && bool_decide (MAX_CROSS_SPECTRUM_SKEW < skew).

(** An assessment whose embeddings are still to be computed, and what they
    would come from. *)
Record DeferredAssessment := MkDeferred {
  d_assessment : Assessment; d_rgb : option (result Error Embedding); d_ir : option (result Error Embedding) }.

(** A PAD model's answer for a face. *)
Definition model_evidence (answer : option (result () F32)) : PadEvidence :=
  match answer with
  | None => Unavailable
  | Some (Ok p) => if is_finite p then Score p else InferenceFailed
  | Some (Err _) => InferenceFailed
  end.

(** [vit_pad_evidence]: a score only for a face the verdict still calls live. *)
Definition vit_pad_evidence (v : Verdict) (has_face : bool) (answer : option (result () F32)) : PadEvidence :=
  if bool_decide (v = Live) && has_face then model_evidence answer else NotApplicable.

Definition pair_signals (c : PairCapture) (rgb : option RgbFace) : Signals :=
  let ir {A} (f : IrFace -> A) (d : A) := match pc_ir c with Some x => f x | None => d end in
  let vis {A} (f : RgbFace -> A) (d : A) := match rgb with Some x => f x | None => d end in
  {| rgb_face := rf_box <$> rgb; ir_face := if_box <$> pc_ir c;
     ir_face_brightness := ir if_brightness ZERO; ir_center_edge_ratio := ir if_ratio ZERO;
     ir_eye_glint := ir if_glint None;
     head_yaw_asym := vis rf_yaw ZERO; head_pitch_frac := vis rf_pitch (lit32 5 1);
     rgb_face_brightness := vis rf_brightness ZERO; rgb_specular_frac := ZERO; rgb_moire_score := ZERO;
     ir_ambient := pc_ambient c; ir_ceiling_known := pc_white_known c; face_frac := ir if_frac ZERO;
     ir_saturated_frac := ir if_saturated None; ir_persistent_saturated_frac := pc_persistent c |}.

Definition rejected_pair (c : PairCapture) (limit : Z) : DeferredAssessment :=
  MkDeferred
    (MkAssessment Uncertain (StalePair (pc_skew c) limit) OtherCause None None default_signals ZERO ZERO (pc_rgb_mean c) None
       NotApplicable NotApplicable false (pc_split c)) None None.

(** [assess_captured_pair], from the check after the detections and the
    self-heal on. *)
Definition assess_captured_pair (c : PairCapture) : M DeferredAssessment :=
  _ ← check_request_active;
  let limit := if pc_sequential c || pc_split c || pc_retried c then SEQUENTIAL_MAX_CROSS_SPECTRUM_SKEW
               else MAX_CROSS_SPECTRUM_SKEW in
  let eligible := eligible_pair_evidence (pc_skew c) limit (pc_rgb c) (bool_decide (is_Some (pc_ir c))) in
  match eligible with
  | Reject => mret (rejected_pair c limit)
  | _ =>
      let rgb := match eligible with Paired rgb => rgb | _ => None end in
      let s := pair_signals c rgb in
      let gate :=
        match eligible with
        | Paired _ => let '(v, cues, why) := evaluate s in (v, GateSays why, deny_cause cues)
        | _ => (Uncertain, StalePair (pc_skew c) limit, OtherCause)
        end in
      _ ← check_request_active;
      let ir_evidence := match pc_ir c with Some _ => model_evidence (pc_ir_pad c) | None => NotApplicable end in
      _ ← check_request_active;
      let fake := match ir_evidence with Score p => Some p | _ => None end in
      let settled := settle_ir_pad gate fake in
      _ ← check_request_active;
      let rgb_evidence := vit_pad_evidence settled.1.1 (bool_decide (is_Some rgb)) (pc_vit c) in
      _ ← check_request_active;
      ring ← get_scores;
      let '(settled, ring) := settle_rgb_pad ring settled rgb_evidence in
      _ ← set_scores ring;
      let paired := bool_decide (is_Some rgb) in
      _ ← if pc_split c then lift (pc_lease c) else mret ();
      mret (MkDeferred
        (MkAssessment settled.1.1 settled.1.2 settled.2 None None s (ir_center_edge_ratio s) (ir_face_brightness s)
           (pc_rgb_mean c) fake rgb_evidence ir_evidence
           (pc_split c && paired || pair_admitted_sequentially (pc_skew c) paired) (pc_split c))
        (match rgb with Some _ => Some (pc_rgb_embedding c) | None => None end)
        (match pc_ir c with Some _ => Some (pc_ir_embedding c) | None => None end))
  end.

Definition rgb_only_signals (c : RgbCapture) : Signals :=
  let vis {A} (f : RgbFace -> A) (d : A) := match rc_face c with Some x => f x | None => d end in
  {| rgb_face := rf_box <$> rc_face c; ir_face := None; ir_face_brightness := ZERO; ir_center_edge_ratio := ZERO;
     ir_eye_glint := None; head_yaw_asym := vis rf_yaw ZERO; head_pitch_frac := vis rf_pitch (lit32 5 1);
     rgb_face_brightness := vis rf_brightness ZERO;
     rgb_specular_frac := vis (fun _ => rc_specular c) ZERO; rgb_moire_score := vis (fun _ => rc_moire c) ZERO;
     ir_ambient := ZERO; ir_ceiling_known := false; face_frac := vis (fun _ => rc_frac c) ZERO;
     ir_saturated_frac := None; ir_persistent_saturated_frac := None |}.

(** [assess_rgb_only_frame_deferred]. *)
Definition assess_rgb_only_frame_deferred (c : RgbCapture) : M DeferredAssessment :=
  _ ← check_request_active;
  let s := rgb_only_signals c in
  let '(v, cues, why) := evaluate_rgb_only moire_max s in
  _ ← check_request_active;
  let has_face := bool_decide (is_Some (rc_face c)) in
  let evidence := vit_pad_evidence v has_face (rc_vit c) in
  _ ← check_request_active;
  ring ← get_scores;
  let '(settled, ring) := settle_rgb_pad ring (v, GateSays why, deny_cause cues) evidence in
  _ ← set_scores ring;
  _ ← check_request_active;
  mret (MkDeferred
    (MkAssessment settled.1.1 settled.1.2 settled.2 None None s ZERO ZERO (rc_mean c) None evidence NotApplicable false false)
    (match rc_face c with Some _ => Some (rc_embedding c) | None => None end) None).

Definition lift_embedding (r : option (result Error Embedding)) : M (option Embedding) :=
  match r with Some r => v ← lift r; mret (Some v) | None => mret None end.

(** [materialize_pair_identity]. *)
Definition materialize_pair_identity (d : DeferredAssessment) : M Assessment :=
  _ ← check_request_active;
  rgb ← lift_embedding (d_rgb d);
  _ ← check_request_active;
  ir ← lift_embedding (d_ir d);
  _ ← check_request_active;
  let a := d_assessment d in
  mret (MkAssessment (verdict a) (a_reason a) (a_cause a) rgb ir (signals a) (a_ratio a) (a_ir_brightness a)
          (rgb_frame_mean a) (shipped_ir_fake a) (rgb_pad a) (ir_pad a) (sequential_pair a) (split_pair a)).

(** ** Single attempts *)

Inductive Prepared := Ready (a : Assessment) | Refused (o : Outcome).

Definition qualify (a : Assessment) : M Assessment :=
  ring ← get_scores;
  let '(a, ring) := qualify_rgb_pad_evidence ring a in
  _ ← set_scores ring; mret a.

(** [prepare_ordinary_pair_authentication_with]. *)
Definition prepare_ordinary (d : DeferredAssessment) : M Prepared :=
  _ ← check_request_active;
  a ← materialize_pair_identity d;
  _ ← check_request_active;
  a ← qualify a;
  mret (Ready a).

(** [prepare_pair_authentication_with], the deferring preparation. *)
Definition prepare_deferring (d : DeferredAssessment) : M Prepared :=
  _ ← check_request_active;
  if bool_decide (is_Some (d_rgb d)) && bool_decide (verdict (d_assessment d) = Live) then
    a ← qualify (d_assessment d);
    match pad_policy_refusal RgbAndIr (rgb_pad a) (ir_pad a) with
    | Some o => _ ← set_facts (facts_of a); mret (Refused o)
    | None =>
        a ← materialize_pair_identity (MkDeferred a (d_rgb d) (d_ir d));
        _ ← check_request_active;
        mret (Ready a)
    end
  else
    a ← materialize_pair_identity d;
    _ ← check_request_active;
    a ← qualify a;
    mret (Ready a).

(** [finish_pair_authentication]: an error empties the vote. *)
Definition finish_pair_authentication (prepared : M Prepared) : M Outcome :=
  p ← on_error prepared (set_scores []);
  match p with
  | Ready a =>
      _ ← set_facts (facts_of a);
      mret (authenticate_qualified_assessment sha256_hex su bd enr a)
  | Refused o => mret o
  end.

(** [authenticate_once] on a pair, ordinary or split. *)
Definition authenticate_pair_once (sample : result Error PairCapture) : M Outcome :=
  finish_pair_authentication (c ← lift sample; d ← assess_captured_pair c; prepare_ordinary d).

(** [authenticate_once] without an IR camera. *)
Definition authenticate_rgb_once (sample : result Error RgbCapture) : M Outcome :=
  a ← on_error
        (_ ← check_request_active;
         c ← lift sample;
         d ← assess_rgb_only_frame_deferred c;
         _ ← check_request_active;
         rgb ← lift_embedding (d_rgb d);
         _ ← check_request_active;
         let a := d_assessment d in
         mret (MkAssessment (verdict a) (a_reason a) (a_cause a) rgb None (signals a) (a_ratio a) (a_ir_brightness a)
                 (rgb_frame_mean a) (shipped_ir_fake a) (rgb_pad a) (ir_pad a) (sequential_pair a) (split_pair a)))
        (set_scores []);
  _ ← set_facts (facts_of a);
  a ← qualify a;
  mret (authenticate_qualified_assessment sha256_hex su bd enr a).
End Engine.
