(* ===== verification/EngineLoop.v ===== *)
(** * Collecting votes, and the retry loop

    The bounded collections of PAD votes ([irlume-auth/src/grouped_auth.rs]
    and [managed_pad.rs]) and [authentication_attempt_loop_with] of
    [irlume-auth/src/lib.rs], over the attempts of [Engine].  A turn of the
    loop is a [round]; [attempt_loop] takes a number of rounds and ends
    without a result when it runs out.  The loop keeps the results of its
    attempts, latest first, which the program only logs. *)

From S2P Require Import Prelude Text Float CameraKeys Liveness Templates IdentityArms EngineDecision Engine.
From S2P Require Protocol RetryThrottle.

(** [expired()]. *)
Definition expired : Outcome := deny RetryThrottle.DeadlineExpired WindowExpired.

Inductive GroupModality := GroupPair | GroupRgbOnly.

(** The state of the loop between two rounds: the costliest capture and round
    so far, whether the unreported-illumination retry was used, and the
    results so far. *)
Record LoopState := MkLoop {
  costliest_capture : Z; costliest_attempt : Z; unreported_retried : bool; results : list (result Error Outcome) }.

(** How a round ends: with the request's result, whether a held pair failed
    and whether its release is left to the caller, or with another round. *)
Inductive Turn :=
| Settled (r : result Error Outcome) (held_failed deferred : bool) (st : LoopState)
| Again (st : LoopState).

Definition RELEASE_ALLOWANCE_FLOOR : Z := 1500 * 1000000.

(** What one attempt gives the loop: its result, whether the held pair failed,
    and whether it still holds a pair. *)
Definition Attempt : Type := Engine -> (result Error Outcome * bool * bool) * Engine.

Section Loop.
Context `{World, Libm} (sha256_hex : list byte -> str).
Context (su : Setup) (bd : Boundary) (enr : Enrollment).
Context (auth_deadline : option Z) (moire_max : F32).

Abbreviation check_request_active := (check_request_active auth_deadline).

Definition past (deadline : Z) : M bool := t ← now; mret (bool_decide (deadline <= t)).

(** ** The grouped collection *)

(** A required model that failed is terminal, whatever else the sample says. *)
Definition execution_failure (m : PadModality) (required : bool) (e : PadEvidence) : option Outcome :=
  if negb required then None
  else
    match e with
    | Unavailable | InferenceFailed => pad_evidence_refusal m e
    | Score p => if is_finite p then None else pad_evidence_refusal m InferenceFailed
    | _ => None
    end.

Definition grouped_evidence_refusal (a : Assessment) : option Outcome :=
  let rgb := bool_decide (is_Some (rgb_face (signals a))) in
  let ir := bool_decide (is_Some (ir_face (signals a))) in
  or_else (split_evidence_refusal bd a)
    (or_else (execution_failure PadRgb rgb (rgb_pad a))
      (or_else (execution_failure PadIr (rgb || ir) (ir_pad a))
        (if uncertain_short_circuits (verdict a) rgb ir || (rgb && negb (bool_decide (verdict a = Live))) then
           Some (deny (liveness_deny_kind (verdict a) (a_cause a)) (LivenessSays (verdict a) (a_reason a)))
         else if rgb then pad_policy_refusal RgbAndIr (rgb_pad a) (ir_pad a)
         else if negb ir then Some (deny RetryThrottle.NoFace NoFaceDetected)
         else if scene_conclusively_lit (rgb_frame_mean a) then Some (deny RetryThrottle.Uncertain RoomIsLit)
         else
           let '(v, cues, why) := evaluate_ir_only (signals a) in
           if negb (bool_decide (v = Live)) then
             Some (deny (liveness_deny_kind v (deny_cause cues)) (DarkLiveness v why))
           else
             or_else (pad_policy_refusal IrOnly (rgb_pad a) (ir_pad a))
               (if pad_downgrades v (shipped_ir_fake a) IR_PAD_THRESHOLD then Some (deny RetryThrottle.Spoof DarkPad)
                else None)))).

Definition grouped_rgb_only_evidence_refusal (a : Assessment) : option Outcome :=
  let rgb := bool_decide (is_Some (rgb_face (signals a))) in
  or_else (execution_failure PadRgb rgb (rgb_pad a))
    (if uncertain_short_circuits (verdict a) rgb false || (rgb && negb (bool_decide (verdict a = Live))) then
       Some (deny (liveness_deny_kind (verdict a) (a_cause a)) (LivenessSays (verdict a) (a_reason a)))
     else if rgb then pad_policy_refusal RgbOnly (rgb_pad a) (ir_pad a)
     else Some (deny RetryThrottle.NoFace NoFaceDetected)).

Definition group_refusal (g : GroupModality) (a : Assessment) : option Outcome :=
  match g with GroupPair => grouped_evidence_refusal a | GroupRgbOnly => grouped_rgb_only_evidence_refusal a end.

(** A pair group is always captured in two phases. *)
Definition mark_sequential (g : GroupModality) (a : Assessment) : Assessment :=
  match g with
  | GroupRgbOnly => a
  | GroupPair =>
      MkAssessment (verdict a) (a_reason a) (a_cause a) (embedding a) (ir_embedding a) (signals a) (a_ratio a)
        (a_ir_brightness a) (rgb_frame_mean a) (shipped_ir_fake a) (rgb_pad a) (ir_pad a)
        (sequential_pair a || bool_decide (is_Some (rgb_face (signals a))) || split_pair a) (split_pair a)
  end.

(** The loop over the samples, from sample [index]. *)
Fixpoint evaluate_samples (g : GroupModality) (deadline : Z) (index : nat) (samples : list (M DeferredAssessment)) : M Prepared :=
  match samples with
  | [] => throw HARDWARE
  | assess :: samples =>
      _ ← check_request_cancelled;
      late ← past deadline;
      if (late : bool) then mret (Refused expired) else
      d ← assess;
      _ ← check_request_cancelled;
      _ ← set_facts (facts_of (d_assessment d));
      late ← past deadline;
      if (late : bool) then mret (Refused expired) else
      a ← qualify (mark_sequential g (d_assessment d));
      let final := bool_decide (S index = VIT_PAD_VOTE_N) in
      match group_refusal g a with
      | Some o =>
          if final || negb (presence_retryable o) then mret (Refused o)
          else evaluate_samples g deadline (S index) samples
      | None =>
          if final then
            _ ← check_request_cancelled;
            late ← past deadline;
            if (late : bool) then mret (Refused expired) else
            a ← materialize_pair_identity auth_deadline (MkDeferred a (d_rgb d) (d_ir d));
            _ ← check_request_cancelled;
            late ← past deadline;
            if (late : bool) then mret (Refused expired) else mret (Ready a)
          else evaluate_samples g deadline (S index) samples
      end
  end.

(** [evaluate_grouped_samples_ex]: anything but a ready sample empties the vote. *)
Definition evaluate_grouped_samples_ex (g : GroupModality) (deadline : Z) (samples : list (M DeferredAssessment)) : M Prepared :=
  _ ← set_scores [];
  _ ← set_facts default_facts;
  p ← on_error
        (_ ← check_request_cancelled;
         if negb (bool_decide (length samples = VIT_PAD_VOTE_N)) then throw HARDWARE
         else evaluate_samples g deadline 0 samples)
        (set_scores []);
  _ ← match p with Ready _ => mret () | Refused _ => set_scores [] end;
  mret p.

(** [finish_grouped]. *)
Definition finish_grouped (deadline : Z) (p : Prepared) : M Outcome :=
  match p with
  | Refused o => mret o
  | Ready a =>
      late ← past deadline;
      if (late : bool) then _ ← set_scores []; mret expired
      else
        let o := authenticate_qualified_assessment sha256_hex su bd enr a in
        _ ← set_scores [];
        late ← past deadline;
        mret (if (late : bool) then expired else o)
  end.

(** [authenticate_grouped_once] and [authenticate_split_grouped_once], and the
    RGB-only tier's: the batch, its evaluation and the end. *)
Definition authenticate_grouped_once (g : GroupModality) (deadline : Z) (batch : result Error (list (M DeferredAssessment)))
    : M Outcome :=
  _ ← set_scores [];
  _ ← set_facts default_facts;
  late ← past deadline;
  if (late : bool) then mret expired
  else
    samples ← lift batch;
    p ← evaluate_grouped_samples_ex g deadline samples;
    finish_grouped deadline p.

(** ** The managed concurrent collection *)

(** The loop of [collect_concurrent_pending_with], with [remaining] samples to take;
    each sample is assessed and prepared by [next]. *)
Fixpoint collect_pending (deadline : Z) (remaining : nat) (next : nat -> M Prepared) : M Prepared :=
  match remaining with
  | O => throw HARDWARE
  | S remaining =>
      _ ← check_request_active;
      late ← past deadline;
      if (late : bool) then
        _ ← set_situation (Some TimedOut);
        throw Protocol.Error.DeadlineExpired
      else
        p ← next remaining;
        _ ← check_request_cancelled;
        late ← past deadline;
        late ← if (late : bool) then mret true else past_deadline auth_deadline;
        if (late : bool) then
          match p with
          | Refused _ => mret p
          | Ready _ => _ ← set_situation (Some TimedOut); throw Protocol.Error.DeadlineExpired
          end
        else
          match p with
          | Refused o =>
              match kind o, remaining with
              | RetryThrottle.RgbPadPending, S _ => collect_pending deadline remaining next
              | _, _ => mret p
              end
          | Ready _ => mret p
          end
  end.

(** [CollectionState]: the votes of a collection never outlive it, its facts
    only when it ends well. *)
Definition collection {A} (m : M A) : M A :=
  _ ← set_scores [];
  _ ← set_facts default_facts;
  a ← on_error m (fun s => set_facts default_facts (set_scores [] s).2);
  _ ← set_scores [];
  mret a.

(** [authenticate_managed_concurrent_once]: [armed] is how arming the pair and
    establishing its rate ended, [next] the sample captured when so many are
    left and [drained] how its processing left the streams. *)
Definition authenticate_managed_once (deadline : Z) (armed : result Error ()) (next : nat -> result Error PairCapture)
    (drained : nat -> result Error ()) : M Outcome :=
  collection (
    prepared ← catch (
      _ ← check_request_active;
      _ ← lift armed;
      collection (collect_pending deadline VIT_PAD_VOTE_N (fun i =>
        c ← lift (next i);
        _ ← check_request_active;
        d ← assess_captured_pair auth_deadline c;
        p ← prepare_deferring auth_deadline d;
        _ ← lift (drained i);
        mret p)));
    _ ← check_request_cancelled;
    _ ← match prepared with Ok (Ready _) => check_request_active | _ => mret () end;
    finish_pair_authentication sha256_hex su bd enr (lift prepared)).

(** ** The retry loop *)

Definition log_result (r : result Error Outcome) (st : LoopState) : LoopState :=
  MkLoop (costliest_capture st) (costliest_attempt st) (unreported_retried st) (r :: results st).
Definition grow_capture (cost : Z) (st : LoopState) : LoopState :=
  MkLoop (Z.max (costliest_capture st) cost) (Z.max (costliest_attempt st) cost) (unreported_retried st) (results st).
Definition grow_attempt (cost : Z) (st : LoopState) : LoopState :=
  MkLoop (costliest_capture st) (Z.max (costliest_attempt st) cost) (unreported_retried st) (results st).
Definition note_unreported (st : LoopState) : LoopState :=
  MkLoop (costliest_capture st) (costliest_attempt st) true (results st).

Definition is_unreported (e : Error) : bool :=
  match e with Protocol.Error.IrIlluminationUnreported _ => true | _ => false end.

(** [retry_estimate]: the release still to pay, and one more capture. *)
Definition retry_estimate (deferred : bool) (st : LoopState) : M Z :=
  cost ← get_release_cost;
  mret ((if deferred then default RELEASE_ALLOWANCE_FLOOR cost else 0) + costliest_capture st).

(** Whether another attempt of that cost still fits. *)
Definition wont_fit (deadline estimate : Z) : M bool := t ← now; mret (bool_decide (sat_sub deadline t < estimate)).

(** The round is paid whole, the release included. *)
Definition pay_round (started : Z) (deferred : bool) (st : LoopState) : M LoopState :=
  _ ← release_deferred deferred;
  t ← now;
  mret (grow_attempt (sat_sub t started) st).

(** An RGB vote still incomplete when no further attempt fits ran out of time. *)
Definition situation_kind (window deadline estimate : Z) (o : Outcome) : M OutcomeKind :=
  match kind o with
  | RetryThrottle.RgbPadPending =>
      if bool_decide (window = 0) then mret (kind o)
      else
        late ← past deadline;
        late ← if (late : bool) then mret true else wont_fit deadline estimate;
        mret (if (late : bool) then RetryThrottle.DeadlineExpired else kind o)
  | k => mret k
  end.

Definition note_situation (k : OutcomeKind) (o : Outcome) : M () := fun s =>
  set_situation (if granted o then None else Some (auth_attempt_situation k (last_attempt_facts s))) s.

(** The end of a round whose attempt gave an outcome. *)
Definition settle_outcome (window deadline started : Z) (o : Outcome) (deferred : bool) (st : LoopState) : M Turn :=
  estimate ← retry_estimate deferred st;
  k ← situation_kind window deadline estimate o;
  _ ← note_situation k o;
  late ← past deadline;
  if negb (bool_decide (window = 0)) && late && granted o then
    _ ← release_deferred deferred;
    _ ← set_scores [];
    _ ← set_situation (Some TimedOut);
    mret (Settled (Err Protocol.Error.DeadlineExpired) false false st)
  else if negb (presence_retryable o) || late then mret (Settled (Ok o) false deferred st)
  else
    estimate ← retry_estimate deferred st;
    full ← wont_fit deadline estimate;
    if (full : bool) then mret (Settled (Ok o) false deferred st)
    else st ← pay_round started deferred st; mret (Again st).

(** The end of a round whose attempt failed. *)
Definition settle_error (window deadline started : Z) (e : Error) (held_failed deferred : bool) (st : LoopState) : M Turn :=
  let stop_trying := _ ← release_deferred deferred; mret (Settled (Err e) held_failed false st) in
  if is_unreported e && negb (bool_decide (window = 0)) && negb (unreported_retried st) then
    estimate ← retry_estimate deferred st;
    full ← wont_fit deadline estimate;
    if (full : bool) then stop_trying
    else st ← pay_round started deferred (note_unreported st); mret (Again st)
  else stop_trying.

Definition run_attempt (attempt : Attempt) : M (result Error Outcome * bool * bool) := fun s =>
  let '(x, s) := attempt s in (Ok x, s).

Definition round (window deadline : Z) (attempt : Attempt) (st : LoopState) : M Turn :=
  active ← catch check_request_active;
  match active with
  | Err e => mret (Settled (Err e) false false st)
  | Ok _ =>
      late ← if bool_decide (window = 0) then mret false else past deadline;
      if (late : bool) then
        _ ← set_scores [];
        _ ← set_situation (Some TimedOut);
        mret (Settled (Err Protocol.Error.DeadlineExpired) false false st)
      else
        started ← now;
        x ← run_attempt attempt;
        let '(r, held_failed, deferred) := x in
        let st := log_result r st in
        completed ← catch (check_completed_attempt auth_deadline r);
        match completed with
        | Err e => _ ← release_deferred deferred; mret (Settled (Err e) false false st)
        | Ok _ =>
            ended ← now;
            let st := grow_capture (sat_sub ended started) st in
            match r with
            | Err e => settle_error window deadline started e held_failed deferred st
            | Ok o => settle_outcome window deadline started o deferred st
            end
        end
  end.

(** [authentication_attempt_loop_with], for so many rounds; [attempts] gives
    the attempt of each round. *)
Fixpoint attempt_loop (fuel : nat) (window deadline : Z) (attempts : nat -> Attempt) (i : nat) (st : LoopState) (s : Engine)
    : option (result Error Outcome * bool * bool * LoopState * Engine) :=
  match fuel with
  | O => None
  | S fuel =>
      match round window deadline (attempts i) st s with
      | (Ok (Settled r held deferred st), s) => Some (r, held, deferred, st, s)
      | (Ok (Again st), s) => attempt_loop fuel window deadline attempts (S i) st s
      | (Err e, s) => Some (Err e, false, false, st, s)
      end
  end.
End Loop.
