(* ===== verification/IdentityTheory.v ===== *)
(** * Matching, proved

    What [best_rgb] and [ir_match_in] compute: the best score is the first
    greatest of the scores of the comparable templates, a NaN never wins, and
    the templates of another recognizer or pipeline are as if absent. *)

From S2P Require Import Prelude Text Float CameraKeys Templates IdentityArms.

(** ** Comparisons *)

Lemma flt_le_trans x y z : flt x y = true -> fle y z = true -> flt x z = true.
Proof.
  rewrite fle_key, !flt_key. intros (a & b & Ha & Hb & H1) (b' & c & Hb' & Hc & H2). assert (b' = b) as -> by congruence.
  eexists _, _. split_and!; [done..|].
  destruct (lex_total b c) as [?|[->|?]]; [eauto using lex_lt_trans|done|done].
Qed.

Lemma fle_antisym_key x y : fle x y = true -> fle y x = true -> key x = key y.
Proof.
  rewrite !fle_key. intros (a & b & Ha & Hb & H1) (b' & c & Hb' & Hc & H2). simplify_eq.
  destruct (lex_total a b) as [?|[->|?]]; [done|congruence|done].
Qed.

(** A score clamped to [lo, hi] is a NaN or lies there. *)
Lemma clamped_within lo hi x :
  fle lo hi = true -> is_nan (fclamp lo hi x) = true \/ within lo hi (fclamp lo hi x) = true.
Proof.
  intros Hb. unfold fclamp, within. change fgt with (fun a b => flt b a). cbn beta.
  destruct (fle_numbers _ _ Hb) as [Hlo Hhi]. destruct (is_nan x) eqn:Hn.
  { left. by destruct x, lo as [|[]| |[]], hi as [|[]| |[]]. }
  right. destruct (flt x lo) eqn:E1.
  - destruct (flt hi lo) eqn:E2; [apply flt_not_le in E2; congruence|]. by rewrite fle_refl, Hb.
  - pose proof (not_flt_le _ _ Hn Hlo E1). destruct (flt hi x) eqn:E2; [by rewrite Hb, fle_refl|].
    by rewrite H, (not_flt_le hi x).
Qed.

Lemma cosine_within a b :
  is_nan (cosine a b) = true \/ within (lit32 (-1) 0) (lit32 1 0) (cosine a b) = true.
Proof.
  unfold cosine. destruct (negb _); [by right|]. destruct (add_chunks _ _ _ _) as [[acc a'] b'].
  by apply clamped_within.
Qed.

(** ** The running best *)

Abbreviation offers_onto init l := (fold_left (fun running offered => offer offered.2 running offered.1) l init).

(** [r] is what a running best that starts at [b] ends with over [l]: [b] when
    no score exceeds it, or the first of the greatest scores. *)
Definition first_best (b : F32 * str) (l : list (F32 * str)) (r : F32 * str) : Prop :=
  (r = b /\ forall x, x ∈ l -> fgt x.1 b.1 = false)
  \/ exists before after, l = before ++ r :: after /\ fgt r.1 b.1 = true
     /\ (forall x, x ∈ before -> fge x.1 r.1 = false) /\ (forall x, x ∈ after -> fgt x.1 r.1 = false).

Lemma offers_first_best l b : first_best b l (offers_onto b l).
Proof.
  revert b. induction l as [|x l IH]; intros b; simpl; [left; split; [done|intros ? []%elem_of_nil]|].
  assert (Ho : offer x.2 b x.1 = if fgt x.1 b.1 then x else b) by (by destruct x). rewrite Ho.
  destruct (fgt x.1 b.1) eqn:E.
  - right. destruct (IH x) as [[-> Hl]|(l1 & l2 & Hl & Hr & H1 & H2)].
    + exists [], l. split_and!; [done|done|intros ? []%elem_of_nil|done].
    + exists (x :: l1), l2. split_and!; [simpl; f_equal; exact Hl| |intros y [->|]%elem_of_cons; eauto using flt_not_le|done].
      exact (flt_trans _ _ _ E Hr).
  - destruct (IH b) as [[-> Hl]|(l1 & l2 & Hl & Hr & H1 & H2)].
    + left. split; [done|]. intros y [->|]%elem_of_cons; eauto.
    + right. exists (x :: l1), l2. split_and!; [simpl; f_equal; exact Hl|done| |done].
      intros y [->|]%elem_of_cons; [|by eauto]. destruct (fge x.1 (offers_onto b l).1) eqn:F; [|done].
      pose proof (flt_le_trans _ _ _ Hr F) as G. unfold fgt in E. unfold flt in G. congruence.
Qed.

(** A running best that exceeds a number is one of the scores. *)
Lemma offers_elem l b : offers_onto b l = b \/ offers_onto b l ∈ l.
Proof.
  destruct (offers_first_best l b) as [[-> _]|(l1 & l2 & Hl & _)]; [by left|right].
  set (r := offers_onto b l) in *. rewrite Hl. set_solver.
Qed.

(** Such a best is never a NaN. *)
Lemma offers_number l b : is_nan b.1 = false -> is_nan (offers_onto b l).1 = false.
Proof.
  intros Hb. destruct (offers_first_best l b) as [[-> _]|(l1 & l2 & _ & Hr & _)]; [done|].
  by apply flt_numbers in Hr as [].
Qed.

Lemma offers_map {A} (f : A -> F32 * str) l b :
  fold_left (fun b y => offer (f y).2 b (f y).1) l b = offers_onto b (map f l).
Proof. revert b. by induction l; intros; simpl. Qed.

Lemma offers_named who (l : list F32) b : fold_left (offer who) l b = offers_onto b (map (fun s => (s, who)) l).
Proof. by rewrite <- offers_map. Qed.

(** ** Visible light *)

(** The scores a probe gets, in the order they are offered. *)
Definition rgb_offers (probe : Embedding) (scans : list (str * str * Embedding)) : list (F32 * str) :=
  map (fun s => (cosine probe s.2, s.1.1)) scans.

Lemma best_rgb_offers probe scans : best_rgb probe scans = offers_onto (NEG_INFINITY, []) (rgb_offers probe scans).
Proof. unfold best_rgb. by rewrite (offers_map (fun s : str * str * Embedding => (cosine probe s.2, s.1.1))). Qed.

Lemma elem_of_rgb_scans space e x :
  x ∈ rgb_scans_in space e <->
  exists p s, p ∈ profiles e /\ s ∈ scans p /\ comparable space s = true /\ x = (profile_name p, scan_name s, rgb s).
Proof.
  unfold rgb_scans_in. rewrite list_elem_of_bind. split.
  - intros (p & Hx & Hp). apply list_elem_of_In, in_map_iff in Hx as (s & <- & [Hs Hc]%filter_In).
    rewrite <- list_elem_of_In in Hs. eauto 6.
  - intros (p & s & Hp & Hs & Hc & ->). exists p. split; [|done].
    apply list_elem_of_In, in_map_iff. exists s. split; [done|]. apply filter_In. by rewrite <- list_elem_of_In.
Qed.

(** ** Infrared *)

Section Ir.
Context (space embed : str) (adapter : bool).

Definition scoring_probe (probe : Embedding) : option Embedding := if adapter then normalize_embedding probe else Some probe.
Definition templates (dim : nat) (p : FaceProfile) : list Embedding := omap (ir_template space embed adapter dim) (scans p).

(** What one profile offers: its scores, and that of its centroid. *)
Definition profile_offers (probe : Embedding) (p : FaceProfile) : list (F32 * str) :=
  match scoring_probe probe with
  | Some pr => map (fun s => (s, profile_name p)) (profile_scores embed adapter p pr (templates (length probe) p)).1
  | None => []
  end.
Definition profile_centroid (probe : Embedding) (p : FaceProfile) : option (F32 * str) :=
  pr ← scoring_probe probe;
  s ← (profile_scores embed adapter p pr (templates (length probe) p)).2;
  Some (s, profile_name p).

Definition ir_offers (e : Enrollment) (probe : Embedding) : list (F32 * str) := p ← profiles e; profile_offers probe p.

Lemma profile_scores_nil p pr : profile_scores embed adapter p pr [] = ([], None).
Proof. unfold profile_scores. by repeat case_match. Qed.

Lemma profile_without_templates probe p :
  templates (length probe) p = [] -> profile_offers probe p = [] /\ profile_centroid probe p = None.
Proof.
  intros E. unfold profile_offers, profile_centroid. destruct (scoring_probe probe); [|done].
  cbn. by rewrite E, profile_scores_nil.
Qed.

(** One turn of the loop, in terms of what the profile offers. *)
Lemma match_profile_turn probe m p :
  match_profile space embed adapter (length probe) (scoring_probe probe) m p =
  let b := offers_onto (best m, best_who m) (profile_offers probe p) in
  MkIrMatch b.1 b.2 (n_templates m + length (templates (length probe) p))
    (match profile_centroid probe p with
     | Some c => offer_centroid c.2 (centroid m) c.1
     | None => centroid m
     end).
Proof.
  unfold match_profile. fold (templates (length probe) p).
  destruct (decide (templates (length probe) p = [])) as [E|E].
  - destruct (profile_without_templates _ _ E) as [-> ->]. rewrite E. simpl. rewrite Nat.add_0_r. by destruct m.
  - rewrite bool_decide_eq_false_2 by (by intros ?%length_zero_iff_nil).
    unfold profile_offers, profile_centroid. destruct (scoring_probe probe) as [pr|]; [|done]. simpl.
    destruct (profile_scores _ _ _ _ _) as [scores cs]. simpl. rewrite offers_named. by destruct cs.
Qed.

Lemma ir_match_fold probe ps m :
  fold_left (match_profile space embed adapter (length probe) (scoring_probe probe)) ps m =
  let b := offers_onto (best m, best_who m) (p ← ps; profile_offers probe p) in
  MkIrMatch b.1 b.2 (n_templates m + sum_list (map (fun p => length (templates (length probe) p)) ps))
    (fold_left (fun b x => offer_centroid x.2 b x.1) (omap (profile_centroid probe) ps) (centroid m)).
Proof.
  revert m. induction ps as [|p ps IH]; intros m; simpl; [rewrite Nat.add_0_r; by destruct m|].
  rewrite IH, match_profile_turn. cbn. rewrite fold_left_app, <- surjective_pairing, <- Nat.add_assoc.
  f_equal. by destruct (profile_centroid probe p).
Qed.

Lemma ir_match_in_offers e probe :
  ir_match_in space embed adapter e probe =
  let b := offers_onto (NEG_INFINITY, []) (ir_offers e probe) in
  MkIrMatch b.1 b.2 (sum_list (map (fun p => length (templates (length probe) p)) (profiles e)))
    (fold_left (fun b x => offer_centroid x.2 b x.1) (omap (profile_centroid probe) (profiles e)) None).
Proof. apply (ir_match_fold probe (profiles e) (MkIrMatch NEG_INFINITY [] 0 None)). Qed.
End Ir.

(** ** What a score rests on *)

(** A template of the probe's own recognizer, pipeline and width. *)
Definition usable (space embed : str) (dim : nat) (s : FaceScan) : Prop :=
  comparable embed s = true /\ ir_space s = Some space /\ exists v, ir s = Some v /\ length v = dim.

Lemma ir_template_usable space embed adapter dim s t :
  ir_template space embed adapter dim s = Some t -> usable space embed dim s.
Proof.
  unfold ir_template, usable. destruct (comparable embed s); [|done]. cbn.
  destruct (ir s) as [v|]; [|done]. cbn. case_bool_decide; [|done]. cbn. case_bool_decide; [|done]. eauto.
Qed.

(** The two scores a template may give: plainly, or with both sides calibrated. *)
Inductive compared (embed : str) (adapter : bool) (p : FaceProfile) (probe t : Embedding) : F32 -> Prop :=
| compared_plainly : compared embed adapter p probe t (cosine probe t)
| compared_calibrated c probe' t' :
    adapter = false -> calib_for embed p = Some c -> apply_calib c probe = Some probe' -> apply_calib c t = Some t' ->
    compared embed adapter p probe t (cosine probe' t').

(** An infrared score that a template of the named profile gave the probe. *)
Definition ir_support (x : DecisionContext) (e : Enrollment) (probe : Embedding) (score : F32) (who : str) : Prop :=
  exists p s t pr, p ∈ profiles e /\ s ∈ scans p /\ profile_name p = who
    /\ usable (dc_ir_space x) (dc_embed_space x) (length probe) s
    /\ ir_template (dc_ir_space x) (dc_embed_space x) (dc_adapter x) (length probe) s = Some t
    /\ scoring_probe (dc_adapter x) probe = Some pr
    /\ compared (dc_embed_space x) (dc_adapter x) p pr t score.

(** A centroid's score: that of the calibrated templates of the named profile. *)
Definition centroid_support (x : DecisionContext) (e : Enrollment) (probe : Embedding) (score : F32) (who : str) : Prop :=
  exists p s c probe' cts, p ∈ profiles e /\ s ∈ scans p /\ profile_name p = who
    /\ usable (dc_ir_space x) (dc_embed_space x) (length probe) s
    /\ dc_adapter x = false /\ calib_for (dc_embed_space x) p = Some c /\ apply_calib c probe = Some probe'
    /\ cts = omap (apply_calib c) (templates (dc_ir_space x) (dc_embed_space x) false (length probe) p)
    /\ score = cosine probe' (centroid_of (length probe) cts).

Lemma profile_scores_compared embed adapter p pr tmpls s :
  s ∈ (profile_scores embed adapter p pr tmpls).1 -> exists t, t ∈ tmpls /\ compared embed adapter p pr t s.
Proof.
  assert (Hplain : s ∈ map (cosine pr) tmpls -> exists t, t ∈ tmpls /\ compared embed adapter p pr t s).
  { intros (t & <- & Ht)%list_elem_of_In%in_map_iff. exists t. split; [by apply list_elem_of_In|constructor]. }
  unfold profile_scores. destruct adapter; [done|].
  destruct (calib_for embed p) as [c|] eqn:Ec; [|done]. cbn.
  destruct (apply_calib c pr) as [pr'|] eqn:Ep; [|done]. cbn.
  intros (t' & <- & (t & Ht & Ht')%list_elem_of_In%list_elem_of_omap)%list_elem_of_In%in_map_iff.
  eauto using compared_calibrated.
Qed.

Lemma ir_offers_support x e probe y :
  y ∈ ir_offers (dc_ir_space x) (dc_embed_space x) (dc_adapter x) e probe -> ir_support x e probe y.1 y.2.
Proof.
  unfold ir_offers. intros (p & Hy & Hp)%list_elem_of_bind. unfold profile_offers in Hy.
  destruct (scoring_probe _ probe) as [pr|] eqn:Es; [|by apply elem_of_nil in Hy].
  apply list_elem_of_In, in_map_iff in Hy as (s & <- & Hs). apply list_elem_of_In, profile_scores_compared in Hs as (t & Ht & Hc).
  apply list_elem_of_omap in Ht as (sc & Hsc & Ht).
  exists p, sc, t, pr. split_and!; eauto using ir_template_usable.
Qed.

(** The best infrared score: nobody's, or that of a usable template. *)
Lemma ir_best_support x e probe m :
  m = ir_match_in (dc_ir_space x) (dc_embed_space x) (dc_adapter x) e probe ->
  (best m = NEG_INFINITY /\ best_who m = []) \/ ir_support x e probe (best m) (best_who m).
Proof.
  rewrite ir_match_in_offers. intros ->. cbn [best best_who].
  destruct (offers_elem (ir_offers (dc_ir_space x) (dc_embed_space x) (dc_adapter x) e probe) (NEG_INFINITY, [])) as [->|H];
    [by left|right]. by apply ir_offers_support.
Qed.

Lemma centroid_elem l b : fold_left (fun b x => offer_centroid x.2 b x.1) l b = b
  \/ exists x, x ∈ l /\ fold_left (fun b x => offer_centroid x.2 b x.1) l b = Some x.
Proof.
  revert b. induction l as [|x l IH]; intros b; [by left|]. simpl.
  assert (Ho : offer_centroid x.2 b x.1 = b \/ offer_centroid x.2 b x.1 = Some x).
  { unfold offer_centroid. destruct x as [s w], b as [[y w']|]; simpl; [destruct (fgt s y)|]; auto. }
  destruct (IH (offer_centroid x.2 b x.1)) as [->|(y & Hy & ->)]; [|right; set_solver].
  destruct Ho as [->| ->]; [by left|right]. set_solver.
Qed.

Lemma ir_centroid_support x e probe m c :
  m = ir_match_in (dc_ir_space x) (dc_embed_space x) (dc_adapter x) e probe -> centroid m = Some c ->
  centroid_support x e probe c.1 c.2.
Proof.
  rewrite ir_match_in_offers. intros ->. cbn [centroid].
  destruct (centroid_elem (omap (profile_centroid (dc_ir_space x) (dc_embed_space x) (dc_adapter x) probe) (profiles e)) None)
    as [->|(y & (p & Hp & Hy)%list_elem_of_omap & ->)]; [done|]. intros [= ->].
  unfold profile_centroid, scoring_probe, profile_scores in Hy.
  destruct (dc_adapter x) eqn:Ea; [destruct (normalize_embedding probe); by simplify_eq/=|]. cbn in Hy.
  destruct (calib_for _ p) as [k|] eqn:Ek; [|done]. cbn in Hy.
  destruct (apply_calib k probe) as [pr'|] eqn:Ep; [|done]. cbn in Hy. case_bool_decide as Hl; [|done]. simplify_eq/=.
  destruct (templates (dc_ir_space x) (dc_embed_space x) false (length probe) p) as [|t ts] eqn:Et; [simpl in Hl; lia|].
  assert (Ht : t ∈ templates (dc_ir_space x) (dc_embed_space x) false (length probe) p) by (rewrite Et; set_solver).
  apply list_elem_of_omap in Ht as (sc & Hsc & Ht).
  exists p, sc, k, pr', (omap (apply_calib k) (t :: ts)). rewrite Et. split_and!; eauto using ir_template_usable.
Qed.

(** ** The templates of other recognizers *)

Definition only_profile (space : str) (p : FaceProfile) : FaceProfile :=
  MkProfile (profile_name p) (List.filter (comparable space) (scans p)) (ir_calib p) (ir_calibs p).
(** The enrollment without the scans another recognizer recorded. *)
Definition only (space : str) (e : Enrollment) : Enrollment :=
  MkEnrollment (user e) (map (only_profile space) (profiles e)) (require_eyes_open e) (camera_binding e).

Lemma omap_filter_same {A B} (f : A -> option B) (keep : A -> bool) l :
  (forall x, keep x = false -> f x = None) -> omap f (List.filter keep l) = omap f l.
Proof.
  intros Hf. induction l as [|x l IH]; [done|]. simpl. change (list_omap A B f) with (omap (M := list) f).
  destruct (keep x) eqn:E; [|by rewrite IH, (Hf x E)]. rewrite <- IH. done.
Qed.

Lemma existsb_filter_same {A} (f keep : A -> bool) l :
  (forall x, keep x = false -> f x = false) -> existsb f (List.filter keep l) = existsb f l.
Proof.
  intros Hf. induction l as [|x l IH]; [done|]. simpl. destruct (keep x) eqn:E; simpl; rewrite IH; [done|].
  by rewrite (Hf x E).
Qed.

Lemma filter_twice {A} (keep : A -> bool) l : List.filter keep (List.filter keep l) = List.filter keep l.
Proof. induction l as [|x l IH]; [done|]. simpl. destruct (keep x) eqn:E; simpl; [by rewrite E, IH|done]. Qed.

Section Only.
Context (space embed : str) (adapter : bool).

Lemma templates_only dim p :
  templates space embed adapter dim (only_profile embed p) = templates space embed adapter dim p.
Proof. apply omap_filter_same. intros s Hs. unfold ir_template. by rewrite Hs. Qed.

Lemma calib_for_only p : calib_for embed (only_profile embed p) = calib_for embed p.
Proof.
  unfold calib_for. simpl. rewrite existsb_filter_same; [done|]. intros s Hs. unfold untagged_ir. by rewrite Hs, andb_false_r.
Qed.

Lemma match_profile_only dim pr m p :
  match_profile space embed adapter dim pr m (only_profile embed p) = match_profile space embed adapter dim pr m p.
Proof.
  unfold match_profile. change (omap _ (scans p)) with (templates space embed adapter dim p).
  change (omap _ (scans (only_profile embed p))) with (templates space embed adapter dim (only_profile embed p)).
  rewrite templates_only. unfold profile_scores. by rewrite calib_for_only.
Qed.

Lemma ir_match_only e probe : ir_match_in space embed adapter (only embed e) probe = ir_match_in space embed adapter e probe.
Proof.
  unfold ir_match_in. simpl. generalize (MkIrMatch NEG_INFINITY [] 0 None).
  induction (profiles e) as [|p ps IH]; intros m; [done|]. simpl. by rewrite match_profile_only, IH.
Qed.

Lemma rgb_scans_only e : rgb_scans_in embed (only embed e) = rgb_scans_in embed e.
Proof.
  unfold rgb_scans_in. simpl. induction (profiles e) as [|p ps IH]; [done|]. cbn [map]. rewrite !bind_cons, IH. simpl. by rewrite filter_twice.
Qed.

Lemma collide_only threshold probe who l best :
  fold_left (collide_scan embed threshold probe who) (List.filter (comparable embed) l) best
  = fold_left (collide_scan embed threshold probe who) l best.
Proof.
  revert best. induction l as [|s l IH]; intros b; [done|]. simpl.
  destruct (comparable embed s) eqn:E; simpl; rewrite IH; [done|]. unfold collide_scan at 3. by rewrite E.
Qed.

Lemma colliding_only e probe exclude threshold :
  colliding_profile (only embed e) probe exclude embed threshold = colliding_profile e probe exclude embed threshold.
Proof.
  unfold colliding_profile. simpl. generalize (None : option (str * F32)).
  induction (profiles e) as [|p ps IH]; intros b; [done|]. simpl. rewrite IH. case_bool_decide; [done|]. by rewrite collide_only.
Qed.

Lemma merge_only e threshold captured hit :
  merge_from (only embed e) embed threshold captured hit = merge_from e embed threshold captured hit.
Proof.
  revert hit. induction captured as [|v vs IH]; intros hit; [done|]. simpl. rewrite colliding_only.
  destruct (colliding_profile e v None embed threshold) as [[w ?]|]; [|done].
  destruct hit; [|done]. case_bool_decide; auto.
Qed.
End Only.
