(* ===== verification/DecisionTheory.v ===== *)
(** * The decision, proved

    What a grant of [authenticate_qualified_assessment] rests on, what the
    vote over the PAD scores decides, and what the IR-only route grants. *)

From Stdlib Require Import Sorted.
From S2P Require Import Prelude Text Float CameraKeys Liveness Templates IdentityArms EngineDecision IdentityTheory.
From S2P Require Protocol RetryThrottle CommitJournal.

(** ** The vote *)

Definition at_least (t : F32) (l : list F32) : list F32 := List.filter (fun p => fge p t) l.

Lemma insert_score_perm x l : insert_score x l ≡ₚ x :: l.
Proof. induction l as [|y l IH]; simpl; [done|]. destruct (flt y x); [rewrite IH; constructor|done]. Qed.

Lemma sort_scores_perm l : sort_scores l ≡ₚ l.
Proof. induction l as [|x l IH]; simpl; [done|]. by rewrite insert_score_perm, IH. Qed.

Definition numbers (l : list F32) : Prop := Forall (fun x => is_nan x = false) l.

Lemma insert_score_sorted x l :
  is_nan x = false -> numbers l -> StronglySorted (fun a b => fle a b = true) l ->
  StronglySorted (fun a b => fle a b = true) (insert_score x l).
Proof.
  intros Hx Hl Hs. induction Hs as [|y l Hs IH Hy]; simpl; [repeat constructor|].
  inversion Hl as [|?? Hny Hnl]; subst. destruct (flt y x) eqn:E.
  - constructor; [by apply IH|]. rewrite insert_score_perm. constructor; [by apply flt_le|done].
  - pose proof (not_flt_le _ _ Hny Hx E) as Hle. constructor; [by constructor|].
    constructor; [done|]. eapply Forall_impl; [|exact Hy]. eauto using fle_trans.
Qed.

Lemma sort_scores_sorted l : numbers l -> StronglySorted (fun a b => fle a b = true) (sort_scores l).
Proof.
  induction 1 as [|x l Hx Hl IH]; simpl; [constructor|]. apply insert_score_sorted; [done| |done].
  unfold numbers. by rewrite sort_scores_perm.
Qed.

Lemma at_least_perm t l l' : l ≡ₚ l' -> length (at_least t l) = length (at_least t l').
Proof.
  unfold at_least. induction 1 as [|x l l' H IH|x y l|l1 l2 l3 H1 IH1 H2 IH2]; simpl; try done; repeat case_match; simpl; lia.
Qed.

(** Of five numbers in order, the third reaches the threshold exactly when
    three of them do. *)
Lemma median_of_five t a b c d e :
  StronglySorted (fun a b => fle a b = true) [a; b; c; d; e] ->
  fge c t = bool_decide (3 <= length (at_least t [a; b; c; d; e]))%nat.
Proof.
  intros Hs. repeat match goal with
    | H : StronglySorted _ (_ :: _) |- _ => inversion H; clear H; subst
    | H : Forall _ (_ :: _) |- _ => inversion H; clear H; subst
    end.
  assert (Hmono : forall x y, fle x y = true -> fge x t = true -> fge y t = true)
    by (intros x y Hxy Hx; exact (fle_trans _ _ _ Hx Hxy)).
  unfold at_least. simpl. destruct (fge c t) eqn:Hc.
  - rewrite (Hmono c d), (Hmono c e) by done. rewrite bool_decide_eq_true_2; [done|]. repeat case_match; simpl; lia.
  - destruct (fge a t) eqn:Ha; [rewrite (Hmono a c) in Hc by done; done|].
    destruct (fge b t) eqn:Hb; [rewrite (Hmono b c) in Hc by done; done|].
    rewrite bool_decide_eq_false_2; [done|]. repeat case_match; simpl; lia.
Qed.

Lemma length_five {A} (l : list A) : length l = 5%nat -> exists a b c d e, l = [a; b; c; d; e].
Proof. destruct l as [|a [|b [|c [|d [|e [|]]]]]]; intros; simplify_eq/=. eauto 6. Qed.

(** The last scores of the request, as many as a vote has. *)
Definition window (scores : list F32) : list F32 := drop (length scores - VIT_PAD_VOTE_N) scores.

Lemma vit_vote_counts scores :
  numbers scores ->
  vit_vote_denies scores =
  bool_decide (VIT_PAD_VOTE_N <= length scores /\ 3 <= length (at_least VIT_PAD_THRESHOLD (window scores)))%nat.
Proof.
  intros Hn. unfold vit_vote_denies. fold (window scores).
  assert (Hlen : length (window scores) = Nat.min 5 (length scores)).
  { unfold window, VIT_PAD_VOTE_N. rewrite length_drop. lia. }
  unfold VIT_PAD_VOTE_N in *. case_bool_decide as Hw.
  { rewrite bool_decide_eq_false_2; [done|]. lia. }
  assert (Hnw : numbers (window scores)) by (apply Forall_drop; exact Hn).
  pose proof (sort_scores_sorted _ Hnw) as Hs. pose proof (sort_scores_perm (window scores)) as Hp.
  destruct (length_five (sort_scores (window scores))) as (a & b & c & d & e & E); [rewrite Hp; lia|].
  rewrite <- (at_least_perm _ _ _ Hp), E in *. simpl (_ !! _). cbn match.
  rewrite (median_of_five _ _ _ _ _ _ Hs). apply bool_decide_ext. split; [|naive_solver]. split; [lia|done].
Qed.

(** ** Thresholds are not negative *)

Definition not_negative (x : spec_float) : bool := negb (flt x ZERO).

Lemma round_aux_not_negative prec emax m e l : not_negative (binary_round_aux prec emax false m e l) = true.
Proof.
  unfold binary_round_aux. destruct (shr_fexp _ _ m e l) as [r1 e1]. destruct (shr_fexp _ _ _ e1 loc_Exact) as [r2 e2].
  destruct (shr_m r2); try done. by destruct (e2 <=? _).
Qed.

Lemma mul32_not_negative x y : not_negative x = true -> not_negative y = true -> not_negative (mul32 x y) = true.
Proof.
  destruct x as [|[]| |[]], y as [|[]| |[]]; try done. intros _ _. apply round_aux_not_negative.
Qed.

Lemma add32_not_negative x y : not_negative x = true -> not_negative y = true -> not_negative (add32 x y) = true.
Proof.
  destruct x as [[]|[]| |[]], y as [[]|[]| |[]]; try done. intros _ _.
  unfold add32, SFadd, cond_Zopp, binary_normalize. rewrite <- Pos2Z.inj_add.
  unfold binary_round. destruct (shl_align _ _ _). apply round_aux_not_negative.
Qed.

Lemma fmin_not_negative x y : not_negative x = true -> not_negative y = true -> not_negative (fmin x y) = true.
Proof. intros. unfold fmin. by repeat case_match. Qed.

(** What the engine relies on of the platform's functions: the logarithm of a
    count above one is not negative, and [exp] of an infinity is infinite. *)
Class LibmOk `{Libm} : Prop := {
  log2_count n : (1 < n)%nat -> not_negative (log2 (f32_of_Z (Z.of_nat n))) = true;
  exp_infinity : exp INFINITY = INFINITY;
}.

Lemma scaled_not_negative `{LibmOk} base n : not_negative base = true -> not_negative (scaled_threshold base n) = true.
Proof.
  intros Hb. unfold scaled_threshold. case_bool_decide; [done|].
  apply add32_not_negative; [done|]. apply fmin_not_negative; [|by vm_compute].
  apply mul32_not_negative; [by vm_compute|]. apply log2_count. lia.
Qed.

Lemma arm_threshold_not_negative `{LibmOk} arm n :
  match arm with RgbArm base => not_negative base = true | _ => True end -> not_negative (arm_threshold arm n) = true.
Proof.
  destruct arm as [base|[]|[]|[]|[]]; intros Hb; unfold arm_threshold; try (apply add32_not_negative; [|by vm_compute]);
    apply scaled_not_negative; first [done|by vm_compute].
Qed.

(** A score that clears such a threshold is that of somebody. *)
Lemma above_not_negative x t : fge x t = true -> not_negative t = true -> x <> NEG_INFINITY.
Proof. intros H Ht ->. by destruct t as [|[]| |[]]. Qed.

(** ** The arms *)

(** What a grant of the dark arms rests on. *)
Definition dark_identity `{Libm} (x : DecisionContext) (e : Enrollment) (probe : Embedding) (g : DarkGrant) : Prop :=
  let m := ir_match_in (dc_ir_space x) (dc_embed_space x) (dc_adapter x) e probe in
  match g with
  | GrantBest s who =>
      ir_support x e probe s who /\ is_finite s = true /\ fge s (arm_threshold (DarkBest (dc_adapter x)) (n_templates m)) = true
  | GrantCentroid s who =>
      centroid_support x e probe s who /\ is_finite s = true
      /\ fge s (arm_threshold (DarkCentroid (dc_adapter x)) (length (profiles e))) = true
  end.

Lemma dark_grant_identity `{Libm} x e probe g :
  d_grant (dark_verdict (ir_match_in (dc_ir_space x) (dc_embed_space x) (dc_adapter x) e probe) (length (profiles e)) (dc_adapter x))
    = Some g -> dark_identity x e probe g.
Proof.
  set (m := ir_match_in _ _ _ e probe). unfold dark_verdict, dark_arms, identity_thresholds. cbn [t_best t_centroid].
  case_bool_decide as Hn; [done|]. simpl. destruct (is_finite (best m) && _) eqn:Hb.
  - intros [= <-]. apply andb_true_iff in Hb as [Hf Hge]. split_and!; [|done|done].
    destruct (ir_best_support x e probe m eq_refl) as [[Hi _]|?]; [by rewrite Hi in Hf|done].
  - destruct (centroid m) as [[s who]|] eqn:Hc; [|done]. destruct (is_finite s && _) eqn:Hs; [|done].
    intros [= <-]. apply andb_true_iff in Hs as [Hf Hge]. split_and!; [|done|done].
    exact (ir_centroid_support x e probe m (s, who) eq_refl Hc).
Qed.

(** What a grant of the lit arms rests on: the visible face, or both lights
    together, only for frames taken at the same time; infrared for any. *)
Definition rgb_support (x : DecisionContext) (e : Enrollment) (probe : Embedding) (score : F32) (who : str) : Prop :=
  exists p s, p ∈ profiles e /\ s ∈ scans p /\ profile_name p = who /\ comparable (dc_embed_space x) s = true
    /\ score = cosine probe (rgb s).

Definition lit_identity `{Libm} (x : DecisionContext) (e : Enrollment) (probe : LitProbe) (g : LitGrant) : Prop :=
  let rgb_scores s who := rgb_support x e (lp_rgb probe) s who in
  let ir_match := (fun v => ir_match_in (dc_ir_space x) (dc_embed_space x) (dc_adapter x) e v) <$> lp_ir probe in
  match g with
  | LitRgb s who =>
      lp_sequential probe = false /\ rgb_scores s who
      /\ fge s (arm_threshold (RgbArm (dc_rgb_base x)) (length (rgb_scans_in (dc_embed_space x) e))) = true
  | LitFusion p who =>
      lp_sequential probe = false /\ fge p FUSION_PROB_THRESHOLD = true
      /\ exists v m rw iw rs si, lp_ir probe = Some v /\ ir_match = Some m
         /\ rgb_scores rs rw /\ ir_support x e v si iw /\ who ∈ [rw; iw]
         /\ fge (rgb_genuine_prob rs) FUSION_MIN_PER_MODALITY_PROB = true
         /\ fge (ir_genuine_prob si) FUSION_MIN_PER_MODALITY_PROB = true
  | LitFallbackGrant s who =>
      exists v m, lp_ir probe = Some v /\ ir_match = Some m /\ ir_support x e v s who
      /\ fge s (arm_threshold (LitFallback (dc_adapter x)) (n_templates m)) = true
  | LitCentroidGrant s who =>
      exists v, lp_ir probe = Some v /\ centroid_support x e v s who
      /\ fge s (arm_threshold (LitCentroid (dc_adapter x)) (length (profiles e))) = true
  end.


Lemma rgb_best_support x e probe score who :
  best_rgb probe (rgb_scans_in (dc_embed_space x) e) = (score, who) -> score <> NEG_INFINITY ->
  rgb_support x e probe score who.
Proof.
  rewrite best_rgb_offers. intros Hb Hn.
  destruct (offers_elem (rgb_offers probe (rgb_scans_in (dc_embed_space x) e)) (NEG_INFINITY, [])) as [H|H];
    rewrite Hb in H; [by simplify_eq|].
  apply list_elem_of_In, in_map_iff in H as (y & Hy & Hin). apply list_elem_of_In, elem_of_rgb_scans in Hin.
  destruct Hin as (p & s & Hp & Hs & Hc & ->). simplify_eq/=. exists p, s. eauto.
Qed.

(** A calibrated probability of a score that nobody gave is zero. *)
Lemma no_score_no_probability `{LibmOk} a b :
  sigmoid (add32 (mul32 a NEG_INFINITY) b) = sigmoid NEG_INFINITY -> sigmoid (add32 (mul32 a NEG_INFINITY) b) = ZERO.
Proof. intros ->. unfold sigmoid. cbn [SFopp negb]. fold INFINITY. rewrite exp_infinity. by vm_compute. Qed.

Lemma rgb_prob_support `{LibmOk} s : fge (rgb_genuine_prob s) FUSION_MIN_PER_MODALITY_PROB = true -> s <> NEG_INFINITY.
Proof.
  intros Hge ->. unfold rgb_genuine_prob in Hge. rewrite no_score_no_probability in Hge; [by vm_compute in Hge|].
  by f_equal.
Qed.

Lemma ir_prob_support `{LibmOk} s : fge (ir_genuine_prob s) FUSION_MIN_PER_MODALITY_PROB = true -> s <> NEG_INFINITY.
Proof.
  intros Hge ->. unfold ir_genuine_prob in Hge. rewrite no_score_no_probability in Hge; [by vm_compute in Hge|].
  by f_equal.
Qed.

#[local] Opaque lit32 add32 mul32 div32 arm_threshold rgb_genuine_prob ir_genuine_prob ramp rgb_quality_weight.

Lemma lit_arm_grant `{Libm} score b m ib sequential adapter n arm :
  let arms := lit_ir_arms score b m ib sequential adapter n in
  arm_grant arms = Some arm ->
  match arm with
  | ArmFusion =>
      sequential = false /\ fge (prob (fusion arms)) FUSION_PROB_THRESHOLD = true
      /\ fge (rgb_genuine_prob score) FUSION_MIN_PER_MODALITY_PROB = true
      /\ fge (ir_genuine_prob (best m)) FUSION_MIN_PER_MODALITY_PROB = true
  | ArmFallback => fge (best m) (arm_threshold (LitFallback adapter) (n_templates m)) = true
  | ArmCentroid => exists c, centroid m = Some c /\ fge c.1 (arm_threshold (LitCentroid adapter) n) = true
  end.
Proof.
  simpl. destruct (_ && negb sequential) eqn:Hf.
  - intros [= <-]. apply andb_true_iff in Hf as [Hf Hseq%negb_true_iff].
    apply andb_true_iff in Hf as [Hf _]. apply andb_true_iff in Hf as [Hf Hi]. by apply andb_true_iff in Hf as [Hp Hr].
  - destruct (fge (best m) _) eqn:Hb; [by intros [= <-]|].
    destruct (centroid m) as [[s w]|]; [|done]. destruct (fge s _) eqn:Hs; [|done]. intros [= <-]. by exists (s, w).
Qed.

#[local] Opaque lit_ir_arms.

Lemma lit_grant_identity `{LibmOk} x e probe g :
  not_negative (dc_rgb_base x) = true -> lit_grant (lit_verdict x e probe) = Some g -> lit_identity x e probe g.
Proof.
  intros Hbase. unfold lit_verdict. destruct (best_rgb _ _) as [score who] eqn:Hbest. simpl.
  set (thr := arm_threshold (RgbArm (dc_rgb_base x)) (length (rgb_scans_in (dc_embed_space x) e))).
  assert (Hthr : not_negative thr = true) by (by apply arm_threshold_not_negative).
  destruct (rgb_primary_grant_admissible score thr (lp_sequential probe)) eqn:Hadm; unfold lit_grant; cbn [v_rgb r_grants r_score r_who].
  { intros [= <-]. apply andb_true_iff in Hadm as [Hge Hseq%negb_true_iff]. split_and!; [done| |done].
    apply rgb_best_support; [done|by eapply above_not_negative]. }
  destruct (lp_ir probe) as [v|] eqn:Hv; [|done]. cbn.
  set (m := ir_match_in _ _ _ e v). case_bool_decide as Hn; [done|]. cbn.
  set (arms := lit_ir_arms _ _ m _ _ _ _). destruct (arm_grant arms) as [arm|] eqn:Ha; [|done].
  apply lit_arm_grant in Ha. fold arms in Ha. cbn. destruct arm; cbn.
  - intros [= <-]. destruct Ha as (Hseq & Hp & Hr & Hi). split_and!; [done|done|].
    exists v, m, who, (best_who m), score, (best m). rewrite Hv. split_and!; [done|done| | | |done|done].
    + apply rgb_best_support; [done|by apply rgb_prob_support].
    + destruct (ir_best_support x e v m eq_refl) as [[Hn' _]|?]; [|done]. by destruct (ir_prob_support (best m)).
    + case_match; set_solver.
  - intros [= <-]. exists v, m. rewrite Hv. split_and!; [done|done| |done].
    destruct (ir_best_support x e v m eq_refl) as [[Hn' _]|?]; [|done].
    exfalso. eapply above_not_negative; [exact Ha| |exact Hn']. by apply arm_threshold_not_negative.
  - destruct Ha as ([s w] & Hc & Hs). rewrite Hc. intros [= <-]. exists v. split_and!; [done| |done].
    exact (ir_centroid_support x e v m (s, w) eq_refl Hc).
Qed.

(** ** The boundary *)

Section Grant.
Context (sha256_hex : list byte -> str).

Definition scope_stands (s : AttemptScope) : Prop :=
  match s with
  | ScopePrimary digest file => exists b, file = ReadBytes b /\ sha256_hex b = digest
  | ScopeSecondary check => check = Some CommitJournal.Grant
  end.

(** What the request was started on still holds: the pinned enrollment file,
    the secondary store's check, and every part of an installed split. *)
Definition boundary_stands (su : Setup) (bd : Boundary) (e : Enrollment) (split : bool) : Prop :=
  (forall s, primary_attempt bd = Some s -> scope_stands s)
  /\ (forall check, secondary_attempt bd = Some check -> check = Some CommitJournal.Grant)
  /\ (forall s, installed_split bd = Some s ->
        authority_holds s = true /\ sides_match s = true /\ ir_forced_off s = false /\ ir_available su = true
        /\ (primary_attempt bd <> None \/ secondary_attempt bd <> None)
        /\ (camera_binding e ≫= complete_key) = Some (CSplit (split_key s)) /\ split = true).

Lemma scope_refusal_none s : boundary_refusal sha256_hex s = None -> scope_stands s.
Proof.
  destruct s as [digest [b| |]|[[]|]]; try done. simpl. case_bool_decide; [|done]. eauto.
Qed.

Lemma split_refusal_none su bd e a :
  split_grant_refusal su bd e a = None -> forall s, installed_split bd = Some s ->
  authority_holds s = true /\ sides_match s = true /\ ir_forced_off s = false /\ ir_available su = true
  /\ (primary_attempt bd <> None \/ secondary_attempt bd <> None)
  /\ (camera_binding e ≫= complete_key) = Some (CSplit (split_key s)) /\ split_pair a = true.
Proof.
  unfold split_grant_refusal. intros Hr s Hs. rewrite Hs in Hr.
  destruct (authority_holds s); [|done]. destruct (ir_forced_off s); [done|]. destruct (ir_available su); [|done].
  destruct (sides_match s); [|done]. cbn [negb orb] in Hr.
  destruct (bool_decide (primary_attempt bd = None) && _) eqn:Hscope; [done|].
  case_bool_decide as Hb; [|done]. cbn [negb] in Hr. destruct (split_pair a); [|done].
  split_and!; try done. apply andb_false_iff in Hscope as [?%bool_decide_eq_false_1|?%bool_decide_eq_false_1]; auto.
Qed.

(** No refusal at the boundary means that it stands. *)
Lemma no_boundary_refusal su bd e a :
  or_else (primary_attempt bd ≫= boundary_refusal sha256_hex)
    (or_else (secondary_attempt bd ≫= secondary_refusal) (split_grant_refusal su bd e a)) = None ->
  boundary_stands su bd e (split_pair a).
Proof.
  unfold or_else. destruct (primary_attempt bd ≫= _) eqn:Hp; [done|]. destruct (secondary_attempt bd ≫= _) eqn:Hs; [done|].
  intros Hsp. split_and!; [| |by eapply split_refusal_none].
  - intros s E. rewrite E in Hp. by apply scope_refusal_none.
  - intros check E. rewrite E in Hs. by destruct check as [[]|].
Qed.

(** ** What a grant rests on *)

Definition lit_probe (a : Assessment) (probe : Embedding) : LitProbe :=
  MkProbe probe (ir_embedding a) (rgb_face_brightness (signals a)) (a_ir_brightness a) (sequential_posture a).

(** A grant on a face the visible camera saw. *)
Definition lit_granted `{Libm} (su : Setup) (e : Enrollment) (a : Assessment) (probe : Embedding) : Prop :=
  verdict a = Live /\ below_floor su e a = None
  /\ (exists p, rgb_pad a = Score p) /\ (ir_available su = true -> exists p, ir_pad a = Score p)
  /\ exists g, lit_identity (su_context su) e (lit_probe a probe) g.

(** A grant on a face only the infrared camera saw. *)
Definition dark_granted `{Libm} (su : Setup) (e : Enrollment) (a : Assessment) (probe : Embedding) : Prop :=
  scene_conclusively_lit (rgb_frame_mean a) = false /\ (evaluate_ir_only (signals a)).1.1 = Live
  /\ below_floor su e a = None /\ (exists p, ir_pad a = Score p)
  /\ (forall p, shipped_ir_fake a = Some p -> fge p IR_PAD_THRESHOLD = false)
  /\ exists g, dark_identity (su_context su) e probe g.

Definition grant_earned `{Libm} (su : Setup) (e : Enrollment) (a : Assessment) : Prop :=
  (exists probe, embedding a = Some probe /\ lit_granted su e a probe)
  \/ (exists probe, embedding a = None /\ ir_embedding a = Some probe /\ dark_granted su e a probe).

Lemma pad_refusal_none m ev : pad_evidence_refusal m ev = None -> exists p, ev = Score p.
Proof. destruct ev; simpl; try done. eauto. Qed.

Lemma lit_policy_none su rgb ir :
  pad_policy_refusal (if ir_available su then RgbAndIr else RgbOnly) rgb ir = None ->
  (exists p, rgb = Score p) /\ (ir_available su = true -> exists p, ir = Score p).
Proof.
  destruct (ir_available su); simpl.
  - unfold or_else. intros H. split; [|intros _].
    + destruct rgb; simpl in H; try done; [|by eauto]. by destruct ir.
    + destruct rgb; simpl in H; try done; [by destruct ir|by apply pad_refusal_none in H].
  - intros H. split; [by eapply pad_refusal_none|done].
Qed.

Lemma deny_not_granted k r : granted (deny k r) = false.
Proof. done. Qed.

Lemma refusal_not_granted req rgb ir o : pad_policy_refusal req rgb ir = Some o -> granted o = false.
Proof. destruct req, rgb, ir; simpl; intros; by simplify_eq. Qed.

Lemma below_floor_refuses su e a o : below_floor su e a = Some o -> granted o = false.
Proof. unfold below_floor. repeat case_match; intros; by simplify_eq. Qed.

Lemma decide_lit_granted `{LibmOk} su e a probe :
  not_negative (dc_rgb_base (su_context su)) = true -> granted (decide_lit su e a probe) = true -> lit_granted su e a probe.
Proof.
  intros Hbase. unfold decide_lit. case_bool_decide as Hlive; [|done]. cbn [negb].
  destruct (pad_policy_refusal _ _ _) eqn:Hpad; [by rewrite (refusal_not_granted _ _ _ _ Hpad)|].
  destruct (below_floor su e a) eqn:Hfl; [by rewrite (below_floor_refuses _ _ _ _ Hfl)|].
  fold (lit_probe a probe). destruct (lit_grant _) as [g|] eqn:Hg; [|done]. intros _.
  apply lit_policy_none in Hpad as [Hr Hi]. split_and!; eauto using lit_grant_identity.
Qed.

Lemma decide_dark_granted `{Libm} su e a probe : granted (decide_dark su e a probe) = true -> dark_granted su e a probe.
Proof.
  unfold decide_dark. destruct (scene_conclusively_lit _) eqn:Hsc; [done|].
  set (m := ir_match_in _ _ _ e probe). case_bool_decide; [done|].
  destruct (evaluate_ir_only (signals a)) as [[v cues] why] eqn:Hev. case_bool_decide as Hv; [|done]. subst v. cbn [negb].
  destruct (pad_policy_refusal _ _ _) eqn:Hpad; [by rewrite (refusal_not_granted _ _ _ _ Hpad)|].
  destruct (below_floor su e a) eqn:Hfl; [by rewrite (below_floor_refuses _ _ _ _ Hfl)|].
  destruct (pad_downgrades _ _ _) eqn:Hd; [done|]. destruct (d_grant _) as [g|] eqn:Hg; [|done]. intros _.
  split_and!; [done|by rewrite Hev|done|by eapply pad_refusal_none| |eauto using dark_grant_identity].
  intros p Hp. unfold pad_downgrades in Hd. by rewrite Hp in Hd.
Qed.

(** A refusal never grants, whichever check it came from. *)
Definition refuses (r : option Outcome) : Prop := forall o, r = Some o -> granted o = false.

Lemma or_else_refuses a b : refuses a -> refuses b -> refuses (or_else a b).
Proof. destruct a; intros Ha Hb; [exact Ha|exact Hb]. Qed.

Lemma scope_refuses s : refuses (boundary_refusal sha256_hex s).
Proof. intros o. destruct s as [d [b| |]|[[]|]]; simpl; repeat case_match; intros; by simplify_eq. Qed.

Lemma boundary_refuses su bd e a :
  refuses (or_else (primary_attempt bd ≫= boundary_refusal sha256_hex)
    (or_else (secondary_attempt bd ≫= secondary_refusal) (split_grant_refusal su bd e a))).
Proof.
  repeat apply or_else_refuses.
  - destruct (primary_attempt bd); [apply scope_refuses|done].
  - destruct (secondary_attempt bd) as [check|]; [apply (scope_refuses (ScopeSecondary check))|done].
  - intros o. unfold split_grant_refusal. repeat case_match; intros; by simplify_eq.
Qed.

Lemma qualified_grant_earned `{LibmOk} su bd e a :
  not_negative (dc_rgb_base (su_context su)) = true ->
  granted (authenticate_qualified_assessment sha256_hex su bd e a) = true ->
  boundary_stands su bd e (split_pair a) /\ grant_earned su e a.
Proof.
  intros Hbase. unfold authenticate_qualified_assessment. destruct (or_else _ _) as [o|] eqn:Hb.
  { by rewrite (boundary_refuses _ _ _ _ _ Hb). }
  apply no_boundary_refusal in Hb. destruct (uncertain_short_circuits _ _ _); [done|].
  destruct (embedding a) as [probe|] eqn:He; [|destruct (ir_embedding a) as [probe|] eqn:Hi; [|done]]; intros Hg.
  - split; [done|]. left. eauto using decide_lit_granted.
  - split; [done|]. right. eauto using decide_dark_granted.
Qed.
End Grant.

(** ** The IR-only route *)

(** Every number of the frame the policy reads is one, in its range. *)
Definition frame_sound (s : Signals) (face : FaceBox) : Prop :=
  is_finite (score face) = true /\ within ZERO (lit32 1 0) (score face) = true
  /\ is_finite (ir_face_brightness s) = true /\ within ZERO (lit32 255 0) (ir_face_brightness s) = true
  /\ is_finite (ir_center_edge_ratio s) = true /\ is_finite (ir_ambient s) = true
  /\ (forall v, ir_saturated_frac s = Some v -> is_finite v = true /\ within ZERO (lit32 1 0) v = true).

(** The gates of the route: a sound frame, a live face, an accepted answer of
    the PAD model and the account's own falloff. *)
Definition ir_only_passes (x : IrAssessment) (e : Enrollment) : Prop :=
  (exists face, ir_face (ia_signals x) = Some face /\ frame_sound (ia_signals x) face)
  /\ (evaluate_ir_only (ia_signals x)).1.1 = Live
  /\ (exists p, ia_pad x = Score p /\ is_finite p = true /\ within ZERO (lit32 1 0) p = true /\ fge p IR_PAD_THRESHOLD = false)
  /\ (forall floor, ir_center_edge_ratio_floor e = Some floor ->
        is_finite floor = true /\ flt (ir_center_edge_ratio (ia_signals x)) floor = false).

(** A template or a centroid reaches its threshold. *)
Definition ir_only_matches `{Libm} (m : IrMatch) (e : Enrollment) (adapter : bool) : Prop :=
  n_templates m <> 0%nat
  /\ (is_finite (best m) = true /\ fge (best m) (arm_threshold (DarkBest adapter) (n_templates m)) = true
      \/ exists c, centroid m = Some c /\ is_finite c.1 = true
           /\ fge c.1 (arm_threshold (DarkCentroid adapter) (length (profiles e))) = true).

Definition pad_answer (e : PadEvidence) : option (option F32) :=
  match e with Score p => Some (Some p) | InferenceFailed => Some None | _ => None end.

Lemma gate_policy_ok x e : gate_policy (ia_signals x) (pad_answer (ia_pad x)) e = Ok () <-> ir_only_passes x e.
Proof.
  unfold gate_policy, ir_only_passes, frame_sound, pad_answer.
  destruct (ir_face (ia_signals x)) as [face|]; [|split; [done|intros [(? & ? & _) _]; done]].
  destruct (_ || match ir_saturated_frac (ia_signals x) with Some v => _ | None => _ end) eqn:Hbad.
  { split; [done|]. intros [(f & [= <-] & H1 & H2 & H3 & H4 & H5 & H6 & H7) _]. rewrite H1, H2, H3, H4, H5, H6 in Hbad.
    destruct (ir_saturated_frac (ia_signals x)) as [v|]; [|done]. destruct (H7 v eq_refl) as [H8 H9]. by rewrite H8, H9 in Hbad. }
  assert (Hsound : frame_sound (ia_signals x) face).
  { repeat apply orb_false_iff in Hbad as [Hbad ?]. unfold frame_sound.
    repeat match goal with H : negb _ = false |- _ => apply negb_false_iff in H end. split_and!; try done.
    intros v Hv. rewrite Hv in *. match goal with H : _ || _ = false |- _ => apply orb_false_iff in H as [] end.
    split; by apply negb_false_iff. }
  case_bool_decide as Hlive; cbn [negb]; [|split; [done|intros (_ & ? & _); contradiction]].
  destruct (ia_pad x) as [| | | |p]; cbn; try (split; [done|intros (_ & _ & (q & ? & _) & _); discriminate]).
  destruct (is_finite p && within _ _ p) eqn:Hp; [|simpl; split; [done|]].
  2: { intros (_ & _ & (q & [= <-] & H1 & H2 & _) & _). by rewrite H1, H2 in Hp. }
  apply andb_true_iff in Hp as [Hp1 Hp2]. destruct (fge p IR_PAD_THRESHOLD) eqn:Hf; simpl.
  { split; [done|]. intros (_ & _ & (q & [= <-] & _ & _ & H3) & _). congruence. }
  destruct (ir_center_edge_ratio_floor e) as [fl|].
  - destruct (negb (is_finite fl) || _) eqn:Hfl.
    + split; [done|]. intros (_ & _ & _ & Hall). destruct (Hall fl eq_refl) as [H1 H2]. by rewrite H1, H2 in Hfl.
    + apply orb_false_iff in Hfl as [Hfl%negb_false_iff Hr]. split; [intros _|done].
      split_and!; [by eexists|done|by exists p|by intros ? [= <-]].
  - split; [intros _|done]. split_and!; [by eexists|done|by exists p|done].
Qed.

Lemma ir_only_granted `{Libm} x e adapter :
  granted (assessed_outcome x e adapter) = true <-> ir_only_passes x e /\ ir_only_matches (ia_matched x) e adapter.
Proof.
  rewrite <- gate_policy_ok. unfold assessed_outcome. fold (pad_answer (ia_pad x)).
  destruct (gate_policy _ _ e) as [[]|f]; [|split; [by destruct f|by intros []]].
  unfold ir_only_matches, dark_verdict, dark_arms, identity_thresholds. cbn [t_best t_centroid].
  case_bool_decide as Hn; [split; [done|tauto]|]. simpl.
  destruct (is_finite (best (ia_matched x)) && _) eqn:Hb.
  { apply andb_true_iff in Hb. simpl. tauto. }
  destruct (centroid (ia_matched x)) as [[s w]|] eqn:Hc; simpl.
  - destruct (is_finite s && _) eqn:Hs.
    + apply andb_true_iff in Hs. split; [|done]. intros _. split; [done|]. split; [done|]. right. by exists (s, w).
    + split; [done|]. intros (_ & _ & [[H1 H2]|(c & [= <-] & H1 & H2)]); simpl in *.
      * by rewrite H1, H2 in Hb.
      * by rewrite H1, H2 in Hs.
  - split; [done|]. intros (_ & _ & [[H1 H2]|(c & ? & _)]); [by rewrite H1, H2 in Hb|done].
Qed.
