(* ===== verification/EngineTheory.v ===== *)
(** * The engine's attempts, proved

    A weakest precondition for the engine's steps, and what an assessment of
    [assess_captured_pair], a preparation and a single attempt guarantee. *)

From S2P Require Import Prelude Text Float CameraKeys Liveness Templates IdentityArms EngineDecision Engine IdentityTheory DecisionTheory.
From S2P Require Protocol RetryThrottle.

#[local] Opaque lit32 IR_PAD_THRESHOLD VIT_PAD_THRESHOLD evaluate evaluate_ir_only vit_vote_denies.

(** ** Steps *)

(** [m] from [s] ends in [Q], or fails in [E]. *)
Definition wp {A} (m : M A) (Q : A -> Engine -> Prop) (E : Error -> Engine -> Prop) (s : Engine) : Prop :=
  match m s with (Ok a, s) => Q a s | (Err e, s) => E e s end.

Lemma engine_mono {A} (m : M A) (Q Q' : A -> Engine -> Prop) (E E' : Error -> Engine -> Prop) s :
  wp m Q E s -> (forall a s, Q a s -> Q' a s) -> (forall e s, E e s -> E' e s) -> wp m Q' E' s.
Proof. unfold wp. destruct (m s) as [[a|e] s']; auto. Qed.

Lemma engine_bind {A B} (m : M A) (f : A -> M B) Q E s : wp m (fun a => wp (f a) Q E) E s -> wp (m ≫= f) Q E s.
Proof. unfold wp, mbind, M_bind. by destruct (m s) as [[a|e] s']. Qed.

Lemma engine_ret {A} (a : A) (Q : A -> Engine -> Prop) E s : Q a s -> wp (mret a) Q E s.
Proof. done. Qed.

Lemma wp_throw {A} e (Q : A -> Engine -> Prop) (E : Error -> Engine -> Prop) s : E e s -> wp (throw e) Q E s.
Proof. done. Qed.

Lemma wp_lift {A} (r : result Error A) (Q : A -> Engine -> Prop) (E : Error -> Engine -> Prop) s :
  (forall a, r = Ok a -> Q a s) -> (forall e, r = Err e -> E e s) -> wp (lift r) Q E s.
Proof. unfold wp, lift. destruct r; auto. Qed.

Lemma wp_on_error {A} (m : M A) fin Q E s : wp m Q (fun e s => E e (fin s).2) s -> wp (on_error m fin) Q E s.
Proof. unfold wp, on_error. by destruct (m s) as [[a|e] s']. Qed.

Lemma wp_catch {A} (m : M A) (Q : result Error A -> Engine -> Prop) E s :
  wp m (fun a => Q (Ok a)) (fun e => Q (Err e)) s -> wp (catch m) Q E s.
Proof. unfold wp, catch. by destruct (m s) as [[a|e] s']. Qed.

Lemma engine_run {A} (m : M A) Q E s a s' : m s = (Ok a, s') -> wp m Q E s -> Q a s'.
Proof. unfold wp. by intros ->. Qed.

Lemma wp_run_err {A} (m : M A) Q E s e s' : m s = (Err e, s') -> wp m Q E s -> E e s'.
Proof. unfold wp. by intros ->. Qed.

(** Nothing of the attempt changed but the readings taken. *)
Definition steady (s s' : Engine) : Prop :=
  vit_scores s' = vit_scores s /\ last_attempt_facts s' = last_attempt_facts s /\ (ticks s <= ticks s')%nat.

Lemma steady_refl s : steady s s.
Proof. done. Qed.
Lemma steady_trans s1 s2 s3 : steady s1 s2 -> steady s2 s3 -> steady s1 s3.
Proof. unfold steady. intros (?&?&?) (?&?&?). split_and!; [congruence|congruence|lia]. Qed.
#[export] Instance steady_preorder : PreOrder steady.
Proof. split; [exact steady_refl|exact steady_trans]. Qed.

Definition any_error (e : Error) (s : Engine) : Prop := True.

(** A refused check leaves no votes. *)
Definition emptied (e : Error) (s : Engine) : Prop := vit_scores s = [].

Lemma wp_get_scores (Q : list F32 -> Engine -> Prop) E s : Q (vit_scores s) s -> wp get_scores Q E s.
Proof. done. Qed.

Lemma wp_set_scores l (Q : () -> Engine -> Prop) E s :
  (forall s', vit_scores s' = l -> last_attempt_facts s' = last_attempt_facts s -> ticks s' = ticks s -> Q () s') ->
  wp (set_scores l) Q E s.
Proof. intros HQ. by apply HQ. Qed.

Lemma wp_set_facts f (Q : () -> Engine -> Prop) E s :
  (forall s', vit_scores s' = vit_scores s -> last_attempt_facts s' = f -> ticks s' = ticks s -> Q () s') ->
  wp (set_facts f) Q E s.
Proof. intros HQ. by apply HQ. Qed.

Lemma wp_set_situation x (Q : () -> Engine -> Prop) E s :
  (forall s', steady s s' -> Q () s') -> wp (set_situation x) Q E s.
Proof. intros HQ. by apply HQ. Qed.

Section Checks.
Context `{World} (auth_deadline : option Z).

Lemma wp_now (Q : Z -> Engine -> Prop) E s : (forall s', steady s s' -> Q (clock (ticks s)) s') -> wp now Q E s.
Proof. intros HQ. apply HQ. split_and!; simpl; [done|done|lia]. Qed.

Lemma wp_past (d : option Z) (Q : bool -> Engine -> Prop) E s :
  (forall b s', steady s s' -> Q b s') -> wp (past_deadline d) Q E s.
Proof. destruct d; intros HQ; apply HQ; [split_and!; simpl; [done|done|lia]|done]. Qed.

Lemma wp_cancelled (Q : () -> Engine -> Prop) E s :
  (forall s', steady s s' -> Q () s') -> (forall e s', emptied e s' -> E e s') -> wp check_request_cancelled Q E s.
Proof.
  intros HQ HE. apply engine_bind. unfold wp, poll. cbn. destruct (request_cancelled (polls s)); [by apply HE|by apply HQ].
Qed.

Lemma wp_active (Q : () -> Engine -> Prop) E s :
  (forall s', steady s s' -> Q () s') -> (forall e s', emptied e s' -> E e s') -> wp (check_request_active auth_deadline) Q E s.
Proof.
  intros HQ HE. apply engine_bind, wp_cancelled; [|done]. intros s1 H1. apply engine_bind, wp_past. intros b s2 H2.
  destruct b; [by apply HE|]. apply engine_ret, HQ. by etrans.
Qed.
End Checks.

(** The leading step of a computation. *)
Ltac wp_step :=
  lazymatch goal with
  | |- wp (mbind _ (mbind _ _)) _ _ _ => apply engine_bind, engine_bind
  | |- wp (mbind _ _) _ _ _ => apply engine_bind
  | |- wp (set_facts _) _ _ _ => apply wp_set_facts; intros ? ? ? ?
  | |- wp (mret _) _ _ _ => apply engine_ret
  | |- wp (throw _) _ _ _ => apply wp_throw
  | |- wp check_request_cancelled _ _ _ => apply wp_cancelled; [intros ? ?|try done]
  | |- wp (check_request_active _) _ _ _ => apply wp_active; [intros ? ?|try done]
  | |- wp (past_deadline _) _ _ _ => apply wp_past; intros ? ? ?
  | |- wp get_scores _ _ _ => apply wp_get_scores
  | |- wp (set_scores _) _ _ _ => apply wp_set_scores; intros ? ? ? ?
  | |- wp (lift _) _ _ _ => apply wp_lift; [intros ? ?|try done]
  end.

Ltac steady := repeat first [eassumption | reflexivity | etrans; [eassumption|]].

(** ** An assessed pair *)

Definition skew_limit (c : PairCapture) : Z :=
  if pc_sequential c || pc_split c || pc_retried c then SEQUENTIAL_MAX_CROSS_SPECTRUM_SKEW else MAX_CROSS_SPECTRUM_SKEW.

(** The visible face an assessment of [c] may use: the one of a pair taken
    close enough together. *)
Definition used_face (c : PairCapture) (rgb : option RgbFace) : Prop := rgb = None \/ rgb = pc_rgb c /\ pc_skew c <= skew_limit c.

Record assessed (c : PairCapture) (rgb : option RgbFace) (ring : list F32) (d : DeferredAssessment) (ring' : list F32) : Prop := {
  as_used : used_face c rgb;
  as_signals : signals (d_assessment d) = pair_signals c rgb;
  as_rgb : d_rgb d = match rgb with Some _ => Some (pc_rgb_embedding c) | None => None end;
  as_ir : d_ir d = match pc_ir c with Some _ => Some (pc_ir_embedding c) | None => None end;
  as_mean : rgb_frame_mean (d_assessment d) = pc_rgb_mean c;
  as_ratio : a_ratio (d_assessment d) = ir_center_edge_ratio (pair_signals c rgb);
  as_split : split_pair (d_assessment d) = pc_split c;
  as_together : sequential_posture (d_assessment d) = false -> is_Some rgb ->
    pc_split c = false /\ pc_skew c <= MAX_CROSS_SPECTRUM_SKEW;
  as_ir_pad q : ir_pad (d_assessment d) = Score q ->
    pc_ir_pad c = Some (Ok q) /\ is_finite q = true /\ shipped_ir_fake (d_assessment d) = Some q;
  as_live : verdict (d_assessment d) = Live ->
    (evaluate (pair_signals c rgb)).1.1 = Live
    /\ (forall q, shipped_ir_fake (d_assessment d) = Some q -> fge q IR_PAD_THRESHOLD = false);
  as_rgb_pad r : rgb_pad (d_assessment d) = Score r ->
    pc_vit c = Some (Ok r) /\ is_finite r = true /\ ring' = ring ++ [r]
    /\ (verdict (d_assessment d) = Live -> vit_vote_denies ring' = false);
  as_ring : (forall r, rgb_pad (d_assessment d) <> Score r) -> ring' = ring;
}.

(** A pair taken too far apart gives no embeddings. *)
Definition assessed_or_rejected (c : PairCapture) (ring : list F32) (d : DeferredAssessment) (ring' : list F32) : Prop :=
  (d_rgb d = None /\ d_ir d = None) /\ ring' = ring \/ exists rgb, assessed c rgb ring d ring'.

Lemma model_evidence_score x q : model_evidence x = Score q -> x = Some (Ok q) /\ is_finite q = true.
Proof. destruct x as [[p|]|]; simpl; try done. destruct (is_finite p) eqn:E; [|done]. by intros [= ->]. Qed.

Lemma settle_ir_live x fake :
  (settle_ir_pad x fake).1.1 = Live -> x.1.1 = Live /\ (forall q, fake = Some q -> fge q IR_PAD_THRESHOLD = false).
Proof.
  unfold settle_ir_pad, pad_downgrades. case_bool_decide as Hl.
  - destruct fake as [q|]; simpl; [|done]. destruct (fge q _) eqn:E; [done|]. intros _. split; [done|]. by intros ? [= <-].
  - simpl. done.
Qed.

(** The vote can only take a Live verdict away. *)
Lemma settle_rgb_spec ring x ev :
  let '(y, ring') := settle_rgb_pad ring x ev in
  (y.1.1 = Live -> x.1.1 = Live)
  /\ (forall r, ev = Score r -> is_finite r = true -> ring' = ring ++ [r] /\ (y.1.1 = Live -> vit_vote_denies ring' = false))
  /\ ((forall r, ev <> Score r) -> ring' = ring).
Proof.
  unfold settle_rgb_pad, vit_pad_votes_deny. destruct ev as [| | | |p]; try (split_and!; [done|naive_solver|done]).
  assert (Hscore : ~ (forall r, Score p <> Score r)) by (intros Hn; by apply (Hn p)).
  destruct (is_finite p) eqn:Ef; simpl.
  - destruct (vit_vote_denies (ring ++ [p])) eqn:Ev; simpl; (split_and!; [done| |done]); intros r [= <-] _; by split.
  - split_and!; [done| |done]. intros r [= <-]. congruence.
Qed.

(** From the gate's verdict on, for an eligible pair. *)
Lemma wp_assess_eligible `{World} ad c rgb (gate : Verdict * AssessReason * DenyCause) s :
  used_face c rgb -> (gate.1.1 = Live -> (evaluate (pair_signals c rgb)).1.1 = Live) ->
  wp (_ ← check_request_active ad;
      let ir_evidence := match pc_ir c with Some _ => model_evidence (pc_ir_pad c) | None => NotApplicable end in
      _ ← check_request_active ad;
      let fake := match ir_evidence with Score p => Some p | _ => None end in
      let settled := settle_ir_pad gate fake in
      _ ← check_request_active ad;
      let rgb_evidence := vit_pad_evidence settled.1.1 (bool_decide (is_Some rgb)) (pc_vit c) in
      _ ← check_request_active ad;
      ring ← get_scores;
      let '(settled, ring) := settle_rgb_pad ring settled rgb_evidence in
      _ ← set_scores ring;
      let paired := bool_decide (is_Some rgb) in
      _ ← if pc_split c then lift (pc_lease c) else mret ();
      mret (MkDeferred
        (MkAssessment settled.1.1 settled.1.2 settled.2 None None (pair_signals c rgb)
           (ir_center_edge_ratio (pair_signals c rgb)) (ir_face_brightness (pair_signals c rgb))
           (pc_rgb_mean c) fake rgb_evidence ir_evidence
           (pc_split c && paired || pair_admitted_sequentially (pc_skew c) paired) (pc_split c))
        (match rgb with Some _ => Some (pc_rgb_embedding c) | None => None end)
        (match pc_ir c with Some _ => Some (pc_ir_embedding c) | None => None end)))
    (fun d s' => assessed c rgb (vit_scores s) d (vit_scores s')) any_error s.
Proof.
  intros Hused Hgate. set (ir_ev := match pc_ir c with Some _ => _ | None => _ end).
  assert (Hir : forall q, ir_ev = Score q -> pc_ir_pad c = Some (Ok q) /\ is_finite q = true).
  { intros q. unfold ir_ev. destruct (pc_ir c); [apply model_evidence_score|done]. }
  cbv zeta. set (fake := match ir_ev with Score p => Some p | _ => None end).
  do 8 wp_step. rename s'2 into s1. assert (Hst : steady s s1) by steady. clear -Hused Hgate Hir Hst.
  do 2 wp_step. destruct Hst as (Hring & _ & _). rewrite Hring.
  pose proof (settle_ir_live gate fake) as Hlive. set (settled := settle_ir_pad gate fake) in *.
  set (ev := vit_pad_evidence _ _ _).
  assert (Hev : forall r, ev = Score r -> pc_vit c = Some (Ok r) /\ is_finite r = true).
  { intros r. unfold ev, vit_pad_evidence. destruct (_ && _); [apply model_evidence_score|done]. }
  pose proof (settle_rgb_spec (vit_scores s) settled ev) as Hvote.
  destruct (settle_rgb_pad _ _ _) as [y ring']. destruct Hvote as (Hy & Hscore & Hnone).
  do 2 wp_step. wp_step.
  assert (Hlease : forall (Q : () -> Engine -> Prop) E, Q () s' -> (forall e, E e s') ->
    wp (if pc_split c then lift (pc_lease c) else mret ()) Q E s').
  { intros Q E HQ HE. destruct (pc_split c); [|done]. apply wp_lift; [by intros []|auto]. }
  apply Hlease; [|done]. wp_step. subst ring'. split; simpl; try done.
  - unfold sequential_posture. simpl. intros Hseq Hrgb. rewrite bool_decide_eq_true_2 in Hseq by done.
    unfold pair_admitted_sequentially in Hseq. destruct (pc_split c); [done|]. simpl in Hseq.
    rewrite orb_false_r in Hseq. apply bool_decide_eq_false_1 in Hseq. split; [done|lia].
  - intros q Hq. destruct (Hir q Hq) as [-> Hf]. split_and!; [done|done|]. unfold fake. by rewrite Hq.
  - intros Hl. destruct (Hlive (Hy Hl)) as [Hg Hfake]. auto.
  - intros r Hr. destruct (Hev r Hr) as [Hvit Hf]. destruct (Hscore r Hr Hf) as [-> Hd]. auto.
Qed.

Lemma wp_assess_pair `{World} ad c s :
  wp (assess_captured_pair ad c)
    (fun d s' => assessed_or_rejected c (vit_scores s) d (vit_scores s')) any_error s.
Proof.
  unfold assess_captured_pair. wp_step. wp_step. fold (skew_limit c). rename s' into s1.
  assert (Hs : vit_scores s1 = vit_scores s) by (by apply H0). rewrite <- Hs.
  unfold eligible_pair_evidence. case_bool_decide as Hskew; [|case_bool_decide].
  - eapply engine_mono; [eapply (wp_assess_eligible ad c (pc_rgb c))|intros d s2 Hd; right; eexists; exact Hd|done].
    + by right.
    + by destruct (evaluate _) as [[v cues] why].
  - eapply engine_mono; [eapply (wp_assess_eligible ad c None)|intros d s2 Hd; right; eexists; exact Hd|done]; [by left|done].
  - wp_step. by left.
Qed.

(** ** A prepared pair *)

(** The embeddings an assessment is given. *)
Definition lifted (r : option (result Error Embedding)) (v : option Embedding) : Prop :=
  match r, v with Some (Ok x), Some y => x = y | None, None => True | _, _ => False end.

Definition with_embeddings (rgb ir : option Embedding) (a : Assessment) : Assessment :=
  MkAssessment (verdict a) (a_reason a) (a_cause a) rgb ir (signals a) (a_ratio a) (a_ir_brightness a)
    (rgb_frame_mean a) (shipped_ir_fake a) (rgb_pad a) (ir_pad a) (sequential_pair a) (split_pair a).

Lemma wp_lift_embedding r s : wp (lift_embedding r) (fun v s' => s' = s /\ lifted r v) any_error s.
Proof. by destruct r as [[v|e]|]. Qed.

Lemma wp_materialize `{World} ad d s :
  wp (materialize_pair_identity ad d)
    (fun a s' => steady s s' /\ exists rgb ir, lifted (d_rgb d) rgb /\ lifted (d_ir d) ir
                                /\ a = with_embeddings rgb ir (d_assessment d)) any_error s.
Proof.
  unfold materialize_pair_identity. do 2 wp_step. wp_step.
  eapply engine_mono; [apply wp_lift_embedding| |done]. intros rgb ? [-> Hrgb]. do 2 wp_step. wp_step.
  eapply engine_mono; [apply wp_lift_embedding| |done]. intros ir ? [-> Hir]. do 2 wp_step. wp_step.
  split; [steady|]. by exists rgb, ir.
Qed.

(** A score that survives the qualification belongs to a full vote. *)
Definition qualified (ring : list F32) (a a' : Assessment) (ring' : list F32) : Prop :=
  a' = set_rgb_pad (rgb_pad a') a /\ (ring' = [] \/ ring' = ring)
  /\ forall r, rgb_pad a' = Score r -> rgb_pad a = Score r
       /\ (verdict a = Live -> is_finite r = true -> (VIT_PAD_VOTE_N <= length ring)%nat /\ ring' = ring).

Lemma set_rgb_pad_same a : set_rgb_pad (rgb_pad a) a = a.
Proof. by destruct a. Qed.

Lemma qualify_spec ring a : let '(a', ring') := qualify_rgb_pad_evidence ring a in qualified ring a a' ring'.
Proof.
  unfold qualify_rgb_pad_evidence, qualified. destruct (rgb_pad a) as [| | | |p] eqn:Hp;
    try (rewrite <- Hp, set_rgb_pad_same, Hp; split_and!; [done|by left|naive_solver]).
  assert (Hsame : set_rgb_pad (Score p) a = a) by (by rewrite <- Hp, set_rgb_pad_same).
  destruct (is_finite p) eqn:Hf; simpl.
  - case_bool_decide as Hl; [case_bool_decide as Hn|].
    + split_and!; [done|by right|naive_solver].
    + rewrite Hp. split_and!; [done|by right|]. intros r [= <-]. split; [done|]. intros _ _. split; [lia|done].
    + rewrite Hp. split_and!; [done|by left|]. intros r [= <-]. split; [done|]. done.
  - split_and!; [done|by left|naive_solver].
Qed.

Lemma wp_qualify a (Q : Assessment -> Engine -> Prop) E s :
  (forall a' s', qualified (vit_scores s) a a' (vit_scores s') -> Q a' s') -> wp (qualify a) Q E s.
Proof.
  intros HQ. unfold qualify. do 2 wp_step. pose proof (qualify_spec (vit_scores s) a) as Hq.
  destruct (qualify_rgb_pad_evidence _ a) as [a' ring']. wp_step. wp_step. wp_step. apply HQ. by subst ring'.
Qed.

Record ready (c : PairCapture) (rgb : option RgbFace) (ring : list F32) (a : Assessment) (ring' : list F32) : Prop := {
  rd_used : used_face c rgb;
  rd_signals : signals a = pair_signals c rgb;
  rd_mean : rgb_frame_mean a = pc_rgb_mean c;
  rd_ratio : a_ratio a = ir_center_edge_ratio (pair_signals c rgb);
  rd_split : split_pair a = pc_split c;
  rd_together : sequential_posture a = false -> is_Some rgb -> pc_split c = false /\ pc_skew c <= MAX_CROSS_SPECTRUM_SKEW;
  rd_rgb probe : embedding a = Some probe -> is_Some rgb /\ pc_rgb_embedding c = Ok probe;
  rd_none : embedding a = None -> rgb = None;
  rd_ir probe : ir_embedding a = Some probe -> is_Some (pc_ir c) /\ pc_ir_embedding c = Ok probe;
  rd_ir_pad q : ir_pad a = Score q -> pc_ir_pad c = Some (Ok q) /\ is_finite q = true /\ shipped_ir_fake a = Some q;
  rd_live : verdict a = Live -> (evaluate (pair_signals c rgb)).1.1 = Live
    /\ (forall q, shipped_ir_fake a = Some q -> fge q IR_PAD_THRESHOLD = false);
  rd_vote r : rgb_pad a = Score r -> verdict a = Live ->
    pc_vit c = Some (Ok r) /\ is_finite r = true /\ ring' = ring ++ [r] /\ (VIT_PAD_VOTE_N <= length ring')%nat
    /\ vit_vote_denies ring' = false;
}.

(** A sample empties the votes, keeps them, or adds its own model's answer. *)
Definition grown (c : PairCapture) (ring ring' : list F32) : Prop :=
  ring' = [] \/ ring' = ring \/ exists r, ring' = ring ++ [r] /\ pc_vit c = Some (Ok r).

(** What a preparation may hand on for [c], an assessed pair's or that of a
    pair taken too far apart. *)
Definition prepared (c : PairCapture) (ring : list F32) (p : Prepared) (ring' : list F32) : Prop :=
  grown c ring ring'
  /\ match p with
     | Refused o => granted o = false
     | Ready a => embedding a = None /\ ir_embedding a = None \/ exists rgb, ready c rgb ring a ring'
     end.

Lemma assessed_grown c rgb ring d ring' : assessed c rgb ring d ring' -> ring' = ring \/ exists r, ring' = ring ++ [r] /\ pc_vit c = Some (Ok r).
Proof.
  intros H. destruct (rgb_pad (d_assessment d)) as [| | | |r] eqn:Hp;
    try (left; apply (as_ring _ _ _ _ _ H); by rewrite Hp).
  destruct (as_rgb_pad _ _ _ _ _ H r Hp) as (Hv & _ & -> & _). eauto.
Qed.

Lemma lifted_some r v : lifted r (Some v) -> r = Some (Ok v).
Proof. destruct r as [[x|]|]; simpl; naive_solver. Qed.
Lemma lifted_none r : lifted r None -> r = None.
Proof. by destruct r as [[]|]. Qed.

(** Qualifying and computing the embeddings, in either order. *)
Lemma assessed_ready c rgb ring d ring1 rv iv ev ring2 :
  assessed c rgb ring d ring1 -> lifted (d_rgb d) rv -> lifted (d_ir d) iv ->
  (forall r, ev = Score r -> rgb_pad (d_assessment d) = Score r
     /\ (verdict (d_assessment d) = Live -> is_finite r = true -> (VIT_PAD_VOTE_N <= length ring1)%nat /\ ring2 = ring1)) ->
  ready c rgb ring (with_embeddings rv iv (set_rgb_pad ev (d_assessment d))) ring2.
Proof.
  intros [Hu Hs Hr Hi Hm Hra Hsp Htog Hip Hl Hrp _] Hrv Hiv Hq. split; simpl; try done.
  - intros probe ->. apply lifted_some in Hrv. rewrite Hrv in Hr. destruct rgb; naive_solver.
  - intros ->. apply lifted_none in Hrv. rewrite Hrv in Hr. by destruct rgb.
  - intros probe ->. apply lifted_some in Hiv. rewrite Hiv in Hi. destruct (pc_ir c); naive_solver.
  - intros r Hscore Hlive. destruct (Hq r Hscore) as [Hd Hfull]. destruct (Hrp r Hd) as (Hv & Hf & -> & Hden).
    destruct (Hfull Hlive Hf) as [Hlen ->]. split_and!; auto.
Qed.

Lemma assessed_or_rejected_grown c ring d ring1 ring2 :
  assessed_or_rejected c ring d ring1 -> ring2 = [] \/ ring2 = ring1 -> grown c ring ring2.
Proof. intros [[_ ->]|[rgb H%assessed_grown]]; unfold grown; naive_solver. Qed.

(** The end of both preparations: [a] comes from qualifying and embedding. *)
Lemma prepared_ready c ring d ring1 rv iv ev ring2 :
  assessed_or_rejected c ring d ring1 -> lifted (d_rgb d) rv -> lifted (d_ir d) iv -> ring2 = [] \/ ring2 = ring1 ->
  (forall r, ev = Score r -> rgb_pad (d_assessment d) = Score r
     /\ (verdict (d_assessment d) = Live -> is_finite r = true -> (VIT_PAD_VOTE_N <= length ring1)%nat /\ ring2 = ring1)) ->
  prepared c ring (Ready (with_embeddings rv iv (set_rgb_pad ev (d_assessment d)))) ring2.
Proof.
  intros Hd Hrv Hiv Hl Hq. split.
  { by eapply assessed_or_rejected_grown. }
  destruct Hd as [[[Hr Hi] _]|[rgb Hd]]; [left; rewrite Hr in Hrv; rewrite Hi in Hiv; by destruct rv, iv|right]. eauto using assessed_ready.
Qed.

Lemma steady_scores s s' : steady s s' -> vit_scores s' = vit_scores s.
Proof. by intros []. Qed.

(** Embedding first, then qualifying. *)
Lemma wp_embed_qualify `{World} ad c ring d s :
  assessed_or_rejected c ring d (vit_scores s) ->
  wp (a ← materialize_pair_identity ad d; _ ← check_request_active ad; a ← qualify a; mret (Ready a))
    (fun p s' => prepared c ring p (vit_scores s')) any_error s.
Proof.
  intros Hd. wp_step.
  eapply engine_mono; [apply wp_materialize| |done]. intros a s1 [Hst (rv & iv & Hrv & Hiv & ->)]. do 2 wp_step. wp_step.
  apply wp_qualify. intros a' s3 (Ha' & Hl & Hq). wp_step. rewrite Ha'.
  rewrite (steady_scores s s') in Hq, Hl by steady. eapply prepared_ready; [exact Hd|exact Hrv|exact Hiv|exact Hl|exact Hq].
Qed.

Lemma wp_prepare_ordinary `{World} ad c ring d s :
  assessed_or_rejected c ring d (vit_scores s) ->
  wp (prepare_ordinary ad d) (fun p s' => prepared c ring p (vit_scores s')) any_error s.
Proof.
  intros Hd. unfold prepare_ordinary. do 2 wp_step. apply wp_embed_qualify. by rewrite (steady_scores s s').
Qed.

Lemma wp_prepare_deferring `{World} ad c ring d s :
  assessed_or_rejected c ring d (vit_scores s) ->
  wp (prepare_deferring ad d) (fun p s' => prepared c ring p (vit_scores s')) any_error s.
Proof.
  intros Hd. unfold prepare_deferring. do 2 wp_step. rewrite <- (steady_scores s s') in Hd by done.
  case_match; [|by apply wp_embed_qualify].
  wp_step. apply wp_qualify. intros a' s1 (Ha' & Hl & Hq). destruct (pad_policy_refusal _ _ _) as [o|] eqn:Hpad.
  - do 2 wp_step. wp_step. split; [|by eapply refusal_not_granted].
    rewrite H2. by eapply assessed_or_rejected_grown.
  - wp_step. eapply engine_mono; [apply wp_materialize| |done]. intros a s2 [Hst (rv & iv & Hrv & Hiv & ->)].
    do 2 wp_step. wp_step. cbn [d_rgb d_ir d_assessment] in Hrv, Hiv |- *. rewrite Ha'.
    rewrite (steady_scores s1 s'0) by steady. eapply prepared_ready; [exact Hd|exact Hrv|exact Hiv|exact Hl|exact Hq].
Qed.

(** ** What a grant on a pair rests on *)

Section Evidence.
Context `{Libm} (su : Setup) (enr : Enrollment).

(** The face's measured falloff is not below the account's own. *)
Definition above_floor (ratio : F32) : Prop :=
  forall floor, ir_center_edge_ratio_floor enr = Some floor -> flt ratio floor = false.

(** Both lights: a live face by every cue of the gate, each PAD model's answer
    and a full vote, and templates its embeddings match. *)
Definition lit_evidence (c : PairCapture) (votes : list F32) (lp : LitProbe) (g : LitGrant) : Prop :=
  exists f q r before,
    pc_rgb c = Some f /\ pc_skew c <= skew_limit c
    /\ (evaluate (pair_signals c (pc_rgb c))).1.1 = Live /\ above_floor (ir_center_edge_ratio (pair_signals c (pc_rgb c)))
    /\ pc_ir_pad c = Some (Ok q) /\ is_finite q = true /\ fge q IR_PAD_THRESHOLD = false
    /\ pc_vit c = Some (Ok r) /\ is_finite r = true /\ votes = before ++ [r]
    /\ (VIT_PAD_VOTE_N <= length votes)%nat /\ vit_vote_denies votes = false
    /\ pc_rgb_embedding c = Ok (lp_rgb lp)
    /\ (forall v, lp_ir lp = Some v -> is_Some (pc_ir c) /\ pc_ir_embedding c = Ok v)
    /\ (lp_sequential lp = false -> pc_split c = false /\ pc_skew c <= MAX_CROSS_SPECTRUM_SKEW)
    /\ lit_identity (su_context su) enr lp g.

(** Infrared alone: a live face by every infrared cue in a room that is not
    lit, the infrared PAD model's answer, and templates its embedding matches. *)
Definition dark_evidence (c : PairCapture) : Prop :=
  exists i probe q g,
    pc_ir c = Some i /\ scene_conclusively_lit (pc_rgb_mean c) = false
    /\ (evaluate_ir_only (pair_signals c None)).1.1 = Live /\ above_floor (ir_center_edge_ratio (pair_signals c None))
    /\ pc_ir_pad c = Some (Ok q) /\ is_finite q = true /\ fge q IR_PAD_THRESHOLD = false
    /\ pc_ir_embedding c = Ok probe /\ dark_identity (su_context su) enr probe g.

Lemma above_floor_of a : ir_available su = true -> below_floor su enr a = None -> above_floor (a_ratio a).
Proof.
  unfold below_floor, above_floor. intros -> Hf floor E. rewrite E in Hf. cbn in Hf. by destruct (flt _ _).
Qed.

Lemma ready_evidence c rgb ring a votes :
  ir_available su = true -> ready c rgb ring a votes -> grant_earned su enr a ->
  (exists probe g, embedding a = Some probe /\ lit_evidence c votes (lit_probe a probe) g) \/ dark_evidence c.
Proof.
  intros Hav [Hu Hs Hm Hra Hsp Htog Hrgb Hnone Hir Hip Hl Hvote] Hg.
  destruct Hg as [(probe & He & Hlive & Hfl & [r Hr] & Hi & g & Hid)|(probe & He & Hi & Hsc & Hev & Hfl & [q Hq] & Hfake & g & Hid)].
  - left. destruct (Hrgb probe He) as [[f ->] Hemb]. destruct (Hvote r Hr Hlive) as (Hv & Hfin & Hring & Hlen & Hden).
    destruct (Hi Hav) as [q Hq]. destruct (Hip q Hq) as (Hm1 & Hqf & Hship). destruct (Hl Hlive) as [Hg Hfake].
    destruct Hu as [|[Hrf Hskew]]; [done|]. apply above_floor_of in Hfl; [|done]. rewrite Hra in Hfl. rewrite Hrf in Hg, Hfl.
    exists probe, g. split; [done|]. exists f, q, r, ring. split_and!; eauto.
  - right. rewrite (Hnone He) in *. apply above_floor_of in Hfl; [|done]. rewrite Hra in Hfl. rewrite Hs in Hev. rewrite Hm in Hsc.
    destruct (Hir probe Hi) as [[i Hpc] Hemb]. destruct (Hip q Hq) as (Hm1 & Hqf & Hship).
    exists i, probe, q, g. split_and!; eauto.
Qed.
End Evidence.
