(* ===== verification/CollectTheory.v ===== *)
(** * Attempts and collections, proved

    What a single attempt on a pair, a managed collection and a grouped batch
    guarantee when they grant, and that the votes end with them. *)

From S2P Require Import Prelude Text Float CameraKeys Liveness Templates IdentityArms EngineDecision Engine EngineLoop IdentityTheory DecisionTheory EngineTheory.
From S2P Require Protocol RetryThrottle.

#[local] Opaque lit32 IR_PAD_THRESHOLD VIT_PAD_THRESHOLD evaluate evaluate_ir_only vit_vote_denies.

Lemma wp_window `{World} deadline (Q : bool -> Engine -> Prop) E s :
  (forall s', steady s s' -> ticks s' = S (ticks s) -> Q (bool_decide (deadline <= clock (ticks s))) s') -> wp (past deadline) Q E s.
Proof. intros HQ. apply HQ; [split_and!; simpl; [done|done|lia]|done]. Qed.

Lemma wp_either `{World} (b : bool) d (Q : bool -> Engine -> Prop) E s :
  (forall b s', steady s s' -> Q b s') -> wp (if b then mret true else past_deadline d) Q E s.
Proof. intros HQ. destruct b; [by apply engine_ret, HQ|by apply wp_past]. Qed.

Ltac loop_step :=
  lazymatch goal with
  | |- wp (past _) _ _ _ => apply wp_window; intros ? ? ?
  | |- wp (if bool_decide _ then mret true else past_deadline _) _ _ _ => apply wp_either; intros ? ? ?
  | |- wp (set_situation _) _ _ _ => apply wp_set_situation; intros ? ?
  | |- wp (if bool_decide ?b then _ else _) _ _ _ => case_bool_decide
  | _ => wp_step
  end.

Section Collect.
Context `{World, LibmOk} (sha256_hex : list byte -> str).
Context (su : Setup) (bd : Boundary) (enr : Enrollment) (auth_deadline : option Z).
Context (Hbase : not_negative (dc_rgb_base (su_context su)) = true) (Hir : ir_available su = true).

(** What a grant on the pair [c] rests on. *)
Definition pair_evidence (c : PairCapture) (votes : list F32) : Prop :=
  boundary_stands sha256_hex su bd enr (pc_split c)
  /\ ((exists lp g, lit_evidence su enr c votes lp g) \/ dark_evidence su enr c).

Lemma prepared_evidence c ring a votes :
  prepared c ring (Ready a) votes -> granted (authenticate_qualified_assessment sha256_hex su bd enr a) = true ->
  pair_evidence c votes.
Proof.
  intros [_ Hready] Hg. destruct (qualified_grant_earned _ _ _ _ _ Hbase Hg) as [Hbd He']. clear Hg. rename He' into Hg.
  destruct Hready as [[He Hi]|[rgb Hr]].
  { destruct Hg as [(probe & ? & _)|(probe & _ & ? & _)]; congruence. }
  split; [by rewrite <- (rd_split _ _ _ _ _ Hr)|].
  destruct (ready_evidence su enr c rgb ring a votes Hir Hr Hg) as [(probe & g & _ & Hl)|Hd]; eauto.
Qed.

(** The end of an attempt, for whatever a preparation guarantees. *)
Lemma wp_finish (P : PairCapture -> list F32 -> list F32 -> Prop) m s :
  wp m (fun p s' => exists c ring votes, prepared c ring p votes /\ P c ring votes) any_error s ->
  wp (finish_pair_authentication sha256_hex su bd enr m)
    (fun o s' => granted o = true -> exists c ring votes, P c ring votes /\ pair_evidence c votes) any_error s.
Proof.
  intros Hm. unfold finish_pair_authentication. wp_step. apply wp_on_error.
  eapply engine_mono; [exact Hm| |done]. intros [a|o] s1 (c & ring & votes & Hp & HP).
  - wp_step. wp_step. wp_step. intros Hg. exists c, ring, votes. split; [done|]. by eapply prepared_evidence.
  - wp_step. destruct Hp as [_ Hp]. congruence.
Qed.

(** ** A single attempt *)

Lemma wp_pair_once sample s :
  wp (authenticate_pair_once sha256_hex su bd enr auth_deadline sample)
    (fun o s' => granted o = true -> exists c votes, sample = Ok c /\ grown c (vit_scores s) votes /\ pair_evidence c votes)
    any_error s.
Proof.
  eapply engine_mono; [apply (wp_finish (fun c ring votes => sample = Ok c /\ grown c (vit_scores s) votes))| |done].
  - do 2 wp_step. subst sample. wp_step.
    eapply engine_mono; [apply wp_assess_pair| |done]. intros d s1 Hd.
    eapply engine_mono; [apply (wp_prepare_ordinary _ a (vit_scores s))| |done].
    + exact Hd.
    + intros p s2 Hp. exists a, (vit_scores s), (vit_scores s2). split; [done|]. split; [done|]. apply Hp.
  - intros o s1 Ho Hg. destruct (Ho Hg) as (c & ring & votes & [Hs Hgr] & He). eauto 6.
Qed.

(** ** The managed collection *)

Section Managed.
Context (deadline : Z) (next : nat -> result Error PairCapture) (drained : nat -> result Error ()).

Definition sample_step (i : nat) : M Prepared :=
  c ← lift (next i);
  _ ← check_request_active auth_deadline;
  d ← assess_captured_pair auth_deadline c;
  p ← prepare_deferring auth_deadline d;
  _ ← lift (drained i);
  mret p.

Lemma wp_sample_step i s :
  wp (sample_step i) (fun p s' => exists c, next i = Ok c /\ prepared c (vit_scores s) p (vit_scores s')) any_error s.
Proof.
  unfold sample_step. do 2 wp_step. wp_step. wp_step.
  wp_step. eapply engine_mono; [apply wp_assess_pair| |done]. intros d s1 Hd. rewrite (steady_scores s s') in Hd by done.
  wp_step. eapply engine_mono; [apply (wp_prepare_deferring _ a (vit_scores s))| |done].
  - exact Hd.
  - intros p s2 Hp. do 2 wp_step. wp_step. by exists a.
Qed.

(** A vote is the visible model's answer on a sample of the collection. *)
Definition answered (r : F32) : Prop := exists i c, (i < VIT_PAD_VOTE_N)%nat /\ next i = Ok c /\ pc_vit c = Some (Ok r).

(** [c], the sample with [i] more to come, was assessed on votes of samples before it. *)
Definition collected (c : PairCapture) (votes : list F32) : Prop :=
  exists i, next i = Ok c /\ (i < VIT_PAD_VOTE_N)%nat /\ (length votes + i <= VIT_PAD_VOTE_N)%nat /\ Forall answered votes.

Lemma grown_answered c ring votes i :
  (i < VIT_PAD_VOTE_N)%nat -> next i = Ok c -> grown c ring votes -> Forall answered ring ->
  Forall answered votes /\ (length votes <= S (length ring))%nat.
Proof.
  intros Hi Hn [->|[->|(r & -> & Hv)]] Hr; (split; [|rewrite ?length_app; simpl; lia]); [constructor|done|].
  apply Forall_app. split; [done|]. constructor; [|constructor]. by exists i, c.
Qed.

Lemma wp_collect remaining s :
  (length (vit_scores s) + remaining <= VIT_PAD_VOTE_N)%nat -> Forall answered (vit_scores s) ->
  wp (collect_pending auth_deadline deadline remaining sample_step)
    (fun p s' => exists c ring votes, prepared c ring p votes /\ collected c votes) any_error s.
Proof.
  revert s. induction remaining as [|remaining IH]; intros s Hlen Hans; [done|]. simpl.
  do 4 loop_step. case_bool_decide; [by do 3 loop_step|]. rewrite <- (steady_scores s s'0) in Hlen, Hans by steady.
  loop_step. eapply engine_mono; [apply wp_sample_step| |done]. intros p s1 (c & Hc & Hp).
  assert (Hr : (remaining < VIT_PAD_VOTE_N)%nat) by lia.
  destruct (grown_answered c _ _ remaining Hr Hc (proj1 Hp) Hans) as [Ha Hl].
  assert (Hdone : exists c ring votes, prepared c ring p votes /\ collected c votes).
  { exists c, (vit_scores s'0), (vit_scores s1). split; [done|]. exists remaining. split_and!; [done|done|lia|done]. }
  do 6 loop_step. rewrite <- (steady_scores s1 s'3) in Ha, Hl by steady.
  destruct b, p as [a|o]; [by do 3 loop_step|by loop_step|by loop_step|].
  destruct (kind o); try (by loop_step). destruct remaining as [|remaining]; [by loop_step|].
  apply IH; [lia|done].
Qed.
End Managed.

(** The votes of a collection die with it. *)
Lemma wp_collection {A} (m : M A) (R : A -> Prop) s :
  (forall s0, vit_scores s0 = [] -> wp m (fun a _ => R a) any_error s0) ->
  wp (collection m) (fun a s' => R a /\ vit_scores s' = []) emptied s.
Proof.
  intros Hm. unfold collection. do 4 wp_step. wp_step. apply wp_on_error.
  eapply engine_mono; [apply (Hm s'0)|intros a s1 Ha|done]; [congruence|]. do 2 wp_step. wp_step. done.
Qed.

(** [c], with [i] samples of the collection still to come, grants. *)
Definition managed_evidence (next : nat -> result Error PairCapture) : Prop :=
  exists i c votes, next i = Ok c /\ (i < VIT_PAD_VOTE_N)%nat /\ (length votes + i <= VIT_PAD_VOTE_N)%nat
    /\ Forall (answered next) votes /\ pair_evidence c votes.

Lemma wp_managed deadline armed next drained s :
  wp (authenticate_managed_once sha256_hex su bd enr auth_deadline deadline armed next drained)
    (fun o s' => (granted o = true -> managed_evidence next) /\ vit_scores s' = []) emptied s.
Proof.
  unfold authenticate_managed_once. apply wp_collection. intros s0 Hs0. wp_step. apply wp_catch.
  set (ok := fun p => exists c ring votes, prepared c ring p votes /\ collected next c votes).
  assert (Hinner : wp (_ ← check_request_active auth_deadline; _ ← lift armed;
      collection (collect_pending auth_deadline deadline VIT_PAD_VOTE_N (sample_step next drained)))
      (fun p s => ok p) any_error s0).
  { do 4 wp_step. eapply engine_mono; [apply (wp_collection _ ok)|by intros ? ? []|done].
    intros s1 Hs1. eapply engine_mono; [apply (wp_collect deadline next drained VIT_PAD_VOTE_N)|done|done];
      rewrite Hs1; [done|constructor]. }
  assert (Hend : forall r s1, (forall p, r = Ok p -> ok p) ->
    wp (finish_pair_authentication sha256_hex su bd enr (lift r)) (fun o _ => granted o = true -> managed_evidence next) any_error s1).
  { intros r s1 Hr. eapply engine_mono; [apply (wp_finish (fun c _ votes => collected next c votes))| |done].
    - apply wp_lift; [|done]. intros p Hp. destruct (Hr p Hp) as (c & ring & votes & ?). eauto.
    - intros o s2 Ho Hg. destruct (Ho Hg) as (c & _ & votes & (i & Hi & Hlt & Hl & Ha) & He). by exists i, c, votes. }
  eapply engine_mono; [exact Hinner| |].
  - intros p s1 Hp. assert (Hok : forall q, Ok (E := Error) p = Ok q -> ok q) by (by intros q [= <-]).
    do 2 wp_step. destruct p as [a|o]; [do 2 wp_step|do 2 wp_step]; by apply Hend.
  - intros e s1 _. do 4 wp_step. by apply Hend.
Qed.

(** ** The grouped batch *)

Definition marked (d : DeferredAssessment) : DeferredAssessment :=
  MkDeferred (mark_sequential GroupPair (d_assessment d)) (d_rgb d) (d_ir d).

Lemma marked_assessed c ring d ring' : assessed_or_rejected c ring d ring' -> assessed_or_rejected c ring (marked d) ring'.
Proof.
  intros [Hnone|[rgb [Hu Hs Hr Hi Hm Hra Hsp Htog Hip Hl Hrp Hno]]]; [by left|right]. exists rgb. split; try done.
  unfold sequential_posture in *. simpl. intros Hseq Hrgb. apply Htog; [|done].
  destruct (sequential_pair (d_assessment d)); [done|]. by destruct (split_pair (d_assessment d)); rewrite ?orb_true_r in Hseq.
Qed.

(** With a visible face in use, a group's pair is marked sequential. *)
Lemma marked_sequential c ring d ring' :
  assessed_or_rejected c ring d ring' -> is_Some (d_rgb d) ->
  sequential_posture (d_assessment (marked d)) = true.
Proof.
  intros [[[Hr _] _]|[rgb Hd]] [x Hx]; [congruence|]. unfold sequential_posture. simpl.
  rewrite (as_signals _ _ _ _ _ Hd). rewrite (as_rgb _ _ _ _ _ Hd) in Hx. destruct rgb as [f|]; [|done].
  simpl rgb_face. by rewrite orb_true_r.
Qed.

Lemma group_refuses a o : grouped_evidence_refusal bd a = Some o -> granted o = false.
Proof.
  assert (Hpad : forall m req ev, refuses (execution_failure m req ev)).
  { intros m req ev o'. unfold execution_failure. destruct ev; simpl; repeat case_match; intros; by simplify_eq. }
  assert (Hpol : forall req x y, refuses (pad_policy_refusal req x y)).
  { intros req x y o'. apply refusal_not_granted. }
  revert o. unfold grouped_evidence_refusal. repeat apply or_else_refuses; auto.
  - intros o. unfold split_evidence_refusal. repeat case_match; intros; by simplify_eq.
  - destruct (_ || _); [by intros o [= <-]|]. case_match; [apply Hpol|]. case_match; [by intros o [= <-]|].
    case_match; [by intros o [= <-]|]. destruct (evaluate_ir_only _) as [[v cues] why].
    case_match; [by intros o [= <-]|]. apply or_else_refuses; [apply Hpol|]. intros o. case_match; intros; by simplify_eq.
Qed.

Definition grouped_ready (P : F32 -> Prop) (cs : list PairCapture) (p : Prepared) (votes : list F32) : Prop :=
  match p with
  | Refused o => granted o = false
  | Ready a => exists before c ring, cs = before ++ [c] /\ prepared c ring (Ready a) votes /\ Forall P votes
                 /\ (is_Some (embedding a) -> sequential_posture a = true)
  end.

Lemma grouped_ready_cons P c cs p votes : grouped_ready P cs p votes -> grouped_ready P (c :: cs) p votes.
Proof. destruct p; [|done]. intros (before & c' & ring & -> & H'). by exists (c :: before), c', ring. Qed.

Lemma grown_all P c ring votes :
  grown c ring votes -> (forall r, pc_vit c = Some (Ok r) -> P r) -> Forall P ring -> Forall P votes.
Proof. intros [->|[->|(r & -> & Hv)]] Hc Hr; [constructor|done|]. apply Forall_app. auto using Forall_cons, Forall_nil. Qed.

Lemma wp_samples P deadline cs index s :
  (index + length cs = VIT_PAD_VOTE_N)%nat ->
  (forall c r, c ∈ cs -> pc_vit c = Some (Ok r) -> P r) -> Forall P (vit_scores s) ->
  wp (evaluate_samples bd auth_deadline GroupPair deadline index (map (assess_captured_pair auth_deadline) cs))
    (fun p s' => grouped_ready P cs p (vit_scores s')) any_error s.
Proof.
  revert index s. induction cs as [|c cs IH]; intros index s Hlen HP Hs; simpl; [done|].
  do 4 loop_step. case_bool_decide; [by loop_step|].
  loop_step. eapply engine_mono; [apply wp_assess_pair| |done]. intros d s1 Hd.
  do 6 loop_step. case_bool_decide; [by loop_step|].
  assert (Hs3 : vit_scores s'3 = vit_scores s1) by (rewrite (steady_scores s'2 s'3), H7 by done; by apply steady_scores).
  rewrite (steady_scores s s'0) in Hd by steady. rewrite <- Hs3 in Hd.
  change (MkAssessment _ _ _ _ _ _ _ _ _ _ _ _ _ _) with (d_assessment (marked d)).
  pose proof (marked_assessed _ _ _ _ Hd) as Hmd. pose proof (marked_sequential _ _ _ _ Hd) as Hseq.
  clear -IH Hlen HP Hs Hd Hmd Hseq Hbase Hir. loop_step. apply wp_qualify. intros a s4 (Ha & Hgrown & Hq).
  assert (Hs4 : Forall P (vit_scores s4)).
  { eapply grown_all; [by eapply assessed_or_rejected_grown| |done]. intros r. apply HP. set_solver. }
  assert (Hnext : (S index <> VIT_PAD_VOTE_N)%nat ->
    wp (evaluate_samples bd auth_deadline GroupPair deadline (S index) (map (assess_captured_pair auth_deadline) cs))
      (fun p s' => grouped_ready P (c :: cs) p (vit_scores s')) any_error s4).
  { intros Hi. eapply engine_mono; [apply IH; [simpl in Hlen; lia| |done]|intros; by apply grouped_ready_cons|done].
    intros; eapply HP; [|done]. set_solver. }
  destruct (grouped_evidence_refusal bd a) as [o|] eqn:Hr; case_bool_decide; simpl.
  - loop_step. by eapply group_refuses.
  - case_match; [|by apply Hnext]. loop_step. by eapply group_refuses.
  - assert (cs = []) as -> by (apply length_zero_iff_nil; simpl in Hlen; lia).
    do 4 loop_step. case_bool_decide; [by loop_step|].
    loop_step. eapply engine_mono; [apply wp_materialize| |done]. intros a0 s5 [Hst (rv & iv & Hrv & Hiv & ->)].
    do 4 loop_step. case_bool_decide; [by loop_step|]. loop_step. cbn [d_rgb d_ir d_assessment] in Hrv, Hiv |- *.
    rewrite (steady_scores s4 s'2) by steady.
    exists [], c, (vit_scores s). rewrite Ha. split_and!; [done| |done|].
    + eapply prepared_ready; [exact Hmd|exact Hrv|exact Hiv|exact Hgrown|exact Hq].
    + intros [x Hx]. simpl in Hx. subst rv. apply lifted_some in Hrv. by apply Hseq; eexists.
  - by apply Hnext.
Qed.

(** ** Its end *)

Definition infrared_grant (g : LitGrant) : Prop :=
  match g with LitFallbackGrant _ _ | LitCentroidGrant _ _ => True | _ => False end.

(** [pair_evidence] where the visible face does not identify anybody. *)
Definition infrared_evidence (c : PairCapture) (votes : list F32) : Prop :=
  boundary_stands sha256_hex su bd enr (pc_split c)
  /\ ((exists lp g, lit_evidence su enr c votes lp g /\ infrared_grant g) \/ dark_evidence su enr c).

Lemma sequential_is_infrared c votes lp g :
  lit_evidence su enr c votes lp g -> lp_sequential lp = true -> infrared_grant g.
Proof.
  intros (f & q & r & before & He) Hseq. destruct He as (_&_&_&_&_&_&_&_&_&_&_&_&_&_&_& Hid).
  destruct g; simpl in Hid |- *; try done; destruct Hid as [Hid _]; congruence.
Qed.

Lemma prepared_infrared c ring a votes :
  prepared c ring (Ready a) votes -> (is_Some (embedding a) -> sequential_posture a = true) ->
  granted (authenticate_qualified_assessment sha256_hex su bd enr a) = true -> infrared_evidence c votes.
Proof.
  intros [_ Hready] Hseq Hg. destruct (qualified_grant_earned _ _ _ _ _ Hbase Hg) as [Hbd He].
  destruct Hready as [[He1 He2]|[rgb Hr]].
  { destruct He as [(probe & ? & _)|(probe & _ & ? & _)]; congruence. }
  split; [by rewrite <- (rd_split _ _ _ _ _ Hr)|].
  destruct (ready_evidence su enr c rgb ring a votes Hir Hr He) as [(probe & g & Hemb & Hl)|Hd]; [left|by right].
  exists (lit_probe a probe), g. split; [done|]. eapply sequential_is_infrared; [exact Hl|]. simpl. apply Hseq. by eexists.
Qed.

(** The visible model's answer on one of [cs]. *)
Definition answer_of (cs : list PairCapture) (r : F32) : Prop := exists c, c ∈ cs /\ pc_vit c = Some (Ok r).

(** Five pairs, the last of which grants, decided before the deadline. *)
Definition grouped_grant (deadline : Z) (cs : list PairCapture) (s' : Engine) : Prop :=
  exists before c votes, cs = before ++ [c] /\ length cs = VIT_PAD_VOTE_N /\ Forall (answer_of cs) votes
    /\ infrared_evidence c votes /\ exists k, ticks s' = S k /\ clock k < deadline.

Lemma wp_grouped_samples deadline cs s :
  wp (evaluate_grouped_samples_ex bd auth_deadline GroupPair deadline (map (assess_captured_pair auth_deadline) cs))
    (fun p s' => (length cs = VIT_PAD_VOTE_N /\ exists votes, grouped_ready (answer_of cs) cs p votes)
                 /\ match p with Refused _ => vit_scores s' = [] | _ => True end) emptied s.
Proof.
  unfold evaluate_grouped_samples_ex. do 5 loop_step. apply wp_on_error.
  assert (Hs : vit_scores s'0 = []) by congruence.
  do 2 loop_step. rewrite length_map. case_bool_decide as Hlen; simpl; [|done].
  eapply engine_mono; [apply (wp_samples (answer_of cs))|intros p s2 Hp|done].
  - exact Hlen.
  - intros c r Hc Hv. by exists c.
  - rewrite (steady_scores s'0 s'1), Hs by done. constructor.
  - destruct p as [a|o]; repeat loop_step; eauto.
Qed.

Lemma wp_grouped deadline batch s :
  wp (authenticate_grouped_once sha256_hex su bd enr auth_deadline GroupPair deadline
        (map (assess_captured_pair auth_deadline) <$> batch))
    (fun o s' => (granted o = true -> exists cs, batch = Ok cs /\ grouped_grant deadline cs s') /\ vit_scores s' = [])
    emptied s.
Proof.
  unfold authenticate_grouped_once. do 6 loop_step.
  assert (Hs : vit_scores s'1 = []) by (rewrite (steady_scores s'0 s'1) by done; congruence).
  case_bool_decide; [by loop_step|]. loop_step.
  destruct batch as [cs|e]; [|done]. apply engine_ret.
  loop_step. eapply engine_mono; [apply wp_grouped_samples| |done]. intros p s2 [[Hlen (votes & Hp)] Hv].
  destruct p as [a|o]; simpl.
  - do 2 loop_step. destruct (bool_decide _); [by do 3 loop_step|]. do 4 loop_step. loop_step. split; [|rewrite (steady_scores s'3 s'4); done].
    case_bool_decide as Hlate; [done|]. intros Hg. exists cs. split; [done|].
    destruct Hp as (before & c & ring & -> & Hp & Hall & Hseq).
    exists before, c, votes. split_and!; [done|done|done|by eapply prepared_infrared|].
    eexists. split; [eassumption|]. lia.
  - loop_step. split; [|done]. simpl in Hp. congruence.
Qed.
End Collect.
