(* ===== verification/LoopTheory.v ===== *)
(** * The retry loop, proved

    One round of [authentication_attempt_loop_with] in terms of its attempt,
    and what the rounds of a request add up to. *)

From S2P Require Import Prelude Text Float CameraKeys Liveness Templates IdentityArms EngineDecision Engine EngineLoop EngineTheory.
From S2P Require Protocol RetryThrottle.

(** Some reading of the clock between two states was before the deadline. *)
Definition read_before `{World} (deadline : Z) (s s' : Engine) : Prop :=
  exists k, (ticks s <= k < ticks s')%nat /\ clock k < deadline.

(** A measured release took no negative time. *)
Definition valid (s : Engine) : Prop := forall c, last_release_cost s = Some c -> 0 <= c.

Definition later (s s' : Engine) : Prop := (ticks s <= ticks s')%nat /\ (valid s -> valid s').
#[export] Instance later_preorder : PreOrder later.
Proof. split; [by intros s|]. intros s1 s2 s3 [] []. split; [lia|auto]. Qed.

(** Between its attempts a request leaves the votes as they were, or empties them. *)
Definition quiet (s s' : Engine) : Prop := later s s' /\ (vit_scores s' = [] \/ vit_scores s' = vit_scores s).
#[export] Instance quiet_preorder : PreOrder quiet.
Proof.
  split; [by intros s; split; [|right]|]. intros s1 s2 s3 [? H12] [? H23]. split; [by etrans|].
  destruct H23 as [H23|H23]; [by left|]. rewrite H23. exact H12.
Qed.
Lemma quiet_later s s' : quiet s s' -> later s s'.
Proof. by intros []. Qed.
#[export] Hint Resolve quiet_later : core.

Ltac weaken := repeat match goal with H : quiet _ _ |- _ => apply quiet_later in H end.
Ltac later_step := weaken; unfold later, valid in *; simpl in *; intuition (auto; lia).
(** A step, or one after the steps of the context. *)
Ltac later :=
  lazymatch goal with
  | |- quiet _ _ =>
      solve [repeat first [eassumption | reflexivity | solve [split; [later_step|simpl; auto]] | etrans; [eassumption|]]]
  | |- _ => later_step
  end.

Lemma read_before_mono `{World} deadline s1 s2 s3 s4 :
  read_before deadline s2 s3 -> later s1 s2 -> later s3 s4 -> read_before deadline s1 s4.
Proof. intros (k & Hk & Hc) [] []. exists k. split; [lia|done]. Qed.

(** The two errors a check of the request raises. *)
Definition cut_short (e : Error) : Prop := e = PREEMPTED \/ e = Protocol.Error.DeadlineExpired.

Section Steps.
Context `{World} (auth_deadline : option Z).

Definition before_auth_deadline (s s' : Engine) : Prop := forall d, auth_deadline = Some d -> read_before d s s'.

Lemma later_past d (Q : bool -> Engine -> Prop) E s :
  (forall s', quiet s s' -> Q true s') -> (forall s', quiet s s' -> read_before d s s' -> Q false s') -> wp (past d) Q E s.
Proof.
  intros HT HF. apply engine_bind. unfold wp at 1, now. apply engine_ret. case_bool_decide as Hd.
  - apply HT. later.
  - apply HF; [later|]. exists (ticks s). simpl. split; lia.
Qed.

Lemma later_cancelled (Q : () -> Engine -> Prop) (E : Error -> Engine -> Prop) s :
  (forall s', quiet s s' -> Q () s') -> (forall e s', quiet s s' -> cut_short e -> E e s') -> wp check_request_cancelled Q E s.
Proof.
  intros HQ HE. apply engine_bind. unfold wp, poll. cbn. destruct (request_cancelled (polls s)); cbn.
  - apply HE; [later|by left].
  - apply HQ. later.
Qed.

Lemma later_past_auth (Q : bool -> Engine -> Prop) E s :
  (forall s', quiet s s' -> Q true s') -> (forall s', quiet s s' -> before_auth_deadline s s' -> Q false s') ->
  wp (past_deadline auth_deadline) Q E s.
Proof.
  intros HT HF. unfold past_deadline. destruct auth_deadline as [d|] eqn:Ed.
  - apply later_past; [done|]. intros s' Hl Hr. apply HF; [done|]. unfold before_auth_deadline. rewrite Ed. by intros ? [= <-].
  - apply engine_ret, HF; [later|]. unfold before_auth_deadline. by rewrite Ed.
Qed.

Lemma later_active (Q : () -> Engine -> Prop) (E : Error -> Engine -> Prop) s :
  (forall s', quiet s s' -> before_auth_deadline s s' -> Q () s') ->
  (forall e s', quiet s s' -> cut_short e -> E e s') -> wp (check_request_active auth_deadline) Q E s.
Proof.
  intros HQ HE. apply engine_bind, later_cancelled; [|done]. intros s1 H1. apply engine_bind, later_past_auth; intros s2 H2.
  - apply HE; [later|by right].
  - intros Hr. apply engine_ret, HQ; [by etrans|]. intros d Hd. eapply read_before_mono; [by apply Hr|later|later].
Qed.

Lemma later_completed r (Q : () -> Engine -> Prop) (E : Error -> Engine -> Prop) s :
  (forall s', quiet s s' -> (forall o, r = Ok o -> granted o = true -> before_auth_deadline s s') -> Q () s') ->
  (forall e s', quiet s s' -> cut_short e -> E e s') -> wp (check_completed_attempt auth_deadline r) Q E s.
Proof.
  intros HQ HE. destruct r as [o|e]; simpl; [destruct (granted o) eqn:Hg|].
  - apply later_active; [|done]. intros s' Hl Hr. by apply HQ.
  - apply engine_bind, later_cancelled; [|done]. intros s1 H1.
    assert (Hno : forall s', forall o', Ok (E := Error) o = Ok o' -> granted o' = true -> before_auth_deadline s s')
      by (intros s' o' [= <-]; congruence).
    apply engine_bind, later_past_auth; intros s2 H2.
    + unfold wp, set_scores. apply HQ; [later|by apply Hno].
    + intros _. apply engine_ret, HQ; [later|by apply Hno].
  - apply later_active; [|done]. intros s' Hl Hr. apply HQ; [done|]. by intros.
Qed.

Lemma later_note k o (Q : () -> Engine -> Prop) E s :
  (forall s', quiet s s' -> Q () s') -> wp (note_situation k o) Q E s.
Proof. intros HQ. apply HQ. later. Qed.

Lemma later_release deferred (Q : () -> Engine -> Prop) E s :
  (forall s', quiet s s' -> Q () s') -> wp (release_deferred deferred) Q E s.
Proof.
  intros HQ. destruct deferred; apply HQ; [|later]. split; [|by right]. split; [simpl; lia|]. unfold valid. simpl. intros Hv c [= <-].
  pose proof (sat_sub_nonneg (clock (S (ticks s))) (clock (ticks s))). destruct (last_release_cost s); lia.
Qed.
End Steps.

(** An attempt of the loop takes time forwards. *)
Definition forward (a : Attempt) : Prop := forall s, later s (a s).2.

(** What ends a round without ending the request. *)
Definition inconclusive (r : result Error Outcome) : bool :=
  match r with Ok o => presence_retryable o | Err e => is_unreported e end.

(** ** One round *)

Section Round.
Context `{World} (auth_deadline : option Z) (window deadline : Z).

(** Another attempt as long as one that began at one reading and ended at the
    next still fits before the deadline. *)
Definition fits (cost : Z) (s s' : Engine) : Prop := exists k, (ticks s <= k < ticks s')%nat /\ cost <= sat_sub deadline (clock k).

(** The round ends the request: cut short, or with the attempt's own result;
    a grant only with the clock read before the deadlines since. *)
Definition final (r x : result Error Outcome) (s s' : Engine) : Prop :=
  (exists e, r = Err e /\ cut_short e)
  \/ r = x /\ forall o, r = Ok o -> granted o = true ->
       before_auth_deadline auth_deadline s s' /\ (window <> 0 -> read_before deadline s s').

(** The round is followed by another: its attempt was inconclusive, and one
    more as costly fits. *)
Definition retried (x : result Error Outcome) (st st' : LoopState) (s s' : Engine) : Prop :=
  inconclusive x = true /\ fits (costliest_capture st) s s'
  /\ match x with
     | Ok _ => unreported_retried st' = unreported_retried st
     | Err _ => unreported_retried st = false /\ unreported_retried st' = true
     end.

Lemma later_fit estimate (Q : bool -> Engine -> Prop) E s :
  (forall s', quiet s s' -> Q true s') ->
  (forall s', quiet s s' -> (exists k, (ticks s <= k < ticks s')%nat /\ estimate <= sat_sub deadline (clock k)) -> Q false s') ->
  wp (wont_fit deadline estimate) Q E s.
Proof.
  intros HT HF. unfold wont_fit. apply engine_bind. unfold wp at 1, now. apply engine_ret. case_bool_decide as Hd.
  - apply HT. later.
  - apply HF; [later|]. exists (ticks s). simpl. split; [lia|lia].
Qed.

Lemma wp_estimate deferred st (Q : Z -> Engine -> Prop) E s :
  valid s -> (forall n, costliest_capture st <= n -> Q n s) -> wp (retry_estimate deferred st) Q E s.
Proof.
  intros Hv HQ. apply HQ. unfold RELEASE_ALLOWANCE_FLOOR. destruct deferred; [|lia].
  destruct (last_release_cost s) as [c|] eqn:Hc; simpl; [specialize (Hv c Hc)|]; lia.
Qed.

Lemma wp_pay started deferred st (Q : LoopState -> Engine -> Prop) E s :
  (forall st' s', quiet s s' -> results st' = results st -> unreported_retried st' = unreported_retried st -> Q st' s') ->
  wp (pay_round started deferred st) Q E s.
Proof.
  intros HQ. apply engine_bind, later_release. intros s1 H1. apply engine_bind. unfold wp at 1, now. apply engine_ret. apply HQ; [|done|done].
  etrans; [exact H1|later].
Qed.

Lemma fits_mono cost cost' s1 s2 s3 s4 :
  (exists k, (ticks s2 <= k < ticks s3)%nat /\ cost <= sat_sub deadline (clock k)) -> cost' <= cost -> later s1 s2 -> later s3 s4 ->
  fits cost' s1 s4.
Proof. intros (k & Hk & Hc) Hle [] []. exists k. split; lia. Qed.

(** The end of a round whose attempt failed. *)
Lemma wp_settle_error started e held deferred st s :
  valid s ->
  wp (settle_error window deadline started e held deferred st)
    (fun t s' => quiet s s' /\ match t with
       | Settled r _ _ st' => st' = st /\ r = Err e
       | Again st' => results st' = results st /\ retried (Err e) st st' s s'
       end) (fun _ _ => False) s.
Proof.
  intros Hv. unfold settle_error. set (stop_trying := mbind _ (release_deferred deferred)).
  assert (Hgive : forall s1, quiet s s1 -> wp stop_trying
    (fun t s' => quiet s s' /\ match t with
       | Settled r _ _ st' => st' = st /\ r = Err e
       | Again st' => results st' = results st /\ retried (Err e) st st' s s'
       end) (fun _ _ => False) s1).
  { intros s1 H1. apply engine_bind, later_release. intros s2 H2. apply engine_ret. split; [by etrans|done]. }
  destruct (is_unreported e && _ && _) eqn:Hc; [|by apply Hgive].
  apply andb_true_iff in Hc as [Hc Hu%negb_true_iff]. apply andb_true_iff in Hc as [He _].
  apply engine_bind, wp_estimate; [done|]. intros estimate Hest. apply engine_bind, later_fit; [by intros; apply Hgive|].
  intros s1 H1 Hfit. apply engine_bind, wp_pay. intros st' s2 H2 Hr Hun. apply engine_ret. split; [by etrans|]. split; [done|].
  split_and!; [exact He|eapply fits_mono; [exact Hfit|exact Hest|later|later]|done|done].
Qed.

(** The end of a round whose attempt gave an outcome. *)
Lemma wp_settle_outcome started o deferred st s0 s :
  valid s -> quiet s0 s -> (granted o = true -> before_auth_deadline auth_deadline s0 s) ->
  wp (settle_outcome window deadline started o deferred st)
    (fun t s' => quiet s s' /\ match t with
       | Settled r _ _ st' => st' = st /\ final r (Ok o) s0 s'
       | Again st' => results st' = results st /\ retried (Ok o) st st' s s'
       end) (fun _ _ => False) s.
Proof.
  intros Hv H0 Hauth. unfold settle_outcome.
  apply engine_bind, wp_estimate; [done|]. intros estimate _.
  assert (Hkind : forall Q E, (forall k s', quiet s s' -> Q k s') -> wp (situation_kind window deadline estimate o) Q E s).
  { intros Q E HQ. unfold situation_kind. destruct (kind o); try (by apply HQ; later).
    case_bool_decide as Hw; [by apply HQ; later|]. apply engine_bind, later_past; intros s1 H1.
    - apply engine_bind, engine_ret. by apply engine_ret, HQ.
    - intros _. apply engine_bind, later_fit; intros s2 H2; [|intros _]; apply engine_ret, HQ; by etrans. }
  apply engine_bind, Hkind. intros k s1 H1. apply engine_bind, later_note. intros s2 H2.
  assert (Hv2 : valid s2) by later.
  assert (Hfinal : forall s3, quiet s2 s3 -> (granted o = true -> window <> 0 -> read_before deadline s2 s3) ->
    quiet s s3 /\ st = st /\ final (Ok o) (Ok o) s0 s3).
  { intros s3 H3 Hread. split; [later|]. split; [done|]. right. split; [done|]. intros ? [= <-] Hg. split.
    - intros d Hd. eapply read_before_mono; [by apply Hauth|reflexivity|later].
    - intros Hw. eapply read_before_mono; [by apply Hread|later|reflexivity]. }
  apply engine_bind, later_past; intros s3 H3.
  - rewrite andb_true_r. destruct (negb (bool_decide (window = 0)) && granted o) eqn:Hc.
    + apply engine_bind, later_release. intros s4 H4. do 2 (apply engine_bind; unfold wp at 1, set_scores, set_situation).
      apply engine_ret. split; [later|]. split; [done|]. left. eexists. split; [done|by right].
    + rewrite orb_true_r. apply engine_ret. apply Hfinal; [done|]. intros Hg Hw. rewrite Hg, andb_true_r in Hc.
      by apply negb_false_iff, bool_decide_eq_true_1 in Hc.
  - intros Hread. rewrite andb_false_r, orb_false_r. destruct (presence_retryable o) eqn:Hp; simpl.
    + apply engine_bind, wp_estimate; [later|]. intros estimate' Hest.
      apply engine_bind, later_fit; intros s4 H4.
      * apply engine_ret, Hfinal; [later|]. intros _ _. eapply read_before_mono; [done|reflexivity|later].
      * intros Hfit. apply engine_bind, wp_pay. intros st' s5 H5 Hr Hun. apply engine_ret. split; [later|]. split; [done|].
        split_and!; [done| |done]. eapply fits_mono; [done|done|later|later].
    + apply engine_ret, Hfinal; [done|]. by intros.
Qed.

Lemma later_run (attempt : Attempt) (Q : result Error Outcome * bool * bool -> Engine -> Prop) E s :
  (forall x s', attempt s = (x, s') -> Q x s') -> wp (run_attempt attempt) Q E s.
Proof. intros HQ. unfold wp, run_attempt. destruct (attempt s) as [x s']. by apply HQ. Qed.

(** What a round did, for a request that was at [s] in state [st]. *)
Definition turned (attempt : Attempt) (st : LoopState) (s : Engine) (t : Turn) (s' : Engine) : Prop :=
  later s s'
  /\ ((exists r h d, t = Settled r h d st /\ exists e, r = Err e /\ cut_short e)
      \/ exists s1 x s2 st1 k, attempt s1 = (x, s2) /\ (ticks s <= k < ticks s1)%nat /\ quiet s s1 /\ quiet s2 s'
           /\ results st1 = x.1.1 :: results st /\ unreported_retried st1 = unreported_retried st
           /\ match t with
              | Settled r _ _ st' => results st' = results st1 /\ final r x.1.1 s2 s'
              | Again st' => results st' = results st1 /\ retried x.1.1 st1 st' s2 s'
                  /\ exists k', (ticks s2 <= k')%nat /\ sat_sub (clock k') (clock k) <= costliest_capture st1
              end).

Lemma wp_round attempt st s :
  valid s -> forward attempt ->
  wp (round auth_deadline window deadline attempt st) (turned attempt st s) (fun _ _ => False) s.
Proof.
  intros Hv Hfw. unfold round. apply engine_bind, wp_catch, later_active.
  2: { intros e s1 H1 He. apply engine_ret. split; [later|]. left. eauto 8. }
  intros s1 H1 _. apply engine_bind.
  assert (Hlate : forall (Q : bool -> Engine -> Prop) E, (forall b s', quiet s1 s' -> Q b s') ->
    wp (if bool_decide (window = 0) then mret false else past deadline) Q E s1).
  { intros Q E HQ. case_bool_decide as Hw; [by apply engine_ret, HQ|apply later_past; auto]. }
  apply Hlate. clear Hlate. intros late s2 H2. destruct late.
  { do 2 (apply engine_bind; unfold wp at 1, set_scores, set_situation). apply engine_ret. split; [later|]. left.
    do 3 eexists. split; [done|]. eexists. split; [done|by right]. }
  apply engine_bind. unfold wp at 1, now. set (s3 := MkEngine _ _ _ _ _ _). apply engine_bind, later_run. intros [[r held] deferred] s4 Ha.
  assert (H4 : later s3 s4) by (pose proof (Hfw s3) as Hf; by rewrite Ha in Hf).
  assert (H3 : quiet s2 s3 /\ ticks s3 = S (ticks s2)) by (split; [later|done]). destruct H3 as [H3 Ht3].
  apply engine_bind, wp_catch, later_completed.
  2: { intros e s5 H5 He. apply engine_bind, later_release. intros s6 H6. apply engine_ret. split; [later|]. right.
    exists s3, (r, held, deferred), s4, (log_result r st), (ticks s2). split_and!; try done; [later|lia|later|later|].
    left. eauto. }
  intros s5 H5 Hauth. apply engine_bind. unfold wp at 1, now. set (s6 := MkEngine _ _ _ _ _ _).
  assert (H6 : quiet s5 s6) by later.
  set (st1 := grow_capture _ _).
  assert (Hcost : sat_sub (clock (ticks s5)) (clock (ticks s2)) <= costliest_capture st1) by (unfold st1; simpl; lia).
  assert (Hr1 : results st1 = r :: results st /\ unreported_retried st1 = unreported_retried st) by done.
  destruct Hr1 as [Hr1 Hu1]. clearbody st1 s3 s6.
  assert (Hv6 : valid s6) by (by apply H6, H5, H4, H3, H2, H1).
  assert (H03 : quiet s s3) by (etrans; [exact H1|]; etrans; [exact H2|exact H3]).
  assert (H46 : quiet s4 s6) by (etrans; [exact H5|exact H6]).
  assert (Hk : (ticks s <= ticks s2 < ticks s3)%nat) by (destruct H1 as [[] _], H2 as [[] _]; lia).
  assert (Hk' : (ticks s4 <= ticks s5)%nat) by (by destruct H5 as [[] _]).
  assert (Hwrap : forall t s7, quiet s6 s7 ->
    match t with
    | Settled r' _ _ st' => st' = st1 /\ final r' r s4 s7
    | Again st' => results st' = results st1 /\ retried r st1 st' s4 s7
    end -> turned attempt st s t s7).
  { intros t s7 H7 Ht. split; [etrans; [apply H03|]; etrans; [exact H4|]; etrans; [apply H46|apply H7]|]. right.
    exists s3, (r, held, deferred), s4, st1, (ticks s2). split_and!; try done; try lia; [etrans; [exact H46|exact H7]|].
    destruct t as [r' ? ? st'|st']; [by destruct Ht as [-> ?]|]. destruct Ht as [-> ?]. split_and!; eauto. }
  destruct r as [o|e].
  - eapply engine_mono; [apply (wp_settle_outcome _ _ _ _ s4 s6)|intros t s7 [H7 Ht]|done]; [done|done| |].
    + intros Hg d Hd. eapply read_before_mono; [by apply (Hauth o eq_refl Hg)|reflexivity|later].
    + apply Hwrap; [done|]. destruct t; [done|]. destruct Ht as [? (?&?&?)]. split; [done|]. split; [done|]. split; [|done].
      eapply fits_mono; [done|lia|apply H46|reflexivity].
  - eapply engine_mono; [apply wp_settle_error; done|intros t s7 [H7 Ht]|done].
    apply Hwrap; [done|]. destruct t.
    + destruct Ht as [-> ->]. split; [done|]. right. split; [done|]. by intros.
    + destruct Ht as [? (?&?&?)]. split; [done|]. split; [done|]. split; [|done].
      eapply fits_mono; [done|lia|apply H46|reflexivity].
Qed.
End Round.

(** ** The rounds of a request *)

Definition is_error (r : result Error Outcome) : bool := match r with Err _ => true | Ok _ => false end.
Definition errors (l : list (result Error Outcome)) : nat := length (List.filter is_error l).

(** All results but the last were inconclusive, one of them at most an error,
    and the request's result is the last one or a check's. *)
Definition one_verdict (r : result Error Outcome) (rs : list (result Error Outcome)) : Prop :=
  Forall (fun x => inconclusive x = true) (list.tail rs) /\ (errors (list.tail rs) <= 1)%nat
  /\ ((exists e, r = Err e /\ cut_short e) \/ exists earlier, rs = r :: earlier).

Section Rounds.
Context `{World} (auth_deadline : option Z) (window deadline : Z) (attempts : nat -> Attempt).
Context (Hforward : forall i, forward (attempts i)).

Abbreviation loop := (attempt_loop auth_deadline).

Lemma loop_results fuel i st s r h d st' s' :
  valid s -> loop fuel window deadline attempts i st s = Some (r, h, d, st', s') ->
  exists new, results st' = new ++ results st /\ Forall (fun x => inconclusive x = true) (list.tail new)
    /\ (errors (list.tail new) + (if unreported_retried st then 1 else 0) <= 1)%nat
    /\ ((exists e, r = Err e /\ cut_short e) \/ exists earlier, new = r :: earlier).
Proof.
  revert i st s. induction fuel as [|fuel IH]; intros i st s Hv Hloop; [done|]. simpl in Hloop.
  pose proof (wp_round auth_deadline window deadline (attempts i) st s Hv (Hforward i)) as Hround. unfold wp in Hround.
  destruct (round _ _ _ _ _ s) as [[t|e] s1]; [|done].
  destruct Hround as [Hl [(r' & h' & d' & -> & Hcut)|(s2 & x & s3 & st1 & k & _ & _ & _ & _ & Hr1 & Hu1 & Ht)]].
  { simplify_eq. exists []. split_and!; [done|apply Forall_nil; done|destruct (unreported_retried st'); cbv; lia|by left]. }
  destruct t as [r' h' d' st2|st2]; simplify_eq.
  { destruct Ht as [-> Hfinal]. exists [x.1.1]. rewrite Hr1. split_and!; [done|apply Forall_nil; done|destruct (unreported_retried st); cbv; lia|].
    destruct Hfinal as [Hcut|[-> _]]; [by left|right; by exists []]. }
  destruct Ht as (Hr2 & (Hinc & _ & Hun) & _). destruct (IH (S i) st2 s1) as (new & Hnew & Hall & Herr & Hend); [by apply Hl|done|].
  exists (new ++ [x.1.1]). rewrite Hnew, Hr2, Hr1, <- app_assoc. split; [done|].
  assert (Hhead : (errors [x.1.1] + (if unreported_retried st then 1 else 0) <= (if unreported_retried st2 then 1 else 0))%nat).
  { unfold errors. simpl. destruct (x.1.1) as [o|e]; simpl.
    - rewrite Hun, Hu1. lia.
    - destruct Hun as [Hun1 ->]. rewrite <- Hu1, Hun1. simpl. lia. }
  destruct new as [|y new].
  - split_and!; [apply Forall_nil; done|simpl; destruct (unreported_retried st); simpl; lia|].
    destruct Hend as [Hcut|(? & ?)]; [by left|done].
  - simpl in Hall, Herr |- *. split_and!.
    + apply Forall_app. split; [done|by constructor].
    + unfold errors in *. rewrite filter_app, length_app. lia.
    + destruct Hend as [Hcut|(earlier & Hy)]; [by left|right]. exists (new ++ [x.1.1]). by simplify_eq.
Qed.

(** The [i]-th attempt, run from [s1], gave [o], and the clock was read before
    the deadlines after it ended. *)
Definition gave_in_time (i : nat) (s1 : Engine) (o : Outcome) (s s' : Engine) : Prop :=
  exists h d s2, attempts i s1 = (Ok o, h, d, s2) /\ later s s1
    /\ before_auth_deadline auth_deadline s2 s' /\ (window <> 0 -> read_before deadline s2 s').

(** A grant is the outcome of one of the attempts, and the clock was read
    before the deadlines after it ended. *)
Definition in_time (o : Outcome) (s s' : Engine) : Prop := exists i s1, gave_in_time i s1 o s s'.

Lemma quiet_votes P s s' : quiet s s' -> Forall P (vit_scores s) -> Forall P (vit_scores s').
Proof. intros [_ [->| ->]]; [by constructor|done]. Qed.

(** With every attempt adding only votes that [vote] allows by then, the
    granting one started on such votes. *)
Lemma loop_grant (vote : nat -> F32 -> Prop) fuel i st s o h d st' s' :
  (forall j r, vote j r -> vote (S j) r) ->
  (forall j s1, Forall (vote j) (vit_scores s1) -> Forall (vote j) (vit_scores (attempts j s1).2)) ->
  valid s -> Forall (vote i) (vit_scores s) ->
  loop fuel window deadline attempts i st s = Some (Ok o, h, d, st', s') -> granted o = true ->
  exists j s1, Forall (vote j) (vit_scores s1) /\ gave_in_time j s1 o s s'.
Proof.
  intros Hmono Hvotes. revert i st s. induction fuel as [|fuel IH]; intros i st s Hv Hs Hloop Hg; [done|]. simpl in Hloop.
  pose proof (wp_round auth_deadline window deadline (attempts i) st s Hv (Hforward i)) as Hround. unfold wp in Hround.
  destruct (round _ _ _ _ _ s) as [[t|e] s1]; [|done].
  destruct Hround as [Hl [(r' & h' & d' & -> & e & -> & _)|(s2 & [[x hx] dx] & s3 & st1 & k & Hx & _ & Hs2 & Hs3 & _ & _ & Ht)]].
  { by simplify_eq. }
  apply (quiet_votes _ _ _ Hs2) in Hs.
  destruct t as [r' h' d' st2|st2]; simplify_eq.
  - destruct Ht as (_ & [(e & ? & _)|[Hr Hf]]); [done|]. simpl in Hr. destruct (Hf o eq_refl Hg) as [Ha Hw].
    exists i, s2. split; [done|]. exists hx, dx, s3. rewrite Hr. split_and!; [done|by apply quiet_later|done|done].
  - assert (Hs1 : Forall (vote (S i)) (vit_scores s1)).
    { eapply Forall_impl; [apply Hmono|]. eapply quiet_votes; [exact Hs3|]. specialize (Hvotes i s2 Hs). by rewrite Hx in Hvotes. }
    destruct (IH (S i) st2 s1) as (j & s4 & Hs4 & h4 & d4 & s5 & Hj & Hl4 & Ha & Hw); [by apply Hl|done|done|done|].
    exists j, s4. split; [done|]. exists h4, d4, s5. split_and!; [done|by trans s1|done|done].
Qed.

Lemma loop_grant_in_time fuel i st s o h d st' s' :
  valid s -> loop fuel window deadline attempts i st s = Some (Ok o, h, d, st', s') -> granted o = true -> in_time o s s'.
Proof.
  intros Hv Hloop Hg. assert (Htrue : forall l : list F32, Forall (fun _ => True) l) by (intros; by apply Forall_true).
  destruct (loop_grant (fun _ _ => True) fuel i st s o h d st' s') as (j & s1 & _ & ?); auto. by exists j, s1.
Qed.

(** ** Termination *)

Context (Hclock : forall k k', (k <= k')%nat -> clock k <= clock k').
(** An attempt captures a frame at least: the clock moves on. *)
Context (Htakes : forall i s, clock (ticks s) < clock (ticks (attempts i s).2)).

Lemma loop_ends fuel i st s :
  valid s -> (Z.to_nat (deadline - clock (ticks s)) < fuel)%nat ->
  is_Some (loop fuel window deadline attempts i st s).
Proof.
  revert i st s. induction fuel as [|fuel IH]; intros i st s Hv Hfuel; [lia|]. simpl.
  pose proof (wp_round auth_deadline window deadline (attempts i) st s Hv (Hforward i)) as Hround. unfold wp in Hround.
  destruct (round _ _ _ _ _ s) as [[[r h d st2|st2]|e] s1]; [by eexists| |done].
  destruct Hround as [Hl [(? & ? & ? & ? & _)|(s2 & x & s3 & st1 & k & Hx & Hk & Hs2 & Hs3 & _ & _ & Ht)]]; [done|].
  destruct Ht as (_ & (_ & (k1 & Hk1 & Hfit) & _) & k2 & Hk2 & Hcost).
  specialize (Htakes i s2). rewrite Hx in Htakes. simpl in Htakes.
  pose proof (Hclock k (ticks s2)). pose proof (Hclock (ticks s3) k2). pose proof (Hclock (ticks s3) k1).
  pose proof (Hclock (ticks s) (ticks s2)). pose proof (Hclock (ticks s3) (ticks s1)). destruct Hs2 as [[Hs2 _] _], Hs3 as [[Hs3 _] _].
  apply IH; [by apply Hl|]. unfold sat_sub in *. lia.
Qed.
End Rounds.
