(* ===== verification/VoteTheory.v ===== *)
(** * Votes across the attempts of a request, proved

    Every modelled attempt moves the clock forwards and adds to the votes only
    what the visible model answered on its own captures; so a request's grant
    rests on a capture of the attempt that granted and on votes cast on the
    request's captures. *)

From S2P Require Import Prelude Text Float CameraKeys Liveness Templates IdentityArms EngineDecision Engine EngineLoop IdentityTheory DecisionTheory EngineTheory CollectTheory LoopTheory.
From S2P Require Protocol RetryThrottle FaceReply.

(** ** Steps that move forwards *)

(** From [s] to [s'] no reading was taken back, and votes that [vote] allows
    were joined by no other. *)
Definition moved (vote : F32 -> Prop) (s s' : Engine) : Prop :=
  later s s' /\ (Forall vote (vit_scores s) -> Forall vote (vit_scores s')).
#[export] Instance moved_preorder vote : PreOrder (moved vote).
Proof. split; [by intros s|]. intros s1 s2 s3 [] []. split; [by etrans|auto]. Qed.

Definition forwards (vote : F32 -> Prop) {A} (m : M A) : Prop := forall s, moved vote s (m s).2.

Section Monad.
Context (vote : F32 -> Prop).

Lemma fwd_bind {A B} (m : M A) (f : A -> M B) : forwards vote m -> (forall a, forwards vote (f a)) -> forwards vote (m ≫= f).
Proof.
  intros Hm Hf s. unfold mbind, M_bind. specialize (Hm s). destruct (m s) as [[a|e] s1]; [|done].
  etrans; [exact Hm|apply Hf].
Qed.
Lemma fwd_ret {A} (a : A) : forwards vote (mret a : M A).
Proof. intros s. split; [later|done]. Qed.
Lemma fwd_throw {A} e : forwards vote (throw e : M A).
Proof. intros s. split; [later|done]. Qed.
Lemma fwd_lift {A} (r : result Error A) : forwards vote (lift r).
Proof. intros s. split; [later|done]. Qed.
Lemma fwd_lift_bind {A B} (r : result Error A) (f : A -> M B) :
  (forall a, r = Ok a -> forwards vote (f a)) -> forwards vote (lift r ≫= f).
Proof. destruct r as [a|e]; intros Hf s; [by apply Hf|by split; [later|]]. Qed.
Lemma fwd_on_error {A} (m : M A) fin : forwards vote m -> forwards vote fin -> forwards vote (on_error m fin).
Proof.
  intros Hm Hf s. unfold on_error. specialize (Hm s). destruct (m s) as [[a|e] s1]; [done|].
  etrans; [exact Hm|apply Hf].
Qed.
Lemma fwd_catch {A} (m : M A) : forwards vote m -> forwards vote (catch m).
Proof. intros Hm s. unfold catch. specialize (Hm s). by destruct (m s). Qed.
Lemma fwd_empty : forwards vote (set_scores []).
Proof. intros s. split; [later|by constructor]. Qed.
Lemma fwd_facts f : forwards vote (set_facts f).
Proof. intros s. split; [later|done]. Qed.
Lemma fwd_situation x : forwards vote (set_situation x).
Proof. intros s. split; [later|done]. Qed.

(** The votes are rewritten by [f]. *)
Lemma fwd_ring {A B} (f : list F32 -> A * list F32) (k : A -> M B) :
  (forall ring, Forall vote ring -> Forall vote (f ring).2) -> (forall a, forwards vote (k a)) ->
  forwards vote (ring ← get_scores; let '(a, ring) := f ring in _ ← set_scores ring; k a).
Proof.
  intros Hf Hk s. unfold mbind, M_bind, get_scores. specialize (Hf (vit_scores s)).
  destruct (f (vit_scores s)) as [a ring]. etrans; [|apply Hk]. split; [later|exact Hf].
Qed.
End Monad.

Create HintDb forwards.
#[export] Hint Resolve fwd_ret fwd_throw fwd_lift fwd_empty fwd_facts fwd_situation : forwards.

Ltac forwards :=
  repeat first
    [ solve [eauto 2 with forwards]
    | lazymatch goal with
      | |- forwards _ (mbind _ _) => apply fwd_bind; [|intros ?]
      | |- forwards _ (catch _) => apply fwd_catch
      | |- forwards _ (on_error _ _) => apply fwd_on_error
      | |- forwards _ (match ?x with _ => _ end) => destruct x
      end ].

Section Checks.
Context `{World} (vote : F32 -> Prop) (auth_deadline : option Z).

Lemma fwd_now : forwards vote now.
Proof. intros s. split; [later|done]. Qed.
Lemma fwd_poll : forwards vote poll.
Proof. intros s. split; [later|done]. Qed.
Lemma fwd_past d : forwards vote (past d).
Proof. apply fwd_bind; [apply fwd_now|intros ?; apply fwd_ret]. Qed.
Lemma fwd_past_deadline d : forwards vote (past_deadline d).
Proof. destruct d; [apply fwd_past|apply fwd_ret]. Qed.
Lemma fwd_cancelled : forwards vote check_request_cancelled.
Proof. apply fwd_bind; [apply fwd_poll|]. intros []; forwards. Qed.
Lemma fwd_active : forwards vote (check_request_active auth_deadline).
Proof.
  apply fwd_bind; [apply fwd_cancelled|intros _]. apply fwd_bind; [apply fwd_past_deadline|]. unfold expire. intros []; forwards.
Qed.
End Checks.

#[export] Hint Resolve fwd_now fwd_past fwd_past_deadline fwd_cancelled fwd_active : forwards.

(** ** Attempts *)

(** What the visible model answered on [c] is allowed. *)
Definition allows (vote : F32 -> Prop) (c : PairCapture) : Prop := forall r, pc_vit c = Some (Ok r) -> vote r.

Section Attempts.
Context `{World, Libm} (sha256_hex : list byte -> str) (vote : F32 -> Prop).
Context (su : Setup) (bd : Boundary) (enr : Enrollment) (auth_deadline : option Z).

Lemma settle_votes ring x v face c :
  allows vote c -> Forall vote ring -> Forall vote (settle_rgb_pad ring x (vit_pad_evidence v face (pc_vit c))).2.
Proof.
  intros Hc Hr. set (ev := vit_pad_evidence _ _ _).
  assert (Hev : forall p, ev = Score p -> vote p /\ is_finite p = true).
  { intros p. unfold ev, vit_pad_evidence. destruct (_ && _); [|done]. intros [Hp ?]%model_evidence_score. auto. }
  pose proof (settle_rgb_spec ring x ev) as Hs. destruct (settle_rgb_pad ring x ev) as [y ring']. destruct Hs as (_ & Hs & Hn).
  destruct ev as [| | | |p] eqn:E; try (by rewrite Hn).
  destruct (Hev p eq_refl) as [Hp Hf]. destruct (Hs p eq_refl Hf) as [-> _]. apply Forall_app. auto using Forall_cons, Forall_nil.
Qed.

Lemma fwd_assess c : allows vote c -> forwards vote (assess_captured_pair auth_deadline c).
Proof.
  intros Hc. unfold assess_captured_pair. apply fwd_bind; [forwards|intros _].
  case_match; [| |forwards]; do 4 (apply fwd_bind; [forwards|intros _]);
    (apply (fwd_ring vote (fun ring => settle_rgb_pad ring _ _)); [intros ring; by apply settle_votes|intros ?; forwards]).
Qed.

Lemma fwd_lift_embedding r : forwards vote (lift_embedding r).
Proof. destruct r; simpl; forwards. Qed.
#[local] Hint Resolve fwd_lift_embedding : forwards.

Lemma fwd_materialize d : forwards vote (materialize_pair_identity auth_deadline d).
Proof. unfold materialize_pair_identity. forwards. Qed.
Lemma fwd_qualify a : forwards vote (qualify a).
Proof.
  apply (fwd_ring vote (fun ring => qualify_rgb_pad_evidence ring a)); [|intros; apply fwd_ret].
  intros ring Hr. pose proof (qualify_spec ring a) as Hq. destruct (qualify_rgb_pad_evidence ring a).
  destruct Hq as (_ & [->| ->] & _); [by constructor|done].
Qed.
#[local] Hint Resolve fwd_materialize fwd_qualify : forwards.

Lemma fwd_ordinary d : forwards vote (prepare_ordinary auth_deadline d).
Proof. unfold prepare_ordinary. forwards. Qed.
Lemma fwd_deferring d : forwards vote (prepare_deferring auth_deadline d).
Proof. unfold prepare_deferring. forwards. Qed.
Lemma fwd_finish m : forwards vote m -> forwards vote (finish_pair_authentication sha256_hex su bd enr m).
Proof. intros. unfold finish_pair_authentication. forwards. Qed.
#[local] Hint Resolve fwd_ordinary fwd_deferring fwd_finish : forwards.

Lemma fwd_pair_once sample :
  (forall c, sample = Ok c -> allows vote c) ->
  forwards vote (authenticate_pair_once sha256_hex su bd enr auth_deadline sample).
Proof.
  intros Hs. apply fwd_finish, fwd_lift_bind. intros c Hc. apply fwd_bind; [by apply fwd_assess, Hs|intros ?; forwards].
Qed.

Lemma fwd_collection {A} (m : M A) : forwards vote m -> forwards vote (collection m).
Proof.
  intros. unfold collection. do 2 (apply fwd_bind; [forwards|intros _]). apply fwd_bind; [|intros ?; forwards].
  apply fwd_on_error; [done|]. intros s. split; [later|by constructor].
Qed.

Lemma fwd_collect deadline next remaining :
  (forall i, (i < remaining)%nat -> forwards vote (next i)) -> forwards vote (collect_pending auth_deadline deadline remaining next).
Proof.
  induction remaining as [|n IH]; intros Hnext; simpl; [forwards|].
  assert (Hn : forwards vote (next n)) by (apply Hnext; lia).
  assert (Hi : forwards vote (collect_pending auth_deadline deadline n next)) by (apply IH; intros; apply Hnext; lia).
  forwards.
Qed.

Lemma fwd_managed deadline armed next drained :
  (forall i c, (i < VIT_PAD_VOTE_N)%nat -> next i = Ok c -> allows vote c) ->
  forwards vote (authenticate_managed_once sha256_hex su bd enr auth_deadline deadline armed next drained).
Proof.
  intros Hnext. apply fwd_collection, fwd_bind.
  - apply fwd_catch. do 2 (apply fwd_bind; [forwards|intros _]). apply fwd_collection, fwd_collect. intros i Hi.
    apply fwd_lift_bind. intros c Hc. apply fwd_bind; [forwards|intros _]. apply fwd_bind; [by eapply fwd_assess, Hnext|]. intros ?. forwards.
  - intros r. forwards; apply fwd_finish; forwards.
Qed.

Lemma fwd_samples g deadline index samples :
  Forall (forwards vote) samples -> forwards vote (evaluate_samples bd auth_deadline g deadline index samples).
Proof. intros Hs. revert index. induction Hs as [|m ms Hm Hms IH]; intros index; simpl; [forwards|]. forwards. Qed.

Lemma fwd_group deadline cs :
  Forall (allows vote) cs ->
  forwards vote (evaluate_grouped_samples_ex bd auth_deadline GroupPair deadline (map (assess_captured_pair auth_deadline) cs)).
Proof.
  intros Hcs. unfold evaluate_grouped_samples_ex.
  assert (Hs : forwards vote (evaluate_samples bd auth_deadline GroupPair deadline 0 (map (assess_captured_pair auth_deadline) cs))).
  { apply fwd_samples, List.Forall_map. eapply List.Forall_impl; [|exact Hcs]. apply fwd_assess. }
  forwards.
Qed.

Lemma fwd_grouped deadline (batch : result Error (list PairCapture)) :
  (forall cs, batch = Ok cs -> Forall (allows vote) cs) ->
  forwards vote (authenticate_grouped_once sha256_hex su bd enr auth_deadline GroupPair deadline
              (map (assess_captured_pair auth_deadline) <$> batch)).
Proof.
  intros Hb. unfold authenticate_grouped_once, finish_grouped. do 3 (apply fwd_bind; [forwards|intros ?]).
  destruct a1; [apply fwd_ret|]. apply fwd_lift_bind. intros ms Hms. apply fwd_bind; [|intros ?; forwards].
  destruct batch as [cs|e]; [|done]. injection Hms as <-. by apply fwd_group, Hb.
Qed.
End Attempts.

(** ** From the engine to the reply *)

(** How an outcome crosses to the daemon: its kind, and its numbers and text
    as they are rendered. *)
Definition face_outcome (bits : F32 -> Protocol.f32) (text : Reason -> string) (o : Outcome) : FaceReply.FaceOutcome :=
  FaceReply.MkFaceOutcome (RetryThrottle.MkOutcome (granted o) (kind o)) (bits (o_score o)) (live o) (text (reason o)) (cause o).

(** An attempt of the loop that runs [m]; it may leave a held pair behind. *)
Definition runs (m : M Outcome) (a : Attempt) : Prop := forall s, (a s).1.1.1 = (m s).1 /\ (a s).2 = (m s).2.

(** The attempts on a pair: a single one, a managed collection, a grouped batch,
    each with what was captured for it. *)
Inductive PairAttempt :=
| SingleAttempt (sample : result Error PairCapture)
| ManagedAttempt (armed : result Error ()) (next : nat -> result Error PairCapture) (drained : nat -> result Error ())
| GroupedAttempt (batch : result Error (list PairCapture)).

(** [c] was captured for the attempt. *)
Definition captured (k : PairAttempt) (c : PairCapture) : Prop :=
  match k with
  | SingleAttempt sample => sample = Ok c
  | ManagedAttempt _ next _ => exists i, (i < VIT_PAD_VOTE_N)%nat /\ next i = Ok c
  | GroupedAttempt batch => exists cs, batch = Ok cs /\ c ∈ cs
  end.

(** [r] is what the visible model answered on a capture of one of the attempts
    up to the [i]-th. *)
Definition cast_by (kinds : nat -> PairAttempt) (i : nat) (r : F32) : Prop :=
  exists j c, (j <= i)%nat /\ captured (kinds j) c /\ pc_vit c = Some (Ok r).

(** An attempt that began with the votes [ring] decided on its capture [c] and
    [votes]: the one it took, one of a collection with its votes so far, the
    last of five with theirs. *)
Definition rests_on (k : PairAttempt) (ring : list F32) (c : PairCapture) (votes : list F32) : Prop :=
  match k with
  | SingleAttempt sample => sample = Ok c /\ grown c ring votes
  | ManagedAttempt _ next _ =>
      exists i, (i < VIT_PAD_VOTE_N)%nat /\ next i = Ok c /\ (length votes + i <= VIT_PAD_VOTE_N)%nat /\ Forall (answered next) votes
  | GroupedAttempt batch =>
      exists cs before, batch = Ok cs /\ cs = before ++ [c] /\ length cs = VIT_PAD_VOTE_N /\ Forall (answer_of cs) votes
  end.

Lemma rests_on_votes (P : F32 -> Prop) k ring c votes :
  (forall c, captured k c -> allows P c) -> rests_on k ring c votes -> Forall P ring -> Forall P votes.
Proof.
  intros Hk. destruct k as [sample|armed next drained|batch]; simpl.
  - intros [-> Hgrown] Hr. eapply grown_all; [exact Hgrown|by apply Hk|done].
  - intros (_ & _ & _ & _ & Ha) _. eapply List.Forall_impl; [|exact Ha]. intros r (i & c' & Hi & Hn & Hv).
    apply (Hk c'); [by exists i|done].
  - intros (cs & _ & Hb & _ & _ & Ha) _. eapply List.Forall_impl; [|exact Ha]. intros r (c' & Hc & Hv).
    apply (Hk c'); [by exists cs|done].
Qed.

Section Request.
Context `{World, LibmOk} (sha256_hex : list byte -> str).
Context (su : Setup) (bd : Boundary) (enr : Enrollment) (auth_deadline : option Z) (window deadline : Z).
Context (Hbase : not_negative (dc_rgb_base (su_context su)) = true) (Hir : ir_available su = true).

Definition pair_attempt (k : PairAttempt) : M Outcome :=
  match k with
  | SingleAttempt sample => authenticate_pair_once sha256_hex su bd enr auth_deadline sample
  | ManagedAttempt armed next drained =>
      authenticate_managed_once sha256_hex su bd enr auth_deadline deadline armed next drained
  | GroupedAttempt batch =>
      authenticate_grouped_once sha256_hex su bd enr auth_deadline GroupPair deadline
        (map (assess_captured_pair auth_deadline) <$> batch)
  end.

Lemma pair_attempt_forwards vote k : (forall c, captured k c -> allows vote c) -> forwards vote (pair_attempt k).
Proof.
  destruct k as [sample|armed next drained|batch]; intros Hk; simpl.
  - by apply fwd_pair_once.
  - apply fwd_managed. intros i c Hi Hn. apply Hk. by exists i.
  - apply fwd_grouped. intros cs ->. apply list.Forall_forall. intros c Hc. apply Hk. by exists cs.
Qed.

Lemma pair_attempt_evidence k s o s' :
  pair_attempt k s = (Ok o, s') -> granted o = true ->
  exists c votes, rests_on k (vit_scores s) c votes /\ pair_evidence sha256_hex su bd enr c votes.
Proof.
  destruct k as [sample|armed next drained|batch]; intros Hrun Hg.
  - destruct (engine_run _ _ _ _ _ _ Hrun (wp_pair_once _ _ _ _ _ Hbase Hir sample s) Hg) as (c & votes & ? & ? & He).
    by exists c, votes.
  - destruct (engine_run _ _ _ _ _ _ Hrun (wp_managed _ _ _ _ _ Hbase Hir _ _ _ _ s)) as [He _].
    destruct (He Hg) as (i & c & votes & ? & ? & ? & ? & ?). exists c, votes. split; [by exists i|done].
  - destruct (engine_run _ _ _ _ _ _ Hrun (wp_grouped _ _ _ _ _ Hbase Hir _ _ s)) as [He _].
    destruct (He Hg) as (cs & ? & before & c & votes & ? & ? & ? & [? Hi] & _). exists c, votes. split; [by exists cs, before|].
    split; [done|]. destruct Hi as [(lp & g & ? & _)|?]; eauto.
Qed.

(** A grant of the loop over such attempts, begun without votes. *)
Lemma request_grant kinds attempts fuel st s o h d st' s' :
  (forall i, runs (pair_attempt (kinds i)) (attempts i)) -> valid s -> vit_scores s = [] ->
  attempt_loop auth_deadline fuel window deadline attempts 0 st s = Some (Ok o, h, d, st', s') -> granted o = true ->
  exists i s1 c votes, gave_in_time auth_deadline window deadline attempts i s1 o s s'
    /\ rests_on (kinds i) (vit_scores s1) c votes /\ Forall (cast_by kinds i) votes /\ pair_evidence sha256_hex su bd enr c votes.
Proof.
  intros Hr Hv Hs Hloop Hg.
  assert (Hcast : forall i c, captured (kinds i) c -> allows (cast_by kinds i) c) by (intros i c Hc r Hp; by exists i, c).
  assert (Hfw : forall i s1, moved (cast_by kinds i) s1 (attempts i s1).2).
  { intros i s1. destruct (Hr i s1) as [_ ->]. by apply pair_attempt_forwards, Hcast. }
  destruct (loop_grant auth_deadline window deadline attempts (fun i s1 => proj1 (Hfw i s1)) (cast_by kinds)
    fuel 0 st s o h d st' s') as (i & s1 & Hs1 & Ht); try done.
  - intros i r (j & c & Hj & ?). exists j, c. split; [lia|done].
  - intros i s1. apply Hfw.
  - rewrite Hs. by constructor.
  - destruct Ht as (hx & dx & s2 & Ha & Hlate). destruct (Hr i s1) as [Hr1 Hr2]. rewrite Ha in Hr1, Hr2. simpl in Hr1, Hr2.
    destruct (pair_attempt_evidence (kinds i) s1 o s2) as (c & votes & Hon & He); [|done|].
    { rewrite (surjective_pairing (pair_attempt (kinds i) s1)). congruence. }
    exists i, s1, c, votes. split; [by exists hx, dx, s2|]. split_and!; [done| |done].
    eapply rests_on_votes; [apply Hcast|exact Hon|exact Hs1].
Qed.
End Request.
