(* ===== verification/EngineModel.v ===== *)
(** * A concrete engine

    A camera, an account and a clock for the engine's theorems: one enrolled
    profile with a template in each light, a live face before both cameras, a
    clock that moves with every reading. *)

From S2P Require Import Prelude Text Float CameraKeys Liveness Templates IdentityArms EngineDecision Engine EngineLoop EngineTheory DecisionTheory CollectTheory LoopTheory.
From S2P Require Protocol RetryThrottle.

#[local] Instance ticking : World := {| clock k := Z.of_nat k; request_cancelled _ := false |}.
(** A logarithm and an exponential rounded to a step: enough for the laws. *)
#[local] Instance step_libm : Libm := {| log2 _ := lit32 1 0; exp x := if flt x ZERO then lit32 1 1 else x |}.
#[local] Instance step_libm_ok : LibmOk.
Proof. split; [intros n _; by vm_compute|by vm_compute]. Qed.

Definition EMBED : str := str_codes "embed".
Definition IR_SPACE : str := str_codes "ir".
Definition one : Embedding := [lit32 1 0].

Definition scan : FaceScan :=
  MkScan (str_codes "scan") one (Some one) (Some IR_SPACE) (Some EMBED) (lit32 12 1) (lit32 100 0) (lit32 5 1) None.
Definition enrolled : Enrollment :=
  MkEnrollment (str_codes "alice") [MkProfile (str_codes "alice") [scan] None gmap_empty] false None.
Definition setup : Setup := MkSetup (MkContext EMBED IR_SPACE false RGB_MATCH_THRESHOLD) true.
Definition boundary : Boundary := MkBoundary None None None.
Definition no_digest (_ : list byte) : str := [].

Definition face : FaceBox := MkFaceBox (lit32 5 1) (lit32 5 1) (lit32 9 1).
Definition visible : RgbFace := MkRgbFace face ZERO (lit32 5 1) (lit32 120 0).
Definition infrared : IrFace :=
  MkIrFace face (lit32 100 0) (lit32 12 1) (Some (lit32 200 0)) (lit32 3 1) (Some (lit32 1 2)).
(** A live face before both cameras. *)
Definition live_pair : PairCapture :=
  MkCapture (Some visible) (Some infrared) 0 false false false (lit32 50 0) (lit32 20 0) true None
    (Some (Ok (lit32 1 1))) (Some (Ok (lit32 2 1))) (Ok one) (Ok one) (Ok ()).

Definition idle : Engine := MkEngine [] default_facts None None 0 0.
Lemma idle_valid : valid idle.
Proof. done. Qed.

(** An attempt that runs [m] and holds nothing afterwards. *)
Definition attempt_of (m : M Outcome) : Attempt := fun s => let '(r, s) := m s in ((r, false, false), s).

(** A managed collection of five such pairs. *)
Definition five_pairs (auth_deadline : option Z) (deadline : Z) : M Outcome :=
  authenticate_managed_once no_digest setup boundary enrolled auth_deadline deadline (Ok ()) (fun _ => Ok live_pair) (fun _ => Ok ()).
Definition five_pair_attempts (auth_deadline : option Z) (deadline : Z) (_ : nat) : Attempt :=
  attempt_of (five_pairs auth_deadline deadline).

(** An attempt that sees nobody, in one reading of the clock. *)
Definition empty_room : Attempt := attempt_of (_ ← now; mret (deny RetryThrottle.NoFace NoFaceDetected)).
(** Nobody first, then a person. *)
Definition late_arrival (i : nat) : Attempt := match i with O => empty_room | _ => five_pair_attempts None 1000 i end.

Definition start : LoopState := MkLoop 0 0 false [].
