(* ===== verification/EngineClaims.v ===== *)
(** * The engine's theorems

    What matching and the vote compute; what each collection guarantees; what a
    request's rounds add up to; a delivered grant rests on a live face that the
    request's own attempt captured. *)

From S2P Require Import Prelude Text Float CameraKeys Liveness Templates IdentityArms EngineDecision Engine EngineLoop IdentityTheory DecisionTheory EngineTheory CollectTheory LoopTheory VoteTheory EngineModel.
From S2P Require Protocol RetryThrottle RetryStore RetryBudget RetryCodecModel FaceReply CommitJournal.

#[local] Opaque lit32 add32 mul32 div32 arm_threshold lit_ir_arms ir_match_in VIT_PAD_THRESHOLD IR_PAD_THRESHOLD.

(** ** Matching and voting *)

(** C30. The best infrared match is the first of the greatest scores offered by the
    templates this recognizer and pipeline may compare, in enrollment order,
    each of them a NaN or a number from -1 to 1; it is never a NaN, and stays at
    minus infinity when nothing was offered.  The match counts exactly the
    usable templates.  The visible match is the first greatest of its scores. *)
Theorem best_match_exact (x : DecisionContext) (e : Enrollment) (probe : Embedding) (rgbs : list (str * str * Embedding)) :
  let m := ir_match_in (dc_ir_space x) (dc_embed_space x) (dc_adapter x) e probe in
  let offered := ir_offers (dc_ir_space x) (dc_embed_space x) (dc_adapter x) e probe in
  first_best (NEG_INFINITY, []) offered (best m, best_who m)
  /\ (forall y, y ∈ offered -> ir_support x e probe y.1 y.2
        /\ (is_nan y.1 = true \/ within (lit32 (-1) 0) (lit32 1 0) y.1 = true))
  /\ is_nan (best m) = false
  /\ n_templates m = sum_list (map (fun p => length (templates (dc_ir_space x) (dc_embed_space x) (dc_adapter x) (length probe) p)) (profiles e))
  /\ first_best (NEG_INFINITY, []) (rgb_offers probe rgbs) (best_rgb probe rgbs).
Proof.
  intros m offered. unfold m. rewrite ir_match_in_offers. cbn [best best_who n_templates].
  rewrite <- surjective_pairing. split_and!; [apply offers_first_best| |by apply offers_number|done|].
  - intros y Hy. split; [by apply ir_offers_support|].
    destruct (ir_offers_support _ _ _ _ Hy) as (p & s & t & pr & _ & _ & _ & _ & _ & _ & Hc).
    destruct Hc; apply cosine_within.
  - rewrite best_rgb_offers. apply offers_first_best.
Qed.

(** C29. A template recorded by another recognizer never counts: the match, the
    decision of both lights, the collision check of an enrollment and the
    profile it merges into are those of the enrollment without such scans. *)
Theorem other_recognizers_ignored `{Libm} (x : DecisionContext) (e : Enrollment) :
  let own := only (dc_embed_space x) e in
  (forall probe, ir_match_in (dc_ir_space x) (dc_embed_space x) (dc_adapter x) own probe
                 = ir_match_in (dc_ir_space x) (dc_embed_space x) (dc_adapter x) e probe)
  /\ (forall probe, lit_verdict x own probe = lit_verdict x e probe)
  /\ (forall probe exclude threshold, colliding_profile own probe exclude (dc_embed_space x) threshold
                                      = colliding_profile e probe exclude (dc_embed_space x) threshold)
  /\ (forall captured threshold, enroll_merge_target own captured (dc_embed_space x) threshold
                                 = enroll_merge_target e captured (dc_embed_space x) threshold).
Proof.
  intros own. assert (Hp : length (profiles own) = length (profiles e)) by apply length_map. split_and!; intros.
  - apply ir_match_only.
  - unfold lit_verdict. rewrite Hp. unfold own. rewrite rgb_scans_only. destruct (best_rgb _ _) as [score who].
    destruct (lp_ir probe) as [v|]; cbn [mbind option_bind]; [rewrite ir_match_only|]; reflexivity.
  - apply colliding_only.
  - apply merge_only.
Qed.

(** C28. The vote denies a face exactly when the request has five scores and three
    of the last five reach the threshold; scores that are not numbers never
    enter it. *)
Theorem vit_vote_exact (ring : list F32) (score : F32) :
  Forall (fun p => is_finite p = true) ring ->
  vit_pad_votes_deny ring score =
  if is_finite score then
    (bool_decide (VIT_PAD_VOTE_N <= length (ring ++ [score])
                  /\ 3 <= length (at_least VIT_PAD_THRESHOLD (window (ring ++ [score]))))%nat, ring ++ [score])
  else (false, ring).
Proof.
  intros Hring. unfold vit_pad_votes_deny. destruct (is_finite score) eqn:Hs; [|done]. simpl.
  rewrite vit_vote_counts; [done|]. apply Forall_app. split; [|constructor; [by destruct score|constructor]].
  eapply Forall_impl; [|exact Hring]. intros p Hp. by destruct p.
Qed.

(** C27. The IR-only route grants exactly when every number of the frame is finite
    and in range, the face is live by every infrared cue, the PAD model gave an
    answer below its threshold, the falloff is not below the account's own, and
    a compatible template or centroid reaches its threshold. *)
Theorem ir_only_grant_exact `{Libm} (x : IrAssessment) (e : Enrollment) (adapter : bool) :
  granted (assessed_outcome x e adapter) = true <-> ir_only_passes x e /\ ir_only_matches (ia_matched x) e adapter.
Proof. apply ir_only_granted. Qed.

(** ** Attempts *)

Section AttemptClaims.
Context `{World, LibmOk} (sha256_hex : list byte -> str).
Context (su : Setup) (bd : Boundary) (enr : Enrollment) (auth_deadline : option Z) (window deadline : Z).
Context (Hbase : not_negative (dc_rgb_base (su_context su)) = true) (Hir : ir_available su = true).

(** C5. A managed collection that grants does so on one of its own five samples,
    live by the gate, matched by a template or centroid of a comparable
    profile, at a boundary that still stands, and on votes the visible model
    cast on this collection's samples, a full vote of five for a visible face;
    however it ends, no vote outlives it. *)
Theorem managed_grant_earned armed next drained s :
  let out := authenticate_managed_once sha256_hex su bd enr auth_deadline deadline armed next drained s in
  vit_scores out.2 = []
  /\ forall o, out.1 = Ok o -> granted o = true ->
       exists i c votes, next i = Ok c /\ (length votes + i <= VIT_PAD_VOTE_N)%nat /\ Forall (answered next) votes
         /\ pair_evidence sha256_hex su bd enr c votes.
Proof.
  intros out. pose proof (wp_managed sha256_hex su bd enr auth_deadline Hbase Hir deadline armed next drained s) as Hwp.
  unfold wp in Hwp. unfold out. destruct (authenticate_managed_once _ _ _ _ _ _ _ _ _ s) as [[o|e] s']; [|by split].
  destruct Hwp as [Hg Hv]. split; [done|]. intros ? [= <-] Hgr. destruct (Hg Hgr) as (i & c & votes & ? & _ & ?). by exists i, c, votes.
Qed.

(** C6. A grouped batch grants only on exactly five pairs, on the last one, with
    votes cast on those pairs, by an infrared match and never by the visible
    face or the fusion of both lights, with the clock read before the deadline
    after the decision; however it ends, no vote outlives it. *)
Theorem grouped_grant_is_infrared (batch : result Error (list PairCapture)) s :
  let out := authenticate_grouped_once sha256_hex su bd enr auth_deadline GroupPair deadline
               (map (assess_captured_pair auth_deadline) <$> batch) s in
  vit_scores out.2 = []
  /\ forall o, out.1 = Ok o -> granted o = true ->
       exists cs before c votes, batch = Ok cs /\ cs = before ++ [c] /\ length cs = VIT_PAD_VOTE_N
         /\ Forall (answer_of cs) votes /\ infrared_evidence sha256_hex su bd enr c votes
         /\ exists k, ticks out.2 = S k /\ clock k < deadline.
Proof.
  intros out. pose proof (wp_grouped sha256_hex su bd enr auth_deadline Hbase Hir deadline batch s) as Hwp.
  unfold wp in Hwp. unfold out. destruct (authenticate_grouped_once _ _ _ _ _ _ _ _ s) as [[o|e] s']; [|by split].
  destruct Hwp as [Hg Hv]. split; [done|]. intros ? [= <-] Hgr. destruct (Hg Hgr) as (cs & -> & before & c & votes & ?).
  exists cs, before, c, votes. naive_solver.
Qed.

(** C2. Where the engine's answer is that of its retry loop over attempts on
    pairs, begun without votes, a grant that irlumed delivered to the client is
    the outcome of one attempt of the request, with the clock read before the
    request's deadlines after it.  It rests on a pair that this attempt itself
    captured and on votes the visible model cast on captures of the request's
    attempts so far (of this attempt alone, for a collection or a batch): that
    pair passed the liveness gate and the infrared PAD model, for a visible
    face also the visible model and its full vote; a template or centroid of a
    comparable profile matches its embeddings, and the boundary still stood. *)
Theorem delivered_grant_saw_live_face `{RetryStore.Host, RetryThrottle.RetryCodec}
    bits text kinds attempts fuel st s r h d st' s' names u p arm env w rsp w' :
  (forall i, runs (pair_attempt sha256_hex su bd enr auth_deadline deadline (kinds i)) (attempts i)) ->
  valid s -> vit_scores s = [] ->
  attempt_loop auth_deadline fuel window deadline attempts 0 st s = Some (r, h, d, st', s') ->
  FaceReply.en_engine env = face_outcome bits text <$> r ->
  FaceReply.face_request names u p arm env w = (rsp, true, w') -> FaceReply.is_face_grant rsp = true ->
  exists o i s1 c votes, r = Ok o /\ granted o = true
    /\ gave_in_time auth_deadline window deadline attempts i s1 o s s'
    /\ rests_on (kinds i) (vit_scores s1) c votes /\ Forall (cast_by kinds i) votes
    /\ pair_evidence sha256_hex su bd enr c votes.
Proof.
  intros Hm Hv Hs Hloop Hengine Hreq Hg.
  apply FaceReply.face_request_cases in Hreq as [[Hn _]|(a & fa & w1 & _ & _ & [(_ & _ & _ & _ & fo & Ho & Hgr & _)|[Hn _]])];
    [congruence| |by rewrite Hg in Hn].
  rewrite Hengine in Ho. destruct r as [o|e]; [|done]. injection Ho as <-. simpl in Hgr.
  destruct (request_grant _ _ _ _ _ _ _ Hbase Hir _ _ _ _ _ _ _ _ _ _ Hm Hv Hs Hloop Hgr) as (i & s1 & c & votes & ?).
  exists o, i, s1, c, votes. tauto.
Qed.
End AttemptClaims.

(** ** A request *)

Section RequestClaims.
Context `{World} (auth_deadline : option Z) (window deadline : Z) (attempts : nat -> Attempt).
Context (Hforward : forall i, forward (attempts i)).

(** C7. A request gets one verdict: of the results of its attempts all but the last
    are outcomes that only ask for another frame, or once the error of an
    unreported illumination, and what the request answers is the last result or
    the error of a check that cut it short; a grant is answered only when the
    clock was read before the deadlines after the attempt. *)
Theorem request_gets_one_verdict fuel c a s r h d st' s' :
  valid s -> attempt_loop auth_deadline fuel window deadline attempts 0 (MkLoop c a false []) s = Some (r, h, d, st', s') ->
  one_verdict r (results st')
  /\ forall o, r = Ok o -> granted o = true -> in_time auth_deadline window deadline attempts o s s'.
Proof.
  intros Hv Hloop. split.
  - destruct (loop_results _ _ _ _ Hforward _ _ _ _ _ _ _ _ _ Hv Hloop) as (new & Hnew & Hall & Herr & Hend).
    simpl in Hnew, Herr. rewrite app_nil_r in Hnew. rewrite Hnew. split_and!; [done|lia|done].
  - intros o -> Hg. by eapply loop_grant_in_time.
Qed.

(** C19. The retry loop ends: under a clock that never runs backwards and with
    attempts that each take time, it needs no more rounds than one for every
    tick to the deadline, and one. *)
Theorem attempt_loop_ends st s :
  (forall k k', (k <= k')%nat -> clock k <= clock k') ->
  (forall i s, clock (ticks s) < clock (ticks (attempts i s).2)) -> valid s ->
  is_Some (attempt_loop auth_deadline (S (Z.to_nat (deadline - clock (ticks s)))) window deadline attempts 0 st s).
Proof. intros Hclock Htakes Hv. apply loop_ends; [done|done|done|done|lia]. Qed.
End RequestClaims.

(** ** Concrete requests *)

#[local] Existing Instance ticking.
#[local] Existing Instance step_libm.
#[local] Existing Instance step_libm_ok.

Lemma attempt_of_runs m : runs m (attempt_of m).
Proof. intros s. unfold attempt_of. by destruct (m s). Qed.

Lemma late_arrival_forward i : forward (late_arrival i).
Proof.
  intros s. destruct i as [|i]; [later|]. simpl. unfold five_pair_attempts, attempt_of, five_pairs.
  pose proof (fwd_managed no_digest (fun _ => True) setup boundary enrolled None 1000 (Ok ()) (fun _ => Ok live_pair) (fun _ => Ok ())
    ltac:(done) s) as [Hf _].
  by destruct (authenticate_managed_once _ _ _ _ _ _ _ _ _ s).
Qed.

Lemma vit_vote_exact_witness :
  (vit_pad_votes_deny (repeat (lit32 2 1) 2 ++ repeat (lit32 9 1) 2) (lit32 8 1)).1 = true
  /\ (vit_pad_votes_deny (repeat (lit32 9 1) 2 ++ repeat (lit32 2 1) 2) (lit32 1 1)).1 = false.
Proof.
  split; (rewrite vit_vote_exact; [vm_compute; reflexivity|repeat constructor; vm_compute; reflexivity]).
Defined.

(** The outcome of a result that is one. *)
Definition outcome_of (r : result Error Outcome) : Outcome := match r with Ok o => o | Err _ => expired end.

Lemma setup_base : not_negative (dc_rgb_base (su_context setup)) = true.
Proof. by vm_compute. Qed.
Lemma setup_infrared : ir_available setup = true.
Proof. done. Qed.

Abbreviation managed_five :=
  (authenticate_managed_once no_digest setup boundary enrolled None 1000 (Ok ()) (fun _ => Ok live_pair) (fun _ => Ok ()) idle).
Abbreviation grouped_five :=
  (authenticate_grouped_once no_digest setup boundary enrolled None GroupPair 1000
    (map (assess_captured_pair None) <$> Ok (repeat live_pair 5)) idle).

Lemma managed_grant_earned_witness :
  granted (outcome_of managed_five.1) = true
  /\ exists c votes, (length votes <= 5)%nat /\ pair_evidence no_digest setup boundary enrolled c votes.
Proof.
  assert (Ho : managed_five.1 = Ok (outcome_of managed_five.1)) by (vm_compute; reflexivity).
  assert (Hgr : granted (outcome_of managed_five.1) = true) by (vm_compute; reflexivity).
  split; [exact Hgr|].
  destruct (proj2 (managed_grant_earned no_digest setup boundary enrolled None 1000 setup_base setup_infrared (Ok ()) (fun _ => Ok live_pair)
    (fun _ => Ok ()) idle) _ Ho Hgr) as (i & c & votes & _ & Hl & _ & He).
  exists c, votes. split; [unfold VIT_PAD_VOTE_N in Hl; lia|exact He].
Defined.

Lemma grouped_grant_is_infrared_witness :
  granted (outcome_of grouped_five.1) = true
  /\ exists c votes, Forall (answer_of (repeat live_pair 5)) votes /\ infrared_evidence no_digest setup boundary enrolled c votes.
Proof.
  assert (Ho : grouped_five.1 = Ok (outcome_of grouped_five.1)) by (vm_compute; reflexivity).
  assert (Hgr : granted (outcome_of grouped_five.1) = true) by (vm_compute; reflexivity).
  split; [exact Hgr|].
  destruct (proj2 (grouped_grant_is_infrared no_digest setup boundary enrolled None 1000 setup_base setup_infrared
    (Ok (repeat live_pair 5)) idle) _ Ho Hgr) as (cs & b & c & votes & Hcs & _ & _ & Ha & He & _).
  exists c, votes. split; [|exact He]. by injection Hcs as <-.
Defined.

(** What the loop answers, and the results it leaves. *)
Definition answer (x : option (result Error Outcome * bool * bool * LoopState * Engine)) : result Error Outcome * LoopState * Engine :=
  match x with Some (r, _, _, st, s) => (r, st, s) | None => (Err PREEMPTED, start, idle) end.

Lemma request_gets_one_verdict_witness :
  let x := answer (attempt_loop None 3 4000 1000 late_arrival 0 start idle) in
  granted (outcome_of x.1.1) = true /\ length (results x.1.2) = 2%nat /\ one_verdict x.1.1 (results x.1.2).
Proof.
  intros x. split; [vm_compute; reflexivity|]. split; [vm_compute; reflexivity|].
  assert (Hl : attempt_loop None 3 4000 1000 late_arrival 0 start idle = Some (x.1.1, false, false, x.1.2, x.2))
    by (vm_compute; reflexivity).
  exact (proj1 (request_gets_one_verdict None 4000 1000 late_arrival late_arrival_forward 3 0 0 idle _ _ _ _ _ idle_valid Hl)).
Defined.

Lemma attempt_loop_ends_witness :
  is_Some (attempt_loop None (S (Z.to_nat (20 - clock (ticks idle)))) 4000 20 (fun _ => empty_room) 0 start idle).
Proof.
  apply (attempt_loop_ends None 4000 20 (fun _ => empty_room) (fun _ => late_arrival_forward 0) start idle).
  - intros k k' Hk. simpl. lia.
  - intros i s. simpl. lia.
  - exact idle_valid.
Defined.

#[local] Existing Instance RetryBudget.root_host.
#[local] Existing Instance RetryCodecModel.model_codec.

(** The first result of five pairs before the cameras, as irlumed gets it. *)
Definition five_answer := answer (attempt_loop None 1 4000 1000 (five_pair_attempts None 1000) 0 start idle).
Definition seen_env : FaceReply.Env :=
  FaceReply.MkEnv FaceReply.trusted (Ok (RetryBudget.at_second 1)) (Ok (RetryBudget.at_second 2))
    (face_outcome (fun _ => 0) (fun _ => "match"%string) <$> five_answer.1.1)
    (fun _ => FaceReply.passing) (FaceReply.from_started 0 4000) FaceReply.open_wire.
Abbreviation seen_request :=
  (FaceReply.face_request FaceReply.alice_name (Some 1000) RetryBudget.five_strikes FaceReply.alice_verify seen_env
    RetryBudget.fresh_world).

Lemma triple {A B C} (x : A * B * C) b : x.1.2 = b -> x = (x.1.1, b, x.2).
Proof. destruct x as [[a b'] c]. by intros <-. Qed.

(** The one kind of attempt this request makes. *)
Definition five_kind (_ : nat) : PairAttempt := ManagedAttempt (Ok ()) (fun _ => Ok live_pair) (fun _ => Ok ()).

Lemma delivered_grant_saw_live_face_witness :
  FaceReply.is_face_grant seen_request.1.1 = true /\ seen_request.1.2 = true
  /\ exists i ring c votes, rests_on (five_kind i) ring c votes /\ Forall (cast_by five_kind i) votes
       /\ pair_evidence no_digest setup boundary enrolled c votes.
Proof.
  assert (Hg : FaceReply.is_face_grant seen_request.1.1 = true) by (vm_compute; reflexivity).
  assert (Hs : seen_request.1.2 = true) by (vm_compute; reflexivity).
  split; [exact Hg|]. split; [exact Hs|].
  assert (Hl : attempt_loop None 1 4000 1000 (five_pair_attempts None 1000) 0 start idle
               = Some (five_answer.1.1, false, false, five_answer.1.2, five_answer.2)) by (vm_compute; reflexivity).
  pose proof (triple _ _ Hs) as Hr.
  assert (He : FaceReply.en_engine seen_env = face_outcome (fun _ => 0) (fun _ => "match"%string) <$> five_answer.1.1)
    by (unfold seen_env; cbn [FaceReply.en_engine]; exact eq_refl).
  destruct (delivered_grant_saw_live_face no_digest setup boundary enrolled None 4000 1000 setup_base setup_infrared
    (fun _ => 0) (fun _ => "match"%string) five_kind (five_pair_attempts None 1000) 1 start idle _ _ _ _ _ _ _ _ _ seen_env _ _ _
    (fun _ => attempt_of_runs _) idle_valid eq_refl Hl He Hr Hg)
    as (o & i & s1 & c & votes & _ & _ & _ & Hon & Hcast & Hpair).
  exists i, (vit_scores s1), c, votes. split; [exact Hon|]. split; [exact Hcast|exact Hpair].
Defined.
