(* ===== verification/UvcDescriptor.v ===== *)
(** * USB descriptors of a camera

    [irlume-camera/src/uvc_descriptor.rs]: the walks over a camera's USB
    descriptors that say which extension units its video function has, which
    controls each advertises and whether the function is an infrared one, and
    the identity that an undo record is bound to.  They decide which control
    of a camera irlume may write to.

    A walk runs over the descriptors one after the other, by their own length
    ([walk]).  A [usize] addition cannot overflow on slices in memory.  What
    is read from sysfs (the descriptor blob, the active configuration, the
    interface, the serial and the device path) is the data of a
    [CameraIdentity]. *)

From stdpp Require Import sorting.
From S2P Require Import Prelude Text.

Abbreviation bytes := (list byte).

(** ** Bytes *)

(** [d.get(i)], and [d[i]] where a length check has already passed. *)
Definition get8 (d : bytes) (i : nat) : option Z := byte_val <$> d !! i.
Definition at8 (d : bytes) (i : nat) : Z := default 0 (get8 d i).
(** A byte of [d] as a [usize]. *)
Definition get_size (d : bytes) (i : nat) : option nat := Z.to_nat <$> get8 d i.
(** [d.get(a..b)]. *)
Definition get_range (d : bytes) (a b : nat) : option bytes :=
  if bool_decide (a <= b <= length d)%nat then Some (take (b - a) (drop a d)) else None.
(** [u16::from_le_bytes] of two bytes of [d]. *)
Definition get_le16 (d : bytes) (i j : nat) : option Z :=
  lo ← get8 d i; hi ← get8 d j; Some (lo + 256 * hi).

(** ** Constants *)

Definition MS_CAMERA_CONTROL_XU : bytes :=
  map byte_of [220; 149; 63; 15; 50; 38; 78; 76; 146; 201; 160; 71; 130; 244; 59; 200].
Definition MSXU_FACE_AUTHENTICATION : Z := 6.
Definition MSXU_METADATA : Z := 9.
Definition MSXU_IR_TORCH : Z := 10.

Definition DESC_DEVICE : Z := 1.
Definition DESC_CONFIGURATION : Z := 2.
Definition DESC_INTERFACE : Z := 4.
Definition DESC_CS_INTERFACE : Z := 36.
Definition SUBTYPE_VC_HEADER : Z := 1.
Definition SUBTYPE_PROCESSING_UNIT : Z := 5.
Definition SUBTYPE_EXTENSION_UNIT : Z := 6.
Definition CLASS_VIDEO : Z := 14.
Definition SUBCLASS_VIDEOCONTROL : Z := 1.
Definition SUBCLASS_VIDEOSTREAMING : Z := 2.
Definition PU_COLOUR_CONTROLS : Z := 14540.   (** 0x38CC *)

(** ** Extension units *)

Record ExtensionUnit := MkUnit {
  unit_id : Z;
  guid : bytes;
  bm_controls : bytes;
  num_controls : Z;
}.

Definition is_microsoft_xu (u : ExtensionUnit) : bool := bool_decide (guid u = MS_CAMERA_CONTROL_XU).

(** [count_ones] of a byte. *)
Definition count_ones (b : byte) : Z :=
  Z.of_nat (length (filter (fun i => Z.testbit (byte_val b) (Z.of_nat i)) (seq 0 8))).
Definition bitmap_is_self_consistent (u : ExtensionUnit) : bool :=
  bool_decide (foldr (fun b n => count_ones b + n) 0 (bm_controls u) <= num_controls u).

Definition advertises (u : ExtensionUnit) (selector : Z) : bool :=
  if bool_decide (selector = 0) then false
  else if negb (bitmap_is_self_consistent u) then false
  else
    let bit := Z.to_nat (selector - 1) in
    match bm_controls u !! (bit / 8)%nat with
    | Some b => negb (bool_decide (Z.land (byte_val b) (Z.shiftl 1 (Z.of_nat (bit mod 8))) = 0))
    | None => false
    end.

(** The bytes of one [VC_EXTENSION_UNIT]. *)
Definition parse_extension_unit (d : bytes) : option ExtensionUnit :=
  id ← get8 d 3;
  g ← get_range d 4 20;
  num_in_pins ← get_size d 21;
  let control_size_at := (22 + num_in_pins)%nat in
  control_size ← get_size d control_size_at;
  bm ← get_range d (control_size_at + 1) (control_size_at + 1 + control_size);
  n ← get8 d 20;
  Some (MkUnit id g bm n).

(** ** Walking the descriptors *)

(** The descriptors of [rest] in order, each by its own [bLength]; [None] where
    one is too short to have a header, has a length below two or runs over the
    end, or where [step] refuses. *)
Fixpoint walk {St : Type} (fuel : nat) (step : bytes -> St -> option St) (rest : bytes) (s : St) : option St :=
  match rest with
  | [] => Some s
  | _ =>
      match fuel with
      | O => None
      | S fuel =>
          header ← get_range rest 0 2;
          let len := Z.to_nat (at8 header 0) in
          if bool_decide (len < 2)%nat || bool_decide (length rest < len)%nat then None
          else s ← step (take len rest) s; walk fuel step (drop len rest) s
      end
  end.
Definition walk_all {St} (step : bytes -> St -> option St) (d : bytes) (s : St) : option St :=
  walk (length d) step d s.

(** [extension_units_for_interface]: any malformed part refuses the whole. *)
Record UnitWalk := MkUnitWalk { w_configurations : nat; w_in_target : bool; w_out : list ExtensionUnit }.

Definition unit_step (interface_number : Z) (d : bytes) (s : UnitWalk) : option UnitWalk :=
  let '(MkUnitWalk n inside out) := s in
  let kind := at8 d 1 in
  if bool_decide (kind = DESC_CONFIGURATION) then
    let n := S n in
    if negb (bool_decide (n = 1%nat)) || bool_decide (length d < 9)%nat || bool_decide (at8 d 5 = 0) then None
    else Some (MkUnitWalk n false out)
  else if bool_decide (kind = DESC_INTERFACE) then
    if bool_decide (length d < 9)%nat then None
    else Some (MkUnitWalk n (bool_decide (at8 d 2 = interface_number) && bool_decide (n = 1%nat)
                             && bool_decide (at8 d 5 = CLASS_VIDEO) && bool_decide (at8 d 6 = SUBCLASS_VIDEOCONTROL)) out)
  else if bool_decide (kind = DESC_CS_INTERFACE) && inside then
    if bool_decide (length d < 3)%nat then None
    else if bool_decide (at8 d 2 = SUBTYPE_EXTENSION_UNIT) then
      u ← parse_extension_unit d; Some (MkUnitWalk n inside (out ++ [u]))
    else Some s
  else Some s.

Definition extension_units_for_interface (desc : bytes) (interface_number : Z) : list ExtensionUnit :=
  match walk_all (unit_step interface_number) desc (MkUnitWalk 0 false []) with
  | Some s => w_out s
  | None => []
  end.

(** ** The active configuration *)

Record ViewWalk := MkViewWalk {
  v_at : nat;
  v_seen : list Z;
  v_count : nat;
  v_prefix_end : option nat;
  v_selected : option (nat * nat);
  v_current : option (Z * nat);
}.

(** The configuration that ends at [at] is the selected one if it is active. *)
Definition close_configuration (active : Z) (at_ : nat) (s : ViewWalk) : option (nat * nat) :=
  match v_current s with
  | Some (value, start) => if bool_decide (value = active) then Some (start, at_) else v_selected s
  | None => v_selected s
  end.

Definition view_step (active : Z) (d : bytes) (s : ViewWalk) : option ViewWalk :=
  let kind := at8 d 1 in
  let at_ := v_at s in
  let next := (at_ + length d)%nat in
  if bool_decide (kind = DESC_DEVICE) then None
  else if bool_decide (kind = DESC_CONFIGURATION) then
    if bool_decide (length d < 9)%nat then None
    else
      let value := at8 d 5 in
      if bool_decide (value = 0) || bool_decide (value ∈ v_seen s) then None
      else Some (MkViewWalk next (value :: v_seen s) (S (v_count s))
                   (Some (default at_ (v_prefix_end s))) (close_configuration active at_ s) (Some (value, at_)))
  else if bool_decide (kind = DESC_INTERFACE) && (bool_decide (length d < 9)%nat || bool_decide (v_current s = None)) then None
  else Some (MkViewWalk next (v_seen s) (v_count s) (v_prefix_end s) (v_selected s) (v_current s)).

(** [active_descriptor_view]. *)
Definition active_descriptor_view (raw : bytes) (active : Z) : option bytes :=
  if bool_decide (active = 0) || bool_decide (length raw < 18)%nat
     || negb (bool_decide (at8 raw 0 = 18)) || negb (bool_decide (at8 raw 1 = DESC_DEVICE)) then None
  else
    s ← walk_all (view_step active) (drop 18 raw) (MkViewWalk 18 [] 0 None None None);
    let selected := close_configuration active (length raw) s in
    if negb (bool_decide (v_count s = Z.to_nat (at8 raw 17))) then None
    else
      '(a, b) ← selected;
      prefix_end ← v_prefix_end s;
      Some (take prefix_end raw ++ take (b - a) (drop a raw)).

(** ** The video control function *)

Record VideoControlFunction := MkFunction {
  streaming_interfaces : list Z;
  processing_controls : list Z;
  extension_units : list ExtensionUnit;
}.

Inductive VideoControlWalk := Function_ (f : VideoControlFunction) | NotVideoControl.

(** The bitmap of a [VC_PROCESSING_UNIT], its first four bytes. *)
Definition processing_unit_controls (d : bytes) : option Z :=
  size ← get_size d 7;
  bitmap ← get_range d 8 (8 + size);
  Some (foldr (fun b bits => Z.lor (byte_val b) (Z.shiftl bits 8)) 0 (take 4 bitmap)).

(** A terminal or unit: its subtype and the entities it reads. *)
Abbreviation Entity := (Z * list Z)%type.
Abbreviation Entities := (gmap Z Entity).

(** The entities of a [BTreeMap], in ascending order. *)
Definition id_le (a b : Z * Entity) : Prop := a.1 <= b.1.
#[export] Instance id_le_dec : RelDecision id_le.
Proof. intros a b. unfold id_le. solve_decision. Defined.
Definition by_id (es : Entities) : list (Z * Entity) := merge_sort id_le (map_to_list es).

Definition source_ok (es : Entities) (id source : Z) : bool :=
  negb (bool_decide (source = 0)) && negb (bool_decide (source = id))
  && match es !! source with
     | Some (subtype, _) => negb (bool_decide (subtype = 3))
     | None => false
     end.
Definition sources_ok (es : Entities) (x : Z * Entity) : bool :=
  let '(id, (subtype, sources)) := x in
  (bool_decide (subtype = 2) || negb (bool_decide (sources = []))) && forallb (source_ok es id) sources.

(** One pass over the entities: those whose sources are all placed. *)
Definition place_one (placed : gset Z) (x : Z * Entity) : gset Z :=
  let '(id, (_, sources)) := x in
  if negb (bool_decide (id ∈ placed)) && forallb (fun s => bool_decide (s ∈ placed)) sources
  then {[id]} ∪ placed else placed.
Definition place_pass (l : list (Z * Entity)) (placed : gset Z) : gset Z := foldl place_one placed l.
Fixpoint place_all (fuel : nat) (l : list (Z * Entity)) (placed : gset Z) : bool :=
  match fuel with
  | O => false
  | S fuel =>
      let next := place_pass l placed in
      if bool_decide (size next = length l) then true
      else if bool_decide (size next = size placed) then false
      else place_all fuel l next
  end.

(** [source_graph_is_sound]; a pass that does not end the loop places one. *)
Definition source_graph_is_sound (es : Entities) : bool :=
  forallb (sources_ok es) (by_id es) && place_all (S (size es)) (by_id es) ∅.

Record VideoWalk := MkVideoWalk {
  in_target_vc : bool;
  found_target_vc : bool;
  configurations : nat;
  declared_interfaces : nat;
  vc_block_closed : bool;
  entities : Entities;
  header_total : option nat;
  block_length : nat;
  endpoint_count : option nat;
  endpoint_addresses : gset Z;
  headers : nat;
  uvc_version : option Z;
  vw_streaming : list Z;
  vw_processing : list Z;
  vw_units : list ExtensionUnit;
  videostreaming : gset Z;
  interface_alternates : gset (Z * Z);
}.

Definition start_walk : VideoWalk :=
  MkVideoWalk false false 0 0 false ∅ None 0 None ∅ 0 None [] [] [] ∅ ∅.

(** [entities.get_mut(&id)?.1.extend(sources)]. *)
Definition read_from (id : Z) (sources : list Z) (es : Entities) : option Entities :=
  '(subtype, old) ← es !! id;
  Some (<[id := (subtype, old ++ sources)]> es).

(** The endpoints read since the last interface are those it declared. *)
Definition endpoints_differ (s : VideoWalk) : bool :=
  match endpoint_count s with
  | Some n => negb (bool_decide (n = size (endpoint_addresses s)))
  | None => false
  end.

Definition configuration_step (d : bytes) (s : VideoWalk) : option VideoWalk :=
  let n := S (configurations s) in
  if negb (bool_decide (n = 1%nat)) || bool_decide (length d < 9)%nat || bool_decide (at8 d 5 = 0) then None
  else Some (MkVideoWalk false (found_target_vc s) n (Z.to_nat (at8 d 4)) (vc_block_closed s) (entities s)
               (header_total s) (block_length s) (endpoint_count s) (endpoint_addresses s) (headers s) (uvc_version s)
               (vw_streaming s) (vw_processing s) (vw_units s) (videostreaming s) (interface_alternates s)).

Definition interface_step (interface_number : Z) (d : bytes) (s : VideoWalk) : option VideoWalk :=
  if bool_decide (length d < 9)%nat then None
  else if endpoints_differ s then None
  else if negb (bool_decide (configurations s = 1%nat))
          || bool_decide ((at8 d 2, at8 d 3) ∈ interface_alternates s) then None
  else
    let video := bool_decide (configurations s = 1%nat) && bool_decide (at8 d 5 = CLASS_VIDEO) in
    let streams := video && bool_decide (at8 d 6 = SUBCLASS_VIDEOSTREAMING) && bool_decide (at8 d 3 = 0)
                   && negb (bool_decide (at8 d 2 = interface_number)) in
    let target := video && bool_decide (at8 d 2 = interface_number) && bool_decide (at8 d 6 = SUBCLASS_VIDEOCONTROL) in
    if target && (negb (bool_decide (at8 d 3 = 0)) || found_target_vc s) then None
    else Some (MkVideoWalk target (found_target_vc s || target) (configurations s) (declared_interfaces s) false
                 (entities s) (header_total s) (block_length s) (Some (Z.to_nat (at8 d 4))) ∅ (headers s) (uvc_version s)
                 (vw_streaming s) (vw_processing s) (vw_units s)
                 (if streams then {[at8 d 2]} ∪ videostreaming s else videostreaming s)
                 ({[(at8 d 2, at8 d 3)]} ∪ interface_alternates s)).

(** What one terminal, unit or header of the function changes. *)
Record Block := MkBlock {
  bk_entities : Entities;
  bk_headers : nat;
  bk_version : option Z;
  bk_total : option nat;
  bk_streaming : list Z;
  bk_processing : list Z;
  bk_units : list ExtensionUnit;
}.
Definition block_of (s : VideoWalk) (es : Entities) : Block :=
  MkBlock es (headers s) (uvc_version s) (header_total s) (vw_streaming s) (vw_processing s) (vw_units s).
Definition with_entities (es : Entities) (b : Block) : Block :=
  MkBlock es (bk_headers b) (bk_version b) (bk_total b) (bk_streaming b) (bk_processing b) (bk_units b).

Definition at_least (n : nat) (d : bytes) : option () := if bool_decide (length d < n)%nat then None else Some ().

Definition header_step (d : bytes) (b : Block) : option Block :=
  version ← get_le16 d 3 4;
  if negb (bool_decide (version ∈ [256; 272; 336])) then None
  else
    total ← get_le16 d 5 6;
    count ← get_size d 11;
    l ← get_range d 12 (12 + count);
    Some (MkBlock (bk_entities b) (S (bk_headers b)) (Some version) (Some (Z.to_nat total)) (map byte_val l)
            (bk_processing b) (bk_units b)).

Definition processing_step (d : bytes) (b : Block) : option Block :=
  size ← get_size d 7;
  version ← bk_version b;
  let minimum := if bool_decide (272 <= version) then 10%nat else 9%nat in
  _ ← at_least (minimum + size) d;
  controls ← processing_unit_controls d;
  es ← read_from (at8 d 3) [at8 d 4] (bk_entities b);
  Some (MkBlock es (bk_headers b) (bk_version b) (bk_total b) (bk_streaming b)
          (bk_processing b ++ [controls]) (bk_units b)).

(** An input terminal, long enough for its kind. *)
Definition input_minimum (d : bytes) : option nat :=
  terminal ← get_le16 d 4 5;
  if bool_decide (terminal = 513) then n ← get_size d 14; Some (15 + n)%nat
  else if bool_decide (terminal = 514) then
    controls ← get_size d 8; n ← get_size d (9 + controls); Some (10 + controls + n)%nat
  else Some 8%nat.

Definition extension_step (d : bytes) (b : Block) : option Block :=
  pins ← get_size d 21;
  size ← get_size d (22 + pins);
  _ ← at_least (24 + pins + size) d;
  u ← parse_extension_unit d;
  es ← read_from (at8 d 3) (map byte_val (take pins (drop 22 d))) (bk_entities b);
  Some (MkBlock es (bk_headers b) (bk_version b) (bk_total b) (bk_streaming b) (bk_processing b) (bk_units b ++ [u])).

Definition block_step (d : bytes) (b : Block) : option Block :=
  let subtype := at8 d 2 in
  if bool_decide (subtype = SUBTYPE_VC_HEADER) then header_step d b
  else if bool_decide (subtype = SUBTYPE_PROCESSING_UNIT) then processing_step d b
  else if bool_decide (subtype = 2) then minimum ← input_minimum d; _ ← at_least minimum d; Some b
  else if bool_decide (subtype = 3) then
    _ ← at_least 9 d; es ← read_from (at8 d 3) [at8 d 7] (bk_entities b); Some (with_entities es b)
  else if bool_decide (subtype = 4) then
    pins ← get_size d 4;
    _ ← at_least (6 + pins) d;
    es ← read_from (at8 d 3) (map byte_val (take pins (drop 5 d))) (bk_entities b); Some (with_entities es b)
  else if bool_decide (subtype = 7) then
    version ← bk_version b;
    if negb (bool_decide (version = 336)) then None
    else
      size ← get_size d 6;
      _ ← at_least (7 + 2 * size) d;
      es ← read_from (at8 d 3) [at8 d 4] (bk_entities b); Some (with_entities es b)
  else if bool_decide (subtype = SUBTYPE_EXTENSION_UNIT) then extension_step d b
  else None.

(** Terminals and units share one name space. *)
Definition declare_entity (d : bytes) (es : Entities) : option Entities :=
  if bool_decide (2 <= at8 d 2 <= 7) then
    id ← get8 d 3;
    if bool_decide (id = 0) || bool_decide (is_Some (es !! id)) then None
    else Some (<[id := (at8 d 2, [])]> es)
  else Some es.

Definition cs_interface_step (d : bytes) (s : VideoWalk) : option VideoWalk :=
  if bool_decide (length d < 3)%nat || vc_block_closed s then None
  else if negb (bool_decide (at8 d 2 = SUBTYPE_VC_HEADER)) && negb (bool_decide (headers s = 1%nat)) then None
  else
    es ← declare_entity d (entities s);
    b ← block_step d (block_of s es);
    Some (MkVideoWalk (in_target_vc s) (found_target_vc s) (configurations s) (declared_interfaces s) (vc_block_closed s)
            (bk_entities b) (bk_total b) (block_length s + length d) (endpoint_count s) (endpoint_addresses s)
            (bk_headers b) (bk_version b) (bk_streaming b) (bk_processing b) (bk_units b)
            (videostreaming s) (interface_alternates s)).

Definition close_block (endpoints : gset Z) (s : VideoWalk) : VideoWalk :=
  MkVideoWalk (in_target_vc s) (found_target_vc s) (configurations s) (declared_interfaces s)
    (vc_block_closed s || in_target_vc s) (entities s) (header_total s) (block_length s) (endpoint_count s) endpoints
    (headers s) (uvc_version s) (vw_streaming s) (vw_processing s) (vw_units s) (videostreaming s) (interface_alternates s).

Definition endpoint_step (d : bytes) (s : VideoWalk) : option VideoWalk :=
  let address := at8 d 2 in
  if bool_decide (length d < 7)%nat || bool_decide (endpoint_count s = None) || bool_decide (Z.land address 15 = 0)
     || negb (bool_decide (Z.land address 112 = 0)) || bool_decide (address ∈ endpoint_addresses s) then None
  else if in_target_vc s && (bool_decide (Z.land address 128 = 0) || negb (bool_decide (Z.land (at8 d 3) 3 = 3))) then None
  else Some (close_block ({[address]} ∪ endpoint_addresses s) s).

Definition video_step (interface_number : Z) (d : bytes) (s : VideoWalk) : option VideoWalk :=
  let kind := at8 d 1 in
  if bool_decide (kind = DESC_CONFIGURATION) then configuration_step d s
  else if bool_decide (kind = DESC_INTERFACE) then interface_step interface_number d s
  else if bool_decide (kind = DESC_CS_INTERFACE) && in_target_vc s then cs_interface_step d s
  else if bool_decide (kind = 5) then endpoint_step d s
  else Some (close_block (endpoint_addresses s) s).

Definition video_control_walk (desc : bytes) (interface_number : Z) : option VideoControlWalk :=
  s ← walk_all (video_step interface_number) desc start_walk;
  if endpoints_differ s then None
  else if negb (bool_decide (size (set_map fst (interface_alternates s) : gset Z) = declared_interfaces s)) then None
  else if negb (found_target_vc s) then Some NotVideoControl
  else if negb (bool_decide (headers s = 1%nat)) then None
  else if negb (bool_decide (header_total s = Some (block_length s))) then None
  else if negb (source_graph_is_sound (entities s)) then None
  else if existsb (fun n => negb (bool_decide (n ∈ videostreaming s))) (vw_streaming s) then None
  else Some (Function_ (MkFunction (vw_streaming s) (vw_processing s) (vw_units s))).

Definition video_control_function (desc : bytes) (interface_number : Z) : option VideoControlFunction :=
  match video_control_walk desc interface_number with
  | Some (Function_ f) => Some f
  | _ => None
  end.

(** ** What the function attests *)

Inductive IrFunctionRefusal :=
| Unreadable | Malformed | NotAVideoControl | StreamingInterfaces (n : nat)
| NoMicrosoftXu | AmbiguousMicrosoftXu | NoFaceAuthentication | ColourProcessing (bits : Z).
Record IrFunctionEvidence := MkEvidence { msxu_unit : Z; streaming_interface : Z }.

Definition ir_function_evidence (view : bytes) (vc_interface : Z) : result IrFunctionRefusal IrFunctionEvidence :=
  match video_control_walk view vc_interface with
  | None => Err Malformed
  | Some NotVideoControl => Err NotAVideoControl
  | Some (Function_ f) =>
      match streaming_interfaces f with
      | [only] =>
          match filter (fun u => is_microsoft_xu u = true) (extension_units f) with
          | [] => Err NoMicrosoftXu
          | [unit] =>
              if negb (advertises unit MSXU_FACE_AUTHENTICATION) then Err NoFaceAuthentication
              else
                let colour := Z.land (foldl Z.lor 0 (processing_controls f)) PU_COLOUR_CONTROLS in
                if negb (bool_decide (colour = 0)) then Err (ColourProcessing colour)
                else Ok (MkEvidence (unit_id unit) only)
          | _ :: _ :: _ => Err AmbiguousMicrosoftXu
          end
      | l => Err (StreamingInterfaces (length l))
      end
  end.

(** ** The camera *)

Record CameraIdentity := MkIdentity {
  descriptors : bytes;
  active_configuration : Z;
  interface_number : Z;
  vid : Z;
  pid : Z;
  serial : option str;
  usb_devpath : str;
}.

Definition configuration_value (id : CameraIdentity) : option Z :=
  _ ← active_descriptor_view (descriptors id) (active_configuration id); Some (active_configuration id).

Definition identity_units (id : CameraIdentity) : list ExtensionUnit :=
  match active_descriptor_view (descriptors id) (active_configuration id) with
  | Some view => extension_units_for_interface view (interface_number id)
  | None => []
  end.

(** [microsoft_xu]: the only one, or none. *)
Definition microsoft_xu (id : CameraIdentity) : option ExtensionUnit :=
  match filter (fun u => is_microsoft_xu u = true) (identity_units id) with
  | [only] => Some only
  | _ => None
  end.

Definition identity_evidence (id : CameraIdentity) : result IrFunctionRefusal IrFunctionEvidence :=
  match active_descriptor_view (descriptors id) (active_configuration id) with
  | Some view => ir_function_evidence view (interface_number id)
  | None => Err Malformed
  end.

(** [{:04x}]. *)
Definition hex_digit (n : Z) : Z := if bool_decide (n < 10) then 48 + n else 87 + n.
Definition hex16 (n : Z) : str := map (fun i => hex_digit (Z.land (Z.shiftr n (4 * i)) 15)) [3; 2; 1; 0].
Definition usb_id (id : CameraIdentity) : str := hex16 (vid id) ++ [58] ++ hex16 (pid id).

Section Fingerprint.
Context (sha256_hex : bytes -> str).

Definition configuration_domain : bytes := map byte_of (str_codes "irlume-usb-configuration-v1" ++ [0]).

Definition descriptor_fingerprint (id : CameraIdentity) : str :=
  if bool_decide (get8 (descriptors id) 17 = Some 1) && bool_decide (is_Some (configuration_value id))
  then sha256_hex (descriptors id)
  else sha256_hex (configuration_domain ++ [byte_of (active_configuration id)] ++ descriptors id).
End Fingerprint.

(** ** Link speed *)

(** [parse_speed_millimbps]. *)
Fixpoint pad_fraction (n : nat) (v : Z) : option Z :=
  match n with O => Some v | S n => v ← checked_mul 64 v 10; pad_fraction n v end.
Definition parse_speed_millimbps (raw : str) : option Z :=
  let '(whole, fraction) := default (raw, []) (split_once 46 raw) in
  if bool_decide (whole = []) || negb (forallb is_ascii_digit whole)
     || bool_decide (3 < length fraction)%nat || negb (forallb is_ascii_digit fraction) then None
  else
    w ← parse_uint_codes 64 whole;
    f ← (if bool_decide (fraction = []) then Some 0 else parse_uint_codes 64 fraction);
    f ← pad_fraction (3 - length fraction) f;
    w ← checked_mul 64 w 1000;
    v ← checked_add 64 w f;
    if bool_decide (0 < v) then Some v else None.

(** ** Proofs

    How a walk relates to another over the same descriptors and to the part it
    has read ([walk_sim], [walk_inv]); what a sound source graph is ([fed]);
    what an active view is made of ([configured]). *)

(** A chain of reads that answered [Some]. *)
Ltac bind_inv :=
  repeat match goal with
  | H : mbind _ ?m = Some _ |- _ => let E := fresh "Hm" in destruct m eqn:E; cbn [mbind option_bind] in H; [|discriminate H]
  end.

(** ** Walks *)

Lemma walk_sim {S1 S2} (R : S1 -> S2 -> Prop) step1 step2 :
  (forall d s1 s2 s1', R s1 s2 -> step1 d s1 = Some s1' -> exists s2', step2 d s2 = Some s2' /\ R s1' s2') ->
  forall fuel d s1 s2 s1', R s1 s2 -> walk fuel step1 d s1 = Some s1' ->
  exists s2', walk fuel step2 d s2 = Some s2' /\ R s1' s2'.
Proof.
  intros Hstep fuel. induction fuel as [|fuel IH]; intros [|b d] s1 s2 s1' HR; simpl; try naive_solver.
  destruct (get_range (b :: d) 0 2) as [h|]; simpl; [|done]. destruct (_ || _); [done|].
  destruct (step1 _ s1) as [s1''|] eqn:H1; simpl; [|done].
  destruct (Hstep _ _ _ _ HR H1) as (s2'' & -> & HR'). simpl. by apply IH.
Qed.

(** A descriptor as long as it says. *)
Definition framed (d : bytes) : Prop := (2 <= length d)%nat /\ Z.to_nat (at8 d 0) = length d.

Lemma at8_app_l d r i : (i < length d)%nat -> at8 (d ++ r) i = at8 d i.
Proof. intros. unfold at8, get8. by rewrite lookup_app_l. Qed.

Lemma at8_take n d i : (i < n)%nat -> at8 (take n d) i = at8 d i.
Proof. intros. unfold at8, get8. by rewrite lookup_take_lt. Qed.

Lemma walk_inv {St} (P : bytes -> St -> Prop) step :
  (forall read d s s', P read s -> framed d -> step d s = Some s' -> P (read ++ d) s') ->
  forall fuel d s s' read, P read s -> walk fuel step d s = Some s' -> P (read ++ d) s'.
Proof.
  intros Hstep fuel. induction fuel as [|fuel IH]; intros [|b d] s s' read HP; cbn [walk].
  1-3: intros [= <-]; by rewrite app_nil_r. intros Hw.
  destruct (get_range (b :: d) 0 2) as [h|] eqn:Hh; simpl in Hw; [|done].
  assert (Hlen : at8 h 0 = at8 (b :: d) 0).
  { clear Hw. unfold get_range in Hh. case_bool_decide; [|done]. apply Some_inj in Hh as <-. rewrite drop_0. apply at8_take. lia. }
  rewrite Hlen in Hw. set (len := Z.to_nat (at8 (b :: d) 0)) in *. destruct (bool_decide (len < 2)%nat) eqn:H2; [done|].
  destruct (bool_decide _) eqn:Hl in Hw; [done|]. reflect_bools.
  destruct (step _ s) as [s1|] eqn:H1; simpl in Hw; [|done].
  rewrite <-(take_drop len (b :: d)), app_assoc. eapply IH; [|exact Hw]. eapply Hstep; [done| |exact H1].
  assert (Htake : length (take len (b :: d)) = len) by (rewrite length_take; clearbody len; cbn [length] in *; lia).
  split; [clearbody len; lia|]. rewrite at8_take by (clearbody len; lia). done.
Qed.

(** ** Two walks, one set of units *)

Definition same_units (s : VideoWalk) (u : UnitWalk) : Prop :=
  w_configurations u = configurations s /\ w_in_target u = in_target_vc s /\ w_out u = vw_units s.

Lemma block_step_units d b b' :
  block_step d b = Some b' ->
  if decide (at8 d 2 = SUBTYPE_EXTENSION_UNIT)
  then exists u, parse_extension_unit d = Some u /\ bk_units b' = bk_units b ++ [u]
  else bk_units b' = bk_units b.
Proof.
  unfold block_step. intros H. repeat (case_bool_decide; [|try done]).
  all: match goal with |- context [decide ?P] => destruct (decide P) end; try (unfold SUBTYPE_VC_HEADER, SUBTYPE_PROCESSING_UNIT, SUBTYPE_EXTENSION_UNIT in *; congruence).
  all: unfold header_step, processing_step, extension_step in H.
  all: bind_inv; repeat (case_match; simplify_eq/=; bind_inv); simplify_eq/=; eauto.
Qed.

Lemma video_step_units n d s u s' :
  same_units s u -> video_step n d s = Some s' -> exists u', unit_step n d u = Some u' /\ same_units s' u'.
Proof.
  intros (Hn & Hin & Hout). unfold video_step, unit_step. destruct u as [un uin uout]. simpl in *. subst un uin uout.
  case_bool_decide.
  { unfold configuration_step. destruct (_ || _); [done|]. intros [= <-]. eexists. split; [done|]. done. }
  case_bool_decide.
  { unfold interface_step. case_bool_decide; [done|]. destruct (endpoints_differ s); [done|].
    destruct (negb _ || _) eqn:Hc; [done|]. destruct (_ && (negb _ || _)); [done|]. intros [= <-].
    apply orb_false_iff in Hc as [Hc _]. apply negb_false_iff in Hc.
    eexists. split; [done|]. split_and!; [done| |done]. cbn [w_in_target in_target_vc]. rewrite Hc.
    destruct (bool_decide (at8 d 2 = n)), (bool_decide (at8 d 5 = CLASS_VIDEO)); done. }
  destruct (_ && _) eqn:Hcs.
  - unfold cs_interface_step. destruct (bool_decide (length d < 3)%nat); [done|]. destruct (vc_block_closed s); [done|]. simpl.
    destruct (negb _ && negb _); [done|]. destruct (declare_entity d _) as [es|]; simpl; [|done].
    destruct (block_step d _) as [b|] eqn:Hb; simpl; [|done]. intros [= <-]. apply block_step_units in Hb.
    destruct (decide (at8 d 2 = SUBTYPE_EXTENSION_UNIT)) as [E|E].
    + rewrite bool_decide_true by done. destruct Hb as (u & -> & Hb). eexists. split; [done|].
      split_and!; [done..|]. simpl. by rewrite Hb.
    + rewrite bool_decide_false by done. eexists. split; [done|]. split_and!; [done..|]. simpl. by rewrite Hb.
  - destruct (bool_decide (at8 d 1 = 5)).
    + intros Hs. assert (exists es, s' = close_block es s) as [es ->]
        by (unfold endpoint_step in Hs; repeat case_match; simplify_eq; eauto).
      by eexists.
    + intros Hs. simplify_eq. by eexists.
Qed.

Lemma function_units desc n f :
  video_control_function desc n = Some f -> extension_units f = extension_units_for_interface desc n.
Proof.
  unfold video_control_function, video_control_walk, extension_units_for_interface.
  destruct (walk_all _ desc start_walk) as [s|] eqn:Hw; simpl; [|done].
  assert (H0 : same_units start_walk (MkUnitWalk 0 false [])) by done.
  destruct (walk_sim same_units (video_step n) (unit_step n)
              (fun d s u s' => video_step_units n d s u s') _ _ _ _ _ H0 Hw) as (u & Hu & _ & _ & Hout).
  unfold walk_all. rewrite Hu, Hout. intros H. repeat (case_match; simplify_eq/=; try done).
Qed.

(** ** Sound sources *)

(** An entity whose signal comes from input terminals: it is one, or reads at
    least one entity and only fed ones that have an output. *)
Inductive fed (es : Entities) : Z -> Prop :=
| fed_terminal id : es !! id = Some (2, []) -> fed es id
| fed_by id subtype sources :
    es !! id = Some (subtype, sources) -> sources <> [] ->
    (forall s, s ∈ sources -> s <> 0 /\ exists t l, es !! s = Some (t, l) /\ t <> 3) ->
    (forall s, s ∈ sources -> fed es s) ->
    fed es id.

Lemma elem_of_by_id es id e : (id, e) ∈ by_id es <-> es !! id = Some e.
Proof. unfold by_id. rewrite merge_sort_Permutation. apply elem_of_map_to_list. Qed.

Lemma length_by_id es : length (by_id es) = size es.
Proof. unfold by_id. rewrite merge_sort_Permutation. apply length_map_to_list. Qed.

Lemma place_one_spec placed x y :
  y ∈ place_one placed x <-> (y ∈ placed \/ (y = x.1 /\ (x.1 ∉ placed) /\ forall s, s ∈ x.2.2 -> s ∈ placed)).
Proof.
  destruct x as [id [t sources]]. unfold place_one. simpl. case_bool_decide as Hid; simpl.
  - naive_solver.
  - destruct (forallb _ sources) eqn:Hf.
    + rewrite forallb_Forall, list.Forall_forall in Hf. setoid_rewrite bool_decide_eq_true in Hf.
      rewrite elem_of_union, elem_of_singleton. naive_solver.
    + split; [by left|]. intros [?|(-> & _ & Hall)]; [done|]. apply not_true_iff_false in Hf. destruct Hf.
      apply forallb_Forall, list.Forall_forall. intros s Hs. by apply bool_decide_eq_true, Hall.
Qed.

(** An entity all of whose sources, and theirs, are there. *)
Inductive leads_back (es : Entities) : Z -> Prop :=
| leads id subtype sources :
    es !! id = Some (subtype, sources) -> (forall s, s ∈ sources -> leads_back es s) -> leads_back es id.

Lemma place_pass_grows l placed : placed ⊆ place_pass l placed.
Proof.
  revert placed. induction l as [|x l IH]; intros placed; [done|]. unfold place_pass. simpl.
  transitivity (place_one placed x); [|apply IH]. intros y Hy. apply place_one_spec. by left.
Qed.

Lemma place_pass_leads es l placed :
  (forall id e, (id, e) ∈ l -> es !! id = Some e) -> (forall y, y ∈ placed -> leads_back es y) ->
  forall y, y ∈ place_pass l placed -> leads_back es y.
Proof.
  revert placed. induction l as [|[id [t sources]] l IH]; intros placed Hl Hp; [done|].
  apply IH; [set_solver|]. intros y [?|(-> & _ & Hall)]%place_one_spec; [by apply Hp|]. simpl in *.
  apply (leads es id t sources); [apply Hl; set_solver|]. intros s Hs. by apply Hp, Hall.
Qed.

Lemma place_pass_done l placed id e :
  (id, e) ∈ l -> place_pass l placed ⊆ placed -> (forall s, s ∈ e.2 -> s ∈ placed) -> id ∈ placed.
Proof.
  revert placed. induction l as [|x l IH]; intros placed Hin Hsub Hall; [by apply elem_of_nil in Hin|].
  assert (Hone : place_one placed x = placed).
  { apply set_eq. intros y. split; [|intros ?; apply place_one_spec; by left]. intros Hy. apply Hsub.
    unfold place_pass. simpl. by apply place_pass_grows. }
  apply elem_of_cons in Hin as [<-|Hin].
  - rewrite <-Hone. apply place_one_spec. destruct (decide (id ∈ placed)); [by left|right; by split_and!].
  - apply IH; [done| |done]. intros y Hy. apply Hsub. unfold place_pass. simpl. by rewrite Hone.
Qed.

Lemma place_pass_ids l placed y : y ∈ place_pass l placed -> y ∈ placed \/ exists e, (y, e) ∈ l.
Proof.
  revert placed. induction l as [|[id e] l IH]; intros placed; [by left|].
  change (place_pass ((id, e) :: l) placed) with (place_pass l (place_one placed (id, e))).
  intros [[?|(-> & _)]%place_one_spec|[e' ?]]%IH; [by left|right; exists e; set_solver|right; exists e'; set_solver].
Qed.

Lemma place_all_spec es fuel placed :
  placed ⊆ dom es -> (forall y, y ∈ placed -> leads_back es y) -> (size es < fuel + size placed)%nat ->
  place_all fuel (by_id es) placed = true <-> forall id, id ∈ dom es -> leads_back es id.
Proof.
  revert placed. induction fuel as [|fuel IH]; intros placed Hdom Hp Hf.
  { apply subseteq_size in Hdom. rewrite size_dom in Hdom. lia. }
  cbn [place_all]. set (next := place_pass (by_id es) placed).
  assert (Hsub : placed ⊆ next) by apply place_pass_grows.
  assert (Hnext : next ⊆ dom es).
  { intros y [?|[e He]]%place_pass_ids; [by apply Hdom|]. apply elem_of_by_id in He. apply elem_of_dom. by exists e. }
  assert (Hl : forall y, y ∈ next -> leads_back es y)
    by (apply place_pass_leads; [intros ? ?; apply elem_of_by_id|done]).
  rewrite length_by_id. case_bool_decide as Hall; [|case_bool_decide as Hstuck].
  - split; [|done]. intros _ id Hid. apply Hl. assert (next ≡ dom es) as -> by (apply set_subseteq_size_equiv; [done|rewrite size_dom; lia]). done.
  - split; [done|]. intros Hlead. exfalso. apply Hall. rewrite <-(size_dom (D:=gset Z) es). f_equal. apply set_eq. intros y.
    split; [apply Hnext|]. intros Hy. apply Hsub. specialize (Hlead y Hy). clear Hy. induction Hlead as [id t sources He _ IHs].
    apply (place_pass_done (by_id es) placed id (t, sources)); [by apply elem_of_by_id| |done].
    assert (next ≡ placed) as Heq; [|fold next; set_solver]. symmetry. apply set_subseteq_size_equiv; [done|lia].
  - apply IH; [done|done|]. apply subseteq_size in Hsub. lia.
Qed.

Lemma fed_leads es id : fed es id -> leads_back es id.
Proof. induction 1 as [id H|id t sources H _ _ _ IH]; [by eapply leads; [|intros s ?%elem_of_nil]|by eapply leads]. Qed.

Lemma fed_not_itself es id t sources : fed es id -> es !! id = Some (t, sources) -> id ∉ sources.
Proof.
  intros Hf. revert t sources. induction Hf as [id H|id t' sources' H _ _ _ IH]; intros t sources Ht Hin; simplify_eq.
  - by apply elem_of_nil in Hin.
  - by eapply IH.
Qed.

Lemma source_ok_spec es id s :
  source_ok es id s = true <-> s <> 0 /\ s <> id /\ exists t l, es !! s = Some (t, l) /\ t <> 3.
Proof.
  unfold source_ok. rewrite !andb_true_iff, !negb_true_iff, !bool_decide_eq_false. destruct (es !! s) as [[t l]|].
  - rewrite negb_true_iff, bool_decide_eq_false. naive_solver.
  - naive_solver.
Qed.

Lemma sound_sources es : source_graph_is_sound es = true <-> forall id, id ∈ dom es -> fed es id.
Proof.
  unfold source_graph_is_sound. rewrite andb_true_iff, forallb_Forall, list.Forall_forall.
  rewrite place_all_spec; [|set_solver|set_solver|lia]. split.
  - intros [Hok Hlead] id Hid. specialize (Hlead id Hid). clear Hid. induction Hlead as [id t sources He _ IH].
    assert (Hin : (id, (t, sources)) ∈ by_id es) by by apply elem_of_by_id. specialize (Hok _ Hin). simpl in Hok.
    apply andb_true_iff in Hok as [Hsome Hall]. rewrite forallb_Forall, list.Forall_forall in Hall.
    setoid_rewrite source_ok_spec in Hall. destruct (decide (sources = [])) as [->|Hne].
    + apply fed_terminal. apply orb_true_iff in Hsome as [->%bool_decide_eq_true|]; done.
    + eapply fed_by; [done|done| |done]. naive_solver.
  - intros Hfed. split; [|intros id ?; by apply fed_leads, Hfed]. intros [id [t sources]] He%elem_of_by_id.
    assert (Hf : fed es id) by (apply Hfed, elem_of_dom; eauto). pose proof (fed_not_itself _ _ _ _ Hf He) as Hself. simpl.
    apply andb_true_iff. rewrite forallb_Forall, list.Forall_forall. inversion Hf as [? He'|? ? ? He' Hne Hs _]; simplify_eq.
    + split; [done|]. by intros s ?%elem_of_nil.
    + split; [apply orb_true_iff; right; by rewrite bool_decide_false|]. intros s Hin. apply source_ok_spec.
      destruct (Hs s Hin) as [? ?]. split_and!; [done| |done]. by intros ->.
Qed.

(** ** The active view *)

Definition other (d : bytes) : Prop := framed d /\ at8 d 1 <> DESC_CONFIGURATION.
(** One configuration: its descriptor, and what follows up to the next. *)
Definition configured (c : bytes) : Prop :=
  exists d ds, c = d ++ concat ds /\ framed d /\ (9 <= length d)%nat /\ at8 d 1 = DESC_CONFIGURATION /\ at8 d 5 <> 0 /\ Forall other ds.
Definition value (c : bytes) : Z := at8 c 5.

Definition chosen (active : Z) (n : nat) (confs : list bytes) (r : nat * nat) : Prop :=
  exists l1 c l2, confs = l1 ++ c :: l2 /\ value c = active
    /\ r = ((n + length (concat l1))%nat, (n + length (concat l1) + length c)%nat).

Definition viewing (active : Z) (top read : bytes) (s : ViewWalk) : Prop :=
  v_at s = length read /\ exists ds, Forall other ds /\
  match v_current s with
  | None => read = top ++ concat ds /\ v_seen s = [] /\ v_count s = 0%nat /\ v_prefix_end s = None /\ v_selected s = None
  | Some (v, start) =>
      let pre := top ++ concat ds in
      exists confs c, read = pre ++ concat confs ++ c /\ Forall configured confs /\ configured c /\ v = value c
        /\ start = length (pre ++ concat confs) /\ v_prefix_end s = Some (length pre)
        /\ v_count s = S (length confs) /\ v_seen s = reverse (map value (confs ++ [c])) /\ NoDup (v_seen s)
        /\ forall r, v_selected s = Some r -> chosen active (length pre) confs r
  end.

Lemma chosen_later active n confs c r : chosen active n confs r -> chosen active n (confs ++ [c]) r.
Proof. intros (l1 & c' & l2 & -> & ? & ->). exists l1, c', (l2 ++ [c]). by rewrite <-app_assoc. Qed.

Lemma close_chosen active top ds confs c s r :
  let pre := top ++ concat ds in
  v_current s = Some (value c, length (pre ++ concat confs)) ->
  (forall r, v_selected s = Some r -> chosen active (length pre) confs r) ->
  close_configuration active (length (pre ++ concat confs ++ c)) s = Some r ->
  chosen active (length pre) (confs ++ [c]) r.
Proof.
  intros pre Hc Hs. unfold close_configuration. rewrite Hc. case_bool_decide; intros Hr; [|by apply chosen_later, Hs].
  injection Hr as <-. exists confs, c, []. split_and!; [done|done|]. rewrite !length_app. f_equal; lia.
Qed.

Lemma configured_extends c d : configured c -> other d -> configured (c ++ d) /\ value (c ++ d) = value c.
Proof.
  intros (h & ds & -> & Hf & H9 & H1 & H5 & Hds) Hd. split.
  - exists h, (ds ++ [d]). rewrite concat_app. simpl. rewrite app_nil_r, <-app_assoc. split_and!; [done..|].
    apply Forall_app. by split; [|constructor].
  - unfold value. apply at8_app_l. rewrite length_app. lia.
Qed.

Lemma viewing_step active top read d s s' :
  viewing active top read s -> framed d -> view_step active d s = Some s' -> viewing active top (read ++ d) s'.
Proof.
  intros (Hat & ds & Hds & Hs) Hd. unfold view_step. case_bool_decide; [done|]. case_bool_decide as Hconf.
  - case_bool_decide as H9; [done|]. destruct (bool_decide (at8 d 5 = 0)) eqn:H5; [done|].
    destruct (bool_decide (at8 d 5 ∈ v_seen s)) eqn:Hseen; [done|]. reflect_bools. intros [= <-].
    assert (Hc : configured d) by (exists d, []; simpl; rewrite app_nil_r; split_and!; [done|done|lia|done|done|constructor]).
    split; [simpl; rewrite Hat, length_app; lia|]. exists ds. split; [done|].
    destruct (v_current s) as [[v start]|] eqn:Hcur; cbn [v_current v_prefix_end v_count v_seen v_selected].
    + destruct Hs as (confs & c & -> & Hcs & Hc' & -> & -> & Hpe & Hn & Hse & Hnd & Hsel).
      exists (confs ++ [c]), d. rewrite concat_app, Hpe, <-!app_assoc. simpl. rewrite app_nil_r.
      split_and!; try done.
      * by apply Forall_app; split; [|constructor].
      * rewrite Hat. by rewrite <-!app_assoc.
      * rewrite Hn, length_app. simpl. lia.
      * rewrite Hse, !map_app. simpl. by rewrite !reverse_app.
      * by constructor.
      * intros r Hr. rewrite Hat in Hr. by apply (close_chosen active top ds confs c s r).
    + destruct Hs as (-> & Hse & Hn & Hpe & Hsel). exists [], d. rewrite Hse, Hn, Hpe. simpl. split_and!; try done.
      * by rewrite app_nil_r, Hat.
      * by rewrite Hat.
      * apply NoDup_singleton.
      * unfold close_configuration. by rewrite Hcur, Hsel.
  - destruct (_ && _) eqn:Hif; [done|]. intros [= <-].
    assert (Ho : other d) by done. split; [simpl; rewrite Hat, length_app; lia|].
    cbn [v_current v_prefix_end v_count v_seen v_selected].
    destruct (v_current s) as [[v start]|] eqn:Hcur.
    + destruct Hs as (confs & c & -> & Hcs & Hc' & -> & -> & Hpe & Hn & Hse & Hnd & Hsel).
      exists ds. split; [done|]. destruct (configured_extends c d Hc' Ho) as [? Hv].
      exists confs, (c ++ d). rewrite map_app. simpl. rewrite Hv, <-!app_assoc. split_and!; try done.
      rewrite Hse, map_app. done.
    + destruct Hs as [-> Hs]. exists (ds ++ [d]). rewrite concat_app. simpl. rewrite app_nil_r, app_assoc.
      split; [|by split]. apply Forall_app. by split; [|constructor].
Qed.

(** What the active view is: the part before the configurations, with the one
    configuration that has the active value, of as many as the device has. *)
Lemma active_view_spec raw active view :
  active_descriptor_view raw active = Some view ->
  exists top ds confs c, length top = 18%nat /\ Forall other ds /\ Forall configured confs
    /\ raw = (top ++ concat ds) ++ concat confs /\ NoDup (map value confs) /\ length confs = Z.to_nat (at8 raw 17)
    /\ c ∈ confs /\ value c = active /\ view = (top ++ concat ds) ++ c.
Proof.
  unfold active_descriptor_view. destruct (_ || _) eqn:Hg; [done|]. reflect_bools.
  destruct (walk_all _ _ _) as [s|] eqn:Hw; simpl; [|done].
  assert (Htop : length (take 18 raw) = 18%nat) by (rewrite length_take; lia).
  assert (Hv : viewing active (take 18 raw) (take 18 raw ++ drop 18 raw) s).
  { eapply walk_inv; [apply viewing_step| |exact Hw]. split; [done|]. exists []. split; [constructor|]. simpl.
    by rewrite app_nil_r. }
  rewrite take_drop in Hv. set (top := take 18 raw) in *. clearbody top. destruct Hv as (Hat & ds & Hds & Hs). case_bool_decide as Hn; [|done]. simpl.
  destruct (v_current s) as [[v start]|] eqn:Hcur.
  - destruct Hs as (confs & c & Hraw & Hcs & Hc & -> & -> & Hpe & Hcount & Hse & Hnd & Hsel).
    destruct (close_configuration _ _ s) as [[a b]|] eqn:Hcl; simpl; [|done]. rewrite Hpe. simpl. intros [= <-].
    rewrite Hraw in Hcl. destruct (close_chosen active _ ds confs c s (a, b) Hcur Hsel Hcl) as (l1 & c' & l2 & Hl & Hval & Hr).
    assert (Hraw' : raw = (top ++ concat ds) ++ concat l1 ++ c' ++ concat l2).
    { rewrite Hraw at 1. f_equal. transitivity (concat (confs ++ [c])); [by rewrite concat_app; simpl; rewrite app_nil_r|].
      rewrite Hl, concat_app. done. }
    exists top, ds, (confs ++ [c]), c'. split_and!.
    + done.
    + done.
    + by apply Forall_app; split; [|constructor].
    + rewrite concat_app. simpl. by rewrite app_nil_r.
    + rewrite Hse, reverse_Permutation in Hnd. done.
    + rewrite <-Hn, Hcount, length_app. simpl. lia.
    + rewrite Hl. set_solver.
    + done.
    + injection Hr as -> ->. rewrite Hraw'. f_equal.
      * by rewrite take_app_length.
      * rewrite <-length_app, app_assoc, drop_app_length, Nat.add_comm, Nat.add_sub. by rewrite take_app_length.
  - destruct Hs as (_ & _ & _ & _ & Hs). unfold close_configuration. rewrite Hcur, Hs. done.
Qed.

(** A device with one configuration keeps its bytes. *)
Lemma single_configuration raw active view :
  at8 raw 17 = 1 -> active_descriptor_view raw active = Some view -> view = raw.
Proof.
  intros H1 (top & ds & confs & c & _ & _ & _ & Hraw & _ & Hn & Hc & _ & ->)%active_view_spec. rewrite H1 in Hn.
  destruct confs as [|c' [|]]; [done| |done]. apply list_elem_of_singleton in Hc as ->. rewrite Hraw. simpl. by rewrite app_nil_r.
Qed.
