(* ===== verification/EmitterJournal.v ===== *)
(** * The undo record of a camera control

    [irlume-camera/src/emitter_journal.rs] and the part of [ir_emitter.rs]
    that recovers from it: before irlume changes a control of a camera it
    records durably what the control held, so that a run that dies leaves
    something that says how to put it back; a recovery puts it back, a bounded
    number of times, and drops the record only after it has read the original
    back.

    The record files are one directory, the emitter configuration is a file of
    another.  A file has the contents a reader sees and those a power loss
    could bring back ([poss]); the directory's own entry may not last either
    until its ancestors were synced ([linked]).  A system call succeeds, fails
    or is the last one the process makes; what the camera, the process table
    and the lock answer, and the order a directory is listed in, are an [Env].
    An ioctl that fails may still have reached the camera.

    [mirror_device_access] (who may open the lock) and the texts of messages
    are not modelled; JSON and SHA-256 are parameters. *)

From S2P Require Import Prelude Text UvcDescriptor.

(** ** Calls *)

Inductive fault := Good | Fails | Dies.
Inductive LockAnswer := LockTaken | LockHeld | LockError.

(** What a query for a control answers: its bytes, or an error. *)
Inductive Query := GET_CUR | GET_MIN | GET_MAX | GET_RES | GET_LEN | GET_INFO | GET_DEF.

(** Why a request to an extension unit failed. *)
Inductive XuError := Unsupported | Unresponsive (errno : Z).

Class Env := {
  fate : nat -> fault;
  reply : nat -> Z -> Z -> Query -> result XuError bytes;    (** of a unit and selector *)
  accepts : nat -> Z -> Z -> bytes -> result XuError ();      (** [SET_CUR] *)
  locked : nat -> LockAnswer;
  boot_id_now : nat -> option str;
  alive : nat -> Z -> bool;                    (** [/proc/<pid>] exists *)
  listing : nat -> list str -> list str;       (** [read_dir] of these names *)
}.

(** What was asked of the camera, newest first. *)
Inductive event :=
| Read_ (unit selector : Z) (value : bytes)            (** [GET_CUR] answered *)
| Sent (unit selector : Z) (value : bytes).              (** [SET_CUR] went out *)

(** ** Files and power loss *)

(** [Some name] is a record, [None] the emitter configuration. *)
Abbreviation path := (option str).
Definition CONF : path := None.

Record disk := MkDisk {
  vis : gmap path bytes;
  old : gmap path (list (option bytes));
  linked : bool;
}.

Definition poss (d : disk) (p : path) : list (option bytes) :=
  vis d !! p :: default [] (old d !! p) ++ (if linked d || bool_decide (p = CONF) then [] else [None]).

Definition set_file (p : path) (v : option bytes) (d : disk) : disk :=
  MkDisk (match v with Some b => <[p := b]> (vis d) | None => delete p (vis d) end)
         (<[p := vis d !! p :: default [] (old d !! p)]> (old d)) (linked d).
(** The directory of the records was synced, or that of the configuration. *)
Definition synced (records : bool) (d : disk) : disk :=
  MkDisk (vis d) (filter (fun x => negb (bool_decide (is_Some x.1)) = records) (old d)) (linked d).
Definition link (d : disk) : disk := MkDisk (vis d) (old d) true.

(** A power loss: every file is one of those it could be. *)
Definition power_loss (d d' : disk) : Prop :=
  (forall p, vis d' !! p ∈ poss d p) /\ old d' = ∅ /\ linked d' = linked d.

(** ** The monad *)

Record world := MkWorld { tick : nat; store : disk; log : list event }.

Inductive outcome (A : Type) := Done (a : A) | Panicked | Died.
Arguments Done {A} a.
Arguments Panicked {A}.
Arguments Died {A}.

Definition M (A : Type) : Type := world -> outcome A * world.
#[export] Instance M_ret : MRet M := fun A a w => (Done a, w).
#[export] Instance M_bind : MBind M := fun A B f m w =>
  match m w with
  | (Done a, w) => f a w
  | (Panicked, w) => (Panicked, w)
  | (Died, w) => (Died, w)
  end.

(** [?] on a result. *)
Definition question {E A B} (m : M (result E A)) (f : A -> M (result E B)) : M (result E B) :=
  r ← m; match r with Ok a => f a | Err e => mret (Err e) end.
Notation "x ←? m ; k" := (question m (fun x => k)) (at level 20, m at level 100, k at level 200, right associativity).
Notation "' pat ←? m ; k" := (question m (fun y => match y with pat => k end))
  (at level 20, pat pattern, m at level 100, k at level 200, right associativity).

Section Calls.
Context `{Env}.

Definition bump (w : world) : world := MkWorld (S (tick w)) (store w) (log w).

(** A call that only answers, and one that succeeds or fails. *)
Definition ask {A} (f : nat -> A) : M A := fun w =>
  match fate (tick w) with
  | Dies => (Died, bump w)
  | _ => (Done (f (tick w)), bump w)
  end.
Definition sys : M (result () ()) := fun w =>
  match fate (tick w) with
  | Good => (Done (Ok ()), bump w)
  | Fails => (Done (Err ()), bump w)
  | Dies => (Died, bump w)
  end.
Definition modify (f : disk -> disk) : M () := fun w => (Done (), MkWorld (tick w) (f (store w)) (log w)).
Definition note (e : event) : M () := fun w => (Done (), MkWorld (tick w) (store w) (e :: log w)).
Definition look (p : path) : M (option bytes) := fun w => (Done (vis (store w) !! p), w).

(** ** The camera *)

(** A buffer of [size] zeroes that the query filled. *)
Definition fit (size : nat) (b : bytes) : bytes := take size (b ++ replicate size x00).

Definition get_of (unit selector : Z) (q : Query) (size : nat) : M (result XuError bytes) :=
  b ←? ask (fun n => reply n unit selector q); mret (Ok (fit size b)).

Definition get_cur (unit selector : Z) (size : nat) : M (result XuError bytes) :=
  r ← get_of unit selector GET_CUR size;
  match r with
  | Ok b => _ ← note (Read_ unit selector b); mret (Ok b)
  | Err e => mret (Err e)
  end.

(** [valid_ctrl_len] and [get_len]. *)
Definition get_len (unit selector : Z) : M (result XuError nat) :=
  b ←? get_of unit selector GET_LEN 2;
  let len := Z.to_nat (default 0 (get_le16 b 0 1)) in
  mret (if bool_decide (1 <= len <= 64)%nat then Ok len else Err Unsupported).
Definition get_info (unit selector : Z) : M (result XuError Z) := b ←? get_of unit selector GET_INFO 1; mret (Ok (at8 b 0)).

(** [set_cur]: the event is what may have reached the camera, were the process
    killed in the call.  A write the lease refuses is one not accepted, and its
    event one too many. *)
Definition set_cur (unit selector : Z) (payload : bytes) : M (result XuError ()) :=
  _ ← note (Sent unit selector payload);
  ask (fun n => accepts n unit selector payload).

Definition info_allows_set (info : Z) : bool :=
  negb (bool_decide (Z.land info 2 = 0)) && bool_decide (Z.land info 4 = 0) && bool_decide (Z.land info 32 = 0).

(** ** Writing files *)

Inductive AtomicWrite := Durable | VisibleNotDurable.

Definition fsync (records : bool) : M (result () ()) := _ ←? sys; _ ← modify (synced records); mret (Ok ()).

(** [write_atomic_reporting]: the temporary file, the rename, the sync. *)
Definition write_atomic_reporting (p : path) (b : bytes) : M (result () AtomicWrite) :=
  _ ←? sys;
  _ ←? sys;
  _ ← modify (set_file p (Some b));
  r ← fsync (bool_decide (is_Some p));
  mret (Ok (match r with Ok _ => Durable | Err _ => VisibleNotDurable end)).

(** [remove_durable]; a file that is gone is success. *)
Definition remove_durable (p : path) : M (result () ()) :=
  _ ←? sys;
  v ← look p;
  match v with
  | None => mret (Ok ())
  | Some _ => _ ← modify (set_file p None); fsync (bool_decide (is_Some p))
  end.
End Calls.

(** ** The record *)

Definition SCHEMA_VERSION : Z := 1.
Definition MAX_RESTORE_ATTEMPTS : Z := 3.

Record PendingWrite := MkPending {
  schema_version : Z;
  engine_version : str;
  descriptor_sha256 : str;
  p_usb_id : str;
  p_interface_number : Z;
  p_unit : Z;
  p_selector : Z;
  p_len : Z;
  original : str;
  attempted : str;
  restore_attempts : Z;
  boot_id : option str;
  p_pid : option Z;
  p_serial : option str;
  p_usb_devpath : str;
}.

Class PendingCodec := {
  print_pending : PendingWrite -> option bytes;
  parse_pending : bytes -> option PendingWrite;
  parse_identity : bytes -> option (str * str);   (** digest and device path *)
}.
Class PendingLaws `{PendingCodec} : Prop := {
  pending_parses r b : print_pending r = Some b -> parse_pending b = Some r;
  pending_text r b : print_pending r = Some b -> is_utf8 (map byte_val b) = true;
}.

(** [to_hex]. *)
Definition hex_pair (b : byte) : str := [hex_digit (Z.shiftr (byte_val b) 4); hex_digit (Z.land (byte_val b) 15)].
Definition to_hex (l : bytes) : str := List.concat (map hex_pair l).

(** [from_hex]; the text's bytes, two at a time. *)
Definition hex_value (c : Z) : option Z :=
  if bool_decide (48 <= c <= 57) then Some (c - 48)
  else if bool_decide (97 <= c <= 102) then Some (c - 87)
  else if bool_decide (65 <= c <= 70) then Some (c - 55)
  else None.
Fixpoint from_pairs (l : str) : option bytes :=
  match l with
  | [] => Some []
  | hi :: lo :: l =>
      h ← hex_value hi; d ← hex_value lo; rest ← from_pairs l; Some (byte_of (16 * h + d) :: rest)
  | [_] => None
  end.
Definition from_hex (text : str) : option bytes :=
  if negb (bool_decide (length text mod 2 = 0)%nat) then None else from_pairs text.

Definition original_bytes (r : PendingWrite) : option bytes := from_hex (original r).

Section Journal.
Context `{Env, PendingCodec} (sha256_hex : bytes -> str).

Definition fingerprint (id : CameraIdentity) : str := descriptor_fingerprint sha256_hex id.

(** [owner_still_running]. *)
Definition owner_still_running (r : PendingWrite) : M bool :=
  match boot_id r, p_pid r with
  | Some recorded, Some pid =>
      now ← ask boot_id_now;
      if negb (bool_decide (now = Some recorded)) then mret false else ask (fun n => alive n pid)
  | _, _ => mret false
  end.

(** ** Names *)

Definition codes (s : string) : str := str_codes s.
Definition byte_len (s : str) : str := decimal (Z.of_nat (length s)).

(** [key_of]; the text's bytes are hashed. *)
Definition key_of (digest : str) (serial_ : option str) (devpath : str) : str :=
  let serial_ := default [] serial_ in
  sha256_hex (map byte_of
    (codes "descriptors:" ++ digest ++ codes "|serial:" ++ byte_len serial_ ++ [58] ++ serial_
     ++ codes "|devpath:" ++ byte_len devpath ++ [58] ++ devpath)).

Definition filing_key (id : CameraIdentity) : str := key_of (fingerprint id) (serial id) (usb_devpath id).
Definition legacy_filing_key (id : CameraIdentity) : str :=
  key_of (sha256_hex (descriptors id)) (serial id) (usb_devpath id).
Definition record_key (r : PendingWrite) : str := key_of (descriptor_sha256 r) (p_serial r) (p_usb_devpath r).
Definition JSON : str := Eval vm_compute in codes "json".
(** [record_path]: the name of the file in the store. *)
Definition record_path (key : str) : str := key ++ 46 :: JSON.

(** [path.extension()] is [json]. *)
Definition is_record (name : str) : bool :=
  match rsplit_once 46 name with
  | Some (stem, ext) => negb (bool_decide (stem = [])) && bool_decide (ext = JSON)
  | None => false
  end.

(** ** Whose record it is *)

Definition identity_authorizes (digest devpath : str) (serial_ : option str) (id : CameraIdentity) : bool :=
  if negb (bool_decide (digest = fingerprint id)) then false
  else if bool_decide (devpath = []) || negb (bool_decide (devpath = usb_devpath id)) then false
  else
    match serial_, serial id with
    | Some recorded, Some attached => bool_decide (recorded = attached)
    | Some _, None => false
    | None, _ => true
    end.
Definition describes_this_camera (r : PendingWrite) (id : CameraIdentity) : bool :=
  identity_authorizes (descriptor_sha256 r) (p_usb_devpath r) (p_serial r) id.

Inductive Mismatch :=
| DifferentCamera | UnsupportedSchema (found supported : Z) | MalformedRecord | ControlNotPublished
| OutOfAttempts (attempts : Z) | OwnerStillRunning (pid : Z).

(** [record_applies]. *)
Definition record_applies (r : PendingWrite) (id : CameraIdentity) : M (result Mismatch ()) :=
  if negb (bool_decide (schema_version r = SCHEMA_VERSION))
  then mret (Err (UnsupportedSchema (schema_version r) SCHEMA_VERSION))
  else if negb (bool_decide (descriptor_sha256 r = fingerprint id)) then mret (Err DifferentCamera)
  else if negb (bool_decide (p_usb_id r = usb_id id)) || negb (bool_decide (p_interface_number r = interface_number id))
  then mret (Err MalformedRecord)
  else
    match original_bytes r with
    | None => mret (Err MalformedRecord)
    | Some o =>
        if negb (bool_decide (Z.of_nat (length o) = p_len r)) then mret (Err MalformedRecord)
        else if negb (match microsoft_xu id with
                      | Some ms => bool_decide (unit_id ms = p_unit r) && advertises ms (p_selector r)
                      | None => false
                      end)
        then mret (Err ControlNotPublished)
        else if bool_decide (MAX_RESTORE_ATTEMPTS <= restore_attempts r)
        then mret (Err (OutOfAttempts (restore_attempts r)))
        else
          running ← owner_still_running r;
          mret (if running : bool then Err (OwnerStillRunning (default 0 (p_pid r))) else Ok ())
    end.

Record ControlNow := MkControl { c_len : Z; c_writable : bool; c_current : bytes }.
Inductive Restore := AlreadyAsFound | Write (value : bytes) | RefuseRestore.

(** [restore_decision]. *)
Definition restore_decision (r : PendingWrite) (now : ControlNow) : Restore :=
  match original_bytes r with
  | None => RefuseRestore
  | Some o =>
      if negb (bool_decide (c_len now = p_len r)) then RefuseRestore
      else if bool_decide (c_current now = o) then AlreadyAsFound
      else
        match from_hex (attempted r) with
        | None => RefuseRestore
        | Some a =>
            if negb (bool_decide (c_current now = a)) then RefuseRestore
            else if negb (c_writable now) then RefuseRestore
            else Write o
        end
  end.

(** ** The store *)

(** [Unexaminable]: the errors with the prefix [STORE_UNEXAMINABLE]. *)
Inductive StoreError := Unexaminable | Damaged.

(** [read_to_string] of a record. *)
Inductive Contents := Absent | Text (b : bytes).
Definition read_to_string (name : str) : M (result () Contents) :=
  _ ←? sys;
  v ← look (Some name);
  mret (match v with
        | None => Ok Absent
        | Some b => if is_utf8 (map byte_val b) then Ok (Text b) else Err ()
        end).

(** The names in the store: [read_dir] may miss the store, which is empty then. *)
Definition read_dir : M (result () (list str)) :=
  _ ←? sys;
  fun w => (Done (Ok (listing (tick w) (omap fst (map_to_list (vis (store w)))))), bump w).

(** One file of a scan; one that went away is unreadable. *)
Definition scan_read (name : str) : M (result StoreError bytes) :=
  r ← read_to_string name;
  mret (match r with Ok (Text b) => Ok b | _ => Err Unexaminable end).

(** [legacy_records]. *)
Fixpoint legacy_scan (id : CameraIdentity) (names : list str) (found : list str) : M (result StoreError (list str)) :=
  match names with
  | [] => mret (Ok found)
  | name :: names =>
      if negb (is_record name) then legacy_scan id names found
      else if bool_decide (name = record_path (legacy_filing_key id)) then legacy_scan id names (found ++ [name])
      else
        body ←? scan_read name;
        match parse_identity body with
        | None => mret (Err Damaged)
        | Some (digest, _) =>
            legacy_scan id names (if bool_decide (digest = sha256_hex (descriptors id)) then found ++ [name] else found)
        end
  end.
Definition legacy_records (id : CameraIdentity) : M (result StoreError (list str)) :=
  if match get8 (descriptors id) 17 with Some count => bool_decide (count <= 1) | None => true end
  then mret (Ok [])
  else
    names ← read_dir;
    match names with
    | Err _ => mret (Err Unexaminable)
    | Ok names => legacy_scan id names []
    end.

Fixpoint read_all (names : list str) : M (result StoreError (list (str * PendingWrite))) :=
  match names with
  | [] => mret (Ok [])
  | name :: names =>
      if negb (is_record name) then read_all names
      else
        body ←? scan_read name;
        match parse_pending body with
        | None => mret (Err Damaged)
        | Some r => rest ←? read_all names; mret (Ok ((name, r) :: rest))
        end
  end.
Definition all_records : M (result StoreError (list (str * PendingWrite))) :=
  names ← read_dir;
  match names with Err _ => mret (Err Unexaminable) | Ok names => read_all names end.

Inductive Situation := Nothing | Mine (name : str) (r : PendingWrite) | SameModelElsewhere (r : PendingWrite).

(** The first record of this camera, or else the first of its model. *)
Fixpoint classify (id : CameraIdentity) (l : list (str * PendingWrite)) (elsewhere : option PendingWrite) : Situation :=
  match l with
  | [] => match elsewhere with Some r => SameModelElsewhere r | None => Nothing end
  | (name, r) :: l =>
      if negb (bool_decide (descriptor_sha256 r = fingerprint id)) then classify id l elsewhere
      else if describes_this_camera r id then Mine name r
      else classify id l (Some (default r elsewhere))
  end.

(** [load]. *)
Definition load (id : CameraIdentity) : M (result StoreError Situation) :=
  legacy ←? legacy_records id;
  match legacy with
  | _ :: _ => mret (Err Damaged)
  | [] =>
      let name := record_path (filing_key id) in
      r ← read_to_string name;
      match r with
      | Err _ => mret (Err Unexaminable)
      | Ok (Text b) =>
          match parse_pending b with
          | None => mret (Err Damaged)
          | Some r => mret (if describes_this_camera r id then Ok (Mine name r) else Err Damaged)
          end
      | Ok Absent => l ←? all_records; mret (Ok (classify id l None))
      end
  end.

(** [save_at]: create the store, restrict it, sync what is above it, write. *)
Definition save_at (name : str) (r : PendingWrite) : M (result () AtomicWrite) :=
  _ ←? sys;
  _ ←? sys;
  _ ←? sys;
  _ ← modify link;
  match print_pending r with
  | None => mret (Err ())
  | Some b => write_atomic_reporting (Some name) b
  end.

(** [save] with [require_durable]. *)
Definition save (r : PendingWrite) : M (result () str) :=
  let name := record_path (record_key r) in
  w ←? save_at name r;
  mret (match w with Durable => Ok name | VisibleNotDurable => Err () end).

Definition clear (name : str) : M (result () ()) := remove_durable (Some name).
End Journal.
