(* ===== verification/EmitterRecovery.v ===== *)
(** * Putting a camera control back

    [irlume-camera/src/ir_emitter.rs]: the recovery of a recorded change
    ([recover_pending_write]), under the camera's lock: find the record, ask the
    camera what the control holds, count the attempt durably, look once more,
    write the original and read it back. *)

From S2P Require Import Prelude Text UvcDescriptor EmitterJournal.

(** ** Recovery *)

Inductive RecoveryOutcome :=
| NothingPending | Unchecked | ForAnotherCamera | AlreadyRestored
| Restored (unit selector : Z) | RestoredRecordKept | OwnerRunning (pid : Z) | Busy | Unresolved
| Unconfirmed (unit selector : Z) (original recorded_at : str).

Definition permits_capture_write (o : RecoveryOutcome) : bool :=
  match o with
  | NothingPending | ForAnotherCamera | AlreadyRestored | Restored _ _ | RestoredRecordKept => true
  | OwnerRunning _ | Busy | Unchecked | Unresolved | Unconfirmed _ _ _ _ => false
  end.
Definition blocks_discovery (o : RecoveryOutcome) : bool :=
  match o with
  | NothingPending | ForAnotherCamera | AlreadyRestored | Restored _ _ => false
  | RestoredRecordKept | OwnerRunning _ | Busy | Unchecked | Unresolved | Unconfirmed _ _ _ _ => true
  end.

Section Recovery.
Context `{Env, PendingCodec} (sha256_hex : bytes -> str).

(** [control_now]: the camera's length comes first and gates the rest. *)
Definition control_now (r : PendingWrite) : M (result () ControlNow) :=
  len ← get_len (p_unit r) (p_selector r);
  match len with
  | Err _ => mret (Err ())
  | Ok len =>
      if negb (bool_decide (Z.of_nat len = p_len r)) then mret (Err ())
      else
        info ← get_info (p_unit r) (p_selector r);
        match info with
        | Err _ => mret (Err ())
        | Ok info =>
            current ← get_cur (p_unit r) (p_selector r) len;
            mret (match current with
                  | Ok current => Ok (MkControl (Z.of_nat len) (info_allows_set info) current)
                  | Err _ => Err ()
                  end)
        end
  end.

Definition cleared (name : str) (o : RecoveryOutcome) : M RecoveryOutcome :=
  r ← clear name; mret (match r with Ok _ => o | Err _ => RestoredRecordKept end).

(** [spent_record_recovery]: reads, and writes nothing. *)
Definition spent_record_recovery (name : str) (r : PendingWrite) : M RecoveryOutcome :=
  now ← control_now r;
  match now with
  | Err _ => mret Unresolved
  | Ok now =>
      match restore_decision r now with
      | AlreadyAsFound => cleared name AlreadyRestored
      | RefuseRestore | Write _ => mret Unresolved
      end
  end.

(** [counted_attempt_authorizes_write]. *)
Definition counted_attempt_authorizes_write (saved : result () AtomicWrite) : bool :=
  match saved with Ok Durable => true | _ => false end.

Definition spend (r : PendingWrite) : PendingWrite :=
  MkPending (schema_version r) (engine_version r) (descriptor_sha256 r) (p_usb_id r) (p_interface_number r)
    (p_unit r) (p_selector r) (p_len r) (original r) (attempted r) (restore_attempts r + 1) None None
    (p_serial r) (p_usb_devpath r).

(** An attempt that wrote nothing is given back; if that fails it stays. *)
Definition give_back (name : str) (r : PendingWrite) : M RecoveryOutcome := _ ← save_at name r; mret Unresolved.

(** The restoring write, and the read that decides whether it took. *)
Definition put_back (name : str) (r : PendingWrite) (o : bytes) : M RecoveryOutcome :=
  sent ← set_cur (p_unit r) (p_selector r) o;
  match sent with
  | Err _ => mret Unresolved
  | Ok _ =>
      back ← get_cur (p_unit r) (p_selector r) (length o);
      match back with
      | Ok back =>
          if bool_decide (back = o) then cleared name (Restored (p_unit r) (p_selector r)) else mret Unresolved
      | Err _ => mret Unresolved
      end
  end.

(** The [Write] arm: count, re-read, write. *)
Definition restore (name : str) (r : PendingWrite) (o : bytes) : M RecoveryOutcome :=
  saved ← save_at name (spend r);
  if negb (counted_attempt_authorizes_write saved) then mret Unresolved
  else
    match from_hex (attempted r) with
    | None => give_back name r
    | Some a =>
        now ← get_cur (p_unit r) (p_selector r) (length o);
        match now with
        | Ok now => if bool_decide (now = a) then put_back name r o else give_back name r
        | Err _ => give_back name r
        end
    end.

(** [recover_pending_write_locked]. *)
Definition recover_pending_write_locked (id : CameraIdentity) : M RecoveryOutcome :=
  found ← load sha256_hex id;
  match found with
  | Err Unexaminable => mret Unchecked
  | Err Damaged => mret Unresolved
  | Ok Nothing => mret NothingPending
  | Ok (SameModelElsewhere r) => mret (Unconfirmed (p_unit r) (p_selector r) (original r) (p_usb_devpath r))
  | Ok (Mine name r) =>
      applies ← record_applies sha256_hex r id;
      match applies with
      | Err DifferentCamera => mret ForAnotherCamera
      | Err (OwnerStillRunning pid) => mret (OwnerRunning pid)
      | Err (OutOfAttempts _) => spent_record_recovery name r
      | Err (UnsupportedSchema _ _) | Err MalformedRecord | Err ControlNotPublished => mret Unresolved
      | Ok _ =>
          now ← control_now r;
          match now with
          | Err _ => mret Unresolved
          | Ok now =>
              match restore_decision r now with
              | AlreadyAsFound => cleared name AlreadyRestored
              | RefuseRestore => mret Unresolved
              | Write o => restore name r o
              end
          end
      end
  end.

(** [recover_pending_write], under the camera's lock. *)
Definition recover_pending_write (id : CameraIdentity) : M RecoveryOutcome :=
  l ← ask locked;
  match l with
  | LockTaken => recover_pending_write_locked id
  | LockHeld => mret Busy
  | LockError => mret Unchecked
  end.
End Recovery.
