(* ===== verification/EmitterTheory.v ===== *)
(** * Putting a camera control back: the proofs

    What every run of [recover_pending_write] does ([passed], [wp_recover]):
    the files it may change, what it asked of the camera, and in which order;
    with the program logic of its calls ([wp]) and of those that only read
    ([reads]); and what holds of every pass, and of all passes of a machine:
    what is written to a camera, how often, and when a record may go. *)

From stdpp Require Import functions.
From S2P Require Import Prelude Text UvcDescriptor EmitterJournal EmitterRecovery.

(** ** The record's bytes *)

(** A record's bytes are read as they were written. *)
Lemma hex_round_trip l : from_hex (to_hex l) = Some l.
Proof.
  assert (Hlen : length (to_hex l) = (length l * 2)%nat) by (unfold to_hex; induction l; simpl in *; lia).
  unfold from_hex. rewrite Hlen, Nat.Div0.mod_mul. simpl. clear Hlen. induction l as [|b l IH]; [done|].
  change (to_hex (b :: l)) with (hex_pair b ++ to_hex l). unfold hex_pair. cbn [app from_pairs].
  replace (hex_value (hex_digit (Z.shiftr (byte_val b) 4))) with (Some (Z.shiftr (byte_val b) 4)) by (destruct b; by vm_compute).
  replace (hex_value (hex_digit (Z.land (byte_val b) 15))) with (Some (Z.land (byte_val b) 15)) by (destruct b; by vm_compute).
  simpl. rewrite IH. simpl. f_equal. f_equal. by destruct b.
Qed.

(** ** Steps *)

Definition wp {A} (m : M A) (Q : outcome A -> world -> Prop) (w : world) : Prop := Q (m w).1 (m w).2.

Lemma wp_consequence {A} (m : M A) (Q Q' : outcome A -> world -> Prop) w : wp m Q w -> (forall o w', Q o w' -> Q' o w') -> wp m Q' w.
Proof. unfold wp. auto. Qed.
Lemma wp_done {A} (a : A) (Q : outcome A -> world -> Prop) w : Q (Done a) w -> wp (mret a) Q w.
Proof. done. Qed.
(** What is left to do after [f]'s argument. *)
Definition andthen {A B} (f : A -> M B) (Q : outcome B -> world -> Prop) (o : outcome A) (w : world) : Prop :=
  match o with Done a => wp (f a) Q w | Panicked => Q Panicked w | Died => Q Died w end.
Lemma wp_seq {A B} (m : M A) (f : A -> M B) Q w : wp m (andthen f Q) w -> wp (m ≫= f) Q w.
Proof. unfold wp, mbind, M_bind, andthen. by destruct (m w) as [[] w']. Qed.

(** Only the clock of the calls moved. *)
Definition still (w w' : world) : Prop := store w' = store w /\ log w' = log w.
#[export] Instance still_preorder : PreOrder still.
Proof. split; [by intros w|]. intros w1 w2 w3 [E1 E2] [E3 E4]. split; congruence. Qed.

Section Calls.
Context `{Env}.

Lemma wp_ask {A} (f : nat -> A) (Q : outcome A -> world -> Prop) w :
  (forall a w', still w w' -> Q (Done a) w') -> (forall w', still w w' -> Q Died w') -> wp (ask f) Q w.
Proof. intros HA HD. unfold wp, ask. destruct (fate (tick w)); [by apply HA..|by apply HD]. Qed.
Lemma wp_sys (Q : outcome (result () ()) -> world -> Prop) w :
  (forall r w', still w w' -> Q (Done r) w') -> (forall w', still w w' -> Q Died w') -> wp sys Q w.
Proof. intros HA HD. unfold wp, sys. destruct (fate (tick w)); [by apply HA..|by apply HD]. Qed.
Lemma wp_look p (Q : outcome (option bytes) -> world -> Prop) w : Q (Done (vis (store w) !! p)) w -> wp (look p) Q w.
Proof. done. Qed.
Lemma wp_note e (Q : outcome () -> world -> Prop) w : Q (Done tt) (MkWorld (tick w) (store w) (e :: log w)) -> wp (note e) Q w.
Proof. done. Qed.
Lemma wp_modify f (Q : outcome () -> world -> Prop) w : Q (Done tt) (MkWorld (tick w) (f (store w)) (log w)) -> wp (modify f) Q w.
Proof. done. Qed.

(** Computations that change nothing; [R] holds of what they answer. *)
Definition reads {A} (m : M A) (R : disk -> A -> Prop) : Prop :=
  forall w, wp m (fun o w' => still w w' /\ forall a, o = Done a -> R (store w) a) w.

Lemma reads_seq {A B} (m : M A) (f : A -> M B) R R' :
  reads m R -> (forall a, reads (f a) (fun d b => R d a -> R' d b)) -> reads (m ≫= f) R'.
Proof.
  intros Hm Hf w. apply wp_seq. eapply wp_consequence; [apply Hm|]. intros [a| |] w' [Hs Hr]; simpl; [|by split..].
  eapply wp_consequence; [apply Hf|]. intros o w2 [Hs2 Hr2]. split; [by etrans|]. intros b ->.
  destruct Hs as [Hd _]. rewrite Hd in Hr2. by apply Hr2; [|apply Hr].
Qed.
Lemma reads_done {A} (a : A) (R : disk -> A -> Prop) : (forall d, R d a) -> reads (mret a) R.
Proof. intros Ha w. by split; [|intros ? [= <-]]. Qed.
Lemma reads_ask {A} (f : nat -> A) : reads (ask f) (fun _ _ => True).
Proof. intros w. by apply wp_ask; intros; split. Qed.
Lemma reads_sys : reads sys (fun _ _ => True).
Proof. intros w. by apply wp_sys; intros; split. Qed.
Lemma reads_look p : reads (look p) (fun d v => v = vis d !! p).
Proof. intros w. by split; [|intros ? [= <-]]. Qed.
Lemma reads_mono {A} (m : M A) (R R' : disk -> A -> Prop) : reads m R -> (forall d a, R d a -> R' d a) -> reads m R'.
Proof. intros Hm HR w. eapply wp_consequence; [apply Hm|]. intros o w' [? Hr]. split; [done|]. auto. Qed.

(** [?]: an error ends it. *)
Lemma reads_question {E A B} (m : M (result E A)) (f : A -> M (result E B)) R R' :
  reads m R -> (forall d e, R' d (Err e)) -> (forall a, reads (f a) (fun d b => R d (Ok a) -> R' d b)) -> reads (question m f) R'.
Proof.
  intros Hm He Hf. eapply reads_seq; [exact Hm|]. intros [a|e]; [apply Hf|]. apply reads_done. auto.
Qed.
End Calls.

(** ** Writing a record *)

(** No file but [name] changed, nor what a power loss makes of it. *)
Definition spared (name : str) (d d' : disk) : Prop :=
  forall p, p <> Some name -> vis d' !! p = vis d !! p /\ forall x, x ∈ poss d' p -> x ∈ poss d p.
#[export] Instance spared_preorder name : PreOrder (spared name).
Proof. split; [by intros d p|]. intros d1 d2 d3 H12 H23 p Hp. destruct (H12 p Hp), (H23 p Hp). split; [congruence|auto]. Qed.

Lemma poss_link d p x : x ∈ poss (link d) p -> x ∈ poss d p.
Proof. unfold poss. simpl. rewrite app_nil_r. set_solver. Qed.
Lemma spared_link name d : spared name d (link d).
Proof. intros p _. split; [done|apply poss_link]. Qed.

Lemma spared_set name v d : spared name d (set_file (Some name) v d).
Proof.
  intros p Hp. unfold poss, set_file. destruct v; cbn [vis old linked]; rewrite ?lookup_insert_ne, ?lookup_delete_ne by congruence; done.
Qed.
Lemma poss_set_record name v d x :
  x ∈ poss (set_file (Some name) v d) (Some name) -> x = v \/ x ∈ poss d (Some name).
Proof.
  unfold poss, set_file. cbn [vis old linked]. rewrite lookup_insert_eq. simpl.
  destruct v; rewrite ?lookup_insert_eq, ?lookup_delete_eq; set_solver.
Qed.

Lemma poss_synced b d p x : x ∈ poss (synced b d) p -> x ∈ poss d p.
Proof.
  unfold poss. cbn [vis old linked synced]. rewrite map_lookup_filter. destruct (old d !! p) as [l|]; simpl; [|done].
  case_guard; simpl; set_solver.
Qed.
Lemma spared_synced name b d : spared name d (synced b d).
Proof. intros p _. split; [done|apply poss_synced]. Qed.
Lemma poss_synced_record name d : linked d = true -> poss (synced true d) (Some name) = [vis d !! Some name].
Proof.
  intros Hl. unfold poss. cbn [vis old linked synced]. rewrite map_lookup_filter, Hl. destruct (old d !! Some name); done.
Qed.

Section Write.
Context `{Env, PendingCodec}.

(** What a write of [v] to [name] leaves; [sure] when it is known to last. *)
Record written (name : str) (v : option bytes) (sure : Prop) (w w' : world) : Prop := {
  wr_log : log w' = log w;
  wr_others : spared name (store w) (store w');
  wr_poss x : x ∈ poss (store w') (Some name) -> x = v \/ x ∈ poss (store w) (Some name);
  wr_sure : sure -> poss (store w') (Some name) = [v];
  wr_vis : vis (store w') !! Some name = v;
}.

Lemma written_still name w w' : still w w' -> written name (vis (store w) !! Some name) False w w'.
Proof. intros [Es El]. split; [done|by rewrite Es|rewrite Es; by right|done|by rewrite Es]. Qed.

Lemma wp_fsync name v w (Q : outcome (result () ()) -> world -> Prop) w1 :
  written name v False w w1 -> linked (store w1) = true ->
  (forall r w', written name v (r = Ok ()) w w' -> Q (Done r) w') ->
  (forall w', written name v False w w' -> Q Died w') -> wp (fsync true) Q w1.
Proof.
  intros [H1 H2 H3 _ HV] Hl HQ HD. unfold fsync, question. apply wp_seq, wp_sys; [intros r w2 [Es El]|intros w2 [Es El]]; simpl.
  - destruct r as [[]|].
    + apply wp_seq, wp_modify. cbn [andthen]. apply wp_done, HQ. split; simpl.
      * congruence.
      * rewrite Es. etrans; [exact H2|apply spared_synced].
      * intros x Hx%poss_synced. rewrite Es in Hx. auto.
      * intros _. rewrite Es. rewrite poss_synced_record by done. by rewrite HV.
      * by rewrite Es.
    + apply wp_done, HQ. split; rewrite ?Es; [congruence|done..].
  - apply HD. split; rewrite ?Es; [congruence|done..].
Qed.

Lemma written_then name v w w1 w2 : written name v False w w1 -> still w1 w2 -> written name v False w w2.
Proof. intros [H1 H2 H3 _ HV] [Es El]. split; rewrite ?Es; [congruence|done..]. Qed.
Lemma written_weak name v (sure sure' : Prop) w w' : (sure' -> sure) -> written name v sure w w' -> written name v sure' w w'.
Proof. intros Hs [H1 H2 H3 H4 HV]. split; auto. Qed.
Lemma written_refl name w : written name (vis (store w) !! Some name) False w w.
Proof. by apply written_still. Qed.

(** [save_at] changes at most the file named, to the record's text. *)
Lemma wp_save_at name r w (Q : outcome (result () AtomicWrite) -> world -> Prop) :
  let text v := v = vis (store w) !! Some name \/ exists b, print_pending r = Some b /\ v = Some b in
  (forall a v w', text v -> written name v (a = Ok Durable) w w' ->
     (a = Ok Durable -> exists b, print_pending r = Some b /\ v = Some b) -> Q (Done a) w') ->
  (forall v w', text v -> written name v False w w' -> Q Died w') -> wp (save_at name r) Q w.
Proof.
  intros text HQ HD.
  assert (Hstep : forall v w1 (k : () -> M (result () AtomicWrite)), text v -> written name v False w w1 ->
    (forall w2, still w1 w2 -> wp (k tt) Q w2) -> wp (question sys k) Q w1).
  { intros v w1 k Hv H1 Hk. unfold question. apply wp_seq, wp_sys; [intros [[]|] w2 H2|intros w2 H2]; simpl; [by apply Hk| |].
    - apply wp_done, (HQ _ v); [done| |done]. eapply written_weak; [|by eapply written_then]. done.
    - apply (HD v); [done|by eapply written_then]. }
  pose proof (written_refl name w) as Hw. unfold save_at.
  do 3 (eapply Hstep; [by left|exact Hw|]; intros ? Hs; eapply written_then in Hw; [|exact Hs]; clear Hs).
  apply wp_seq, wp_modify. cbn [andthen].
  match goal with |- wp _ _ ?w4 => set (w5 := w4) end.
  assert (H5 : written name (vis (store w) !! Some name) False w w5 /\ linked (store w5) = true /\ log w5 = log w).
  { destruct Hw as [H1 H2 H3 _ HV]. split; [|by split]. split; simpl; [done|etrans; [exact H2|apply spared_link]| |done|exact HV].
    intros x Hx%poss_link. auto. }
  destruct H5 as (H5 & Hl & _). clearbody w5. destruct (print_pending r) as [b|] eqn:Hb; [|apply wp_done, (HQ _ (vis (store w) !! Some name)); [by left| |done]; eapply written_weak; [|exact H5]; done].
  unfold write_atomic_reporting. eapply Hstep; [by left|exact H5|]. intros w6 H6. pose proof (written_then _ _ _ _ _ H5 H6) as H7.
  eapply Hstep; [by left|exact H7|]. intros w8 H8. pose proof (written_then _ _ _ _ _ H7 H8) as H9.
  apply wp_seq, wp_modify. cbn [andthen]. assert (Hlink : linked (store w8) = true) by (destruct H6 as [E6 _], H8 as [E8 _]; by rewrite E8, E6).
  match goal with |- wp _ _ ?w4 => set (w10 := w4) end.
  assert (H10 : written name (Some b) False w w10).
  { destruct H9 as [I1 I2 I3 _ IV]. split; simpl; [done|etrans; [exact I2|apply spared_set]| |done|apply lookup_insert_eq].
    intros x Hx%poss_set_record. destruct Hx as [->|Hx]; [by left|]. destruct (I3 x Hx) as [->|?]; [right|by right].
    unfold poss. by left. }
  change (bool_decide (is_Some (Some name))) with true. apply wp_seq. eapply (wp_fsync name (Some b) w); [exact H10| | |].
  - exact Hlink.
  - intros x w' Hx. simpl. apply wp_done, (HQ _ (Some b)); [right; by exists b| |intros _; by exists b].
    eapply written_weak; [|exact Hx]. by destruct x as [[]|].
  - intros w' Hx. simpl. apply (HD (Some b)); [right; by exists b|exact Hx].
Qed.
End Write.

(** ** Finding the record *)

Section Load.
Context `{Env, PendingCodec} (sha256_hex : bytes -> str).

(** The file [name] is the record [r]. *)
Definition holds (d : disk) (name : str) (r : PendingWrite) : Prop :=
  exists b, vis d !! Some name = Some b /\ parse_pending b = Some r.

Lemma reads_text name : reads (read_to_string name) (fun d x => forall b, x = Ok (Text b) -> vis d !! Some name = Some b).
Proof.
  unfold read_to_string. eapply reads_question; [apply reads_sys|by intros|]. intros [].
  eapply reads_seq; [apply reads_look|]. intros v. apply reads_done. intros d -> _.
  destruct (vis d !! Some name) as [b|]; [|done]. destruct (is_utf8 _); [|done]. by intros ? [= <-].
Qed.

Lemma reads_scan name : reads (scan_read name) (fun d x => forall b, x = Ok b -> vis d !! Some name = Some b).
Proof.
  unfold scan_read. eapply reads_seq; [apply reads_text|]. intros r. apply reads_done. intros d Hr.
  destruct r as [[|b]|]; try done. intros ? [= <-]. by apply Hr.
Qed.

Lemma reads_legacy_scan id names found : reads (legacy_scan sha256_hex id names found) (fun _ _ => True).
Proof.
  revert found. induction names as [|name names IH]; intros found; simpl; [by apply reads_done|].
  destruct (negb _); [apply IH|]. case_bool_decide; [apply IH|]. eapply reads_question; [apply reads_scan|done|]. intros body.
  destruct (parse_identity body) as [[digest devpath]|]; [|by apply reads_done].
  apply (reads_mono _ (fun _ _ => True)); [apply IH|done].
Qed.

Lemma reads_dir : reads read_dir (fun _ _ => True).
Proof.
  unfold read_dir. eapply reads_question; [apply reads_sys|done|]. intros []. intros w. by split.
Qed.

Lemma reads_legacy id : reads (legacy_records sha256_hex id) (fun _ _ => True).
Proof.
  unfold legacy_records. match goal with |- context [if ?c then _ else _] => destruct c end; [by apply reads_done|].
  apply (reads_seq _ _ (fun _ _ => True)); [apply reads_dir|]. intros [names|]; [|by apply reads_done].
  apply (reads_mono _ (fun _ _ => True)); [apply reads_legacy_scan|done].
Qed.

Definition all_hold (d : disk) (l : list (str * PendingWrite)) : Prop := Forall (fun x => holds d x.1 x.2) l.

Lemma reads_records names : reads (read_all names) (fun d x => forall l, x = Ok l -> all_hold d l).
Proof.
  induction names as [|name names IH]; simpl; [apply reads_done; intros d l [= <-]; constructor|].
  destruct (negb _); [apply IH|]. eapply reads_question; [apply reads_scan|done|]. intros body.
  destruct (parse_pending body) as [r|] eqn:Hp; [|by apply reads_done].
  eapply reads_question; [apply IH|done|]. intros rest. apply reads_done. intros d Hrest Hbody l [= <-].
  constructor; [|by apply Hrest]. exists body. split; [by apply Hbody|done].
Qed.

Lemma reads_all : reads all_records (fun d x => forall l, x = Ok l -> all_hold d l).
Proof.
  unfold all_records. eapply reads_seq; [apply reads_dir|]. intros [names|]; [|by apply reads_done].
  eapply reads_mono; [apply reads_records|]. auto.
Qed.

Lemma classify_mine id l elsewhere name r :
  classify sha256_hex id l elsewhere = Mine name r -> (name, r) ∈ l /\ describes_this_camera sha256_hex r id = true.
Proof.
  revert elsewhere. induction l as [|[n r'] l IH]; intros elsewhere; simpl; [by destruct elsewhere|].
  destruct (negb _); [intros [? ?]%IH; split; [by right|done]|].
  destruct (describes_this_camera sha256_hex r' id) eqn:Hd; [intros [= <- <-]; split; [by left|done]|].
  intros [? ?]%IH; split; [by right|done].
Qed.

Lemma reads_load id : reads (load sha256_hex id)
  (fun d x => forall name r, x = Ok (Mine name r) -> holds d name r /\ describes_this_camera sha256_hex r id = true).
Proof.
  unfold load. eapply reads_question; [apply reads_legacy|done|]. intros [|]; [|by apply reads_done].
  eapply reads_seq; [apply reads_text|]. intros [[|b]|]; [| |by apply reads_done].
  - eapply reads_question; [apply reads_all|done|]. intros l. apply reads_done. intros d Hl _ _ name r [= Hc].
    destruct (classify_mine _ _ _ _ _ Hc) as [Hin Hd]. split; [|done]. specialize (Hl l eq_refl).
    unfold all_hold in Hl. rewrite list.Forall_forall in Hl. by apply (Hl (name, r)).
  - destruct (parse_pending b) as [r|] eqn:Hp; [|by apply reads_done]. apply reads_done. intros d Hb _ name r'.
    destruct (describes_this_camera sha256_hex r id) eqn:Hd; [|done]. intros [= <- <-]. split; [|done]. exists b. auto.
Qed.

(** What a record that may be acted on has. *)
Lemma reads_applies r id : reads (record_applies sha256_hex r id)
  (fun _ x => x = Ok () -> restore_attempts r < MAX_RESTORE_ATTEMPTS
     /\ exists ms, microsoft_xu id = Some ms /\ unit_id ms = p_unit r /\ advertises ms (p_selector r) = true).
Proof.
  unfold record_applies. do 3 (destruct (_ : bool); [by apply reads_done|]).
  destruct (original_bytes r); [|by apply reads_done]. destruct (negb _); [by apply reads_done|].
  destruct (microsoft_xu id) as [ms|]; [|by apply reads_done].
  destruct (bool_decide (unit_id ms = p_unit r) && advertises ms (p_selector r)) eqn:Hms; [|by apply reads_done].
  cbn [negb]. apply andb_true_iff in Hms as [Hu%bool_decide_eq_true Ha]. case_bool_decide as Hm; [by apply reads_done|].
  eapply (reads_seq _ _ (fun _ _ => True)).
  - unfold owner_still_running. destruct (boot_id r); [|by apply reads_done]. destruct (p_pid r); [|by apply reads_done].
    eapply reads_seq; [apply reads_ask|]. intros now. destruct (negb _); [by apply reads_done|]. eapply reads_mono; [apply reads_ask|done].
  - intros running. apply reads_done. intros d _ _. split; [lia|]. by exists ms.
Qed.
End Load.

(** ** What a pass does *)

Section Pass.
Context `{Env, PendingCodec} (sha256_hex : bytes -> str).

Lemma wp_only_reads {A} (m : M A) R w (Q : outcome A -> world -> Prop) :
  reads m R -> (forall a w', still w w' -> R (store w) a -> Q (Done a) w') -> (forall o w', still w w' -> o = Panicked \/ o = Died -> Q o w') ->
  wp m Q w.
Proof. intros Hm HQ HD. eapply wp_consequence; [apply Hm|]. intros [a| |] w' [Hs Hr]; [by apply HQ; [|apply Hr]|apply HD; auto..]. Qed.

(** [clear] removes the file named, or leaves it. *)
Lemma wp_clear name w (Q : outcome (result () ()) -> world -> Prop) :
  (forall a v w', v = None \/ v = vis (store w) !! Some name -> written name v False w w' -> Q (Done a) w') ->
  (forall v w', v = None \/ v = vis (store w) !! Some name -> written name v False w w' -> Q Died w') -> wp (clear name) Q w.
Proof.
  intros HQ HD. unfold clear, remove_durable. unfold question at 1. apply wp_seq, wp_sys; [intros [[]|] w1 H1|intros w1 H1]; simpl.
  2: { apply wp_done. apply (HQ _ (vis (store w) !! Some name)); [by right|by apply written_still]. }
  2: { apply (HD (vis (store w) !! Some name)); [by right|by apply written_still]. }
  apply wp_seq, wp_look. cbn [andthen]. destruct (vis (store w1) !! Some name) as [b|] eqn:Hb.
  2: { apply wp_done. apply (HQ _ (vis (store w) !! Some name)); [by right|by apply written_still]. }
  apply wp_seq, wp_modify. cbn [andthen]. change (bool_decide (is_Some (Some name))) with true.
  set (w2 := MkWorld _ _ _). assert (H2 : written name None False w w2).
  { destruct (written_still name _ _ H1) as [I1 I2 I3 _ IV]. split; simpl; [done|etrans; [exact I2|apply spared_set]| |done|apply lookup_delete_eq].
    intros x Hx%poss_set_record. destruct Hx as [->|Hx]; [by left|right]. destruct H1 as [E1 _]. by rewrite E1 in Hx. }
  unfold fsync, question. apply wp_seq, wp_sys; [intros [[]|] w3 H3|intros w3 H3]; cbn [andthen].
  - apply wp_seq, wp_modify. cbn [andthen]. apply wp_done, (HQ _ None); [by left|].
    destruct (written_then _ _ _ _ _ H2 H3) as [I1 I2 I3 _ IV]. split; simpl; [done|etrans; [exact I2|apply spared_synced]| |done|exact IV].
    intros x Hx%poss_synced. auto.
  - apply wp_done, (HQ _ None); [by left|by eapply written_then].
  - apply (HD None); [by left|by eapply written_then].
Qed.

(** One read of the control was answered. *)
Definition read (u s : Z) (b : bytes) (w w' : world) : Prop := store w' = store w /\ log w' = Read_ u s b :: log w.

Lemma wp_get_cur u s n w (Q : outcome (result XuError bytes) -> world -> Prop) :
  (forall b w', read u s b w w' -> Q (Done (Ok b)) w') -> (forall e w', still w w' -> Q (Done (Err e)) w') ->
  (forall w', still w w' -> Q Died w') -> wp (get_cur u s n) Q w.
Proof.
  intros HQ HE HD. unfold get_cur, get_of, question. apply wp_seq, wp_seq, wp_ask; [intros [b|e] w1 [E1 E2]|intros w1 H1]; simpl.
  - apply wp_done. cbn [andthen]. apply wp_seq, wp_note. cbn [andthen]. apply wp_done, HQ. split; simpl; [done|by rewrite E2].
  - apply wp_done. cbn [andthen]. by apply wp_done, HE.
  - by apply HD.
Qed.

Lemma reads_get_of u s q n : reads (get_of u s q n) (fun _ _ => True).
Proof. unfold get_of. eapply reads_question; [apply reads_ask|done|]. intros b. by apply reads_done. Qed.
Lemma reads_len u s : reads (get_len u s) (fun _ _ => True).
Proof. unfold get_len. eapply reads_question; [apply reads_get_of|done|]. intros b. by apply reads_done. Qed.
Lemma reads_info u s : reads (get_info u s) (fun _ _ => True).
Proof. unfold get_info. eapply reads_question; [apply reads_get_of|done|]. intros b. by apply reads_done. Qed.

Lemma wp_control_now r w (Q : outcome (result () ControlNow) -> world -> Prop) :
  (forall now w', read (p_unit r) (p_selector r) (c_current now) w w' -> Q (Done (Ok now)) w') ->
  (forall w', still w w' -> Q (Done (Err ())) w') -> (forall o w', still w w' -> o = Panicked \/ o = Died -> Q o w') ->
  wp (control_now r) Q w.
Proof.
  intros HQ HE HD. unfold control_now. apply wp_seq. eapply wp_only_reads; [apply reads_len| |].
  2: { intros o w1 H1 [-> | ->]; apply HD; auto. }
  intros [len|] w1 H1 _; cbn [andthen]; [|by apply wp_done, HE]. destruct (negb _); [by apply wp_done, HE|].
  apply wp_seq. eapply wp_only_reads; [apply reads_info| |].
  2: { intros o w2 H2 [-> | ->]; apply HD; auto; by etrans. }
  intros [info|] w2 H2 _; cbn [andthen]; [|apply wp_done, HE; by etrans].
  assert (H12 : still w w2) by by etrans. destruct H12 as [Es El].
  apply wp_seq, wp_get_cur; [intros b w3 [E3 E4]|intros e w3 H3|intros w3 H3]; cbn [andthen].
  - apply wp_done, HQ. split; simpl; congruence.
  - apply wp_done, HE. by etrans; [split|].
  - apply HD; [by etrans; [split|]|by right].
Qed.

(** What the control must hold for each decision. *)
Lemma decision_as_found r now : restore_decision r now = AlreadyAsFound -> original_bytes r = Some (c_current now).
Proof.
  unfold restore_decision. destruct (original_bytes r) as [o|]; [|done]. destruct (negb _); [done|].
  case_bool_decide as Ho; [by rewrite Ho|]. by repeat case_match.
Qed.
Lemma decision_write r now o :
  restore_decision r now = Write o -> original_bytes r = Some o /\ from_hex (attempted r) = Some (c_current now).
Proof.
  unfold restore_decision. destruct (original_bytes r) as [o'|]; [|done]. destruct (negb _); [done|]. case_bool_decide; [done|].
  destruct (from_hex (attempted r)) as [a|]; [|done]. case_bool_decide as Ha; [|done]. simpl. destruct (negb _); [done|].
  intros [= <-]. by rewrite Ha.
Qed.

(** The outcomes that say the control holds its original. *)
Definition settled (o : outcome RecoveryOutcome) : Prop :=
  o = Done AlreadyRestored \/ (exists u s, o = Done (Restored u s)) \/ o = Done RestoredRecordKept.

Definition is_sent (e : event) : bool := match e with Sent _ _ _ => true | _ => false end.
(** How many writes to the camera there are. *)
Definition sends (l : list event) : nat := length (List.filter is_sent l).

(** [x] is nothing, or the text of [r]. *)
Definition text_or_none (r : PendingWrite) (x : option bytes) : Prop :=
  x = None \/ exists b, print_pending r = Some b /\ x = Some b.

(** The pass acted on the record [r] of the file [name], which holds the
    original [orig], and asked the camera [new] since. *)
Record acted (id : CameraIdentity) (name : str) (r : PendingWrite) (orig : bytes) (d : disk) (o : outcome RecoveryOutcome)
    (new : list event) (d' : disk) : Prop := {
  ac_holds : holds d name r;
  ac_mine : describes_this_camera sha256_hex r id = true;
  ac_original : original_bytes r = Some orig;
  ac_others : spared name d d';
  (** The file goes, or the control is said to be as it was, only after the
      original was the last thing read. *)
  ac_settled : (vis d' !! Some name = None \/ settled o) -> exists rest, new = Read_ (p_unit r) (p_selector r) orig :: rest;
  ac_sent : (sends new = 0%nat /\ forall x, x ∈ poss d' (Some name) -> text_or_none (spend r) x \/ text_or_none r x \/ x ∈ poss d (Some name))
    \/ (restore_attempts r < MAX_RESTORE_ATTEMPTS
        /\ (exists ms, microsoft_xu id = Some ms /\ unit_id ms = p_unit r /\ advertises ms (p_selector r) = true)
        /\ (forall x, x ∈ poss d' (Some name) -> text_or_none (spend r) x)
        /\ exists later now earlier, from_hex (attempted r) = Some now /\ sends later = 0%nat /\ sends earlier = 0%nat
             /\ new = later ++ Sent (p_unit r) (p_selector r) orig :: Read_ (p_unit r) (p_selector r) now :: earlier);
}.

(** A pass wrote no file and sent nothing, or acted on a record. *)
Definition passed (id : CameraIdentity) (w : world) (o : outcome RecoveryOutcome) (w' : world) : Prop :=
  exists new, log w' = new ++ log w
    /\ ((store w' = store w /\ sends new = 0%nat /\ ~ settled o) \/ exists name r orig, acted id name r orig (store w) o new (store w')).

Lemma passed_still id w o w' : still w w' -> ~ settled o -> passed id w o w'.
Proof. intros [Es El] Ho. exists []. split; [done|]. by left. Qed.
Lemma passed_read id w o u s b w' : read u s b w w' -> ~ settled o -> passed id w o w'.
Proof. intros [Es El] Ho. exists [Read_ u s b]. split; [done|]. by left. Qed.
Lemma not_settled o : match o with
  | Done AlreadyRestored | Done (Restored _ _) | Done RestoredRecordKept => False | _ => True end -> ~ settled o.
Proof. intros Ho [->|[(u & s & ->)| ->]]; done. Qed.

(** Dropping the record, after a read of the original. *)
Lemma wp_cleared id name r orig o w w1 :
  holds (store w) name r -> describes_this_camera sha256_hex r id = true -> original_bytes r = Some orig ->
  read (p_unit r) (p_selector r) orig w w1 -> wp (cleared name o) (passed id w) w1.
Proof.
  intros Hh Hd Ho [Es El].
  assert (Hend : forall out v w', v = None \/ v = vis (store w1) !! Some name -> written name v False w1 w' -> passed id w out w').
  { intros out v w' Hv [I1 I2 I3 _ IV]. exists [Read_ (p_unit r) (p_selector r) orig]. split; [by rewrite I1, El|]. right. exists name, r, orig.
    rewrite Es in *. split; [done..| |left; split; [done|]].
    - intros _. by exists [].
    - intros x Hx. destruct (I3 x Hx) as [->|?]; [|by right; right]. destruct Hv as [->| ->]; [left; by left|right; right; by left]. }
  unfold cleared. apply wp_seq, wp_clear; intros; cbn [andthen].
  - destruct a; apply wp_done; by eapply Hend.
  - by eapply Hend.
Qed.

(** A pass that spent an attempt on disk, between the count and the write. *)
Section Spent.
Context (id : CameraIdentity) (name : str) (r : PendingWrite) (orig now : bytes) (w : world).
Context (found : holds (store w) name r) (mine : describes_this_camera sha256_hex r id = true).
Context (original_is : original_bytes r = Some orig) (attempted_is : from_hex (attempted r) = Some now).
Context (left : restore_attempts r < MAX_RESTORE_ATTEMPTS).
Context (published : exists ms, microsoft_xu id = Some ms /\ unit_id ms = p_unit r /\ advertises ms (p_selector r) = true).

(** The count is on disk, and irlume's value was just read. *)
Definition counted_read (w1 : world) : Prop :=
  spared name (store w) (store w1) /\ (exists b, print_pending (spend r) = Some b /\ vis (store w1) !! Some name = Some b)
  /\ (forall x, x ∈ poss (store w1) (Some name) -> text_or_none (spend r) x)
  /\ exists earlier, sends earlier = 0%nat /\ log w1 = Read_ (p_unit r) (p_selector r) now :: earlier ++ log w.

(** After the write: what was read since, and the files. *)
Lemma passed_sent w1 w2 o later :
  counted_read w1 -> log w2 = later ++ Sent (p_unit r) (p_selector r) orig :: log w1 -> sends later = 0%nat ->
  spared name (store w1) (store w2) -> (forall x, x ∈ poss (store w2) (Some name) -> x = None \/ x ∈ poss (store w1) (Some name)) ->
  (vis (store w2) !! Some name = None \/ settled o -> exists rest, later = Read_ (p_unit r) (p_selector r) orig :: rest) ->
  passed id w o w2.
Proof.
  intros (Hsp & Hvis & Hposs & earlier & He & Hlog) Hl Hla Hsp2 Hposs2 Hset.
  exists (later ++ Sent (p_unit r) (p_selector r) orig :: Read_ (p_unit r) (p_selector r) now :: earlier).
  split; [rewrite Hl, Hlog, <- app_assoc; done|]. right. exists name, r, orig. split; try done.
  - by etrans.
  - intros [rest ->]%Hset. by eexists.
  - right. split_and!; [done|done| |by exists later, now, earlier].
    intros x [->|Hx]%Hposs2; [by left|auto].
Qed.

Lemma wp_put_back w1 : counted_read w1 -> wp (put_back name r orig) (passed id w) w1.
Proof.
  intros Hc. pose proof Hc as (_ & (b & Hb & Hvis) & _).
  assert (Hkeep : forall o w2, store w2 = store w1 -> log w2 = Sent (p_unit r) (p_selector r) orig :: log w1 -> ~ settled o -> passed id w o w2).
  { intros o w2 Es El Ho. apply (passed_sent w1 w2 o []); rewrite ?Es; try done; [by right|]. intros [?|?]; [congruence|done]. }
  unfold put_back, set_cur. apply wp_seq, wp_seq, wp_note. cbn [andthen]. set (w2 := MkWorld _ _ _).
  apply wp_ask; [intros ok w3 [E1 E2]|intros w3 [E1 E2]]; cbn [andthen].
  2: { apply Hkeep; [done|by rewrite E2|by apply not_settled]. }
  destruct ok; [|apply wp_done, Hkeep; [done|by rewrite E2|by apply not_settled]].
  apply wp_seq, wp_get_cur; [intros back w4 [E3 E4]|intros e w4 [E3 E4]|intros w4 [E3 E4]]; cbn [andthen].
  2: { apply wp_done, Hkeep; [by rewrite E3|by rewrite E4, E2|by apply not_settled]. }
  2: { apply Hkeep; [by rewrite E3|by rewrite E4, E2|by apply not_settled]. }
  assert (Es : store w4 = store w1) by (by rewrite E3, E1).
  assert (El : log w4 = [Read_ (p_unit r) (p_selector r) back] ++ Sent (p_unit r) (p_selector r) orig :: log w1) by (by rewrite E4, E2).
  case_bool_decide as Hback.
  - subst back.
    assert (Hend : forall out v w5, v = None \/ v = vis (store w4) !! Some name -> written name v False w4 w5 -> passed id w out w5).
    { intros out v w5 Hv [I1 I2 I3 _ IV]. apply (passed_sent w1 w5 out [Read_ (p_unit r) (p_selector r) orig]); rewrite <- ?Es; try done.
      - by rewrite I1, El.
      - intros x Hx. destruct (I3 x Hx) as [->|?]; [|by right]. destruct Hv as [->| ->]; [by left|right; by left].
      - intros _. by exists []. }
    unfold cleared. apply wp_seq, wp_clear; intros; cbn [andthen]; [destruct a; apply wp_done|]; by eapply Hend.
  - apply wp_done. apply (passed_sent w1 w4 _ [Read_ (p_unit r) (p_selector r) back]); rewrite ?Es; try done; [by right|].
    intros [?|Hs]; [congruence|]. by apply not_settled in Hs.
Qed.
End Spent.

(** Counting, and then writing or giving the attempt back. *)
Lemma wp_restore id name r orig now w w1 :
  holds (store w) name r -> describes_this_camera sha256_hex r id = true -> original_bytes r = Some orig ->
  from_hex (attempted r) = Some now -> restore_attempts r < MAX_RESTORE_ATTEMPTS ->
  (exists ms, microsoft_xu id = Some ms /\ unit_id ms = p_unit r /\ advertises ms (p_selector r) = true) ->
  read (p_unit r) (p_selector r) now w w1 -> wp (restore name r orig) (passed id w) w1.
Proof.
  intros Hh Hd Ho Ha Hmax Hpub [Es El].
  assert (Hvis : vis (store w) !! Some name <> None) by (destruct Hh as (b & -> & _); done).
  (* Nothing was sent, and the file holds the record, counted or not. *)
  assert (Hunsent : forall o w2 new, log w2 = new ++ log w -> sends new = 0%nat -> spared name (store w) (store w2) ->
    (forall x, x ∈ poss (store w2) (Some name) -> text_or_none (spend r) x \/ text_or_none r x \/ x ∈ poss (store w) (Some name)) ->
    vis (store w2) !! Some name <> None -> ~ settled o -> passed id w o w2).
  { intros o w2 new Hl Hn Hsp Hp Hv Hns. exists new. split; [done|]. right. exists name, r, orig. split; try done; [by intros []|by left]. }
  assert (Htext : forall r' v, v = vis (store w) !! Some name \/ (exists b, print_pending r' = Some b /\ v = Some b) -> v <> None).
  { intros r' v [->|(b & _ & ->)]; done. }
  (* A save that is not known to last, from the control's value on. *)
  assert (Hsaved : forall r' o v w2 new, r' = spend r \/ r' = r ->
    v = vis (store w1) !! Some name \/ (exists b, print_pending r' = Some b /\ v = Some b) ->
    written name v False w1 w2 -> new = [Read_ (p_unit r) (p_selector r) now] -> ~ settled o -> passed id w o w2).
  { intros r' o v w2 new Hr' Hv [I1 I2 I3 _ IV] -> Hns. rewrite Es in *.
    apply (Hunsent o w2 [Read_ (p_unit r) (p_selector r) now]); [by rewrite I1, El|done|done| |rewrite IV; by eapply Htext|done].
    intros x Hx. destruct (I3 x Hx) as [->|?]; [|auto]. destruct Hv as [->|?]; [right; right; by left|].
    destruct Hr' as [-> | ->]; [left; by right|right; left; by right]. }
  unfold restore. apply wp_seq, wp_save_at.
  2: { intros v w2 Hv Hw. eapply (Hsaved (spend r)); [by left|exact Hv|exact Hw|done|by apply not_settled]. }
  intros a v w2 Hv Hw Hsure. cbn [andthen].
  destruct (counted_attempt_authorizes_write a) eqn:Hauth; cbn [negb].
  2: { apply wp_done. eapply (Hsaved (spend r)); [by left|exact Hv|eapply written_weak; [|eassumption]; done|done|by apply not_settled]. }
  assert (a = Ok Durable) as -> by (by destruct a as [[]|]). destruct (Hsure eq_refl) as (b & Hb & ->).
  destruct Hw as [I1 I2 I3 I4 IV]. specialize (I4 eq_refl). rewrite Ha, Es in *.
  assert (Hposs : forall x, x ∈ poss (store w2) (Some name) -> x = Some b) by (intros x; rewrite I4; set_solver).
  assert (Hlog2 : log w2 = Read_ (p_unit r) (p_selector r) now :: log w) by (by rewrite I1, El).
  (* The attempt is given back. *)
  assert (Hgive : forall w3 new, store w3 = store w2 -> log w3 = new ++ log w -> sends new = 0%nat ->
    wp (give_back name r) (passed id w) w3).
  { intros w3 new E3 L3 Hn. unfold give_back.
    assert (Hend : forall o v' w4, v' = vis (store w3) !! Some name \/ (exists b, print_pending r = Some b /\ v' = Some b) ->
      written name v' False w3 w4 -> ~ settled o -> passed id w o w4).
    { intros o v' w4 Hv' [J1 J2 J3 _ JV] Hns. rewrite E3 in *. apply (Hunsent o w4 new); [by rewrite J1|done|by etrans| | |done].
      - intros x Hx. destruct (J3 x Hx) as [->|Hx2]; [|left; right; exists b; split; [done|by apply Hposs]].
        destruct Hv' as [->|?]; [left; right; by exists b|right; left; by right].
      - rewrite JV. destruct Hv' as [->|(? & _ & ->)]; [by rewrite IV|done]. }
    apply wp_seq, wp_save_at; [intros a v' w4 Hv' Hw' _|intros v' w4 Hv' Hw']; cbn [andthen].
    - apply wp_done. eapply Hend; [exact Hv'|eapply written_weak; [|eassumption]; done|by apply not_settled].
    - eapply Hend; [exact Hv'|exact Hw'|by apply not_settled]. }
  apply wp_seq, wp_get_cur; [intros now' w3 [E3 L3]|intros e w3 [E3 L3]|intros w3 [E3 L3]]; cbn [andthen].
  - case_bool_decide as Hn.
    + subst now'. apply (wp_put_back id name r orig now w Hh Hd Ho Ha Hmax Hpub). split_and!; rewrite ?E3.
      * done.
      * by exists b.
      * intros x Hx%Hposs. right. by exists b.
      * exists [Read_ (p_unit r) (p_selector r) now]. split; [done|]. by rewrite L3, Hlog2.
    + eapply (Hgive w3 [_; _]); [done|by rewrite L3, Hlog2|done].
  - eapply (Hgive w3 [_]); [done|by rewrite L3|done].
  - apply (Hunsent _ w3 [Read_ (p_unit r) (p_selector r) now]); [by rewrite L3|done|by rewrite E3| | |by apply not_settled]; rewrite E3.
    + intros x Hx%Hposs. left. right. by exists b.
    + by rewrite IV.
Qed.

(** Every pass, under the lock. *)
Lemma wp_recover id w : wp (recover_pending_write sha256_hex id) (passed id w) w.
Proof.
  assert (Hquiet : forall o w', still w w' -> ~ settled o -> passed id w o w') by (intros; by apply passed_still).
  unfold recover_pending_write. apply wp_seq, wp_ask; [intros l w1 H1|intros w1 H1]; cbn [andthen].
  2: { apply Hquiet; [done|by apply not_settled]. }
  destruct l; [|apply wp_done, Hquiet; [done|by apply not_settled]..].
  unfold recover_pending_write_locked. apply wp_seq. eapply wp_only_reads; [apply reads_load| |].
  2: { intros o w2 H2 Ho. assert (still w w2) by by etrans. destruct Ho as [-> | ->]; (apply Hquiet; [done|by apply not_settled]). }
  intros found w2 H2 Hfound. cbn [andthen]. assert (H12 : still w w2) by by etrans.
  assert (Hstop : forall o, ~ settled (Done o) -> wp (mret o) (passed id w) w2) by (intros o Ho; by apply wp_done, Hquiet).
  destruct found as [[|name r|r]|[]]; try (by apply Hstop, not_settled).
  destruct (Hfound name r eq_refl) as [Hh Hd]. assert (Hhw : holds (store w) name r) by (destruct H1 as [E1 _]; by rewrite E1 in Hh).
  apply wp_seq. eapply wp_only_reads; [apply reads_applies| |].
  2: { intros o w3 H3 Ho. assert (still w w3) by by etrans. destruct Ho as [-> | ->]; (apply Hquiet; [done|by apply not_settled]). }
  intros applies w3 H3 Happ. cbn [andthen]. assert (H13 : still w w3) by by etrans.
  assert (Hstop3 : forall o, ~ settled (Done o) -> wp (mret o) (passed id w) w3) by (intros o Ho; by apply wp_done, Hquiet).
  assert (Hlook : forall (k : result () ControlNow -> M RecoveryOutcome),
    (forall now w', read (p_unit r) (p_selector r) (c_current now) w w' -> wp (k (Ok now)) (passed id w) w') ->
    (forall w', still w w' -> wp (k (Err ())) (passed id w) w') -> wp (now ← control_now r; k now) (passed id w) w3).
  { intros k Hk He. apply wp_seq, wp_control_now; [intros now w4 [E4 L4]|intros w4 H4|intros o w4 H4 Ho]; cbn [andthen].
    - apply Hk. destruct H13 as [E L]. split; congruence.
    - apply He. by etrans.
    - assert (still w w4) by by etrans. destruct Ho as [-> | ->]; (apply Hquiet; [done|by apply not_settled]). }
  destruct applies as [[]|m].
  - destruct (Happ eq_refl) as [Hmax Hpub]. apply Hlook; [|intros w' Hw'; by apply wp_done, Hquiet, not_settled].
    intros now w4 Hr. destruct (restore_decision r now) as [|orig|] eqn:Ed.
    + eapply wp_cleared; [exact Hhw|exact Hd|by apply decision_as_found|exact Hr].
    + apply decision_write in Ed as [Ho Hatt]. by eapply wp_restore.
    + apply wp_done. eapply passed_read; [exact Hr|by apply not_settled].
  - destruct m; try (by apply Hstop3, not_settled). unfold spent_record_recovery.
    apply Hlook; [|intros w' Hw'; by apply wp_done, Hquiet, not_settled].
    intros now w4 Hr. destruct (restore_decision r now) as [|orig|] eqn:Ed;
      [eapply wp_cleared; [exact Hhw|exact Hd|by apply decision_as_found|exact Hr]|..];
      (apply wp_done; eapply passed_read; [exact Hr|by apply not_settled]).
Qed.
End Pass.

(** ** What holds of every pass *)

Section Claims.
Context `{PendingCodec} (sha256_hex : bytes -> str).

(** ** One pass *)

Lemma sends_app l1 l2 : sends (l1 ++ l2) = (sends l1 + sends l2)%nat.
Proof. unfold sends. by rewrite List.filter_app, length_app. Qed.
Lemma sends_none l u s v : sends l = 0%nat -> Sent u s v ∉ l.
Proof. induction l as [|[] l IH]; unfold sends in *; simpl; set_solver. Qed.

(** What a pass writes is the original of a record of this camera, to the
    control the record names, which the camera publishes; the last thing the
    camera said before was that the control holds the value irlume had tried;
    and there is one such write at most. *)
Theorem recovery_restores_original `{Env} id w o w' :
  recover_pending_write sha256_hex id w = (o, w') ->
  exists new, log w' = new ++ log w /\ (sends new <= 1)%nat
    /\ forall u s v, Sent u s v ∈ new ->
       exists name r now later earlier,
         new = later ++ Sent u s v :: Read_ u s now :: earlier /\ sends later = 0%nat /\ sends earlier = 0%nat
         /\ holds (store w) name r /\ describes_this_camera sha256_hex r id = true
         /\ u = p_unit r /\ s = p_selector r /\ original_bytes r = Some v /\ from_hex (attempted r) = Some now
         /\ restore_attempts r < MAX_RESTORE_ATTEMPTS
         /\ exists ms, microsoft_xu id = Some ms /\ unit_id ms = u /\ advertises ms s = true.
Proof.
  intros Hrun. pose proof (wp_recover sha256_hex id w) as Hw. unfold wp in Hw. rewrite Hrun in Hw. cbn [fst snd] in Hw.
  destruct Hw as (new & Hlog & Hw). exists new. split; [done|].
  destruct Hw as [(_ & Hn & _)|(name & r & orig & [Hh Hd Ho _ _ Hs])].
  { split; [lia|]. by intros u s v ?%sends_none. }
  destruct Hs as [[Hn _]|(Hmax & Hpub & _ & later & now & earlier & Hnow & Hl & He & ->)].
  { split; [lia|]. by intros u s v ?%sends_none. }
  split; [rewrite sends_app, Hl; unfold sends in *; simpl; lia|].
  intros u s v Hin. pose proof (sends_none later u s v Hl). pose proof (sends_none earlier u s v He).
  assert (Sent u s v = Sent (p_unit r) (p_selector r) orig) as [= -> -> ->] by set_solver.
  by exists name, r, now, later, earlier.
Qed.

(** A record's file goes, or the pass says the control is as it was, only
    when the last thing the camera said is that the control holds the
    original of the record. *)
Theorem record_kept_until_restored `{Env} id w o w' :
  recover_pending_write sha256_hex id w = (o, w') ->
  (forall name, vis (store w) !! Some name <> None -> vis (store w') !! Some name = None ->
     exists r orig rest, holds (store w) name r /\ describes_this_camera sha256_hex r id = true
       /\ original_bytes r = Some orig /\ log w' = Read_ (p_unit r) (p_selector r) orig :: rest ++ log w)
  /\ (settled o ->
     exists name r orig rest, holds (store w) name r /\ describes_this_camera sha256_hex r id = true
       /\ original_bytes r = Some orig /\ log w' = Read_ (p_unit r) (p_selector r) orig :: rest ++ log w).
Proof.
  intros Hrun. pose proof (wp_recover sha256_hex id w) as Hw. unfold wp in Hw. rewrite Hrun in Hw. cbn [fst snd] in Hw.
  destruct Hw as (new & Hlog & [(Hst & _ & Hno)|(name & r & orig & [Hh Hd Ho Hsp Hset _])]).
  { split; [intros name Hv; by rewrite Hst|done]. }
  assert (Hend : vis (store w') !! Some name = None \/ settled o ->
    exists rest, log w' = Read_ (p_unit r) (p_selector r) orig :: rest ++ log w).
  { intros [rest ->]%Hset. exists rest. by rewrite Hlog. }
  split.
  - intros name' Hv Hv'. destruct (decide (name' = name)) as [->|Hne].
    + destruct Hend as [rest ?]; [by left|]. by exists r, orig, rest.
    + destruct (Hsp (Some name')) as [Hsame _]; [congruence|]. congruence.
  - intros Hs. destruct Hend as [rest ?]; [by right|]. by exists name, r, orig, rest.
Qed.

(** ** All passes *)

(** From a disk, passes for any cameras under any answers, and power losses,
    with no new record: how many writes went out in all. *)
Inductive recoveries : disk -> nat -> disk -> Prop :=
| none_more d : recoveries d 0 d
| one_pass (env : Env) id w o w' n d :
    log w = [] -> recover_pending_write sha256_hex id w = (o, w') ->
    recoveries (store w') n d -> recoveries (store w) (sends (log w') + n) d
| lost_power d1 d2 n d : power_loss d1 d2 -> recoveries d2 n d -> recoveries d1 n d.

(** The records the files may hold are named in [names], and have used at
    least the attempts [k] says. *)
Definition counted (k : str -> Z) (names : list str) (d : disk) : Prop :=
  forall name b r, Some b ∈ poss d (Some name) -> parse_pending b = Some r -> name ∈ names /\ k name <= restore_attempts r.

Definition remaining (k : str -> Z) (names : list str) : nat :=
  sum_list (map (fun name => Z.to_nat (MAX_RESTORE_ATTEMPTS - k name)) names).

Lemma remaining_set k names name n :
  NoDup names -> name ∈ names -> k name < n -> n <= MAX_RESTORE_ATTEMPTS ->
  (remaining (<[name := n]> k) names + 1 <= remaining k names)%nat.
Proof.
  unfold remaining. induction 1 as [|x names Hx Hnd IH]; [by intros ?%elem_of_nil|]. intros Hin Hk Hn. simpl.
  destruct (decide (x = name)) as [->|Hne].
  - rewrite fn_lookup_insert. replace (map _ names) with (map (fun name => Z.to_nat (MAX_RESTORE_ATTEMPTS - k name)) names); [lia|].
    apply map_ext_in. intros y Hy%list_elem_of_In. rewrite fn_lookup_insert_ne by (intros ->; done). done.
  - rewrite fn_lookup_insert_ne by done. apply elem_of_cons in Hin as [->|Hin]; [done|]. specialize (IH Hin Hk Hn). lia.
Qed.

Lemma counted_vis k names d name r :
  counted k names d -> holds d name r -> name ∈ names /\ k name <= restore_attempts r.
Proof. intros Hc (b & Hv & Hp). apply (Hc name b); [|done]. unfold poss. rewrite Hv. by left. Qed.
Lemma counted_power k names d d' : power_loss d d' -> counted k names d -> counted k names d'.
Proof.
  intros (Hv & Ho & Hl) Hc name b r Hb. apply (Hc name b). specialize (Hv (Some name)).
  unfold poss in Hb. rewrite Ho, lookup_empty, Hl in Hb. apply elem_of_cons in Hb as [Hb|Hb]; [by rewrite Hb|].
  simpl in Hb. by destruct (_ || _); simpl in Hb; set_solver.
Qed.

Lemma text_counts `{!PendingLaws} r x b r' :
  text_or_none r x -> x = Some b -> parse_pending b = Some r' -> r' = r.
Proof. intros [->|(c & Hc & ->)] [= ->] Hp. apply pending_parses in Hc. congruence. Qed.

(** What one pass writes is paid for on the disk it leaves. *)
Lemma pass_pays `{!PendingLaws} `{Env} id w o w' k names :
  NoDup names -> log w = [] -> counted k names (store w) -> recover_pending_write sha256_hex id w = (o, w') ->
  exists k', counted k' names (store w') /\ (sends (log w') + remaining k' names <= remaining k names)%nat.
Proof.
  intros Hnd Hl Hc Hrun. pose proof (wp_recover sha256_hex id w) as Hw. unfold wp in Hw. rewrite Hrun in Hw. cbn [fst snd] in Hw.
  destruct Hw as (new & Hlog & Hw). rewrite Hl, app_nil_r in Hlog. subst new.
  destruct Hw as [(Hst & Hn & _)|(name & r & orig & [Hh _ _ Hsp _ Hs])].
  { exists k. rewrite Hn, Hst. by split. }
  destruct (counted_vis _ _ _ _ _ Hc Hh) as [Hin Hk].
  destruct Hs as [[Hn Hp]|(Hmax & _ & Hp & later & now & earlier & _ & Hla & He & Hnew)].
  - exists k. rewrite Hn. split; [|done]. intros name' b r' Hb Hr'. destruct (decide (name' = name)) as [->|Hne].
    + destruct (Hp _ Hb) as [Ht|[Ht|Hold]]; [..|by apply (Hc name b)];
        pose proof (text_counts _ _ _ _ Ht eq_refl Hr') as ->; simpl; (split; [done|lia]).
    + apply (Hc name' b); [|done]. by apply (Hsp (Some name') ltac:(congruence)).
  - exists (<[name := restore_attempts r + 1]> k). split.
    + intros name' b r' Hb Hr'. destruct (decide (name' = name)) as [->|Hne].
      * rewrite fn_lookup_insert. pose proof (text_counts _ _ _ _ (Hp _ Hb) eq_refl Hr') as ->. by split.
      * rewrite fn_lookup_insert_ne by done. apply (Hc name' b); [|done]. by apply (Hsp (Some name') ltac:(congruence)).
    + rewrite Hnew, sends_app, Hla. change (sends (Sent (p_unit r) (p_selector r) orig :: Read_ (p_unit r) (p_selector r) now :: earlier))
        with (S (sends earlier)). rewrite He.
      pose proof (remaining_set k names name (restore_attempts r + 1) Hnd Hin). lia.
Qed.

(** However many passes there are, whatever fails, dies or loses power in
    between, the writes to cameras are at most the attempts the records have
    left: three for a new record. *)
Theorem recovery_writes_bounded `{!PendingLaws} d n d' k names :
  recoveries d n d' -> NoDup names -> counted k names d -> (n <= remaining k names)%nat.
Proof.
  intros Hrun Hnd. revert k. induction Hrun as [d|env id w o w' n d Hl Hrun _ IH|d1 d2 n d Hp _ IH]; intros k Hc.
  - lia.
  - destruct (pass_pays id w o w' k names Hnd Hl Hc Hrun) as (k' & Hc' & Hle). specialize (IH k' Hc'). lia.
  - apply IH. by eapply counted_power.
Qed.
End Claims.

(** ** An interrupted run, put back *)

Section Camera.
Definition camera : CameraIdentity :=
  MkIdentity
    (map byte_of ([18; 1; 0; 2; 239; 2; 1; 64; 0; 0; 0; 0; 0; 0; 0; 0; 0; 1]
       ++ [9; 2; 44; 0; 1; 1; 0; 128; 250] ++ [9; 4; 0; 0; 0; 14; 1; 0; 0] ++ [26; 36; 6; 4])
     ++ MS_CAMERA_CONTROL_XU ++ map byte_of [1; 1; 3; 1; 32; 0])
    1 0 4660 22136 None (str_codes "1-3").

Local Definition digest_ (_ : bytes) : str := str_codes "ab".
(** A record after [n] attempts, and the text of such a record. *)
Definition undo (n : Z) : PendingWrite :=
  MkPending 1 [] (str_codes "ab") (usb_id camera) 0 4 6 2 (str_codes "0100") (str_codes "0001") n None None None (str_codes "1-3").
#[local] Instance pending_eq : EqDecision PendingWrite.
Proof. solve_decision. Defined.
#[local] Instance small_codec : PendingCodec := {
  print_pending r := if bool_decide (r = undo (restore_attempts r)) && bool_decide (0 <= restore_attempts r <= 100)
                     then Some [byte_of (restore_attempts r)] else None;
  parse_pending b := match b with [c] => Some (undo (byte_val c)) | _ => None end;
  parse_identity b := Some (str_codes "ab", str_codes "1-3");
}.
(** The control holds the value tried until the call [n]. *)
#[local] Instance until (n : nat) : Env := {
  fate _ := Good;
  reply i _ _ q := Ok (map byte_of match q with
                     | GET_LEN => [2; 0] | GET_INFO => [3] | GET_CUR => if bool_decide (i < n)%nat then [0; 1] else [1; 0] | _ => [] end);
  accepts _ _ _ _ := Ok ();
  locked _ := LockTaken;
  boot_id_now _ := None;
  alive _ _ := false;
  listing _ l := l;
}.
Definition undo_file : str := record_path (filing_key digest_ camera).
Definition interrupted (n : Z) : world := MkWorld 0 (MkDisk {[Some undo_file := [byte_of n]]} ∅ true) [].

(** The control takes the original: it is restored, and the record goes. *)
Example interrupted_restored :
  let '(o, w) := recover_pending_write (H := until 12) digest_ camera (interrupted 0) in
  o = Done (Restored 4 6) /\ sends (log w) = 1%nat /\ vis (store w) !! Some undo_file = None.
Proof. by vm_compute. Qed.

(** It never takes it: three passes write, and no fourth does. *)
Definition stubborn (n : Z) : outcome RecoveryOutcome * world := recover_pending_write (H := until 100) digest_ camera (interrupted n).
Example stubborn_unresolved n :
  n ∈ [0; 1; 2] -> stubborn n = (Done Unresolved, (stubborn n).2) /\ sends (log (stubborn n).2) = 1%nat
                   /\ vis (store (stubborn n).2) !! Some undo_file = Some [byte_of (n + 1)].
Proof. intros [->|[->|[->|?]%elem_of_cons]%elem_of_cons]%elem_of_cons; [by vm_compute..|by set_solver]. Qed.
Example stubborn_spent : (stubborn 3).1 = Done Unresolved /\ sends (log (stubborn 3).2) = 0%nat.
Proof. by vm_compute. Qed.

#[local] Instance small_laws : PendingLaws.
Proof.
  split; intros r b; simpl; destruct (bool_decide _) eqn:Hr; simpl; try done; destruct (bool_decide (0 <= _ <= 100)) eqn:Hn; try done;
    intros [= <-]; apply bool_decide_eq_true in Hr, Hn.
  - by rewrite byte_val_of, Z.mod_small, <- Hr by lia.
  - simpl. rewrite byte_val_of, Z.mod_small by lia. unfold is_utf8. simpl. by rewrite bool_decide_true by lia.
Qed.

(** The bound is reached. *)
Example stubborn_bound :
  exists d, recoveries digest_ (store (interrupted 0)) 3 d
    /\ remaining (fun _ => 0) [undo_file] = 3%nat /\ counted (fun _ => 0) [undo_file] (store (interrupted 0)).
Proof.
  exists (store (stubborn 2).2). split_and!; [|done|].
  - assert (Hpass : forall n d m, recoveries digest_ (store (stubborn n).2) m d -> sends (log (stubborn n).2) = 1%nat ->
      recoveries digest_ (store (interrupted n)) (1 + m) d).
    { intros n d m Hd Hs. rewrite <- Hs. by eapply (one_pass _ (until 100) camera (interrupted n)); [|apply surjective_pairing|]. }
    assert (Hnext : forall n, n = 0 \/ n = 1 -> store (stubborn n).2 = store (interrupted (n + 1))).
    { by intros n [-> | ->]; vm_compute. }
    apply (Hpass 0 _ 2%nat); [|by vm_compute]. rewrite Hnext by auto. apply (Hpass 1 _ 1%nat); [|by vm_compute]. rewrite Hnext by auto.
    apply (Hpass 2 _ 0%nat); [apply none_more|by vm_compute].
  - intros name b r Hb Hp. unfold poss, interrupted in Hb. cbn [vis old linked store] in Hb. rewrite lookup_empty in Hb.
    apply elem_of_cons in Hb as [Hb|Hb]; [|by apply elem_of_nil in Hb].
    symmetry in Hb. apply lookup_singleton_Some in Hb as [[= <-] <-]. injection Hp as <-. split; [by left|done].
Qed.
End Camera.
